(* ===== verification/_CoqProject ===== *)
-Q . S2P
Prelude.v
Hex.v
Packet.v
FrameProcessor.v
VerifierProtocol.v
VerifierConversation.v
AgentRegistry.v
InteractionRegistry.v
ClientTracker.v
AgentService.v
CredentialStore.v
CredentialStoreProofs.v
CredentialQueries.v
CborRequests.v
Cbor.v
CborResponses.v
Ceremony.v
CeremonyProofs.v
EventLoop.v
EventLoopProofs.v
VerifierSocket.v
VerifierClient.v
VerifierService.v
VerifierServiceProofs.v
AuthHandler.v
Verification.v
UserInteraction.v
UserInteractionProofs.v
StoreSecurity.v
Authorization.v
Listing.v
Administration.v
TpmKeys.v
AgentLoop.v
Daemon.v
AgentClient.v
AgentUi.v
StoreFiles.v
DebugAgent.v
ExampleAgent.v
BusInterface.v
CommandLine.v
VerifierProcess.v
Logging.v
SecretMemory.v
ProcessResources.v
Animation.v
