(* ===== verification/Prelude.v ===== *)
(** * vAuth: a verification development

    vAuth is a software authenticator for Linux: a daemon presents a virtual USB security
    key (a uhid device), answers CTAP2 requests of browsers with credentials whose keys are
    sealed in the TPM, and asks the local user for consent through an agent on the D-Bus and
    through PAM.  This library models the daemon's own logic as executable definitions and
    proves the properties it relies on.

    ** The parts of the program and the files that model them

    A request travels through these parts, in this order.

    - _The device protocol_ (src/src/packet.cpp, response.cpp, frame_processor.cpp).  Packet.v
      models CTAPHID packets and cutting a response into 64-byte reports; FrameProcessor.v the
      state machine that reassembles messages from reports, with its deadline.
    - _The event loop_ (src/src/event.cpp, keepalive.hpp).  EventLoop.v models the loop of
      [run]: one turn of it is a function of what poll, the device and the clock deliver, and
      the worker thread that executes a CTAP request takes its own steps in between.
    - _CTAP requests_ (src/src/cbor_operations, registration, authentication,
      ctap_command_handler.cpp).  CborRequests.v models the readers and both request parsers
      over the TinyCBOR library, CborResponses.v the response builders, Ceremony.v the command
      handler, registration, assertion and the continuation sequence.  Cbor.v is a reference
      for the encoding, with a reader of its own.
    - _Credentials_ (src/src/credentials/credential.cpp, storage/generation_counter.hpp).
      CredentialStore.v models the store with its envelope, its file and its rollback counter
      under faults and crashes, StoreFiles.v the system calls behind the file.
    - _The store's key_ (src/src/cryptography/store_security.cpp, storage/authorization.cpp,
      src/vauthctl/src/provisioning.cpp).  StoreSecurity.v models the TPM objects that hold
      the store's key and its rollback counter, Authorization.v the text that guards them:
      how it is created, installed and read.
    - _The credentials' keys_ (src/src/cryptography/tpm.cpp, crypto.cpp).  TpmKeys.v models the
      key provider: the parent in the TPM, the authorisation derived for each credential,
      creating, signing, the blobs and the transient handles.
    - _The agent_ (src/src/dbus).  AgentRegistry.v models who is registered,
      InteractionRegistry.v the pending interaction with its answers and waits,
      AgentService.v the D-Bus methods with their authorisation, AgentLoop.v the thread that
      handles messages and sends the queued events, BusInterface.v the declared methods, the
      arguments and replies of the messages and the calls the agents make.
    - _The graphical agent_ (src/client).  ClientTracker.v models the agent's own view of the
      interaction (interaction_model.cpp), AgentClient.v its end of the D-Bus connection
      (agent_client.cpp), AgentUi.v the window with its callbacks and timers and
      Animation.v the frames it draws (main.cpp).
    - _Agents on a terminal_.  DebugAgent.v models the debug agent (src/client/debug_agent.cpp)
      with the standard input and the terminal's settings, ExampleAgent.v the example for
      writing agents (src/examples/agents/cpp/agent.cpp).
    - _Asking the user_ (src/src/uv/src/auth.cpp).  UserInteraction.v models presence and
      verification requests on the worker thread, interleaved with the D-Bus thread.
    - _PAM_ (src/src/uv/src).  VerifierProtocol.v models the packets and
      VerifierConversation.v the conversation between the daemon and the PAM verifier;
      VerifierSocket.v its socket, VerifierClient.v the daemon's end, VerifierService.v the
      privileged service with its child process, AuthHandler.v that child, which talks to PAM.
      VerifierProcess.v models the system calls behind the service's sockets and its child,
      ProcessResources.v the daemon's connection, its shutdown signal, the pipe of a secret and
      the PAM session, SecretMemory.v the memory that secrets pass through
      (sensitive_bytes.hpp).
    - _The administration tool_ (src/vauthctl/src).  Administration.v models the commands, the
      second process that vauthctl starts under systemd-run and the operations on the store;
      Listing.v what is printed and the identifiers that are read back; CommandLine.v the
      declared subcommands and options and what is made of them.
    - _Start-up_ (src/src/vauth.cpp, device.cpp).  Daemon.v models [main]: the choice between
      the three programs of the executable, the start of the verifier service, and the
      daemon's sequence from the shutdown signal to the created device.
    - Hex.v models the hexadecimal text used by the store and the tool, Logging.v the log
      (src/src/log.cpp) and the messages of a debug build.

    This file holds what they share: the exceptions the code throws, results ([res]) and
    stateful code ([ST], where the state survives a thrown exception) with their weakest
    preconditions, fixed-width integers, byte strings and their lemmas.

    ** How code is modelled

    A C++ function becomes a function of the same name where Rocq allows it.  A thrown
    exception is the [Throw] of a result.  Unsigned integers are [Z] with the wrap-around of
    their width written out ([u8], [u16], [u32], [u64]); byte strings are lists of [Z].  Clocks
    are integers in nanoseconds.  What system calls, logind, the message bus, PAM modules, the
    TPM, OpenSSL, TinyCBOR, the JSON library and a hash map's order answer is an argument or a
    field of a class ([CeremonyEnv], [StoreEnv], [TinyCbor], [TinyCborEncoder], [Login],
    [BusCall], [ObjectBus], [Accounts], [PamStack], [Descriptor], [Fapi], [KeyStack], [CliLibrary],
    [Rlottie]);
    laws the code relies on are fields of the same class, and each is instantiated by a
    concrete function in the witnesses.

    Loops that wait consume a list of what each turn meets; the end of the list means that
    the call is still waiting ([None]).  Theorems about such a loop's result hold for every
    list, and the termination theorems say which lists are long enough: those with a turn at
    or after the deadline.  Other loops are structurally recursive or carry a fuel that is
    proved sufficient (ACCOUNT_FUEL: a lookup buffer reaches its limit of 1 MiB after at most
    20 doublings; CborRequests.v: the bytes left).

    Concurrency is modelled as interleaving of steps: the methods of the registries hold
    their mutex and are one step each; the event loop and its worker are a step relation; a
    user interaction's state carries a schedule of what the D-Bus thread does before each
    lock it takes.

    The worker of Ceremony.v keeps a trace of its calls to the outside with their answers: the
    contexts it read, the questions it asked, the digests it had signed.  The calls
    themselves record it ([read_context], [request_presence], [request_verification],
    [sign_digest]), so that theorems about the trace are about the bytes that left the worker.

    ** What is proved

    - Consent (CeremonyProofs.v, UserInteractionProofs.v, AgentService.v,
      InteractionRegistry.v): every digest that is signed is that of authenticator data which
      claim user presence or verification only after a matching approval, and an assertion's
      data carry a fresh counter value; an approval was given by the registered agent of the
      same registration for that very request, in an active local session, in every
      interleaving; an approved verification rests on secrets that agent submitted and on
      PAM's authentication of the same user (with AuthHandler.v, VerifierServiceProofs.v and
      Verification.v for the three programs involved).
    - The PAM verifier's processes (VerifierProcess.v, ProcessResources.v): the child is
      confined to its streams and its socket and to a process group of its own; the system
      calls implement the steps the service and its client are verified with, and on every
      path, whichever call fails, descriptors, spawn objects, signal mask, PAM session and
      child are given back; a secret's pipe is at its end when the daemon reads it.
    - Secrets in memory (SecretMemory.v): what is freed is zero, for every use of the class
      that holds secrets and for the replies to PAM.
    - Serialisation of requests (EventLoopProofs.v): the loop and its worker, however
      interleaved, refine a session specification with one request at a time; one response
      per request, no reset of the handler while the worker runs, every frame is handled.
    - Storage (CredentialStoreProofs.v, CredentialQueries.v, StoreFiles.v): operations are
      atomic across faults and crashes, the store can be loaded again unless it has outgrown
      the reader's size limit (which the writer does not check), rollback is detected, users
      are isolated, lookups return exactly the matching credentials, signature counters grow.
      The calls that replace the file, each of which may fail, stop half-way or
      be the last before a crash, implement the single step the store is verified with.
    - The store's key (StoreSecurity.v, Authorization.v): provisioning the TPM is all or
      nothing, its counter implements the one the store is verified against, the
      authorisation survives its way through the credential file and is installed once.
    - The credentials' keys (TpmKeys.v): a key signs only under the identifier it was created
      for, and the provider leaves nothing behind in the TPM.
    - Start-up (Daemon.v): the event loop is entered with the lock, the sealed store, the keys
      derived from its key and the device, or nothing is left behind; the verifier service
      and its PAM child are entered only the way the service starts them.
    - The agent service's thread (AgentLoop.v): no queued event and no stop request is missed,
      and after a stop request only messages that keep arriving hold the thread up.
    - The bus (BusInterface.v): a message acts as one of the operations that the service is
      verified with, or not at all.
    - The graphical agent (ClientTracker.v, AgentClient.v, AgentUi.v): it shows what the daemon
      publishes, all of it and in order, its answers are for the request and prompt on
      display, and a secret reaches the daemon as it was typed.  DebugAgent.v: one answer per
      request, what was typed, and the terminal as it was before; ExampleAgent.v: its test of
      events is the graphical agent's.
    - Administration (Administration.v, Listing.v, CommandLine.v): vauthctl works on the store
      only in the managed context and on complete commands, each command does exactly what it
      says or leaves the store as it was, the second process gets the request of the first,
      and the list shows exactly the matching credentials without control bytes of their own.
      The command-line library accepts an empty text for an optional value and leaves the
      value unset; a deletion without an owner that results from this is refused.
    - Protocols (FrameProcessor.v, VerifierProtocol.v, VerifierConversation.v, CborRequests.v,
      Cbor.v, CborResponses.v): round trips, invariants on arbitrary input, limits,
      termination; a response is read back as exactly the map that the protocol describes.
    - Liveness: waits end, requests come to an end, every request is answered once.
    - Defects of the program are theorems, too: ClientTracker.late_cancel_strands_agent,
      CredentialQueries.oversized_store_locks_out and failed_put_takes_effect,
      AgentUi.second_enter_cancels and DebugAgent.debug_input_sticks; the loss of a new store
      directory is part of StoreFiles.store_write_crash_safe, the delay of a stop of
      AgentLoop.agent_thread_wakes.

    ** What is not modelled

    - The D-Bus connection itself (sd-bus, the bus and its policy).
    - The memory of keys (the buffers that OpenSSL cleanses); the descriptors of the device
      and of the event loop's [eventfd].
    - The library that parses vauthctl's command line, the window toolkit, the example agents
      in Go and Python. *)
From Stdlib Require Import ZArith Lia.
From stdpp Require Import base list gmap strings sorting.

(** ** Notation *)

Declare Scope vauth_scope.
Delimit Scope vauth_scope with vauth.
Open Scope Z_scope.
Open Scope vauth_scope.

(** The size of a [std::vector], [std::span] or [std::string]. *)
Abbreviation len l := (Z.of_nat (length l)).

(** ** Exceptions

    The exception classes the code throws.  The classes of the standard library
    and of [cancellation.hpp] keep their names; the payload of
    [CborEncodingError] is its [CborEncodingFailure]. *)

Inductive CborEncodingFailure :=
  | resource_limit
  | invalid_structure.

Inductive exn :=
  | OperationCancelled
  | UserActionTimedOut
  | UserInteractionCancelled
  | UserInteractionUnavailable
  | VerificationInfrastructureError
  | CborEncodingError (f : CborEncodingFailure)
  | CborError
  | VerifierProtocolError
  | VerifierConversationError
  | VerifierSocketError
  | invalid_argument
  | length_error
  | out_of_range
  | logic_error
  | overflow_error
  | runtime_error
  | system_error
  | json_error.

#[global] Instance CborEncodingFailure_eq_dec : EqDecision CborEncodingFailure.
Proof. solve_decision. Defined.
#[global] Instance exn_eq_dec : EqDecision exn.
Proof. solve_decision. Defined.

(** ** Results: a returned value or a thrown exception *)

Inductive res (A : Type) :=
  | Ret (a : A)
  | Throw (e : exn).
Arguments Ret {A} a.
Arguments Throw {A} e.

#[global] Instance res_ret : MRet res := λ A a, Ret a.
#[global] Instance res_bind : MBind res := λ A B k m,
  match m with Ret a => k a | Throw e => Throw e end.
#[global] Instance res_fmap : FMap res := λ A B f m,
  match m with Ret a => Ret (f a) | Throw e => Throw e end.

(** [throw_if c as e ;; k] is [if(c) throw e;] followed by [k]. *)
Notation "'throw_if' c 'as' e ';;' k" := (if c then Throw e else k)
  (at level 100, c at level 99, e at level 99, k at level 200, right associativity,
   only parsing) : vauth_scope.

Definition is_ret {A} (r : res A) : bool :=
  match r with Ret _ => true | Throw _ => false end.

(** ** Stateful code: the state survives a thrown exception *)

Definition ST (S A : Type) : Type := S → res A * S.

Definition st_ret {S A} (a : A) : ST S A := λ s, (Ret a, s).
Definition st_bind {S A B} (m : ST S A) (k : A → ST S B) : ST S B := λ s,
  match m s with
  | (Ret a, s') => k a s'
  | (Throw e, s') => (Throw e, s')
  end.

Notation "'let!' x ':=' m 'in' k" := (st_bind m (λ x, k))
  (at level 10, x pattern, m at level 100, k at level 200) : vauth_scope.

Definition st_throw {S A} (e : exn) : ST S A := λ s, (Throw e, s).
Definition st_get {S} : ST S S := λ s, (Ret s, s).
Definition st_put {S} (s' : S) : ST S unit := λ _, (Ret tt, s').
Definition st_modify {S} (f : S → S) : ST S unit := λ s, (Ret tt, f s).
Definition st_lift {S A} (r : res A) : ST S A := λ s, (r, s).
(** [try { m } catch(e) { h e }] where [h] says what each exception does. *)
Definition st_catch {S A} (m : ST S A) (h : exn → ST S A) : ST S A := λ s,
  match m s with
  | (Ret a, s') => (Ret a, s')
  | (Throw e, s') => h e s'
  end.

(** ** Weakest preconditions of stateful code

    [wp m Q s]: run from [s], the code [m] ends (by returning or by throwing) with a result
    and a state that satisfy [Q]. *)

Definition wp {S A} (m : ST S A) (Q : res A → S → Prop) (s : S) : Prop :=
  Q (m s).1 (m s).2.

Section wp_rules.
Context {S : Type}.

Lemma wp_mono {A} (m : ST S A) (Q Q' : res A → S → Prop) s :
  (∀ r s', Q r s' → Q' r s') → wp m Q s → wp m Q' s.
Proof. intros HQ Hw. by apply HQ. Qed.

Lemma wp_bind {A B} (m : ST S A) (k : A → ST S B) Q s :
  wp m (λ r s', match r with Ret a => wp (k a) Q s' | Throw e => Q (Throw e) s' end) s →
  wp (st_bind m k) Q s.
Proof. unfold wp, st_bind. by destruct (m s) as [[a|e] s']. Qed.

Lemma wp_ret {A} (a : A) Q (s : S) : Q (Ret a) s → wp (st_ret a) Q s.
Proof. done. Qed.
Lemma wp_throw {A} e (Q : res A → S → Prop) s : Q (Throw e) s → wp (st_throw e) Q s.
Proof. done. Qed.
Lemma wp_lift {A} (r : res A) Q (s : S) : Q r s → wp (st_lift r) Q s.
Proof. done. Qed.
Lemma wp_get Q (s : S) : Q (Ret s) s → wp st_get Q s.
Proof. done. Qed.
Lemma wp_modify f Q (s : S) : Q (Ret ()) (f s) → wp (st_modify f) Q s.
Proof. done. Qed.
Lemma wp_catch {A} (m : ST S A) h Q s :
  wp m (λ r s', match r with Ret a => Q (Ret a) s' | Throw e => wp (h e) Q s' end) s →
  wp (st_catch m h) Q s.
Proof. unfold wp, st_catch. by destruct (m s) as [[a|e] s']. Qed.

Lemma wp_and {A} (m : ST S A) (Q Q' : res A → S → Prop) s :
  wp m Q s → wp m Q' s → wp m (λ r s', Q r s' ∧ Q' r s') s.
Proof. by split. Qed.

Lemma wp_run {A} (m : ST S A) Q s r s' : wp m Q s → m s = (r, s') → Q r s'.
Proof. unfold wp. intros HQ E. by rewrite E in HQ. Qed.
End wp_rules.

Ltac wp_basic :=
  lazymatch goal with
  | |- wp (st_bind _ _) _ _ => apply wp_bind
  | |- wp (st_catch _ _) _ _ => apply wp_catch
  | |- wp (st_ret _) _ _ => apply wp_ret
  | |- wp (st_throw _) _ _ => apply wp_throw
  | |- wp (st_lift _) _ _ => apply wp_lift
  | |- wp st_get _ _ => apply wp_get
  | |- wp (st_modify _) _ _ => apply wp_modify
  end.

(** ** Fixed-width unsigned integers *)

Definition u8 (z : Z) : Z := z mod 2 ^ 8.
Definition u16 (z : Z) : Z := z mod 2 ^ 16.
Definition u32 (z : Z) : Z := z mod 2 ^ 32.
Definition u64 (z : Z) : Z := z mod 2 ^ 64.

Definition U8_MAX : Z := 255.
Definition U16_MAX : Z := 65535.
Definition U32_MAX : Z := 4294967295.
Definition U64_MAX : Z := 18446744073709551615.

Abbreviation is_u8 z := (0 ≤ z < 256).
Abbreviation is_u16 z := (0 ≤ z < 65536).
Abbreviation is_u32 z := (0 ≤ z < 4294967296).
Abbreviation is_u64 z := (0 ≤ z < 18446744073709551616).

(** A byte buffer holds bytes. *)
Definition bytes_ok (l : list Z) : Prop := Forall (λ b, is_u8 b) l.

(** Element access that the code has bounds-checked beforehand. *)
Definition byte_at (l : list Z) (i : nat) : Z := default 0 (l !! i).

(** A string literal of the source, as its bytes. *)
Fixpoint lit (s : string) : list Z :=
  match s with
  | EmptyString => []
  | String c s' => Z.of_nat (Ascii.nat_of_ascii c) :: lit s'
  end.

(** The characters before the first NUL, where a C string ends. *)
Fixpoint c_string (text : list Z) : list Z :=
  match text with
  | [] => []
  | c :: text => if c =? 0 then [] else c :: c_string text
  end.

(** [std::chrono] durations, in nanoseconds. *)
Definition seconds (n : Z) : Z := n * 1000000000.
Definition milliseconds (n : Z) : Z := n * 1000000.

(** ** Tactics *)

(** Case analysis on every [match]/[if] of a hypothesis or the goal, closing the
    contradictory branches. *)
Ltac split_cases :=
  repeat (first [progress simplify_eq/= | case_match]); try done.

(** Reflect boolean tests in the context. *)
Ltac reflect_bools :=
  repeat match goal with
  | H : _ && _ = true |- _ => apply andb_true_iff in H as [? ?]
  | H : _ && _ = false |- _ => apply andb_false_iff in H
  | H : _ || _ = true |- _ => apply orb_true_iff in H
  | H : _ || _ = false |- _ => apply orb_false_iff in H as [? ?]
  | H : negb _ = true |- _ => apply negb_true_iff in H
  | H : negb _ = false |- _ => apply negb_false_iff in H
  | H : bool_decide _ = true |- _ => apply bool_decide_eq_true in H
  | H : bool_decide _ = false |- _ => apply bool_decide_eq_false in H
  | H : (_ =? _) = true |- _ => apply Z.eqb_eq in H
  | H : (_ =? _) = false |- _ => apply Z.eqb_neq in H
  | H : (_ <? _) = true |- _ => apply Z.ltb_lt in H
  | H : (_ <? _) = false |- _ => apply Z.ltb_ge in H
  | H : (_ <=? _) = true |- _ => apply Z.leb_le in H
  | H : (_ <=? _) = false |- _ => apply Z.leb_gt in H
  | H : (_ >? _) = true |- _ => rewrite Z.gtb_ltb in H
  | H : (_ >? _) = false |- _ => rewrite Z.gtb_ltb in H
  | H : (_ >=? _) = true |- _ => rewrite Z.geb_leb in H
  | H : (_ >=? _) = false |- _ => rewrite Z.geb_leb in H
  end.

Create HintDb vauth discriminated.

(** ** Counting the entries of a list *)

Fixpoint count {A} (p : A → bool) (l : list A) : nat :=
  match l with
  | [] => 0
  | x :: l => if p x then S (count p l) else count p l
  end.

Lemma count_elem {A} (p : A → bool) x l : x ∈ l → p x = true → (1 ≤ count p l)%nat.
Proof.
  intros Hx Hp. induction l as [|y l IH]; [by apply not_elem_of_nil in Hx|]. simpl.
  apply elem_of_cons in Hx as [->|Hx]; [rewrite Hp; lia|].
  specialize (IH Hx). destruct (p y); lia.
Qed.

(** Inversion of checked code: what a returned value says about the checks. *)
Lemma bind_unit_ret {A} (m : res ()) (k : res A) a :
  (_ ← m; k) = Ret a ↔ m = Ret () ∧ k = Ret a.
Proof.
  destruct m as [[]|]; simpl; split.
  - done.
  - by intros [_ H].
  - done.
  - by intros [? _].
Qed.

Lemma throw_if_ret {A} (c : bool) e (k : res A) a :
  (throw_if c as e ;; k) = Ret a ↔ c = false ∧ k = Ret a.
Proof. destruct c; split; [done|by intros [? _]|done|by intros [_ ?]]. Qed.

(** ** Bytes *)

Lemma u8_range z : is_u8 (u8 z).
Proof. unfold u8. change 256 with (2 ^ 8). apply Z.mod_pos_bound. lia. Qed.

Lemma u8_small z : is_u8 z → u8 z = z.
Proof. intros. unfold u8. apply Z.mod_small. lia. Qed.

Lemma u16_small z : is_u16 z → u16 z = z.
Proof. intros. unfold u16. apply Z.mod_small. lia. Qed.

Lemma u32_small z : is_u32 z → u32 z = z.
Proof. intros. unfold u32. apply Z.mod_small. lia. Qed.

Lemma u64_small z : is_u64 z → u64 z = z.
Proof. intros. unfold u64. apply Z.mod_small. lia. Qed.

Lemma bytes_ok_nil : bytes_ok [].
Proof. constructor. Qed.

Lemma bytes_ok_cons b l : bytes_ok (b :: l) ↔ is_u8 b ∧ bytes_ok l.
Proof. unfold bytes_ok. by rewrite Forall_cons. Qed.

Lemma bytes_ok_app l k : bytes_ok (l ++ k) ↔ bytes_ok l ∧ bytes_ok k.
Proof. unfold bytes_ok. by rewrite Forall_app. Qed.

Lemma bytes_ok_take n l : bytes_ok l → bytes_ok (take n l).
Proof. apply Forall_take. Qed.

Lemma bytes_ok_drop n l : bytes_ok l → bytes_ok (drop n l).
Proof. apply Forall_drop. Qed.

Lemma byte_at_range l i : bytes_ok l → is_u8 (byte_at l i).
Proof.
  intros H. unfold byte_at. destruct (l !! i) as [b|] eqn:E; simpl; [|lia].
  by apply (Forall_lookup_1 _ _ _ _ H E).
Qed.

(** [bytes_ok] by evaluation, for concrete buffers. *)
Definition bytes_okb (l : list Z) : bool := forallb (λ b, (0 <=? b) && (b <? 256)) l.

Lemma bytes_okb_ok l : bytes_okb l = true → bytes_ok l.
Proof.
  intros Hf. apply Forall_forall. intros x Hx. unfold bytes_okb in Hf.
  rewrite forallb_forall in Hf. apply list_elem_of_In in Hx. specialize (Hf x Hx).
  reflect_bools. lia.
Qed.

#[export] Hint Resolve u8_range bytes_ok_nil bytes_ok_take bytes_ok_drop byte_at_range : vauth.

(** A disjoint [|] is a sum: the big-endian readers combine bytes this way. *)
Lemma lor_shiftl_add hi lo n :
  0 ≤ n → 0 ≤ lo < 2 ^ n → Z.lor (Z.shiftl hi n) lo = hi * 2 ^ n + lo.
Proof.
  intros Hn Hlo. rewrite <- (Z.shiftl_mul_pow2 hi n Hn).
  assert (Z.land (Z.shiftl hi n) lo = 0) as Hdisj.
  { apply Z.bits_inj'. intros m Hm.
    rewrite Z.land_spec, Z.bits_0, Z.shiftl_spec by lia.
    destruct (decide (m < n)) as [Hlt|Hge].
    + by rewrite Z.testbit_neg_r by lia.
    + rewrite andb_comm. rewrite <- (Z.mod_small lo (2 ^ n)) by lia.
      by rewrite Z.mod_pow2_bits_high by lia. }
  by rewrite <- Z.lxor_lor, Z.add_nocarry_lxor.
Qed.

(** [(z >> n) & 0xFF] *)
Lemma shiftr_land_ff z n : 0 ≤ n → Z.land (Z.shiftr z n) 255 = (z / 2 ^ n) mod 256.
Proof.
  intros. change 255 with (Z.ones 8). rewrite Z.land_ones by lia.
  by rewrite Z.shiftr_div_pow2.
Qed.

(** [(b0 << 24) | (b1 << 16) | (b2 << 8) | b3] *)
Definition join32 (b0 b1 b2 b3 : Z) : Z :=
  Z.lor (Z.lor (Z.lor (Z.shiftl b0 24) (Z.shiftl b1 16)) (Z.shiftl b2 8)) b3.

Lemma join32_sum b0 b1 b2 b3 :
  is_u8 b0 → is_u8 b1 → is_u8 b2 → is_u8 b3 →
  join32 b0 b1 b2 b3 = b0 * 2 ^ 24 + b1 * 2 ^ 16 + b2 * 2 ^ 8 + b3.
Proof.
  intros ????. unfold join32.
  replace (Z.shiftl b0 24) with (Z.shiftl (Z.shiftl b0 8) 16) by (by rewrite Z.shiftl_shiftl).
  rewrite <- Z.shiftl_lor, (lor_shiftl_add b0 b1) by (change (2 ^ 8) with 256; lia).
  replace (Z.shiftl (b0 * 2 ^ 8 + b1) 16) with (Z.shiftl (Z.shiftl (b0 * 2 ^ 8 + b1) 8) 8)
    by (by rewrite Z.shiftl_shiftl).
  rewrite <- Z.shiftl_lor, (lor_shiftl_add (b0 * 2 ^ 8 + b1) b2)
    by (change (2 ^ 8) with 256; lia).
  rewrite lor_shiftl_add by (change (2 ^ 8) with 256; lia). lia.
Qed.

Lemma join32_range b0 b1 b2 b3 :
  is_u8 b0 → is_u8 b1 → is_u8 b2 → is_u8 b3 → is_u32 (join32 b0 b1 b2 b3).
Proof. intros. rewrite join32_sum by done. lia. Qed.

(** Splitting a 32-bit value into its four big-endian bytes and joining them. *)
Lemma join32_split z :
  is_u32 z →
  join32 (z / 2 ^ 24 mod 256) (z / 2 ^ 16 mod 256) (z / 2 ^ 8 mod 256) (z mod 256) = z.
Proof.
  intros. rewrite join32_sum by (apply Z.mod_pos_bound; lia).
  Z.to_euclidean_division_equations. lia.
Qed.

(** [(hi << 8) | lo] *)
Lemma join16_split z :
  is_u16 z → Z.lor (Z.shiftl (z / 2 ^ 8 mod 256) 8) (z mod 256) = z.
Proof.
  intros. rewrite lor_shiftl_add by (try apply Z.mod_pos_bound; lia).
  Z.to_euclidean_division_equations. lia.
Qed.

(** The bytes [u8 ((z >> n) & 0xFF)] that the writers push. *)
Lemma u8_shiftr_land z n : 0 ≤ n → u8 (Z.land (Z.shiftr z n) 255) = (z / 2 ^ n) mod 256.
Proof.
  intros. rewrite shiftr_land_ff by done. apply u8_small. apply Z.mod_pos_bound. lia.
Qed.

Lemma u8_land z : u8 (Z.land z 255) = z mod 256.
Proof.
  rewrite <- (Z.shiftr_0_r z) at 1. rewrite u8_shiftr_land by lia. by rewrite Z.div_1_r.
Qed.

(** A decidable fact about bytes is checked on the 256 bytes. *)
Lemma u8_forall (P : Z → bool) :
  forallb P (seqZ 0 256) = true → ∀ b, is_u8 b → P b = true.
Proof.
  intros H b Hb. rewrite forallb_forall in H. apply H.
  apply list_elem_of_In, elem_of_seqZ. lia.
Qed.

(** Joining four bytes and splitting the result again. *)
Lemma split32_join b0 b1 b2 b3 :
  is_u8 b0 → is_u8 b1 → is_u8 b2 → is_u8 b3 →
  let z := join32 b0 b1 b2 b3 in
  z / 2 ^ 24 mod 256 = b0 ∧ z / 2 ^ 16 mod 256 = b1 ∧ z / 2 ^ 8 mod 256 = b2 ∧ z mod 256 = b3.
Proof.
  intros. subst z. rewrite join32_sum by done.
  change (2 ^ 24) with 16777216. change (2 ^ 16) with 65536. change (2 ^ 8) with 256.
  Z.to_euclidean_division_equations. lia.
Qed.

(** The bytes [static_cast<uint8_t>(z >> n)]. *)
Lemma u8_shiftr z n : 0 ≤ n → u8 (Z.shiftr z n) = (z / 2 ^ n) mod 256.
Proof. intros. unfold u8. by rewrite Z.shiftr_div_pow2. Qed.
