(* ===== verification/Hex.v ===== *)
(** * Hexadecimal text (src/src/encoding/hex.cpp)

    [hex_encode] names the records of the credential store and the identifiers
    printed by vauthctl; [hex_decode] reads them back.  The two are inverse up to
    the letter case of the text. *)
From Stdlib Require Import ZArith Lia.
From stdpp Require Import base list strings.
From S2P Require Import Prelude.

(** ** Decoding *)

Definition decode_hex_digit (digit : Z) : res Z :=
  if (48 <=? digit) && (digit <=? 57) then Ret (u8 (digit - 48)) else
  if (97 <=? digit) && (digit <=? 102) then Ret (u8 (digit - 97 + 10)) else
  if (65 <=? digit) && (digit <=? 70) then Ret (u8 (digit - 65 + 10)) else
  Throw invalid_argument.

(** The loop of [hex_decode], two characters at a time. *)
Fixpoint hex_decode_loop (s : list Z) : res (list Z) :=
  match s with
  | c1 :: c2 :: s' =>
      high ← decode_hex_digit c1;
      low ← decode_hex_digit c2;
      v ← hex_decode_loop s';
      Ret (u8 (Z.lor (Z.shiftl high 4) low) :: v)
  | _ => Ret []
  end.

Definition hex_decode (s : list Z) : res (list Z) :=
  throw_if negb (len s mod 2 =? 0) as invalid_argument ;;
  hex_decode_loop s.

(** ** Encoding *)

(** One digit of [%X]. *)
Definition hex_digit (n : Z) : Z := if n <? 10 then n + 48 else n + 55.

(** [sprintf(buf, "%02X", c)] *)
Definition hex_byte (c : Z) : list Z := [hex_digit (c / 16); hex_digit (c mod 16)].

(** The loop of [hex_encode]. *)
Definition hex_string (v : list Z) : list Z := v ≫= hex_byte.

(** [std::string().max_size()] on the 64-bit target. *)
Definition STRING_MAX_SIZE : Z := 2 ^ 63 - 1.

Definition hex_encode (v : list Z) : res (list Z) :=
  throw_if STRING_MAX_SIZE / 2 <? len v as length_error ;;
  Ret (hex_string v).

(** The upper-case form of a hexadecimal character. *)
Definition hex_upper (c : Z) : Z := if (97 <=? c) && (c <=? 102) then c - 32 else c.

(** ** Lemmas *)

Lemma hex_encode_bounded v : len v ≤ 2 ^ 60 → hex_encode v = Ret (hex_string v).
Proof.
  intros H. unfold hex_encode. case_match eqn:E; [|done].
  apply Z.ltb_lt in E. unfold STRING_MAX_SIZE in E.
  change ((2 ^ 63 - 1) / 2) with 4611686018427387903 in E. lia.
Qed.

Lemma decode_hex_digit_spec n :
  0 ≤ n < 16 → decode_hex_digit (hex_digit n) = Ret n.
Proof.
  intros Hn. unfold decode_hex_digit, hex_digit.
  destruct (n <? 10) eqn:E; reflect_bools.
  - rewrite (proj2 (Z.leb_le 48 _)), (proj2 (Z.leb_le _ 57)) by lia; simpl.
    f_equal. rewrite u8_small; lia.
  - rewrite (proj2 (Z.leb_gt _ 57)) by lia. rewrite andb_false_r.
    rewrite (proj2 (Z.leb_gt 97 _)) by lia; simpl.
    rewrite (proj2 (Z.leb_le 65 _)), (proj2 (Z.leb_le _ 70)) by lia; simpl.
    f_equal. rewrite u8_small; lia.
Qed.

Lemma decode_hex_digit_inv c n :
  decode_hex_digit c = Ret n → 0 ≤ n < 16 ∧ hex_digit n = hex_upper c.
Proof.
  unfold decode_hex_digit, hex_upper, hex_digit.
  destruct ((48 <=? c) && (c <=? 57)) eqn:E1;
  [|destruct ((97 <=? c) && (c <=? 102)) eqn:E2;
  [|destruct ((65 <=? c) && (c <=? 70)) eqn:E3]]; intros [= <-]; reflect_bools;
    rewrite u8_small by lia; (split; [lia|]).
  - rewrite (proj2 (Z.ltb_lt _ 10)) by lia.
    rewrite (proj2 (Z.leb_gt 97 c)) by lia. simpl. lia.
  - rewrite (proj2 (Z.ltb_ge _ 10)) by lia. lia.
  - rewrite (proj2 (Z.ltb_ge _ 10)) by lia. split_cases; reflect_bools; lia.
Qed.

Lemma hex_nibbles hi lo :
  0 ≤ hi < 16 → 0 ≤ lo < 16 → u8 (Z.lor (Z.shiftl hi 4) lo) = hi * 16 + lo.
Proof.
  intros. rewrite lor_shiftl_add by (simpl; lia). change (2 ^ 4) with 16.
  apply u8_small. lia.
Qed.

Lemma hex_string_cons c v : hex_string (c :: v) = hex_byte c ++ hex_string v.
Proof. done. Qed.

Lemma length_hex_string v : length (hex_string v) = (2 * length v)%nat.
Proof. induction v as [|c v IH]; [done|]. rewrite hex_string_cons, length_app, IH. simpl. lia. Qed.

Lemma hex_decode_loop_string v : bytes_ok v → hex_decode_loop (hex_string v) = Ret v.
Proof.
  induction v as [|c v IH]; intros Hv; [done|].
  apply bytes_ok_cons in Hv as [Hc Hv].
  rewrite hex_string_cons. unfold hex_byte. cbn [app hex_decode_loop].
  rewrite !decode_hex_digit_spec; [|Z.to_euclidean_division_equations; lia..].
  cbn [mbind res_bind]. rewrite (IH Hv). cbn [mbind res_bind].
  rewrite hex_nibbles by (Z.to_euclidean_division_equations; lia).
  do 2 f_equal. Z.to_euclidean_division_equations; lia.
Qed.

Lemma hex_decode_string v : bytes_ok v → hex_decode (hex_string v) = Ret v.
Proof.
  intros Hv. unfold hex_decode. rewrite length_hex_string.
  replace (Z.of_nat (2 * length v) mod 2) with 0; [by apply hex_decode_loop_string|].
  rewrite Nat2Z.inj_mul. symmetry. rewrite Z.mul_comm. apply Z.mod_mul. lia.
Qed.

Lemma hex_string_inj v w : bytes_ok v → bytes_ok w → hex_string v = hex_string w → v = w.
Proof.
  intros Hv Hw E. pose proof (hex_decode_string v Hv) as H1.
  rewrite E, hex_decode_string in H1 by done. by simplify_eq.
Qed.

Lemma hex_decode_loop_inv n s v :
  (length s ≤ n)%nat → len s mod 2 = 0 → hex_decode_loop s = Ret v →
  bytes_ok v ∧ hex_string v = hex_upper <$> s.
Proof.
  revert s v. induction n as [|n IH]; intros s v Hn Hev Hd.
  { destruct s; simpl in *; [simplify_eq; split; [constructor|done]|lia]. }
  destruct s as [|c1 [|c2 s]]; simpl in Hd; [simplify_eq; split; [constructor|done]|done|].
  destruct (decode_hex_digit c1) as [hi|] eqn:E1; simpl in Hd; [|done].
  destruct (decode_hex_digit c2) as [lo|] eqn:E2; simpl in Hd; [|done].
  destruct (hex_decode_loop s) as [w|] eqn:E3; simpl in Hd; [|done].
  injection Hd as <-.
  apply decode_hex_digit_inv in E1 as [? E1], E2 as [? E2].
  destruct (IH s w) as [Hw Es]; [simpl in Hn; lia| |done|].
  { replace (len (c1 :: c2 :: s)) with (len s + 1 * 2) in Hev by (simpl; lia).
    by rewrite Z.mod_add in Hev by lia. }
  rewrite hex_nibbles by done. split; [apply bytes_ok_cons; split; [lia|done]|].
  rewrite hex_string_cons. unfold hex_byte.
  rewrite Z.div_add_l, Z.div_small, Z.add_0_r by lia.
  rewrite Z.add_comm, Z.mod_add, Z.mod_small by lia.
  by rewrite E1, E2, Es.
Qed.

(** ** Properties *)

(** hexadecimal text round trips.  Decoding the encoding of any byte vector
    gives the vector back, and re-encoding any text that decodes gives that text
    in upper case, so the text of an identifier determines the identifier and
    conversely. *)
Theorem hex_roundtrip (v s w : list Z) :
  (bytes_ok v → len v ≤ 2 ^ 60 → (hex_encode v ≫= hex_decode) = Ret v) ∧
  (hex_decode s = Ret w → bytes_ok w ∧ hex_string w = hex_upper <$> s).
Proof.
  split.
  - intros Hv Hl. rewrite hex_encode_bounded by done. by apply hex_decode_string.
  - unfold hex_decode. case_match eqn:E; [done|]. reflect_bools.
    intros Hd. by eapply hex_decode_loop_inv.
Qed.

Lemma hex_roundtrip_witness :
  (hex_encode [0; 171; 255] ≫= hex_decode) = Ret [0; 171; 255] ∧
  hex_string [0; 171; 255] = hex_upper <$> lit "00aBff".
Proof.
  split.
  - apply (proj1 (hex_roundtrip [0; 171; 255] [] [])).
    + repeat constructor; lia.
    + vm_compute. discriminate.
  - apply (proj2 (hex_roundtrip [] (lit "00aBff") [0; 171; 255])). reflexivity.
Defined.
