(* ===== verification/Packet.v ===== *)
(** * CTAPHID packets (error.hpp, uhid_report.hpp, response.hpp, response.cpp,
    packet.cpp and the packet helpers of device.cpp, all under src/src)

    The request and response records of the transport, the two immediate
    responders ([handle_init], [handle_ping]) and [stringify], which cuts a
    response into 64-byte HID frames. *)
From Stdlib Require Import ZArith Lia.
From stdpp Require Import base list strings.
From S2P Require Import Prelude.

(** ** Constants and error codes *)

Definition MASK : Z := 128.
Definition CTAPHID_PING : Z := 1.
Definition CTAPHID_MSG : Z := 3.
Definition CTAPHID_LOCK : Z := 4.
Definition CTAPHID_INIT : Z := 6.
Definition CTAPHID_WINK : Z := 8.
Definition CTAPHID_CBOR : Z := 16.
Definition CTAPHID_CANCEL : Z := 17.
Definition CTAPHID_KEEPALIVE : Z := 59.
Definition CTAPHID_ERROR : Z := 63.

Definition CTAPHID_MAX_PAYLOAD_SIZE : Z := 7609.
Definition MAX_INIT_PAYLOAD_SIZE : Z := 57.
Definition MAX_CONT_PAYLOAD_SIZE : Z := 59.

Inductive HIDError :=
  | HID_ERR_SUCCESS
  | HID_ERR_INVALID_COMMAND
  | HID_ERR_INVALID_PARAMETER
  | HID_ERR_INVALID_LENGTH
  | HID_ERR_INVALID_SEQ
  | HID_ERR_TIMEOUT
  | HID_ERR_CHANNEL_BUSY
  | HID_ERR_LOCK_REQUIRED
  | HID_ERR_INVALID_CHANNEL.

#[global] Instance HIDError_eq_dec : EqDecision HIDError.
Proof. solve_decision. Defined.

Definition hid_error_code (e : HIDError) : Z :=
  match e with
  | HID_ERR_SUCCESS => 0
  | HID_ERR_INVALID_COMMAND => 1
  | HID_ERR_INVALID_PARAMETER => 2
  | HID_ERR_INVALID_LENGTH => 3
  | HID_ERR_INVALID_SEQ => 4
  | HID_ERR_TIMEOUT => 5
  | HID_ERR_CHANNEL_BUSY => 6
  | HID_ERR_LOCK_REQUIRED => 10
  | HID_ERR_INVALID_CHANNEL => 11
  end.

(** [CTAPError] is an [enum class : uint8_t] that the code both builds from its
    enumerators and casts from response bytes, so it is its underlying byte. *)
Definition CTAPError := Z.
Definition CTAP1_ERR_SUCCESS : CTAPError := 0.
Definition CTAP1_ERR_INVALID_COMMAND : CTAPError := 1.
Definition CTAP1_ERR_INVALID_PARAMETER : CTAPError := 2.
Definition CTAP1_ERR_INVALID_LENGTH : CTAPError := 3.
Definition CTAP2_ERR_CBOR_UNEXPECTED_TYPE : CTAPError := 17.
Definition CTAP2_ERR_INVALID_CBOR : CTAPError := 18.
Definition CTAP2_ERR_MISSING_PARAMETER : CTAPError := 20.
Definition CTAP2_ERR_LIMIT_EXCEEDED : CTAPError := 21.
Definition CTAP2_ERR_UNSUPPORTED_EXTENSION : CTAPError := 22.
Definition CTAP2_ERR_CREDENTIAL_EXCLUDED : CTAPError := 25.
Definition CTAP2_ERR_PROCESSING : CTAPError := 33.
Definition CTAP2_ERR_INVALID_CREDENTIAL : CTAPError := 34.
Definition CTAP2_ERR_USER_ACTION_PENDING : CTAPError := 35.
Definition CTAP2_ERR_OPERATION_PENDING : CTAPError := 36.
Definition CTAP2_ERR_NO_OPERATIONS : CTAPError := 37.
Definition CTAP2_ERR_UNSUPPORTED_ALGORITHM : CTAPError := 38.
Definition CTAP2_ERR_OPERATION_DENIED : CTAPError := 39.
Definition CTAP2_ERR_KEY_STORE_FULL : CTAPError := 40.
Definition CTAP2_ERR_NOT_BUSY : CTAPError := 41.
Definition CTAP2_ERR_NO_OPERATION_PENDING : CTAPError := 42.
Definition CTAP2_ERR_UNSUPPORTED_OPTION : CTAPError := 43.
Definition CTAP2_ERR_INVALID_OPTION : CTAPError := 44.
Definition CTAP2_ERR_KEEPALIVE_CANCEL : CTAPError := 45.
Definition CTAP2_ERR_NO_CREDENTIALS : CTAPError := 46.
Definition CTAP2_ERR_USER_ACTION_TIMEOUT : CTAPError := 47.
Definition CTAP2_ERR_NOT_ALLOWED : CTAPError := 48.
Definition CTAP2_ERR_PIN_INVALID : CTAPError := 49.
Definition CTAP2_ERR_PIN_BLOCKED : CTAPError := 50.
Definition CTAP2_ERR_PIN_AUTH_INVALID : CTAPError := 51.
Definition CTAP2_ERR_PIN_AUTH_BLOCKED : CTAPError := 52.
Definition CTAP2_ERR_PIN_NOT_SET : CTAPError := 53.
Definition CTAP2_ERR_PIN_REQUIRED : CTAPError := 54.
Definition CTAP2_ERR_PIN_POLICY_VIOLATION : CTAPError := 55.
Definition CTAP2_ERR_PIN_TOKEN_EXPIRED : CTAPError := 56.
Definition CTAP2_ERR_REQUEST_TOO_LARGE : CTAPError := 57.
Definition CTAP2_ERR_ACTION_TIMEOUT : CTAPError := 58.
Definition CTAP2_ERR_UP_REQUIRED : CTAPError := 59.
Definition CTAP1_ERR_OTHER : CTAPError := 127.
Definition CTAP2_ERR_SPEC_LAST : CTAPError := 223.
Definition CTAP2_ERR_EXTENSION_FIRST : CTAPError := 224.
Definition CTAP2_ERR_EXTENSION_LAST : CTAPError := 239.
Definition CTAP2_ERR_VENDOR_FIRST : CTAPError := 240.
Definition CTAP2_ERR_VENDOR_LAST : CTAPError := 255.

Definition ctap20_uv_failure_error : CTAPError := CTAP2_ERR_OPERATION_DENIED.

(** ** Reports and packets *)

Record UHIDReport := mkUHIDReport {
  rep_cid : Z;
  rep_cmd : Z;
  rep_len : Z;
  rep_payload : list Z;
  rep_seq : Z;
}.

Record CTAPPacket := mkCTAPPacket {
  pkt_cid : Z;
  pkt_cmd : Z;
  pkt_len : Z;
  pkt_payload : list Z;
}.

#[global] Instance UHIDReport_eq_dec : EqDecision UHIDReport.
Proof. solve_decision. Defined.
#[global] Instance CTAPPacket_eq_dec : EqDecision CTAPPacket.
Proof. solve_decision. Defined.

(** ** Responders *)

Definition make_cbor_error (cid : Z) (error : CTAPError) : CTAPPacket :=
  mkCTAPPacket cid (Z.lor CTAPHID_CBOR MASK) (u16 (len [error])) [error].

Definition make_hid_error (cid : Z) (error : HIDError) : CTAPPacket :=
  let payload := [hid_error_code error] in
  mkCTAPPacket cid (Z.lor CTAPHID_ERROR MASK) (u16 (len payload)) payload.

(** The four bytes of a channel identifier, most significant first. *)
Definition cid_bytes (cid : Z) : list Z :=
  [ u8 (Z.land (Z.shiftr cid 24) 255);
    u8 (Z.land (Z.shiftr cid 16) 255);
    u8 (Z.land (Z.shiftr cid 8) 255);
    u8 (Z.land cid 255) ].

Definition CAPABILITY_CBOR : Z := 4.
Definition CAPABILITY_NMSG : Z := 8.

Definition handle_init (request : UHIDReport) (assigned_cid : Z) : CTAPPacket :=
  if negb (len (rep_payload request) =? 8)
  then make_hid_error (rep_cid request) HID_ERR_INVALID_LENGTH
  else
    let payload :=
      take 8 (rep_payload request) ++ cid_bytes assigned_cid ++
      [2; 1; 0; 0] ++ [Z.lor CAPABILITY_CBOR CAPABILITY_NMSG] in
    mkCTAPPacket (rep_cid request) (Z.lor CTAPHID_INIT MASK) (u16 (len payload)) payload.

Definition handle_ping (request : UHIDReport) : CTAPPacket :=
  mkCTAPPacket (rep_cid request) (Z.lor CTAPHID_PING MASK)
    (u16 (len (rep_payload request))) (rep_payload request).

(** ** Framing *)

(** [while(frame.size() < 64) frame.push_back(payload_offset < payload.size() ?
    payload[payload_offset++] : 0x00);], where [room] is [64 - frame.size()]. *)
Fixpoint fill_frame (room : nat) (frame payload : list Z) (offset : nat) : list Z * nat :=
  match room with
  | O => (frame, offset)
  | S room =>
      match payload !! offset with
      | Some b => fill_frame room (frame ++ [b]) payload (S offset)
      | None => fill_frame room (frame ++ [0]) payload offset
      end
  end.

Definition HID_REPORT_SIZE : nat := 64.

Definition fill_to_64 (frame payload : list Z) (offset : nat) : list Z * nat :=
  fill_frame (HID_REPORT_SIZE - length frame) frame payload offset.

(** [while(payload_offset < payload.size())], one continuation frame per turn.
    Every turn consumes at least one byte, so [length payload] turns are enough. *)
Fixpoint continuation_loop (fuel : nat) (channel_id payload : list Z) (offset : nat)
    (sequence : Z) : list (list Z) :=
  match fuel with
  | O => []
  | S fuel =>
      if (offset <? length payload)%nat then
        let '(frame, offset') := fill_to_64 (channel_id ++ [sequence]) payload offset in
        frame :: continuation_loop fuel channel_id payload offset' (u8 (sequence + 1))
      else []
  end.

Definition stringify (p : CTAPPacket) : res (list (list Z)) :=
  throw_if negb (len (pkt_payload p) =? pkt_len p) as invalid_argument ;;
  throw_if CTAPHID_MAX_PAYLOAD_SIZE <? len (pkt_payload p) as length_error ;;
  let channel_id := cid_bytes (pkt_cid p) in
  let header := channel_id ++
    [pkt_cmd p; u8 (Z.land (Z.shiftr (pkt_len p) 8) 255); u8 (Z.land (pkt_len p) 255)] in
  let '(first, offset) := fill_to_64 header (pkt_payload p) 0 in
  Ret (first ::
    continuation_loop (length (pkt_payload p)) channel_id (pkt_payload p) offset 0).

(** [struct uhid_event] as [frame_packet] fills it: zeroed, then the report
    copied to the front of the data buffer. *)
Record uhid_input2 := mkInput2 { ev_size : Z; ev_data : list Z }.
Definition UHID_DATA_MAX : nat := 4096.

Definition frame_packet (p : CTAPPacket) : res (list uhid_input2) :=
  responses ← stringify p;
  Ret (map (λ response, mkInput2 (u16 (len response))
     (response ++ replicate (UHID_DATA_MAX - length response) 0)) responses).

(** ** Lemmas *)

Lemma fill_frame_spec room frame payload offset :
  (offset ≤ length payload)%nat →
  fill_frame room frame payload offset =
  (frame ++ take room (drop offset payload)
         ++ replicate (room - (length payload - offset)) 0,
   ((offset + room) `min` length payload)%nat).
Proof.
  revert frame offset. induction room as [|room IH]; intros frame offset Hoff.
  { simpl. rewrite app_nil_r. f_equal. lia. }
  simpl. destruct (payload !! offset) as [b|] eqn:E.
  - pose proof (lookup_lt_Some _ _ _ E). rewrite IH by lia.
    rewrite (drop_S _ _ _ E), firstn_cons, <- app_assoc. simpl app.
    replace (S room - (length payload - offset))%nat
      with (room - (length payload - S offset))%nat by lia.
    f_equal. lia.
  - apply lookup_ge_None in E. rewrite IH by lia.
    rewrite drop_ge by lia. rewrite !take_nil, <- app_assoc. simpl app.
    replace (length payload - offset)%nat with 0%nat by lia.
    rewrite !Nat.sub_0_r. f_equal. lia.
Qed.

Lemma length_cid_bytes cid : length (cid_bytes cid) = 4%nat.
Proof. done. Qed.

Lemma bytes_ok_cid_bytes cid : bytes_ok (cid_bytes cid).
Proof. unfold cid_bytes. repeat (apply bytes_ok_cons; split; [apply u8_range|]). constructor. Qed.

#[export] Hint Resolve bytes_ok_cid_bytes : vauth.

(** A frame body: the next [room] bytes of the payload, zero padded. *)
Definition frame_body (room : nat) (rest : list Z) : list Z :=
  take room rest ++ replicate (room - length rest) 0.

Lemma length_frame_body room rest : length (frame_body room rest) = room.
Proof. unfold frame_body. rewrite length_app, length_take, length_replicate. lia. Qed.

Lemma take_frame_body room rest n :
  (n ≤ room)%nat → (n ≤ length rest)%nat → take n (frame_body room rest) = take n rest.
Proof.
  intros. unfold frame_body. rewrite take_app_le by (rewrite length_take; lia).
  rewrite take_take. f_equal. lia.
Qed.

Lemma fill_to_64_spec header payload offset :
  (length header ≤ 64)%nat → (offset ≤ length payload)%nat →
  fill_to_64 header payload offset =
  (header ++ frame_body (64 - length header) (drop offset payload),
   ((offset + (64 - length header)) `min` length payload)%nat).
Proof.
  intros. unfold fill_to_64, HID_REPORT_SIZE. rewrite fill_frame_spec by done.
  unfold frame_body. by rewrite length_drop.
Qed.

(** The continuation frames of the bytes still to be sent. *)
Fixpoint continuation_frames (fuel : nat) (channel_id rest : list Z) (sequence : Z)
    : list (list Z) :=
  match fuel, rest with
  | S fuel, _ :: _ =>
      (channel_id ++ [sequence] ++ frame_body 59 rest) ::
      continuation_frames fuel channel_id (drop 59 rest) (u8 (sequence + 1))
  | _, _ => []
  end.

Lemma continuation_loop_spec fuel channel_id payload offset sequence :
  length channel_id = 4%nat → (offset ≤ length payload)%nat →
  continuation_loop fuel channel_id payload offset sequence =
  continuation_frames fuel channel_id (drop offset payload) sequence.
Proof.
  intros Hc. revert offset sequence. induction fuel as [|fuel IH]; intros off seq Hoff; [done|].
  simpl. destruct (Nat.ltb_spec off (length payload)) as [Hlt|Hge].
  - rewrite fill_to_64_spec by (rewrite ?length_app; simpl; lia).
    rewrite length_app, Hc; simpl length.
    change (64 - (4 + 1))%nat with 59%nat.
    destruct (drop off payload) as [|b rest] eqn:E.
    { apply (f_equal length) in E. rewrite length_drop in E. simpl in E. lia. }
    rewrite <- app_assoc. f_equal. rewrite IH by lia. f_equal. rewrite <- E.
    rewrite drop_drop. destruct (decide (off + 59 ≤ length payload)%nat).
    + by rewrite Nat.min_l by lia.
    + rewrite Nat.min_r by lia. by rewrite !drop_ge by lia.
  - by rewrite drop_ge by lia.
Qed.

(** [stringify] in closed form. *)
Lemma stringify_spec p :
  len (pkt_payload p) = pkt_len p → pkt_len p ≤ CTAPHID_MAX_PAYLOAD_SIZE →
  stringify p = Ret (
    (cid_bytes (pkt_cid p) ++
     [pkt_cmd p; u8 (Z.land (Z.shiftr (pkt_len p) 8) 255); u8 (Z.land (pkt_len p) 255)] ++
     frame_body 57 (pkt_payload p)) ::
    continuation_frames (length (pkt_payload p)) (cid_bytes (pkt_cid p))
      (drop 57 (pkt_payload p)) 0).
Proof.
  intros Hlen Hmax. unfold stringify. rewrite Hlen, Z.eqb_refl. simpl.
  rewrite (proj2 (Z.ltb_ge _ _) Hmax).
  rewrite fill_to_64_spec by (simpl; lia). simpl length.
  change (64 - 7)%nat with 57%nat.
  rewrite continuation_loop_spec by (done || lia). rewrite drop_0. do 2 f_equal. f_equal.
  destruct (decide (57 ≤ length (pkt_payload p))%nat).
  - by rewrite Nat.min_l by lia.
  - rewrite Nat.min_r by lia. by rewrite !drop_ge by lia.
Qed.
