(* ===== verification/FrameProcessor.v ===== *)
(** * CTAPHID message assembly (src/src/frame_processor.hpp, frame_processor.cpp)

    [process] consumes one HID frame and either ignores it, answers it with a
    transport error, or completes a message.  The only state is the message being
    assembled. *)
From Stdlib Require Import ZArith Lia.
From stdpp Require Import base list gmap.
From S2P Require Import Prelude Packet.

Definition CTAPHID_INVALID_CID : Z := 0.
Definition CTAPHID_BROADCAST_CID : Z := 4294967295.

Definition HID_FRAME_SIZE : Z := 64.
Definition UHID_FRAME_SIZE_WITH_REPORT_ID : Z := 65.
Definition message_assembly_timeout : Z := seconds 3.

Inductive FrameProcessingResult :=
  | Monostate
  | Completed (report : UHIDReport)
  | FrameError (cid : Z) (error : HIDError).

Record IncomingTransaction := mkIncoming {
  in_report : UHIDReport;
  in_deadline : Z;
}.

Definition frame_cid (frame : list Z) : Z :=
  join32 (byte_at frame 0) (byte_at frame 1) (byte_at frame 2) (byte_at frame 3).

(** ** [process], in the order of its branches *)

(** The report ID byte that uhid may put in front of the frame. *)
Definition strip_report_id (raw_frame : list Z) : list Z :=
  if (len raw_frame =? UHID_FRAME_SIZE_WITH_REPORT_ID) && (byte_at raw_frame 0 =? 0)
  then drop 1 raw_frame else raw_frame.

(** The branch [if(!is_initial)]. *)
Definition process_continuation (incoming : option IncomingTransaction) (frame : list Z)
    : option IncomingTransaction * FrameProcessingResult :=
  match incoming with
  | None => (incoming, Monostate)
  | Some tx =>
      let current := in_report tx in
      if negb (frame_cid frame =? rep_cid current) then (incoming, Monostate) else
      if negb (byte_at frame 4 =? rep_seq current)
      then (None, FrameError (rep_cid current) HID_ERR_INVALID_SEQ)
      else
        let remaining := u64 (rep_len current - len (rep_payload current)) in
        let amount := Z.min remaining MAX_CONT_PAYLOAD_SIZE in
        let updated := mkUHIDReport (rep_cid current) (rep_cmd current) (rep_len current)
          (rep_payload current ++ take (Z.to_nat amount) (drop 5 frame))
          (u8 (rep_seq current + 1)) in
        if negb (len (rep_payload updated) =? rep_len updated)
        then (Some (mkIncoming updated (in_deadline tx)), Monostate)
        else (None, Completed updated)
  end.

(** The last part of [process]: the first frame of a message is accepted. *)
Definition accept_initial (incoming : option IncomingTransaction) (frame : list Z)
    (cid command length : Z) (now : Z)
    : option IncomingTransaction * FrameProcessingResult :=
  let first_payload_size := Z.min length MAX_INIT_PAYLOAD_SIZE in
  let next := mkUHIDReport cid command length
    (take (Z.to_nat first_payload_size) (drop 7 frame)) 0 in
  if len (rep_payload next) =? rep_len next
  then (incoming, Completed next)
  else (Some (mkIncoming next (now + message_assembly_timeout)), Monostate).

Definition frame_command (frame : list Z) : Z := Z.land (byte_at frame 4) 127.
Definition frame_length (frame : list Z) : Z :=
  u16 (Z.lor (Z.shiftl (byte_at frame 5) 8) (byte_at frame 6)).

(** [!active_cid || cid != *active_cid] *)
Definition not_active_channel (active_cid : option Z) (cid : Z) : bool :=
  match active_cid with None => true | Some a => negb (cid =? a) end.

(** [if(active_cid)] with [!allowed_control_command]. *)
Definition blocked_by_active (active_cid : option Z) (cid command : Z) : bool :=
  match active_cid with
  | None => false
  | Some a =>
      let allowed_control_command :=
        (cid =? a) && ((command =? CTAPHID_CANCEL) || (command =? CTAPHID_INIT)) in
      negb allowed_control_command
  end.

(** [incoming_ && cid != incoming_->report.cid] *)
Definition blocked_by_incoming (incoming : option IncomingTransaction) (cid : Z) : bool :=
  match incoming with
  | None => false
  | Some tx => negb (cid =? rep_cid (in_report tx))
  end.

(** The branch taken by an initial frame. *)
Definition process_initial (incoming : option IncomingTransaction) (frame : list Z)
    (active_cid : option Z) (allocated_cids : gset Z) (now : Z)
    : option IncomingTransaction * FrameProcessingResult :=
  let cid := frame_cid frame in
  let command := frame_command frame in
  let length := frame_length frame in
  if CTAPHID_MAX_PAYLOAD_SIZE <? length
  then (incoming, FrameError cid HID_ERR_INVALID_LENGTH) else
  if ((command =? CTAPHID_INIT) && negb (length =? 8)) ||
     ((command =? CTAPHID_CANCEL) && negb (length =? 0))
  then (incoming, FrameError cid HID_ERR_INVALID_LENGTH) else
  if (command =? CTAPHID_CANCEL) && not_active_channel active_cid cid
  then (incoming, Monostate) else
  if blocked_by_active active_cid cid command
  then (incoming, FrameError cid HID_ERR_CHANNEL_BUSY) else
  if blocked_by_incoming incoming cid
  then (incoming, FrameError cid HID_ERR_CHANNEL_BUSY) else
  let allocating_channel := (cid =? CTAPHID_BROADCAST_CID) && (command =? CTAPHID_INIT) in
  if negb allocating_channel && negb (bool_decide (cid ∈ allocated_cids))
  then (incoming, FrameError cid HID_ERR_INVALID_CHANNEL) else
  match incoming with
  | Some tx =>
      if command =? CTAPHID_INIT
      then accept_initial None frame cid command length now
      else (None, FrameError (rep_cid (in_report tx)) HID_ERR_INVALID_SEQ)
  | None => accept_initial None frame cid command length now
  end.

Definition process (incoming : option IncomingTransaction) (raw_frame : list Z)
    (active_cid : option Z) (allocated_cids : gset Z) (now : Z)
    : option IncomingTransaction * FrameProcessingResult :=
  let frame := strip_report_id raw_frame in
  if negb (len frame =? HID_FRAME_SIZE) then (incoming, Monostate) else
  let is_initial := negb (Z.land (byte_at frame 4) MASK =? 0) in
  if negb is_initial then process_continuation incoming frame
  else process_initial incoming frame active_cid allocated_cids now.

Definition expire (incoming : option IncomingTransaction) (now : Z)
    : option IncomingTransaction * option (Z * HIDError) :=
  match incoming with
  | None => (incoming, None)
  | Some tx =>
      if now <? in_deadline tx then (incoming, None)
      else (None, Some (rep_cid (in_report tx), HID_ERR_TIMEOUT))
  end.

Definition fp_deadline (incoming : option IncomingTransaction) : option Z :=
  in_deadline <$> incoming.

Definition has_incoming (incoming : option IncomingTransaction) : bool :=
  match incoming with Some _ => true | None => false end.

(** Feeding a list of frames, collecting the results in order. *)
Fixpoint feed (incoming : option IncomingTransaction) (frames : list (list Z))
    (active_cid : option Z) (allocated_cids : gset Z) (now : Z)
    : option IncomingTransaction * list FrameProcessingResult :=
  match frames with
  | [] => (incoming, [])
  | f :: fs =>
      let '(incoming', r) := process incoming f active_cid allocated_cids now in
      let '(incoming'', rs) := feed incoming' fs active_cid allocated_cids now in
      (incoming'', r :: rs)
  end.

(** ** The assembly invariant *)

(** A message being assembled holds the first frame's 57 bytes and 59 bytes for
    each continuation counted by [seq], is not complete, and came from an
    allocated channel with a command that may span frames. *)
Definition incoming_ok (allocated_cids : gset Z) (incoming : option IncomingTransaction) : Prop :=
  match incoming with
  | None => True
  | Some tx =>
      let r := in_report tx in
      len (rep_payload r) = MAX_INIT_PAYLOAD_SIZE + MAX_CONT_PAYLOAD_SIZE * rep_seq r ∧
      0 ≤ rep_seq r ≤ 127 ∧
      len (rep_payload r) < rep_len r ≤ CTAPHID_MAX_PAYLOAD_SIZE ∧
      bytes_ok (rep_payload r) ∧
      rep_cid r ∈ allocated_cids ∧
      0 ≤ rep_cmd r < 128 ∧ rep_cmd r ≠ CTAPHID_INIT ∧ rep_cmd r ≠ CTAPHID_CANCEL
  end.

(** What the event loop may rely on for a completed message. *)
Definition report_ok (active_cid : option Z) (allocated_cids : gset Z) (r : UHIDReport) : Prop :=
  len (rep_payload r) = rep_len r ∧ rep_len r ≤ CTAPHID_MAX_PAYLOAD_SIZE ∧
  bytes_ok (rep_payload r) ∧ 0 ≤ rep_cmd r < 128 ∧
  (rep_cid r ∈ allocated_cids ∨
   rep_cid r = CTAPHID_BROADCAST_CID ∧ rep_cmd r = CTAPHID_INIT) ∧
  (rep_cmd r = CTAPHID_INIT → rep_len r = 8) ∧
  (rep_cmd r = CTAPHID_CANCEL → active_cid = Some (rep_cid r) ∧ rep_len r = 0).

Ltac unfold_sizes :=
  unfold MAX_INIT_PAYLOAD_SIZE, MAX_CONT_PAYLOAD_SIZE, CTAPHID_MAX_PAYLOAD_SIZE in *.

Lemma strip_report_id_ok raw : bytes_ok raw → bytes_ok (strip_report_id raw).
Proof. intros. unfold strip_report_id. case_match; auto with vauth. Qed.

Lemma frame_command_range frame : bytes_ok frame → 0 ≤ frame_command frame < 128.
Proof.
  intros. unfold frame_command. change 127 with (Z.ones 7). rewrite Z.land_ones by lia.
  change 128 with (2 ^ 7). apply Z.mod_pos_bound. lia.
Qed.

Lemma frame_length_range frame : is_u16 (frame_length frame).
Proof. unfold frame_length, u16. change 65536 with (2 ^ 16). apply Z.mod_pos_bound. lia. Qed.

Lemma process_continuation_ok alloc active inc frame inc' r :
  length frame = 64%nat → bytes_ok frame → incoming_ok alloc inc →
  process_continuation inc frame = (inc', r) →
  incoming_ok alloc inc' ∧ (∀ rep, r = Completed rep → report_ok active alloc rep).
Proof.
  intros Hlen Hb Hok. unfold process_continuation.
  destruct inc as [tx|]; [|by intros [= <- <-]].
  destruct Hok as (Hp & Hs & Hl & Hpb & Hc & Hcmd & Hni & Hnc).
  unfold_sizes.
  case_match; [by intros [= <- <-]|]. case_match; [by intros [= <- <-]|].
  simpl. rewrite u64_small by lia.
  set (amount := Z.min _ _).
  assert (0 < amount ≤ 59) by (unfold amount; lia).
  assert (len (take (Z.to_nat amount) (drop 5 frame)) = amount) as Ha.
  { rewrite length_take, length_drop, Hlen. lia. }
  rewrite length_app, Nat2Z.inj_add, Ha.
  case_match eqn:E; reflect_bools; intros [= <- <-]; (split; [|intros rep [= <-]]); try done.
  - simpl. rewrite length_app, Nat2Z.inj_add, Ha.
    assert (amount = 59) by (unfold amount in *; lia).
    rewrite u8_small by lia. unfold_sizes.
    split_and!; try done; try lia. apply bytes_ok_app; auto with vauth.
  - split_and!; simpl; rewrite ?length_app, ?Nat2Z.inj_add, ?Ha; unfold_sizes;
      auto; try done; try lia.
    apply bytes_ok_app; auto with vauth.
Qed.

Lemma accept_initial_ok alloc active frame cid cmd length' now inc' r :
  length frame = 64%nat → bytes_ok frame → 0 ≤ length' ≤ CTAPHID_MAX_PAYLOAD_SIZE →
  0 ≤ cmd < 128 → (cid ∈ alloc ∨ cid = CTAPHID_BROADCAST_CID ∧ cmd = CTAPHID_INIT) →
  (cmd = CTAPHID_INIT → length' = 8) →
  (cmd = CTAPHID_CANCEL → active = Some cid ∧ length' = 0) →
  accept_initial None frame cid cmd length' now = (inc', r) →
  incoming_ok alloc inc' ∧ (∀ rep, r = Completed rep → report_ok active alloc rep).
Proof.
  intros Hlen Hb Hl Hcmd Hcid Hi Hc. unfold accept_initial. simpl. unfold_sizes.
  assert (len (take (Z.to_nat (Z.min length' 57)) (drop 7 frame)) = Z.min length' 57) as Ha.
  { rewrite length_take, length_drop, Hlen. lia. }
  rewrite Ha. case_match eqn:E; reflect_bools; intros [= <- <-];
    (split; [|intros rep [= <-]]); try done.
  - split_and!; simpl; rewrite ?Ha; unfold_sizes; auto with vauth; lia.
  - simpl. rewrite Ha. unfold_sizes.
    destruct Hcid as [|[_ ?]]; [|lia].
    split_and!; auto with vauth; lia.
Qed.

Lemma process_initial_ok alloc active inc frame now inc' r :
  length frame = 64%nat → bytes_ok frame → incoming_ok alloc inc →
  process_initial inc frame active alloc now = (inc', r) →
  incoming_ok alloc inc' ∧ (∀ rep, r = Completed rep → report_ok active alloc rep).
Proof.
  intros Hlen Hb Hok. unfold process_initial.
  pose proof (frame_command_range frame Hb). pose proof (frame_length_range frame).
  case_match eqn:E1; [by intros [= <- <-]|]. case_match eqn:E2; [by intros [= <- <-]|].
  case_match eqn:E3; [by intros [= <- <-]|]. case_match eqn:E4; [by intros [= <- <-]|].
  case_match eqn:E5; [by intros [= <- <-]|]. case_match eqn:E6; [by intros [= <- <-]|].
  assert (∀ i o, accept_initial None frame (frame_cid frame) (frame_command frame)
     (frame_length frame) now = (i, o) →
     incoming_ok alloc i ∧ (∀ rep, o = Completed rep → report_ok active alloc rep)) as Hacc.
  { intros i o. apply accept_initial_ok; try done.
    - unfold_sizes. reflect_bools. lia.
    - apply andb_false_iff in E6 as [E6|E6]; reflect_bools; [|by left].
      right. by split.
    - intros Hc. rewrite Hc in E2. simpl in E2. reflect_bools. lia.
    - intros Hc. rewrite Hc in E2, E3. simpl in E2, E3. reflect_bools.
      destruct active as [a|]; [|done]. simpl in E3. reflect_bools. split; [by subst|lia]. }
  destruct inc as [tx|]; [|apply Hacc].
  case_match; [apply Hacc|]. by intros [= <- <-].
Qed.

Lemma process_ok alloc active inc raw now inc' r :
  bytes_ok raw → incoming_ok alloc inc →
  process inc raw active alloc now = (inc', r) →
  incoming_ok alloc inc' ∧ (∀ rep, r = Completed rep → report_ok active alloc rep).
Proof.
  intros Hb Hok. unfold process. pose proof (strip_report_id_ok raw Hb).
  case_match eqn:E; [by intros [= <- <-]|].
  unfold HID_FRAME_SIZE in E. reflect_bools.
  case_match; [eapply process_continuation_ok|eapply process_initial_ok]; try done; lia.
Qed.

(** ** Frames on the wire *)

Lemma strip_report_id_64 f : length f = 64%nat → strip_report_id f = f.
Proof. intros H. unfold strip_report_id. by rewrite H. Qed.

Lemma strip_report_id_65 f : length f = 64%nat → strip_report_id (0 :: f) = f.
Proof. intros H. unfold strip_report_id. simpl length. by rewrite H. Qed.

Lemma frame_cid_bytes cid rest : is_u32 cid → frame_cid (cid_bytes cid ++ rest) = cid.
Proof.
  intros H. unfold frame_cid, cid_bytes, byte_at. simpl.
  rewrite !u8_shiftr_land, u8_land by lia. by apply join32_split.
Qed.

Lemma command_byte c :
  0 ≤ c < 128 →
  (Z.land (Z.lor c MASK) MASK =? 0) = false ∧ Z.land (Z.lor c MASK) 127 = c.
Proof.
  intros Hc.
  assert (negb (Z.land (Z.lor c MASK) MASK =? 0) &&
    ((Z.land (Z.lor c MASK) 127 =? c) || (128 <=? c)) = true) as H.
  { apply (u8_forall (λ c, negb (Z.land (Z.lor c MASK) MASK =? 0) &&
      ((Z.land (Z.lor c MASK) 127 =? c) || (128 <=? c)))); [by vm_compute|lia]. }
  reflect_bools. split; [by apply Z.eqb_neq|]. destruct H0; reflect_bools; lia.
Qed.

Lemma sequence_byte s : 0 ≤ s ≤ 127 → (Z.land s MASK =? 0) = true.
Proof.
  intros Hs. assert ((Z.land s MASK =? 0) || (128 <=? s) = true) as H.
  { apply (u8_forall (λ s, (Z.land s MASK =? 0) || (128 <=? s))); [by vm_compute|lia]. }
  reflect_bools. destruct H; reflect_bools; [by apply Z.eqb_eq|lia].
Qed.

(** A raw uhid report carries a 64-byte frame with or without a report ID. *)
Definition carries (f raw : list Z) : Prop := raw = f ∨ raw = 0 :: f.

(** A raw report that is not a frame of channel [cid]. *)
Definition noise (cid : Z) (raw : list Z) : Prop :=
  length (strip_report_id raw) ≠ 64%nat ∨ frame_cid (strip_report_id raw) ≠ cid.

(** [raws] carries the frames [fs] in order, with any number of reports of other
    channels in between, the last report being the last frame. *)
Inductive with_noise (cid : Z) : list (list Z) → list (list Z) → Prop :=
  | wn_nil : with_noise cid [] []
  | wn_frame f raw fs raws :
      carries f raw → with_noise cid fs raws → with_noise cid (f :: fs) (raw :: raws)
  | wn_noise n fs raws :
      noise cid n → fs ≠ [] → with_noise cid fs raws → with_noise cid fs (n :: raws).

(** A result that says nothing about channel [cid]. *)
Definition about_other (cid : Z) (r : FrameProcessingResult) : Prop :=
  match r with
  | Monostate => True
  | Completed _ => False
  | FrameError cid' _ => cid' ≠ cid
  end.

(** A transmission: the first report carries the first frame, the rest may be
    interleaved with other channels. *)
Definition transmits (cid : Z) (frames raws : list (list Z)) : Prop :=
  match frames, raws with
  | f :: fs, raw :: rs => carries f raw ∧ with_noise cid fs rs
  | _, _ => False
  end.

Lemma process_carries inc f raw active alloc now :
  length f = 64%nat → carries f raw →
  process inc raw active alloc now = process inc f active alloc now.
Proof.
  intros Hf [->| ->]; [done|]. unfold process.
  by rewrite strip_report_id_65, strip_report_id_64.
Qed.

Lemma process_noise tx raw active alloc now :
  noise (rep_cid (in_report tx)) raw →
  ∃ r, process (Some tx) raw active alloc now = (Some tx, r) ∧
       about_other (rep_cid (in_report tx)) r.
Proof.
  intros Hn. unfold process, noise in *. set (frame := strip_report_id raw) in *.
  destruct (negb (len frame =? HID_FRAME_SIZE)) eqn:E; [by eexists|].
  unfold HID_FRAME_SIZE in E. reflect_bools. destruct Hn as [?|Hn]; [lia|].
  case_match.
  - unfold process_continuation. rewrite (proj2 (Z.eqb_neq _ _) Hn). by eexists.
  - unfold process_initial.
    assert (blocked_by_incoming (Some tx) (frame_cid frame) = true) as ->.
    { simpl. by rewrite (proj2 (Z.eqb_neq _ _) Hn). }
    repeat case_match; by eexists.
Qed.

(** The frame [continuation_frames] emits next continues the transaction. *)
Lemma process_next_continuation tx rest active alloc now :
  let r := in_report tx in
  is_u32 (rep_cid r) → rest ≠ [] →
  len (rep_payload r) + len rest = rep_len r → rep_len r ≤ CTAPHID_MAX_PAYLOAD_SIZE →
  len (rep_payload r) = MAX_INIT_PAYLOAD_SIZE + MAX_CONT_PAYLOAD_SIZE * rep_seq r →
  0 ≤ rep_seq r →
  process (Some tx) (cid_bytes (rep_cid r) ++ [rep_seq r] ++ frame_body 59 rest)
    active alloc now =
  let r' := mkUHIDReport (rep_cid r) (rep_cmd r) (rep_len r)
    (rep_payload r ++ take 59 rest) (rep_seq r + 1) in
  if (59 <? len rest) then (Some (mkIncoming r' (in_deadline tx)), Monostate)
  else (None, Completed r').
Proof.
  intros r Hcid Hne Hlen Hmax Hseq Hs. unfold_sizes.
  assert (0 < len rest) by (destruct rest; simpl; [done|lia]).
  set (frame := _ ++ _).
  assert (length frame = 64%nat) as Hf.
  { unfold frame. rewrite !length_app, length_frame_body. done. }
  unfold process. rewrite strip_report_id_64 by done. rewrite Hf. simpl negb.
  assert (byte_at frame 4 = rep_seq r) as Hb4 by done.
  rewrite Hb4, sequence_byte by lia. simpl negb. cbv iota.
  unfold process_continuation. fold r. unfold frame at 1. rewrite frame_cid_bytes by done.
  rewrite Hb4, !Z.eqb_refl. simpl negb. cbv iota.
  rewrite u64_small by lia. unfold_sizes. rewrite u8_small by lia.
  replace (rep_len r - len (rep_payload r)) with (len rest) by lia.
  assert (take (Z.to_nat (len rest `min` 59)) (drop 5 frame) = take 59 rest) as Htake.
  { change (drop 5 frame) with (frame_body 59 rest).
    rewrite take_frame_body by lia.
    destruct (decide (59 ≤ length rest)%nat); [f_equal; lia|by rewrite !take_ge by lia]. }
  rewrite Htake. cbn [rep_payload rep_len].
  destruct (Z.ltb_spec 59 (len rest)) as [Hlt|Hge].
  - rewrite (proj2 (Z.eqb_neq _ _)); [done|].
    rewrite length_app, length_take, ?drop_0, ?length_frame_body. lia.
  - rewrite (proj2 (Z.eqb_eq _ _)); [done|].
    rewrite length_app, length_take, ?drop_0, ?length_frame_body. lia.
Qed.

Lemma feed_cons inc f fs active alloc now :
  feed inc (f :: fs) active alloc now =
  let '(inc', r) := process inc f active alloc now in
  let '(inc'', rs) := feed inc' fs active alloc now in (inc'', r :: rs).
Proof. done. Qed.

(** The continuation frames, interleaved with other channels, complete the
    transaction. *)
Lemma feed_continuations fuel tx rest raws active alloc now :
  let r := in_report tx in
  let frames := continuation_frames fuel (cid_bytes (rep_cid r)) rest (rep_seq r) in
  (length rest ≤ fuel)%nat →
  is_u32 (rep_cid r) → rest ≠ [] →
  len (rep_payload r) + len rest = rep_len r → rep_len r ≤ CTAPHID_MAX_PAYLOAD_SIZE →
  len (rep_payload r) = MAX_INIT_PAYLOAD_SIZE + MAX_CONT_PAYLOAD_SIZE * rep_seq r →
  0 ≤ rep_seq r →
  with_noise (rep_cid r) frames raws →
  ∃ others, Forall (about_other (rep_cid r)) others ∧
  feed (Some tx) raws active alloc now =
  (None, others ++ [Completed (mkUHIDReport (rep_cid r) (rep_cmd r) (rep_len r)
     (rep_payload r ++ rest) (rep_seq r + len frames))]).
Proof.
  revert tx rest raws. induction fuel as [|fuel IH]; intros tx rest raws r frames Hfuel.
  { intros _ Hne. destruct rest; simpl in *; [done|lia]. }
  intros Hcid Hne Hlen Hmax Hp Hs Hw.
  assert (frames = (cid_bytes (rep_cid r) ++ [rep_seq r] ++ frame_body 59 rest) ::
    continuation_frames fuel (cid_bytes (rep_cid r)) (drop 59 rest) (u8 (rep_seq r + 1)))
    as Hfr by (subst frames; by destruct rest).
  rewrite Hfr in Hw. clearbody frames. subst frames.
  remember (_ :: continuation_frames _ _ _ _) as fr eqn:Efr in Hw.
  induction Hw as [|f raw fs raws Hcar Hw _|n fs raws Hn Hne' Hw IHw]; simplify_eq.
  - pose proof (process_next_continuation tx rest active alloc now Hcid Hne Hlen Hmax Hp Hs)
      as Hnext. cbv zeta in Hnext. fold r in Hnext.
    rewrite <- (process_carries _ _ raw) in Hnext;
      [|rewrite !length_app, length_frame_body; reflexivity|exact Hcar].
    rewrite feed_cons, Hnext. clear Hnext.
    destruct (Z.ltb_spec 59 (len rest)) as [Hlt|Hge].
    + set (r' := mkUHIDReport _ _ _ _ _). set (tx' := mkIncoming r' _).
      assert (rep_seq r ≤ 127) by (unfold_sizes; lia).
      rewrite u8_small in Hw |- * by lia.
      destruct (IH tx' (drop 59 rest) raws) as (others & Ho & Hfeed); simpl.
      * rewrite length_drop. lia.
      * done.
      * intros E. apply (f_equal length) in E. rewrite length_drop in E. simpl in E. lia.
      * rewrite length_app, length_take, length_drop. lia.
      * done.
      * rewrite length_app, length_take. unfold_sizes. lia.
      * lia.
      * done.
      * rewrite Hfeed. exists (Monostate :: others). split; [by constructor|]. simpl.
        rewrite <- app_assoc, take_drop.
        set (k := length (continuation_frames _ _ _ _)).
        replace (rep_seq r + 1 + Z.of_nat k) with (rep_seq r + Z.of_nat (S k)) by lia. done.
    + assert (drop 59 rest = []) as Hd by (apply drop_ge; lia).
      assert (continuation_frames fuel (cid_bytes (rep_cid r)) (drop 59 rest)
        (u8 (rep_seq r + 1)) = []) as Hnil by (rewrite Hd; by destruct fuel).
      rewrite Hnil in Hw |- *. inversion Hw; subst; [|done].
      exists []. split; [constructor|]. simpl. rewrite take_ge by lia. done.
  - destruct (process_noise tx n active alloc now Hn) as (o & Ho & Habout).
    destruct IHw as (others & Hos & Hfeed); [done|].
    rewrite feed_cons, Ho, Hfeed. exists (o :: others). split; [by constructor|]. done.
Qed.

(** The first frame of a packet, on an idle transport. *)
Lemma process_first_frame cid c payload alloc now :
  let frame := cid_bytes cid ++
    [Z.lor c MASK; u8 (Z.land (Z.shiftr (len payload) 8) 255); u8 (Z.land (len payload) 255)] ++
    frame_body 57 payload in
  is_u32 cid → 0 ≤ c < 128 → c ≠ CTAPHID_CANCEL →
  (c = CTAPHID_INIT → len payload = 8) → len payload ≤ CTAPHID_MAX_PAYLOAD_SIZE →
  cid ∈ alloc →
  process None frame None alloc now =
  let r := mkUHIDReport cid c (len payload) (take 57 payload) 0 in
  if 57 <? len payload
  then (Some (mkIncoming r (now + message_assembly_timeout)), Monostate)
  else (None, Completed r).
Proof.
  intros frame Hcid Hc Hcancel Hinit Hmax Halloc. unfold_sizes.
  assert (length frame = 64%nat) as Hf.
  { unfold frame. rewrite !length_app, length_frame_body. done. }
  destruct (command_byte c Hc) as [Hmask Hcmd].
  assert (frame_command frame = c) as Hfc by exact Hcmd.
  assert (frame_length frame = len payload) as Hfl.
  { unfold frame_length. unfold byte_at, frame. simpl.
    rewrite u8_shiftr_land, u8_land by lia. rewrite join16_split by lia. apply u16_small. lia. }
  assert (frame_cid frame = cid) as Hfcid by (by apply frame_cid_bytes).
  unfold process. rewrite strip_report_id_64, Hf by done. simpl negb. cbv iota.
  change (byte_at frame 4) with (Z.lor c MASK). rewrite Hmask. simpl negb. cbv iota.
  unfold process_initial. rewrite Hfc, Hfl, Hfcid.
  rewrite (proj2 (Z.ltb_ge _ _)) by (unfold_sizes; lia).
  rewrite (proj2 (Z.eqb_neq _ _) Hcancel). rewrite !andb_false_l, orb_false_r.
  assert ((c =? CTAPHID_INIT) && negb (len payload =? 8) = false) as ->.
  { destruct (c =? CTAPHID_INIT) eqn:E; [|done]. apply Z.eqb_eq in E.
    simpl. rewrite (Hinit E). done. }
  simpl blocked_by_active. simpl blocked_by_incoming. cbv iota.
  rewrite (bool_decide_eq_true_2 _ Halloc), andb_false_r.
  unfold accept_initial. unfold_sizes. change (drop 7 frame) with (frame_body 57 payload).
  assert (take (Z.to_nat (len payload `min` 57)) (frame_body 57 payload) = take 57 payload)
    as ->.
  { rewrite take_frame_body by lia.
    destruct (decide (57 ≤ length payload)%nat); [f_equal; lia|by rewrite !take_ge by lia]. }
  cbn [rep_payload rep_len]. rewrite length_take.
  destruct (Z.ltb_spec 57 (len payload)).
  - by rewrite (proj2 (Z.eqb_neq _ _)) by lia.
  - by rewrite (proj2 (Z.eqb_eq _ _)) by lia.
Qed.

(** While a request is active only its own INIT and CANCEL complete. *)
Lemma process_while_active a raw alloc now :
  ∃ r, process None raw (Some a) alloc now = (None, r) ∧
    ∀ rep, r = Completed rep →
      rep_cid rep = a ∧
      (rep_cmd rep = CTAPHID_INIT ∧ rep_len rep = 8 ∨
       rep_cmd rep = CTAPHID_CANCEL ∧ rep_len rep = 0).
Proof.
  unfold process. set (frame := strip_report_id raw).
  destruct (negb (len frame =? HID_FRAME_SIZE)) eqn:Hlen; [by eexists|].
  case_match; [by eexists|]. unfold process_initial.
  case_match eqn:E1; [by eexists|]. case_match eqn:E2; [by eexists|].
  case_match; [by eexists|]. case_match eqn:E3; [by eexists|]. case_match; [done|].
  case_match; [by eexists|].
  apply negb_false_iff, andb_true_iff in E3 as [Hcid Hcmd]. apply Z.eqb_eq in Hcid.
  unfold HID_FRAME_SIZE in Hlen. reflect_bools.
  assert ((frame_command frame = CTAPHID_INIT ∧ frame_length frame = 8) ∨
          (frame_command frame = CTAPHID_CANCEL ∧ frame_length frame = 0)) as Hshape.
  { destruct Hcmd as [Hc|Hc]; apply Z.eqb_eq in Hc; [right|left]; rewrite Hc in *;
      simpl in *; reflect_bools; (split; [done|lia]). }
  assert (len (take (Z.to_nat (frame_length frame `min` 57)) (drop 7 frame))
          = frame_length frame) as Hfull.
  { rewrite length_take, length_drop. lia. }
  unfold accept_initial. unfold_sizes. cbn [rep_payload rep_len].
  rewrite Hfull, Z.eqb_refl. eexists. split; [done|].
  intros rep [= <-]. simpl. split; [done|]. tauto.
Qed.

(** ** Properties *)

(** C15: Whatever the host sends, one call of [process] keeps the assembly state well
    formed -- the payload collected so far is exactly 57 + 59*seq bytes, strictly
    shorter than the announced length, the sequence number stays below 128 so its
    8-bit increment never wraps -- and every completed message has exactly its
    announced length, at most 7609 bytes, an allocated channel (or is the broadcast
    INIT), an 8-byte INIT and an empty CANCEL for the active channel only. *)
Theorem process_invariant allocated_cids active_cid incoming raw_frame now :
  bytes_ok raw_frame → incoming_ok allocated_cids incoming →
  let '(incoming', r) := process incoming raw_frame active_cid allocated_cids now in
  incoming_ok allocated_cids incoming' ∧
  (∀ rep, r = Completed rep → report_ok active_cid allocated_cids rep).
Proof.
  intros Hb Hok. destruct (process _ _ _ _ _) as [inc' r] eqn:E. by eapply process_ok.
Qed.

(** The frame payload that starts a message of 100 bytes. *)
Definition example_first_frame : list Z :=
  cid_bytes 7 ++ [Z.lor CTAPHID_CBOR MASK; 0; 100] ++ replicate 57 5.

Lemma process_invariant_witness :
  bytes_ok example_first_frame ∧ incoming_ok {[7]} None ∧
  let '(incoming', r) := process None example_first_frame None {[7]} 0 in
  incoming_ok {[7]} incoming' ∧ (∀ rep, r = Completed rep → report_ok None {[7]} rep).
Proof.
  assert (bytes_ok example_first_frame) as H by (by apply bytes_okb_ok; vm_compute).
  split; [exact H|]. split; [exact I|].
  exact (process_invariant {[7]} None None example_first_frame 0 H I).
Defined.

(** C14: Framing round trip under interleaving.  A response cut into HID frames by
    [stringify] and fed back to an idle frame processor -- each frame with or without
    uhid's report-ID byte, and with any frames of other channels, malformed reports and
    reports of other sizes in between -- is reassembled into exactly the packet that
    was cut, and every other outcome concerns another channel. *)
Theorem framing_roundtrip cid c payload alloc now :
  is_u32 cid → 0 ≤ c < 128 → c ≠ CTAPHID_CANCEL →
  (c = CTAPHID_INIT → len payload = 8) → len payload ≤ CTAPHID_MAX_PAYLOAD_SIZE →
  cid ∈ alloc →
  ∃ frames,
    stringify (mkCTAPPacket cid (Z.lor c MASK) (len payload) payload) = Ret frames ∧
    ∀ raws, transmits cid frames raws →
    ∃ others, Forall (about_other cid) others ∧
      feed None raws None alloc now =
      (None, others ++ [Completed (mkUHIDReport cid c (len payload) payload
                          (len frames - 1))]).
Proof.
  intros Hcid Hc Hcancel Hinit Hmax Halloc.
  eexists. split; [by apply stringify_spec|]. cbn [pkt_cid pkt_cmd pkt_payload pkt_len].
  intros [|raw raws]; simpl transmits; [done|]. intros [Hcar Hw].
  pose proof (process_first_frame cid c payload alloc now Hcid Hc Hcancel Hinit Hmax Halloc)
    as Hfirst. cbv zeta in Hfirst.
  rewrite <- (process_carries _ _ raw) in Hfirst;
    [|rewrite !length_app, length_frame_body; reflexivity|exact Hcar].
  rewrite feed_cons, Hfirst. clear Hfirst Hcar.
  destruct (Z.ltb_spec 57 (len payload)) as [Hlt|Hge].
  - set (tx := mkIncoming _ _).
    destruct (feed_continuations (length payload) tx (drop 57 payload) raws None alloc now)
      as (others & Ho & Hfeed); simpl; rewrite ?length_take, ?length_drop; unfold_sizes;
      try done; try lia.
    { intros E. apply (f_equal length) in E. rewrite length_drop in E. simpl in E. lia. }
    rewrite Hfeed. simpl. rewrite take_drop. exists (Monostate :: others).
    split; [by constructor|]. simpl.
    set (k := length (continuation_frames _ _ _ _)).
    by replace (Z.of_nat k) with (Z.of_nat (S k) - 1) by lia.
  - rewrite drop_ge in Hw |- * by lia.
    assert (∀ f cb, continuation_frames f cb [] 0 = []) as Hnil by (by intros []).
    rewrite Hnil in Hw |- *. inversion Hw; subst; [|done].
    exists []. split; [constructor|]. simpl. by rewrite take_ge by lia.
Qed.

Lemma framing_roundtrip_witness :
  let payload := replicate 130 9 in
  ∃ frames,
    stringify (mkCTAPPacket 7 (Z.lor CTAPHID_CBOR MASK) (len payload) payload) = Ret frames ∧
    ∀ raws, transmits 7 frames raws →
    ∃ others, Forall (about_other 7) others ∧
      feed None raws None {[7; 8]} 0 =
      (None, others ++ [Completed (mkUHIDReport 7 CTAPHID_CBOR (len payload) payload
                          (len frames - 1))]).
Proof.
  apply (framing_roundtrip 7 CTAPHID_CBOR (replicate 130 9) {[7; 8]} 0); try done.
Defined.

(** The frames of that packet do go out interleaved with another channel. *)
Example framing_interleaved :
  let frames := match stringify (mkCTAPPacket 7 144 130 (replicate 130 9)) with
                | Ret f => f | Throw _ => [] end in
  let other := cid_bytes 8 ++ [129; 0; 3] ++ replicate 57 1 in
  let raws := match frames with
              | [f0; f1; f2] => [f0; other; 0 :: f1; [1; 2; 3]; f2]
              | _ => [] end in
  snd (feed None raws None {[7; 8]} 0) =
  [Monostate; FrameError 8 HID_ERR_CHANNEL_BUSY; Monostate; Monostate;
   Completed (mkUHIDReport 7 16 130 (replicate 130 9) 2)].
Proof. vm_compute. reflexivity. Qed.

(** A report that is not a well-sized frame of the channel being assembled --
    another channel's initial or continuation frame, INIT and CANCEL included, or a
    malformed report -- leaves the assembly untouched and produces no message and no
    error for that channel. *)
Theorem assembly_isolation tx raw active alloc now :
  noise (rep_cid (in_report tx)) raw →
  ∃ r, process (Some tx) raw active alloc now = (Some tx, r) ∧
       about_other (rep_cid (in_report tx)) r.
Proof. apply process_noise. Qed.

Lemma assembly_isolation_witness :
  let tx := mkIncoming (mkUHIDReport 7 16 130 (replicate 57 9) 0) 3 in
  let raw := cid_bytes 8 ++ [129; 0; 3] ++ replicate 57 1 in
  ∃ r, process (Some tx) raw None {[7; 8]} 0 = (Some tx, r) ∧ about_other 7 r.
Proof.
  apply (assembly_isolation (mkIncoming (mkUHIDReport 7 16 130 (replicate 57 9) 0) 3)).
  right. by vm_compute.
Defined.

(** While a request of channel [a] is being served and nothing is being
    assembled, no frame starts an assembly, and the only messages that complete are
    the INIT and CANCEL of that same channel. *)
Theorem active_request_excludes_others a raw alloc now :
  ∃ r, process None raw (Some a) alloc now = (None, r) ∧
    ∀ rep, r = Completed rep →
      rep_cid rep = a ∧
      (rep_cmd rep = CTAPHID_INIT ∧ rep_len rep = 8 ∨
       rep_cmd rep = CTAPHID_CANCEL ∧ rep_len rep = 0).
Proof. apply process_while_active. Qed.
