(* ===== verification/VerifierProtocol.v ===== *)
(** * The verifier wire protocol (src/src/uv/src/verifier_protocol.hpp, .cpp)

    Messages between the daemon and the privileged PAM verifier: their validation,
    the packet encoder and the packet decoder.  An enumeration that the decoder casts
    from a byte is that byte; [is_valid_*] are the checks the code makes on it. *)
From Stdlib Require Import ZArith Lia.
From stdpp Require Import base list strings.
From S2P Require Import Prelude.

(** ** Constants and messages *)

Definition MAX_SECRET_SIZE : Z := 1024.
Definition VERIFIER_PROTOCOL_VERSION : Z := 1.
Definition VERIFIER_PROTOCOL_HEADER_SIZE : Z := 2.
Definition MAX_SESSION_ID_SIZE : Z := 255.
Definition MAX_VERIFICATION_TEXT_SIZE : Z := 512.
Definition MAX_VERIFICATION_SECRET_SIZE : Z := MAX_SECRET_SIZE.
Definition MAX_VERIFIER_PACKET_SIZE : Z :=
  VERIFIER_PROTOCOL_HEADER_SIZE +
  Z.max (4 + MAX_SESSION_ID_SIZE)
    (Z.max MAX_VERIFICATION_SECRET_SIZE
      (Z.max (1 + MAX_VERIFICATION_TEXT_SIZE) MAX_VERIFICATION_TEXT_SIZE)).

Definition VerificationStatusKind := Z.
Definition status_information : VerificationStatusKind := 1.
Definition status_error : VerificationStatusKind := 2.

Definition VerificationResult := Z.
Definition result_success : VerificationResult := 1.
Definition result_denied : VerificationResult := 2.
Definition result_error : VerificationResult := 3.

Inductive VerifierMessage :=
  | StartVerification (targetUid : Z) (sessionId : list Z)
  | SecretResponse (secret : list Z)
  | CancelVerification
  | VerificationStatus (kind : VerificationStatusKind) (message : list Z)
  | SecretRequired (prompt : list Z)
  | VerificationComplete (result : VerificationResult).

#[global] Instance VerifierMessage_eq_dec : EqDecision VerifierMessage.
Proof. unfold VerificationStatusKind, VerificationResult. solve_decision. Defined.

(** [enum class MessageType : uint8_t] *)
Definition type_start : Z := 1.
Definition type_secret_response : Z := 2.
Definition type_cancel : Z := 3.
Definition type_status : Z := 4.
Definition type_secret_required : Z := 5.
Definition type_complete : Z := 6.

(** ** Validation *)

(** [std::find(..., 0) != end] *)
Definition contains_nul (l : list Z) : bool := existsb (λ b, b =? 0) l.

Definition validate_session_id (session : list Z) : res () :=
  throw_if (len session =? 0) as VerifierProtocolError ;;
  throw_if (MAX_SESSION_ID_SIZE <? len session) as VerifierProtocolError ;;
  throw_if contains_nul session as VerifierProtocolError ;;
  Ret ().

Definition validate_secret (secret : list Z) : res () :=
  throw_if (MAX_VERIFICATION_SECRET_SIZE <? len secret) as VerifierProtocolError ;;
  throw_if contains_nul secret as VerifierProtocolError ;;
  Ret ().

Definition is_continuation_byte (value : Z) : bool := (128 <=? value) && (value <=? 191).

Definition valid_second_of_three (first second : Z) : bool :=
  (first =? 224) && (160 <=? second) && (second <=? 191) ||
  (225 <=? first) && (first <=? 236) && is_continuation_byte second ||
  (first =? 237) && (128 <=? second) && (second <=? 159) ||
  (238 <=? first) && (first <=? 239) && is_continuation_byte second.

Definition valid_second_of_four (first second : Z) : bool :=
  (first =? 240) && (144 <=? second) && (second <=? 191) ||
  (241 <=? first) && (first <=? 243) && is_continuation_byte second ||
  (first =? 244) && (128 <=? second) && (second <=? 143).

(** The loop [while(index < text.size())] over the rest of the text; the tests
    [index + k >= text.size()] are the missing elements of the list. *)
Fixpoint validate_text_loop (text : list Z) : res () :=
  match text with
  | [] => Ret ()
  | first :: rest =>
      if first <=? 127 then
        throw_if (first <? 32) || (first =? 127) as VerifierProtocolError ;;
        validate_text_loop rest
      else if (194 <=? first) && (first <=? 223) then
        match rest with
        | second :: rest =>
            throw_if negb (is_continuation_byte second) as VerifierProtocolError ;;
            throw_if (first =? 194) && (second <=? 159) as VerifierProtocolError ;;
            validate_text_loop rest
        | _ => Throw VerifierProtocolError
        end
      else if (224 <=? first) && (first <=? 239) then
        match rest with
        | second :: third :: rest =>
            throw_if negb (valid_second_of_three first second) ||
                     negb (is_continuation_byte third) as VerifierProtocolError ;;
            validate_text_loop rest
        | _ => Throw VerifierProtocolError
        end
      else if (240 <=? first) && (first <=? 244) then
        match rest with
        | second :: third :: fourth :: rest =>
            throw_if negb (valid_second_of_four first second) ||
                     negb (is_continuation_byte third) ||
                     negb (is_continuation_byte fourth) as VerifierProtocolError ;;
            validate_text_loop rest
        | _ => Throw VerifierProtocolError
        end
      else Throw VerifierProtocolError
  end.

Definition validate_display_text (text : list Z) : res () :=
  throw_if (MAX_VERIFICATION_TEXT_SIZE <? len text) as VerifierProtocolError ;;
  validate_text_loop text.

Definition decode_display_text (payload : list Z) : res (list Z) :=
  throw_if (MAX_VERIFICATION_TEXT_SIZE <? len payload) as VerifierProtocolError ;;
  _ ← validate_display_text payload;
  Ret payload.

Definition is_valid_status_kind (kind : VerificationStatusKind) : bool :=
  (kind =? status_information) || (kind =? status_error).

Definition is_valid_result (result : VerificationResult) : bool :=
  (result =? result_success) || (result =? result_denied) || (result =? result_error).

(** ** Encoding *)

Definition set_header (type : Z) : list Z := [VERIFIER_PROTOCOL_VERSION; type].

Definition write_uint32_be (value : Z) : list Z :=
  [u8 (Z.shiftr value 24); u8 (Z.shiftr value 16); u8 (Z.shiftr value 8); u8 value].

Definition read_uint32_be (source : list Z) : Z :=
  join32 (byte_at source 0) (byte_at source 1) (byte_at source 2) (byte_at source 3).

Definition encode_start (targetUid : Z) (sessionId : list Z) : res (list Z) :=
  _ ← validate_session_id sessionId;
  Ret (set_header type_start ++ write_uint32_be targetUid ++ sessionId).

Definition encode_secret (secret : list Z) : res (list Z) :=
  _ ← validate_secret secret;
  Ret (set_header type_secret_response ++ secret).

Definition encode_empty (type : Z) : list Z := set_header type.

Definition encode_byte (type value : Z) : list Z := set_header type ++ [value].

Definition encode_status (kind : VerificationStatusKind) (message : list Z) : res (list Z) :=
  _ ← validate_display_text message;
  Ret (set_header type_status ++ [kind] ++ message).

Definition encode_secret_required (prompt : list Z) : res (list Z) :=
  _ ← validate_display_text prompt;
  Ret (set_header type_secret_required ++ prompt).

Definition encode_verifier_message (message : VerifierMessage) : res (list Z) :=
  match message with
  | StartVerification uid session => encode_start uid session
  | SecretResponse secret => encode_secret secret
  | CancelVerification => Ret (encode_empty type_cancel)
  | VerificationStatus kind text =>
      throw_if negb (is_valid_status_kind kind) as VerifierProtocolError ;;
      encode_status kind text
  | SecretRequired prompt => encode_secret_required prompt
  | VerificationComplete result =>
      throw_if negb (is_valid_result result) as VerifierProtocolError ;;
      Ret (encode_byte type_complete result)
  end.

(** ** Decoding *)

Definition decode_start (payload : list Z) : res VerifierMessage :=
  throw_if (len payload <=? 4) || (4 + MAX_SESSION_ID_SIZE <? len payload)
    as VerifierProtocolError ;;
  let session := drop 4 payload in
  _ ← validate_session_id session;
  Ret (StartVerification (read_uint32_be (take 4 payload)) session).

Definition decode_status (payload : list Z) : res VerifierMessage :=
  throw_if (len payload =? 0) || (1 + MAX_VERIFICATION_TEXT_SIZE <? len payload)
    as VerifierProtocolError ;;
  let kind := byte_at payload 0 in
  throw_if negb (is_valid_status_kind kind) as VerifierProtocolError ;;
  message ← decode_display_text (drop 1 payload);
  Ret (VerificationStatus kind message).

Definition decode_complete (payload : list Z) : res VerifierMessage :=
  throw_if negb (len payload =? 1) as VerifierProtocolError ;;
  let result := byte_at payload 0 in
  throw_if negb (is_valid_result result) as VerifierProtocolError ;;
  Ret (VerificationComplete result).

Definition decode_verifier_message (packet : list Z) : res VerifierMessage :=
  throw_if (len packet <? VERIFIER_PROTOCOL_HEADER_SIZE) as VerifierProtocolError ;;
  throw_if (MAX_VERIFIER_PACKET_SIZE <? len packet) as VerifierProtocolError ;;
  throw_if negb (byte_at packet 0 =? VERIFIER_PROTOCOL_VERSION) as VerifierProtocolError ;;
  let payload := drop 2 packet in
  let type := byte_at packet 1 in
  if type =? type_start then decode_start payload else
  if type =? type_secret_response then
    _ ← validate_secret payload; Ret (SecretResponse payload) else
  if type =? type_cancel then
    throw_if negb (len payload =? 0) as VerifierProtocolError ;; Ret CancelVerification else
  if type =? type_status then decode_status payload else
  if type =? type_secret_required then
    prompt ← decode_display_text payload; Ret (SecretRequired prompt) else
  if type =? type_complete then decode_complete payload else
  Throw VerifierProtocolError.

(** ** Lemmas on the codec *)

Lemma length_write_uint32_be v : length (write_uint32_be v) = 4%nat.
Proof. done. Qed.

Lemma read_write_uint32_be v : is_u32 v → read_uint32_be (write_uint32_be v) = v.
Proof.
  intros. unfold read_uint32_be, write_uint32_be, byte_at. simpl.
  rewrite !u8_shiftr by lia. change (u8 v) with (v mod 256). by apply join32_split.
Qed.

Lemma write_read_uint32_be l :
  length l = 4%nat → bytes_ok l → write_uint32_be (read_uint32_be l) = l.
Proof.
  intros Hl Hb. destruct l as [|b0 [|b1 [|b2 [|b3 [|]]]]]; try done.
  unfold bytes_ok in Hb. rewrite !Forall_cons in Hb. destruct Hb as (?&?&?&?&_).
  unfold read_uint32_be, write_uint32_be, byte_at. simpl.
  rewrite !u8_shiftr by lia. set (z := join32 _ _ _ _). change (u8 z) with (z mod 256).
  destruct (split32_join b0 b1 b2 b3) as (E0 & E1 & E2 & E3); try done.
  fold z in E0, E1, E2, E3. by rewrite E0, E1, E2, E3.
Qed.

Lemma read_uint32_be_range l : bytes_ok l → is_u32 (read_uint32_be l).
Proof. intros. unfold read_uint32_be. apply join32_range; auto with vauth. Qed.

(** What the validators accept. *)
Lemma validate_session_id_ok s :
  validate_session_id s = Ret () ↔ 1 ≤ len s ≤ 255 ∧ contains_nul s = false.
Proof.
  unfold validate_session_id, MAX_SESSION_ID_SIZE.
  rewrite !throw_if_ret, Z.eqb_neq, Z.ltb_ge. intuition lia.
Qed.

Lemma validate_secret_ok s :
  validate_secret s = Ret () ↔ len s ≤ 1024 ∧ contains_nul s = false.
Proof.
  unfold validate_secret, MAX_VERIFICATION_SECRET_SIZE, MAX_SECRET_SIZE.
  rewrite !throw_if_ret, Z.ltb_ge. intuition.
Qed.

Lemma validate_display_text_ok s :
  validate_display_text s = Ret () ↔ len s ≤ 512 ∧ validate_text_loop s = Ret ().
Proof.
  unfold validate_display_text, MAX_VERIFICATION_TEXT_SIZE.
  by rewrite !throw_if_ret, Z.ltb_ge.
Qed.

Lemma decode_display_text_ok s t :
  decode_display_text s = Ret t ↔ t = s ∧ validate_display_text s = Ret ().
Proof.
  unfold decode_display_text. split.
  - intros H. case_match; [done|]. destruct (validate_display_text s) as [[]|] eqn:E; [|done].
    split; [by inversion H|done].
  - intros [-> H]. rewrite H. apply validate_display_text_ok in H as [Hl _].
    unfold MAX_VERIFICATION_TEXT_SIZE. by rewrite (proj2 (Z.ltb_ge _ _)) by lia.
Qed.

(** The values the encoder puts in a packet are in range. *)
Definition message_in_range (m : VerifierMessage) : Prop :=
  match m with StartVerification uid _ => is_u32 uid | _ => True end.

Definition packet_max : MAX_VERIFIER_PACKET_SIZE = 1026 := eq_refl.

(** The encodable messages and their packets, one case per constructor. *)
Inductive encodes : VerifierMessage → list Z → Prop :=
  | enc_start uid s : 1 ≤ len s ≤ 255 → contains_nul s = false →
      encodes (StartVerification uid s) ([1; 1] ++ write_uint32_be uid ++ s)
  | enc_secret s : len s ≤ 1024 → contains_nul s = false →
      encodes (SecretResponse s) ([1; 2] ++ s)
  | enc_cancel : encodes CancelVerification [1; 3]
  | enc_status k t : k = 1 ∨ k = 2 → len t ≤ 512 → validate_text_loop t = Ret () →
      encodes (VerificationStatus k t) ([1; 4; k] ++ t)
  | enc_required t : len t ≤ 512 → validate_text_loop t = Ret () →
      encodes (SecretRequired t) ([1; 5] ++ t)
  | enc_complete r : r = 1 ∨ r = 2 ∨ r = 3 → encodes (VerificationComplete r) [1; 6; r].

Lemma is_valid_status_kind_ok k : is_valid_status_kind k = true ↔ k = 1 ∨ k = 2.
Proof.
  unfold is_valid_status_kind, status_information, status_error.
  rewrite orb_true_iff, !Z.eqb_eq. done.
Qed.

Lemma is_valid_result_ok r : is_valid_result r = true ↔ r = 1 ∨ r = 2 ∨ r = 3.
Proof.
  unfold is_valid_result, result_success, result_denied, result_error.
  rewrite !orb_true_iff, !Z.eqb_eq. tauto.
Qed.

Lemma encode_spec m p : encode_verifier_message m = Ret p ↔ encodes m p.
Proof.
  split.
  - destruct m as [uid s|s| |k t|t|r]; simpl;
      unfold encode_start, encode_secret, encode_status, encode_secret_required;
      rewrite ?throw_if_ret, ?bind_unit_ret, ?validate_session_id_ok, ?validate_secret_ok,
        ?validate_display_text_ok, ?negb_false_iff, ?is_valid_status_kind_ok,
        ?is_valid_result_ok.
    + intros [[??] [= <-]]. by constructor.
    + intros [[??] [= <-]]. by constructor.
    + intros [= <-]. constructor.
    + intros [? [[??] [= <-]]]. by constructor.
    + intros [[??] [= <-]]. by constructor.
    + intros [? [= <-]]. by constructor.
  - intros []; simpl;
      unfold encode_start, encode_secret, encode_status, encode_secret_required;
      rewrite ?throw_if_ret, ?bind_unit_ret, ?validate_session_id_ok, ?validate_secret_ok,
        ?validate_display_text_ok, ?negb_false_iff, ?is_valid_status_kind_ok,
        ?is_valid_result_ok; done.
Qed.

Lemma encodes_size m p : encodes m p → 2 ≤ len p ≤ MAX_VERIFIER_PACKET_SIZE.
Proof.
  rewrite packet_max.
  intros []; rewrite ?length_app; simpl length; rewrite ?length_app; simpl length; lia.
Qed.

Lemma decode_of_encodes m p :
  message_in_range m → encodes m p → decode_verifier_message p = Ret m.
Proof.
  intros Hr He. pose proof (encodes_size _ _ He) as Hs.
  unfold decode_verifier_message.
  rewrite (proj2 (Z.ltb_ge _ _)) by (unfold VERIFIER_PROTOCOL_HEADER_SIZE; lia).
  rewrite (proj2 (Z.ltb_ge _ _)) by lia.
  destruct He as [uid s Hl Hn|s Hl Hn| |k t Hk Hl Ht|t Hl Ht|r Hrs]; simpl in *; try done.
  - unfold decode_start.
    change (drop 4 _) with s. change (take 4 _) with (write_uint32_be uid).
    simpl length. unfold MAX_SESSION_ID_SIZE.
    rewrite (proj2 (Z.leb_gt _ _)), (proj2 (Z.ltb_ge _ _)) by lia. simpl orb. cbv iota.
    rewrite (proj2 (validate_session_id_ok s)) by done. simpl.
    by rewrite read_write_uint32_be.
  - change (byte_at _ 0 =? VERIFIER_PROTOCOL_VERSION) with true. simpl. rewrite ?drop_0.
    by rewrite (proj2 (validate_secret_ok s)).
  - unfold decode_status. simpl length. unfold MAX_VERIFICATION_TEXT_SIZE.
    change (byte_at (k :: t) 0) with k. change (drop 1 (k :: t)) with t.
    rewrite (proj2 (Z.eqb_neq _ _)), (proj2 (Z.ltb_ge _ _)) by lia.
    rewrite (proj2 (is_valid_status_kind_ok k) Hk). simpl.
    by rewrite (proj2 (decode_display_text_ok t t)) by (rewrite validate_display_text_ok; done).
  - change (byte_at _ 0 =? VERIFIER_PROTOCOL_VERSION) with true. simpl. rewrite ?drop_0.
    by rewrite (proj2 (decode_display_text_ok t t)) by (rewrite validate_display_text_ok; done).
  - unfold decode_complete. simpl. change (byte_at [r] 0) with r.
    by rewrite (proj2 (is_valid_result_ok r) Hrs).
Qed.

Lemma packet_cons2 p : 2 ≤ len p → p = [byte_at p 0; byte_at p 1] ++ drop 2 p.
Proof. intros H. destruct p as [|a [|b p]]; simpl in *; try lia. by rewrite drop_0. Qed.

Lemma encodes_of_decode m p :
  bytes_ok p → decode_verifier_message p = Ret m → encodes m p.
Proof.
  intros Hb. unfold decode_verifier_message. rewrite !throw_if_ret.
  intros (Hlo & _ & Hv & H). apply Z.ltb_ge in Hlo. unfold VERIFIER_PROTOCOL_HEADER_SIZE in Hlo.
  apply negb_false_iff, Z.eqb_eq in Hv.
  rewrite (packet_cons2 p) by lia. rewrite Hv. change VERIFIER_PROTOCOL_VERSION with 1.
  pose proof (bytes_ok_drop 2 p Hb) as Hpb. set (payload := drop 2 p) in *. clearbody payload.
  destruct (byte_at p 1 =? type_start) eqn:E1;
    [|destruct (byte_at p 1 =? type_secret_response) eqn:E2;
    [|destruct (byte_at p 1 =? type_cancel) eqn:E3;
    [|destruct (byte_at p 1 =? type_status) eqn:E4;
    [|destruct (byte_at p 1 =? type_secret_required) eqn:E5;
    [|destruct (byte_at p 1 =? type_complete) eqn:E6; [|done]]]]]];
    match goal with E : (byte_at p 1 =? _) = true |- _ =>
      apply Z.eqb_eq in E; rewrite E end; clear Hv Hlo Hb.
  - unfold decode_start in H. rewrite throw_if_ret, bind_unit_ret, validate_session_id_ok in H.
    destruct H as (Hl & [Hs Hn] & [= <-]). apply orb_false_iff in Hl as [Hl _].
    apply Z.leb_gt in Hl.
    replace ([1; type_start] ++ payload) with
      ([1; 1] ++ write_uint32_be (read_uint32_be (take 4 payload)) ++ drop 4 payload).
    + by apply enc_start.
    + rewrite write_read_uint32_be, take_drop; [done| |auto with vauth].
      rewrite length_take. lia.
  - rewrite bind_unit_ret, validate_secret_ok in H. destruct H as ([??] & [= <-]).
    by constructor.
  - rewrite throw_if_ret in H. destruct H as (Hl & [= <-]).
    apply negb_false_iff, Z.eqb_eq in Hl. destruct payload; [constructor|simpl in Hl; lia].
  - unfold decode_status in H. rewrite !throw_if_ret in H. destruct H as (Hl & Hk & H).
    apply orb_false_iff in Hl as [Hl _]. apply Z.eqb_neq in Hl.
    apply negb_false_iff, is_valid_status_kind_ok in Hk.
    destruct payload as [|k t]; [done|]. change (drop 1 (k :: t)) with t in H.
    change (byte_at (k :: t) 0) with k in *.
    destruct (decode_display_text t) as [t'|] eqn:Et; [|done].
    apply decode_display_text_ok in Et as [-> [Ht1 Ht2]%validate_display_text_ok].
    injection H as <-. by constructor.
  - destruct (decode_display_text payload) as [t'|] eqn:Et; [|done].
    apply decode_display_text_ok in Et as [-> [Ht1 Ht2]%validate_display_text_ok].
    injection H as <-. by constructor.
  - unfold decode_complete in H. rewrite !throw_if_ret in H. destruct H as (Hl & Hr & [= <-]).
    apply negb_false_iff, Z.eqb_eq in Hl. apply negb_false_iff, is_valid_result_ok in Hr.
    destruct payload as [|r [|]]; simpl in Hl; try lia. by constructor.
Qed.

(** ** Display text is UTF-8 *)

(** The UTF-8 encoding of a code point. *)
Definition utf8_encode (cp : Z) : list Z :=
  if cp <? 128 then [cp] else
  if cp <? 2048 then [192 + cp / 64; 128 + cp mod 64] else
  if cp <? 65536 then [224 + cp / 4096; 128 + cp / 64 mod 64; 128 + cp mod 64] else
  [240 + cp / 262144; 128 + cp / 4096 mod 64; 128 + cp / 64 mod 64; 128 + cp mod 64].

(** The code points of displayable text: Unicode scalar values that are neither a C0
    or C1 control character nor DELETE. *)
Definition displayable (cp : Z) : Prop :=
  32 ≤ cp ≤ 1114111 ∧ ¬ (127 ≤ cp ≤ 159) ∧ ¬ (55296 ≤ cp ≤ 57343).

Ltac leb_true := match goal with
  | |- context [?a <=? ?b] =>
      first [rewrite (proj2 (Z.leb_le a b)) by lia | rewrite (proj2 (Z.leb_gt a b)) by lia]
  | |- context [?a <? ?b] =>
      first [rewrite (proj2 (Z.ltb_lt a b)) by lia | rewrite (proj2 (Z.ltb_ge a b)) by lia]
  | |- context [?a =? ?b] =>
      first [rewrite (proj2 (Z.eqb_eq a b)) by lia | rewrite (proj2 (Z.eqb_neq a b)) by lia]
  end.

Lemma continuation_mod z : is_continuation_byte (128 + z mod 64) = true.
Proof.
  unfold is_continuation_byte. pose proof (Z.mod_pos_bound z 64). by repeat leb_true.
Qed.

Lemma is_continuation_range z : is_continuation_byte z = true ↔ 128 ≤ z ≤ 191.
Proof. unfold is_continuation_byte. rewrite andb_true_iff, !Z.leb_le. done. Qed.

Lemma valid_second_of_three_ok a b :
  valid_second_of_three a b = true ↔
  128 ≤ b ≤ 191 ∧ 224 ≤ a ≤ 239 ∧ (a = 224 → 160 ≤ b) ∧ (a = 237 → b ≤ 159).
Proof.
  unfold valid_second_of_three.
  rewrite !orb_true_iff, !andb_true_iff, !is_continuation_range, !Z.leb_le, !Z.eqb_eq. lia.
Qed.

Lemma valid_second_of_four_ok a b :
  valid_second_of_four a b = true ↔
  128 ≤ b ≤ 191 ∧ 240 ≤ a ≤ 244 ∧ (a = 240 → 144 ≤ b) ∧ (a = 244 → b ≤ 143).
Proof.
  unfold valid_second_of_four.
  rewrite !orb_true_iff, !andb_true_iff, !is_continuation_range, !Z.leb_le, !Z.eqb_eq. lia.
Qed.

(** One displayable character is one turn of the loop. *)
Lemma validate_text_loop_step cp rest :
  displayable cp → validate_text_loop (utf8_encode cp ++ rest) = validate_text_loop rest.
Proof.
  intros (Hr & Hc & Hs). unfold utf8_encode.
  destruct (Z.ltb_spec cp 128); [simpl; by repeat leb_true|].
  destruct (Z.ltb_spec cp 2048).
  { assert (2 ≤ cp / 64 < 32) by (Z.to_euclidean_division_equations; lia).
    simpl. rewrite continuation_mod. repeat leb_true. simpl.
    assert ((192 + cp / 64 =? 194) && (128 + cp mod 64 <=? 159) = false) as ->; [|done].
    apply andb_false_iff. rewrite Z.eqb_neq, Z.leb_gt.
    Z.to_euclidean_division_equations. lia. }
  destruct (Z.ltb_spec cp 65536).
  { assert (0 ≤ cp / 4096 < 16) by (Z.to_euclidean_division_equations; lia).
    simpl. rewrite continuation_mod. repeat leb_true. simpl.
    rewrite (proj2 (valid_second_of_three_ok _ _)); [done|].
    Z.to_euclidean_division_equations. lia. }
  assert (0 ≤ cp / 262144 < 5) by (Z.to_euclidean_division_equations; lia).
  simpl. rewrite !continuation_mod. repeat leb_true. simpl.
  rewrite (proj2 (valid_second_of_four_ok _ _)); [done|].
  Z.to_euclidean_division_equations. lia.
Qed.

Lemma utf8_encode_2 a b :
  194 ≤ a ≤ 223 → 128 ≤ b ≤ 191 → utf8_encode ((a - 192) * 64 + (b - 128)) = [a; b].
Proof.
  intros. unfold utf8_encode. repeat leb_true.
  repeat f_equal; Z.to_euclidean_division_equations; lia.
Qed.

Lemma utf8_encode_3 a b c :
  224 ≤ a ≤ 239 → (a = 224 → 160 ≤ b) → 128 ≤ b ≤ 191 → 128 ≤ c ≤ 191 →
  utf8_encode ((a - 224) * 4096 + (b - 128) * 64 + (c - 128)) = [a; b; c].
Proof.
  intros. assert (a = 224 ∨ 225 ≤ a) by lia.
  unfold utf8_encode. repeat leb_true.
  repeat f_equal; Z.to_euclidean_division_equations; lia.
Qed.

Lemma utf8_encode_4 a b c d :
  240 ≤ a ≤ 244 → (a = 240 → 144 ≤ b) → 128 ≤ b ≤ 191 → 128 ≤ c ≤ 191 → 128 ≤ d ≤ 191 →
  utf8_encode ((a - 240) * 262144 + (b - 128) * 4096 + (c - 128) * 64 + (d - 128)) =
  [a; b; c; d].
Proof.
  intros. assert (a = 240 ∨ 241 ≤ a) by lia.
  unfold utf8_encode. repeat leb_true.
  repeat f_equal; Z.to_euclidean_division_equations; lia.
Qed.

(** One turn of an accepting run reads one displayable character. *)
Lemma validate_text_loop_unfold text :
  bytes_ok text → validate_text_loop text = Ret () → text ≠ [] →
  ∃ cp rest, displayable cp ∧ text = utf8_encode cp ++ rest ∧ validate_text_loop rest = Ret ().
Proof.
  intros Hb H Hne. destruct text as [|a rest]; [done|]. clear Hne.
  apply bytes_ok_cons in Hb as [Ha Hb]. cbn [validate_text_loop] in H.
  destruct (Z.leb_spec a 127).
  { apply throw_if_ret in H as [Hc H]. reflect_bools. exists a, rest.
    unfold displayable, utf8_encode. leb_true. split_and!; done || lia. }
  destruct ((194 <=? a) && (a <=? 223)) eqn:E2.
  { destruct rest as [|b rest]; [done|]. rewrite !throw_if_ret in H.
    destruct H as (Hc & Hx & H). apply negb_false_iff, is_continuation_range in Hc.
    apply andb_false_iff in Hx. rewrite Z.eqb_neq, Z.leb_gt in Hx. reflect_bools.
    exists ((a - 192) * 64 + (b - 128)), rest. rewrite utf8_encode_2 by lia.
    unfold displayable. split_and!; done || lia. }
  destruct ((224 <=? a) && (a <=? 239)) eqn:E3.
  { destruct rest as [|b [|c rest]]; [done..|]. rewrite throw_if_ret in H.
    destruct H as (Hc & H). apply orb_false_iff in Hc as [Hv Hc].
    apply negb_false_iff, is_continuation_range in Hc.
    apply negb_false_iff, valid_second_of_three_ok in Hv. reflect_bools.
    exists ((a - 224) * 4096 + (b - 128) * 64 + (c - 128)), rest.
    rewrite utf8_encode_3 by lia. unfold displayable. split_and!; done || lia. }
  destruct ((240 <=? a) && (a <=? 244)) eqn:E4; [|done].
  destruct rest as [|b [|c [|d rest]]]; [done..|]. rewrite throw_if_ret in H.
  destruct H as (Hc & H). apply orb_false_iff in Hc as [Hv Hd].
  apply orb_false_iff in Hv as [Hv Hc].
  apply negb_false_iff, is_continuation_range in Hc.
  apply negb_false_iff, is_continuation_range in Hd.
  apply negb_false_iff, valid_second_of_four_ok in Hv. reflect_bools.
  exists ((a - 240) * 262144 + (b - 128) * 4096 + (c - 128) * 64 + (d - 128)), rest.
  rewrite utf8_encode_4 by lia. unfold displayable. split_and!; done || lia.
Qed.

Lemma utf8_encode_length cp : (1 ≤ length (utf8_encode cp))%nat.
Proof. unfold utf8_encode. repeat case_match; simpl; lia. Qed.

Lemma validate_text_loop_sound n text :
  (length text ≤ n)%nat → bytes_ok text → validate_text_loop text = Ret () →
  ∃ cps, Forall displayable cps ∧ text = cps ≫= utf8_encode.
Proof.
  revert text. induction n as [|n IH]; intros text Hn Hb H.
  { destruct text; [by exists []|simpl in Hn; lia]. }
  destruct (decide (text = [])) as [->|Hne]; [by exists []|].
  destruct (validate_text_loop_unfold text Hb H Hne) as (cp & rest & Hd & -> & Hr).
  apply bytes_ok_app in Hb as [_ Hb]. rewrite length_app in Hn.
  pose proof (utf8_encode_length cp).
  destruct (IH rest) as (cps & Hcps & ->); [lia|done|done|].
  exists (cp :: cps). split; [by constructor|done].
Qed.

Lemma validate_text_loop_complete cps :
  Forall displayable cps → validate_text_loop (cps ≫= utf8_encode) = Ret ().
Proof.
  induction 1 as [|cp cps Hd _ IH]; [done|].
  change ((cp :: cps) ≫= utf8_encode) with (utf8_encode cp ++ (cps ≫= utf8_encode)).
  by rewrite validate_text_loop_step.
Qed.

(** ** Properties *)

(** The encoder and the decoder of the verifier protocol are inverse: a packet is the
    encoding of a message exactly when it decodes to that message, so decoding never
    conflates messages, never accepts a second spelling of one, and accepts everything
    the encoder produces. *)
Theorem verifier_codec_roundtrip m p :
  bytes_ok p → message_in_range m →
  (encode_verifier_message m = Ret p ↔ decode_verifier_message p = Ret m).
Proof.
  intros Hb Hr. rewrite encode_spec. split.
  - by apply decode_of_encodes.
  - by apply encodes_of_decode.
Qed.

Lemma verifier_codec_roundtrip_witness :
  let m := StartVerification 1000 [99; 52] in
  encode_verifier_message m = Ret [1; 1; 0; 0; 3; 232; 99; 52] ∧
  decode_verifier_message [1; 1; 0; 0; 3; 232; 99; 52] = Ret m.
Proof.
  assert (encode_verifier_message (StartVerification 1000 [99; 52]) =
          Ret [1; 1; 0; 0; 3; 232; 99; 52]) as He by (by vm_compute).
  split; [exact He|].
  apply (verifier_codec_roundtrip (StartVerification 1000 [99; 52]));
    [by apply bytes_okb_ok; vm_compute|simpl; lia|exact He].
Defined.

(** Every packet the encoder produces fits the protocol's packet bound, 1026 bytes,
    and has at least its two header bytes. *)
Theorem verifier_packet_bounds m p :
  encode_verifier_message m = Ret p → 2 ≤ len p ≤ MAX_VERIFIER_PACKET_SIZE.
Proof. intros H%encode_spec. by eapply encodes_size. Qed.

Lemma verifier_packet_bounds_witness :
  2 ≤ len [1; 5; 80] ≤ MAX_VERIFIER_PACKET_SIZE.
Proof. apply (verifier_packet_bounds (SecretRequired [80])). by vm_compute. Defined.

(** [validate_display_text] accepts a byte string exactly when it is the UTF-8
    encoding of a text of at most 512 bytes whose characters are Unicode scalar values
    (no surrogates, nothing above U+10FFFF, no overlong forms) other than the C0 and C1
    control characters and DELETE. *)
Theorem display_text_is_utf8 text :
  bytes_ok text →
  (validate_display_text text = Ret () ↔
   len text ≤ MAX_VERIFICATION_TEXT_SIZE ∧
   ∃ cps, Forall displayable cps ∧ text = cps ≫= utf8_encode).
Proof.
  intros Hb. rewrite validate_display_text_ok. split; intros [Hl H]; (split; [exact Hl|]).
  - by eapply validate_text_loop_sound.
  - destruct H as (cps & Hd & ->). by apply validate_text_loop_complete.
Qed.

Lemma display_text_is_utf8_witness :
  validate_display_text [80; 195; 169; 226; 130; 172] = Ret () ↔
   len [80; 195; 169; 226; 130; 172] ≤ MAX_VERIFICATION_TEXT_SIZE ∧
   ∃ cps, Forall displayable cps ∧ [80; 195; 169; 226; 130; 172] = cps ≫= utf8_encode.
Proof. apply (display_text_is_utf8 [80; 195; 169; 226; 130; 172]). by apply bytes_okb_ok; vm_compute. Defined.
