(* ===== verification/VerifierConversation.v ===== *)
(** * The verifier conversation (src/src/uv/src/verifier_conversation.hpp, .cpp)

    The state machine both ends of the verifier socket run over the messages they
    exchange.  Its traces are characterised by a grammar. *)
From Stdlib Require Import ZArith Lia.
From stdpp Require Import base list.
From S2P Require Import Prelude VerifierProtocol.

Inductive VerifierMessageSender := daemon | pam_verifier.

Inductive VerifierConversationState :=
  | VerifierAwaitingStart
  | VerifierVerifying
  | VerifierAwaitingSecret
  | VerifierCompleted (result : VerificationResult)
  | VerifierCancelled.

#[global] Instance VerifierMessageSender_eq_dec : EqDecision VerifierMessageSender.
Proof. solve_decision. Defined.
#[global] Instance VerifierConversationState_eq_dec : EqDecision VerifierConversationState.
Proof. unfold VerificationResult. solve_decision. Defined.

Definition validate_message_enums (message : VerifierMessage) : res () :=
  match message with
  | VerificationStatus kind _ =>
      throw_if negb (is_valid_status_kind kind) as VerifierConversationError ;; Ret ()
  | VerificationComplete result =>
      throw_if negb (is_valid_result result) as VerifierConversationError ;; Ret ()
  | _ => Ret ()
  end.

Definition advance_verifier_conversation (current : VerifierConversationState)
    (sender : VerifierMessageSender) (message : VerifierMessage)
    : res VerifierConversationState :=
  _ ← validate_message_enums message;
  match current with
  | VerifierAwaitingStart =>
      match sender, message with
      | daemon, StartVerification _ _ => Ret VerifierVerifying
      | _, _ => Throw VerifierConversationError
      end
  | VerifierVerifying =>
      match sender, message with
      | daemon, CancelVerification => Ret VerifierCancelled
      | daemon, _ => Throw VerifierConversationError
      | pam_verifier, VerificationStatus _ _ => Ret VerifierVerifying
      | pam_verifier, SecretRequired _ => Ret VerifierAwaitingSecret
      | pam_verifier, VerificationComplete result => Ret (VerifierCompleted result)
      | pam_verifier, _ => Throw VerifierConversationError
      end
  | VerifierAwaitingSecret =>
      match sender, message with
      | daemon, SecretResponse _ => Ret VerifierVerifying
      | daemon, CancelVerification => Ret VerifierCancelled
      | daemon, _ => Throw VerifierConversationError
      | pam_verifier, VerificationComplete result =>
          if result =? result_error then Ret (VerifierCompleted result)
          else Throw VerifierConversationError
      | pam_verifier, _ => Throw VerifierConversationError
      end
  | VerifierCompleted _ | VerifierCancelled => Throw VerifierConversationError
  end.

Definition verifier_conversation_is_terminal (state : VerifierConversationState) : bool :=
  match state with
  | VerifierCompleted _ | VerifierCancelled => true
  | _ => false
  end.

(** ** Traces *)

Definition trace : Type := list (VerifierMessageSender * VerifierMessage).

(** Advancing through a trace; the first refused message ends it. *)
Fixpoint run_conversation (s : VerifierConversationState) (tr : trace)
    : res VerifierConversationState :=
  match tr with
  | [] => Ret s
  | (sender, m) :: tr =>
      s' ← advance_verifier_conversation s sender m;
      run_conversation s' tr
  end.

(** Status messages and completed secret exchanges, in any number. *)
Inductive exchanges : trace → Prop :=
  | ex_nil : exchanges []
  | ex_status kind text tr :
      is_valid_status_kind kind = true → exchanges tr →
      exchanges ((pam_verifier, VerificationStatus kind text) :: tr)
  | ex_secret prompt secret tr :
      exchanges tr →
      exchanges ((pam_verifier, SecretRequired prompt) ::
                 (daemon, SecretResponse secret) :: tr).

(** How a verification may go on after some exchanges, and the state it is in. *)
Inductive ending : trace → VerifierConversationState → Prop :=
  | end_verifying : ending [] VerifierVerifying
  | end_awaiting prompt :
      ending [(pam_verifier, SecretRequired prompt)] VerifierAwaitingSecret
  | end_complete r :
      is_valid_result r = true →
      ending [(pam_verifier, VerificationComplete r)] (VerifierCompleted r)
  | end_error prompt :
      ending [(pam_verifier, SecretRequired prompt);
              (pam_verifier, VerificationComplete result_error)] (VerifierCompleted result_error)
  | end_cancel : ending [(daemon, CancelVerification)] VerifierCancelled
  | end_cancel_prompt prompt :
      ending [(pam_verifier, SecretRequired prompt); (daemon, CancelVerification)]
        VerifierCancelled.

(** The conversations the protocol allows. *)
Inductive conversation : trace → VerifierConversationState → Prop :=
  | conv_idle : conversation [] VerifierAwaitingStart
  | conv_started uid session ex tl s :
      exchanges ex → ending tl s →
      conversation ((daemon, StartVerification uid session) :: ex ++ tl) s.

(** ** Lemmas *)

Lemma run_app s tr1 tr2 :
  run_conversation s (tr1 ++ tr2) =
  (s' ← run_conversation s tr1; run_conversation s' tr2).
Proof.
  revert s. induction tr1 as [|[sender m] tr1 IH]; intros s; [done|]. simpl.
  destruct (advance_verifier_conversation s sender m); simpl; [apply IH|done].
Qed.

Lemma run_exchanges ex : exchanges ex → run_conversation VerifierVerifying ex = Ret VerifierVerifying.
Proof.
  induction 1 as [|k t tr Hk _ IH|p s tr _ IH]; [done| |done].
  simpl. unfold advance_verifier_conversation. simpl. by rewrite Hk.
Qed.

Lemma run_ending tl s : ending tl s → run_conversation VerifierVerifying tl = Ret s.
Proof.
  intros [| |r Hr| | |]; try done.
  simpl. unfold advance_verifier_conversation. simpl. by rewrite Hr.
Qed.

Lemma terminal_refuses s sender m :
  verifier_conversation_is_terminal s = true →
  advance_verifier_conversation s sender m = Throw VerifierConversationError.
Proof.
  intros Ht. unfold advance_verifier_conversation.
  assert (validate_message_enums m = Ret () ∨
          validate_message_enums m = Throw VerifierConversationError) as [-> | ->]; [|by destruct s|done].
  destruct m; simpl; try case_match; auto.
Qed.

Lemma run_terminal s tr s' :
  verifier_conversation_is_terminal s = true →
  run_conversation s tr = Ret s' → tr = [] ∧ s' = s.
Proof.
  intros Ht. destruct tr as [|[sender m] tr]; simpl; [by intros [= <-]|].
  by rewrite terminal_refuses.
Qed.

(** One accepted message, by state: the step relation of the machine. *)
Lemma verifying_step sender m s :
  advance_verifier_conversation VerifierVerifying sender m = Ret s →
  (∃ k t, sender = pam_verifier ∧ m = VerificationStatus k t ∧
     is_valid_status_kind k = true ∧ s = VerifierVerifying) ∨
  (∃ p, sender = pam_verifier ∧ m = SecretRequired p ∧ s = VerifierAwaitingSecret) ∨
  ending [(sender, m)] s ∧ verifier_conversation_is_terminal s = true.
Proof.
  unfold advance_verifier_conversation. rewrite bind_unit_ret. intros [Hv H].
  destruct sender, m as [| | |k t|p|r]; simplify_eq/=.
  - right; right. by repeat constructor.
  - left. exists k, t. rewrite throw_if_ret in Hv. destruct Hv as [Hk _].
    by apply negb_false_iff in Hk.
  - right; left. by exists p.
  - right; right. rewrite throw_if_ret in Hv. destruct Hv as [Hk _].
    apply negb_false_iff in Hk. by repeat constructor.
Qed.

Lemma awaiting_step sender m s :
  advance_verifier_conversation VerifierAwaitingSecret sender m = Ret s →
  (∃ secret, sender = daemon ∧ m = SecretResponse secret ∧ s = VerifierVerifying) ∨
  (∀ p, ending [(pam_verifier, SecretRequired p); (sender, m)] s) ∧
  verifier_conversation_is_terminal s = true.
Proof.
  unfold advance_verifier_conversation. rewrite bind_unit_ret. intros [Hv H].
  destruct sender, m as [|secret| | | |r]; simplify_eq/=.
  - left. by exists secret.
  - right. split; [constructor|done].
  - right. case_match eqn:E; [|done]. apply Z.eqb_eq in E. subst. simplify_eq/=.
    split; [constructor|done].
Qed.

Lemma run_verifying_inv n tr s :
  (length tr ≤ n)%nat → run_conversation VerifierVerifying tr = Ret s →
  ∃ ex tl, tr = ex ++ tl ∧ exchanges ex ∧ ending tl s.
Proof.
  revert tr. induction n as [|n IH]; intros tr Hn H.
  { destruct tr; [|simpl in Hn; lia]. simplify_eq/=.
    exists [], []. split; [done|]. split; constructor. }
  destruct tr as [|[sender m] tr].
  { simplify_eq/=. exists [], []. split; [done|]. split; constructor. }
  simpl in H, Hn. destruct (advance_verifier_conversation _ sender m) as [s1|] eqn:E1; [|done].
  simpl in H. apply verifying_step in E1 as [(k & t & -> & -> & Hk & ->)|[(p & -> & -> & ->)|[He Ht]]].
  - destruct (IH tr) as (ex & tl & -> & Hex & Hend); [lia|done|].
    exists ((pam_verifier, VerificationStatus k t) :: ex), tl. split_and!; [done|by constructor|done].
  - destruct tr as [|[sender' m'] tr]; simplify_eq/=.
    { exists [], [(pam_verifier, SecretRequired p)]. split; [done|]. split; constructor. }
    destruct (advance_verifier_conversation _ sender' m') as [s2|] eqn:E2; [|done].
    simpl in H. apply awaiting_step in E2 as [(secret & -> & -> & ->)|[He Ht]].
    + destruct (IH tr) as (ex & tl & -> & Hex & Hend); [lia|done|].
      exists ((pam_verifier, SecretRequired p) :: (daemon, SecretResponse secret) :: ex), tl.
      split_and!; [done|by constructor|done].
    + apply run_terminal in H as [-> ->]; [|done].
      exists [], [(pam_verifier, SecretRequired p); (sender', m')].
      split_and!; [done|constructor|done].
  - apply run_terminal in H as [-> ->]; [|done].
    exists [], [(sender, m)]. split_and!; [done|constructor|done].
Qed.

Lemma start_step sender m s :
  advance_verifier_conversation VerifierAwaitingStart sender m = Ret s →
  ∃ uid session, sender = daemon ∧ m = StartVerification uid session ∧ s = VerifierVerifying.
Proof.
  unfold advance_verifier_conversation. rewrite bind_unit_ret. intros [_ H].
  destruct sender, m; simplify_eq/=. eauto.
Qed.

(** ** Properties *)

(** C30: The verifier state machine accepts exactly the conversations of the protocol: one
    start by the daemon, then status messages and secret exchanges in which every request
    of the verifier is answered by exactly one response of the daemon before anything
    else, then at most one ending.  In particular a success or denial is only ever
    accepted with no secret outstanding, and while one is outstanding the verifier can
    only report an error. *)
Theorem conversation_grammar tr s :
  run_conversation VerifierAwaitingStart tr = Ret s ↔ conversation tr s.
Proof.
  split.
  - destruct tr as [|[sender m] tr]; simpl; [intros [= <-]; constructor|].
    destruct (advance_verifier_conversation _ sender m) as [s1|] eqn:E; [|done].
    apply start_step in E as (uid & session & -> & -> & ->). simpl. intros H.
    destruct (run_verifying_inv (length tr) tr s) as (ex & tl & -> & Hex & Hend); [done..|].
    by constructor.
  - intros [|uid session ex tl s' Hex Hend]; [done|]. simpl.
    rewrite run_app, run_exchanges by done. simpl. by apply run_ending.
Qed.

(** A finished conversation refuses every further message, and an unfinished one
    that has started can always be cancelled by the daemon. *)
Theorem conversation_termination s :
  (verifier_conversation_is_terminal s = true ↔
   ∀ sender m, advance_verifier_conversation s sender m = Throw VerifierConversationError) ∧
  (verifier_conversation_is_terminal s = false → s ≠ VerifierAwaitingStart →
   advance_verifier_conversation s daemon CancelVerification = Ret VerifierCancelled).
Proof.
  split; [split|].
  - intros Ht sender m. by apply terminal_refuses.
  - intros H. destruct s; [|by specialize (H daemon CancelVerification)..|done|done].
    by specialize (H daemon (StartVerification 0 [])).
  - by destruct s.
Qed.

Lemma conversation_termination_witness :
  advance_verifier_conversation VerifierAwaitingSecret daemon CancelVerification =
  Ret VerifierCancelled.
Proof. apply (conversation_termination VerifierAwaitingSecret); done. Defined.
