(* ===== verification/AgentRegistry.v ===== *)
(** * The registered UI agent (src/src/uv/src/user_context.hpp,
    src/src/dbus/agent_registry.hpp, agent_registry.cpp)

    The registry holds at most one agent.  Every registration gets a fresh
    generation, so that a context handed out for an earlier registration never
    becomes current again.  Each method holds the mutex for its whole body and is one
    atomic step. *)
From Stdlib Require Import ZArith Lia.
From stdpp Require Import base list relations strings.
From S2P Require Import Prelude.

(** ** Identities *)

Record UserSessionContext := mkSession {
  ss_sessionId : list Z;
  ss_interactionAgentId : list Z;
  ss_generation : Z;
}.

Record UserContextBinding := mkBinding {
  bd_uid : Z;
  bd_session : option UserSessionContext;
}.

Record UserContext := mkUser {
  uc_uid : Z;
  uc_name : list Z;
  uc_session : option UserSessionContext;
}.

#[global] Instance UserSessionContext_eq_dec : EqDecision UserSessionContext.
Proof. solve_decision. Defined.
#[global] Instance UserContextBinding_eq_dec : EqDecision UserContextBinding.
Proof. solve_decision. Defined.
#[global] Instance UserContext_eq_dec : EqDecision UserContext.
Proof. solve_decision. Defined.

Definition binding (context : UserContext) : UserContextBinding :=
  mkBinding (uc_uid context) (uc_session context).

Record AgentPeer := mkPeer {
  peer_uid : Z;
  peer_userName : list Z;
  peer_sessionId : list Z;
  peer_busName : list Z;
}.

(** ** The registry *)

Record AgentRegistry := mkAgents {
  ar_current : option UserContext;
  ar_nextGeneration : Z;
}.

Definition agents_initial : AgentRegistry := mkAgents None 1.

Definition same_peer (context : UserContext) (peer : AgentPeer) : bool :=
  (uc_uid context =? peer_uid peer) &&
  bool_decide (uc_name context = peer_userName peer) &&
  match uc_session context with
  | None => false
  | Some s =>
      bool_decide (ss_sessionId s = peer_sessionId peer) &&
      bool_decide (ss_interactionAgentId s = peer_busName peer)
  end.

Definition COLON : Z := 58.

Definition validate_peer (peer : AgentPeer) : res () :=
  throw_if (len (peer_userName peer) =? 0) || (len (peer_sessionId peer) =? 0) ||
           (len (peer_busName peer) =? 0) || negb (byte_at (peer_busName peer) 0 =? COLON)
    as invalid_argument ;;
  Ret ().

Definition register_agent (peer : AgentPeer) : ST AgentRegistry UserContext := λ reg,
  match validate_peer peer with
  | Throw e => (Throw e, reg)
  | Ret _ =>
      match ar_current reg with
      | Some current =>
          if same_peer current peer then (Ret current, reg) else (Throw runtime_error, reg)
      | None =>
          if (ar_nextGeneration reg =? 0) || (ar_nextGeneration reg =? U64_MAX)
          then (Throw overflow_error, reg)
          else
            let context := mkUser (peer_uid peer) (peer_userName peer)
              (Some (mkSession (peer_sessionId peer) (peer_busName peer)
                       (ar_nextGeneration reg))) in
            (Ret context, mkAgents (Some context) (u64 (ar_nextGeneration reg + 1)))
      end
  end.

(** [current_->session->interactionAgentId == bus_name], with both present. *)
Definition agent_has_bus_name (current : option UserContext) (bus_name : list Z) : bool :=
  match current with
  | Some c => match uc_session c with
              | Some s => bool_decide (ss_interactionAgentId s = bus_name)
              | None => false
              end
  | None => false
  end.

Definition unregister_agent (bus_name : list Z) (reg : AgentRegistry) : bool * AgentRegistry :=
  if negb (agent_has_bus_name (ar_current reg) bus_name) then (false, reg)
  else (true, mkAgents None (ar_nextGeneration reg)).

Definition current_context (reg : AgentRegistry) : option UserContext := ar_current reg.

Definition is_current (reg : AgentRegistry) (context : UserContext) : bool :=
  match ar_current reg with
  | Some current => bool_decide (binding current = binding context)
  | None => false
  end.

(** [changed_.wait_for(lock, timeout, has_value)]: the state (of type [S], with the
    registry in it) as each wake-up finds it, in order, with the time of the wake-up.  The
    predicate is tested before the first wait and after every wake-up; a wake-up at or
    past the deadline is the last one, whatever it finds.  [None] is still waiting. *)
Fixpoint wait_for_current {S} (registry : S → AgentRegistry) (s : S) (deadline : Z)
    (wakeups : list (Z * S)) : option (option UserContext * S) :=
  match ar_current (registry s) with
  | Some current => Some (Some current, s)
  | None =>
      match wakeups with
      | [] => None
      | (now, s') :: wakeups =>
          if deadline <=? now then Some (ar_current (registry s'), s')
          else wait_for_current registry s' deadline wakeups
      end
  end.

(** ** Reachable registries *)

Inductive agents_step (reg : AgentRegistry) : AgentRegistry → Prop :=
  | step_register peer : agents_step reg (snd (register_agent peer reg))
  | step_unregister bus_name : agents_step reg (snd (unregister_agent bus_name reg)).

Abbreviation agents_steps := (rtc agents_step).

(** The generation of a context. *)
Definition context_generation (c : UserContext) : option Z := ss_generation <$> uc_session c.

(** The registered context is well formed and its generation was issued. *)
Definition agents_ok (reg : AgentRegistry) : Prop :=
  1 ≤ ar_nextGeneration reg ≤ U64_MAX ∧
  match ar_current reg with
  | None => True
  | Some c => ∃ s, uc_session c = Some s ∧ 1 ≤ ss_generation s < ar_nextGeneration reg ∧
      byte_at (ss_interactionAgentId s) 0 = COLON ∧ ss_sessionId s ≠ [] ∧ uc_name c ≠ []
  end.

Lemma agents_ok_initial : agents_ok agents_initial.
Proof. unfold agents_ok, U64_MAX. simpl. lia. Qed.

Lemma validate_peer_ok peer :
  validate_peer peer = Ret () →
  byte_at (peer_busName peer) 0 = COLON ∧ peer_sessionId peer ≠ [] ∧ peer_userName peer ≠ [].
Proof.
  unfold validate_peer. rewrite throw_if_ret, !orb_false_iff, negb_false_iff, !Z.eqb_neq, Z.eqb_eq.
  intros [(((Hu & Hs) & _) & Hb) _]. split_and!; [done|by intros E; rewrite E in *..].
Qed.

(** A registration either fails, confirms the present agent, or issues a fresh one. *)
Lemma register_agent_cases peer reg r reg' :
  agents_ok reg → register_agent peer reg = (r, reg') →
  (reg' = reg ∧ (∀ c, r = Ret c → ar_current reg = Some c ∧ same_peer c peer = true)) ∨
  (∃ c s, r = Ret c ∧ ar_current reg = None ∧ ar_current reg' = Some c ∧
     uc_session c = Some s ∧ ss_generation s = ar_nextGeneration reg ∧
     ar_nextGeneration reg' = ar_nextGeneration reg + 1 ∧ agents_ok reg' ∧
     same_peer c peer = true).
Proof.
  intros [Hn Hc]. unfold register_agent.
  destruct (validate_peer peer) as [[]|] eqn:Ev; [|by intros [= <- <-]; left].
  apply validate_peer_ok in Ev as (Hb & Hs & Hu).
  destruct (ar_current reg) as [c|] eqn:Ec.
  { destruct (same_peer c peer) eqn:Es; intros [= <- <-]; left; (split; [done|]); [|done].
    intros c' [= <-]. done. }
  destruct ((ar_nextGeneration reg =? 0) || _) eqn:E; [by intros [= <- <-]; left|].
  intros [= <- <-]. right. reflect_bools. unfold U64_MAX in *.
  eexists _, _. split_and!; try done; simpl.
  - rewrite u64_small; lia.
  - rewrite u64_small by lia. unfold agents_ok; simpl. unfold U64_MAX. split; [lia|].
    eexists. split_and!; done || (simpl; lia).
  - unfold same_peer. simpl. rewrite Z.eqb_refl, !bool_decide_eq_true_2; done.
Qed.

Lemma agents_ok_step reg reg' : agents_ok reg → agents_step reg reg' → agents_ok reg'.
Proof.
  intros Hok [peer|bus_name].
  - destruct (register_agent peer reg) as [r reg''] eqn:E.
    by destruct (register_agent_cases _ _ _ _ Hok E)
      as [[-> _]|(c & s & _ & _ & _ & _ & _ & _ & H & _)].
  - destruct Hok as [Hn Hc]. unfold unregister_agent.
    destruct (negb _); by split.
Qed.

Lemma agents_ok_steps reg reg' : agents_ok reg → agents_steps reg reg' → agents_ok reg'.
Proof. intros H Hs. induction Hs; eauto using agents_ok_step. Qed.

(** The step keeps a retired generation retired. *)
Definition retired (g : Z) (reg : AgentRegistry) : Prop :=
  g < ar_nextGeneration reg ∧
  ∀ c, ar_current reg = Some c → context_generation c ≠ Some g.

Lemma retired_step g reg reg' :
  agents_ok reg → retired g reg → agents_step reg reg' → retired g reg'.
Proof.
  intros Hok [Hg Hr] [peer|bus_name].
  - destruct (register_agent peer reg) as [r reg''] eqn:E.
    destruct (register_agent_cases _ _ _ _ Hok E)
      as [[-> _]|(c & s & _ & _ & Hcur & Hsess & Hgen & Hnext & _)]; [by split|].
    split; [simpl; lia|]. simpl. intros c' Hc'. rewrite Hcur in Hc'. injection Hc' as <-.
    unfold context_generation. rewrite Hsess. simpl. intros [= ?]. lia.
  - unfold unregister_agent. case_match; simpl; [by split|]. split; [done|]. by intros ? [=].
Qed.

Lemma retired_steps g reg reg' :
  agents_ok reg → retired g reg → agents_steps reg reg' → retired g reg'.
Proof. intros Hok Hr Hs. induction Hs; eauto using retired_step, agents_ok_step. Qed.

Lemma retired_not_current g reg c :
  retired g reg → context_generation c = Some g → is_current reg c = false.
Proof.
  intros [_ Hr] Hg. unfold is_current. destruct (ar_current reg) as [c'|] eqn:E; [|done].
  apply bool_decide_eq_false_2. intros Hb. apply (Hr c' eq_refl).
  rewrite <- Hg. unfold context_generation. by injection Hb as _ ->.
Qed.

(** ** Properties *)

(** A context handed out by a registration stops being current for ever once its
    agent is unregistered, whatever registrations follow -- the same peer registering
    again included. *)
Theorem stale_agent_never_current reg0 peer c reg1 bus_name reg2 reg3 :
  agents_steps agents_initial reg0 →
  register_agent peer reg0 = (Ret c, reg1) →
  unregister_agent bus_name reg1 = (true, reg2) →
  agents_steps reg2 reg3 →
  is_current reg1 c = true ∧ is_current reg3 c = false.
Proof.
  intros H01 Hreg Hun H23.
  assert (agents_ok reg0) as Hok0 by (eapply agents_ok_steps; [apply agents_ok_initial|done]).
  assert (agents_ok reg1) as Hok1.
  { apply (agents_ok_step reg0); [done|].
    replace reg1 with (snd (register_agent peer reg0)) by (by rewrite Hreg). constructor. }
  assert (ar_current reg1 = Some c) as Hcur.
  { destruct (register_agent_cases _ _ _ _ Hok0 Hreg)
      as [[-> Hc]|(c' & s & Hc & _ & Hcur & _)]; [by apply Hc|].
    by injection Hc as <-. }
  split; [unfold is_current; rewrite Hcur; by apply bool_decide_eq_true_2|].
  destruct Hok1 as [Hn1 Hok1]. rewrite Hcur in Hok1. destruct Hok1 as (s & Hs & Hg & _).
  assert (context_generation c = Some (ss_generation s)) as Hgen
    by (unfold context_generation; by rewrite Hs).
  apply (retired_not_current (ss_generation s)); [|done].
  unfold unregister_agent in Hun. case_match; [done|]. injection Hun as <-.
  apply (retired_steps _ (mkAgents None (ar_nextGeneration reg1))); [by split| |done].
  by split; [simpl; lia|].
Qed.

Definition example_peer : AgentPeer := mkPeer 1000 (lit "alice") (lit "c2") (lit ":1.42").

Lemma stale_agent_never_current_witness :
  ∃ c reg1 reg2, is_current reg1 c = true ∧
    is_current (snd (register_agent example_peer reg2)) c = false.
Proof.
  destruct (register_agent example_peer agents_initial) as [r reg1] eqn:E1.
  destruct r as [c|]; [|by vm_compute in E1].
  destruct (unregister_agent (lit ":1.42") reg1) as [b reg2] eqn:E2.
  destruct b; [|vm_compute in E1; injection E1 as <- <-; by vm_compute in E2].
  exists c, reg1, reg2.
  exact (stale_agent_never_current agents_initial example_peer c reg1 (lit ":1.42") reg2 _
    (rtc_refl _ _) E1 E2 (rtc_once _ _ (step_register reg2 example_peer))).
Defined.

(** Registration is exclusive: in every reachable registry, while an agent is
    registered a call from the same peer confirms it with its generation, a call from
    any other (valid) peer is refused, and neither changes the registry; with no agent
    registered a valid peer gets a context of its own with a generation never issued
    before, until the generations are exhausted. *)
Theorem registration_exclusive reg peer :
  agents_steps agents_initial reg → validate_peer peer = Ret () →
  match ar_current reg with
  | Some c => register_agent peer reg =
      (if same_peer c peer then Ret c else Throw runtime_error, reg)
  | None =>
      if ar_nextGeneration reg =? U64_MAX
      then register_agent peer reg = (Throw overflow_error, reg)
      else ∃ c reg', register_agent peer reg = (Ret c, reg') ∧ same_peer c peer = true ∧
        context_generation c = Some (ar_nextGeneration reg) ∧
        is_current reg' c = true ∧ ar_nextGeneration reg' = ar_nextGeneration reg + 1
  end.
Proof.
  intros Hs Hv. pose proof (agents_ok_steps _ _ agents_ok_initial Hs) as [Hn Hc].
  destruct (register_agent peer reg) as [r reg'] eqn:E. pose proof E as E'.
  unfold register_agent in E'. rewrite Hv in E'.
  destruct (ar_current reg) as [c|] eqn:Ec.
  { destruct (same_peer c peer); by injection E' as <- <-. }
  rewrite (proj2 (Z.eqb_neq _ _)) in E' by lia. simpl in E'.
  destruct (ar_nextGeneration reg =? U64_MAX) eqn:Em; [by injection E' as <- <-|].
  assert (agents_ok reg) as Hok by (split; [done|by rewrite Ec]).
  destruct (register_agent_cases _ _ _ _ Hok E)
    as [[-> Hr]|(c & s & -> & _ & Hcur & Hsess & Hgen & Hnext & _ & Hsame)].
  { injection E' as <- _. destruct (Hr _ eq_refl) as [Hr' _]. by rewrite Ec in Hr'. }
  exists c, reg'. split_and!; try done.
  - unfold context_generation. rewrite Hsess. simpl. by rewrite Hgen.
  - unfold is_current. rewrite Hcur. by apply bool_decide_eq_true_2.
Qed.

Lemma registration_exclusive_witness :
  match ar_current agents_initial with
  | Some _ => False
  | None => ∃ c reg', register_agent example_peer agents_initial = (Ret c, reg') ∧
      same_peer c example_peer = true ∧ context_generation c = Some 1 ∧
      is_current reg' c = true ∧ ar_nextGeneration reg' = 2
  end.
Proof.
  exact (registration_exclusive agents_initial example_peer (rtc_refl _ _) eq_refl).
Defined.
