(* ===== verification/InteractionRegistry.v ===== *)
(** * Pending user interactions (src/src/uv/src/user_interaction.hpp,
    src/src/dbus/interaction_registry.hpp, interaction_registry.cpp)

    The registry holds the interaction the authenticator is waiting for: its state, the
    prompt it shows, and the agent's answers.  Every method holds the mutex for its
    whole body and is one atomic step; the two waits release it between the turns of
    their loop, so each turn is a step of its own ([poll_presence], [poll_secret]). *)
From Stdlib Require Import ZArith Lia.
From stdpp Require Import base list strings relations.
From S2P Require Import Prelude VerifierProtocol AgentRegistry.

(** ** Data *)

Inductive UserInteractionOperation :=
  | make_credential
  | get_assertion
  | check_excluded_credential.

Inductive UserInteractionState :=
  | presence_required
  | presence_approved
  | presence_denied
  | verification_started
  | verification_information
  | verification_error
  | secret_required
  | verification_succeeded
  | verification_failed
  | cancelled
  | timed_out.

#[global] Instance UserInteractionOperation_eq_dec : EqDecision UserInteractionOperation.
Proof. solve_decision. Defined.
#[global] Instance UserInteractionState_eq_dec : EqDecision UserInteractionState.
Proof. solve_decision. Defined.

Definition user_interaction_operation_name (operation : UserInteractionOperation) : list Z :=
  match operation with
  | make_credential => lit "make_credential"
  | get_assertion => lit "get_assertion"
  | check_excluded_credential => lit "check_excluded_credential"
  end.

Definition user_interaction_state_name (state : UserInteractionState) : list Z :=
  match state with
  | presence_required => lit "presence_required"
  | presence_approved => lit "presence_approved"
  | presence_denied => lit "presence_denied"
  | verification_started => lit "verification_started"
  | verification_information => lit "verification_information"
  | verification_error => lit "verification_error"
  | secret_required => lit "secret_required"
  | verification_succeeded => lit "verification_succeeded"
  | verification_failed => lit "verification_failed"
  | cancelled => lit "cancelled"
  | timed_out => lit "timed_out"
  end.

Inductive UserInteractionResult := ui_approved | ui_denied | ui_cancelled.

Record UserInteractionRequest := mkUIRequest {
  uir_operation : UserInteractionOperation;
  uir_relyingPartyId : list Z;
  uir_requestId : Z;
}.

Record PendingInteraction := mkPending {
  pi_requestId : Z;
  pi_user : UserContextBinding;
  pi_operation : UserInteractionOperation;
  pi_relyingPartyId : list Z;
  pi_state : option UserInteractionState;
  pi_message : list Z;
  pi_promptId : Z;
  pi_presenceResponse : option bool;
  pi_secretSubmitted : bool;
  pi_cancelRequested : bool;
  pi_responseClosed : bool;
}.

Inductive PresenceWaitResult :=
  | pw_approved | pw_denied | pw_client_cancelled | pw_platform_cancelled
  | pw_timed_out | pw_invalidated.

Inductive SecretWaitStatus :=
  | sw_provided | sw_client_cancelled | sw_platform_cancelled | sw_timed_out | sw_invalidated.

Record SecretWaitResult := mkSecretWait { sw_status : SecretWaitStatus; sw_secret : list Z }.

Record InteractionTransition := mkTransition { shouldPublish : bool; tr_promptId : Z }.

Record InteractionRegistry := mkInteractions {
  ir_current : option PendingInteraction;
  ir_secretResponse : option (list Z);
  ir_nextRequestId : Z;
  ir_nextPromptId : Z;
}.

Definition interactions_initial : InteractionRegistry := mkInteractions None None 1 1.

(** ** Predicates on states *)

Definition same_user (b : UserContextBinding) (context : UserContext) : bool :=
  if negb (bd_uid b =? uc_uid context) then false else
  match bd_session b, uc_session context with
  | None, None => true
  | Some s, Some s' => bool_decide (s = s')
  | _, _ => false
  end.

Definition is_terminal (state : UserInteractionState) : bool :=
  match state with
  | presence_approved | presence_denied | verification_succeeded | verification_failed
  | cancelled | timed_out => true
  | presence_required | verification_started | verification_information
  | verification_error | secret_required => false
  end.

Definition is_verification_progress (state : UserInteractionState) : bool :=
  match state with
  | verification_started | verification_information | verification_error
  | secret_required => true
  | _ => false
  end.

Definition valid_transition (previous : option UserInteractionState)
    (next : UserInteractionState) : bool :=
  match previous with
  | None => bool_decide (next = presence_required) || bool_decide (next = verification_started)
  | Some previous =>
      if bool_decide (previous = presence_required) then
        bool_decide (next = presence_approved) || bool_decide (next = presence_denied) ||
        bool_decide (next = cancelled) || bool_decide (next = timed_out)
      else if is_verification_progress previous then
        is_verification_progress next ||
        bool_decide (next = verification_succeeded) ||
        bool_decide (next = verification_failed) ||
        bool_decide (next = cancelled) || bool_decide (next = timed_out)
      else false
  end.

Definition accepts_message (state : UserInteractionState) : bool :=
  bool_decide (state = verification_information) ||
  bool_decide (state = verification_error) || bool_decide (state = secret_required).

(** ** Operations *)

Definition set_current (reg : InteractionRegistry) (c : option PendingInteraction)
    : InteractionRegistry :=
  mkInteractions c (ir_secretResponse reg) (ir_nextRequestId reg) (ir_nextPromptId reg).

(** [current_.reset(); secretResponse_.reset();] *)
Definition drop_current (reg : InteractionRegistry) : InteractionRegistry :=
  mkInteractions None None (ir_nextRequestId reg) (ir_nextPromptId reg).

(** [!current_ || current_->requestId != request_id || !same_user(current_->user, user)]
    is the [None] case. *)
Definition pending_request (reg : InteractionRegistry) (user : UserContext) (request_id : Z)
    : option PendingInteraction :=
  match ir_current reg with
  | Some c =>
      if negb (pi_requestId c =? request_id) || negb (same_user (pi_user c) user)
      then None else Some c
  | None => None
  end.

(** The same test with [request_id == 0 ||] in front. *)
Definition pending_nonzero (reg : InteractionRegistry) (user : UserContext) (request_id : Z)
    : option PendingInteraction :=
  if request_id =? 0 then None else pending_request reg user request_id.

Definition begin (user : UserContext) (operation : UserInteractionOperation)
    (relying_party_id : list Z) : ST InteractionRegistry Z := λ reg,
  match ir_current reg with
  | Some _ => (Throw runtime_error, reg)
  | None =>
      if (ir_nextRequestId reg =? 0) || (ir_nextRequestId reg =? U64_MAX)
      then (Throw overflow_error, reg)
      else
        let request_id := ir_nextRequestId reg in
        (Ret request_id,
         mkInteractions
           (Some (mkPending request_id (binding user) operation relying_party_id
                    None [] 0 None false false false))
           None (u64 (request_id + 1)) (ir_nextPromptId reg))
  end.

(** The part of [transition] after its checks. *)
Definition apply_transition (c : PendingInteraction) (state : UserInteractionState)
    (message : list Z) (reg : InteractionRegistry)
    : InteractionTransition * InteractionRegistry :=
  let asks := bool_decide (state = secret_required) in
  let prompt_id := if asks then ir_nextPromptId reg else 0 in
  let c' := mkPending (pi_requestId c) (pi_user c) (pi_operation c) (pi_relyingPartyId c)
    (Some state) message prompt_id (pi_presenceResponse c)
    (if asks then false else pi_secretSubmitted c) (pi_cancelRequested c)
    (pi_responseClosed c) in
  let reg' := mkInteractions (Some c') (if asks then None else ir_secretResponse reg)
    (ir_nextRequestId reg)
    (if asks then u64 (ir_nextPromptId reg + 1) else ir_nextPromptId reg) in
  (mkTransition true prompt_id, if is_terminal state then drop_current reg' else reg').

Definition transition (user : UserContext) (request_id : Z) (state : UserInteractionState)
    (message : list Z) : ST InteractionRegistry InteractionTransition := λ reg,
  match pending_nonzero reg user request_id with
  | None => (Throw runtime_error, reg)
  | Some c =>
      if negb (valid_transition (pi_state c) state) then (Throw logic_error, reg) else
      if negb (accepts_message state) && negb (len message =? 0)
      then (Throw invalid_argument, reg) else
      if MAX_VERIFICATION_TEXT_SIZE <? len message then (Throw invalid_argument, reg) else
      if bool_decide (state = secret_required) &&
         ((ir_nextPromptId reg =? 0) || (ir_nextPromptId reg =? U64_MAX))
      then (Throw overflow_error, reg) else
      if pi_cancelRequested c && negb (bool_decide (state = cancelled))
      then (Ret (mkTransition false 0), reg) else
      let '(t, reg') := apply_transition c state message reg in (Ret t, reg')
  end.

Definition respond_to_presence (user : UserContext) (request_id : Z) (approved : bool)
    : ST InteractionRegistry () := λ reg,
  match pending_nonzero reg user request_id with
  | None => (Throw runtime_error, reg)
  | Some c =>
      if negb (bool_decide (pi_state c = Some presence_required)) || pi_responseClosed c
      then (Throw runtime_error, reg)
      else (Ret (), set_current reg (Some (mkPending (pi_requestId c) (pi_user c)
        (pi_operation c) (pi_relyingPartyId c) (pi_state c) (pi_message c) (pi_promptId c)
        (Some approved) (pi_secretSubmitted c) (pi_cancelRequested c) true)))
  end.

Definition submit_secret (user : UserContext) (request_id prompt_id : Z) (secret : list Z)
    : ST InteractionRegistry () := λ reg,
  match pending_nonzero reg user request_id with
  | None => (Throw runtime_error, reg)
  | Some c =>
      if (prompt_id =? 0) || negb (pi_promptId c =? prompt_id) ||
         negb (bool_decide (pi_state c = Some secret_required)) ||
         pi_secretSubmitted c || pi_cancelRequested c
      then (Throw runtime_error, reg)
      else (Ret (), mkInteractions
        (Some (mkPending (pi_requestId c) (pi_user c) (pi_operation c) (pi_relyingPartyId c)
           (pi_state c) (pi_message c) (pi_promptId c) (pi_presenceResponse c) true
           (pi_cancelRequested c) (pi_responseClosed c)))
        (Some secret) (ir_nextRequestId reg) (ir_nextPromptId reg))
  end.

Definition request_cancel (user : UserContext) (request_id : Z) : ST InteractionRegistry () := λ reg,
  match pending_nonzero reg user request_id with
  | None => (Throw runtime_error, reg)
  | Some c =>
      if negb (bool_decide (is_Some (pi_state c))) || pi_responseClosed c
      then (Throw runtime_error, reg)
      else (Ret (), set_current reg (Some (mkPending (pi_requestId c) (pi_user c)
        (pi_operation c) (pi_relyingPartyId c) (pi_state c) (pi_message c) (pi_promptId c)
        (pi_presenceResponse c) (pi_secretSubmitted c) true true)))
  end.

(** [current_->responseClosed = true;] *)
Definition close_response (reg : InteractionRegistry) (c : PendingInteraction)
    : InteractionRegistry :=
  set_current reg (Some (mkPending (pi_requestId c) (pi_user c)
    (pi_operation c) (pi_relyingPartyId c) (pi_state c) (pi_message c) (pi_promptId c)
    (pi_presenceResponse c) (pi_secretSubmitted c) (pi_cancelRequested c) true)).

(** One turn of the loop of [wait_for_presence]; [None] waits for a notification.
    [stop] is [stop.stop_requested()], [expired] is [now() >= deadline]. *)
Definition poll_presence (user : UserContext) (request_id : Z) (stop expired : bool)
    (reg : InteractionRegistry) : option PresenceWaitResult * InteractionRegistry :=
  match pending_request reg user request_id with
  | None => (Some pw_invalidated, reg)
  | Some c =>
      if stop then (Some pw_platform_cancelled, close_response reg c) else
      if pi_cancelRequested c then (Some pw_client_cancelled, reg) else
      match pi_presenceResponse c with
      | Some true => (Some pw_approved, reg)
      | Some false => (Some pw_denied, reg)
      | None =>
          if expired then (Some pw_timed_out, close_response reg c) else (None, reg)
      end
  end.

(** One turn of the loop of [wait_for_secret]. *)
Definition poll_secret (user : UserContext) (request_id prompt_id : Z) (stop expired : bool)
    (reg : InteractionRegistry) : option SecretWaitResult * InteractionRegistry :=
  match pending_request reg user request_id with
  | None => (Some (mkSecretWait sw_invalidated []), reg)
  | Some c =>
      if (prompt_id =? 0) || negb (pi_promptId c =? prompt_id)
      then (Some (mkSecretWait sw_invalidated []), reg) else
      if stop then (Some (mkSecretWait sw_platform_cancelled []), close_response reg c) else
      if pi_cancelRequested c then (Some (mkSecretWait sw_client_cancelled []), reg) else
      match ir_secretResponse reg with
      | Some secret =>
          (Some (mkSecretWait sw_provided secret),
           mkInteractions (ir_current reg) None (ir_nextRequestId reg) (ir_nextPromptId reg))
      | None =>
          if expired then (Some (mkSecretWait sw_timed_out []), close_response reg c)
          else (None, reg)
      end
  end.

Definition cancellation_requested (user : UserContext) (request_id : Z)
    (reg : InteractionRegistry) : bool :=
  match pending_nonzero reg user request_id with
  | None => true
  | Some c => pi_cancelRequested c
  end.

Definition end_request (user : UserContext) (request_id : Z) (reg : InteractionRegistry)
    : bool * InteractionRegistry :=
  match pending_nonzero reg user request_id with
  | None => (false, reg)
  | Some _ => (true, drop_current reg)
  end.

Definition clear_for (user : UserContext) (reg : InteractionRegistry) : InteractionRegistry :=
  match ir_current reg with
  | Some c => if same_user (pi_user c) user then drop_current reg else reg
  | None => reg
  end.

(** ** Executions

    Any interleaving of the daemon's and the agent's calls is a sequence of operations;
    the history records each with its outcome, the latest first. *)

Inductive registry_op :=
  | OpBegin (user : UserContext) (operation : UserInteractionOperation) (rp : list Z)
  | OpTransition (user : UserContext) (request_id : Z) (state : UserInteractionState)
      (message : list Z)
  | OpRespond (user : UserContext) (request_id : Z) (approved : bool)
  | OpSubmit (user : UserContext) (request_id prompt_id : Z) (secret : list Z)
  | OpCancel (user : UserContext) (request_id : Z)
  | OpPollPresence (user : UserContext) (request_id : Z) (stop expired : bool)
  | OpPollSecret (user : UserContext) (request_id prompt_id : Z) (stop expired : bool)
  | OpEnd (user : UserContext) (request_id : Z)
  | OpClearFor (user : UserContext).

Inductive outcome :=
  | OutId (r : res Z)
  | OutTransition (r : res InteractionTransition)
  | OutUnit (r : res ())
  | OutPresence (r : option PresenceWaitResult)
  | OutSecret (r : option SecretWaitResult)
  | OutBool (b : bool)
  | OutNone.

Definition exec_op (o : registry_op) (reg : InteractionRegistry)
    : outcome * InteractionRegistry :=
  match o with
  | OpBegin u op rp => let '(r, reg') := begin u op rp reg in (OutId r, reg')
  | OpTransition u id st m => let '(r, reg') := transition u id st m reg in (OutTransition r, reg')
  | OpRespond u id b => let '(r, reg') := respond_to_presence u id b reg in (OutUnit r, reg')
  | OpSubmit u id p s => let '(r, reg') := submit_secret u id p s reg in (OutUnit r, reg')
  | OpCancel u id => let '(r, reg') := request_cancel u id reg in (OutUnit r, reg')
  | OpPollPresence u id st ex =>
      let '(r, reg') := poll_presence u id st ex reg in (OutPresence r, reg')
  | OpPollSecret u id p st ex =>
      let '(r, reg') := poll_secret u id p st ex reg in (OutSecret r, reg')
  | OpEnd u id => let '(r, reg') := end_request u id reg in (OutBool r, reg')
  | OpClearFor u => (OutNone, clear_for u reg)
  end.

Abbreviation event := (registry_op * outcome)%type.

Inductive execution : list event → InteractionRegistry → Prop :=
  | exec_start : execution [] interactions_initial
  | exec_next h reg o out reg' :
      execution h reg → exec_op o reg = (out, reg') → execution ((o, out) :: h) reg'.

(** The events that matter: an accepted secret and its delivery to the waiter, by
    prompt; an accepted answer to an interaction, by request. *)
Definition is_submit (pid : Z) (e : event) : bool :=
  match e with
  | (OpSubmit _ _ p _, OutUnit (Ret _)) => p =? pid
  | _ => false
  end.

Definition is_delivery (pid : Z) (e : event) : bool :=
  match e with
  | (OpPollSecret _ _ p _ _, OutSecret (Some (mkSecretWait sw_provided _))) => p =? pid
  | _ => false
  end.

Definition is_answer (id : Z) (e : event) : bool :=
  match e with
  | (OpRespond _ i _, OutUnit (Ret _)) | (OpCancel _ i, OutUnit (Ret _)) => i =? id
  | _ => false
  end.

(** ** What an operation does, abstractly *)

(** An event that is none of the above. *)
Definition silent (e : event) : Prop :=
  (∀ p, is_submit p e = false) ∧ (∀ p, is_delivery p e = false) ∧ (∀ i, is_answer i e = false).

Inductive effect : event → InteractionRegistry → InteractionRegistry → Prop :=
  | eff_none e reg : silent e → effect e reg reg
  | eff_drop e reg : silent e → effect e reg (drop_current reg)
  | eff_close e reg c : silent e → ir_current reg = Some c → effect e reg (close_response reg c)
  | eff_begin e reg reg' u op rp :
      silent e → begin u op rp reg = (Ret (ir_nextRequestId reg), reg') → effect e reg reg'
  | eff_transition e reg c state message :
      silent e → ir_current reg = Some c → valid_transition (pi_state c) state = true →
      (state = secret_required → ir_nextPromptId reg ≠ U64_MAX) →
      effect e reg (snd (apply_transition c state message reg))
  | eff_respond u id b reg reg' c :
      pending_request reg u id = Some c → pi_state c = Some presence_required →
      pi_responseClosed c = false →
      respond_to_presence u id b reg = (Ret (), reg') →
      effect (OpRespond u id b, OutUnit (Ret ())) reg reg'
  | eff_cancel u id reg reg' c :
      pending_request reg u id = Some c → pi_responseClosed c = false →
      request_cancel u id reg = (Ret (), reg') →
      effect (OpCancel u id, OutUnit (Ret ())) reg reg'
  | eff_submit u id p s reg reg' c :
      pending_request reg u id = Some c → pi_promptId c = p → p ≠ 0 →
      pi_secretSubmitted c = false →
      submit_secret u id p s reg = (Ret (), reg') →
      effect (OpSubmit u id p s, OutUnit (Ret ())) reg reg'
  | eff_deliver u id p st ex reg reg' c s :
      pending_request reg u id = Some c → pi_promptId c = p → p ≠ 0 → st = false →
      ir_secretResponse reg = Some s →
      reg' = mkInteractions (ir_current reg) None (ir_nextRequestId reg) (ir_nextPromptId reg) →
      effect (OpPollSecret u id p st ex, OutSecret (Some (mkSecretWait sw_provided s))) reg reg'.

Lemma same_user_binding b u : same_user b u = true ↔ b = binding u.
Proof.
  unfold same_user, binding. destruct b as [uid s], u as [uid' n' s']; simpl.
  destruct (uid =? uid') eqn:E; reflect_bools; simpl.
  - subst. destruct s as [s|], s' as [s'|]; rewrite ?bool_decide_eq_true; split;
      congruence || done.
  - split; [done|]. by intros [= -> _].
Qed.

Lemma pending_request_Some reg u id c :
  pending_request reg u id = Some c ↔
  ir_current reg = Some c ∧ pi_requestId c = id ∧ pi_user c = binding u.
Proof.
  unfold pending_request. destruct (ir_current reg) as [c'|]; [|by split; [|intros [? _]]].
  destruct (negb _ || _) eqn:E.
  - split; [done|]. intros ([= ->] & <- & Hu). rewrite Z.eqb_refl in E. simpl in E.
    by rewrite (proj2 (same_user_binding _ _) Hu) in E.
  - reflect_bools. apply same_user_binding in H0.
    split; [by intros [= <-]|]. by intros [? _].
Qed.

Lemma pending_nonzero_Some reg u id c :
  pending_nonzero reg u id = Some c → id ≠ 0 ∧ pending_request reg u id = Some c.
Proof. unfold pending_nonzero. case_match eqn:E; [done|]. by apply Z.eqb_neq in E. Qed.

(** The refused calls change nothing. *)
Ltac refused E := injection E as <- <-; by apply eff_none.

Lemma transition_effect u id st m reg r reg' :
  transition u id st m reg = (r, reg') →
  effect (OpTransition u id st m, OutTransition r) reg reg'.
Proof.
  intros E. unfold transition in E.
  destruct (pending_nonzero reg u id) as [c|] eqn:Ep; [|refused E].
  apply pending_nonzero_Some in Ep as [_ (Hc & _)%pending_request_Some].
  destruct (negb (valid_transition (pi_state c) st)) eqn:Ev; [refused E|].
  destruct (negb (accepts_message st) && _); [refused E|].
  destruct (MAX_VERIFICATION_TEXT_SIZE <? len m); [refused E|].
  destruct (bool_decide (st = secret_required) && _) eqn:Eo; [refused E|].
  destruct (pi_cancelRequested c && _); [refused E|].
  destruct (apply_transition c st m reg) as [t reg1] eqn:Ea. injection E as <- <-.
  replace reg1 with (snd (apply_transition c st m reg)) by (by rewrite Ea).
  apply negb_false_iff in Ev. apply eff_transition; [done|done|done|].
  intros ->. rewrite bool_decide_eq_true_2 in Eo by done. simpl in Eo.
  by apply orb_false_iff in Eo as [_ Eo%Z.eqb_neq].
Qed.

Lemma respond_effect u id b reg r reg' :
  respond_to_presence u id b reg = (r, reg') → effect (OpRespond u id b, OutUnit r) reg reg'.
Proof.
  intros E. pose proof E as E0. unfold respond_to_presence in E.
  destruct (pending_nonzero reg u id) as [c|] eqn:Ep; [|refused E].
  apply pending_nonzero_Some in Ep as [_ Hc].
  destruct (negb _ || _) eqn:Eg; [refused E|]. injection E as <- _. reflect_bools.
  by eapply eff_respond.
Qed.

Lemma submit_effect u id p s reg r reg' :
  submit_secret u id p s reg = (r, reg') → effect (OpSubmit u id p s, OutUnit r) reg reg'.
Proof.
  intros E. pose proof E as E0. unfold submit_secret in E.
  destruct (pending_nonzero reg u id) as [c|] eqn:Ep; [|refused E].
  apply pending_nonzero_Some in Ep as [_ Hc].
  destruct ((p =? 0) || negb (pi_promptId c =? p) || negb _ || pi_secretSubmitted c || _) eqn:Eg;
    [refused E|].
  injection E as <- _. reflect_bools. by eapply eff_submit.
Qed.

Lemma cancel_effect u id reg r reg' :
  request_cancel u id reg = (r, reg') → effect (OpCancel u id, OutUnit r) reg reg'.
Proof.
  intros E. pose proof E as E0. unfold request_cancel in E.
  destruct (pending_nonzero reg u id) as [c|] eqn:Ep; [|refused E].
  apply pending_nonzero_Some in Ep as [_ Hc].
  destruct (negb _ || _) eqn:Eg; [refused E|]. injection E as <- _. reflect_bools.
  by eapply eff_cancel.
Qed.

Lemma poll_presence_effect u id st ex reg r reg' :
  poll_presence u id st ex reg = (r, reg') →
  effect (OpPollPresence u id st ex, OutPresence r) reg reg'.
Proof.
  intros E. unfold poll_presence in E.
  destruct (pending_request reg u id) as [c|] eqn:Ep; [|refused E].
  apply pending_request_Some in Ep as (Hc & _).
  destruct st; [injection E as <- <-; by apply eff_close|].
  destruct (pi_cancelRequested c); [refused E|].
  destruct (pi_presenceResponse c) as [[]|]; [refused E..|].
  destruct ex; [injection E as <- <-; by apply eff_close|refused E].
Qed.

Lemma poll_secret_effect u id p st ex reg r reg' :
  poll_secret u id p st ex reg = (r, reg') →
  effect (OpPollSecret u id p st ex, OutSecret r) reg reg'.
Proof.
  intros E. unfold poll_secret in E.
  destruct (pending_request reg u id) as [c|] eqn:Ep; [|refused E].
  pose proof Ep as (Hc & _)%pending_request_Some.
  destruct ((p =? 0) || _) eqn:Eg; [refused E|]. reflect_bools.
  destruct st; [injection E as <- <-; by apply eff_close|].
  destruct (pi_cancelRequested c); [refused E|].
  destruct (ir_secretResponse reg) as [s|] eqn:Es; [|destruct ex;
    [injection E as <- <-; by apply eff_close|refused E]].
  injection E as <- <-. by eapply eff_deliver.
Qed.

Lemma exec_effect o reg out reg' : exec_op o reg = (out, reg') → effect (o, out) reg reg'.
Proof.
  destruct o as [u op rp|u id st m|u id b|u id p s|u id|u id st ex|u id p st ex|u id|u]; simpl.
  - destruct (begin u op rp reg) as [r reg0] eqn:E. intros [= <- <-].
    pose proof E as E'. unfold begin in E'. destruct (ir_current reg); [refused E'|].
    case_match; [refused E'|]. injection E' as <- _. by eapply eff_begin; [|exact E].
  - destruct (transition u id st m reg) as [r reg0] eqn:E. intros [= <- <-].
    by apply transition_effect.
  - destruct (respond_to_presence u id b reg) as [r reg0] eqn:E. intros [= <- <-].
    by apply respond_effect.
  - destruct (submit_secret u id p s reg) as [r reg0] eqn:E. intros [= <- <-].
    by apply submit_effect.
  - destruct (request_cancel u id reg) as [r reg0] eqn:E. intros [= <- <-].
    by apply cancel_effect.
  - destruct (poll_presence u id st ex reg) as [r reg0] eqn:E. intros [= <- <-].
    by apply poll_presence_effect.
  - destruct (poll_secret u id p st ex reg) as [r reg0] eqn:E. intros [= <- <-].
    by apply poll_secret_effect.
  - unfold end_request. destruct (pending_nonzero reg u id); intros [= <- <-];
      [by apply eff_drop|by apply eff_none].
  - intros [= <- <-]. unfold clear_for. destruct (ir_current reg); [|by apply eff_none].
    case_match; [by apply eff_drop|by apply eff_none].
Qed.

(** ** The invariant of executions *)

(** An accepted call of the user that owns the pending interaction. *)
Definition accepted_by (c : PendingInteraction) (h : list event) (call : UserContext → registry_op)
    : Prop :=
  ∃ u, binding u = pi_user c ∧ (call u, OutUnit (Ret ())) ∈ h.

Record pending_ok (h : list event) (reg : InteractionRegistry) (c : PendingInteraction)
    : Prop := {
  po_request : 1 ≤ pi_requestId c < ir_nextRequestId reg;
  po_prompt : 0 ≤ pi_promptId c < ir_nextPromptId reg;
  po_asks : pi_promptId c ≠ 0 ↔ pi_state c = Some secret_required;
  po_live : ∀ st, pi_state c = Some st → is_terminal st = false;
  po_open : pi_responseClosed c = false →
    count (is_answer (pi_requestId c)) h = 0%nat ∧
    pi_presenceResponse c = None ∧ pi_cancelRequested c = false;
  po_presence : ∀ b, pi_presenceResponse c = Some b →
    pi_state c = Some presence_required ∧
    accepted_by c h (λ u, OpRespond u (pi_requestId c) b);
  po_cancel : pi_cancelRequested c = true →
    accepted_by c h (λ u, OpCancel u (pi_requestId c));
  po_unsubmitted : pi_promptId c ≠ 0 → pi_secretSubmitted c = false →
    count (is_submit (pi_promptId c)) h = 0%nat ∧ ir_secretResponse reg = None;
  po_secret : ∀ s, pi_promptId c ≠ 0 → ir_secretResponse reg = Some s →
    count (is_delivery (pi_promptId c)) h = 0%nat ∧
    accepted_by c h (λ u, OpSubmit u (pi_requestId c) (pi_promptId c) s);
}.

Record registry_ok (h : list event) (reg : InteractionRegistry) : Prop := {
  ro_request : 1 ≤ ir_nextRequestId reg ≤ U64_MAX;
  ro_prompt : 1 ≤ ir_nextPromptId reg ≤ U64_MAX;
  ro_answers : ∀ id, (count (is_answer id) h ≤ 1)%nat;
  ro_submits : ∀ p, (count (is_submit p) h ≤ 1)%nat;
  ro_deliveries : ∀ p, (count (is_delivery p) h ≤ count (is_submit p) h)%nat;
  ro_fresh_answer : ∀ id, ir_nextRequestId reg ≤ id → count (is_answer id) h = 0%nat;
  ro_fresh_submit : ∀ p, ir_nextPromptId reg ≤ p → count (is_submit p) h = 0%nat;
  ro_idle : ir_current reg = None → ir_secretResponse reg = None;
  ro_pending : ∀ c, ir_current reg = Some c → pending_ok h reg c;
}.

Lemma registry_ok_initial : registry_ok [] interactions_initial.
Proof. unfold interactions_initial, U64_MAX. by split; simpl; try lia. Qed.

Lemma silent_count e h :
  silent e →
  (∀ p, count (is_submit p) (e :: h) = count (is_submit p) h) ∧
  (∀ p, count (is_delivery p) (e :: h) = count (is_delivery p) h) ∧
  (∀ i, count (is_answer i) (e :: h) = count (is_answer i) h).
Proof. intros (Hs & Hd & Ha). split_and!; intros; simpl; by rewrite ?Hs, ?Hd, ?Ha. Qed.

Lemma accepted_by_cons c h e call : accepted_by c h call → accepted_by c (e :: h) call.
Proof. intros (u & Hu & Hin). exists u. split; [done|]. by apply list_elem_of_further. Qed.

(** A silent event leaves the registry facts alone. *)
Lemma pending_ok_silent e h reg c : silent e → pending_ok h reg c → pending_ok (e :: h) reg c.
Proof.
  intros Hs []. destruct (silent_count e h Hs) as (Es & Ed & Ea).
  split; rewrite ?Es, ?Ed, ?Ea; auto.
  - intros b Hb. destruct (po_presence0 b Hb). auto using accepted_by_cons.
  - auto using accepted_by_cons.
  - intros s Hp Hsec. destruct (po_secret0 s Hp Hsec). auto using accepted_by_cons.
Qed.

Lemma registry_ok_silent e h reg : silent e → registry_ok h reg → registry_ok (e :: h) reg.
Proof.
  intros Hs []. destruct (silent_count e h Hs) as (Es & Ed & Ea).
  split; auto; intros; rewrite ?Es, ?Ed, ?Ea; auto.
  by apply pending_ok_silent, ro_pending0.
Qed.

Lemma registry_ok_drop h reg : registry_ok h reg → registry_ok h (drop_current reg).
Proof. intros []. by split. Qed.

Lemma registry_ok_close h reg c :
  ir_current reg = Some c → registry_ok h reg → registry_ok h (close_response reg c).
Proof.
  intros Hc []. split; simpl; auto; [done|]. intros c' [= <-].
  destruct (ro_pending0 c Hc). by split.
Qed.

Lemma registry_ok_begin h reg u op rp reg' :
  begin u op rp reg = (Ret (ir_nextRequestId reg), reg') → registry_ok h reg → registry_ok h reg'.
Proof.
  unfold begin. intros E []. destruct (ir_current reg) as [|] eqn:Hc; [done|].
  case_match eqn:Eg; [done|]. injection E as <-. reflect_bools. unfold U64_MAX in *.
  rewrite u64_small by lia. split; simpl; unfold U64_MAX; auto; try lia.
  - intros id Hid. apply ro_fresh_answer0. lia.
  - intros c [= <-]. split; simpl; try done; try lia. intros _. split; [|done].
    by apply ro_fresh_answer0.
Qed.

Lemma valid_transition_from prev next :
  valid_transition prev next = true →
  (prev = Some presence_required → is_terminal next = true) ∧
  (∀ st, prev = Some st → is_terminal st = false).
Proof.
  intros H. split; [intros ->|intros st ->]; [by destruct next|by destruct st].
Qed.

Lemma registry_ok_transition h reg c state message :
  ir_current reg = Some c → valid_transition (pi_state c) state = true →
  (state = secret_required → ir_nextPromptId reg ≠ U64_MAX) →
  registry_ok h reg → registry_ok h (snd (apply_transition c state message reg)).
Proof.
  intros Hc Hv Hmax Hok. destruct Hok. unfold apply_transition. simpl.
  destruct (is_terminal state) eqn:Et.
  { rewrite bool_decide_eq_false_2 by (by intros ->). by split. }
  destruct (valid_transition_from _ _ Hv) as [Hfrom _].
  destruct (ro_pending0 c Hc).
  assert (pi_presenceResponse c = None) as Hnopres.
  { destruct (pi_presenceResponse c) as [b|] eqn:Eb; [|done].
    destruct (po_presence0 b eq_refl) as [Hst _]. rewrite (Hfrom Hst) in Et. done. }
  case_bool_decide as Hask.
  - unfold U64_MAX in *. specialize (Hmax Hask). rewrite u64_small by lia.
    split; simpl; unfold U64_MAX; auto; try lia.
    + intros p Hp. apply ro_fresh_submit0. lia.
    + intros c' [= <-]. split; simpl; auto; try lia; try done.
      * subst. split; [done|]. lia.
      * congruence.
      * by rewrite Hnopres.
      * intros _ _. split; [|done]. by apply ro_fresh_submit0.
  - split; simpl; auto; [done|]. intros c' [= <-]. split; simpl; auto; try lia; try done.
    + split; [done|]. by intros [= ?].
    + congruence.
    + by rewrite Hnopres.
Qed.

(** The state after an accepted answer. *)
Definition answered (c : PendingInteraction) (presence : option bool) (cancel : bool)
    : PendingInteraction :=
  mkPending (pi_requestId c) (pi_user c) (pi_operation c) (pi_relyingPartyId c) (pi_state c)
    (pi_message c) (pi_promptId c) presence (pi_secretSubmitted c) cancel true.

Lemma registry_ok_answer e h reg c presence cancel :
  ir_current reg = Some c → pi_responseClosed c = false →
  (∀ p, is_submit p e = false) → (∀ p, is_delivery p e = false) →
  (∀ i, is_answer i e = (pi_requestId c =? i)) →
  (∀ b, presence = Some b → pi_state c = Some presence_required ∧
     accepted_by c (e :: h) (λ u, OpRespond u (pi_requestId c) b)) →
  (cancel = true → accepted_by c (e :: h) (λ u, OpCancel u (pi_requestId c))) →
  registry_ok h reg →
  registry_ok (e :: h) (set_current reg (Some (answered c presence cancel))).
Proof.
  intros Hc Hcl Hs Hd Ha Hpres Hcan []. destruct (ro_pending0 c Hc).
  destruct (po_open0 Hcl) as (Hcount & _ & _).
  split; simpl; auto; intros; rewrite ?Hs, ?Hd, ?Ha; auto; try done.
  - destruct (pi_requestId c =? id) eqn:E; [|auto].
    apply Z.eqb_eq in E. subst. rewrite Hcount. lia.
  - destruct (pi_requestId c =? id) eqn:E; [|auto]. apply Z.eqb_eq in E. lia.
  - simplify_eq. split; simpl; auto; try done.
    + intros ??. rewrite Hs. auto.
    + intros s Hp Hsec. rewrite Hd. destruct (po_secret0 s Hp Hsec).
      split; [done|]. by apply accepted_by_cons.
Qed.

Lemma registry_ok_submit h reg c u s :
  ir_current reg = Some c → binding u = pi_user c → pi_promptId c ≠ 0 →
  pi_secretSubmitted c = false → registry_ok h reg →
  registry_ok ((OpSubmit u (pi_requestId c) (pi_promptId c) s, OutUnit (Ret ())) :: h)
    (mkInteractions
      (Some (mkPending (pi_requestId c) (pi_user c) (pi_operation c) (pi_relyingPartyId c)
         (pi_state c) (pi_message c) (pi_promptId c) (pi_presenceResponse c) true
         (pi_cancelRequested c) (pi_responseClosed c)))
      (Some s) (ir_nextRequestId reg) (ir_nextPromptId reg)).
Proof.
  intros Hc Hu Hp Hs []. destruct (ro_pending0 c Hc). destruct (po_unsubmitted0 Hp Hs) as [Hcnt _].
  split; simpl; auto; try done.
  - intros p. destruct (pi_promptId c =? p) eqn:E; [|auto]. apply Z.eqb_eq in E.
    subst. rewrite Hcnt. lia.
  - intros p. specialize (ro_deliveries0 p). destruct (pi_promptId c =? p); lia.
  - intros p Hle. destruct (pi_promptId c =? p) eqn:E; [|auto]. apply Z.eqb_eq in E. lia.
  - intros c' [= <-]. split; simpl; auto; try done.
    + intros b Hb. destruct (po_presence0 b Hb). auto using accepted_by_cons.
    + intros Hcan. by apply accepted_by_cons, po_cancel0.
    + intros s' _ [= <-]. split.
      * specialize (ro_deliveries0 (pi_promptId c)). lia.
      * exists u. split; [done|]. by apply list_elem_of_here.
Qed.

Lemma registry_ok_deliver h reg c u id p st ex s :
  pending_request reg u id = Some c → pi_promptId c = p → p ≠ 0 →
  ir_secretResponse reg = Some s → registry_ok h reg →
  registry_ok
    ((OpPollSecret u id p st ex, OutSecret (Some (mkSecretWait sw_provided s))) :: h)
    (mkInteractions (ir_current reg) None (ir_nextRequestId reg) (ir_nextPromptId reg)).
Proof.
  intros (Hc & <- & Hu)%pending_request_Some <- Hp Hs []. pose proof (ro_pending0 c Hc) as Hpc.
  destruct Hpc. destruct (po_secret0 s Hp Hs) as [Hdel (u' & Hu' & Hin)].
  assert (1 ≤ count (is_submit (pi_promptId c)) h)%nat as Hsub.
  { eapply count_elem; [exact Hin|]. simpl. by rewrite Z.eqb_refl. }
  assert (pi_secretSubmitted c = true) as Hsubm.
  { destruct (pi_secretSubmitted c) eqn:E; [done|]. destruct (po_unsubmitted0 Hp eq_refl) as [H _].
    lia. }
  split; simpl; auto.
  - intros p. specialize (ro_deliveries0 p). destruct (pi_promptId c =? p) eqn:E; [|done].
    apply Z.eqb_eq in E. subst. lia.
  - intros c' Hc'. rewrite Hc in Hc'. injection Hc' as <-. split; simpl; auto; try done.
    + intros b Hb. destruct (po_presence0 b Hb). auto using accepted_by_cons.
    + intros Hcan. by apply accepted_by_cons, po_cancel0.
    + rewrite Hsubm. done.
Qed.

Lemma registry_ok_effect e h reg reg' :
  effect e reg reg' → registry_ok h reg → registry_ok (e :: h) reg'.
Proof.
  intros He Hok. destruct He as
    [e reg Hs|e reg Hs|e reg c Hs Hc|e reg reg' u op rp Hs Hb|e reg c st m Hs Hc Hv Hm
    |u id b reg reg' c Hp Hst Hcl Hr|u id reg reg' c Hp Hcl Hr|u id p s reg reg' c Hp Hpid Hnz Hsub Hr
    |u id p st ex reg reg' c s Hp Hpid Hnz _ Hsec ->].
  - by apply registry_ok_silent.
  - by apply registry_ok_silent, registry_ok_drop.
  - by apply registry_ok_silent, registry_ok_close.
  - apply registry_ok_silent; [done|]. by eapply registry_ok_begin.
  - apply registry_ok_silent; [done|]. by apply registry_ok_transition.
  - unfold respond_to_presence, pending_nonzero in Hr. destruct (id =? 0); [done|].
    rewrite Hp, Hst, Hcl, bool_decide_eq_true_2 in Hr by done. simpl in Hr. injection Hr as <-.
    rewrite <- Hst. pose proof Hp as (Hc & <- & Hu)%pending_request_Some.
    pose proof (po_open _ _ _ (ro_pending _ _ Hok c Hc) Hcl) as (_ & _ & Hcan).
    apply (registry_ok_answer _ _ _ c (Some b) (pi_cancelRequested c)); try done.
    + intros b' [= <-]. split; [done|]. exists u. split; [done|]. apply list_elem_of_here.
    + by rewrite Hcan.
  - unfold request_cancel, pending_nonzero in Hr. destruct (id =? 0); [done|].
    rewrite Hp, Hcl in Hr. destruct (negb _ || _); [done|]. injection Hr as <-.
    pose proof Hp as (Hc & <- & Hu)%pending_request_Some.
    pose proof (po_open _ _ _ (ro_pending _ _ Hok c Hc) Hcl) as (_ & Hpres & _).
    apply (registry_ok_answer _ _ _ c (pi_presenceResponse c) true); try done.
    + by rewrite Hpres.
    + intros _. exists u. split; [done|]. apply list_elem_of_here.
  - unfold submit_secret, pending_nonzero in Hr. destruct (id =? 0); [done|].
    rewrite Hp in Hr. destruct (_ || pi_cancelRequested c); [done|]. injection Hr as <-.
    pose proof Hp as (Hc & <- & Hu)%pending_request_Some. subst p.
    by apply registry_ok_submit.
  - by eapply registry_ok_deliver.
Qed.

Lemma execution_ok h reg : execution h reg → registry_ok h reg.
Proof.
  induction 1 as [|h reg o out reg' _ IH E]; [apply registry_ok_initial|].
  eapply registry_ok_effect; [|exact IH]. by apply exec_effect.
Qed.

(** ** The waits

    The caller's thread runs one turn of the loop at a time.  The environment lists,
    for each turn, the operations other threads performed while the mutex was released,
    whether a stop was requested and the time the turn reads. *)

Record turn := mkTurn { t_others : list registry_op; t_stop : bool; t_now : Z }.

Definition exec_ops (ops : list registry_op) (reg : InteractionRegistry) : InteractionRegistry :=
  foldl (λ reg o, snd (exec_op o reg)) reg ops.

Fixpoint wait_presence_loop (user : UserContext) (request_id deadline : Z) (env : list turn)
    (reg : InteractionRegistry) : option PresenceWaitResult * InteractionRegistry :=
  match env with
  | [] => (None, reg)
  | t :: env =>
      let '(r, reg') := poll_presence user request_id (t_stop t) (deadline <=? t_now t)
                          (exec_ops (t_others t) reg) in
      match r with
      | Some result => (Some result, reg')
      | None => wait_presence_loop user request_id deadline env reg'
      end
  end.

(** [None] means that the call is still waiting at the end of the environment. *)
Definition wait_for_presence (user : UserContext) (request_id timeout start : Z)
    (env : list turn) (reg : InteractionRegistry)
    : option (res PresenceWaitResult) * InteractionRegistry :=
  if timeout <=? 0 then (Some (Throw invalid_argument), reg) else
  let '(r, reg') := wait_presence_loop user request_id (start + timeout) env reg in
  (Ret <$> r, reg').

Fixpoint wait_secret_loop (user : UserContext) (request_id prompt_id deadline : Z)
    (env : list turn) (reg : InteractionRegistry)
    : option SecretWaitResult * InteractionRegistry :=
  match env with
  | [] => (None, reg)
  | t :: env =>
      let '(r, reg') := poll_secret user request_id prompt_id (t_stop t)
                          (deadline <=? t_now t) (exec_ops (t_others t) reg) in
      match r with
      | Some result => (Some result, reg')
      | None => wait_secret_loop user request_id prompt_id deadline env reg'
      end
  end.

Definition wait_for_secret (user : UserContext) (request_id prompt_id timeout start : Z)
    (env : list turn) (reg : InteractionRegistry)
    : option (res SecretWaitResult) * InteractionRegistry :=
  if timeout <=? 0 then (Some (Throw invalid_argument), reg) else
  let '(r, reg') := wait_secret_loop user request_id prompt_id (start + timeout) env reg in
  (Ret <$> r, reg').

Lemma exec_ops_execution ops h reg :
  execution h reg → ∃ h', execution (h' ++ h) (exec_ops ops reg).
Proof.
  revert h reg. induction ops as [|o ops IH]; intros h reg Hx; [by exists []|].
  simpl. destruct (exec_op o reg) as [out reg'] eqn:E.
  destruct (IH ((o, out) :: h) reg') as [h' Hh']; [by eapply exec_next|].
  exists (h' ++ [(o, out)]). by rewrite <- app_assoc.
Qed.

(** What the operations of the other threads, and the turns of a wait for a secret, add to
    the history, the latest first. *)
Fixpoint ops_events (ops : list registry_op) (reg : InteractionRegistry) : list event :=
  match ops with
  | [] => []
  | o :: ops => let '(out, reg') := exec_op o reg in ops_events ops reg' ++ [(o, out)]
  end.

Fixpoint wait_secret_events (user : UserContext) (request_id prompt_id deadline : Z)
    (env : list turn) (reg : InteractionRegistry) : list event :=
  match env with
  | [] => []
  | t :: env =>
      let expired := deadline <=? t_now t in
      let '(r, reg') := poll_secret user request_id prompt_id (t_stop t) expired
                          (exec_ops (t_others t) reg) in
      let here := (OpPollSecret user request_id prompt_id (t_stop t) expired, OutSecret r)
                    :: ops_events (t_others t) reg in
      match r with
      | Some _ => here
      | None => wait_secret_events user request_id prompt_id deadline env reg' ++ here
      end
  end.

Lemma ops_events_execution ops h reg :
  execution h reg → execution (ops_events ops reg ++ h) (exec_ops ops reg).
Proof.
  revert h reg. induction ops as [|o ops IH]; intros h reg Hx; [done|].
  simpl. destruct (exec_op o reg) as [out reg'] eqn:E. rewrite <- app_assoc. simpl.
  apply IH. by eapply exec_next.
Qed.

(** A wait that returns ends with the turn that answers, after the events before it. *)
Lemma wait_secret_loop_last u id p deadline env h reg r reg' :
  execution h reg → wait_secret_loop u id p deadline env reg = (Some r, reg') →
  ∃ before reg1 st ex, execution (before ++ h) reg1 ∧
    poll_secret u id p st ex reg1 = (Some r, reg') ∧
    wait_secret_events u id p deadline env reg =
      (OpPollSecret u id p st ex, OutSecret (Some r)) :: before.
Proof.
  revert h reg. induction env as [|t env IH]; intros h reg Hx H; [done|]. simpl in H |- *.
  pose proof (ops_events_execution (t_others t) h reg Hx) as Hx1.
  destruct (poll_secret _ _ _ _ _ _) as [[r1|] reg1] eqn:E.
  - injection H as <- <-. by eexists _, _, _, _.
  - set (ev := (OpPollSecret u id p (t_stop t) (deadline <=? t_now t), OutSecret None)).
    destruct (IH (ev :: ops_events (t_others t) reg ++ h) reg1)
      as (before & reg2 & st & ex & Hx2 & Hp & He); [|done|].
    { eapply exec_next; [exact Hx1|]. simpl. by rewrite E. }
    exists (before ++ ev :: ops_events (t_others t) reg), reg2, st, ex.
    rewrite <- app_assoc. split; [exact Hx2|]. split; [done|]. by rewrite He.
Qed.

Lemma poll_presence_expires u id st reg : fst (poll_presence u id st true reg) ≠ None.
Proof.
  unfold poll_presence. destruct (pending_request reg u id) as [c|]; [|done].
  destruct st; [done|]. destruct (pi_cancelRequested c); [done|].
  by destruct (pi_presenceResponse c) as [[]|].
Qed.

Lemma poll_secret_expires u id p st reg : fst (poll_secret u id p st true reg) ≠ None.
Proof.
  unfold poll_secret. destruct (pending_request reg u id) as [c|]; [|done].
  destruct (_ || _); [done|]. destruct st; [done|]. destruct (pi_cancelRequested c); [done|].
  by destruct (ir_secretResponse reg).
Qed.

Lemma wait_presence_loop_ends u id deadline env reg :
  Exists (λ t, deadline ≤ t_now t) env →
  is_Some (fst (wait_presence_loop u id deadline env reg)).
Proof.
  intros He. revert reg. induction env as [|t env IH]; intros reg; [by inversion He|].
  simpl. destruct (poll_presence _ _ _ _ _) as [[r|] reg'] eqn:E; [done|].
  inversion He as [? ? Hn|? ? Hrest]; subst; [|by apply IH].
  rewrite (proj2 (Z.leb_le _ _) Hn) in E.
  by pose proof (poll_presence_expires u id (t_stop t) (exec_ops (t_others t) reg)) as H;
    rewrite E in H.
Qed.

Lemma wait_secret_loop_ends u id p deadline env reg :
  Exists (λ t, deadline ≤ t_now t) env →
  is_Some (fst (wait_secret_loop u id p deadline env reg)).
Proof.
  intros He. revert reg. induction env as [|t env IH]; intros reg; [by inversion He|].
  simpl. destruct (poll_secret _ _ _ _ _ _) as [[r|] reg'] eqn:E; [done|].
  inversion He as [? ? Hn|? ? Hrest]; subst; [|by apply IH].
  rewrite (proj2 (Z.leb_le _ _) Hn) in E.
  by pose proof (poll_secret_expires u id p (t_stop t) (exec_ops (t_others t) reg)) as H;
    rewrite E in H.
Qed.

(** A wait that returns did so at one turn of some execution. *)
Lemma wait_presence_loop_turn u id deadline env h reg r reg' :
  execution h reg → wait_presence_loop u id deadline env reg = (Some r, reg') →
  ∃ h' reg1 st ex, execution (h' ++ h) reg1 ∧ poll_presence u id st ex reg1 = (Some r, reg').
Proof.
  revert h reg. induction env as [|t env IH]; intros h reg Hx H; [done|]. simpl in H.
  destruct (exec_ops_execution (t_others t) h reg Hx) as [h1 Hx1].
  destruct (poll_presence _ _ _ _ _) as [[r1|] reg1] eqn:E.
  - injection H as <- <-. by eexists h1, _, _, _.
  - set (ev := (OpPollPresence u id (t_stop t) (deadline <=? t_now t), OutPresence None)).
    destruct (IH (ev :: h1 ++ h) reg1) as (h' & reg2 & st & ex & Hx2 & Hp); [|done|].
    { eapply exec_next; [exact Hx1|]. simpl. by rewrite E. }
    exists (h' ++ ev :: h1), reg2, st, ex. split; [|done].
    by rewrite <- app_assoc.
Qed.

(** The call [call], made by an agent with the registration of [u], is the only accepted
    answer to request [id] in the history. *)
Definition sole_answer (h : list event) (u : UserContext) (id : Z)
    (call : UserContext → registry_op) : Prop :=
  count (is_answer id) h = 1%nat ∧
  ∃ u', binding u' = binding u ∧ (call u', OutUnit (Ret ())) ∈ h.

(** The secret [s] submitted for prompt [p] of request [id] is the only one accepted for
    that prompt and was not delivered before. *)
Definition sole_secret (h : list event) (u : UserContext) (id p : Z) (s : list Z) : Prop :=
  count (is_submit p) h = 1%nat ∧ count (is_delivery p) h = 0%nat ∧
  ∃ u', binding u' = binding u ∧ (OpSubmit u' id p s, OutUnit (Ret ())) ∈ h.

Lemma accepted_sole h reg c u call :
  registry_ok h reg → pi_user c = binding u →
  (∀ u', is_answer (pi_requestId c) (call u', OutUnit (Ret ())) = true) →
  accepted_by c h call → sole_answer h u (pi_requestId c) call.
Proof.
  intros Hok Hu Ha (u' & Hu' & Hin). split.
  - pose proof (ro_answers _ _ Hok (pi_requestId c)).
    pose proof (count_elem _ _ _ Hin (Ha u')). lia.
  - exists u'. split; [congruence|done].
Qed.

(** What one turn reports about the history. *)
Lemma poll_presence_history h reg u id st ex r reg' :
  execution h reg → poll_presence u id st ex reg = (Some r, reg') →
  match r with
  | pw_approved => st = false ∧ sole_answer h u id (λ u', OpRespond u' id true)
  | pw_denied => st = false ∧ sole_answer h u id (λ u', OpRespond u' id false)
  | pw_client_cancelled => st = false ∧ sole_answer h u id (λ u', OpCancel u' id)
  | pw_platform_cancelled => st = true
  | pw_timed_out => ex = true ∧ st = false
  | pw_invalidated => pending_request reg u id = None
  end.
Proof.
  intros Hok%execution_ok E. unfold poll_presence in E.
  destruct (pending_request reg u id) as [c|] eqn:Hp; [|by injection E as <- _].
  apply pending_request_Some in Hp as (Hc & <- & Hu).
  pose proof (ro_pending _ _ Hok c Hc) as Hpo.
  destruct st; [by injection E as <- _|].
  destruct (pi_cancelRequested c) eqn:Ecan.
  { injection E as <- _. split; [done|].
    eapply accepted_sole; [exact Hok|done|intros; apply Z.eqb_refl|].
    by apply (po_cancel _ _ _ Hpo). }
  destruct (pi_presenceResponse c) as [b|] eqn:Eb.
  - destruct (po_presence _ _ _ Hpo b Eb) as [_ Hacc].
    destruct b; injection E as <- _; (split; [done|]);
      (eapply accepted_sole; [exact Hok|done|intros; apply Z.eqb_refl|exact Hacc]).
  - destruct ex; [by injection E as <- _|done].
Qed.

Lemma poll_secret_history h reg u id p st ex s reg' :
  execution h reg →
  poll_secret u id p st ex reg = (Some (mkSecretWait sw_provided s), reg') →
  st = false ∧ sole_secret h u id p s ∧ ir_secretResponse reg' = None.
Proof.
  intros Hok%execution_ok E. unfold poll_secret in E.
  destruct (pending_request reg u id) as [c|] eqn:Hp; [|done].
  apply pending_request_Some in Hp as (Hc & <- & Hu).
  destruct (_ || _) eqn:Eg; [done|]. reflect_bools. subst p. rename H into Hnz.
  destruct st; [done|]. destruct (pi_cancelRequested c); [done|].
  destruct (ir_secretResponse reg) as [s'|] eqn:Es; [|by destruct ex].
  injection E as <- <-. split; [done|]. split; [|done].
  destruct (po_secret _ _ _ (ro_pending _ _ Hok c Hc) s' Hnz Es) as [Hdel (u' & Hu' & Hin)].
  split; [|split; [done|exists u'; split; [congruence|done]]].
  pose proof (ro_submits _ _ Hok (pi_promptId c)).
  assert (is_submit (pi_promptId c)
    (OpSubmit u' (pi_requestId c) (pi_promptId c) s', OutUnit (Ret ())) = true) as Hi
    by apply Z.eqb_refl.
  pose proof (count_elem _ _ _ Hin Hi). lia.
Qed.

(** ** Properties *)

(** C16: A secret handed to the verifier is the one the agent of the same registration
    submitted for exactly this prompt of this request.  Take any execution of the registry up
    to the call of [wait_for_secret] and any interleaving of the wait's turns with the calls of
    the other threads, and their joint history: if the wait returns a secret, then the history
    is that of an execution which ends with this delivery, and in it exactly one secret was
    accepted for the prompt, by [submit_secret] for this request and prompt from an agent with
    the same registration, it is the one delivered, and no other delivery was made for the
    prompt; nothing is left of it in the registry. *)
Theorem secret_delivery h reg u id p timeout start env s reg' :
  execution h reg →
  wait_for_secret u id p timeout start env reg =
    (Some (Ret (mkSecretWait sw_provided s)), reg') →
  let history := wait_secret_events u id p (start + timeout) env reg ++ h in
  execution history reg' ∧
  count (is_submit p) history = 1%nat ∧ count (is_delivery p) history = 1%nat ∧
  (∃ u', binding u' = binding u ∧ (OpSubmit u' id p s, OutUnit (Ret ())) ∈ history) ∧
  ir_secretResponse reg' = None.
Proof.
  intros Hx. unfold wait_for_secret. destruct (timeout <=? 0); [done|].
  destruct (wait_secret_loop _ _ _ _ _ _) as [[r|] reg1] eqn:E; [|done].
  intros [= -> <-]. cbv zeta.
  destruct (wait_secret_loop_last _ _ _ _ _ _ _ _ _ Hx E) as (before & reg2 & st & ex & Hx2 & Hp & ->).
  destruct (poll_secret_history _ _ _ _ _ _ _ _ _ Hx2 Hp) as (_ & (Hc & Hd & u' & Hu & Hin) & Hn).
  split_and!; [eapply exec_next; [exact Hx2|simpl; by rewrite Hp]|done| |..|done].
  - simpl. rewrite Z.eqb_refl. by rewrite Hd.
  - exists u'. split; [done|]. simpl. by apply list_elem_of_further.
Qed.

Definition example_user : UserContext :=
  mkUser 1000 (lit "alice") (Some (mkSession (lit "c2") (lit ":1.42") 1)).

(** A request that asks for a secret, in the registry of its own execution. *)
Definition example_ops : list registry_op :=
  [OpBegin example_user get_assertion (lit "example.org");
   OpTransition example_user 1 verification_started [];
   OpTransition example_user 1 secret_required (lit "Password:")].

Definition example_turns : list turn :=
  [mkTurn [] false 0; mkTurn [OpSubmit example_user 1 1 (lit "hunter2")] false 5].

(** Prompted, and answered in the second turn. *)
Lemma secret_delivery_witness :
  let reg := exec_ops example_ops interactions_initial in
  let history := wait_secret_events example_user 1 1 (seconds 30) example_turns reg ++
    ops_events example_ops interactions_initial in
  length history = 6%nat ∧
  ∃ u', binding u' = binding example_user ∧
    (OpSubmit u' 1 1 (lit "hunter2"), OutUnit (Ret ())) ∈ history.
Proof.
  cbv zeta. split; [vm_compute; reflexivity|].
  rewrite <- (app_nil_r (ops_events example_ops interactions_initial)).
  refine (proj1 (proj2 (proj2 (proj2 (secret_delivery _ _ example_user 1 1 (seconds 30) 0 example_turns
    (lit "hunter2") (snd (wait_for_secret example_user 1 1 (seconds 30) 0 example_turns
      (exec_ops example_ops interactions_initial)))
    (ops_events_execution example_ops [] _ exec_start) _))))).
  vm_compute. reflexivity.
Defined.

(** A presence wait reports what happened: approval (denial, cancellation by the
    client) only when the agent of the same registration approved (denied, cancelled)
    this very request, and that is the only answer ever accepted for it; a time-out only
    at or after the deadline; a platform cancellation only on a stop request. *)
Theorem presence_wait_faithful h reg u id timeout start env r reg' :
  execution h reg →
  wait_for_presence u id timeout start env reg = (Some (Ret r), reg') →
  ∃ h' reg1 st ex, execution (h' ++ h) reg1 ∧
    match r with
    | pw_approved => sole_answer (h' ++ h) u id (λ u', OpRespond u' id true)
    | pw_denied => sole_answer (h' ++ h) u id (λ u', OpRespond u' id false)
    | pw_client_cancelled => sole_answer (h' ++ h) u id (λ u', OpCancel u' id)
    | pw_platform_cancelled => st = true
    | pw_timed_out => ex = true ∧ st = false
    | pw_invalidated => pending_request reg1 u id = None
    end ∧ poll_presence u id st ex reg1 = (Some r, reg').
Proof.
  intros Hx. unfold wait_for_presence. destruct (timeout <=? 0); [done|].
  destruct (wait_presence_loop _ _ _ _ _) as [[r1|] reg1] eqn:E; [|done].
  intros [= -> <-].
  destruct (wait_presence_loop_turn _ _ _ _ _ _ _ _ Hx E) as (h' & reg2 & st & ex & Hx2 & Hp).
  exists h', reg2, st, ex. split; [done|]. split; [|done].
  pose proof (poll_presence_history _ _ _ _ _ _ _ _ Hx2 Hp) as H. by destruct r; try apply H.
Qed.

Definition example_presence_ops : list registry_op :=
  [OpBegin example_user make_credential (lit "example.org");
   OpTransition example_user 1 presence_required []].

Lemma presence_wait_faithful_witness :
  ∃ h, sole_answer h example_user 1 (λ u', OpRespond u' 1 true).
Proof.
  destruct (exec_ops_execution example_presence_ops [] _ exec_start) as [h Hx].
  destruct (presence_wait_faithful (h ++ []) _ example_user 1 (seconds 30) 0
    [mkTurn [OpRespond example_user 1 true] false 5] pw_approved
    (snd (wait_for_presence example_user 1 (seconds 30) 0
      [mkTurn [OpRespond example_user 1 true] false 5]
      (exec_ops example_presence_ops interactions_initial))) Hx)
    as (h' & reg1 & st & ex & _ & Hs & _).
  { vm_compute. reflexivity. }
  eexists. exact Hs.
Defined.

(** The waits end: whatever other threads do, a wait whose loop gets a turn at or
    after its deadline has returned by then. *)
Theorem waits_end u id p timeout start env reg :
  Exists (λ t, start + timeout ≤ t_now t) env →
  is_Some (fst (wait_for_presence u id timeout start env reg)) ∧
  is_Some (fst (wait_for_secret u id p timeout start env reg)).
Proof.
  intros He. unfold wait_for_presence, wait_for_secret. destruct (timeout <=? 0); [done|].
  destruct (wait_presence_loop_ends u id (start + timeout) env reg He) as [r1 H1].
  destruct (wait_secret_loop_ends u id p (start + timeout) env reg He) as [r2 H2].
  destruct (wait_presence_loop _ _ _ _ _), (wait_secret_loop _ _ _ _ _ _).
  simpl in *. subst. done.
Qed.

Lemma waits_end_witness :
  is_Some (fst (wait_for_presence example_user 1 5 0 [mkTurn [] false 7] interactions_initial)) ∧
  is_Some (fst (wait_for_secret example_user 1 1 5 0 [mkTurn [] false 7] interactions_initial)).
Proof. apply (waits_end example_user 1 1 5 0). constructor. simpl. lia. Defined.

(** Answers are one-shot in every interleaving: at most one answer (a presence
    response or a cancellation) is accepted per request, at most one secret per prompt,
    and each accepted secret is delivered at most once; request and prompt identifiers
    stay within 64 bits and are never reused. *)
Theorem responses_one_shot h reg :
  execution h reg →
  (∀ id, (count (is_answer id) h ≤ 1)%nat) ∧
  (∀ p, (count (is_submit p) h ≤ 1)%nat ∧
        (count (is_delivery p) h ≤ count (is_submit p) h)%nat) ∧
  1 ≤ ir_nextRequestId reg ≤ U64_MAX ∧ 1 ≤ ir_nextPromptId reg ≤ U64_MAX ∧
  (∀ c, ir_current reg = Some c →
     1 ≤ pi_requestId c < ir_nextRequestId reg ∧ 0 ≤ pi_promptId c < ir_nextPromptId reg ∧
     (pi_promptId c ≠ 0 ↔ pi_state c = Some secret_required)).
Proof.
  intros Hok%execution_ok. destruct Hok. split_and!; auto; try lia.
  intros c Hc. destruct (ro_pending0 c Hc). done.
Qed.

Lemma responses_one_shot_witness :
  ∃ h, (∀ id, (count (is_answer id) h ≤ 1)%nat).
Proof.
  destruct (exec_ops_execution example_ops [] _ exec_start) as [h Hx].
  exists (h ++ []). exact (proj1 (responses_one_shot _ _ Hx)).
Defined.
