(* ===== verification/ClientTracker.v ===== *)
(** * The agent's view of an interaction (client/interaction_model.hpp,
    interaction_model.cpp)

    The UI agent parses the state names it receives over D-Bus, tracks which request is
    active and chooses what to show.  [accept] is shown to follow the daemon's registry
    step by step.  The client's [InteractionState] has the daemon's constructors and is
    the same type here. *)
From Stdlib Require Import ZArith Lia.
From stdpp Require Import base list strings relations.
From S2P Require Import Prelude AgentRegistry InteractionRegistry.

(** ** State names *)

Definition parse_interaction_state (state : list Z) : option UserInteractionState :=
  if bool_decide (state = lit "presence_required") then Some presence_required else
  if bool_decide (state = lit "presence_approved") then Some presence_approved else
  if bool_decide (state = lit "presence_denied") then Some presence_denied else
  if bool_decide (state = lit "verification_started") then Some verification_started else
  if bool_decide (state = lit "verification_information")
    then Some verification_information else
  if bool_decide (state = lit "verification_error") then Some verification_error else
  if bool_decide (state = lit "secret_required") then Some secret_required else
  if bool_decide (state = lit "verification_succeeded") then Some verification_succeeded else
  if bool_decide (state = lit "verification_failed") then Some verification_failed else
  if bool_decide (state = lit "cancelled") then Some cancelled else
  if bool_decide (state = lit "timed_out") then Some timed_out else
  None.

Definition client_is_terminal (state : UserInteractionState) : bool :=
  match state with
  | presence_approved | presence_denied | verification_succeeded | verification_failed
  | cancelled | timed_out => true
  | presence_required | verification_started | verification_information
  | verification_error | secret_required => false
  end.

(** ** The tracker *)

Record InteractionEvent := mkEvent {
  ev_generation : Z;
  ev_requestId : Z;
  ev_promptId : Z;
  ev_state : UserInteractionState;
  ev_operation : list Z;
  ev_relyingPartyId : list Z;
  ev_message : list Z;
}.

Record InteractionTracker := mkTracker {
  tk_generation : Z;
  tk_activeRequestId : option Z;
  tk_activePromptId : Z;
}.

Definition tracker_new (generation : Z) : InteractionTracker := mkTracker generation None 0.

Definition starts_interaction (state : UserInteractionState) : bool :=
  bool_decide (state = presence_required) || bool_decide (state = verification_started).

(** [activeRequestId_ == request_id], when there is one. *)
Definition tracks (tk : InteractionTracker) (request_id : Z) : bool :=
  match tk_activeRequestId tk with Some id => id =? request_id | None => false end.

(** The last two parts of [accept], once the request is the active one. *)
Definition accept_prompt (tk : InteractionTracker) (event : InteractionEvent)
    : bool * InteractionTracker :=
  let asks := bool_decide (ev_state event = secret_required) in
  if asks && (ev_promptId event =? tk_activePromptId tk) then (false, tk) else
  let tk' := mkTracker (tk_generation tk) (tk_activeRequestId tk)
    (if asks then ev_promptId event else 0) in
  (true, if client_is_terminal (ev_state event)
         then mkTracker (tk_generation tk) None 0 else tk').

Definition accept (tk : InteractionTracker) (event : InteractionEvent)
    : bool * InteractionTracker :=
  if negb (ev_generation event =? tk_generation tk) || (ev_requestId event =? 0)
  then (false, tk) else
  if negb (Bool.eqb (bool_decide (ev_state event = secret_required))
                    (negb (ev_promptId event =? 0)))
  then (false, tk) else
  if starts_interaction (ev_state event) then
    if bool_decide (is_Some (tk_activeRequestId tk)) && negb (tracks tk (ev_requestId event))
    then (false, tk)
    else accept_prompt (mkTracker (tk_generation tk) (Some (ev_requestId event))
           (tk_activePromptId tk)) event
  else if negb (tracks tk (ev_requestId event)) then (false, tk)
  else accept_prompt tk event.

Definition is_active (tk : InteractionTracker) (request_id : Z) : bool :=
  tracks tk request_id.

(** ** The presentation *)

Inductive ViewKind := view_presence | view_verification | view_secret | view_status.
Inductive AnimationKind := anim_none | anim_waiting | anim_success | anim_failure.

Record UiPresentation := mkPresentation {
  up_view : ViewKind;
  up_animation : AnimationKind;
  up_title : list Z;
  up_message : list Z;
  up_relyingPartyId : list Z;
  up_terminal : bool;
}.

Definition operation_title (operation : list Z) : list Z :=
  if bool_decide (operation = lit "make_credential") then lit "Create a passkey?" else
  if bool_decide (operation = lit "get_assertion") then lit "Use your passkey?" else
  if bool_decide (operation = lit "check_excluded_credential")
    then lit "Confirm your presence" else
  lit "Authorize passkey operation?".

Definition ui_apply (event : InteractionEvent) : UiPresentation :=
  let present view animation title message :=
    mkPresentation view animation title message (ev_relyingPartyId event)
      (client_is_terminal (ev_state event)) in
  match ev_state event with
  | presence_required => present view_presence anim_none (operation_title (ev_operation event))
      (lit "Approve only if you initiated this request.")
  | presence_approved => present view_status anim_none (lit "Approved")
      (lit "The passkey operation was approved.")
  | presence_denied => present view_status anim_none (lit "Denied")
      (lit "The passkey operation was denied.")
  | verification_started => present view_verification anim_waiting
      (lit "Verify your identity") (lit "Follow the verification instructions.")
  | verification_information => present view_verification anim_waiting
      (lit "Verify your identity") (ev_message event)
  | verification_error => present view_verification anim_failure
      (lit "Verification needs attention") (ev_message event)
  | secret_required => present view_secret anim_waiting (lit "Verify your identity")
      (ev_message event)
  | verification_succeeded => present view_verification anim_success
      (lit "Identity verified") (lit "The passkey operation can continue.")
  | verification_failed => present view_verification anim_failure
      (lit "Verification failed") (lit "Your identity could not be verified.")
  | cancelled => present view_status anim_none (lit "Cancelled")
      (lit "The passkey operation was cancelled.")
  | timed_out => present view_status anim_none (lit "Timed out")
      (lit "The passkey operation took too long.")
  end.

(** ** The tracker follows the registry *)

(** The tracker is where the registry is: no interaction that has published a state, or
    the same request with the same outstanding prompt. *)
Definition in_step (reg : InteractionRegistry) (tk : InteractionTracker) : Prop :=
  match ir_current reg with
  | Some c =>
      match pi_state c with
      | Some _ => tk_activeRequestId tk = Some (pi_requestId c) ∧
                  tk_activePromptId tk = pi_promptId c
      | None => tk_activeRequestId tk = None ∧ tk_activePromptId tk = 0
      end
  | None => tk_activeRequestId tk = None ∧ tk_activePromptId tk = 0
  end.

(** The event an operation makes the daemon publish, if any. *)
Definition published (generation : Z) (o : registry_op) (out : outcome)
    : option InteractionEvent :=
  match o, out with
  | OpTransition _ id st m, OutTransition (Ret t) =>
      if shouldPublish t
      then Some (mkEvent generation id (tr_promptId t) st [] [] m) else None
  | _, _ => None
  end.

(** The operation does not drop an interaction the agent has been told about. *)
Definition keeps_agent_informed (o : registry_op) (reg : InteractionRegistry) : Prop :=
  match o, ir_current reg with
  | (OpEnd _ _ | OpClearFor _), Some c => pi_state c = None
  | _, _ => True
  end.

Lemma transition_published u id st m reg t reg' :
  transition u id st m reg = (Ret t, reg') → shouldPublish t = true →
  ∃ c, pending_request reg u id = Some c ∧ id ≠ 0 ∧
    valid_transition (pi_state c) st = true ∧ (t, reg') = apply_transition c st m reg.
Proof.
  unfold transition. intros E Hp.
  destruct (pending_nonzero reg u id) as [c|] eqn:Ep; [|done].
  apply pending_nonzero_Some in Ep as [Hnz Hc].
  destruct (negb (valid_transition (pi_state c) st)) eqn:Ev; [done|].
  destruct (negb (accepts_message st) && _); [done|].
  destruct (_ <? _); [done|]. destruct (bool_decide (st = secret_required) && _); [done|].
  destruct (pi_cancelRequested c && _); [by injection E as <- <-|].
  destruct (apply_transition c st m reg) as [t1 reg1] eqn:Ea. injection E as <- <-.
  exists c. apply negb_false_iff in Ev. done.
Qed.

Lemma starts_valid prev st :
  valid_transition prev st = true → starts_interaction st = true →
  prev = None ∨ ∃ p, prev = Some p ∧ is_verification_progress p = true.
Proof. destruct prev as [[]|], st; vm_compute; eauto; done. Qed.

Lemma continues_valid prev st :
  valid_transition prev st = true → starts_interaction st = false → is_Some prev.
Proof. destruct prev; [done|]. by destruct st. Qed.

(** The registry accepts the transition, so does the tracker. *)
Lemma accept_transition h reg tk c st m t reg' :
  registry_ok h reg → in_step reg tk → ir_current reg = Some c →
  valid_transition (pi_state c) st = true → (t, reg') = apply_transition c st m reg →
  ∃ tk', accept tk (mkEvent (tk_generation tk) (pi_requestId c) (tr_promptId t) st [] [] m) =
    (true, tk') ∧ in_step reg' tk' ∧ tk_generation tk' = tk_generation tk.
Proof.
  intros Hok Hin Hc Hv E. unfold apply_transition in E. injection E as -> ->.
  pose proof (ro_pending _ _ Hok c Hc) as Hpo.
  pose proof (po_request _ _ _ Hpo) as Hreq. pose proof (po_prompt _ _ _ Hpo) as Hpr.
  pose proof (ro_prompt _ _ Hok) as Hnext.
  unfold in_step in Hin. rewrite Hc in Hin.
  unfold accept. cbn [ev_generation ev_requestId ev_promptId ev_state tr_promptId].
  rewrite Z.eqb_refl, (proj2 (Z.eqb_neq (pi_requestId c) 0)) by lia. simpl orb. cbv iota.
  assert (Bool.eqb (bool_decide (st = secret_required))
    (negb ((if bool_decide (st = secret_required) then ir_nextPromptId reg else 0) =? 0)) = true)
    as ->.
  { case_bool_decide; [|done]. by rewrite (proj2 (Z.eqb_neq _ _)) by lia. }
  simpl negb. cbv iota.
  assert (∀ tk0, tk_generation tk0 = tk_generation tk →
    tk_activeRequestId tk0 = Some (pi_requestId c) → tk_activePromptId tk0 < ir_nextPromptId reg →
    ∃ tk', accept_prompt tk0 (mkEvent (tk_generation tk) (pi_requestId c)
        (if bool_decide (st = secret_required) then ir_nextPromptId reg else 0) st [] [] m) =
      (true, tk') ∧
      in_step (snd (apply_transition c st m reg)) tk' ∧ tk_generation tk' = tk_generation tk)
    as Hprompt.
  { intros tk0 Hg Hid Hp. unfold accept_prompt. cbn [ev_state ev_promptId].
    assert (bool_decide (st = secret_required) &&
      ((if bool_decide (st = secret_required) then ir_nextPromptId reg else 0) =?
       tk_activePromptId tk0) = false) as ->.
    { case_bool_decide; [|done]. simpl. apply Z.eqb_neq. lia. }
    eexists. split; [done|]. unfold apply_transition. simpl snd.
    destruct st; simpl; (split; [|done]); unfold in_step; simpl; rewrite ?Hid; done. }
  destruct (starts_interaction st) eqn:Est.
  - assert (tk_activePromptId tk < ir_nextPromptId reg ∧
      (tk_activeRequestId tk = None ∨ tk_activeRequestId tk = Some (pi_requestId c)))
      as [Hlt Hact].
    { destruct (pi_state c); destruct Hin as [-> ->]; split; (lia || auto). }
    assert (bool_decide (is_Some (tk_activeRequestId tk)) && negb (tracks tk (pi_requestId c))
      = false) as ->.
    { unfold tracks. destruct Hact as [-> | ->]; [done|]. by rewrite Z.eqb_refl, andb_false_r. }
    by apply Hprompt.
  - destruct (continues_valid _ _ Hv Est) as [prev Hprev]. rewrite Hprev in Hin.
    destruct Hin as [Hid Hp]. unfold tracks. rewrite Hid, Z.eqb_refl. simpl.
    apply Hprompt; [done|done|lia].
Qed.

(** Operations that publish nothing leave the two in step. *)
Lemma in_step_update reg reg' tk c c' :
  in_step reg tk → ir_current reg = Some c → ir_current reg' = Some c' →
  pi_requestId c' = pi_requestId c → pi_promptId c' = pi_promptId c → pi_state c' = pi_state c →
  in_step reg' tk.
Proof.
  unfold in_step. intros H Hc Hc' Hr Hp Hs. rewrite Hc in H. by rewrite Hc', Hr, Hp, Hs.
Qed.

Lemma in_step_quiet g o out reg reg' tk :
  in_step reg tk → exec_op o reg = (out, reg') → keeps_agent_informed o reg →
  published g o out = None → in_step reg' tk.
Proof.
  intros Hin E Hk Hp.
  destruct o as [u op rp|u id st m|u id b|u id p s|u id|u id st ex|u id p st ex|u id|u]; simpl in *.
  - unfold begin in E. destruct (ir_current reg) eqn:Hc; [by injection E as <- <-|].
    destruct (_ || _); [by injection E as <- <-|]. injection E as <- <-.
    unfold in_step in *. by rewrite Hc in Hin.
  - destruct (transition u id st m reg) as [r reg1] eqn:Et. injection E as <- <-.
    unfold transition in Et.
    destruct (pending_nonzero reg u id) as [c|]; [|by injection Et as <- <-].
    destruct (negb (valid_transition _ _)); [by injection Et as <- <-|].
    destruct (negb (accepts_message st) && _); [by injection Et as <- <-|].
    destruct (_ <? _); [by injection Et as <- <-|].
    destruct (bool_decide (st = secret_required) && _); [by injection Et as <- <-|].
    destruct (pi_cancelRequested c && _); [by injection Et as <- <-|].
    destruct (apply_transition c st m reg) as [t reg2] eqn:Ea. injection Et as <- <-.
    unfold apply_transition in Ea. injection Ea as <- _. done.
  - unfold respond_to_presence in E.
    destruct (pending_nonzero reg u id) as [c|] eqn:Ep; [|by injection E as <- <-].
    apply pending_nonzero_Some in Ep as [_ (Hc & _)%pending_request_Some].
    destruct (negb _ || _); [by injection E as <- <-|]. injection E as <- <-.
    by eapply in_step_update.
  - unfold submit_secret in E.
    destruct (pending_nonzero reg u id) as [c|] eqn:Ep; [|by injection E as <- <-].
    apply pending_nonzero_Some in Ep as [_ (Hc & _)%pending_request_Some].
    destruct (_ || pi_cancelRequested c); [by injection E as <- <-|]. injection E as <- <-.
    by eapply in_step_update.
  - unfold request_cancel in E.
    destruct (pending_nonzero reg u id) as [c|] eqn:Ep; [|by injection E as <- <-].
    apply pending_nonzero_Some in Ep as [_ (Hc & _)%pending_request_Some].
    destruct (negb _ || _); [by injection E as <- <-|]. injection E as <- <-.
    by eapply in_step_update.
  - unfold poll_presence in E.
    destruct (pending_request reg u id) as [c|] eqn:Ep; [|by injection E as <- <-].
    apply pending_request_Some in Ep as (Hc & _).
    destruct st; [injection E as <- <-; by eapply in_step_update|].
    destruct (pi_cancelRequested c); [by injection E as <- <-|].
    destruct (pi_presenceResponse c) as [[]|]; [by injection E as <- <-..|].
    destruct ex; [injection E as <- <-; by eapply in_step_update|by injection E as <- <-].
  - unfold poll_secret in E.
    destruct (pending_request reg u id) as [c|] eqn:Ep; [|by injection E as <- <-].
    apply pending_request_Some in Ep as (Hc & _).
    destruct (_ || _); [by injection E as <- <-|].
    destruct st; [injection E as <- <-; by eapply in_step_update|].
    destruct (pi_cancelRequested c); [by injection E as <- <-|].
    destruct (ir_secretResponse reg); [by injection E as <- <-|].
    destruct ex; [injection E as <- <-; by eapply in_step_update|by injection E as <- <-].
  - unfold end_request in E. unfold keeps_agent_informed in Hk.
    destruct (pending_nonzero reg u id) as [c|] eqn:Ep; injection E as <- <-; [|done].
    apply pending_nonzero_Some in Ep as [_ (Hc & _)%pending_request_Some].
    unfold in_step in *. rewrite Hc in Hin, Hk. by rewrite Hk in Hin.
  - injection E as <- <-. unfold clear_for, keeps_agent_informed in *.
    destruct (ir_current reg) as [c|] eqn:Hc; [|done].
    destruct (same_user _ _); [|done]. unfold in_step in *. rewrite Hc in Hin.
    by rewrite Hk in Hin.
Qed.

(** The daemon's operations with the agent fed every event they publish. *)
Inductive dialogue (g : Z) : list event → InteractionRegistry → InteractionTracker → Prop :=
  | dl_start : dialogue g [] interactions_initial (tracker_new g)
  | dl_quiet h reg tk o out reg' :
      dialogue g h reg tk → exec_op o reg = (out, reg') → keeps_agent_informed o reg →
      published g o out = None → dialogue g ((o, out) :: h) reg' tk
  | dl_event h reg tk o out reg' e :
      dialogue g h reg tk → exec_op o reg = (out, reg') →
      published g o out = Some e → dialogue g ((o, out) :: h) reg' (snd (accept tk e)).

Lemma published_accepted g h reg tk o out reg' e :
  registry_ok h reg → in_step reg tk → tk_generation tk = g →
  exec_op o reg = (out, reg') → published g o out = Some e →
  ∃ tk', accept tk e = (true, tk') ∧ in_step reg' tk' ∧ tk_generation tk' = g.
Proof.
  intros Hok Hin Hg E Hp. destruct o; try done; simpl in E.
  destruct (transition _ _ _ _ reg) as [r reg1] eqn:Et. injection E as <- <-.
  simpl in Hp. destruct r as [t|]; [|done]. destruct (shouldPublish t) eqn:Es; [|done].
  injection Hp as <-.
  destruct (transition_published _ _ _ _ _ _ _ Et Es) as (c & Hc & Hnz & Hv & Ha).
  apply pending_request_Some in Hc as (Hc & <- & _). rewrite <- Hg.
  by eapply accept_transition.
Qed.

Lemma dialogue_execution g h reg tk : dialogue g h reg tk → execution h reg.
Proof. induction 1; [constructor|by eapply exec_next..]. Qed.

Lemma dialogue_in_step g h reg tk : dialogue g h reg tk → in_step reg tk ∧ tk_generation tk = g.
Proof.
  induction 1 as [|h reg tk o out reg' Hd [IH Hg] E Hk Hp|h reg tk o out reg' e Hd [IH Hg] E Hp];
    [done|split; [by eapply in_step_quiet|done]|].
  apply dialogue_execution, execution_ok in Hd.
  destruct (published_accepted g h reg tk o out reg' e Hd IH Hg E Hp) as (tk' & Ha & Hi & Hg').
  rewrite Ha. done.
Qed.

(** ** Properties *)

(** The agent never refuses what the daemon publishes: as long as the daemon drops no
    interaction it has announced without publishing its end, every published event is
    accepted by the agent's tracker, which is then active on exactly the request that is
    pending in the daemon, with the same outstanding prompt. *)
Theorem agent_follows_daemon g h reg tk :
  dialogue g h reg tk →
  in_step reg tk ∧
  (∀ o out reg' e, exec_op o reg = (out, reg') → published g o out = Some e →
     ∃ tk', accept tk e = (true, tk') ∧ in_step reg' tk').
Proof.
  intros Hd. destruct (dialogue_in_step _ _ _ _ Hd) as [Hin Hg]. split; [done|].
  intros o out reg' e E Hp. apply dialogue_execution, execution_ok in Hd.
  destruct (published_accepted g h reg tk o out reg' e Hd Hin Hg E Hp) as (tk' & ? & ? & _).
  by exists tk'.
Qed.

Lemma agent_follows_daemon_witness :
  ∃ tk', accept (tracker_new 1) (mkEvent 1 1 0 verification_started [] [] []) = (true, tk').
Proof.
  destruct (exec_op (OpBegin example_user get_assertion []) interactions_initial)
    as [out reg] eqn:E.
  assert (dialogue 1 [(OpBegin example_user get_assertion [], out)] reg (tracker_new 1)) as Hd.
  { eapply dl_quiet; [constructor|exact E|exact I|]. by vm_compute in E; injection E as <- _. }
  destruct (agent_follows_daemon 1 _ reg _ Hd) as [_ H].
  vm_compute in E. injection E as <- <-.
  destruct (H (OpTransition example_user 1 verification_started []) _ _ _ eq_refl eq_refl)
    as (tk' & Ha & _).
  by exists tk'.
Defined.

(** The states travel over D-Bus by name. *)
Lemma parse_state_name st : parse_interaction_state (user_interaction_state_name st) = Some st.
Proof. by destruct st. Qed.

(** State names are read back as the state they name, and nothing else is read as
    a state. *)
Theorem state_name_roundtrip s st :
  parse_interaction_state s = Some st ↔ s = user_interaction_state_name st.
Proof.
  split; [|intros ->; apply parse_state_name].
  unfold parse_interaction_state. intros H.
  repeat (case_bool_decide; [by injection H as <-|]). done.
Qed.

(** ** Events that no longer get through *)

(** Outcomes and published events of a run, oldest first. *)
Fixpoint run_ops (ops : list registry_op) (reg : InteractionRegistry)
    : list (outcome * option InteractionEvent) :=
  match ops with
  | [] => []
  | o :: ops => let '(out, reg') := exec_op o reg in (out, published 1 o out) :: run_ops ops reg'
  end.

(** The events that the daemon publishes while it runs these operations. *)
Fixpoint published_events (g : Z) (ops : list registry_op) (reg : InteractionRegistry)
    : list InteractionEvent :=
  match ops with
  | [] => []
  | o :: ops =>
      let '(out, reg') := exec_op o reg in
      option_list (published g o out) ++ published_events g ops reg'
  end.

(** The requests that are pending or to come have identifiers of at least [n]. *)
Definition requests_from (n : Z) (reg : InteractionRegistry) : Prop :=
  n ≤ ir_nextRequestId reg ≤ U64_MAX ∧ ∀ c, ir_current reg = Some c → n ≤ pi_requestId c.

Lemma requests_from_pending n reg u id c :
  requests_from n reg → pending_request reg u id = Some c → n ≤ pi_requestId c.
Proof. intros [_ Hr] (Hc & _)%pending_request_Some. by apply Hr. Qed.

Lemma requests_from_step n o reg out reg' :
  1 ≤ n → requests_from n reg → exec_op o reg = (out, reg') → requests_from n reg'.
Proof.
  intros Hn Hr E. pose proof Hr as [Hnext Hcur].
  assert (∀ u id c c', pending_request reg u id = Some c → pi_requestId c' = pi_requestId c →
    ∀ s p, requests_from n (mkInteractions (Some c') s (ir_nextRequestId reg) p)) as Hset.
  { intros u id c c' Hp Hid s p. split; [done|]. intros d [= <-]. rewrite Hid.
    by eapply requests_from_pending. }
  assert (∀ s p, requests_from n (mkInteractions None s (ir_nextRequestId reg) p)) as Hdrop.
  { intros s p. by split. }
  assert (∀ u id c, pending_nonzero reg u id = Some c → pending_request reg u id = Some c) as Hnz.
  { by intros u id c [_ ?]%pending_nonzero_Some. }
  destruct o; simpl in E; repeat case_match; simplify_eq; try done;
    unfold begin, transition, respond_to_presence, submit_secret, request_cancel, poll_presence,
      poll_secret, end_request, clear_for, apply_transition, drop_current in *;
    repeat case_match; simplify_eq; try done; eauto.
  split; [|intros c [= <-]; simpl; lia]. reflect_bools. simpl.
  rewrite u64_small by (unfold U64_MAX in *; lia). unfold U64_MAX in *. lia.
Qed.

Lemma published_from n g o reg out reg' e :
  requests_from n reg → exec_op o reg = (out, reg') → published g o out = Some e →
  n ≤ ev_requestId e.
Proof.
  intros Hr E Hp. destruct o; try done; simpl in E.
  destruct (transition _ _ _ _ reg) as [r reg1] eqn:Et. injection E as <- <-.
  simpl in Hp. destruct r as [t|]; [|done]. destruct (shouldPublish t) eqn:Es; [|done].
  injection Hp as <-.
  destruct (transition_published _ _ _ _ _ _ _ Et Es) as (c & Hc & _).
  pose proof (requests_from_pending _ _ _ _ _ Hr Hc).
  by apply pending_request_Some in Hc as (_ & <- & _).
Qed.

Lemma published_events_from n g ops reg :
  1 ≤ n → requests_from n reg → Forall (λ e, n ≤ ev_requestId e) (published_events g ops reg).
Proof.
  intros Hn. revert reg. induction ops as [|o ops IH]; intros reg Hr; simpl; [done|].
  destruct (exec_op o reg) as [out reg'] eqn:E. apply Forall_app. split.
  - destruct (published g o out) as [e|] eqn:Ep; [|done]. constructor; [|done]. by eapply published_from.
  - apply IH. by eapply requests_from_step.
Qed.

(** A tracker that is on a request refuses the events of all others. *)
Lemma accept_other tk id e :
  tk_activeRequestId tk = Some id → ev_requestId e ≠ id → accept tk e = (false, tk).
Proof.
  intros Hid Hne. unfold accept, tracks. rewrite Hid, (proj2 (Z.eqb_neq id (ev_requestId e))) by congruence.
  repeat case_match; done.
Qed.

(** C32: A cancellation that comes too late leaves the agent behind for good.  Take any run of
    the daemon that its agent has followed up to a verification in progress, and let the
    agent's cancellation be accepted.  If the verifier client has made its last check, the
    daemon goes on to report the end of the verification: that is suppressed, since the
    cancellation is recorded, and the interaction is then ended without an event.  From there
    on, whatever happens and however many interactions follow, the agent's tracker refuses
    every event that the daemon publishes -- and the next interaction does begin and publish:
    its first event is of another request than the one the tracker waits for. *)
Theorem late_cancel_strands_agent g h reg tk c u id reg1 st :
  dialogue g h reg tk → ir_current reg = Some c →
  from_option is_verification_progress false (pi_state c) = true →
  request_cancel u id reg = (Ret (), reg1) →
  st = verification_succeeded ∨ st = verification_failed →
  ∃ reg2, transition u id st [] reg1 = (Ret (mkTransition false 0), reg1) ∧
    end_request u id reg1 = (true, reg2) ∧
    (∀ ops, Forall (λ e, accept tk e = (false, tk)) (published_events g ops reg2)) ∧
    (∀ u' operation rp st', ir_nextRequestId reg2 ≠ U64_MAX → starts_interaction st' = true →
       ∃ e, published_events g [OpBegin u' operation rp;
              OpTransition u' (ir_nextRequestId reg2) st' []] reg2 = [e] ∧ ev_requestId e ≠ id).
Proof.
  intros Hd Hc Hst Hcancel Hend. destruct (dialogue_in_step _ _ _ _ Hd) as [Hin Hg].
  apply dialogue_execution, execution_ok in Hd as Hok.
  pose proof (po_request _ _ _ (ro_pending _ _ Hok c Hc)) as Hreq.
  pose proof (ro_request _ _ Hok) as Hnext.
  unfold request_cancel in Hcancel.
  destruct (pending_nonzero reg u id) as [c'|] eqn:Ep; [|done].
  apply pending_nonzero_Some in Ep as [Hnz Hp]. pose proof Hp as (Hc' & <- & Hu)%pending_request_Some.
  rewrite Hc in Hc'. injection Hc' as <-.
  destruct (negb _ || _); [done|]. injection Hcancel as <-.
  assert (tk_activeRequestId tk = Some (pi_requestId c)) as Htk.
  { unfold in_step in Hin. rewrite Hc in Hin. by destruct (pi_state c); destruct Hin. }
  assert (∀ x, pi_requestId x = pi_requestId c → pi_user x = pi_user c →
    pending_nonzero (set_current reg (Some x)) u (pi_requestId c) = Some x) as Hpend.
  { intros x Ex Eu. unfold pending_nonzero, pending_request. simpl.
    rewrite (proj2 (Z.eqb_neq _ _)) by done. rewrite Ex, Z.eqb_refl, Eu.
    unfold pending_request in Hp. rewrite Hc, Z.eqb_refl in Hp.
    destruct (same_user (pi_user c) u); [done|by simpl in Hp]. }
  eexists. split_and!.
  - unfold transition. rewrite Hpend by done. simpl.
    destruct (pi_state c) as [p|]; [|done]. destruct Hend as [-> | ->]; by destruct p.
  - unfold end_request. by rewrite Hpend.
  - intros ops. eapply Forall_impl; [apply (published_events_from (ir_nextRequestId reg)); [lia|]|].
    + split; [simpl; lia|done].
    + intros e He. apply accept_other with (pi_requestId c); [done|]. simpl in He. lia.
  - intros u' operation rp st' Hmax Hs. simpl in Hmax |- *. unfold begin. simpl.
    rewrite (proj2 (Z.eqb_neq _ _) Hmax), (proj2 (Z.eqb_neq (ir_nextRequestId reg) 0)) by lia. simpl.
    unfold transition, pending_nonzero, pending_request. simpl.
    rewrite (proj2 (Z.eqb_neq (ir_nextRequestId reg) 0)), Z.eqb_refl,
      (proj2 (same_user_binding _ _) eq_refl) by lia.
    eexists. destruct st'; try done; (split; [reflexivity|simpl; lia]).
Qed.

(** A verification that succeeds just as the agent cancels. *)
Definition started_ops : list registry_op :=
  [OpBegin example_user get_assertion []; OpTransition example_user 1 verification_started []].

Lemma late_cancel_strands_agent_witness :
  let reg := exec_ops started_ops interactions_initial in
  let reg1 := (request_cancel example_user 1 reg).2 in
  ∃ reg2, transition example_user 1 verification_succeeded [] reg1 = (Ret (mkTransition false 0), reg1) ∧
    end_request example_user 1 reg1 = (true, reg2) ∧
    ∀ ops, Forall (λ e, accept (mkTracker 1 (Some 1) 0) e = (false, mkTracker 1 (Some 1) 0))
      (published_events 1 ops reg2).
Proof.
  cbv zeta. set (reg := exec_ops started_ops interactions_initial).
  assert (∃ h, dialogue 1 h reg (mkTracker 1 (Some 1) 0)) as [h Hd].
  { eexists. change (mkTracker 1 (Some 1) 0) with
      (accept (tracker_new 1) (mkEvent 1 1 0 verification_started [] [] [])).2.
    eapply (dl_event _ _ _ _ (OpTransition example_user 1 verification_started []));
      [eapply (dl_quiet _ _ _ _ (OpBegin example_user get_assertion []));
       [constructor|reflexivity|exact I|reflexivity]|reflexivity|reflexivity]. }
  destruct (late_cancel_strands_agent 1 h reg (mkTracker 1 (Some 1) 0)
    (mkPending 1 (binding example_user) get_assertion [] (Some verification_started) [] 0 None
      false false false) example_user 1 (request_cancel example_user 1 reg).2
    verification_succeeded Hd eq_refl eq_refl eq_refl (or_introl eq_refl))
    as (reg2 & H1 & H2 & H3 & _).
  exists reg2. exact (conj H1 (conj H2 H3)).
Defined.
