(* ===== verification/AgentService.v ===== *)
(** * The D-Bus agent service (src/src/session_validation.cpp,
    src/src/dbus/peer_credentials.cpp, secret_pipe.cpp, agent_service.cpp)

    The service owns the agent registry, the interaction registry and the queue of
    state events.  The D-Bus methods check who calls before they touch the registries;
    the channel methods are called by the authenticator.  systemd-logind, the account
    database and the message bus are not part of the sources: what they answer is an
    argument ([Login], [BusCall], [Accounts]). *)
From Stdlib Require Import ZArith Lia.
From stdpp Require Import base list strings relations.
From S2P Require Import Prelude VerifierProtocol AgentRegistry InteractionRegistry.

(** ** Login sessions (session_validation.cpp) *)

(** What [sd_session_get_uid], [sd_session_is_active] and [sd_session_is_remote] answer
    at the moment of the call: a negative result is an error. *)
Record Login := mkLogin {
  sd_session_get_uid : list Z → Z * Z;
  sd_session_is_active : list Z → Z;
  sd_session_is_remote : list Z → Z;
}.

Record LoginSessionProperties := mkProps {
  lp_uid : Z;
  lp_active : bool;
  lp_remote : bool;
}.

Definition query_login_session (login : Login) (session_id : list Z)
    : res LoginSessionProperties :=
  throw_if (len session_id =? 0) as invalid_argument ;;
  let '(uid_result, uid) := sd_session_get_uid login session_id in
  throw_if uid_result <? 0 as system_error ;;
  let active := sd_session_is_active login session_id in
  throw_if active <? 0 as system_error ;;
  let remote := sd_session_is_remote login session_id in
  throw_if remote <? 0 as system_error ;;
  Ret (mkProps uid (0 <? active) (0 <? remote)).

Definition validate_active_local_session (session : LoginSessionProperties)
    (expected_uid : Z) : res () :=
  throw_if negb (lp_uid session =? expected_uid) as runtime_error ;;
  throw_if negb (lp_active session) as runtime_error ;;
  throw_if lp_remote session as runtime_error ;;
  Ret ().

Definition require_active_local_session (login : Login) (session_id : list Z)
    (expected_uid : Z) : res () :=
  session ← query_login_session login session_id;
  validate_active_local_session session expected_uid.

Definition is_active_local_session (login : Login) (session_id : list Z)
    (expected_uid : Z) : bool :=
  is_ret (require_active_local_session login session_id expected_uid).

(** ** The secret pipe (secret_pipe.cpp) *)

(** What the calls on the descriptor answer: its number, [fstat], whether it is a
    FIFO, the two [fcntl] calls, and each [read]. *)
Inductive read_result :=
  | ReadBytes (data : list Z)
  | ReadEintr
  | ReadEagain
  | ReadError.

Record SecretPipe := mkPipe {
  sp_fd : Z;
  sp_stat_ok : bool;
  sp_is_fifo : bool;
  sp_fcntl_ok : bool;
  sp_reads : list read_result;
}.

(** [while(true)] over the answers of [read], which delivers at most the room left in
    the buffer of [MAX_SECRET_SIZE + 1] bytes; [count == 0] ends the loop, and so does
    the end of the list, which stands for end of file. *)
Fixpoint read_pipe_loop (used : list Z) (reads : list read_result) : res (list Z) :=
  match reads with
  | [] => Ret used
  | ReadBytes data :: reads =>
      let data := take (Z.to_nat (MAX_SECRET_SIZE + 1 - len used)) data in
      if 0 <? len data then
        let used := used ++ data in
        throw_if MAX_SECRET_SIZE <? len used as invalid_argument ;;
        read_pipe_loop used reads
      else Ret used
  | ReadEintr :: reads => read_pipe_loop used reads
  | ReadEagain :: _ => Throw invalid_argument
  | ReadError :: _ => Throw system_error
  end.

Definition read_secret_pipe (pipe : SecretPipe) : res (list Z) :=
  throw_if sp_fd pipe <? 0 as invalid_argument ;;
  throw_if negb (sp_stat_ok pipe) as system_error ;;
  throw_if negb (sp_is_fifo pipe) as invalid_argument ;;
  throw_if negb (sp_fcntl_ok pipe) as system_error ;;
  secret ← read_pipe_loop [] (sp_reads pipe);
  throw_if contains_nul secret as invalid_argument ;;
  Ret secret.

(** ** Peers (peer_credentials.cpp and [resolve_peer]) *)

(** A method call: [getSender()] (a null pointer is [None]) and the credentials the bus
    attaches. *)
Record BusCall := mkCall {
  call_sender : option (list Z);
  call_euid : res Z;
  call_pid : res Z;
}.

(** logind's answer to [GetSessionByPID] and [Id], and [getpwuid_r]. *)
Record Accounts := mkAccounts {
  session_by_pid : Z → res (list Z);
  username_for_uid : Z → res (list Z);
}.

(** [sender == nullptr || sender[0] != ':'] *)
Definition not_unique_name (sender : option (list Z)) : bool :=
  match sender with
  | None => true
  | Some s => negb (byte_at s 0 =? COLON)
  end.

Record AuthenticatedBusPeer := mkBusPeer { bp_uid : Z; bp_pid : Z; bp_name : list Z }.

Definition authenticate_bus_peer (call : BusCall) : res AuthenticatedBusPeer :=
  throw_if not_unique_name (call_sender call) as runtime_error ;;
  uid ← call_euid call;
  pid ← call_pid call;
  throw_if pid <=? 0 as runtime_error ;;
  Ret (mkBusPeer uid pid (default [] (call_sender call))).

Definition login_session_for_bus_peer (accounts : Accounts) (pid : Z) : res (list Z) :=
  throw_if (pid <=? 0) || (U32_MAX <? pid) as invalid_argument ;;
  session_id ← session_by_pid accounts pid;
  throw_if len session_id =? 0 as runtime_error ;;
  Ret session_id.

Definition resolve_peer (login : Login) (accounts : Accounts) (call : BusCall)
    : res AgentPeer :=
  authenticated ← authenticate_bus_peer call;
  let uid := bp_uid authenticated in
  throw_if U32_MAX <? uid as runtime_error ;;
  session ← login_session_for_bus_peer accounts (bp_pid authenticated);
  _ ← require_active_local_session login session uid;
  name ← username_for_uid accounts uid;
  Ret (mkPeer (u32 uid) name session (bp_name authenticated)).

Definition session_is_still_active (login : Login) (context : UserContext) : bool :=
  match uc_session context with
  | None => false
  | Some s => is_active_local_session login (ss_sessionId s) (uc_uid context)
  end.

(** ** The service state *)

Record StateEvent := mkStateEvent {
  se_user : UserContext;
  se_requestId : Z;
  se_promptId : Z;
  se_operation : UserInteractionOperation;
  se_state : UserInteractionState;
  se_relyingPartyId : list Z;
  se_message : list Z;
}.

Record Service := mkService {
  sv_registry : AgentRegistry;
  sv_interactions : InteractionRegistry;
  sv_events : list StateEvent;
  sv_failed : bool;
}.

Definition service_initial : Service :=
  mkService agents_initial interactions_initial [] false.

Definition set_registry (s : Service) (r : AgentRegistry) : Service :=
  mkService r (sv_interactions s) (sv_events s) (sv_failed s).
Definition set_interactions (s : Service) (i : InteractionRegistry) : Service :=
  mkService (sv_registry s) i (sv_events s) (sv_failed s).

(** Running an operation of one of the registries. *)
Definition on_registry {A} (m : ST AgentRegistry A) : ST Service A := λ s,
  let '(r, reg) := m (sv_registry s) in (r, set_registry s reg).
Definition on_interactions {A} (m : ST InteractionRegistry A) : ST Service A := λ s,
  let '(r, reg) := m (sv_interactions s) in (r, set_interactions s reg).

Definition throw_if_failed : ST Service () := λ s,
  if sv_failed s then (Throw runtime_error, s) else (Ret (), s).

(** [interactions_.clear_for(context); registry_.unregister_agent(bus_name);] *)
Definition discard_agent (context : UserContext) (bus_name : list Z) (s : Service) : Service :=
  mkService (snd (unregister_agent bus_name (sv_registry s)))
    (clear_for context (sv_interactions s)) (sv_events s) (sv_failed s).

(** [context->session->interactionAgentId] *)
Definition agent_bus_name (context : UserContext) : list Z :=
  match uc_session context with Some s => ss_interactionAgentId s | None => [] end.

(** ** The channel the authenticator uses *)

Definition AGENT_STARTUP_GRACE : Z := seconds 2.

(** What [current_context] does once the wait has returned [context]. *)
Definition current_context_after_wait (login : Login) (context : option UserContext)
    : ST Service (option UserContext) :=
  let! _ := throw_if_failed in
  match context with
  | None => st_ret None
  | Some c =>
      if session_is_still_active login c then st_ret (Some c)
      else λ s, (Ret None, discard_agent c (agent_bus_name c) s)
  end.

(** [start] is the time of the call, [wakeups] the states the wait finds; [None] is
    still waiting. *)
Definition service_current_context (login : Login) (start : Z) (wakeups : list (Z * Service))
    (s : Service) : option (res (option UserContext) * Service) :=
  match throw_if_failed s with
  | (Throw e, s) => Some (Throw e, s)
  | (Ret _, s) =>
      match wait_for_current sv_registry s (start + AGENT_STARTUP_GRACE) wakeups with
      | None => None
      | Some (context, s') => Some (current_context_after_wait login context s')
      end
  end.

Definition begin_interaction (user : UserContext) (request : UserInteractionRequest)
    : ST Service Z :=
  let! _ := throw_if_failed in
  if negb (uir_requestId request =? 0) then st_throw invalid_argument else
  let! s := st_get in
  if negb (bool_decide (is_Some (uc_session user))) || negb (is_current (sv_registry s) user)
  then st_ret 0
  else on_interactions (begin user (uir_operation request) (uir_relyingPartyId request)).

Definition publish_state (user : UserContext) (request : UserInteractionRequest)
    (state : UserInteractionState) (message : list Z) : ST Service Z :=
  let! _ := throw_if_failed in
  let! s := st_get in
  if (uir_requestId request =? 0) || negb (bool_decide (is_Some (uc_session user))) ||
     negb (is_current (sv_registry s) user)
  then st_ret 0 else
  let! t := on_interactions (transition user (uir_requestId request) state message) in
  if negb (shouldPublish t) then st_ret 0 else
  let! _ := st_modify (λ s, mkService (sv_registry s) (sv_interactions s)
    (sv_events s ++ [mkStateEvent user (uir_requestId request) (tr_promptId t)
       (uir_operation request) state (uir_relyingPartyId request) message]) (sv_failed s)) in
  st_ret (tr_promptId t).

Definition end_interaction (user : UserContext) (request : UserInteractionRequest)
    (s : Service) : Service :=
  set_interactions s (snd (end_request user (uir_requestId request) (sv_interactions s))).

(** The answers of the two waits, as the channel reports them. *)
Definition presence_result (r : PresenceWaitResult) : res UserInteractionResult :=
  match r with
  | pw_approved => Ret ui_approved
  | pw_denied => Ret ui_denied
  | pw_timed_out => Throw UserActionTimedOut
  | pw_client_cancelled => Ret ui_cancelled
  | pw_platform_cancelled => Throw OperationCancelled
  | pw_invalidated => Throw UserInteractionUnavailable
  end.

Definition secret_result (r : SecretWaitResult) : res (list Z) :=
  match sw_status r with
  | sw_provided => Ret (sw_secret r)
  | sw_timed_out => Throw UserActionTimedOut
  | sw_client_cancelled => Throw UserInteractionCancelled
  | sw_platform_cancelled => Throw OperationCancelled
  | sw_invalidated => Throw UserInteractionUnavailable
  end.

Definition service_cancellation_requested (user : UserContext)
    (request : UserInteractionRequest) (s : Service) : bool :=
  if sv_failed s then true else
  if negb (is_current (sv_registry s) user) then true else
  cancellation_requested user (uir_requestId request) (sv_interactions s).

(** ** The D-Bus methods

    Each handler catches every [std::exception] and answers with an error reply: the
    exception is the [Throw] of the result, the state is what the handler left. *)

Definition registered_caller (login : Login) (call : BusCall) (generation : Z)
    : ST Service UserContext := λ s,
  match ar_current (sv_registry s) with
  | Some current =>
      match uc_session current with
      | Some session =>
          if not_unique_name (call_sender call) ||
             negb (bool_decide (Some (ss_interactionAgentId session) = call_sender call)) ||
             negb (ss_generation session =? generation)
          then (Throw runtime_error, s)
          else if negb (session_is_still_active login current)
          then (Throw runtime_error, discard_agent current (default [] (call_sender call)) s)
          else (Ret current, s)
      | None => (Throw runtime_error, s)
      end
  | None => (Throw runtime_error, s)
  end.

Definition call_respond_to_presence (login : Login) (call : BusCall)
    (generation request_id : Z) (approved : bool) : ST Service () :=
  let! user := registered_caller login call generation in
  on_interactions (respond_to_presence user request_id approved).

Definition call_submit_secret (login : Login) (call : BusCall)
    (generation request_id prompt_id : Z) (pipe : SecretPipe) : ST Service () :=
  let! user := registered_caller login call generation in
  let! secret := st_lift (read_secret_pipe pipe) in
  on_interactions (submit_secret user request_id prompt_id secret).

Definition call_cancel_interaction (login : Login) (call : BusCall)
    (generation request_id : Z) : ST Service () :=
  let! user := registered_caller login call generation in
  on_interactions (request_cancel user request_id).

Definition call_register_agent (login : Login) (accounts : Accounts) (call : BusCall)
    : ST Service Z :=
  let! peer := st_lift (resolve_peer login accounts call) in
  let! _ := st_modify (λ s,
    match ar_current (sv_registry s) with
    | Some current =>
        if negb (session_is_still_active login current)
        then discard_agent current (agent_bus_name current) s else s
    | None => s
    end) in
  let! context := on_registry (register_agent peer) in
  st_ret (match uc_session context with Some session => ss_generation session | None => 0 end).

Definition call_unregister_agent (call : BusCall) : ST Service () := λ s,
  if not_unique_name (call_sender call) then (Throw runtime_error, s) else
  let sender := default [] (call_sender call) in
  match ar_current (sv_registry s) with
  | Some current =>
      if negb (agent_has_bus_name (Some current) sender) then (Throw runtime_error, s) else
      let s1 := set_interactions s (clear_for current (sv_interactions s)) in
      let '(found, reg) := unregister_agent sender (sv_registry s1) in
      if negb found then (Throw runtime_error, set_registry s1 reg)
      else (Ret (), set_registry s1 reg)
  | None => (Throw runtime_error, s)
  end.

Definition unregister_disconnected_agent (bus_name : list Z) (s : Service) : Service :=
  let s1 :=
    match ar_current (sv_registry s) with
    | Some current =>
        if agent_has_bus_name (Some current) bus_name
        then set_interactions s (clear_for current (sv_interactions s)) else s
    | None => s
    end in
  set_registry s1 (snd (unregister_agent bus_name (sv_registry s1))).

Definition has_available_agent (login : Login) (s : Service) : bool :=
  match ar_current (sv_registry s) with
  | Some current => session_is_still_active login current
  | None => false
  end.

Definition record_failure (s : Service) : Service :=
  let s1 := mkService (sv_registry s) (sv_interactions s) (sv_events s) true in
  match ar_current (sv_registry s1) with
  | Some context => discard_agent context (agent_bus_name context) s1
  | None => s1
  end.

(** ** Delivery of the queued events *)

Record Signal := mkSignal {
  sg_destination : list Z;
  sg_generation : Z;
  sg_requestId : Z;
  sg_promptId : Z;
  sg_state : list Z;
  sg_operation : list Z;
  sg_relyingPartyId : list Z;
  sg_message : list Z;
}.

Definition signal_of (session : UserSessionContext) (event : StateEvent) : Signal :=
  mkSignal (ss_interactionAgentId session) (ss_generation session) (se_requestId event)
    (se_promptId event) (user_interaction_state_name (se_state event))
    (user_interaction_operation_name (se_operation event)) (se_relyingPartyId event)
    (se_message event).

(** The body of the loop over the swapped-out queue: [continue] for an event whose agent
    is gone. *)
Fixpoint deliver (reg : AgentRegistry) (events : list StateEvent) : list Signal :=
  match events with
  | [] => []
  | event :: events =>
      match uc_session (se_user event) with
      | Some session =>
          if is_current reg (se_user event)
          then signal_of session event :: deliver reg events
          else deliver reg events
      | None => deliver reg events
      end
  end.

Definition send_queued_events (s : Service) : list Signal * Service :=
  (deliver (sv_registry s) (sv_events s),
   mkService (sv_registry s) (sv_interactions s) [] (sv_failed s)).

(** ** Lemmas *)

Lemma st_bind_ret {S A B} (m : ST S A) (k : A → ST S B) s b s' :
  st_bind m k s = (Ret b, s') ↔ ∃ a s1, m s = (Ret a, s1) ∧ k a s1 = (Ret b, s').
Proof.
  unfold st_bind. destruct (m s) as [[a|e] s1]; split.
  - intros H. by exists a, s1.
  - by intros (a' & s1' & [= <- <-] & H).
  - done.
  - by intros (a' & s1' & [=] & _).
Qed.

(** What logind must say of a session for it to count as active and local. *)
Lemma active_local_session_spec login sid uid :
  is_active_local_session login sid uid = true ↔
  sid ≠ [] ∧ (∃ r, sd_session_get_uid login sid = (r, uid) ∧ 0 ≤ r) ∧
  0 < sd_session_is_active login sid ∧ sd_session_is_remote login sid = 0.
Proof.
  unfold is_active_local_session, require_active_local_session, query_login_session.
  destruct (sd_session_get_uid login sid) as [r uid'].
  destruct (Z.eqb_spec (len sid) 0) as [Hs|Hs].
  { split; [done|]. intros [Hne _]. by destruct sid. }
  destruct (Z.ltb_spec r 0); [split; [done|]; intros (_ & (r' & [= <- <-] & ?) & _); lia|].
  destruct (Z.ltb_spec (sd_session_is_active login sid) 0); [split; [done|]; lia|].
  destruct (Z.ltb_spec (sd_session_is_remote login sid) 0); [split; [done|]; lia|].
  simpl. unfold validate_active_local_session. simpl.
  destruct (Z.eqb_spec uid' uid) as [->|Hu]; simpl.
  2:{ split; [done|]. by intros (_ & (r' & [= _ <-] & _) & _). }
  destruct (Z.ltb_spec 0 (sd_session_is_active login sid)); simpl; [|split; [done|]; lia].
  destruct (Z.ltb_spec 0 (sd_session_is_remote login sid)); simpl; [split; [done|]; lia|].
  split; [intros _|done]. split_and!; [by intros ->|by exists r|done|lia].
Qed.

(** The caller that [registered_caller] admits. *)
Definition authorised (login : Login) (call : BusCall) (generation : Z) (s : Service)
    (user : UserContext) : Prop :=
  ∃ session, ar_current (sv_registry s) = Some user ∧ uc_session user = Some session ∧
    call_sender call = Some (ss_interactionAgentId session) ∧
    ss_generation session = generation ∧
    is_active_local_session login (ss_sessionId session) (uc_uid user) = true.

Lemma registered_caller_ret login call generation s user s' :
  registered_caller login call generation s = (Ret user, s') →
  s' = s ∧ authorised login call generation s user.
Proof.
  unfold registered_caller. destruct (ar_current (sv_registry s)) as [c|] eqn:Hc; [|done].
  destruct (uc_session c) as [ses|] eqn:Hs; [|done].
  destruct (_ || negb (ss_generation ses =? generation)) eqn:Eg; [done|].
  destruct (negb (session_is_still_active login c)) eqn:Ea; [done|]. intros [= <- <-].
  split; [done|]. exists ses. reflect_bools.
  unfold session_is_still_active in Ea. rewrite Hs in Ea. done.
Qed.

Lemma on_interactions_ret {A} (m : ST InteractionRegistry A) s a s' :
  on_interactions m s = (Ret a, s') →
  ∃ reg, m (sv_interactions s) = (Ret a, reg) ∧ s' = set_interactions s reg.
Proof.
  unfold on_interactions. destruct (m (sv_interactions s)) as [r reg]. intros [= -> <-]. eauto.
Qed.

(** An accepted answer concerns a pending request of its user. *)
Lemma answer_pending (m : ST InteractionRegistry ()) user id reg reg' :
  (∀ reg, pending_nonzero reg user id = None → m reg = (Throw runtime_error, reg)) →
  m reg = (Ret (), reg') →
  ∃ c, ir_current reg = Some c ∧ pi_requestId c = id ∧ pi_user c = binding user.
Proof.
  intros Hm E. destruct (pending_nonzero reg user id) as [c|] eqn:Ep.
  - apply pending_nonzero_Some in Ep as [_ Hc%pending_request_Some]. by exists c.
  - by rewrite Hm in E.
Qed.

Lemma read_pipe_loop_bound reads used secret :
  len used ≤ MAX_SECRET_SIZE → read_pipe_loop used reads = Ret secret →
  len secret ≤ MAX_SECRET_SIZE.
Proof.
  revert used. induction reads as [|[data| | |] reads IH]; intros used Hu H; simpl in H;
    try done; [by injection H as <-| |by eapply IH].
  destruct (0 <? _); [|by injection H as <-]. apply throw_if_ret in H as [Hl H].
  apply Z.ltb_ge in Hl. by eapply IH.
Qed.

Lemma read_secret_pipe_ok pipe secret :
  read_secret_pipe pipe = Ret secret → validate_secret secret = Ret ().
Proof.
  unfold read_secret_pipe. rewrite !throw_if_ret. intros (_ & _ & _ & _ & H).
  destruct (read_pipe_loop [] (sp_reads pipe)) as [b|] eqn:E; [|done]. simpl in H.
  apply throw_if_ret in H as [Hn [= <-]]. apply validate_secret_ok. split; [|done].
  by eapply (read_pipe_loop_bound (sp_reads pipe) []).
Qed.

Lemma clear_for_binding u reg c :
  ir_current (clear_for u reg) = Some c → pi_user c ≠ binding u.
Proof.
  unfold clear_for. destruct (ir_current reg) as [c'|] eqn:Hc; [|by rewrite Hc].
  destruct (same_user (pi_user c') u) eqn:E; [done|]. rewrite Hc. intros [= <-] Hb.
  by rewrite (proj2 (same_user_binding _ _) Hb) in E.
Qed.

Lemma deliver_spec reg events c session :
  ar_current reg = Some c → uc_session c = Some session →
  deliver reg events = signal_of session <$> filter (λ e, is_current reg (se_user e) = true) events.
Proof.
  intros Hc Hs. induction events as [|e events IH]; [done|]. simpl.
  destruct (is_current reg (se_user e)) eqn:Ecur.
  - rewrite filter_cons_True by done. simpl.
    unfold is_current in Ecur. rewrite Hc in Ecur. apply bool_decide_eq_true in Ecur.
    injection Ecur as _ Hsess. rewrite <- Hsess, Hs. by f_equal.
  - rewrite filter_cons_False by (by rewrite Ecur). rewrite <- IH.
    by destruct (uc_session (se_user e)).
Qed.

Lemma deliver_none reg events : ar_current reg = None → deliver reg events = [].
Proof.
  intros Hc. induction events as [|e events IH]; [done|]. simpl.
  unfold is_current. rewrite Hc, IH. by destruct (uc_session _).
Qed.

(** ** Properties *)

(** C20: An answer of an agent -- a presence response, a secret, a cancellation -- is
    accepted only from the bus name and generation of the registered agent, while its
    login session is active, local and of its user, and only for the request pending for
    that very registration; an accepted secret satisfies the verifier protocol's limits. *)
Theorem answers_authorised login call generation request_id s s' :
  (∃ approved, call_respond_to_presence login call generation request_id approved s =
     (Ret (), s')) ∨
  (∃ prompt_id pipe, call_submit_secret login call generation request_id prompt_id pipe s =
     (Ret (), s')) ∨
  call_cancel_interaction login call generation request_id s = (Ret (), s') →
  ∃ user c, authorised login call generation s user ∧
    ir_current (sv_interactions s) = Some c ∧ pi_requestId c = request_id ∧
    pi_user c = binding user ∧ sv_registry s' = sv_registry s ∧
    (∀ secret, ir_secretResponse (sv_interactions s') = Some secret →
       ir_secretResponse (sv_interactions s) = Some secret ∨
       validate_secret secret = Ret ()).
Proof.
  intros [[b H]|[(p & pipe & H)|H]].
  - apply st_bind_ret in H as (user & s1 & Hr & H).
    apply registered_caller_ret in Hr as [-> Ha].
    apply on_interactions_ret in H as (reg & H & ->).
    destruct (answer_pending (respond_to_presence user request_id b) user request_id
      (sv_interactions s) reg) as (c & Hc & Hid & Hu); [|done|].
    { intros reg0 Hn. unfold respond_to_presence. by rewrite Hn. }
    exists user, c. split_and!; try done. intros secret Hs. left.
    unfold respond_to_presence in H. destruct (pending_nonzero _ _ _); [|done].
    destruct (_ || _); [done|]. by injection H as <-.
  - apply st_bind_ret in H as (user & s1 & Hr & H).
    apply registered_caller_ret in Hr as [-> Ha].
    apply st_bind_ret in H as (secret & s1 & Hp & H). injection Hp as Hp <-.
    apply on_interactions_ret in H as (reg & H & ->).
    destruct (answer_pending (submit_secret user request_id p secret) user request_id
      (sv_interactions s) reg) as (c & Hc & Hid & Hu); [|done|].
    { intros reg0 Hn. unfold submit_secret. by rewrite Hn. }
    exists user, c. split_and!; try done. intros secret' Hs. right.
    unfold submit_secret in H. destruct (pending_nonzero _ _ _) as [c'|]; [|done].
    destruct (_ || pi_cancelRequested c'); [done|]. injection H as <-.
    simpl in Hs. injection Hs as <-. by eapply read_secret_pipe_ok.
  - apply st_bind_ret in H as (user & s1 & Hr & H).
    apply registered_caller_ret in Hr as [-> Ha].
    apply on_interactions_ret in H as (reg & H & ->).
    destruct (answer_pending (request_cancel user request_id) user request_id
      (sv_interactions s) reg) as (c & Hc & Hid & Hu); [|done|].
    { intros reg0 Hn. unfold request_cancel. by rewrite Hn. }
    exists user, c. split_and!; try done. intros secret Hs. left.
    unfold request_cancel in H. destruct (pending_nonzero _ _ _); [|done].
    destruct (_ || _); [done|]. by injection H as <-.
Qed.

Definition example_login : Login := mkLogin (λ _, (0, 1000)) (λ _, 1) (λ _, 0).
Definition example_call : BusCall := mkCall (Some (lit ":1.42")) (Ret 1000) (Ret 77).
Definition example_accounts : Accounts := mkAccounts (λ _, Ret (lit "c2")) (λ _, Ret (lit "alice")).

(** An agent registered over the bus, and a presence request pending for it. *)
Definition example_service : Service :=
  let s1 := snd (call_register_agent example_login example_accounts example_call
                   service_initial) in
  let s2 := snd (begin_interaction example_user
                   (mkUIRequest make_credential (lit "example.org") 0) s1) in
  snd (publish_state example_user (mkUIRequest make_credential (lit "example.org") 1)
         presence_required [] s2).

Lemma answers_authorised_witness :
  ∃ user c, authorised example_login example_call 1 example_service user ∧
    ir_current (sv_interactions example_service) = Some c ∧ pi_requestId c = 1 ∧
    pi_user c = binding user.
Proof.
  destruct (answers_authorised example_login example_call 1 1 example_service
    (snd (call_cancel_interaction example_login example_call 1 1 example_service)))
    as (user & c & Ha & Hc & Hid & Hu & _).
  { right; right. vm_compute. reflexivity. }
  exists user, c. done.
Defined.

(** Queued state changes reach only the agent they were published for: the signals
    sent are those of the queued events that belong to the registered agent, in order,
    each addressed to its bus name with its generation; events of agents that are gone
    are dropped, and the queue is left empty. *)
Theorem signals_reach_current_agent s :
  let '(signals, s') := send_queued_events s in
  sv_events s' = [] ∧ sv_registry s' = sv_registry s ∧
  sv_interactions s' = sv_interactions s ∧
  match ar_current (sv_registry s) with
  | Some c =>
      match uc_session c with
      | Some session =>
          signals = signal_of session <$>
            filter (λ e, is_current (sv_registry s) (se_user e) = true) (sv_events s)
      | None => signals = []
      end
  | None => signals = []
  end.
Proof.
  simpl. split_and!; try done.
  destruct (ar_current (sv_registry s)) as [c|] eqn:Hc; [|by apply deliver_none].
  destruct (uc_session c) as [session|] eqn:Hs; [by eapply deliver_spec|].
  induction (sv_events s) as [|e events IH]; [done|]. simpl.
  destruct (uc_session (se_user e)) as [se|] eqn:He; [|done].
  unfold is_current. rewrite Hc. rewrite bool_decide_eq_false_2; [done|].
  intros [= _ Heq]. congruence.
Qed.

(** When the registered agent unregisters, disconnects from the bus or the service
    fails, nothing pending for it survives: it is no longer current, both waits of any of
    its requests report that the interaction is gone, and nothing more is published for
    it. *)
Theorem lost_agent_invalidates s c s' :
  ar_current (sv_registry s) = Some c → is_Some (uc_session c) →
  (∃ call, call_sender call = Some (agent_bus_name c) ∧
     call_unregister_agent call s = (Ret (), s')) ∨
  s' = unregister_disconnected_agent (agent_bus_name c) s ∨
  s' = record_failure s →
  ar_current (sv_registry s') = None ∧ is_current (sv_registry s') c = false ∧
  (∀ id st ex, fst (poll_presence c id st ex (sv_interactions s')) = Some pw_invalidated) ∧
  (∀ id p st ex, fst (poll_secret c id p st ex (sv_interactions s')) =
     Some (mkSecretWait sw_invalidated [])) ∧
  (∀ request state message,
     publish_state c request state message s' =
     (if sv_failed s' then Throw runtime_error else Ret 0, s')).
Proof.
  intros Hc [ses Hs] Hcase.
  assert (agent_bus_name c = ss_interactionAgentId ses) as Hbus
    by (unfold agent_bus_name; by rewrite Hs).
  assert (∀ r, ar_current r = Some c →
    unregister_agent (agent_bus_name c) r = (true, mkAgents None (ar_nextGeneration r))) as Hun.
  { intros r Hr. unfold unregister_agent, agent_has_bus_name. rewrite Hr, Hs, Hbus.
    by rewrite bool_decide_eq_true_2. }
  assert (sv_registry s' = mkAgents None (ar_nextGeneration (sv_registry s)) ∧
          sv_interactions s' = clear_for c (sv_interactions s)) as [Hreg Hint].
  { destruct Hcase as [(call & Hcall & H)|[->| ->]].
    - unfold call_unregister_agent in H. rewrite Hcall in H.
      destruct (not_unique_name _); [done|]. rewrite Hc in H.
      destruct (negb (agent_has_bus_name _ _)); [done|]. simpl in H.
      rewrite Hun in H by done. simpl in H. by injection H as <-.
    - unfold unregister_disconnected_agent. rewrite Hc. simpl. rewrite Hs, Hbus.
      rewrite bool_decide_eq_true_2 by done. simpl. rewrite <- Hbus, Hun; done.
    - unfold record_failure. simpl. rewrite Hc. unfold discard_agent. simpl.
      by rewrite Hun. }
  assert (∀ id, pending_request (sv_interactions s') c id = None) as Hnone.
  { intros id. destruct (pending_request _ c id) as [p|] eqn:E; [|done].
    apply pending_request_Some in E as (Hp & _ & Hu). rewrite Hint in Hp.
    by apply clear_for_binding in Hp. }
  rewrite Hreg. split_and!; try done.
  - intros. unfold poll_presence. by rewrite Hnone.
  - intros. unfold poll_secret. by rewrite Hnone.
  - intros request state message. unfold publish_state, st_bind, throw_if_failed, st_get.
    destruct (sv_failed s'); [done|]. rewrite Hreg. simpl. by rewrite orb_true_r.
Qed.

Lemma lost_agent_invalidates_witness :
  fst (poll_presence example_user 1 false false
    (sv_interactions (unregister_disconnected_agent (lit ":1.42") example_service))) =
  Some pw_invalidated.
Proof.
  apply (lost_agent_invalidates example_service example_user
    (unregister_disconnected_agent (lit ":1.42") example_service)).
  - vm_compute. reflexivity.
  - by eexists.
  - right; left. reflexivity.
Defined.

(** A registration is granted only to a peer whose bus-authenticated user owns an
    active, local login session: the session that logind reports for the caller's
    process, and the registered identity is made of exactly these. *)
Theorem registration_authenticated login accounts call s g s' :
  call_register_agent login accounts call s = (Ret g, s') →
  ∃ peer pid uid context, resolve_peer login accounts call = Ret peer ∧
    call_euid call = Ret uid ∧ call_pid call = Ret pid ∧ 0 < pid ∧
    session_by_pid accounts pid = Ret (peer_sessionId peer) ∧
    call_sender call = Some (peer_busName peer) ∧ peer_uid peer = u32 uid ∧
    is_active_local_session login (peer_sessionId peer) uid = true ∧
    ar_current (sv_registry s') = Some context ∧ same_peer context peer = true.
Proof.
  intros H. apply st_bind_ret in H as (peer & s1 & Hp & H). injection Hp as Hp <-.
  apply st_bind_ret in H as (u & s2 & _ & H). apply st_bind_ret in H as (c & s3 & Hc & H).
  injection H as _ <-.
  assert (ar_current (sv_registry s3) = Some c ∧ same_peer c peer = true) as [Hcur Hsame].
  { unfold on_registry, register_agent in Hc. destruct (validate_peer peer); [|done].
    destruct (ar_current (sv_registry s2)) as [c0|] eqn:Ec.
    - destruct (same_peer c0 peer) eqn:Es; [|done]. injection Hc as <- <-. done.
    - destruct (_ || _); [done|]. injection Hc as <- <-. split; [done|].
      unfold same_peer. simpl. rewrite Z.eqb_refl, !bool_decide_eq_true_2; done. }
  pose proof Hp as Hp0. unfold resolve_peer in Hp.
  destruct (authenticate_bus_peer call) as [auth|] eqn:Ea; [|done]. simpl in Hp.
  unfold authenticate_bus_peer in Ea. apply throw_if_ret in Ea as [Hn Ea].
  destruct (call_sender call) as [sender|] eqn:Esender; [|done].
  destruct (call_euid call) as [uid|] eqn:Eu; [|done]. simpl in Ea.
  destruct (call_pid call) as [pid|] eqn:Epid; [|done]. simpl in Ea.
  apply throw_if_ret in Ea as [Hpid [= <-]]. apply Z.leb_gt in Hpid. simpl in Hp.
  apply throw_if_ret in Hp as [_ Hp].
  destruct (login_session_for_bus_peer accounts pid) as [ses|] eqn:Es; [|done]. simpl in Hp.
  apply bind_unit_ret in Hp as [Hact Hp].
  destruct (username_for_uid accounts uid) as [name|]; [|done]. injection Hp as <-.
  unfold login_session_for_bus_peer in Es. apply throw_if_ret in Es as [_ Es].
  destruct (session_by_pid accounts pid) as [ses'|] eqn:Eses; [|done]. simpl in Es.
  apply throw_if_ret in Es as [_ [= ->]].
  eexists _, pid, uid, c. split_and!; try done.
  unfold is_active_local_session. simpl. by rewrite Hact.
Qed.

Lemma registration_authenticated_witness :
  ∃ peer pid uid context, resolve_peer example_login example_accounts example_call = Ret peer ∧
    call_euid example_call = Ret uid ∧ call_pid example_call = Ret pid ∧ 0 < pid ∧
    session_by_pid example_accounts pid = Ret (peer_sessionId peer) ∧
    call_sender example_call = Some (peer_busName peer) ∧ peer_uid peer = u32 uid ∧
    is_active_local_session example_login (peer_sessionId peer) uid = true ∧
    ar_current (sv_registry (snd (call_register_agent example_login example_accounts
       example_call service_initial))) = Some context ∧ same_peer context peer = true.
Proof.
  apply (registration_authenticated example_login example_accounts example_call
    service_initial 1). vm_compute. reflexivity.
Defined.
