(* ===== verification/CredentialStore.v ===== *)
(** * The credential store (src/src/credentials/credential.hpp, credential.cpp)

    The store keeps its credentials in memory, and on disk as one encrypted envelope
    whose generation number is matched against a monotonic counter.  The model has both:
    the object's fields, the store file with its directory and their attributes, and the
    counter.  Every call into the operating system, the counter or the random generator
    can fail, before or after it took effect; a script in the world decides.

    Third-party code is a parameter ([StoreEnv]): AES-256-GCM, the JSON library's value
    type with its printer and parser, and the iteration order of [std::unordered_map]. *)
From Stdlib Require Import ZArith Lia.
From stdpp Require Import base list gmap strings sorting.
From S2P Require Import Prelude Hex.

(** ** Data *)

Record PublicKeyCredentialDescriptor := mkDescriptor {
  d_type : list Z;
  d_id : list Z;
  d_transports : list (list Z);
}.

Record StoredCredential := mkCred {
  c_id : list Z;
  c_ownerUid : Z;
  c_rpId : list Z;
  c_userId : list Z;
  c_userName : list Z;
  c_userDisplayName : list Z;
  c_alg : Z;
  c_signCount : Z;
  c_private_blob : list Z;
  c_public_blob : list Z;
  c_discoverable : bool;
  c_creationOrder : Z;
}.

#[global] Instance StoredCredential_eq_dec : EqDecision StoredCredential.
Proof. solve_decision. Defined.

Record CredentialSummary := mkSummary {
  sm_id : list Z;
  sm_ownerUid : Z;
  sm_rpId : list Z;
  sm_userName : list Z;
  sm_userDisplayName : list Z;
  sm_signCount : Z;
  sm_discoverable : bool;
  sm_creationOrder : Z;
}.

(** [std::unordered_map<std::string, StoredCredential>] *)
Abbreviation Storage := (gmap (list Z) StoredCredential).

Definition STORE_MAGIC : list Z := lit "VFIDO2DB".
Definition STORE_FORMAT_VERSION : Z := 1.
Definition GENERATION_SIZE : Z := 8.
Definition NONCE_SIZE : Z := 12.
Definition TAG_SIZE : Z := 16.
Definition HEADER_SIZE : Z := len STORE_MAGIC + 1 + GENERATION_SIZE + NONCE_SIZE.
Definition MAX_STORE_SIZE : Z := 16 * 1024 * 1024.
Definition MAX_CREDENTIALS : Z := 4096.
Definition MAX_CREDENTIAL_BLOB_SIZE : Z := 4096.
Definition INT_MAX : Z := 2147483647.

(** ** Third-party code *)

(** The JSON values, their constructors as [save_storage] uses them, and the accessors
    [parse_storage] calls: [None] is the wrong type or a missing key.  The laws are the
    documented behaviour: an accessor reads back what the constructor stored, and parsing
    a dump gives the dumped value.  AES-GCM decryption inverts encryption under the same
    key, nonce and additional data, and appends a 16-byte tag. *)
Class StoreEnv := {
  json : Type;
  json_array : list json → json;
  json_object : list (list Z * json) → json;
  json_string : list Z → json;
  json_unsigned : Z → json;
  json_integer : Z → json;
  json_bool : bool → json;
  as_array : json → option (list json);
  is_object : json → bool;
  json_at : json → list Z → option json;
  as_string : json → option (list Z);
  as_unsigned : json → option Z;
  as_int : json → option Z;
  as_bool : json → option bool;
  json_dump : json → res (list Z);
  json_parse : list Z → res json;
  gcm_seal : list Z → list Z → list Z → list Z → list Z;
  gcm_open : list Z → list Z → list Z → list Z → option (list Z);
  map_order : Storage → list (list Z * StoredCredential);
  as_array_array l : as_array (json_array l) = Some l;
  is_object_object kvs : is_object (json_object kvs) = true;
  json_at_object kvs k v :
    NoDup kvs.*1 → (k, v) ∈ kvs → json_at (json_object kvs) k = Some v;
  as_string_string s : as_string (json_string s) = Some s;
  as_unsigned_unsigned n : as_unsigned (json_unsigned n) = Some n;
  as_int_integer n : as_int (json_integer n) = Some n;
  as_bool_bool b : as_bool (json_bool b) = Some b;
  parse_dump j s : json_dump j = Ret s → json_parse s = Ret j;
  open_seal key iv aad p : gcm_open key iv aad (gcm_seal key iv aad p) = Some p;
  length_seal key iv aad p : len (gcm_seal key iv aad p) = len p + TAG_SIZE;
  map_order_perm m : map_order m ≡ₚ map_to_list m;
}.

(** ** The world the store acts on *)

Record DirStatus := mkDir { dir_isdir : bool; dir_uid : Z; dir_mode : Z }.
Record StoreFile := mkFile {
  f_contents : list Z;
  f_regular : bool;
  f_nlink : Z;
  f_uid : Z;
  f_mode : Z;
}.

(** What happens to one call into the environment. *)
Inductive fault := NoFault | FailBefore | FailAfter.

#[global] Instance fault_eq_dec : EqDecision fault.
Proof. solve_decision. Defined.

Record World := mkWorld {
  w_stored : Storage;
  w_generation : Z;
  w_requiresReload : bool;
  w_key : list Z;
  w_has_counter : bool;
  w_dir : option DirStatus;
  w_file : option StoreFile;
  w_euid : Z;
  w_counter : Z;
  w_faults : list fault;
  w_nonce : list Z;
}.

Definition set_stored (s : Storage) (w : World) : World :=
  mkWorld s (w_generation w) (w_requiresReload w) (w_key w) (w_has_counter w) (w_dir w)
    (w_file w) (w_euid w) (w_counter w) (w_faults w) (w_nonce w).
Definition set_generation (g : Z) (w : World) : World :=
  mkWorld (w_stored w) g (w_requiresReload w) (w_key w) (w_has_counter w) (w_dir w)
    (w_file w) (w_euid w) (w_counter w) (w_faults w) (w_nonce w).
Definition set_reload (b : bool) (w : World) : World :=
  mkWorld (w_stored w) (w_generation w) b (w_key w) (w_has_counter w) (w_dir w)
    (w_file w) (w_euid w) (w_counter w) (w_faults w) (w_nonce w).
Definition set_disk (d : option DirStatus) (f : option StoreFile) (w : World) : World :=
  mkWorld (w_stored w) (w_generation w) (w_requiresReload w) (w_key w) (w_has_counter w) d
    f (w_euid w) (w_counter w) (w_faults w) (w_nonce w).
Definition set_counter (c : Z) (w : World) : World :=
  mkWorld (w_stored w) (w_generation w) (w_requiresReload w) (w_key w) (w_has_counter w)
    (w_dir w) (w_file w) (w_euid w) c (w_faults w) (w_nonce w).
Definition set_faults (l : list fault) (w : World) : World :=
  mkWorld (w_stored w) (w_generation w) (w_requiresReload w) (w_key w) (w_has_counter w)
    (w_dir w) (w_file w) (w_euid w) (w_counter w) l (w_nonce w).

(** The fate of the next environment call; no script left means that it works. *)
Definition next_fault : ST World fault := λ w,
  match w_faults w with
  | [] => (Ret NoFault, w)
  | f :: l => (Ret f, set_faults l w)
  end.

(** ** The generation counter (storage/generation_counter.hpp) *)

Definition counter_read : ST World Z :=
  let! f := next_fault in
  match f with
  | NoFault => λ w, (Ret (w_counter w), w)
  | _ => st_throw runtime_error
  end.

Definition counter_increment : ST World () :=
  let! f := next_fault in
  match f with
  | NoFault => st_modify (λ w, set_counter (w_counter w + 1) w)
  | FailBefore => st_throw runtime_error
  | FailAfter =>
      let! _ := st_modify (λ w, set_counter (w_counter w + 1) w) in st_throw runtime_error
  end.

(** ** Envelope *)

(** [for(int shift = 56; shift >= 0; shift -= 8) push_back(value >> shift)] *)
Definition append_uint64_be (value : Z) : list Z :=
  (λ shift, u8 (Z.shiftr value shift)) <$> [56; 48; 40; 32; 24; 16; 8; 0].

(** [value = (value << 8) | byte] over the bytes. *)
Definition read_uint64_be (bytes : list Z) : Z :=
  foldl (λ value byte, u64 (Z.lor (Z.shiftl value 8) byte)) 0 bytes.

Definition openssl_checked_size (size : Z) : res Z :=
  throw_if INT_MAX <? size as length_error ;; Ret size.

(** The bytes of the header, which are the additional authenticated data. *)
Definition envelope_header (generation : Z) (iv : list Z) : list Z :=
  STORE_MAGIC ++ [STORE_FORMAT_VERSION] ++ append_uint64_be generation ++ iv.

(** ** Validation *)

Definition validate_credential (credential : StoredCredential) : res () :=
  throw_if (len (c_id credential) <? 16) || (1024 <? len (c_id credential))
    as invalid_argument ;;
  throw_if (len (c_rpId credential) =? 0) || (253 <? len (c_rpId credential))
    as invalid_argument ;;
  throw_if (len (c_userId credential) =? 0) || (64 <? len (c_userId credential))
    as invalid_argument ;;
  throw_if negb (c_alg credential =? -7) as invalid_argument ;;
  throw_if (len (c_private_blob credential) =? 0) ||
           (MAX_CREDENTIAL_BLOB_SIZE <? len (c_private_blob credential))
    as invalid_argument ;;
  throw_if (len (c_public_blob credential) =? 0) ||
           (MAX_CREDENTIAL_BLOB_SIZE <? len (c_public_blob credential))
    as invalid_argument ;;
  throw_if c_creationOrder credential =? 0 as invalid_argument ;;
  Ret ().

(** ** The store file *)

(** Permission bits: [mode & 0777]. *)
Definition mode_is (mode expected : Z) : bool := Z.land mode 511 =? expected.

Definition DIR_MODE : Z := 448.   (* 0700 *)
Definition FILE_MODE : Z := 384.  (* 0600 *)

(** The checks on the directory, shared by the reader and the writer. *)
Definition check_directory (euid : Z) (d : DirStatus) : res () :=
  throw_if negb (dir_isdir d) as runtime_error ;;
  throw_if negb (dir_uid d =? euid) as runtime_error ;;
  throw_if negb (mode_is (dir_mode d) DIR_MODE) as runtime_error ;;
  Ret ().

Definition check_file (euid : Z) (f : StoreFile) : res () :=
  throw_if negb (f_regular f) || negb (f_nlink f =? 1) as runtime_error ;;
  throw_if negb (f_uid f =? euid) as runtime_error ;;
  throw_if negb (mode_is (f_mode f) FILE_MODE) as runtime_error ;;
  throw_if MAX_STORE_SIZE <? len (f_contents f) as runtime_error ;;
  Ret ().

(** [None] when the directory or the file does not exist.  The calls that can fail with
    [system_error] are one environment call. *)
Definition read_store_file : ST World (option (list Z)) :=
  let! f := next_fault in
  match f with
  | NoFault => λ w,
      match w_dir w with
      | None => (Ret None, w)
      | Some d =>
          match check_directory (w_euid w) d with
          | Throw e => (Throw e, w)
          | Ret _ =>
              match w_file w with
              | None => (Ret None, w)
              | Some file =>
                  match check_file (w_euid w) file with
                  | Throw e => (Throw e, w)
                  | Ret _ => (Ret (Some (f_contents file)), w)
                  end
              end
          end
      end
  | _ => st_throw system_error
  end.

(** [mkdir(directory, 0700)] unless it exists. *)
Definition prepare_store_directory : ST World () :=
  st_modify (λ w,
    match w_dir w with
    | Some _ => w
    | None => set_disk (Some (mkDir true (w_euid w) DIR_MODE)) (w_file w) w
    end).

Definition open_store_directory : ST World () := λ w,
  match w_dir w with
  | None => (Throw system_error, w)
  | Some d => (check_directory (w_euid w) d, w)
  end.

(** The temporary file is written, synced and closed under a fresh name before it is
    renamed over the store: a failure up to the rename leaves the store as it was, a
    failure after it (syncing or closing the directory) does not. *)
Definition atomic_write_file (contents : list Z) : ST World () :=
  let! _ := prepare_store_directory in
  let! _ := open_store_directory in
  let! f := next_fault in
  let replace := st_modify (λ w,
    set_disk (w_dir w) (Some (mkFile contents true 1 (w_euid w) FILE_MODE)) w) in
  match f with
  | FailBefore => st_throw system_error
  | NoFault => replace
  | FailAfter => let! _ := replace in st_throw system_error
  end.

Section store.
Context `{StoreEnv}.

(** ** Cryptography *)

Definition decrypt (key ciphertext : list Z) : res (Z * list Z) :=
  throw_if len ciphertext <? HEADER_SIZE + TAG_SIZE as runtime_error ;;
  throw_if negb (bool_decide (take 8 ciphertext = STORE_MAGIC)) as runtime_error ;;
  throw_if negb (byte_at ciphertext 8 =? STORE_FORMAT_VERSION) as runtime_error ;;
  let generation := read_uint64_be (take 8 (drop 9 ciphertext)) in
  let iv := take 12 (drop 17 ciphertext) in
  let sealed := drop (Z.to_nat HEADER_SIZE) ciphertext in
  _ ← openssl_checked_size (len ciphertext - HEADER_SIZE - TAG_SIZE);
  match gcm_open key iv (take (Z.to_nat HEADER_SIZE) ciphertext) sealed with
  | Some plaintext => Ret (generation, plaintext)
  | None => Throw runtime_error
  end.

(** [openssl_random_bytes(iv)]: twelve bytes, or a failure. *)
Definition random_nonce : ST World (list Z) :=
  let! f := next_fault in
  match f with
  | NoFault => λ w, (Ret (w_nonce w), w)
  | _ => st_throw runtime_error
  end.

Definition encrypt (plaintext : list Z) (generation : Z) : ST World (list Z) :=
  let! iv := random_nonce in
  let header := envelope_header generation iv in
  let! _ := st_lift (openssl_checked_size (len header)) in
  let! _ := st_lift (openssl_checked_size (len plaintext)) in
  let! w := st_get in
  st_ret (header ++ gcm_seal (w_key w) iv header plaintext).

(** ** Saving *)

(** One entry of the array [save_storage] dumps. *)
Definition entry_fields (cred : StoredCredential) (id userId : list Z)
    : list (list Z * json) :=
  [(lit "id", json_string id);
   (lit "ownerUid", json_unsigned (c_ownerUid cred));
   (lit "discoverable", json_bool (c_discoverable cred));
   (lit "creationOrder", json_unsigned (c_creationOrder cred));
   (lit "rpId", json_string (c_rpId cred));
   (lit "userId", json_string userId);
   (lit "userName", json_string (c_userName cred));
   (lit "userDisplayName", json_string (c_userDisplayName cred));
   (lit "alg", json_integer (c_alg cred));
   (lit "signCount", json_unsigned (c_signCount cred));
   (lit "private_blob", json_array (json_unsigned <$> c_private_blob cred));
   (lit "public_blob", json_array (json_unsigned <$> c_public_blob cred))].

Definition entry_json (cred : StoredCredential) : res json :=
  id ← hex_encode (c_id cred);
  userId ← hex_encode (c_userId cred);
  Ret (json_object (entry_fields cred id userId)).

(** The loop over the map, in its iteration order. *)
Fixpoint entries_json (items : list (list Z * StoredCredential)) : res (list json) :=
  match items with
  | [] => Ret []
  | (_, cred) :: items =>
      j ← entry_json cred;
      js ← entries_json items;
      Ret (j :: js)
  end.

Definition storage_plaintext (storage : Storage) : res (list Z) :=
  js ← entries_json (map_order storage);
  json_dump (json_array js).

(** The part of [save_storage] inside [if(generationCounter_ != nullptr)] after the file
    is in place: the [try] block and its handler. *)
Definition advance_counter (next_generation : Z) : ST World () :=
  let! _ := counter_increment in
  let! value := counter_read in
  if negb (value =? next_generation) then st_throw runtime_error else st_ret ().

Definition recheck_counter (next_generation : Z) (e : exn) : ST World () :=
  let! _ := st_modify (set_reload true) in
  let! value := counter_read in
  if negb (value =? next_generation) then st_throw e
  else st_modify (set_reload false).

Definition commit_counter (next_generation : Z) : ST World () :=
  st_catch (advance_counter next_generation) (recheck_counter next_generation).

(** The generation the counter confirms before a commit. *)
Definition confirmed_generation : ST World Z :=
  let! w := st_get in
  if w_has_counter w then
    let! current := counter_read in
    if negb (current =? w_generation w) then st_throw runtime_error else st_ret current
  else st_ret (w_generation w).

Definition save_storage (storage : Storage) : ST World () :=
  let! w := st_get in
  if w_requiresReload w then st_throw runtime_error else
  let! current_generation := confirmed_generation in
  if current_generation =? U64_MAX then st_throw overflow_error else
  let next_generation := current_generation + 1 in
  let! plain := st_lift (storage_plaintext storage) in
  let! encrypted := encrypt plain next_generation in
  let! _ := atomic_write_file encrypted in
  let! _ := (if w_has_counter w then commit_counter next_generation else st_ret ()) in
  st_modify (set_generation next_generation).

(** ** Loading *)

(** [entry.at(name)] and a typed read of it; the library throws its own exception for a
    missing key and for a [get] of the wrong type. *)
Definition at_field (entry : json) (name : list Z) : res json :=
  match json_at entry name with Some v => Ret v | None => Throw json_error end.
Definition get_as {A} (as_ : json → option A) (e : exn) (v : json) : res A :=
  match as_ v with Some a => Ret a | None => Throw e end.
Definition get_string (entry : json) (name : list Z) : res (list Z) :=
  v ← at_field entry name; get_as as_string json_error v.
Definition get_unsigned (entry : json) (name : list Z) : res Z :=
  v ← at_field entry name; get_as as_unsigned runtime_error v.

(** The loop over the elements of a byte array. *)
Fixpoint read_elements (elements : list json) : res (list Z) :=
  match elements with
  | [] => Ret []
  | element :: elements =>
      number ← get_as as_unsigned runtime_error element;
      throw_if U8_MAX <? number as runtime_error ;;
      bytes ← read_elements elements;
      Ret (number :: bytes)
  end.

Definition read_byte_array (entry : json) (field_name : list Z) : res (list Z) :=
  value ← at_field entry field_name;
  elements ← get_as as_array runtime_error value;
  throw_if MAX_CREDENTIAL_BLOB_SIZE <? len elements as runtime_error ;;
  read_elements elements.

(** The body of the loop of [parse_storage], up to [validate_credential]. *)
Definition parse_entry (entry : json) : res StoredCredential :=
  throw_if negb (is_object entry) as runtime_error ;;
  id_text ← get_string entry (lit "id");
  id ← hex_decode id_text;
  throw_if len id <? 16 as runtime_error ;;
  ownerUid ← get_unsigned entry (lit "ownerUid");
  throw_if U32_MAX <? ownerUid as runtime_error ;;
  discoverable_value ← at_field entry (lit "discoverable");
  discoverable ← get_as as_bool runtime_error discoverable_value;
  creationOrder ← get_unsigned entry (lit "creationOrder");
  throw_if creationOrder =? 0 as runtime_error ;;
  rpId ← get_string entry (lit "rpId");
  throw_if len rpId =? 0 as runtime_error ;;
  userId_text ← get_string entry (lit "userId");
  userId ← hex_decode userId_text;
  throw_if (len userId =? 0) || (64 <? len userId) as runtime_error ;;
  userName ← get_string entry (lit "userName");
  userDisplayName ← get_string entry (lit "userDisplayName");
  alg_value ← at_field entry (lit "alg");
  alg ← get_as as_int json_error alg_value;
  throw_if negb (alg =? -7) as runtime_error ;;
  signCount ← get_unsigned entry (lit "signCount");
  throw_if U32_MAX <? signCount as runtime_error ;;
  public_blob ← read_byte_array entry (lit "public_blob");
  private_blob ← read_byte_array entry (lit "private_blob");
  let cred := mkCred id ownerUid rpId userId userName userDisplayName alg signCount
    private_blob public_blob discoverable creationOrder in
  _ ← validate_credential cred;
  Ret cred.

Fixpoint parse_entries (entries : list json) (loaded : Storage) : res Storage :=
  match entries with
  | [] => Ret loaded
  | entry :: entries =>
      cred ← parse_entry entry;
      credential_id ← hex_encode (c_id cred);
      match loaded !! credential_id with
      | Some _ => Throw runtime_error
      | None => parse_entries entries (<[credential_id := cred]> loaded)
      end
  end.

Definition parse_storage (j : json) : res Storage :=
  entries ← get_as as_array runtime_error j;
  throw_if MAX_CREDENTIALS <? len entries as runtime_error ;;
  parse_entries entries ∅.

Definition forget_all : ST World () :=
  st_modify (λ w, set_reload false (set_generation 0 (set_stored ∅ w))).

(** The crash recovery of [load]: the file is one generation ahead of the counter. *)
Definition recover_counter (generation : Z) : ST World () :=
  let! _ := counter_increment in
  let! value := counter_read in
  if negb (value =? generation) then st_throw runtime_error else st_ret ().

(** [load] once the file has been read. *)
Definition load_envelope (encrypted : list Z) : ST World () :=
  let! w := st_get in
  let! decrypted := st_lift (decrypt (w_key w) encrypted) in
  let '(generation, plaintext) := decrypted in
  let! counter_generation :=
    (if w_has_counter w then counter_read else st_ret generation) in
  if generation <? counter_generation then st_throw runtime_error else
  if (counter_generation <? generation) &&
     ((counter_generation =? U64_MAX) || negb (generation =? counter_generation + 1))
  then st_throw runtime_error else
  let! j := st_lift (json_parse plaintext) in
  let! loaded := st_lift (parse_storage j) in
  let! _ := (if w_has_counter w && (generation =? counter_generation + 1)
             then recover_counter generation else st_ret ()) in
  st_modify (λ w, set_reload false (set_generation generation (set_stored loaded w))).

Definition load : ST World () :=
  let! encrypted := read_store_file in
  match encrypted with
  | None =>
      let! w := st_get in
      if w_has_counter w then
        let! value := counter_read in
        if negb (value =? 0) then st_throw runtime_error else forget_all
      else forget_all
  | Some encrypted => load_envelope encrypted
  end.

(** ** Public operations *)

Definition require_ready : ST World () :=
  let! w := st_get in
  if w_requiresReload w then st_throw runtime_error else st_ret ().

(** [save_storage(updated); stored_.swap(updated);] *)
Definition commit (updated : Storage) : ST World () :=
  let! _ := save_storage updated in
  st_modify (set_stored updated).

Definition clear : ST World () := commit ∅.

(** [stored_.find(hex_encode(cred_id))] *)
Definition find_credential (cred_id : list Z) : ST World (option StoredCredential) :=
  let! credential_id := st_lift (hex_encode cred_id) in
  λ w, (Ret (w_stored w !! credential_id), w).

Definition has (cred_id : list Z) (owner_uid : Z) : ST World bool :=
  let! _ := require_ready in
  let! credential := find_credential cred_id in
  st_ret match credential with
         | Some c => c_ownerUid c =? owner_uid
         | None => false
         end.

Definition belongs_to_rp (rp_id : list Z) (owner_uid : Z) (c : StoredCredential) : bool :=
  (c_ownerUid c =? owner_uid) && bool_decide (c_rpId c = rp_id).

Definition has_for_rp (cred_id rp_id : list Z) (owner_uid : Z) : ST World bool :=
  let! _ := require_ready in
  let! credential := find_credential cred_id in
  st_ret match credential with
         | Some c => belongs_to_rp rp_id owner_uid c
         | None => false
         end.

(** The credential a new discoverable one replaces. *)
Definition same_account (stored_credential existing : StoredCredential) : bool :=
  c_discoverable existing && (c_ownerUid existing =? c_ownerUid stored_credential) &&
  bool_decide (c_rpId existing = c_rpId stored_credential) &&
  bool_decide (c_userId existing = c_userId stored_credential).

(** [std::erase_if(updated, ...)] when the new credential is discoverable. *)
Definition without_account (stored_credential : StoredCredential) (m : Storage) : Storage :=
  if c_discoverable stored_credential
  then filter (λ item, same_account stored_credential item.2 = false) m else m.

Definition put (cred : StoredCredential) (owner_uid : Z) : ST World () :=
  let! _ := require_ready in
  let! w := st_get in
  if w_generation w =? U64_MAX then st_throw overflow_error else
  let stored_credential := mkCred (c_id cred) owner_uid (c_rpId cred) (c_userId cred)
    (c_userName cred) (c_userDisplayName cred) (c_alg cred) (c_signCount cred)
    (c_private_blob cred) (c_public_blob cred) (c_discoverable cred)
    (w_generation w + 1) in
  let! _ := st_lift (validate_credential stored_credential) in
  let! credential_id := st_lift (hex_encode (c_id stored_credential)) in
  match w_stored w !! credential_id with
  | Some _ => st_throw invalid_argument
  | None =>
      let updated := without_account stored_credential (w_stored w) in
      if MAX_CREDENTIALS <=? Z.of_nat (size updated) then st_throw runtime_error else
      commit (<[credential_id := stored_credential]> updated)
  end.

Definition erase (credential_id : list Z) (ownerUid : Z) : ST World () :=
  let! _ := require_ready in
  let! credid := st_lift (hex_encode credential_id) in
  let! w := st_get in
  match w_stored w !! credid with
  | Some c =>
      if negb (c_ownerUid c =? ownerUid) then st_throw out_of_range
      else commit (delete credid (w_stored w))
  | None => st_throw out_of_range
  end.

Definition get_by_credId (cred_id : list Z) (owner_uid : Z) : ST World StoredCredential :=
  let! _ := require_ready in
  let! credential := find_credential cred_id in
  match credential with
  | Some c => if negb (c_ownerUid c =? owner_uid) then st_throw out_of_range else st_ret c
  | None => st_throw out_of_range
  end.

Definition with_signCount (n : Z) (c : StoredCredential) : StoredCredential :=
  mkCred (c_id c) (c_ownerUid c) (c_rpId c) (c_userId c) (c_userName c)
    (c_userDisplayName c) (c_alg c) n (c_private_blob c) (c_public_blob c)
    (c_discoverable c) (c_creationOrder c).

Definition incrementSigCount (cred_id : list Z) (owner_uid : Z) : ST World () :=
  let! _ := require_ready in
  let! credential_id := st_lift (hex_encode cred_id) in
  let! w := st_get in
  match w_stored w !! credential_id with
  | Some c =>
      if negb (c_ownerUid c =? owner_uid) then st_throw out_of_range else
      if c_signCount c =? U32_MAX then st_throw overflow_error else
      commit (<[credential_id := with_signCount (u32 (c_signCount c + 1)) c]> (w_stored w))
  | None => st_throw out_of_range
  end.

(** ** Queries in order *)

(** [operator<] of byte vectors and strings. *)
Fixpoint lex_ltb (a b : list Z) : bool :=
  match a, b with
  | [], [] => false
  | [], _ :: _ => true
  | _ :: _, [] => false
  | x :: a, y :: b => if x <? y then true else if y <? x then false else lex_ltb a b
  end.

(** The comparison of the first [std::sort]. *)
Definition newer (left right : StoredCredential) : bool :=
  if negb (c_creationOrder left =? c_creationOrder right)
  then c_creationOrder right <? c_creationOrder left
  else lex_ltb (c_id left) (c_id right).

(** [std::sort] with a comparison that is a strict total order on the elements: their
    only sorted arrangement. *)
Definition not_before {A} (comp : A → A → bool) (x y : A) : Prop := comp y x = false.
#[global] Instance not_before_dec {A} (comp : A → A → bool) x y : Decision (not_before comp x y).
Proof. unfold not_before. apply _. Defined.
Definition std_sort {A} (comp : A → A → bool) (l : list A) : list A :=
  merge_sort (not_before comp) l.

(** The loop over the allow list; [seen] holds the identifiers already taken. *)
Fixpoint find_allowed (stored : Storage) (rp_id : list Z) (owner_uid : Z)
    (allow_list : list PublicKeyCredentialDescriptor) (seen : gset (list Z))
    : res (list StoredCredential) :=
  match allow_list with
  | [] => Ret []
  | descriptor :: allow_list =>
      if negb (bool_decide (d_type descriptor = lit "public-key"))
      then find_allowed stored rp_id owner_uid allow_list seen else
      credential_id ← hex_encode (d_id descriptor);
      if bool_decide (credential_id ∈ seen)
      then find_allowed stored rp_id owner_uid allow_list seen else
      matches ← find_allowed stored rp_id owner_uid allow_list ({[credential_id]} ∪ seen);
      match stored !! credential_id with
      | Some c => if belongs_to_rp rp_id owner_uid c then Ret (c :: matches) else Ret matches
      | None => Ret matches
      end
  end.

Definition discoverable_for (rp_id : list Z) (owner_uid : Z) (c : StoredCredential) : bool :=
  (c_ownerUid c =? owner_uid) && c_discoverable c && bool_decide (c_rpId c = rp_id).

Definition find_for_assertion (rp_id : list Z)
    (allow_list : list PublicKeyCredentialDescriptor) (owner_uid : Z)
    : ST World (list StoredCredential) :=
  let! _ := require_ready in
  let! w := st_get in
  if 0 <? len allow_list
  then st_lift (find_allowed (w_stored w) rp_id owner_uid allow_list ∅)
  else st_ret (std_sort newer
    (filter (λ c, discoverable_for rp_id owner_uid c = true) ((map_order (w_stored w)).*2))).

Definition summary_of (c : StoredCredential) : CredentialSummary :=
  mkSummary (c_id c) (c_ownerUid c) (c_rpId c) (c_userName c) (c_userDisplayName c)
    (c_signCount c) (c_discoverable c) (c_creationOrder c).

(** The comparison of the second [std::sort]. *)
Definition summary_before (left right : CredentialSummary) : bool :=
  if negb (sm_ownerUid left =? sm_ownerUid right)
  then sm_ownerUid left <? sm_ownerUid right else
  if negb (bool_decide (sm_rpId left = sm_rpId right))
  then lex_ltb (sm_rpId left) (sm_rpId right) else
  if negb (sm_creationOrder left =? sm_creationOrder right)
  then sm_creationOrder left <? sm_creationOrder right else
  lex_ltb (sm_id left) (sm_id right).

Definition list_credentials : ST World (list CredentialSummary) :=
  let! _ := require_ready in
  let! w := st_get in
  st_ret (std_sort summary_before (summary_of <$> (map_order (w_stored w)).*2)).

End store.
