(* ===== verification/CredentialStoreProofs.v ===== *)
(** * The credential store is durable (proofs about CredentialStore.v)

    What a credential looks like on disk, the round trip through the envelope, and the
    invariant that survives any sequence of operations, faults and restarts. *)
From Stdlib Require Import ZArith Lia.
From stdpp Require Import base list gmap strings sorting relations.
From S2P Require Import Prelude Hex CredentialStore.

(** ** 64-bit integers in the envelope *)

Lemma shiftl8_lor v b : is_u8 b → Z.lor (Z.shiftl v 8) b = v * 256 + b.
Proof. intros. rewrite lor_shiftl_add by (change (2 ^ 8) with 256; lia). done. Qed.

(** One step of the reader recovers eight more bits. *)
Lemma read_uint64_step v hi k :
  is_u64 v → 0 ≤ k → hi = v / 2 ^ (k + 8) →
  u64 (Z.lor (Z.shiftl hi 8) (u8 (Z.shiftr v k))) = v / 2 ^ k.
Proof.
  intros Hv Hk ->. rewrite u8_shiftr, shiftl8_lor by (try apply Z.mod_pos_bound; lia).
  rewrite Z.pow_add_r, <- Z.div_div by lia. change (2 ^ 8) with 256.
  assert (v / 2 ^ k / 256 * 256 + v / 2 ^ k mod 256 = v / 2 ^ k) as ->
    by (rewrite (Z.div_mod (v / 2 ^ k) 256) at 3; lia).
  apply u64_small. split; [apply Z.div_pos; lia|].
  apply Z.div_lt_upper_bound; [lia|]. assert (1 ≤ 2 ^ k) by lia. nia.
Qed.

Lemma read_append_uint64_be v : is_u64 v → read_uint64_be (append_uint64_be v) = v.
Proof.
  intros Hv. unfold read_uint64_be, append_uint64_be. simpl.
  rewrite (read_uint64_step v 0 56) by (done || (try apply eq_sym, Z.div_small; lia)).
  rewrite (read_uint64_step v _ 48), (read_uint64_step v _ 40), (read_uint64_step v _ 32),
    (read_uint64_step v _ 24), (read_uint64_step v _ 16), (read_uint64_step v _ 8),
    (read_uint64_step v _ 0) by (done || lia).
  apply Z.div_1_r.
Qed.

Lemma length_append_uint64_be v : length (append_uint64_be v) = 8%nat.
Proof. done. Qed.

Section proofs.
Context `{StoreEnv}.

(** ** Envelope *)

Lemma length_header g iv :
  length iv = 12%nat → length (envelope_header g iv) = 29%nat.
Proof.
  intros Hiv. unfold envelope_header. rewrite !length_app, length_append_uint64_be, Hiv. done.
Qed.

Lemma decrypt_encrypt key g iv p :
  is_u64 g → length iv = 12%nat → len p ≤ INT_MAX →
  decrypt key (envelope_header g iv ++ gcm_seal key iv (envelope_header g iv) p) = Ret (g, p).
Proof.
  intros Hg Hiv Hp. pose proof (length_header g iv Hiv) as Hh.
  set (header := envelope_header g iv) in *. set (sealed := gcm_seal key iv header p).
  assert (len sealed = len p + 16) as Hs by apply length_seal.
  assert (take 29 (header ++ sealed) = header) as Ht29 by (rewrite take_app_length'; done).
  assert (drop 29 (header ++ sealed) = sealed) as Hd29 by (rewrite drop_app_length'; done).
  unfold decrypt. change HEADER_SIZE with 29. change TAG_SIZE with 16.
  change (Z.to_nat 29) with 29%nat.
  rewrite length_app, Nat2Z.inj_add, Hh, Hs.
  rewrite (proj2 (Z.ltb_ge _ _)) by lia.
  assert (take 8 (header ++ sealed) = STORE_MAGIC) as -> by done.
  rewrite bool_decide_eq_true_2 by done.
  change (byte_at (header ++ sealed) 8 =? STORE_FORMAT_VERSION) with true. simpl negb. cbv iota.
  assert (take 8 (drop 9 (header ++ sealed)) = append_uint64_be g) as -> by done.
  assert (take 12 (drop 17 (header ++ sealed)) = iv) as ->.
  { assert (drop 17 (header ++ sealed) = iv ++ sealed) as -> by done.
    by rewrite take_app_length'. }
  rewrite read_append_uint64_be, Ht29, Hd29 by done.
  unfold openssl_checked_size.
  rewrite (proj2 (Z.ltb_ge _ _)) by lia.
  change (Z.of_nat 29) with 29. simpl. unfold sealed. by rewrite open_seal.
Qed.

(** ** Credentials as JSON *)

(** The ranges of a credential's fields, which the C++ types give. *)
Definition cred_ok (c : StoredCredential) : Prop :=
  validate_credential c = Ret () ∧ bytes_ok (c_id c) ∧ bytes_ok (c_userId c) ∧
  bytes_ok (c_private_blob c) ∧ bytes_ok (c_public_blob c) ∧
  is_u32 (c_ownerUid c) ∧ is_u32 (c_signCount c).

Lemma validate_credential_ok c :
  validate_credential c = Ret () ↔
  16 ≤ len (c_id c) ≤ 1024 ∧ 1 ≤ len (c_rpId c) ≤ 253 ∧ 1 ≤ len (c_userId c) ≤ 64 ∧
  c_alg c = -7 ∧ 1 ≤ len (c_private_blob c) ≤ 4096 ∧ 1 ≤ len (c_public_blob c) ≤ 4096 ∧
  c_creationOrder c ≠ 0.
Proof.
  unfold validate_credential, MAX_CREDENTIAL_BLOB_SIZE.
  rewrite !throw_if_ret, !orb_false_iff, !Z.eqb_neq, !Z.ltb_ge, negb_false_iff, Z.eqb_eq.
  intuition lia.
Qed.

Lemma read_elements_bytes l : bytes_ok l → read_elements (json_unsigned <$> l) = Ret l.
Proof.
  induction l as [|b l IH]; intros Hb; [done|]. apply bytes_ok_cons in Hb as [Hb Hl].
  rewrite fmap_cons. cbn [read_elements]. unfold get_as. rewrite as_unsigned_unsigned.
  cbn [mbind res_bind]. rewrite (proj2 (Z.ltb_ge _ _)) by (unfold U8_MAX; lia).
  by rewrite (IH Hl).
Qed.

(** The dumped object of a credential. *)
Definition cred_json (c : StoredCredential) : json :=
  json_object (entry_fields c (hex_string (c_id c)) (hex_string (c_userId c))).

Lemma entry_json_ok c : cred_ok c → entry_json c = Ret (cred_json c).
Proof.
  intros (Hv & _). apply validate_credential_ok in Hv as (Hid & _ & Hu & _).
  unfold entry_json. rewrite !hex_encode_bounded by lia. done.
Qed.

Lemma fields_nodup c id u : NoDup (entry_fields c id u).*1.
Proof. cbn [entry_fields fmap list_fmap fst]. apply (bool_decide_unpack _). by vm_compute. Qed.

Lemma cred_field c k v :
  (k, v) ∈ entry_fields c (hex_string (c_id c)) (hex_string (c_userId c)) →
  at_field (cred_json c) k = Ret v.
Proof.
  intros Hin. unfold at_field, cred_json.
  by rewrite (json_at_object _ _ v (fields_nodup _ _ _) Hin).
Qed.

Lemma get_string_field c k s :
  (k, json_string s) ∈ entry_fields c (hex_string (c_id c)) (hex_string (c_userId c)) →
  get_string (cred_json c) k = Ret s.
Proof.
  intros Hin. unfold get_string. rewrite (cred_field _ _ _ Hin). simpl. unfold get_as.
  by rewrite as_string_string.
Qed.

Lemma get_unsigned_field c k n :
  (k, json_unsigned n) ∈ entry_fields c (hex_string (c_id c)) (hex_string (c_userId c)) →
  get_unsigned (cred_json c) k = Ret n.
Proof.
  intros Hin. unfold get_unsigned. rewrite (cred_field _ _ _ Hin). simpl. unfold get_as.
  by rewrite as_unsigned_unsigned.
Qed.

Lemma read_byte_array_field c k l :
  (k, json_array (json_unsigned <$> l)) ∈
    entry_fields c (hex_string (c_id c)) (hex_string (c_userId c)) →
  bytes_ok l → len l ≤ 4096 → read_byte_array (cred_json c) k = Ret l.
Proof.
  intros Hin Hb Hl. unfold read_byte_array. rewrite (cred_field _ _ _ Hin). cbn [mbind res_bind].
  unfold get_as. rewrite as_array_array. cbn [mbind res_bind]. rewrite length_fmap.
  rewrite (proj2 (Z.ltb_ge _ _)) by (unfold MAX_CREDENTIAL_BLOB_SIZE; lia).
  by apply read_elements_bytes.
Qed.

Lemma get_as_bool b e : get_as as_bool e (json_bool b) = Ret b.
Proof. unfold get_as. by rewrite as_bool_bool. Qed.

Lemma get_as_int n e : get_as as_int e (json_integer n) = Ret n.
Proof. unfold get_as. by rewrite as_int_integer. Qed.

Ltac field_in :=
  unfold entry_fields; repeat first [apply list_elem_of_here | apply list_elem_of_further].

Lemma parse_entry_cred c : cred_ok c → parse_entry (cred_json c) = Ret c.
Proof.
  intros (Hv & Hbid & Hbu & Hbpr & Hbpu & Ho & Hs).
  pose proof Hv as (Hid & Hrp & Hu & Halg & Hpr & Hpu & Hco)%validate_credential_ok.
  unfold parse_entry. unfold cred_json at 1. rewrite is_object_object. simpl negb. cbv iota.
  rewrite (get_string_field c (lit "id") (hex_string (c_id c))) by field_in.
  cbn [mbind res_bind]. rewrite hex_decode_string by done. cbn [mbind res_bind].
  rewrite (proj2 (Z.ltb_ge _ _)) by lia.
  rewrite (get_unsigned_field c (lit "ownerUid") (c_ownerUid c)) by field_in.
  cbn [mbind res_bind]. rewrite (proj2 (Z.ltb_ge _ _)) by (unfold U32_MAX; lia).
  rewrite (cred_field c (lit "discoverable") (json_bool (c_discoverable c))) by field_in.
  cbn [mbind res_bind]. rewrite get_as_bool. cbn [mbind res_bind].
  rewrite (get_unsigned_field c (lit "creationOrder") (c_creationOrder c)) by field_in.
  cbn [mbind res_bind]. rewrite (proj2 (Z.eqb_neq _ _)) by done.
  rewrite (get_string_field c (lit "rpId") (c_rpId c)) by field_in.
  cbn [mbind res_bind]. rewrite (proj2 (Z.eqb_neq _ _)) by lia.
  rewrite (get_string_field c (lit "userId") (hex_string (c_userId c))) by field_in.
  cbn [mbind res_bind]. rewrite hex_decode_string by done. cbn [mbind res_bind].
  rewrite (proj2 (Z.eqb_neq _ _)), (proj2 (Z.ltb_ge _ _)) by lia. cbn [orb].
  rewrite (get_string_field c (lit "userName") (c_userName c)) by field_in.
  cbn [mbind res_bind].
  rewrite (get_string_field c (lit "userDisplayName") (c_userDisplayName c)) by field_in.
  cbn [mbind res_bind].
  rewrite (cred_field c (lit "alg") (json_integer (c_alg c))) by field_in.
  cbn [mbind res_bind]. rewrite get_as_int. cbn [mbind res_bind].
  rewrite (proj2 (Z.eqb_eq _ _) Halg). cbn [negb].
  rewrite (get_unsigned_field c (lit "signCount") (c_signCount c)) by field_in.
  cbn [mbind res_bind]. rewrite (proj2 (Z.ltb_ge _ _)) by (unfold U32_MAX; lia).
  rewrite (read_byte_array_field c (lit "public_blob") (c_public_blob c)) by (field_in || done || lia).
  cbn [mbind res_bind].
  rewrite (read_byte_array_field c (lit "private_blob") (c_private_blob c)) by (field_in || done || lia).
  cbn [mbind res_bind]. destruct c. cbn in *. rewrite Hv. done.
Qed.

(** ** A storage as JSON *)

(** Keys are the hexadecimal identifiers of valid credentials. *)
Definition items_ok (items : list (list Z * StoredCredential)) : Prop :=
  Forall (λ kc, kc.1 = hex_string (c_id kc.2) ∧ cred_ok kc.2) items.

Lemma entries_json_ok items :
  items_ok items → entries_json items = Ret (cred_json <$> items.*2).
Proof.
  induction 1 as [|[k c] items [_ Hc] _ IH]; [done|]. simpl in Hc.
  cbn [entries_json]. rewrite entry_json_ok by done. cbn [mbind res_bind]. by rewrite IH.
Qed.

Lemma parse_entries_ok items loaded :
  items_ok items → NoDup items.*1 → (∀ k c, (k, c) ∈ items → loaded !! k = None) →
  parse_entries (cred_json <$> items.*2) loaded = Ret (list_to_map items ∪ loaded).
Proof.
  intros Hok. revert loaded. induction Hok as [|[k c] items [Hk Hc] Hok IH]; intros loaded Hnd Hfr.
  { cbn. by rewrite map_empty_union. }
  simpl in Hk, Hc. rewrite fmap_cons in Hnd. apply NoDup_cons in Hnd as [Hni Hnd].
  rewrite !fmap_cons. cbn [parse_entries fst snd]. rewrite parse_entry_cred by done.
  cbn [mbind res_bind]. pose proof Hc as [Hv _]. apply validate_credential_ok in Hv as (Hid & _).
  rewrite hex_encode_bounded by lia. cbn [mbind res_bind]. rewrite <- Hk.
  rewrite (Hfr k c) by apply list_elem_of_here.
  rewrite IH; [|done|].
  - simpl. rewrite <- insert_union_l. by rewrite insert_union_r by (by apply not_elem_of_list_to_map).
  - intros k' c' Hin. rewrite lookup_insert_ne.
    + apply (Hfr k' c'). by apply list_elem_of_further.
    + intros <-. apply Hni. apply list_elem_of_fmap. by exists (k, c').
Qed.

(** What the store guarantees of its credentials, at generation [g]. *)
Definition storage_ok (m : Storage) : Prop :=
  (∀ k c, m !! k = Some c → k = hex_string (c_id c) ∧ cred_ok c) ∧
  Z.of_nat (size m) ≤ MAX_CREDENTIALS.

Lemma map_order_items m : storage_ok m → items_ok (map_order m).
Proof.
  intros [Hm _]. apply Forall_forall. intros [k c] Hin. rewrite map_order_perm in Hin.
  apply elem_of_map_to_list in Hin. by apply Hm.
Qed.

Lemma map_order_nodup m : NoDup (map_order m).*1.
Proof. rewrite map_order_perm. apply NoDup_fst_map_to_list. Qed.

Lemma list_to_map_order m : list_to_map (map_order m) = m.
Proof.
  rewrite (list_to_map_proper (map_order m) (map_to_list m)).
  - apply list_to_map_to_list.
  - apply map_order_nodup.
  - apply map_order_perm.
Qed.

(** The array that stands for a storage parses back to it. *)
Definition storage_json (m : Storage) : json := json_array (cred_json <$> (map_order m).*2).

Lemma storage_plaintext_ok m : storage_ok m → storage_plaintext m = json_dump (storage_json m).
Proof.
  intros Hm. unfold storage_plaintext. by rewrite entries_json_ok by (by apply map_order_items).
Qed.

Lemma parse_storage_ok m : storage_ok m → parse_storage (storage_json m) = Ret m.
Proof.
  intros Hm. unfold parse_storage, get_as, storage_json. rewrite as_array_array.
  cbn [mbind res_bind]. rewrite !length_fmap.
  assert (length (map_order m) = size m) as Hlen
    by (rewrite map_order_perm; apply length_map_to_list).
  destruct Hm as [Hm Hs]. rewrite Hlen, (proj2 (Z.ltb_ge _ _)) by done.
  rewrite parse_entries_ok.
  - by rewrite list_to_map_order, map_union_empty.
  - by apply map_order_items.
  - apply map_order_nodup.
  - intros. apply lookup_empty.
Qed.

(** ** Environment calls *)

Lemma next_fault_spec w : ∃ f l, next_fault w = (Ret f, set_faults l w).
Proof.
  unfold next_fault. destruct w as [st g rl k hc d fl eu ct fs no]. simpl.
  destruct fs as [|f fs]; [by exists NoFault, []|by exists f, fs].
Qed.

Lemma counter_read_spec w :
  ∃ r l, counter_read w = (r, set_faults l w) ∧ (r = Ret (w_counter w) ∨ r = Throw runtime_error).
Proof.
  unfold counter_read, st_bind. destruct (next_fault_spec w) as (f & l & ->).
  destruct f; eexists _, l; (split; [done|]); auto.
Qed.

Lemma counter_increment_spec w :
  ∃ r l c, counter_increment w = (r, set_counter c (set_faults l w)) ∧
    (r = Ret () ∧ c = w_counter w + 1 ∨
     r = Throw runtime_error ∧ (c = w_counter w ∨ c = w_counter w + 1)).
Proof.
  unfold counter_increment, st_bind. destruct (next_fault_spec w) as (f & l & ->).
  destruct f; [eexists _, l, (w_counter w + 1)|eexists _, l, (w_counter w)
    |eexists _, l, (w_counter w + 1)]; (split; [by destruct w|]); auto.
Qed.

Lemma advance_counter_spec w :
  ∃ r l c, advance_counter (w_counter w + 1) w = (r, set_counter c (set_faults l w)) ∧
    (r = Ret () ∧ c = w_counter w + 1 ∨
     r = Throw runtime_error ∧ (c = w_counter w ∨ c = w_counter w + 1)).
Proof.
  unfold advance_counter, st_bind.
  destruct (counter_increment_spec w) as (r & l & c & -> & [[-> ->]|[-> Hc]]).
  - destruct (counter_read_spec (set_counter (w_counter w + 1) (set_faults l w)))
      as (r & l' & -> & [->| ->]); simpl.
    + rewrite Z.eqb_refl. exists (Ret ()), l', (w_counter w + 1).
      split; [by destruct w|]. auto.
    + exists (Throw runtime_error), l', (w_counter w + 1). split; [by destruct w|]. auto.
  - eexists _, l, c. split; [done|]. auto.
Qed.

Lemma recheck_counter_spec n e w :
  ∃ r l b, recheck_counter n e w = (r, set_reload b (set_faults l w)) ∧
    (r = Ret () ∧ w_counter w = n ∧ b = false ∨ (∃ e', r = Throw e') ∧ b = true).
Proof.
  unfold recheck_counter, st_bind, st_modify.
  destruct (counter_read_spec (set_reload true w)) as (r & l' & -> & [->| ->]); simpl.
  - destruct (w_counter w =? n) eqn:E; reflect_bools.
    + eexists _, l', false. split; [done|]. auto.
    + eexists _, l', true. split; [done|]. eauto.
  - eexists _, l', true. split; [done|]. eauto.
Qed.

(** The counter after a commit: advanced by one, or (when the commit failed) perhaps not. *)
Lemma commit_counter_spec w :
  w_requiresReload w = false →
  ∃ r l c b, commit_counter (w_counter w + 1) w =
      (r, set_reload b (set_counter c (set_faults l w))) ∧
    (r = Ret () ∧ c = w_counter w + 1 ∧ b = false ∨
     (∃ e, r = Throw e) ∧ b = true ∧ (c = w_counter w ∨ c = w_counter w + 1)).
Proof.
  intros Hrl. unfold commit_counter, st_catch.
  destruct (advance_counter_spec w) as (r & l & c & -> & [[-> ->]|[-> Hc]]).
  - exists (Ret ()), l, (w_counter w + 1), false.
    split; [by destruct w; simpl in *; subst|]. auto.
  - destruct (recheck_counter_spec (w_counter w + 1) runtime_error
      (set_counter c (set_faults l w))) as (r & l' & b & -> & Hr).
    eexists r, l', c, b. split; [done|].
    destruct Hr as [(-> & ? & ->)|[? ->]]; [by left|right; auto].
Qed.

(** ** The disk *)

Definition dir_ready (w : World) : Prop :=
  match w_dir w with Some d => check_directory (w_euid w) d = Ret () | None => True end.

(** The file of the world is an acceptable store file with these contents. *)
Definition readable (w : World) (contents : list Z) : Prop :=
  ∃ d f, w_dir w = Some d ∧ check_directory (w_euid w) d = Ret () ∧
    w_file w = Some f ∧ check_file (w_euid w) f = Ret () ∧ f_contents f = contents.

(** The disk holds storage [m] at generation [g]. *)
Definition disk (w : World) (m : Storage) (g : Z) : Prop :=
  w_file w = None ∧ dir_ready w ∧ m = ∅ ∧ g = 0 ∨
  ∃ contents p j, readable w contents ∧ decrypt (w_key w) contents = Ret (g, p) ∧
    json_parse p = Ret j ∧ parse_storage j = Ret m.

(** The storage fits the size limit of the reader. *)
Definition fits (m : Storage) : Prop :=
  ∀ p, storage_plaintext m = Ret p → len p + HEADER_SIZE + TAG_SIZE ≤ MAX_STORE_SIZE.

(** The same without the limit: the file would be accepted if it were short enough. *)
Definition file_sound (euid : Z) (f : StoreFile) : Prop :=
  check_file euid (mkFile [] (f_regular f) (f_nlink f) (f_uid f) (f_mode f)) = Ret ().
Definition small (w : World) : Prop :=
  match w_file w with Some f => len (f_contents f) ≤ MAX_STORE_SIZE | None => True end.
Definition sealed (w : World) (m : Storage) (g : Z) : Prop :=
  w_file w = None ∧ dir_ready w ∧ m = ∅ ∧ g = 0 ∨
  ∃ d f p j, w_dir w = Some d ∧ check_directory (w_euid w) d = Ret () ∧
    w_file w = Some f ∧ file_sound (w_euid w) f ∧ decrypt (w_key w) (f_contents f) = Ret (g, p) ∧
    json_parse p = Ret j ∧ parse_storage j = Ret m.

Lemma check_file_sound u f :
  check_file u f = Ret () ↔ file_sound u f ∧ len (f_contents f) ≤ MAX_STORE_SIZE.
Proof.
  unfold file_sound, check_file. simpl. rewrite !throw_if_ret, Z.ltb_ge. intuition.
Qed.

Lemma disk_sealed w m g : disk w m g ↔ sealed w m g ∧ small w.
Proof.
  unfold disk, sealed, small, readable. split.
  - intros [(Hf & Hr)|(c & p & j & (d & f & Hd & Hcd & Hf & Hcf & <-) & Hdec & Hp & Hj)].
    + rewrite Hf. split; [by left|done].
    + apply check_file_sound in Hcf as [Hs Hl]. rewrite Hf. split; [|done].
      right. exists d, f, p, j. by split_and!.
  - intros [[(Hf & Hr)|(d & f & p & j & Hd & Hcd & Hf & Hs & Hdec & Hp & Hj)] Hl]; [by left|].
    rewrite Hf in Hl. right. exists (f_contents f), p, j. split; [|done].
    exists d, f. split_and!; try done. by apply check_file_sound.
Qed.

Lemma disk_ready w m g : disk w m g → dir_ready w.
Proof.
  intros [(_ & Hd & _)|(c & p & j & (d & f & Hd & Hc & _) & _)]; [done|].
  unfold dir_ready. by rewrite Hd.
Qed.

Lemma check_directory_new u : check_directory u (mkDir true u DIR_MODE) = Ret ().
Proof. unfold check_directory. simpl. by rewrite Z.eqb_refl. Qed.

(** The writer either leaves the file alone or puts the contents in place. *)
Lemma atomic_write_spec contents w :
  dir_ready w →
  ∃ r l d, check_directory (w_euid w) d = Ret () ∧
    (atomic_write_file contents w = (Throw r, set_disk (Some d) (w_file w) (set_faults l w)) ∨
     (∃ r', atomic_write_file contents w =
       (r', set_disk (Some d) (Some (mkFile contents true 1 (w_euid w) FILE_MODE))
              (set_faults l w)))).
Proof.
  intros Hd. unfold atomic_write_file, prepare_store_directory, open_store_directory, dir_ready in *.
  unfold st_bind, st_modify.
  set (w1 := match w_dir w with Some _ => w | None => _ end).
  assert (∃ d, w1 = set_disk (Some d) (w_file w) w ∧ check_directory (w_euid w) d = Ret ())
    as (d & Hw1 & Hcd).
  { subst w1. destruct (w_dir w) as [d|] eqn:E.
    - exists d. split; [by destruct w; simpl in *; subst|done].
    - eexists. split; [done|]. apply check_directory_new. }
  clearbody w1. subst w1. simpl. rewrite Hcd.
  destruct (next_fault_spec (set_disk (Some d) (w_file w) w)) as (f & l & ->).
  exists system_error, l, d. split; [done|].
  destruct f; [right; eexists; done|left; done|right; eexists; done].
Qed.

Lemma check_file_new u contents :
  len contents ≤ MAX_STORE_SIZE → check_file u (mkFile contents true 1 u FILE_MODE) = Ret ().
Proof.
  intros Hl. unfold check_file. simpl. rewrite Z.eqb_refl.
  by rewrite (proj2 (Z.ltb_ge _ _) Hl).
Qed.

Lemma encrypt_spec p g w :
  length (w_nonce w) = 12%nat →
  ∃ r l, encrypt p g w = (r, set_faults l w) ∧
    (∀ c, r = Ret c → len p ≤ INT_MAX ∧
       c = envelope_header g (w_nonce w) ++
           gcm_seal (w_key w) (w_nonce w) (envelope_header g (w_nonce w)) p).
Proof.
  intros Hn. unfold encrypt, random_nonce, st_bind. destruct (next_fault_spec w) as (f & l & ->).
  destruct f; [|by eexists _, l..].
  unfold st_lift, openssl_checked_size. simpl w_nonce.
  rewrite length_header by done. simpl.
  destruct (INT_MAX <? len p) eqn:E; [by eexists _, l|]. eexists _, l. split; [done|].
  intros c [= <-]. reflect_bools. split; [lia|done].
Qed.

(** ** Saving, under any faults *)

(** The parts of the world that saving does not touch. *)
Definition same_object (w w' : World) : Prop :=
  w_stored w' = w_stored w ∧ w_key w' = w_key w ∧ w_has_counter w' = w_has_counter w ∧
  w_euid w' = w_euid w ∧ w_nonce w' = w_nonce w.

Lemma same_object_refl w : same_object w w.
Proof. done. Qed.

(** The outcomes of a save of [m1] over a disk that holds [m] at generation [g], in the sense
    of [D]. *)
Inductive save_outcome (D : World → Storage → Z → Prop) (m1 m : Storage) (g : Z) (w : World) : res () → World → Prop :=
  | save_committed w' :
      w_requiresReload w = false → w_requiresReload w' = false →
      D w' m1 (w_generation w + 1) → w_generation w' = w_generation w + 1 →
      w_generation w < U64_MAX →
      (w_has_counter w = true → w_counter w = w_generation w ∧ w_counter w' = w_generation w + 1) →
      save_outcome D m1 m g w (Ret ()) w'
  | save_untouched e w' :
      D w' m g → w_counter w' = w_counter w → w_requiresReload w' = w_requiresReload w →
      w_generation w' = w_generation w →
      save_outcome D m1 m g w (Throw e) w'
  | save_interrupted e w' :
      w_requiresReload w = false → D w' m1 (w_generation w + 1) →
      w_generation w' = w_generation w → w_generation w < U64_MAX →
      (w_has_counter w = true → w_counter w = w_generation w ∧
         (w_counter w' = w_generation w ∨ w_counter w' = w_generation w + 1)) →
      save_outcome D m1 m g w (Throw e) w'.

Lemma confirmed_generation_spec w :
  ∃ r l, confirmed_generation w = (r, set_faults l w) ∧
    (∀ g, r = Ret g → g = w_generation w ∧ (w_has_counter w = true → w_counter w = g)).
Proof.
  unfold confirmed_generation, st_bind, st_get. destruct (w_has_counter w) eqn:Eh.
  - destruct (counter_read_spec w) as (r & l & -> & [->| ->]); [|by eexists _, l].
    destruct (w_counter w =? w_generation w) eqn:E; simpl; eexists _, l; (split; [done|]); [|done].
    reflect_bools. intros g [= <-]. done.
  - exists (Ret (w_generation w)), (w_faults w). split; [by destruct w|].
    by intros g [= <-].
Qed.

Lemma disk_set_faults w m g l : disk w m g → disk (set_faults l w) m g.
Proof. by destruct w. Qed.

(** A directory that is ready may be created without changing what is on disk. *)
Lemma disk_set_dir w m g d :
  disk w m g → check_directory (w_euid w) d = Ret () → disk (set_disk (Some d) (w_file w) w) m g.
Proof.
  intros [(Hf & Hd & -> & ->)|(c & p & j & (d0 & f & Hd0 & Hc0 & Hf & Hcf & Hcon) & Hrest)] Hc.
  - left. split_and!; try done.
  - right. exists c, p, j. split; [|done]. exists d, f. by split_and!.
Qed.

(** The envelope that [save_storage] puts in place. *)
Definition new_envelope (w : World) (g : Z) (p : list Z) : list Z :=
  envelope_header g (w_nonce w) ++
  gcm_seal (w_key w) (w_nonce w) (envelope_header g (w_nonce w)) p.

Lemma length_new_envelope w g p :
  length (w_nonce w) = 12%nat → len (new_envelope w g p) = len p + HEADER_SIZE + TAG_SIZE.
Proof.
  intros Hn. unfold new_envelope. rewrite length_app, Nat2Z.inj_add, length_header, length_seal by done.
  change HEADER_SIZE with 29. lia.
Qed.

Lemma sealed_new w m g d p :
  storage_ok m → storage_plaintext m = Ret p → len p ≤ INT_MAX →
  length (w_nonce w) = 12%nat → is_u64 g → check_directory (w_euid w) d = Ret () →
  sealed (set_disk (Some d) (Some (mkFile (new_envelope w g p) true 1 (w_euid w) FILE_MODE)) w) m g.
Proof.
  intros Hm Hp Hlen Hn Hg Hd. right. eexists d, _, p, (storage_json m).
  split_and!; [done|done|done| |by apply decrypt_encrypt| |by apply parse_storage_ok].
  - unfold file_sound. apply check_file_new. simpl. unfold MAX_STORE_SIZE. lia.
  - rewrite storage_plaintext_ok in Hp by done. by apply parse_dump.
Qed.

(** What a notion of being on disk has to provide for saving [m1]. *)
Record disk_like (D : World → Storage → Z → Prop) (m1 : Storage) : Prop := {
  dl_ext w w' m g : w_dir w' = w_dir w → w_file w' = w_file w → w_euid w' = w_euid w →
    w_key w' = w_key w → D w m g → D w' m g;
  dl_ready w m g : D w m g → dir_ready w;
  dl_dir w m g d : D w m g → check_directory (w_euid w) d = Ret () →
    D (set_disk (Some d) (w_file w) w) m g;
  dl_new w g d p : storage_plaintext m1 = Ret p → len p ≤ INT_MAX → length (w_nonce w) = 12%nat →
    is_u64 g → check_directory (w_euid w) d = Ret () →
    D (set_disk (Some d) (Some (mkFile (new_envelope w g p) true 1 (w_euid w) FILE_MODE)) w) m1 g;
}.

Lemma sealed_like m1 : storage_ok m1 → disk_like sealed m1.
Proof.
  intros Hok. split.
  - intros w w' m g E1 E2 E3 E4. unfold sealed, dir_ready. by rewrite E1, E2, E3, E4.
  - intros w m g [(_ & Hd & _)|(d & f & p & j & Hd & Hc & _)]; [done|].
    unfold dir_ready. by rewrite Hd.
  - intros w m g d [(Hf & Hd & -> & ->)|(d0 & f & p & j & Hd0 & Hc0 & Hf & Hs & Hdec & Hp & Hj)] Hc.
    + left. by split_and!.
    + right. exists d, f, p, j. by split_and!.
  - intros w g d p. by apply sealed_new.
Qed.

Lemma disk_like_disk m1 : storage_ok m1 → fits m1 → disk_like disk m1.
Proof.
  intros Hok Hfit. destruct (sealed_like m1 Hok) as [He Hr Hd Hn]. split.
  - intros w w' m g E1 E2 E3 E4 [Hs Hl]%disk_sealed. apply disk_sealed. split; [by eapply He|].
    unfold small. by rewrite E2.
  - intros w m g [Hs _]%disk_sealed. by eapply Hr.
  - intros w m g d [Hs Hl]%disk_sealed Hc. apply disk_sealed. split; [by apply Hd|done].
  - intros w g d p Hp Hlen Hno Hg Hc. apply disk_sealed. split; [by apply Hn|].
    unfold small. cbn [w_file set_disk f_contents]. rewrite length_new_envelope by done. by apply Hfit.
Qed.

Lemma save_spec D m1 m g w r w' :
  disk_like D m1 → D w m g → length (w_nonce w) = 12%nat →
  is_u64 (w_generation w) → save_storage m1 w = (r, w') →
  same_object w w' ∧ save_outcome D m1 m g w r w'.
Proof.
  intros HD Hdisk Hn Hg.
  assert (∀ l, D (set_faults l w) m g) as Hsf by (intros; by eapply (dl_ext _ _ HD); [..|exact Hdisk]).
  unfold save_storage. unfold st_bind at 1, st_get.
  destruct (w_requiresReload w) eqn:Erl.
  { intros [= <- <-]. split; [done|]. by constructor. }
  unfold st_bind at 1. destruct (confirmed_generation_spec w) as (r0 & l & -> & Hr0).
  destruct r0 as [cur|e]; [|intros [= <- <-]; split; [done|]; constructor; auto].
  destruct (Hr0 cur eq_refl) as [-> Hcnt].
  destruct (w_generation w =? U64_MAX) eqn:Emax;
    [intros [= <- <-]; split; [done|]; constructor; auto|].
  reflect_bools. assert (w_generation w < U64_MAX) as Hlt by (unfold U64_MAX in *; lia).
  unfold st_bind at 1, st_lift.
  destruct (storage_plaintext m1) as [p|e] eqn:Ep;
    [|intros [= <- <-]; split; [done|]; constructor; auto].
  unfold st_bind at 1.
  destruct (encrypt_spec p (w_generation w + 1) (set_faults l w) Hn) as (r1 & l1 & -> & Hr1).
  destruct r1 as [c|e]; [|intros [= <- <-]; split; [done|]; constructor; auto; apply (Hsf l1)].
  destruct (Hr1 c eq_refl) as [Hlenp Hc].
  change (w_nonce (set_faults l w)) with (w_nonce w) in Hc.
  change (w_key (set_faults l w)) with (w_key w) in Hc.
  unfold st_bind at 1.
  change (set_faults l1 (set_faults l w)) with (set_faults l1 w).
  destruct (atomic_write_spec c (set_faults l1 w)) as (e & l2 & d & Hd & Hw);
    [exact (dl_ready _ _ HD _ _ _ (Hsf l1))|]. change (w_euid (set_faults l1 w)) with (w_euid w) in *.
  assert (is_u64 (w_generation w + 1)) as Hg1 by (unfold U64_MAX in *; lia).
  assert (D (set_disk (Some d) (Some (mkFile c true 1 (w_euid w) FILE_MODE)) (set_faults l2 w))
    m1 (w_generation w + 1)) as Hnew.
  { rewrite Hc. by apply (dl_new _ _ HD (set_faults l2 w)). }
  set (file := mkFile c true 1 (w_euid w) FILE_MODE) in *.
  destruct Hw as [->|[r2 ->]].
  { intros [= <- <-]. split; [done|]. constructor; try done.
    by apply (dl_dir _ _ HD (set_faults l2 w)). }
  change (set_faults l2 (set_faults l1 w)) with (set_faults l2 w).
  destruct r2 as [[]|e'].
  2:{ intros [= <- <-]. split; [done|]. apply save_interrupted; try done.
      intros Hh. rewrite (Hcnt Hh). auto. }
  unfold st_bind at 1. destruct (w_has_counter w) eqn:Eh.
  - set (w1 := set_disk _ _ _) in *.
    assert (w_counter w1 = w_generation w) as Hc1 by (by apply Hcnt).
    destruct (commit_counter_spec w1) as (r3 & l3 & c3 & b & Ecc & Hr3); [done|].
    rewrite Hc1 in Ecc, Hr3. rewrite Ecc.
    assert (D (set_reload b (set_counter c3 (set_faults l3 w1))) m1 (w_generation w + 1))
      as Hnew' by (by eapply (dl_ext _ _ HD); [..|exact Hnew]).
    destruct Hr3 as [(-> & -> & ->)|([e3 ->] & -> & Hc3)]; intros [= <- <-].
    + split; [done|]. apply save_committed; try done.
      by eapply (dl_ext _ _ HD); [..|exact Hnew'].
    + split; [done|]. apply save_interrupted; auto.
  - intros [= <- <-]. split; [done|]. apply save_committed; try done; [|by rewrite Eh].
    by eapply (dl_ext _ _ HD); [..|exact Hnew].
Qed.

(** ** Loading, under any faults *)

(** The counter agrees with the disk, up to a commit that was interrupted. *)
Definition counter_near (w : World) (g : Z) : Prop :=
  w_has_counter w = true → 0 ≤ w_counter w ∧ (w_counter w = g ∨ w_counter w + 1 = g).

(** What loading does to a world whose disk holds [m] at generation [g]. *)
Inductive load_outcome (m : Storage) (g : Z) (w : World) : res () → World → Prop :=
  | load_done w' :
      w_stored w' = m → w_generation w' = g → w_requiresReload w' = false →
      (w_has_counter w = true → w_counter w' = g) → disk w' m g →
      load_outcome m g w (Ret ()) w'
  | load_failed e w' :
      w_stored w' = w_stored w → w_generation w' = w_generation w →
      w_requiresReload w' = w_requiresReload w → counter_near w' g → disk w' m g →
      load_outcome m g w (Throw e) w'.

Lemma next_fault_nil w : w_faults w = [] → next_fault w = (Ret NoFault, w).
Proof. intros E. unfold next_fault. by rewrite E. Qed.

Lemma counter_read_nil w : w_faults w = [] → counter_read w = (Ret (w_counter w), w).
Proof. intros E. unfold counter_read, st_bind. by rewrite next_fault_nil. Qed.

Lemma counter_increment_nil w :
  w_faults w = [] → counter_increment w = (Ret (), set_counter (w_counter w + 1) w).
Proof. intros E. unfold counter_increment, st_bind. by rewrite next_fault_nil. Qed.

Lemma read_store_file_spec w m g :
  disk w m g →
  ∃ f l, next_fault w = (Ret f, set_faults l w) ∧
    ((∃ e, f ≠ NoFault ∧ read_store_file w = (Throw e, set_faults l w)) ∨
     f = NoFault ∧ read_store_file w = (Ret None, set_faults l w) ∧ m = ∅ ∧ g = 0 ∨
     ∃ c p j, f = NoFault ∧ read_store_file w = (Ret (Some c), set_faults l w) ∧
       decrypt (w_key w) c = Ret (g, p) ∧ json_parse p = Ret j ∧ parse_storage j = Ret m).
Proof.
  intros Hdisk. unfold read_store_file, st_bind.
  destruct (next_fault_spec w) as (f & l & E). rewrite E. exists f, l. split; [done|].
  destruct (decide (f = NoFault)) as [->|Hf]; [right|left; destruct f; [done|by eexists..]].
  destruct Hdisk as [(Hfile & Hd & -> & ->)|(c & p & j & (d & f & Hd & Hcd & Hfl & Hcf & <-) & Hrest)].
  - left. split; [done|]. split; [|done]. simpl. unfold dir_ready in Hd.
    destruct (w_dir w) as [d|]; [|done]. by rewrite Hd, Hfile.
  - right. exists (f_contents f), p, j. split; [done|]. split; [|done].
    simpl. by rewrite Hd, Hcd, Hfl, Hcf.
Qed.

(** The bookkeeping at the end of [load_envelope]. *)
Lemma load_counter_spec g w :
  counter_near w g →
  ∃ r l c, (if w_has_counter w && (g =? w_counter w + 1)
            then recover_counter g else st_ret ()) w = (r, set_counter c (set_faults l w)) ∧
    (w_has_counter w = true → 0 ≤ c ∧ (c = g ∨ c + 1 = g)) ∧
    (r = Ret () → w_has_counter w = true → c = g) ∧ (w_faults w = [] → r = Ret ()).
Proof.
  intros Hn. destruct (w_has_counter w && (g =? w_counter w + 1)) eqn:E.
  - apply andb_true_iff in E as [Eh Eg]. apply Z.eqb_eq in Eg.
    destruct (Hn Eh) as [H0 _].
    destruct (advance_counter_spec w) as (r & l & c & E & Hr).
    change (advance_counter (w_counter w + 1)) with (recover_counter (w_counter w + 1)) in E.
    rewrite <- Eg in E, Hr. rewrite E. exists r, l, c. split; [done|].
    split_and!.
    + intros _. destruct Hr as [[_ ->]|[_ [->| ->]]]; lia.
    + intros ->. by destruct Hr as [[_ ->]|[[=] _]].
    + intros Hw. unfold recover_counter, st_bind in E.
      rewrite counter_increment_nil, counter_read_nil in E by done. simpl in E.
      rewrite Eg, Z.eqb_refl in E. by injection E as <-.
  - exists (Ret ()), (w_faults w), (w_counter w). split; [by destruct w|].
    apply andb_false_iff in E. split_and!; [exact Hn| |done].
    intros _ Hh. destruct (Hn Hh) as [_ [|Hc]]; [done|].
    destruct E as [E|E]; [congruence|]. apply Z.eqb_neq in E. lia.
Qed.

Lemma load_envelope_spec c p j m g w r w' :
  decrypt (w_key w) c = Ret (g, p) → json_parse p = Ret j → parse_storage j = Ret m →
  disk w m g → counter_near w g → g ≤ U64_MAX →
  load_envelope c w = (r, w') →
  same_object (set_stored (w_stored w') w) w' ∧ load_outcome m g w r w' ∧
  (w_faults w = [] → r = Ret ()).
Proof.
  intros Hdec Hparse Hst Hdisk Hnear Hgmax. unfold load_envelope, st_get, st_lift.
  unfold st_bind at 1. unfold st_bind at 1. rewrite Hdec. unfold st_bind at 1.
  assert (∃ r l, (if w_has_counter w then counter_read else st_ret g) w = (r, set_faults l w) ∧
    (∀ x, r = Ret x → (w_has_counter w = true → x = w_counter w) ∧
                      (w_has_counter w = false → x = g)) ∧
    (w_faults w = [] → is_ret r = true ∧ l = [])) as (r0 & l & -> & Hr0 & Hclean).
  { destruct (w_has_counter w) eqn:Eh.
    - destruct (decide (w_faults w = [])) as [Hw|Hw].
      + exists (Ret (w_counter w)), []. rewrite counter_read_nil by done.
        split; [by destruct w; simpl in *; subst|]. split; [by intros x [= <-]|done].
      + destruct (counter_read_spec w) as (r0 & l & -> & [->| ->]);
          eexists _, l; (split; [done|]); (split; [|done]); [by intros x [= <-]|done].
    - exists (Ret g), (w_faults w). split; [by destruct w|]. split; [by intros x [= <-]|done]. }
  destruct r0 as [x|e].
  2:{ intros [= <- <-]. split; [by destruct w|].
      split; [constructor; auto using disk_set_faults|]. intros Hw. by destruct (Hclean Hw). }
  destruct (Hr0 x eq_refl) as [Hx1 Hx2].
  assert (x ≤ g ≤ x + 1) as Hxg.
  { destruct (w_has_counter w) eqn:Eh; [|rewrite Hx2 by done; lia].
    rewrite Hx1 by done. destruct (Hnear Eh); lia. }
  rewrite (proj2 (Z.ltb_ge _ _)) by lia.
  assert ((x <? g) && ((x =? U64_MAX) || negb (g =? x + 1)) = false) as ->.
  { destruct (Z.ltb_spec x g); [|done]. simpl. rewrite (proj2 (Z.eqb_neq _ _)) by lia.
    by rewrite (proj2 (Z.eqb_eq _ _)) by lia. }
  unfold st_bind at 1. rewrite Hparse. unfold st_bind at 1. rewrite Hst.
  unfold st_bind at 1.
  assert (w_has_counter w && (g =? x + 1) =
    w_has_counter (set_faults l w) && (g =? w_counter (set_faults l w) + 1)) as ->.
  { simpl. destruct (w_has_counter w) eqn:Eh; [|done]. by rewrite Hx1. }
  destruct (load_counter_spec g (set_faults l w) Hnear) as (r1 & l1 & c1 & -> & Hc1 & Hc2 & Hc3).
  simpl in Hc1, Hc2.
  assert (∀ s2 g2 b2, disk (set_reload b2 (set_generation g2 (set_stored s2
    (set_counter c1 (set_faults l1 (set_faults l w)))))) m g) as Hdisk' by (intros; by destruct w).
  destruct r1 as [[]|e]; intros [= <- <-]; (split; [by destruct w|]); (split; [|]).
  - by constructor; auto.
  - done.
  - by constructor; try done; destruct w.
  - intros Hw. destruct (Hclean Hw) as [_ ->]. by apply Hc3.
Qed.

Lemma load_spec m g w r w' :
  disk w m g → counter_near w g → g ≤ U64_MAX → load w = (r, w') →
  same_object (set_stored (w_stored w') w) w' ∧ load_outcome m g w r w' ∧
  (w_faults w = [] → r = Ret ()).
Proof.
  intros Hdisk Hnear Hgmax. unfold load. unfold st_bind at 1.
  destruct (read_store_file_spec w m g Hdisk) as (f & l & Ef & Hread).
  assert (w_faults w = [] → f = NoFault ∧ l = []) as Hnil.
  { intros Hw. rewrite next_fault_nil in Ef by done. injection Ef as <- El.
    apply (f_equal w_faults) in El. simpl in El. by rewrite <- El. }
  destruct Hread as [(e & Hf & ->)|[(_ & -> & -> & ->)|(c & p & j & _ & -> & Hdec & Hp & Hs)]].
  - intros [= <- <-]. split; [by destruct w|]. split; [constructor; auto using disk_set_faults|].
    intros Hw. by destruct (Hnil Hw).
  - unfold st_bind at 1, st_get. change (w_has_counter (set_faults l w)) with (w_has_counter w).
    destruct (w_has_counter w) eqn:Eh.
    + unfold st_bind. assert (w_counter w = 0) as H0 by (destruct (Hnear Eh); lia).
      assert (w_faults w = [] → counter_read (set_faults l w) = (Ret 0, set_faults l w)) as Hcl.
      { intros Hw. destruct (Hnil Hw) as [_ ->]. rewrite counter_read_nil by done.
        by rewrite <- H0. }
      destruct (counter_read_spec (set_faults l w)) as (r0 & l0 & E & Hr0). rewrite E in *.
      destruct Hr0 as [->| ->].
      * change (w_counter (set_faults l w)) with (w_counter w). rewrite H0. simpl.
        unfold forget_all, st_modify. intros [= <- <-].
        split; [by destruct w|]. split; [by constructor|done].
      * intros [= <- <-]. split; [by destruct w|].
        split; [constructor; auto using disk_set_faults|]. intros Hw.
        by specialize (Hcl Hw).
    + unfold forget_all, st_modify. intros [= <- <-]. split; [by destruct w|].
      split; [constructor; try done; by rewrite Eh|done].
  - intros E. destruct (load_envelope_spec c p j m g (set_faults l w) r w') as (Hso & Ho & Hcl);
      try done.
    split; [by destruct w|]. split; [destruct Ho; by constructor|].
    intros Hw. destruct (Hnil Hw) as [_ ->]. by apply Hcl.
Qed.

(** ** Mutations *)

Inductive store_op :=
  | DoPut (cred : StoredCredential) (owner : Z)
  | DoErase (id : list Z) (owner : Z)
  | DoIncrement (id : list Z) (owner : Z)
  | DoClear.

Definition run_op (op : store_op) : ST World () :=
  match op with
  | DoPut cred owner => put cred owner
  | DoErase id owner => erase id owner
  | DoIncrement id owner => incrementSigCount id owner
  | DoClear => clear
  end.

(** The arguments have the ranges of their C++ types. *)
Definition op_ok (op : store_op) : Prop :=
  match op with
  | DoPut c owner => bytes_ok (c_id c) ∧ bytes_ok (c_userId c) ∧ bytes_ok (c_private_blob c) ∧
      bytes_ok (c_public_blob c) ∧ is_u32 (c_signCount c) ∧ is_u32 owner
  | _ => True
  end.

(** The credential [put] stores. *)
Definition put_credential (cred : StoredCredential) (owner : Z) (w : World) : StoredCredential :=
  mkCred (c_id cred) owner (c_rpId cred) (c_userId cred) (c_userName cred)
    (c_userDisplayName cred) (c_alg cred) (c_signCount cred) (c_private_blob cred)
    (c_public_blob cred) (c_discoverable cred) (w_generation w + 1).

(** The storage an operation writes, when it gets that far. *)
Definition target (op : store_op) (w : World) : Storage :=
  match op with
  | DoPut cred owner =>
      <[hex_string (c_id cred) := put_credential cred owner w]>
        (without_account (put_credential cred owner w) (w_stored w))
  | DoErase id _ => delete (hex_string id) (w_stored w)
  | DoIncrement id _ =>
      match w_stored w !! hex_string id with
      | Some c => <[hex_string id := with_signCount (u32 (c_signCount c + 1)) c]> (w_stored w)
      | None => w_stored w
      end
  | DoClear => ∅
  end.

(** Why an operation is refused before anything is written. *)
Definition accepted (op : store_op) (w : World) : Prop :=
  match op with
  | DoPut cred owner =>
      w_generation w ≠ U64_MAX ∧ validate_credential (put_credential cred owner w) = Ret () ∧
      w_stored w !! hex_string (c_id cred) = None ∧
      Z.of_nat (size (without_account (put_credential cred owner w) (w_stored w))) < MAX_CREDENTIALS
  | DoErase id owner =>
      ∃ c, hex_encode id = Ret (hex_string id) ∧ w_stored w !! hex_string id = Some c ∧
           c_ownerUid c = owner
  | DoIncrement id owner =>
      ∃ c, hex_encode id = Ret (hex_string id) ∧ w_stored w !! hex_string id = Some c ∧
           c_ownerUid c = owner ∧ c_signCount c ≠ U32_MAX
  | DoClear => True
  end.

Lemma hex_encode_ret id s : hex_encode id = Ret s → s = hex_string id.
Proof. unfold hex_encode. intros E. apply throw_if_ret in E as [_ [= <-]]. done. Qed.

(** Every operation is refused with the world unchanged, or commits its target. *)
Lemma run_op_cases op w :
  (∃ e, run_op op w = (Throw e, w) ∧ (w_requiresReload w = true ∨ ¬ accepted op w)) ∨
  (accepted op w ∧ run_op op w = commit (target op w) w).
Proof.
  destruct op as [cred owner|id owner|id owner|]; simpl; [| | |by right].
  - unfold put, require_ready, st_bind, st_get, st_lift.
    destruct (w_requiresReload w) eqn:Er; [left; eexists; split; [done|by left]|].
    simpl. destruct (w_generation w =? U64_MAX) eqn:Eg.
    { left. eexists. split; [done|]. right. apply Z.eqb_eq in Eg. by intros [? _]. }
    change (mkCred _ _ _ _ _ _ _ _ _ _ _ _) with (put_credential cred owner w).
    destruct (validate_credential (put_credential cred owner w)) as [[]|e] eqn:Ev.
    2:{ left. eexists. split; [done|]. right. by intros (_ & ? & _). }
    pose proof Ev as (Hid & _)%validate_credential_ok. simpl in Hid.
    rewrite hex_encode_bounded by lia.
    destruct (w_stored w !! hex_string (c_id cred)) eqn:El.
    { left. eexists. split; [done|]. right. by intros (_ & _ & ? & _). }
    destruct (MAX_CREDENTIALS <=? _) eqn:Es.
    { left. eexists. split; [done|]. right. apply Z.leb_le in Es. intros (_ & _ & _ & ?). lia. }
    right. apply Z.eqb_neq in Eg. apply Z.leb_gt in Es. split; [done|]. reflexivity.
  - unfold erase, require_ready, st_bind, st_get, st_lift.
    destruct (w_requiresReload w) eqn:Er; [left; eexists; split; [done|by left]|]. simpl.
    destruct (hex_encode id) as [k|e] eqn:Eh.
    2:{ left. eexists. split; [done|]. right. by intros (c & ? & _). }
    apply hex_encode_ret in Eh as ->.
    destruct (w_stored w !! hex_string id) as [c|] eqn:El.
    2:{ left. eexists. split; [done|]. right. by intros (c & _ & ? & _). }
    destruct (c_ownerUid c =? owner) eqn:Eo; simpl.
    + right. apply Z.eqb_eq in Eo. split; [by exists c|done].
    + left. eexists. split; [done|]. right. apply Z.eqb_neq in Eo.
      intros (c' & _ & [= <-] & ?). done.
  - unfold incrementSigCount, require_ready, st_bind, st_get, st_lift.
    destruct (w_requiresReload w) eqn:Er; [left; eexists; split; [done|by left]|]. simpl.
    destruct (hex_encode id) as [k|e] eqn:Eh.
    2:{ left. eexists. split; [done|]. right. by intros (c & ? & _). }
    apply hex_encode_ret in Eh as ->.
    destruct (w_stored w !! hex_string id) as [c|] eqn:El.
    2:{ left. eexists. split; [done|]. right. by intros (c & _ & ? & _). }
    destruct (c_ownerUid c =? owner) eqn:Eo; simpl.
    2:{ left. eexists. split; [done|]. right. apply Z.eqb_neq in Eo.
        intros (c' & _ & [= <-] & ? & _). done. }
    destruct (c_signCount c =? U32_MAX) eqn:Ec.
    + left. eexists. split; [done|]. right. apply Z.eqb_eq in Ec.
      intros (c' & _ & [= <-] & _ & ?). done.
    + right. apply Z.eqb_eq in Eo. apply Z.eqb_neq in Ec. split; [by exists c|done].
Qed.

(** ** The target keeps the storage well formed *)

Lemma without_account_lookup n m k c :
  without_account n m !! k = Some c ↔
  m !! k = Some c ∧ (c_discoverable n = true → same_account n c = false).
Proof.
  unfold without_account. destruct (c_discoverable n).
  - rewrite map_lookup_filter_Some. split; [by intros [? ?]|]. intros [? Hs]. by split; [|apply Hs].
  - split; [by intros ?|by intros [? _]].
Qed.

Lemma without_account_none n m k : m !! k = None → without_account n m !! k = None.
Proof.
  intros Hn. destruct (without_account n m !! k) as [c|] eqn:E; [|done].
  apply without_account_lookup in E as [E _]. congruence.
Qed.

Lemma target_ok op w :
  storage_ok (w_stored w) → op_ok op → accepted op w → is_u64 (w_generation w) →
  storage_ok (target op w).
Proof.
  intros [Hm Hs] Hop Hacc Hg. destruct op as [cred owner|id owner|id owner|]; simpl in *.
  - destruct Hop as (H1 & H2 & H3 & H4 & H5 & H6). destruct Hacc as (_ & Hv & Hn & Hsz).
    split.
    + intros k c [[<- <-]|[Hne Hl]]%lookup_insert_Some; [|by apply without_account_lookup in Hl as [Hl _]; apply Hm].
      split; [done|]. split_and!; (done || (simpl; lia)).
    + rewrite map_size_insert_None by (by apply without_account_none). lia.
  - split.
    + intros k c [_ Hl]%lookup_delete_Some. by apply Hm.
    + rewrite map_size_delete. destruct (w_stored w !! hex_string id); simpl; lia.
  - destruct Hacc as (c0 & _ & Hl & _ & Hsc). rewrite Hl. destruct (Hm _ _ Hl) as [Hk Hc0].
    split.
    + intros k c [[<- <-]|[Hne Hl']]%lookup_insert_Some; [|by apply Hm]. split; [done|].
      destruct Hc0 as (Hv & ? & ? & ? & ? & ? & Hsg).
      assert (is_u32 (u32 (c_signCount c0 + 1)))
        by (unfold U32_MAX in *; rewrite u32_small; lia).
      split_and!; (done || (simpl; lia)).
    + rewrite map_size_insert_Some by done. done.
  - split; [by intros k c|]. rewrite map_size_empty. unfold MAX_CREDENTIALS. lia.
Qed.

(** ** The invariant *)

(** The world is durable when its disk holds a well-formed storage whose generation the
    counter has reached or is about to reach, and the object in memory is well formed. *)
Definition durable (w : World) : Prop :=
  (∃ m g, disk w m g ∧ storage_ok m ∧ is_u64 g ∧ counter_near w g) ∧
  storage_ok (w_stored w) ∧ is_u64 (w_generation w) ∧ length (w_nonce w) = 12%nat.

Lemma commit_spec D m1 m g w r w' :
  disk_like D m1 → D w m g → length (w_nonce w) = 12%nat →
  is_u64 (w_generation w) → commit m1 w = (r, w') →
  ∃ w0, save_outcome D m1 m g w r w0 ∧ same_object w w0 ∧
    w' = (if is_ret r then set_stored m1 w0 else w0).
Proof.
  intros HD Hdisk Hn Hg. unfold commit, st_bind.
  destruct (save_storage m1 w) as [r0 w0] eqn:E.
  destruct (save_spec D m1 m g w r0 w0 HD Hdisk Hn Hg E) as [Hso Ho].
  destruct r0 as [[]|]; intros [= <- <-]; exists w0; split_and!; done.
Qed.


(** One mutation: either it returns with its target in memory and on disk, or it throws with
    the memory unchanged and the old or the new storage on disk. *)
Lemma run_op_gen D op m g w r w' :
  (accepted op w → disk_like D (target op w)) → D w m g → counter_near w g → storage_ok (w_stored w) → is_u64 (w_generation w) →
  length (w_nonce w) = 12%nat → op_ok op → run_op op w = (r, w') →
  w_key w' = w_key w ∧ w_has_counter w' = w_has_counter w ∧ w_nonce w' = w_nonce w ∧
  (r = Ret () ∧ accepted op w ∧ w_stored w' = target op w ∧
     w_generation w' = w_generation w + 1 ∧ w_requiresReload w' = false ∧
     is_u64 (w_generation w + 1) ∧
     D w' (target op w) (w_generation w + 1) ∧ counter_near w' (w_generation w + 1) ∨
   (∃ e, r = Throw e) ∧ w_stored w' = w_stored w ∧ w_generation w' = w_generation w ∧
     (D w' m g ∧ counter_near w' g ∨
      accepted op w ∧ is_u64 (w_generation w + 1) ∧
      D w' (target op w) (w_generation w + 1) ∧ counter_near w' (w_generation w + 1))).
Proof.
  intros HD Hdisk Hnear Hst Hg Hn Hop Hrun.
  destruct (run_op_cases op w) as [(e & E & _)|[Hacc E]]; rewrite E in Hrun.
  { injection Hrun as <- <-. split_and!; try done. right. split; [by eexists|].
    split_and!; try done. by left. }
  destruct (commit_spec D _ m g w r w' (HD Hacc) Hdisk Hn Hg Hrun)
    as (w0 & Ho & (Hs1 & Hk & Hh & He & Hno) & ->).
  unfold counter_near in *.
  destruct Ho as [w0 Hr0 Hr1 Hd Hgen Hlt Hc|e w0 Hd Hc Hr Hgen|e w0 Hr Hd Hgen Hlt Hc]; simpl.
  - split_and!; try done. left. split_and!; try done; try (unfold U64_MAX in *; lia).
    { by eapply (dl_ext _ _ (HD Hacc)); [..|exact Hd]. }
    intros Hhas. simpl in Hhas. rewrite Hh in Hhas. destruct (Hc Hhas) as [_ ->]. lia.
  - split_and!; try done. right. split; [by eexists|]. split_and!; try done. left.
    split; [done|]. rewrite Hh, Hc. done.
  - split_and!; try done. right. split; [by eexists|]. split_and!; try done. right.
    split_and!; try done; try (unfold U64_MAX in *; lia).
    intros Hhas. rewrite Hh in Hhas. destruct (Hc Hhas) as [? [->| ->]]; lia.
Qed.

(** A mutation whose result the reader accepts, over a disk that it can read. *)
Lemma run_op_spec op m g w r w' :
  disk w m g → counter_near w g → storage_ok (w_stored w) → is_u64 (w_generation w) →
  length (w_nonce w) = 12%nat → op_ok op → fits (target op w) → run_op op w = (r, w') →
  w_key w' = w_key w ∧ w_has_counter w' = w_has_counter w ∧ w_nonce w' = w_nonce w ∧
  (r = Ret () ∧ accepted op w ∧ w_stored w' = target op w ∧
     w_generation w' = w_generation w + 1 ∧ w_requiresReload w' = false ∧
     is_u64 (w_generation w + 1) ∧
     disk w' (target op w) (w_generation w + 1) ∧ counter_near w' (w_generation w + 1) ∨
   (∃ e, r = Throw e) ∧ w_stored w' = w_stored w ∧ w_generation w' = w_generation w ∧
     (disk w' m g ∧ counter_near w' g ∨
      accepted op w ∧ is_u64 (w_generation w + 1) ∧
      disk w' (target op w) (w_generation w + 1) ∧ counter_near w' (w_generation w + 1))).
Proof.
  intros Hdisk Hnear Hst Hg Hn Hop Hfit. apply run_op_gen; try done.
  intros Hacc. apply disk_like_disk; [by apply target_ok|done].
Qed.

(** ** Steps of a deployment *)

(** A new process: the constructor's fields. *)
Definition restarted (w : World) : World :=
  set_reload false (set_generation 0 (set_stored ∅ w)).

(** The environment from now on: which calls fail, and the next random nonce. *)
Definition set_env (faults : list fault) (nonce : list Z) (w : World) : World :=
  mkWorld (w_stored w) (w_generation w) (w_requiresReload w) (w_key w) (w_has_counter w)
    (w_dir w) (w_file w) (w_euid w) (w_counter w) faults nonce.

Inductive store_step (w : World) : World → Prop :=
  | step_mutate op : op_ok op → store_step w (snd (run_op op w))
  | step_load : store_step w (snd (load w))
  | step_restart : store_step w (restarted w)
  | step_env faults nonce : length nonce = 12%nat → store_step w (set_env faults nonce w).

(** The steps whose results the reader accepts. *)
Inductive fitting_step (w : World) : World → Prop :=
  | fitting_mutate op : op_ok op → fits (target op w) → fitting_step w (snd (run_op op w))
  | fitting_load : fitting_step w (snd (load w))
  | fitting_restart : fitting_step w (restarted w)
  | fitting_env faults nonce : length nonce = 12%nat → fitting_step w (set_env faults nonce w).

Lemma storage_ok_empty : storage_ok ∅.
Proof. split; [by intros k c|]. rewrite map_size_empty. unfold MAX_CREDENTIALS. lia. Qed.

Lemma durable_step w w' : durable w → fitting_step w w' → durable w'.
Proof.
  intros [(m & g & Hdisk & Hm & Hg & Hnear) (Hst & Hgen & Hn)] Hstep.
  destruct Hstep as [op Hop Hfit| | |faults nonce Hno].
  - destruct (run_op op w) as [r w'] eqn:E. simpl.
    destruct (run_op_spec op m g w r w' Hdisk Hnear Hst Hgen Hn Hop Hfit E)
      as (_ & _ & Hno & [(_ & Hacc & Hs & Hge & _ & H64 & Hd & Hc)|(_ & Hs & Hge & Hcase)]).
    + assert (storage_ok (target op w)) as Hok by (by apply target_ok).
      split; [by eexists _, _|]. rewrite Hs, Hge, Hno. done.
    + split; [|by rewrite Hs, Hge, Hno].
      destruct Hcase as [[Hd Hc]|(Hacc & H64 & Hd & Hc)]; [by exists m, g|].
      eexists _, _. split_and!; [exact Hd|by apply target_ok|lia|lia|done].
  - destruct (load w) as [r w'] eqn:E. simpl.
    destruct (load_spec m g w r w' Hdisk Hnear) as ((_ & _ & Hh & _ & Hno) & Ho & _);
      [unfold U64_MAX; lia|done|].
    destruct Ho as [w' Hs Hge _ Hc Hd|e w' Hs Hge _ Hc Hd].
    + split; [|rewrite Hs, Hge, Hno; simpl; split_and!; done || lia].
      exists m, g. split_and!; try done; try lia.
      unfold counter_near. rewrite Hh. simpl. intros Hhas. rewrite (Hc Hhas). lia.
    + split; [|rewrite Hs, Hge, Hno; simpl; split_and!; done || lia]. by exists m, g.
  - split; [|split_and!; simpl; [apply storage_ok_empty|lia|lia|done]].
    exists m, g. destruct w. split_and!; done || lia.
  - split; [|done]. exists m, g. destruct w. split_and!; done || lia.
Qed.

Lemma durable_steps w w' : durable w → rtc fitting_step w w' → durable w'.
Proof. intros Hd Hs. induction Hs; eauto using durable_step. Qed.

(** A newly provisioned system: no store file, the counter at its origin. *)
Definition provisioned (w : World) : Prop :=
  w_file w = None ∧ dir_ready w ∧ w_counter w = 0 ∧ w_stored w = ∅ ∧ w_generation w = 0 ∧
  length (w_nonce w) = 12%nat.

Lemma provisioned_durable w : provisioned w → durable w.
Proof.
  intros (Hf & Hd & Hc & Hs & Hg & Hn). split.
  - exists ∅, 0. split; [by left|]. split; [apply storage_ok_empty|]. split; [lia|].
    intros _. rewrite Hc. lia.
  - rewrite Hs, Hg. split_and!; [apply storage_ok_empty|lia|lia|done].
Qed.

(** A new process that finds nothing broken loads exactly [m]. *)
Definition reloads (w : World) (m : Storage) : Prop :=
  ∃ w', load (set_env [] (w_nonce w) (restarted w)) = (Ret (), w') ∧ w_stored w' = m ∧
        w_requiresReload w' = false.

Lemma disk_reloads w m g :
  disk w m g → counter_near w g → g ≤ U64_MAX → reloads w m.
Proof.
  intros Hd Hc Hg. set (w1 := set_env [] (w_nonce w) (restarted w)).
  assert (disk w1 m g) as Hd1 by (subst w1; by destruct w).
  assert (counter_near w1 g) as Hc1 by (subst w1; by destruct w).
  destruct (load w1) as [r w'] eqn:E.
  destruct (load_spec m g w1 r w' Hd1 Hc1 Hg E) as (_ & Ho & Hclean).
  specialize (Hclean eq_refl). subst r. inversion Ho; subst. by exists w'.
Qed.

(** ** Results of any size *)

(** No load of a new process succeeds, whatever the environment does. *)
Definition locked_out (w : World) : Prop :=
  ∀ faults nonce, is_ret (load (set_env faults nonce (restarted w))).1 = false.

(** The file in place is larger than the reader accepts. *)
Definition oversized (w : World) : Prop :=
  ∃ f, w_file w = Some f ∧ MAX_STORE_SIZE < len (f_contents f).

Lemma load_throws w m g :
  sealed w m g → oversized w → ∃ e l, load w = (Throw e, set_faults l w).
Proof.
  intros [(Hf & _)|(d & f & p & j & Hd & Hcd & Hf & Hs & _)] (f' & Hf' & Hl); [congruence|].
  rewrite Hf in Hf'. injection Hf' as <-. unfold load, read_store_file, st_bind.
  destruct (next_fault_spec w) as (fl & l & ->). destruct fl; [|by eexists _, l..].
  simpl. rewrite Hd, Hcd, Hf.
  destruct (check_file (w_euid w) f) as [[]|e] eqn:E; [apply check_file_sound in E as [_ ?]; lia|].
  by eexists _, l.
Qed.

(** The parts of the world that make up the disk. *)
Lemma sealed_ext w w' m g :
  w_dir w' = w_dir w → w_file w' = w_file w → w_euid w' = w_euid w → w_key w' = w_key w →
  sealed w m g → sealed w' m g.
Proof. intros E1 E2 E3 E4. unfold sealed, dir_ready. by rewrite E1, E2, E3, E4. Qed.

Lemma oversized_locked_out w m g : sealed w m g → oversized w → locked_out w.
Proof.
  intros Hs Ho faults nonce.
  destruct (load_throws (set_env faults nonce (restarted w)) m g) as (e & l & ->);
    [by apply (sealed_ext w)|exact Ho|done].
Qed.

Lemma small_or_oversized w : small w ∨ oversized w.
Proof.
  unfold small, oversized. destruct (w_file w) as [f|]; [|by left].
  destruct (Z.le_gt_cases (len (f_contents f)) MAX_STORE_SIZE); [by left|right; eauto].
Qed.

(** Like [durable], whatever the size of the file. *)
Definition consistent (w : World) : Prop :=
  (∃ m g, sealed w m g ∧ storage_ok m ∧ is_u64 g ∧ counter_near w g) ∧
  storage_ok (w_stored w) ∧ is_u64 (w_generation w) ∧ length (w_nonce w) = 12%nat.

Lemma durable_consistent w : durable w → consistent w.
Proof.
  intros [(m & g & [Hs _]%disk_sealed & Hrest) Hw]. split; [|done]. by exists m, g.
Qed.

Lemma consistent_small w : consistent w → small w → durable w.
Proof.
  intros [(m & g & Hs & Hrest) Hw] Hl. split; [|done]. exists m, g. split; [|done].
  by apply disk_sealed.
Qed.

Lemma consistent_step w w' : consistent w → store_step w w' → consistent w'.
Proof.
  intros Hc Hstep. pose proof Hc as [(m & g & Hs & Hm & Hg & Hnear) (Hst & Hgen & Hn)].
  destruct Hstep as [op Hop| | |faults nonce Hno].
  - destruct (run_op op w) as [r w'] eqn:E. simpl.
    destruct (run_op_gen sealed op m g w r w') as (_ & _ & Hno & Hout); try done.
    { intros Hacc. by apply sealed_like, target_ok. }
    destruct Hout as [(_ & Hacc & Hs' & Hge & _ & H64 & Hd & Hc')|(_ & Hs' & Hge & Hcase)].
    + assert (storage_ok (target op w)) by (by apply target_ok).
      split; [|by rewrite Hs', Hge, Hno].
      eexists _, _. split_and!; [exact Hd|by apply target_ok|lia|lia|done].
    + split; [|by rewrite Hs', Hge, Hno].
      destruct Hcase as [[Hd Hc']|(Hacc & H64 & Hd & Hc')]; [by exists m, g|].
      eexists _, _. split_and!; [exact Hd|by apply target_ok|lia|lia|done].
  - destruct (small_or_oversized w) as [Hl|Ho].
    + apply durable_consistent, (durable_step w); [by apply consistent_small|constructor].
    + destruct (load_throws w m g Hs Ho) as (e & l & ->). simpl. split; [|done].
      exists m, g. split_and!; done || lia || by apply (sealed_ext w).
  - split; [|split_and!; simpl; [apply storage_ok_empty|lia|lia|done]].
    exists m, g. split_and!; done || lia || by apply (sealed_ext w).
  - split; [|done]. exists m, g. split_and!; done || lia || by apply (sealed_ext w).
Qed.

Lemma consistent_steps w w' : consistent w → rtc store_step w w' → consistent w'.
Proof. intros Hd Hs. induction Hs; eauto using consistent_step. Qed.

Lemma durable_reloads w : durable w → ∃ m, storage_ok m ∧ reloads w m.
Proof.
  intros [(m & g & Hd & Hm & Hg & Hc) _]. exists m. split; [done|].
  eapply disk_reloads; [done|done|]. unfold U64_MAX. lia.
Qed.

(** What a new process finds when [m] has been written: exactly [m], unless it is over the
    limit of the reader and every load fails. *)
Definition found (w : World) (m : Storage) : Prop :=
  reloads w m ∨ ¬ fits m ∧ locked_out w.

(** [m] is in place at generation [g], as [save_storage] has written it. *)
Definition written (w : World) (m : Storage) (g : Z) : Prop :=
  sealed w m g ∧ ∃ f p, w_file w = Some f ∧ storage_plaintext m = Ret p ∧
    len (f_contents f) = len p + HEADER_SIZE + TAG_SIZE.

Lemma written_found w m g : written w m g → counter_near w g → g ≤ U64_MAX → found w m.
Proof.
  intros [Hs (f & p & Hf & Hp & Hl)] Hc Hg.
  destruct (Z.le_gt_cases (len p + HEADER_SIZE + TAG_SIZE) MAX_STORE_SIZE) as [Hle|Hgt].
  - left. eapply disk_reloads; [|done..]. apply disk_sealed.
    split; [exact Hs|]. unfold small. rewrite Hf. lia.
  - right. split; [intros Hfit; specialize (Hfit p Hp); lia|].
    eapply oversized_locked_out; [exact Hs|]. exists f. split; [done|lia].
Qed.

(** The old storage, which could be read, or the new one. *)
Definition old_or_new (m m1 : Storage) (g : Z) (w : World) (m' : Storage) (g' : Z) : Prop :=
  m' = m ∧ g' = g ∧ disk w m g ∨ m' = m1 ∧ written w m1 g'.

Lemma old_or_new_like m m1 g : storage_ok m1 → disk_like (old_or_new m m1 g) m1.
Proof.
  intros Hok. destruct (sealed_like m1 Hok) as [He Hr Hd Hn].
  assert (∀ w w' m g, w_dir w' = w_dir w → w_file w' = w_file w → w_euid w' = w_euid w →
    w_key w' = w_key w → disk w m g → disk w' m g) as Hext.
  { intros w w' m' g' E1 E2 E3 E4 [Hs Hl]%disk_sealed. apply disk_sealed.
    split; [by apply (sealed_ext w)|]. unfold small. by rewrite E2. }
  split.
  - intros w w' m' g' E1 E2 E3 E4 [(-> & -> & H1)|(-> & Hs & Hf)]; [left|right].
    + split_and!; try done. by apply (Hext w).
    + split; [done|]. split; [by apply (sealed_ext w)|by rewrite E2].
  - intros w m' g' [(_ & _ & H1)|(_ & Hs & _)]; [by eapply disk_ready|by eapply Hr].
  - intros w m' g' d [(-> & -> & H1)|(-> & Hs & Hf)] Hc; [left|right].
    + split_and!; try done. by apply disk_set_dir.
    + split; [done|]. split; [by apply Hd|done].
  - intros w g' d p Hp Hl Hno Hg Hc. right. split; [done|]. split; [by apply Hn|].
    eexists _, p. split; [done|]. split; [done|]. by apply length_new_envelope.
Qed.
End proofs.

(** ** An instance of the parameters

    A small JSON and a transparent "cipher" that satisfy the laws, to run the store on
    concrete inputs. *)

(** Leaves: strings, unsigned and signed numbers, booleans. *)
Abbreviation toy_leaf := (list Z + (Z + (Z + bool)))%type.
Abbreviation toy_json := (gen_tree toy_leaf).

Definition toy_pair (kv : list Z * toy_json) : toy_json :=
  GenNode 2 [GenLeaf (inl kv.1); kv.2].

Fixpoint toy_find (l : list toy_json) (k : list Z) : option toy_json :=
  match l with
  | GenNode 2 [GenLeaf (inl k'); v] :: l => if bool_decide (k' = k) then Some v else toy_find l k
  | _ => None
  end.

Definition toy_at (j : toy_json) (k : list Z) : option toy_json :=
  match j with GenNode 1 l => toy_find l k | _ => None end.

Lemma toy_find_pair kvs k v :
  NoDup kvs.*1 → (k, v) ∈ kvs → toy_find (toy_pair <$> kvs) k = Some v.
Proof.
  induction kvs as [|[k' v'] kvs IH]; intros Hnd Hin; [by apply not_elem_of_nil in Hin|].
  rewrite fmap_cons in Hnd. apply NoDup_cons in Hnd as [Hni Hnd].
  rewrite fmap_cons. cbn [toy_find toy_pair fst snd]. apply elem_of_cons in Hin as [[= <- <-]|Hin].
  - by rewrite bool_decide_eq_true_2.
  - rewrite bool_decide_eq_false_2; [by apply IH|]. intros ->. apply Hni.
    apply list_elem_of_fmap. by exists (k, v).
Qed.

Fixpoint pos_bits (p : positive) : list Z :=
  match p with xH => [] | xO p => 0 :: pos_bits p | xI p => 1 :: pos_bits p end.
Fixpoint bits_pos (l : list Z) : positive :=
  match l with [] => xH | b :: l => if b =? 0 then xO (bits_pos l) else xI (bits_pos l) end.

Lemma bits_pos_bits p : bits_pos (pos_bits p) = p.
Proof. induction p as [p IH|p IH|]; simpl; [by rewrite IH..|done]. Qed.

(** The printed text may start with white space. *)
Definition toy_dump (pad : nat) (j : toy_json) : res (list Z) :=
  Ret (replicate pad 32 ++ pos_bits (encode j)).
Definition toy_parse (pad : nat) (l : list Z) : res toy_json :=
  match decode (bits_pos (drop pad l)) with Some j => Ret j | None => Throw json_error end.

Definition toy_as_array (j : toy_json) : option (list toy_json) :=
  match j with GenNode 0 l => Some l | _ => None end.
Definition toy_is_object (j : toy_json) : bool :=
  match j with GenNode 1 _ => true | _ => false end.
Definition toy_as_string (j : toy_json) : option (list Z) :=
  match j with GenLeaf (inl s) => Some s | _ => None end.
Definition toy_as_unsigned (j : toy_json) : option Z :=
  match j with GenLeaf (inr (inl n)) => Some n | _ => None end.
Definition toy_as_int (j : toy_json) : option Z :=
  match j with
  | GenLeaf (inr (inl n)) | GenLeaf (inr (inr (inl n))) => Some n
  | _ => None
  end.
Definition toy_as_bool (j : toy_json) : option bool :=
  match j with GenLeaf (inr (inr (inr b))) => Some b | _ => None end.

Program Definition toy_env_pad (pad : nat) : StoreEnv := {|
  json := toy_json;
  json_array l := GenNode 0 l;
  json_object kvs := GenNode 1 (toy_pair <$> kvs);
  json_string s := GenLeaf (inl s);
  json_unsigned n := GenLeaf (inr (inl n));
  json_integer n := GenLeaf (inr (inr (inl n)));
  json_bool b := GenLeaf (inr (inr (inr b)));
  as_array := toy_as_array;
  is_object := toy_is_object;
  json_at := toy_at;
  as_string := toy_as_string;
  as_unsigned := toy_as_unsigned;
  as_int := toy_as_int;
  as_bool := toy_as_bool;
  json_dump := toy_dump pad;
  json_parse := toy_parse pad;
  gcm_seal _ _ _ p := p ++ replicate 16 0;
  gcm_open _ _ _ c := Some (take (length c - 16) c);
  map_order m := map_to_list m;
|}.
Next Obligation. done. Qed.
Next Obligation. done. Qed.
Next Obligation. intros. by apply toy_find_pair. Qed.
Next Obligation. done. Qed.
Next Obligation. done. Qed.
Next Obligation. done. Qed.
Next Obligation. done. Qed.
Next Obligation.
  intros pad j s [= <-]. unfold toy_parse.
  by rewrite drop_app_length' by (by rewrite length_replicate); rewrite bits_pos_bits, decode_encode.
Qed.
Next Obligation.
  intros. cbn beta. f_equal. rewrite length_app. apply take_app_length'. simpl. lia.
Qed.
Next Obligation. intros. cbn beta. rewrite length_app. unfold TAG_SIZE. simpl. lia. Qed.
Next Obligation. done. Qed.

#[global] Instance toy_env : StoreEnv := toy_env_pad 0.

(** An empty directory, a counter at zero, and a credential to store. *)
Definition example_world : World :=
  mkWorld ∅ 0 false (replicate 32 7) true None None 993 0 [] (replicate 12 9).
Definition example_cred : StoredCredential :=
  mkCred (seqZ 1 16) 0 (lit "example.org") [1; 2; 3] (lit "alice") (lit "Alice") (-7) 0
    [5; 5] [6; 6] true 0.
Definition example_put : store_op := DoPut example_cred 1000.

Lemma example_provisioned : provisioned example_world.
Proof. by split_and!. Qed.

Lemma example_op_ok : op_ok example_put.
Proof.
  split_and!; try (by apply bytes_okb_ok; vm_compute); simpl; lia.
Qed.

Lemma example_fits : fits (target example_put example_world).
Proof. intros p E. vm_compute in E. injection E as <-. vm_compute. congruence. Qed.

(** ** Properties *)

(** C25: What the store can be recovered to.  Starting from a newly provisioned system, after
    any sequence of credential operations, loads, process restarts and faults of the disk, the
    counter or the random generator -- before or after they took effect: a new process loads
    a well-formed storage, unless the file in place is larger than the reader accepts, in which
    case every load fails.  The latter takes an operation whose result is over the limit: if
    the result of every operation is within the limit, a new process always loads the store. *)
Theorem store_always_recoverable `{StoreEnv} w w' :
  provisioned w →
  (rtc store_step w w' →
     (∃ m, storage_ok m ∧ reloads w' m) ∨ oversized w' ∧ locked_out w') ∧
  (rtc fitting_step w w' → ∃ m, storage_ok m ∧ reloads w' m).
Proof.
  intros Hp%provisioned_durable. split; intros Hs.
  - pose proof (consistent_steps w w' (durable_consistent w Hp) Hs) as Hc.
    destruct (small_or_oversized w') as [Hl|Ho]; [left; by apply durable_reloads, consistent_small|].
    right. split; [done|]. destruct Hc as [(m & g & Hsl & _) _]. by eapply oversized_locked_out.
  - by apply durable_reloads, (durable_steps w).
Qed.

Lemma store_always_recoverable_witness :
  ∃ m, storage_ok m ∧ reloads (snd (run_op example_put example_world)) m.
Proof.
  apply (store_always_recoverable example_world).
  - exact example_provisioned.
  - apply rtc_once, fitting_mutate; [exact example_op_ok|exact example_fits].
Defined.

(** C24: Operations are atomic across crashes and faults.  From a store that can be loaded,
    whatever the operation and whichever calls fail: an operation that returns has put its
    result in memory and on disk, so that a new process loads exactly that; one that throws
    leaves the memory as it was, and a new process loads either what it would have loaded
    before or the operation's complete result, never anything else.  The size of the result is
    not checked before it is written: in either case, if the result is on disk and over the
    reader's limit, every load of a new process fails instead. *)
Theorem store_operation_atomic `{StoreEnv} w op r w' :
  durable w → op_ok op → run_op op w = (r, w') →
  ∃ m, reloads w m ∧
    match r with
    | Ret _ => accepted op w ∧ w_stored w' = target op w ∧ found w' (target op w)
    | Throw _ => w_stored w' = w_stored w ∧ (reloads w' m ∨ found w' (target op w))
    end.
Proof.
  intros [(m & g & Hdisk & Hm & Hg & Hnear) (Hst & Hgen & Hn)] Hop Hrun.
  exists m. split; [eapply disk_reloads; [done|done|unfold U64_MAX; lia]|].
  destruct (run_op_gen (old_or_new m (target op w) g) op m g w r w') as (_ & _ & _ & Hout); try done.
  { intros Hacc. by apply old_or_new_like, target_ok. }
  { by left. }
  assert (∀ m' g', is_u64 g' → counter_near w' g' → old_or_new m (target op w) g w' m' g' →
    m' = m ∧ reloads w' m ∨ m' = target op w ∧ found w' (target op w)) as Hfound.
  { intros m' g' H64 Hc [(-> & -> & Hd)|(-> & Hw)]; [left|right]; (split; [done|]).
    - eapply disk_reloads; [done|done|unfold U64_MAX; lia].
    - eapply written_found; [done|done|unfold U64_MAX; lia]. }
  destruct Hout as [(-> & Hacc & Hs & _ & _ & H64 & Hd & Hc)|([e ->] & Hs & _ & Hcase)].
  - split_and!; try done.
    destruct (Hfound _ _ H64 Hc Hd) as [[-> ?]|[_ ?]]; [by left|done].
  - split; [done|]. destruct Hcase as [[Hd Hc]|(_ & H64 & Hd & Hc)];
      [destruct (Hfound _ _ Hg Hc Hd) as [[_ ?]|[_ ?]]|
       destruct (Hfound _ _ H64 Hc Hd) as [[_ ?]|[_ ?]]]; auto.
Qed.

(** The write fails after the rename, then the second read of the counter. *)
Definition example_faulty : World := set_env [NoFault; NoFault; FailAfter] (replicate 12 9) example_world.

Lemma store_operation_atomic_witness :
  ∃ w' m, run_op example_put example_faulty = (Throw system_error, w') ∧ reloads example_faulty m ∧
    w_stored w' = w_stored example_faulty ∧
    (reloads w' m ∨ found w' (target example_put example_faulty)).
Proof.
  assert (durable example_faulty) as Hd.
  { apply provisioned_durable. by split_and!. }
  assert ((run_op example_put example_faulty).1 = Throw system_error) as E1
    by (vm_compute; reflexivity).
  destruct (run_op example_put example_faulty) as [r w'] eqn:E. cbn [fst] in E1. subst r.
  destruct (store_operation_atomic example_faulty example_put (Throw system_error) w'
    Hd example_op_ok E) as (m & Hm & Hr).
  exists w', m. exact (conj eq_refl (conj Hm Hr)).
Defined.

(** The envelope on disk, its generation and its plaintext. *)
Definition envelope_at `{StoreEnv} (w : World) (g : Z) (p : list Z) : Prop :=
  ∃ contents, readable w contents ∧ decrypt (w_key w) contents = Ret (g, p).

(** C26: Rollback is detected: a load never accepts an envelope whose generation is behind
    the counter, nor one that is more than one ahead of it, nor a missing file once the
    counter has moved; the refused load leaves the store's memory as it was and the
    counter untouched. *)
Theorem rollback_detected `{StoreEnv} w :
  w_has_counter w = true → w_faults w = [] →
  (∃ g p, envelope_at w g p ∧ (g < w_counter w ∨ w_counter w + 1 < g)) ∨
  (w_file w = None ∧ dir_ready w ∧ w_counter w ≠ 0) →
  load w = (Throw runtime_error, w).
Proof.
  intros Hh Hf [(g & p & (c & (d & f & Hd & Hcd & Hfl & Hcf & <-) & Hdec) & Hg)|(Hfl & Hd & Hc)];
    unfold load, read_store_file, st_bind; rewrite next_fault_nil by done.
  - rewrite Hd, Hcd, Hfl, Hcf. unfold load_envelope, st_bind, st_get, st_lift.
    rewrite Hdec, Hh, counter_read_nil by done.
    destruct Hg as [Hlt|Hgt]; [by rewrite (proj2 (Z.ltb_lt _ _) Hlt)|].
    rewrite (proj2 (Z.ltb_ge _ _)), (proj2 (Z.ltb_lt _ _)) by lia.
    rewrite (proj2 (Z.eqb_neq g _)) by lia. simpl. by rewrite orb_true_r.
  - unfold dir_ready in Hd. assert (match w_dir w with
      | Some d => match check_directory (w_euid w) d with
        | Ret _ => match w_file w with
          | Some file => match check_file (w_euid w) file with
            | Ret _ => (Ret (Some (f_contents file)), w) | Throw e => (Throw e, w) end
          | None => (Ret None, w) end
        | Throw e => (Throw e, w) end
      | None => (Ret None, w) end = (Ret (@None (list Z)), w)) as ->.
    { destruct (w_dir w); [|done]. by rewrite Hd, Hfl. }
    unfold st_get. rewrite Hh. cbv iota beta. rewrite counter_read_nil by done.
    by rewrite (proj2 (Z.eqb_neq _ _) Hc).
Qed.

(** The store after one registration, its file replaced by the one before. *)
Definition example_rolled_back : World :=
  let w1 := snd (run_op example_put example_world) in
  let w2 := snd (run_op (DoIncrement (c_id example_cred) 1000) w1) in
  set_disk (w_dir w1) (w_file w1) w2.

Lemma rollback_detected_witness :
  load example_rolled_back = (Throw runtime_error, example_rolled_back).
Proof.
  apply (rollback_detected example_rolled_back); [by vm_compute|by vm_compute|].
  left. eexists 1, _. split; [|left; by vm_compute].
  eexists. split.
  - eexists _, _. split; [by vm_compute|]. split; [by vm_compute|]. split; [by vm_compute|].
    split; [by vm_compute|reflexivity].
  - vm_compute. reflexivity.
Defined.
