(* ===== verification/CredentialQueries.v ===== *)
(** * What the credential store answers (proofs about CredentialStore.v)

    The functional behaviour of the operations on the store's memory: which credentials a
    mutation touches, that owners never see or change each other's credentials, and which
    credentials an assertion may use, in which order. *)
From Stdlib Require Import ZArith Lia.
From stdpp Require Import base list gmap strings sorting.
From S2P Require Import Prelude Hex CredentialStore CredentialStoreProofs.

(** ** Lexicographic order *)

Lemma lex_ltb_irrefl a : lex_ltb a a = false.
Proof. induction a as [|x a IH]; [done|]. simpl. by rewrite Z.ltb_irrefl. Qed.

Lemma lex_ltb_asym a b : lex_ltb a b = true → lex_ltb b a = false.
Proof.
  revert b. induction a as [|x a IH]; intros [|y b]; simpl; try done.
  destruct (Z.ltb_spec x y), (Z.ltb_spec y x); try done; try lia. apply IH.
Qed.

Lemma lex_ltb_trans a b c : lex_ltb a b = true → lex_ltb b c = true → lex_ltb a c = true.
Proof.
  revert b c. induction a as [|x a IH]; intros [|y b] [|z c]; simpl; try done.
  destruct (Z.ltb_spec x y), (Z.ltb_spec y x), (Z.ltb_spec y z), (Z.ltb_spec z y),
    (Z.ltb_spec x z), (Z.ltb_spec z x); try done; try lia. apply IH.
Qed.

Lemma lex_ltb_total a b : lex_ltb a b = false → lex_ltb b a = false → a = b.
Proof.
  revert b. induction a as [|x a IH]; intros [|y b]; simpl; try done.
  destruct (Z.ltb_spec x y), (Z.ltb_spec y x); try done. intros H1 H2.
  assert (x = y) as -> by lia. f_equal. by apply IH.
Qed.

(** A comparison [std::sort] accepts and whose ties [key] decides. *)
Class StrictOrderOn {A K} (comp : A → A → bool) (key : A → K) := {
  comp_asym x y : comp x y = true → comp y x = false;
  comp_trans x y z : comp x y = true → comp y z = true → comp x z = true;
  comp_key x y : comp x y = false → comp y x = false → key x = key y;
  comp_eq x y : key x = key y → comp x y = false;
}.

Section std_sort.
Context {A K : Type} (comp : A → A → bool) (key : A → K) `{!StrictOrderOn comp key}.

#[local] Instance not_before_total : Total (not_before comp).
Proof.
  intros x y. unfold not_before. destruct (comp y x) eqn:E; [right|by left].
  by apply comp_asym.
Qed.

Lemma comp_cotrans x y z : comp z x = true → comp z y = true ∨ comp y x = true.
Proof.
  intros Hzx. destruct (comp z y) eqn:Ezy; [by left|]. right.
  destruct (comp y z) eqn:Eyz; [by eapply comp_trans|].
  pose proof (comp_key y z Eyz Ezy) as Hk.
  destruct (comp y x) eqn:Eyx; [done|]. destruct (comp x y) eqn:Exy.
  - assert (comp z y = true) by (by eapply comp_trans). congruence.
  - pose proof (comp_key x y Exy Eyx) as Hk'.
    rewrite (comp_eq z x) in Hzx by congruence. done.
Qed.

#[local] Instance not_before_trans : Transitive (not_before comp).
Proof.
  intros x y z Hxy Hyz. unfold not_before in *. destruct (comp z x) eqn:E; [|done].
  destruct (comp_cotrans x y z E); congruence.
Qed.

Lemma StronglySorted_weaken (R R' : relation A) l :
  (∀ x y, R x y → R' x y) → StronglySorted R l → StronglySorted R' l.
Proof. intros HR. induction 1; constructor; [done|]. eapply Forall_impl; eauto. Qed.

(** The sorted arrangement is a permutation in which nothing comes before an element that
    precedes it, and it is the only one when the keys are distinct: the outcome does not
    depend on the sorting algorithm nor on the order of the input. *)
Lemma std_sort_sorted l : StronglySorted (not_before comp) (std_sort comp l).
Proof. unfold std_sort. apply StronglySorted_merge_sort; apply _. Qed.

Lemma std_sort_perm l : std_sort comp l ≡ₚ l.
Proof. apply merge_sort_Permutation. Qed.

Lemma std_sort_unique l l' :
  (∀ x y, x ∈ l → y ∈ l → key x = key y → x = y) →
  l' ≡ₚ l → StronglySorted (not_before comp) l' → l' = std_sort comp l.
Proof.
  intros Hinj Hp Hs. apply (StronglySorted_unique_strong (not_before comp)); [|done| |].
  - intros x y Hx Hy Hxy Hyx. rewrite Hp in Hx. rewrite std_sort_perm in Hy.
    apply Hinj; [done..|]. by apply comp_key.
  - apply std_sort_sorted.
  - by rewrite std_sort_perm.
Qed.
End std_sort.

#[global] Instance newer_strict : StrictOrderOn newer (λ c, (c_creationOrder c, c_id c)).
Proof.
  split; unfold newer.
  - intros x y. rewrite (Z.eqb_sym (c_creationOrder y)).
    destruct (Z.eqb_spec (c_creationOrder x) (c_creationOrder y)); simpl; [apply lex_ltb_asym|].
    intros ?. reflect_bools. apply Z.ltb_ge. lia.
  - intros x y z.
    destruct (Z.eqb_spec (c_creationOrder x) (c_creationOrder y)) as [E1|E1],
      (Z.eqb_spec (c_creationOrder y) (c_creationOrder z)) as [E2|E2],
      (Z.eqb_spec (c_creationOrder x) (c_creationOrder z)) as [E3|E3]; simpl; try congruence;
      rewrite ?Z.ltb_lt; try lia. apply lex_ltb_trans.
  - intros x y. rewrite (Z.eqb_sym (c_creationOrder y)).
    destruct (Z.eqb_spec (c_creationOrder x) (c_creationOrder y)) as [->|]; simpl.
    + intros ??. f_equal. by apply lex_ltb_total.
    + intros ??. reflect_bools. lia.
  - intros x y [= -> ->]. rewrite Z.eqb_refl. apply lex_ltb_irrefl.
Qed.

#[global] Instance summary_before_strict :
  StrictOrderOn summary_before (λ s, (sm_ownerUid s, sm_rpId s, sm_creationOrder s, sm_id s)).
Proof.
  split; unfold summary_before.
  - intros x y. rewrite (Z.eqb_sym (sm_ownerUid y)), (Z.eqb_sym (sm_creationOrder y)).
    destruct (Z.eqb_spec (sm_ownerUid x) (sm_ownerUid y)); simpl; [|rewrite Z.ltb_lt, Z.ltb_ge; lia].
    destruct (decide (sm_rpId x = sm_rpId y)) as [E|E].
    + rewrite !bool_decide_eq_true_2 by congruence. simpl.
      destruct (Z.eqb_spec (sm_creationOrder x) (sm_creationOrder y)); simpl;
        [apply lex_ltb_asym|rewrite Z.ltb_lt, Z.ltb_ge; lia].
    + rewrite !bool_decide_eq_false_2 by congruence. simpl. apply lex_ltb_asym.
  - intros x y z.
    destruct (Z.eqb_spec (sm_ownerUid x) (sm_ownerUid y)) as [O1|O1],
      (Z.eqb_spec (sm_ownerUid y) (sm_ownerUid z)) as [O2|O2],
      (Z.eqb_spec (sm_ownerUid x) (sm_ownerUid z)) as [O3|O3]; simpl; try congruence;
      rewrite ?Z.ltb_lt; try lia.
    case_bool_decide as R1; case_bool_decide as R2; case_bool_decide as R3; simpl;
      try congruence.
    + destruct (Z.eqb_spec (sm_creationOrder x) (sm_creationOrder y)) as [E1|E1],
        (Z.eqb_spec (sm_creationOrder y) (sm_creationOrder z)) as [E2|E2],
        (Z.eqb_spec (sm_creationOrder x) (sm_creationOrder z)) as [E3|E3]; simpl; try congruence;
        rewrite ?Z.ltb_lt; try lia. apply lex_ltb_trans.
    + intros L1 L2. rewrite <- R3 in L2. by rewrite (lex_ltb_asym _ _ L1) in L2.
    + apply lex_ltb_trans.
  - intros x y. rewrite (Z.eqb_sym (sm_ownerUid y)), (Z.eqb_sym (sm_creationOrder y)).
    destruct (Z.eqb_spec (sm_ownerUid x) (sm_ownerUid y)) as [->|]; simpl;
      [|rewrite !Z.ltb_ge; lia].
    destruct (decide (sm_rpId x = sm_rpId y)) as [E|E].
    + rewrite !bool_decide_eq_true_2 by congruence. simpl.
      destruct (Z.eqb_spec (sm_creationOrder x) (sm_creationOrder y)) as [->|]; simpl;
        [|rewrite !Z.ltb_ge; lia].
      intros ??. rewrite E. f_equal. by apply lex_ltb_total.
    + rewrite !bool_decide_eq_false_2 by congruence. simpl. intros ??. destruct E.
      by apply lex_ltb_total.
  - intros x y [= -> -> -> ->]. rewrite !Z.eqb_refl, bool_decide_eq_true_2 by done.
    apply lex_ltb_irrefl.
Qed.

(** ** Saving never touches the credentials in memory *)

(** A field of the store that the environment calls and the reload mark leave alone. *)
Class Untouched {B} (field : World → B) := {
  untouched_faults l w : field (set_faults l w) = field w;
  untouched_reload b w : field (set_reload b w) = field w;
  untouched_disk d f w : field (set_disk d f w) = field w;
  untouched_counter c w : field (set_counter c w) = field w;
}.
#[export] Instance untouched_stored : Untouched w_stored. Proof. by split. Qed.
#[export] Instance untouched_generation : Untouched w_generation. Proof. by split. Qed.

(** Code that leaves the field alone, whatever the environment does. *)
Definition keeps {A B} (field : World → B) (m : ST World A) : Prop :=
  ∀ w, field (m w).2 = field w.

Section keeps.
Context {B : Type} (field : World → B) `{!Untouched field}.

Lemma keeps_ret {A} (a : A) : keeps field (st_ret a). Proof. done. Qed.
Lemma keeps_throw {A} e : keeps (A:=A) field (st_throw e). Proof. done. Qed.
Lemma keeps_lift {A} (r : res A) : keeps field (st_lift r). Proof. done. Qed.
Lemma keeps_get : keeps field st_get. Proof. done. Qed.
Lemma keeps_bind {A C} (m : ST World A) (k : A → ST World C) :
  keeps field m → (∀ a, keeps field (k a)) → keeps field (st_bind m k).
Proof.
  intros Hm Hk w. unfold st_bind. specialize (Hm w). destruct (m w) as [[a|e] w'].
  - rewrite Hk. exact Hm.
  - exact Hm.
Qed.
Lemma keeps_catch {A} (m : ST World A) h :
  keeps field m → (∀ e, keeps field (h e)) → keeps field (st_catch m h).
Proof.
  intros Hm Hh w. unfold st_catch. specialize (Hm w). destruct (m w) as [[a|e] w'].
  - exact Hm.
  - rewrite Hh. exact Hm.
Qed.
Lemma keeps_modify f : (∀ w, field (f w) = field w) → keeps field (st_modify f).
Proof. intros Hf w. apply Hf. Qed.
Lemma keeps_next_fault : keeps field next_fault.
Proof.
  intros w. unfold next_fault. destruct (w_faults w); [done|]. apply untouched_faults.
Qed.
End keeps.

#[export] Hint Extern 0 (Untouched _) => apply _ : vauth.
#[export] Hint Resolve keeps_ret keeps_throw keeps_lift keeps_get keeps_next_fault : vauth.
#[export] Hint Resolve untouched_faults untouched_reload untouched_disk untouched_counter : vauth.

(** Decomposes the code and splits on its tests. *)
Ltac keeps :=
  repeat (intros; match goal with
  | |- keeps _ (st_bind _ _) => apply keeps_bind
  | |- keeps _ (st_catch _ _) => apply keeps_catch
  | |- keeps _ (match ?x with _ => _ end) => destruct x
  | |- keeps _ (st_modify _) => apply keeps_modify
  | |- keeps _ _ => solve [auto with vauth | done]
  | |- ?f (match ?x with _ => _ end) = _ => destruct x
  | |- _ = _ => solve [auto with vauth | done]
  end); try done.

Section keeps_store.
Context {B : Type} (field : World → B) `{!Untouched field}.

Lemma keeps_counter_read : keeps field counter_read.
Proof. unfold counter_read. keeps. Qed.
Lemma keeps_counter_increment : keeps field counter_increment.
Proof. unfold counter_increment. keeps. Qed.
Lemma keeps_atomic_write c : keeps field (atomic_write_file c).
Proof.
  unfold atomic_write_file, prepare_store_directory, open_store_directory. keeps.
  intros w. by destruct (w_dir w).
Qed.
Lemma keeps_commit_counter n : keeps field (commit_counter n).
Proof.
  pose proof keeps_counter_read. pose proof keeps_counter_increment.
  unfold commit_counter, advance_counter, recheck_counter. keeps.
Qed.
Lemma keeps_encrypt `{StoreEnv} p g : keeps field (encrypt p g).
Proof. unfold encrypt, random_nonce. keeps. Qed.
Lemma keeps_confirmed_generation : keeps field confirmed_generation.
Proof. pose proof keeps_counter_read. unfold confirmed_generation. keeps. Qed.
End keeps_store.
#[export] Hint Resolve keeps_counter_read keeps_counter_increment keeps_atomic_write : vauth.
#[export] Hint Resolve keeps_commit_counter keeps_encrypt keeps_confirmed_generation : vauth.

Section memory.
Context `{StoreEnv}.

Lemma keeps_save m : keeps w_stored (save_storage m).
Proof. unfold save_storage. keeps. Qed.

(** A save advances the generation by one, or leaves it. *)
Definition generation_step (g : Z) (w' : World) : Prop :=
  w_generation w' = g ∨ w_generation w' = g + 1 ∧ g ≠ U64_MAX.

Lemma generation_bind {A} g (m : ST World A) (k : A → ST World ()) w :
  keeps w_generation m → w_generation w = g →
  (∀ a w2, w_generation w2 = g → generation_step g (k a w2).2) →
  generation_step g (st_bind m k w).2.
Proof.
  intros Hm Hw Hk. unfold st_bind. specialize (Hm w). destruct (m w) as [[a|e] w2].
  - apply Hk. by rewrite <- Hw, <- Hm.
  - left. by rewrite <- Hw, <- Hm.
Qed.

Lemma save_generation m w : generation_step (w_generation w) (save_storage m w).2.
Proof.
  unfold save_storage. unfold st_bind at 1, st_get. destruct (w_requiresReload w); [by left|].
  unfold st_bind at 1. destruct (confirmed_generation_spec w) as (r & l & -> & Hr).
  destruct r as [current|e]; [|by left]. destruct (Hr current eq_refl) as [-> _].
  destruct (w_generation w =? U64_MAX) eqn:Emax; [by left|]. apply Z.eqb_neq in Emax.
  apply generation_bind; [auto with vauth|done|]. intros p w1 E1.
  apply generation_bind; [auto with vauth|done|]. intros c w2 E2.
  apply generation_bind; [auto with vauth|done|]. intros [] w3 E3.
  apply generation_bind; [destruct (w_has_counter w); auto with vauth|done|].
  intros [] w4 E4. by right.
Qed.

Lemma run_op_generation op w :
  is_u64 (w_generation w) → is_u64 (w_generation (run_op op w).2).
Proof.
  intros Hg. destruct (run_op_cases op w) as [(e & -> & _)|[_ ->]]; [done|].
  unfold commit, st_bind. pose proof (save_generation (target op w) w) as Hs.
  unfold generation_step in Hs.
  destruct (save_storage (target op w) w) as [[[]|e] w']; simpl in *; unfold U64_MAX in *;
    destruct Hs as [->|[-> ?]]; lia.
Qed.

(** In memory an operation has its whole effect or none. *)
Lemma run_op_memory op w r w' :
  run_op op w = (r, w') →
  match r with
  | Ret _ => accepted op w ∧ w_requiresReload w = false ∧ w_stored w' = target op w
  | Throw _ => w_stored w' = w_stored w
  end.
Proof.
  intros Hrun. destruct (run_op_cases op w) as [(e & E & _)|[Hacc E]]; rewrite E in Hrun.
  { by injection Hrun as <- <-. }
  unfold commit, st_bind in Hrun. pose proof (keeps_save (target op w) w) as Hk.
  destruct (save_storage (target op w) w) as [[[]|e] w0] eqn:Es; injection Hrun as <- <-; [|exact Hk].
  split; [done|]. split; [|done]. unfold save_storage, st_bind, st_get in Es.
  by destruct (w_requiresReload w).
Qed.

Lemma same_account_owner n c : same_account n c = true → c_ownerUid c = c_ownerUid n.
Proof. unfold same_account. intros ?. by reflect_bools. Qed.
End memory.

(** The user on whose behalf an operation runs; [clear] runs for all. *)
Definition op_owner (op : store_op) : option Z :=
  match op with
  | DoPut _ owner | DoErase _ owner | DoIncrement _ owner => Some owner
  | DoClear => None
  end.

(** C29: Users are isolated: an operation run for one local user, whatever it returns and
    whatever fails during it, neither adds, removes nor changes any credential that
    belongs to another user. *)
Theorem users_isolated `{StoreEnv} op w owner k c :
  op_owner op = Some owner → c_ownerUid c ≠ owner →
  (w_stored (run_op op w).2 !! k = Some c ↔ w_stored w !! k = Some c).
Proof.
  intros Ho Hc. destruct (run_op op w) as [[[]|e] w'] eqn:E; apply run_op_memory in E; simpl;
    [|by rewrite E]. destruct E as (Hacc & _ & ->).
  destruct op as [cred o|id o|id o|]; simplify_eq/=.
  - destruct Hacc as (_ & _ & Hn & _). rewrite lookup_insert_Some, without_account_lookup. split.
    + intros [[<- <-]|(_ & Hl & _)]; [done|exact Hl].
    + intros Hl. right. split; [congruence|]. split; [exact Hl|]. intros _.
      destruct (same_account _ c) eqn:Es; [|done]. by apply same_account_owner in Es.
  - destruct Hacc as (c0 & _ & Hl0 & Hoc). rewrite lookup_delete_Some. split; [by intros [_ ?]|].
    intros Hl. split; [congruence|exact Hl].
  - destruct Hacc as (c0 & _ & Hl0 & Hoc & _). rewrite Hl0, lookup_insert_Some. split.
    + intros [[<- <-]|(_ & Hl)]; [done|exact Hl].
    + intros Hl. right. split; [congruence|exact Hl].
Qed.

Lemma users_isolated_witness :
  w_stored (run_op (DoErase (c_id example_cred) 1001) (run_op example_put example_world).2).2
    !! hex_string (c_id example_cred) = Some (put_credential example_cred 1000 example_world).
Proof.
  apply (users_isolated (DoErase (c_id example_cred) 1001) _ 1001).
  - reflexivity.
  - vm_compute. discriminate.
  - vm_compute. reflexivity.
Defined.

(** ** Operations that meet no fault *)

(** A store that is loaded, agrees with its counter and meets no fault. *)
Definition healthy (w : World) : Prop :=
  w_requiresReload w = false ∧ w_faults w = [] ∧ dir_ready w ∧
  (w_has_counter w = true → w_counter w = w_generation w) ∧ w_generation w < U64_MAX ∧
  length (w_nonce w) = 12%nat.

Lemma atomic_write_clean contents w :
  w_faults w = [] → dir_ready w →
  ∃ d, check_directory (w_euid w) d = Ret () ∧
    atomic_write_file contents w =
      (Ret (), set_disk (Some d) (Some (mkFile contents true 1 (w_euid w) FILE_MODE)) w).
Proof.
  intros Hf Hd. unfold atomic_write_file, prepare_store_directory, open_store_directory, st_bind,
    st_modify. unfold dir_ready in Hd. destruct (w_dir w) as [d|] eqn:Ed.
  - rewrite Ed, Hd, next_fault_nil by done. exists d. split; [done|]. by rewrite Ed.
  - simpl. rewrite check_directory_new, next_fault_nil by done.
    eexists. split; [apply check_directory_new|done].
Qed.

Section clean.
Context `{StoreEnv}.

Lemma encrypt_clean p g w :
  w_faults w = [] → length (w_nonce w) = 12%nat → len p ≤ INT_MAX →
  ∃ c, encrypt p g w = (Ret c, w) ∧ len c = len p + HEADER_SIZE + TAG_SIZE.
Proof.
  intros Hf Hn Hp. exists (envelope_header g (w_nonce w) ++
    gcm_seal (w_key w) (w_nonce w) (envelope_header g (w_nonce w)) p). split.
  { unfold encrypt, random_nonce, st_bind. rewrite next_fault_nil by done.
    unfold st_lift, openssl_checked_size. rewrite length_header by done. simpl.
    by rewrite (proj2 (Z.ltb_ge _ _)) by done. }
  rewrite length_app, Nat2Z.inj_add, length_header, length_seal by done.
  change HEADER_SIZE with 29. lia.
Qed.

(** Without faults a commit goes through, and the store stays healthy. *)
Lemma commit_clean m p w :
  healthy w → storage_plaintext m = Ret p → len p ≤ INT_MAX →
  ∃ w' d c, commit m w = (Ret (), w') ∧ w_stored w' = m ∧ w_requiresReload w' = false ∧
    w_dir w' = Some d ∧ check_directory (w_euid w') d = Ret () ∧
    w_file w' = Some (mkFile c true 1 (w_euid w') FILE_MODE) ∧
    len c = len p + HEADER_SIZE + TAG_SIZE.
Proof.
  intros (Hr & Hf & Hd & Hc & Hg & Hn) Hp Hlen. unfold commit, save_storage.
  unfold st_bind at 1. unfold st_bind at 1, st_get. rewrite Hr.
  assert (confirmed_generation w = (Ret (w_generation w), w)) as Hcg.
  { unfold confirmed_generation, st_bind, st_get. destruct (w_has_counter w) eqn:Eh; [|done].
    rewrite counter_read_nil, Hc, Z.eqb_refl by done. done. }
  unfold st_bind at 1. rewrite Hcg, (proj2 (Z.eqb_neq _ _)) by lia.
  unfold st_bind at 1, st_lift. rewrite Hp. unfold st_bind at 1.
  destruct (encrypt_clean p (w_generation w + 1) w Hf Hn Hlen) as (c & -> & Hlc).
  unfold st_bind at 1. destruct (atomic_write_clean c w Hf Hd) as (d & Hcd & ->).
  unfold st_bind at 1. destruct (w_has_counter w) eqn:Eh.
  - set (w1 := set_disk _ _ w). assert (w_faults w1 = []) as Hf1 by exact Hf.
    assert (commit_counter (w_generation w + 1) w1 = (Ret (), set_counter (w_counter w1 + 1) w1)) as ->.
    { unfold commit_counter, advance_counter, st_catch, st_bind.
      rewrite counter_increment_nil, counter_read_nil by done. simpl.
      by rewrite Hc, Z.eqb_refl. }
    eexists _, d, c. split; [reflexivity|]. by split_and!.
  - eexists _, d, c. split; [reflexivity|]. by split_and!.
Qed.

(** What has to hold of the storage for its text to be written. *)
Definition writable (m : Storage) : Prop :=
  ∃ p, storage_plaintext m = Ret p ∧ len p ≤ INT_MAX.

Lemma run_op_clean op w :
  healthy w → accepted op w → writable (target op w) →
  ∃ w', run_op op w = (Ret (), w') ∧ w_stored w' = target op w ∧ w_requiresReload w' = false.
Proof.
  intros Hh Hacc (p & Hp & Hl).
  destruct (run_op_cases op w) as [(e & _ & [Hr|Hn])|[_ ->]];
    [destruct Hh as [Hf _]; congruence|done|].
  destruct (commit_clean _ p w Hh Hp Hl) as (w' & d & c & E & Hs & Hr & _). by exists w'.
Qed.

Lemma get_by_credId_spec id owner w :
  w_requiresReload w = false → len id ≤ 2 ^ 60 →
  get_by_credId id owner w =
    (match w_stored w !! hex_string id with
     | Some c => if c_ownerUid c =? owner then Ret c else Throw out_of_range
     | None => Throw out_of_range
     end, w).
Proof.
  intros Hr Hl. unfold get_by_credId, require_ready, find_credential, st_bind, st_get, st_lift.
  rewrite Hr, hex_encode_bounded by done. simpl.
  destruct (w_stored w !! hex_string id) as [c|]; [|done]. by destruct (c_ownerUid c =? owner).
Qed.
End clean.

(** A stored credential can be used: putting an acceptable credential succeeds, after
    which its owner (and nobody else) gets exactly it back under its identifier, stamped
    with the next creation order; every other credential stays, except the discoverable
    ones of the same account that it replaces; and the store stays within its capacity. *)
Theorem put_then_get `{StoreEnv} cred owner w :
  healthy w → accepted (DoPut cred owner) w → writable (target (DoPut cred owner) w) →
  ∃ w', put cred owner w = (Ret (), w') ∧
    get_by_credId (c_id cred) owner w' = (Ret (put_credential cred owner w), w') ∧
    (∀ other, other ≠ owner → get_by_credId (c_id cred) other w' = (Throw out_of_range, w')) ∧
    (∀ k, k ≠ hex_string (c_id cred) → w_stored w' !! k =
       match w_stored w !! k with
       | Some c => if c_discoverable cred && same_account (put_credential cred owner w) c
                   then None else Some c
       | None => None
       end) ∧
    Z.of_nat (size (w_stored w')) ≤ MAX_CREDENTIALS.
Proof.
  intros Hh Hacc Hw. destruct (run_op_clean _ _ Hh Hacc Hw) as (w' & Hrun & Hs & Hr).
  exists w'. split; [exact Hrun|]. destruct Hacc as (_ & Hv & Hn & Hsz).
  apply validate_credential_ok in Hv as (Hid & _). simpl in Hid.
  assert (w_stored w' !! hex_string (c_id cred) = Some (put_credential cred owner w)) as Hl
    by (rewrite Hs; apply lookup_insert_eq).
  split_and!.
  - rewrite get_by_credId_spec, Hl by (done || lia). simpl. by rewrite Z.eqb_refl.
  - intros other Ho. rewrite get_by_credId_spec, Hl by (done || lia). simpl.
    by rewrite (proj2 (Z.eqb_neq _ _)) by congruence.
  - intros k Hk. rewrite Hs. simpl. rewrite lookup_insert_ne by done.
    apply option_eq. intros c. rewrite without_account_lookup. simpl.
    destruct (w_stored w !! k) as [c0|]; [|split; [by intros [? _]|done]].
    destruct (c_discoverable cred); simpl.
    + destruct (same_account (put_credential cred owner w) c0) eqn:Ea; split; try done.
      * intros [[= <-] Hf]. rewrite Hf in Ea; done.
      * by intros [? _].
      * by intros [= <-].
    + split; [by intros [? _]|]. by intros [= <-].
  - rewrite Hs. simpl. rewrite map_size_insert_None by (by apply without_account_none). lia.
Qed.

Lemma example_accepted : accepted example_put example_world.
Proof. split_and!; by vm_compute. Qed.

Lemma example_healthy : healthy example_world.
Proof. by split_and!. Qed.

Lemma example_writable : writable (target example_put example_world).
Proof. eexists. split; [vm_compute; reflexivity|]. by vm_compute. Qed.

Definition example_stored : World := (run_op example_put example_world).2.

Lemma example_stored_target : w_stored example_stored = target example_put example_world.
Proof.
  assert ((run_op example_put example_world).1 = Ret ()) as Hr by (vm_compute; reflexivity).
  unfold example_stored. destruct (run_op example_put example_world) as [r w'] eqn:E.
  apply run_op_memory in E. simpl in Hr. rewrite Hr in E. by destruct E as (_ & _ & ?).
Qed.

Lemma example_stored_ok : storage_ok (w_stored example_stored).
Proof.
  rewrite example_stored_target.
  apply target_ok; [apply storage_ok_empty|exact example_op_ok|exact example_accepted|by split].
Qed.

Lemma put_then_get_witness :
  ∃ w', put example_cred 1000 example_world = (Ret (), w') ∧
    get_by_credId (c_id example_cred) 1000 w' =
      (Ret (put_credential example_cred 1000 example_world), w').
Proof.
  destruct (put_then_get example_cred 1000 example_world example_healthy example_accepted
    example_writable) as (w' & H1 & H2 & _).
  exists w'. split; [exact H1|exact H2].
Defined.

(** The signature counter never repeats: when incrementing succeeds, the counter of
    that credential is exactly one higher, without wrapping around, and nothing else in
    the store changed; at the maximum, for an unknown credential and for another user's
    credential it refuses, and every failure leaves all counters as they were. *)
Theorem signature_counter `{StoreEnv} id owner w r w' :
  storage_ok (w_stored w) → incrementSigCount id owner w = (r, w') →
  match r with
  | Ret _ => ∃ c, w_stored w !! hex_string id = Some c ∧ c_ownerUid c = owner ∧
      c_signCount c < U32_MAX ∧
      w_stored w' = <[hex_string id := with_signCount (c_signCount c + 1) c]> (w_stored w)
  | Throw _ => w_stored w' = w_stored w
  end ∧
  (∀ c, w_stored w !! hex_string id = Some c →
     c_ownerUid c ≠ owner ∨ c_signCount c = U32_MAX → is_ret r = false ∧ w' = w).
Proof.
  intros [Hm _] Hrun. pose proof (run_op_memory (DoIncrement id owner) w r w' Hrun) as Hmem.
  split.
  - destruct r as [[]|e]; [|exact Hmem].
    destruct Hmem as ((c & _ & Hl & Ho & Hc) & _ & Ht). exists c.
    destruct (Hm _ _ Hl) as [_ (_ & _ & _ & _ & _ & _ & Hsc)]. simpl in Ht. rewrite Hl in Ht.
    unfold U32_MAX in *. rewrite u32_small in Ht by lia. split_and!; done || lia.
  - intros c Hl Hbad.
    destruct (run_op_cases (DoIncrement id owner) w) as [(e & E & _)|[(c' & _ & Hl' & Ho & Hc) _]].
    + change (run_op _ w) with (incrementSigCount id owner w) in E. rewrite E in Hrun.
      injection Hrun as <- <-. done.
    + rewrite Hl in Hl'. injection Hl' as <-. destruct Hbad; congruence.
Qed.

Lemma signature_counter_witness :
  w_stored (incrementSigCount (c_id example_cred) 1000 example_stored).2 =
    <[hex_string (c_id example_cred) :=
        with_signCount 1 (put_credential example_cred 1000 example_world)]>
      (w_stored example_stored).
Proof.
  assert ((incrementSigCount (c_id example_cred) 1000 example_stored).1 = Ret ()) as E
    by (vm_compute; reflexivity).
  destruct (signature_counter (c_id example_cred) 1000 example_stored (Ret ())
    (incrementSigCount (c_id example_cred) 1000 example_stored).2 example_stored_ok)
    as [(c & Hc & _ & _ & Hr) _].
  - rewrite <- E. apply surjective_pairing.
  - rewrite Hr. rewrite example_stored_target in Hc at 1.
    change (target example_put example_world) with
      (<[hex_string (c_id example_cred) := put_credential example_cred 1000 example_world]>
         (without_account (put_credential example_cred 1000 example_world) ∅)) in Hc.
    rewrite lookup_insert_eq in Hc. injection Hc as <-. reflexivity.
Defined.

(** ** Lookups for an assertion *)

Section lookups.
Context `{StoreEnv}.

Lemma map_order_elem m c : c ∈ (map_order m).*2 ↔ ∃ k, m !! k = Some c.
Proof.
  rewrite list_elem_of_fmap. split.
  - intros ([k c'] & -> & Hin). rewrite map_order_perm in Hin. exists k.
    by apply elem_of_map_to_list in Hin.
  - intros [k Hk]. exists (k, c). split; [done|]. rewrite map_order_perm.
    by apply elem_of_map_to_list.
Qed.

(** In a well-formed storage the identifier determines the credential. *)
Lemma storage_id_inj m k k' c c' :
  storage_ok m → m !! k = Some c → m !! k' = Some c' → c_id c = c_id c' → c = c'.
Proof.
  intros [Hm _] Hk Hk' Hid. destruct (Hm _ _ Hk) as [-> _], (Hm _ _ Hk') as [-> _]. congruence.
Qed.

Lemma map_order_nodup_snd m : storage_ok m → NoDup (map_order m).*2.
Proof.
  intros Hm. pose proof (map_order_items m Hm) as Hi. pose proof (map_order_nodup m) as Hnd.
  revert Hi Hnd. generalize (map_order m). intros items Hi Hnd.
  induction Hi as [|[k c] items [Hk Hc] Hi IH]; [constructor|].
  rewrite fmap_cons in Hnd. rewrite fmap_cons. apply NoDup_cons in Hnd as [Hni Hnd].
  apply NoDup_cons. split; [|by apply IH].
  intros Hin. apply Hni. apply list_elem_of_fmap in Hin as ([k' c'] & E & Hin). simpl in E. subst c'.
  apply list_elem_of_fmap. exists (k', c). split; [|done].
  pose proof (proj1 (Forall_forall _ _) Hi _ Hin) as [Hk' _]. simpl in *. congruence.
Qed.

(** The credentials an allow list admits: the owner's for the relying party, whose
    identifier a public-key descriptor names and which were not taken before. *)
Definition allowed (m : Storage) (rp : list Z) (owner : Z)
    (allow : list PublicKeyCredentialDescriptor) (seen : gset (list Z))
    (c : StoredCredential) : Prop :=
  (∃ d, d ∈ allow ∧ d_type d = lit "public-key" ∧ d_id d = c_id c) ∧
  hex_string (c_id c) ∉ seen ∧ m !! hex_string (c_id c) = Some c ∧
  belongs_to_rp rp owner c = true.

(** A descriptor of another type, or for an identifier already taken, admits nothing. *)
Lemma allowed_skip m rp owner d allow seen c :
  d_type d ≠ lit "public-key" ∨ hex_string (d_id d) ∈ seen →
  allowed m rp owner (d :: allow) seen c ↔ allowed m rp owner allow seen c.
Proof.
  intros Hd. unfold allowed. split; intros [(d' & Hin & Ht & Hid) Hr]; (split; [|exact Hr]).
  - apply elem_of_cons in Hin as [->|Hin]; [|by exists d'].
    destruct Hd as [Hd|Hd]; [done|]. rewrite Hid in Hd. by destruct Hr.
  - exists d'. split; [by apply list_elem_of_further|done].
Qed.

(** Any other descriptor admits the credential it names, before the rest. *)
Lemma allowed_step m rp owner d allow seen c :
  storage_ok m → bytes_ok (d_id d) → d_type d = lit "public-key" →
  hex_string (d_id d) ∉ seen →
  allowed m rp owner (d :: allow) seen c ↔
  m !! hex_string (d_id d) = Some c ∧ belongs_to_rp rp owner c = true ∨
  allowed m rp owner allow ({[hex_string (d_id d)]} ∪ seen) c.
Proof.
  intros [Hm _] Hb Ht Hns. unfold allowed. rewrite not_elem_of_union, not_elem_of_singleton. split.
  - intros ((d' & Hin & Ht' & Hid) & Hn & Hl & Hbl).
    destruct (decide (hex_string (c_id c) = hex_string (d_id d))) as [He|He].
    + left. by rewrite <- He.
    + right. split_and!; try done. apply elem_of_cons in Hin as [->|Hin]; [congruence|by exists d'].
  - intros [[Hl Hbl]|((d' & Hin & Hrest) & [_ Hn] & Hr)].
    + destruct (Hm _ _ Hl) as [Hk (_ & Hbc & _)]. apply hex_string_inj in Hk; [|done|done].
      rewrite <- Hk. split_and!; try done. exists d. split; [apply list_elem_of_here|done].
    + split_and!; try done; [|by destruct Hr..]. exists d'.
      split; [by apply list_elem_of_further|done].
Qed.

Lemma find_allowed_spec m rp owner allow seen l :
  storage_ok m → Forall (λ d, bytes_ok (d_id d)) allow →
  find_allowed m rp owner allow seen = Ret l →
  NoDup l ∧ ∀ c, c ∈ l ↔ allowed m rp owner allow seen c.
Proof.
  intros Hm Hb. revert seen l. induction Hb as [|d allow Hbd Hb IH]; intros seen l Hf;
    cbn [find_allowed] in Hf.
  { injection Hf as <-. split; [constructor|]. intros c. split; [by intros ?%not_elem_of_nil|].
    intros [(d & Hd & _) _]. by apply not_elem_of_nil in Hd. }
  destruct (bool_decide (d_type d = lit "public-key")) eqn:Et; cbn [negb] in Hf; reflect_bools.
  2:{ setoid_rewrite allowed_skip; [by apply IH|by left]. }
  destruct (hex_encode (d_id d)) as [k|] eqn:Ek; [|done]. apply hex_encode_ret in Ek as ->.
  cbn [mbind res_bind] in Hf.
  destruct (bool_decide (hex_string (d_id d) ∈ seen)) eqn:Es; reflect_bools.
  { setoid_rewrite allowed_skip; [by apply IH|by right]. }
  destruct (find_allowed m rp owner allow _) as [ms|] eqn:Ef; [|done].
  cbn [mbind res_bind] in Hf. destruct (IH _ ms Ef) as [Hnd Hms].
  setoid_rewrite allowed_step; [|done..]. setoid_rewrite <- Hms.
  destruct (m !! hex_string (d_id d)) as [c0|] eqn:E0.
  - destruct (belongs_to_rp rp owner c0) eqn:Eb; injection Hf as <-.
    + split; [|intros c; rewrite elem_of_cons; split; (intros [Hc|?]; [left|by right])];
        [|by rewrite Hc|by destruct Hc as [[= <-] _]].
      apply NoDup_cons. split; [|done]. rewrite Hms. intros (_ & Hns & _). apply Hns.
      destruct Hm as [Hm _]. destruct (Hm _ _ E0) as [<- _]. set_solver.
    + split; [done|]. intros c. split; [by right|]. intros [[[= <-] Hb']|?]; [congruence|done].
  - injection Hf as <-. split; [done|]. intros c. split; [by right|]. by intros [[? _]|?].
Qed.

Lemma find_allowed_returns m rp owner allow seen :
  Forall (λ d, len (d_id d) ≤ 2 ^ 60) allow →
  ∃ l, find_allowed m rp owner allow seen = Ret l.
Proof.
  intros Hl. revert seen. induction Hl as [|d allow Hd _ IH]; intros seen; [by eexists|].
  cbn [find_allowed]. destruct (bool_decide (d_type d = lit "public-key")); simpl negb; cbv iota; [|done].
  rewrite hex_encode_bounded by done. cbn [mbind res_bind].
  destruct (bool_decide _); [done|]. destruct (IH ({[hex_string (d_id d)]} ∪ seen)) as [ms ->].
  cbn [mbind res_bind]. destruct (m !! _) as [c|]; [|by eexists]. by destruct (belongs_to_rp _ _ _); eexists.
Qed.
End lookups.

(** An assertion with an allow list may use exactly the credentials of this user and
    this relying party that a public-key descriptor of the list names, each of them once,
    however often the list names it. *)
Theorem allow_list_lookup `{StoreEnv} rp d allow owner w :
  w_requiresReload w = false → storage_ok (w_stored w) →
  Forall (λ d, bytes_ok (d_id d) ∧ len (d_id d) ≤ 2 ^ 60) (d :: allow) →
  ∃ l, find_for_assertion rp (d :: allow) owner w = (Ret l, w) ∧ NoDup l ∧
    ∀ c, c ∈ l ↔
      (∃ d', d' ∈ d :: allow ∧ d_type d' = lit "public-key" ∧ d_id d' = c_id c) ∧
      (∃ k, w_stored w !! k = Some c) ∧ c_ownerUid c = owner ∧ c_rpId c = rp.
Proof.
  intros Hr Hok Hd. destruct (find_allowed_returns (w_stored w) rp owner (d :: allow) ∅) as [l Hl].
  { eapply Forall_impl; [exact Hd|]. by intros ? [_ ?]. }
  exists l. split.
  { unfold find_for_assertion, require_ready, st_bind, st_get, st_lift. rewrite Hr.
    rewrite (proj2 (Z.ltb_lt _ _)) by (cbn [length]; lia). unfold st_ret. by rewrite Hl. }
  destruct (find_allowed_spec _ _ _ _ _ _ Hok
    (Forall_impl _ _ _ Hd (λ d, @proj1 _ _)) Hl) as [Hnd Hel].
  split; [exact Hnd|]. intros c. rewrite Hel. unfold allowed, belongs_to_rp.
  rewrite andb_true_iff, Z.eqb_eq, bool_decide_eq_true. split.
  - intros (Hd' & _ & Hs & Hb). split; [exact Hd'|]. split; [by eexists|exact Hb].
  - intros (Hd' & [k Hk] & Hb). destruct Hok as [Hm _]. destruct (Hm _ _ Hk) as [-> _].
    split_and!; [done|set_solver|done|by destruct Hb..].
Qed.

Lemma allow_list_lookup_witness :
  let d := mkDescriptor (lit "public-key") (c_id example_cred) [] in
  ∃ l, find_for_assertion (lit "example.org") [d; d] 1000 example_stored = (Ret l, example_stored) ∧
    put_credential example_cred 1000 example_world ∈ l ∧ NoDup l.
Proof.
  intros d. destruct (allow_list_lookup (lit "example.org") d [d] 1000 example_stored)
    as (l & Hl & Hnd & Hel).
  - by vm_compute.
  - exact example_stored_ok.
  - repeat constructor; try (by apply bytes_okb_ok; vm_compute); by vm_compute.
  - exists l. split; [exact Hl|]. split; [|exact Hnd]. apply Hel.
    split; [|split; [|split; reflexivity]].
    + exists d. split; [apply list_elem_of_here|split; reflexivity].
    + exists (hex_string (c_id example_cred)). vm_compute. reflexivity.
Defined.

(** Without an allow list an assertion offers exactly this user's discoverable
    credentials for the relying party, each once, the most recently created first; the
    list is the only arrangement the comparison admits, so that neither the hash map's
    iteration order nor the sorting algorithm can change it. *)
Theorem discoverable_lookup `{StoreEnv} rp owner w :
  w_requiresReload w = false → storage_ok (w_stored w) →
  ∃ l, find_for_assertion rp [] owner w = (Ret l, w) ∧ NoDup l ∧
    (∀ c, c ∈ l ↔ (∃ k, w_stored w !! k = Some c) ∧ c_ownerUid c = owner ∧
                  c_discoverable c = true ∧ c_rpId c = rp) ∧
    StronglySorted (λ x y, c_creationOrder y ≤ c_creationOrder x) l ∧
    (∀ l', l' ≡ₚ l → StronglySorted (not_before newer) l' → l' = l).
Proof.
  intros Hr Hok. set (found := filter (λ c, discoverable_for rp owner c = true)
    ((map_order (w_stored w)).*2)).
  assert (∀ c, c ∈ found ↔ (∃ k, w_stored w !! k = Some c) ∧ c_ownerUid c = owner ∧
    c_discoverable c = true ∧ c_rpId c = rp) as Hel.
  { intros c. unfold found. rewrite list_elem_of_filter, map_order_elem. unfold discoverable_for.
    rewrite !andb_true_iff, Z.eqb_eq, bool_decide_eq_true. intuition auto. }
  exists (std_sort newer found). split_and!.
  - unfold find_for_assertion, require_ready, st_bind, st_get. by rewrite Hr.
  - rewrite std_sort_perm. by apply NoDup_filter, map_order_nodup_snd.
  - intros c. by rewrite std_sort_perm, Hel.
  - eapply StronglySorted_weaken; [|apply (std_sort_sorted newer _ found)].
    intros x y. unfold not_before, newer. rewrite Z.eqb_sym.
    destruct (Z.eqb_spec (c_creationOrder x) (c_creationOrder y)) as [->|]; simpl; [done|].
    intros ?. reflect_bools. lia.
  - intros l' Hp Hs. apply (std_sort_unique newer (λ c, (c_creationOrder c, c_id c))); [|by rewrite std_sort_perm in Hp|done].
    intros x y ([k Hx] & _)%Hel ([k' Hy] & _)%Hel [= _ Hid]. by eapply storage_id_inj.
Qed.

Lemma discoverable_lookup_witness :
  ∃ l, find_for_assertion (lit "example.org") [] 1000 example_stored = (Ret l, example_stored) ∧
    put_credential example_cred 1000 example_world ∈ l.
Proof.
  destruct (discoverable_lookup (lit "example.org") 1000 example_stored) as (l & Hl & _ & Hel & _);
    [by vm_compute|exact example_stored_ok|].
  exists l. split; [exact Hl|]. apply Hel. split; [|split; [|split]; reflexivity].
  exists (hex_string (c_id example_cred)). vm_compute. reflexivity.
Defined.

(** The administrator's listing shows every credential once, in the documented order. *)
Lemma list_credentials_complete `{StoreEnv} w :
  w_requiresReload w = false →
  ∃ l, list_credentials w = (Ret l, w) ∧
    l ≡ₚ summary_of <$> (map_to_list (w_stored w)).*2 ∧
    StronglySorted (not_before summary_before) l.
Proof.
  intros Hr. eexists. split; [|split].
  - unfold list_credentials, require_ready, st_bind, st_get. by rewrite Hr.
  - by rewrite std_sort_perm, map_order_perm.
  - apply (std_sort_sorted summary_before _).
Qed.

(** A registration that is reported as failed can still take effect.  When the write
    fails after the new file was renamed into place (syncing or closing the directory),
    the operation throws and the credential is absent from memory, the store is not marked
    for reload, yet the next process finds the credential in the store. *)
Theorem failed_put_takes_effect :
  let '(r, w) := put example_cred 1000 example_faulty in
  r = Throw system_error ∧ w_stored w = ∅ ∧ w_requiresReload w = false ∧
  reloads w (target example_put example_world).
Proof.
  destruct (put example_cred 1000 example_faulty) as [r w] eqn:E. vm_compute in E.
  injection E as <- <-. split_and!; [done..|]. eexists. split; [vm_compute; reflexivity|].
  split; vm_compute; reflexivity.
Qed.

(** C33: The size limit of the reader is not enforced by the writer: a mutation whose
    stored text is over the limit succeeds, and from then on every load fails, whatever
    the environment does. *)
Theorem oversized_store_locks_out `{StoreEnv} op w p :
  healthy w → accepted op w → storage_plaintext (target op w) = Ret p →
  MAX_STORE_SIZE < len p + HEADER_SIZE + TAG_SIZE → len p ≤ INT_MAX →
  ∃ w', run_op op w = (Ret (), w') ∧
    ∀ faults nonce, is_ret (load (set_env faults nonce (restarted w'))).1 = false.
Proof.
  intros Hh Hacc Hp Hbig Hl.
  destruct (run_op_cases op w) as [(e & _ & [Hr|Hn])|[_ ->]];
    [destruct Hh as [Hf _]; congruence|done|].
  destruct (commit_clean _ p w Hh Hp Hl) as (w' & d & c & -> & _ & _ & Hd & Hcd & Hf & Hlc).
  exists w'. split; [done|]. intros faults nonce. unfold load, read_store_file, st_bind.
  set (w1 := set_env _ _ _). destruct (next_fault_spec w1) as (f & l & ->).
  destruct f; [|done..]. simpl. rewrite Hd, Hcd, Hf.
  assert (check_file (w_euid w') (mkFile c true 1 (w_euid w') FILE_MODE) = Throw runtime_error) as ->;
    [|done].
  unfold check_file. simpl. rewrite Z.eqb_refl. simpl.
  by rewrite (proj2 (Z.ltb_lt _ _)) by (rewrite Hlc; exact Hbig).
Qed.

(** A text of more than 16 MiB. *)
Lemma oversized_store_locks_out_witness :
  ∃ pad w', run_op (H:=toy_env_pad pad) example_put example_world = (Ret (), w') ∧
    ∀ faults nonce,
      is_ret (load (H:=toy_env_pad pad) (set_env faults nonce (restarted w'))).1 = false.
Proof.
  assert (∃ pad, Z.of_nat pad = MAX_STORE_SIZE) as [pad Hpad]
    by (exists (Z.to_nat MAX_STORE_SIZE); by apply Z2Nat.id).
  exists pad.
  assert (∃ q, storage_plaintext (H:=toy_env_pad pad) (target example_put example_world) =
    Ret (replicate pad 32 ++ q) ∧ (len q <? 1000000) = true) as (q & Hq & Hlq).
  { eexists. split; [reflexivity|]. vm_compute. reflexivity. }
  apply Z.ltb_lt in Hlq. unfold MAX_STORE_SIZE in Hpad.
  apply (@oversized_store_locks_out (toy_env_pad pad) example_put example_world _
    example_healthy example_accepted Hq); rewrite length_app, Nat2Z.inj_add, length_replicate, Hpad.
  - change MAX_STORE_SIZE with 16777216. change HEADER_SIZE with 29. change TAG_SIZE with 16. lia.
  - unfold INT_MAX. lia.
Defined.
