(* ===== verification/CborRequests.v ===== *)
(** * CBOR request parsing (src/src/cbor_operations/, registration.cpp, authenticate.cpp)

    The readers of cbor_utils and the parsers of the two CTAP requests that carry CBOR.
    tinycbor, which walks the encoded bytes, is third-party code: its iterator and the
    calls the parsers make are the parameter [TinyCbor], with the documented facts that
    every step forward consumes input and that a copied string fits the buffer. *)
From Stdlib Require Import ZArith Lia.
From stdpp Require Import base list gmap strings.
From S2P Require Import Prelude Packet CredentialStore.

(** [None] is an error code other than [CborNoError]. *)
Class TinyCbor := {
  CborValue : Type;
  cbor_parser_init : list Z → option CborValue;
  cbor_is_map : CborValue → bool;
  cbor_is_array : CborValue → bool;
  cbor_is_text_string : CborValue → bool;
  cbor_is_byte_string : CborValue → bool;
  cbor_is_unsigned_integer : CborValue → bool;
  cbor_is_integer : CborValue → bool;
  cbor_is_boolean : CborValue → bool;
  cbor_at_end : CborValue → bool;
  cbor_enter_container : CborValue → option CborValue;
  cbor_leave_container : CborValue → CborValue → option CborValue;
  cbor_calculate_string_length : CborValue → option Z;
  (** copies at most the given number of bytes, or fails *)
  cbor_copy_string : CborValue → Z → option (list Z * CborValue);
  cbor_get_uint64 : CborValue → option Z;
  cbor_get_int64 : CborValue → option Z;
  cbor_get_boolean : CborValue → option bool;
  cbor_advance_fixed : CborValue → option CborValue;
  cbor_advance : CborValue → option CborValue;
  (** [cbor_value_get_next_byte(value) == parser.source.end] *)
  cbor_at_source_end : list Z → CborValue → bool;
  (** the encoded bytes the iterator has not consumed *)
  cbor_remaining : CborValue → nat;
  cbor_enter_consumes v c :
    cbor_enter_container v = Some c → (cbor_remaining c < cbor_remaining v)%nat;
  cbor_leave_consumes v c v' :
    cbor_leave_container v c = Some v' → (cbor_remaining v' ≤ cbor_remaining c)%nat;
  cbor_copy_consumes v n s v' :
    cbor_copy_string v n = Some (s, v') → (cbor_remaining v' < cbor_remaining v)%nat;
  cbor_copy_fits v n s v' : cbor_copy_string v n = Some (s, v') → len s ≤ n;
  cbor_copy_bytes v n s v' : cbor_copy_string v n = Some (s, v') → bytes_ok s;
  cbor_fixed_consumes v v' :
    cbor_advance_fixed v = Some v' → (cbor_remaining v' < cbor_remaining v)%nat;
  cbor_advance_consumes v v' :
    cbor_advance v = Some v' → (cbor_remaining v' < cbor_remaining v)%nat;
}.

(** ** Request data (registration.hpp, authenticate.hpp) *)

Record RelyingParty := mkRp { rp_id : list Z; rp_name : list Z }.
Record UserEntity := mkUserEntity { ue_id : list Z; ue_name : list Z; ue_displayName : list Z }.
Record PubKeyCredParam := mkParam { pk_type : list Z; pk_alg : Z }.

(** [std::unordered_map<std::string, bool>] *)
Abbreviation Options := (gmap (list Z) bool).

Record CTAPMakeCredentialRequest := mkMake {
  mc_rp : RelyingParty;
  mc_user : UserEntity;
  mc_clientDataHash : list Z;
  mc_params : list PubKeyCredParam;
  mc_excludeList : list PublicKeyCredentialDescriptor;
  mc_options : Options;
  mc_up_option_present : bool;
  mc_pin_auth_present : bool;
  mc_pin_protocol_present : bool;
}.

(** The parsed fields of [CTAPGetAssertionRequest]; its [sequence], [userPresent] and
    [userVerified] belong to the ceremony. *)
Record CTAPGetAssertionRequest := mkGet {
  ga_rpId : list Z;
  ga_clientDataHash : list Z;
  ga_allowList : list PublicKeyCredentialDescriptor;
  ga_options : Options;
  ga_rk_option_present : bool;
  ga_pin_auth_present : bool;
  ga_pin_protocol_present : bool;
}.

Definition make_clear : CTAPMakeCredentialRequest :=
  mkMake (mkRp [] []) (mkUserEntity [] [] []) [] [] []
    {[lit "rk" := false; lit "uv" := false]} false false false.

Definition get_clear : CTAPGetAssertionRequest :=
  mkGet [] [] [] {[lit "uv" := false; lit "up" := true]} false false false.

Definition CLIENT_DATA_HASH_LENGTH : Z := 32.
Definition MAX_RP_ID_LENGTH : Z := 253.
Definition MAX_ENTITY_TEXT_LENGTH : Z := 64.
Definition MAX_USER_ID_LENGTH : Z := 64.
Definition MAX_CREDENTIAL_ID_LENGTH : Z := 7609.
Definition MAX_EXTENSION_NAME_LENGTH : Z := 64.
Definition MAX_TRANSPORT_NAME_LENGTH : Z := 32.
Definition MAX_PIN_AUTH_LENGTH : Z := 64.
Definition INT_MIN : Z := -2147483648.

Section parsing.
Context `{TinyCbor}.

(** A reader consumes part of the input and yields a value. *)
Definition reader (A : Type) : Type := CborValue → res (A * CborValue).

(** [cbor::check]: any error code is a [cbor::Error]. *)
Definition cbor_check {A} (o : option A) : res A :=
  match o with Some a => Ret a | None => Throw CborError end.

(** ** cbor_utils *)

Definition read_text (max_length : Z) : reader (list Z) := λ value,
  throw_if negb (cbor_is_text_string value) as CborError ;;
  length ← cbor_check (cbor_calculate_string_length value);
  throw_if max_length <? length as CborError ;;
  cbor_check (cbor_copy_string value length).

Definition read_bytes (max_length : Z) : reader (list Z) := λ value,
  throw_if negb (cbor_is_byte_string value) as CborError ;;
  length ← cbor_check (cbor_calculate_string_length value);
  throw_if max_length <? length as CborError ;;
  cbor_check (cbor_copy_string value length).

Definition read_uint : reader Z := λ value,
  throw_if negb (cbor_is_unsigned_integer value) as CborError ;;
  result ← cbor_check (cbor_get_uint64 value);
  value' ← cbor_check (cbor_advance_fixed value);
  Ret (result, value').

Definition read_int : reader Z := λ value,
  throw_if negb (cbor_is_integer value) as CborError ;;
  result ← cbor_check (cbor_get_int64 value);
  value' ← cbor_check (cbor_advance_fixed value);
  Ret (result, value').

Definition read_bool : reader bool := λ value,
  throw_if negb (cbor_is_boolean value) as CborError ;;
  result ← cbor_check (cbor_get_boolean value);
  value' ← cbor_check (cbor_advance_fixed value);
  Ret (result, value').

Definition skip : reader () := λ value,
  value' ← cbor_check (cbor_advance value);
  Ret ((), value').

Definition require_complete (payload : list Z) (value : CborValue) : res () :=
  throw_if negb (cbor_at_source_end payload value) as CborError ;; Ret ().

(** [while(!cbor_value_at_end(&contents)) function(contents);] where the callback also
    updates the variables [S] it captured.  Running out of fuel is an error that no
    handler catches. *)
Fixpoint container_loop {S} (fuel : nat) (function : S → reader S) (s : S) : reader S := λ contents,
  match fuel with
  | O => Throw logic_error
  | Datatypes.S fuel =>
      if cbor_at_end contents then Ret (s, contents) else
      '(s', contents') ← function s contents;
      container_loop fuel function s' contents'
  end.

Definition read_container {S} (is_container : CborValue → bool) (function : S → reader S) (s : S)
    : reader S := λ value,
  throw_if negb (is_container value) as CborError ;;
  contents ← cbor_check (cbor_enter_container value);
  '(s', contents') ← container_loop (Datatypes.S (cbor_remaining contents)) function s contents;
  value' ← cbor_check (cbor_leave_container value contents');
  Ret (s', value').

Definition read_map {S} (function : S → reader S) (s : S) : reader S :=
  read_container cbor_is_map function s.
Definition read_array {S} (function : S → reader S) (s : S) : reader S :=
  read_container cbor_is_array function s.

(** ** Members of a map with text keys *)

(** [if(!seen.insert(key).second) throw cbor::Error(...)] *)
Definition require_unique (seen : gset (list Z)) (key : list Z) : res (gset (list Z)) :=
  throw_if bool_decide (key ∈ seen) as CborError ;; Ret ({[key]} ∪ seen).

(** The shape of every callback on a map with text keys: read the key, refuse a
    duplicate, let [member] read the value. *)
Definition text_member {S} (max_key : Z) (member : list Z → S → reader S)
    (st : gset (list Z) * S) : reader (gset (list Z) * S) := λ map,
  '(key, map) ← read_text max_key map;
  seen ← require_unique (fst st) key;
  '(s, map) ← member key (snd st) map;
  Ret ((seen, s), map).

Definition skip_member {S} (s : S) : reader S := λ map,
  '(_, map) ← skip map;
  Ret (s, map).

Definition descriptor_transport (d : PublicKeyCredentialDescriptor)
    : reader PublicKeyCredentialDescriptor := λ transports,
  '(t, transports) ← read_text MAX_TRANSPORT_NAME_LENGTH transports;
  Ret (mkDescriptor (d_type d) (d_id d) (d_transports d ++ [t]), transports).

Definition descriptor_member (key : list Z) (d : PublicKeyCredentialDescriptor)
    : reader PublicKeyCredentialDescriptor := λ map,
  if bool_decide (key = lit "type") then
    '(t, map) ← read_text MAX_ENTITY_TEXT_LENGTH map;
    Ret (mkDescriptor t (d_id d) (d_transports d), map)
  else if bool_decide (key = lit "id") then
    '(i, map) ← read_bytes MAX_CREDENTIAL_ID_LENGTH map;
    Ret (mkDescriptor (d_type d) i (d_transports d), map)
  else if bool_decide (key = lit "transports") then
    read_array descriptor_transport d map
  else skip_member d map.

Definition read_credential_descriptor : reader PublicKeyCredentialDescriptor := λ value,
  '((seen, descriptor), value) ←
    read_map (text_member MAX_ENTITY_TEXT_LENGTH descriptor_member)
      (∅, mkDescriptor [] [] []) value;
  throw_if negb (bool_decide (lit "type" ∈ seen)) || negb (bool_decide (lit "id" ∈ seen)) ||
           (len (d_type descriptor) =? 0) || (len (d_id descriptor) =? 0) as CborError ;;
  Ret (descriptor, value).

Definition push_descriptor (l : list PublicKeyCredentialDescriptor)
    : reader (list PublicKeyCredentialDescriptor) := λ array,
  '(d, array) ← read_credential_descriptor array;
  Ret (l ++ [d], array).

(** CTAP 2.0 requires unsupported extensions to be ignored. *)
Definition extension_member (_ : list Z) (s : ()) : reader () := skip_member s.

(** ** authenticatorGetAssertion *)

Definition get_parse_rp_id (r : CTAPGetAssertionRequest) : reader CTAPGetAssertionRequest := λ value,
  '(rpId, value) ← read_text MAX_RP_ID_LENGTH value;
  throw_if len rpId =? 0 as CborError ;;
  Ret (mkGet rpId (ga_clientDataHash r) (ga_allowList r) (ga_options r)
         (ga_rk_option_present r) (ga_pin_auth_present r) (ga_pin_protocol_present r), value).

Definition get_parse_client_data_hash (r : CTAPGetAssertionRequest)
    : reader CTAPGetAssertionRequest := λ value,
  '(hash, value) ← read_bytes CLIENT_DATA_HASH_LENGTH value;
  throw_if negb (len hash =? CLIENT_DATA_HASH_LENGTH) as CborError ;;
  Ret (mkGet (ga_rpId r) hash (ga_allowList r) (ga_options r)
         (ga_rk_option_present r) (ga_pin_auth_present r) (ga_pin_protocol_present r), value).

Definition get_parse_allow_list (r : CTAPGetAssertionRequest)
    : reader CTAPGetAssertionRequest := λ value,
  '(l, value) ← read_array push_descriptor (ga_allowList r) value;
  Ret (mkGet (ga_rpId r) (ga_clientDataHash r) l (ga_options r)
         (ga_rk_option_present r) (ga_pin_auth_present r) (ga_pin_protocol_present r), value).

Definition get_parse_extensions (r : CTAPGetAssertionRequest)
    : reader CTAPGetAssertionRequest := λ value,
  '(_, value) ← read_map (text_member MAX_EXTENSION_NAME_LENGTH extension_member) (∅, ()) value;
  Ret (r, value).

Definition get_option_member (name : list Z) (r : CTAPGetAssertionRequest)
    : reader CTAPGetAssertionRequest := λ map,
  if bool_decide (name = lit "up") || bool_decide (name = lit "uv") then
    '(b, map) ← read_bool map;
    Ret (mkGet (ga_rpId r) (ga_clientDataHash r) (ga_allowList r) (<[name := b]> (ga_options r))
           (ga_rk_option_present r) (ga_pin_auth_present r) (ga_pin_protocol_present r), map)
  else if bool_decide (name = lit "rk") then
    '(_, map) ← read_bool map;
    Ret (mkGet (ga_rpId r) (ga_clientDataHash r) (ga_allowList r) (ga_options r)
           true (ga_pin_auth_present r) (ga_pin_protocol_present r), map)
  else skip_member r map.

Definition get_parse_options (r : CTAPGetAssertionRequest)
    : reader CTAPGetAssertionRequest := λ value,
  '((_, r), value) ← read_map (text_member MAX_ENTITY_TEXT_LENGTH get_option_member) (∅, r) value;
  Ret (r, value).

Definition get_parse_pin_auth (r : CTAPGetAssertionRequest)
    : reader CTAPGetAssertionRequest := λ value,
  '(_, value) ← read_bytes MAX_PIN_AUTH_LENGTH value;
  Ret (mkGet (ga_rpId r) (ga_clientDataHash r) (ga_allowList r) (ga_options r)
         (ga_rk_option_present r) true (ga_pin_protocol_present r), value).

Definition get_parse_pin_protocol (r : CTAPGetAssertionRequest)
    : reader CTAPGetAssertionRequest := λ value,
  '(_, value) ← read_uint value;
  Ret (mkGet (ga_rpId r) (ga_clientDataHash r) (ga_allowList r) (ga_options r)
         (ga_rk_option_present r) (ga_pin_auth_present r) true, value).

(** [dispatch_table[key]]; the entry 0 and keys beyond the table are skipped. *)
Definition get_dispatch (key : Z) (r : CTAPGetAssertionRequest)
    : reader CTAPGetAssertionRequest :=
  match key with
  | 1 => get_parse_rp_id r
  | 2 => get_parse_client_data_hash r
  | 3 => get_parse_allow_list r
  | 4 => get_parse_extensions r
  | 5 => get_parse_options r
  | 6 => get_parse_pin_auth r
  | 7 => get_parse_pin_protocol r
  | _ => skip_member r
  end.

(** The callback on the top-level map of either request. *)
Definition parameter {S} (dispatch : Z → S → reader S) (st : gset Z * S)
    : reader (gset Z * S) := λ map,
  '(key, map) ← read_uint map;
  throw_if bool_decide (key ∈ fst st) as CborError ;;
  '(s, map) ← dispatch key (snd st) map;
  Ret (({[key]} ∪ fst st, s), map).

(** The [try] block of [parseRequest]. *)
Definition parse_parameters {S} (dispatch : Z → S → reader S) (required : list Z) (s : S)
    (payload : list Z) : res S :=
  root ← cbor_check (cbor_parser_init payload);
  '((seen, s), root) ← read_map (parameter dispatch) (∅, s) root;
  throw_if negb (forallb (λ key, bool_decide (key ∈ seen)) required) as CborError ;;
  _ ← require_complete payload root;
  Ret s.

(** [parseRequest] returns whether it succeeded, with the object it leaves. *)
Definition parse_or_clear {S} (cleared : S) (parsed : res S) : res (bool * S) :=
  match parsed with
  | Ret s => Ret (true, s)
  | Throw CborError => Ret (false, cleared)
  | Throw e => Throw e
  end.

Definition get_parseRequest (payload : list Z) : res (bool * CTAPGetAssertionRequest) :=
  parse_or_clear get_clear (parse_parameters get_dispatch [1; 2] get_clear payload).

Definition get_validation_error (r : CTAPGetAssertionRequest) : option CTAPError :=
  if ga_pin_auth_present r || ga_pin_protocol_present r then Some CTAP2_ERR_PIN_AUTH_INVALID
  else if ga_rk_option_present r then Some CTAP2_ERR_INVALID_OPTION
  else None.

(** ** authenticatorMakeCredential *)

Definition make_parse_client_data_hash (r : CTAPMakeCredentialRequest)
    : reader CTAPMakeCredentialRequest := λ value,
  '(hash, value) ← read_bytes CLIENT_DATA_HASH_LENGTH value;
  throw_if negb (len hash =? CLIENT_DATA_HASH_LENGTH) as CborError ;;
  Ret (mkMake (mc_rp r) (mc_user r) hash (mc_params r) (mc_excludeList r) (mc_options r)
         (mc_up_option_present r) (mc_pin_auth_present r) (mc_pin_protocol_present r), value).

Definition rp_member (key : list Z) (rp : RelyingParty) : reader RelyingParty := λ map,
  if bool_decide (key = lit "id") then
    '(id, map) ← read_text MAX_RP_ID_LENGTH map;
    Ret (mkRp id (rp_name rp), map)
  else if bool_decide (key = lit "name") then
    '(name, map) ← read_text MAX_ENTITY_TEXT_LENGTH map;
    Ret (mkRp (rp_id rp) name, map)
  else skip_member rp map.

Definition make_parse_rp (r : CTAPMakeCredentialRequest)
    : reader CTAPMakeCredentialRequest := λ value,
  '((seen, rp), value) ←
    read_map (text_member MAX_ENTITY_TEXT_LENGTH rp_member) (∅, mc_rp r) value;
  throw_if negb (bool_decide (lit "id" ∈ seen)) || (len (rp_id rp) =? 0) as CborError ;;
  Ret (mkMake rp (mc_user r) (mc_clientDataHash r) (mc_params r) (mc_excludeList r) (mc_options r)
         (mc_up_option_present r) (mc_pin_auth_present r) (mc_pin_protocol_present r), value).

Definition user_member (key : list Z) (user : UserEntity) : reader UserEntity := λ map,
  if bool_decide (key = lit "id") then
    '(id, map) ← read_bytes MAX_USER_ID_LENGTH map;
    Ret (mkUserEntity id (ue_name user) (ue_displayName user), map)
  else if bool_decide (key = lit "name") then
    '(name, map) ← read_text MAX_ENTITY_TEXT_LENGTH map;
    Ret (mkUserEntity (ue_id user) name (ue_displayName user), map)
  else if bool_decide (key = lit "displayName") then
    '(name, map) ← read_text MAX_ENTITY_TEXT_LENGTH map;
    Ret (mkUserEntity (ue_id user) (ue_name user) name, map)
  else skip_member user map.

Definition make_parse_user (r : CTAPMakeCredentialRequest)
    : reader CTAPMakeCredentialRequest := λ value,
  '((seen, user), value) ←
    read_map (text_member MAX_ENTITY_TEXT_LENGTH user_member) (∅, mc_user r) value;
  throw_if negb (bool_decide (lit "id" ∈ seen)) as CborError ;;
  Ret (mkMake (mc_rp r) user (mc_clientDataHash r) (mc_params r) (mc_excludeList r) (mc_options r)
         (mc_up_option_present r) (mc_pin_auth_present r) (mc_pin_protocol_present r), value).

Definition param_member (key : list Z) (p : PubKeyCredParam) : reader PubKeyCredParam := λ map,
  if bool_decide (key = lit "type") then
    '(t, map) ← read_text MAX_ENTITY_TEXT_LENGTH map;
    Ret (mkParam t (pk_alg p), map)
  else if bool_decide (key = lit "alg") then
    '(algorithm, map) ← read_int map;
    throw_if (algorithm <? INT_MIN) || (INT_MAX <? algorithm) as CborError ;;
    Ret (mkParam (pk_type p) algorithm, map)
  else skip_member p map.

(** The callback on the array of parameters. *)
Definition push_param (l : list PubKeyCredParam) : reader (list PubKeyCredParam) := λ array,
  '((seen, p), array) ←
    read_map (text_member MAX_ENTITY_TEXT_LENGTH param_member) (∅, mkParam [] 0) array;
  throw_if negb (bool_decide (lit "type" ∈ seen)) || negb (bool_decide (lit "alg" ∈ seen))
    as CborError ;;
  Ret (l ++ [p], array).

Definition make_parse_pubkey_params (r : CTAPMakeCredentialRequest)
    : reader CTAPMakeCredentialRequest := λ value,
  '(l, value) ← read_array push_param (mc_params r) value;
  Ret (mkMake (mc_rp r) (mc_user r) (mc_clientDataHash r) l (mc_excludeList r) (mc_options r)
         (mc_up_option_present r) (mc_pin_auth_present r) (mc_pin_protocol_present r), value).

Definition make_parse_exclude_list (r : CTAPMakeCredentialRequest)
    : reader CTAPMakeCredentialRequest := λ value,
  '(l, value) ← read_array push_descriptor (mc_excludeList r) value;
  Ret (mkMake (mc_rp r) (mc_user r) (mc_clientDataHash r) (mc_params r) l (mc_options r)
         (mc_up_option_present r) (mc_pin_auth_present r) (mc_pin_protocol_present r), value).

Definition make_parse_extensions (r : CTAPMakeCredentialRequest)
    : reader CTAPMakeCredentialRequest := λ value,
  '(_, value) ← read_map (text_member MAX_EXTENSION_NAME_LENGTH extension_member) (∅, ()) value;
  Ret (r, value).

Definition make_option_member (name : list Z) (r : CTAPMakeCredentialRequest)
    : reader CTAPMakeCredentialRequest := λ map,
  if bool_decide (name = lit "rk") || bool_decide (name = lit "uv") then
    '(b, map) ← read_bool map;
    Ret (mkMake (mc_rp r) (mc_user r) (mc_clientDataHash r) (mc_params r) (mc_excludeList r)
           (<[name := b]> (mc_options r))
           (mc_up_option_present r) (mc_pin_auth_present r) (mc_pin_protocol_present r), map)
  else if bool_decide (name = lit "up") then
    '(_, map) ← read_bool map;
    Ret (mkMake (mc_rp r) (mc_user r) (mc_clientDataHash r) (mc_params r) (mc_excludeList r)
           (mc_options r) true (mc_pin_auth_present r) (mc_pin_protocol_present r), map)
  else skip_member r map.

Definition make_parse_options (r : CTAPMakeCredentialRequest)
    : reader CTAPMakeCredentialRequest := λ value,
  '((_, r), value) ← read_map (text_member MAX_ENTITY_TEXT_LENGTH make_option_member) (∅, r) value;
  Ret (r, value).

Definition make_parse_pin_auth (r : CTAPMakeCredentialRequest)
    : reader CTAPMakeCredentialRequest := λ value,
  '(_, value) ← read_bytes MAX_PIN_AUTH_LENGTH value;
  Ret (mkMake (mc_rp r) (mc_user r) (mc_clientDataHash r) (mc_params r) (mc_excludeList r)
         (mc_options r) (mc_up_option_present r) true (mc_pin_protocol_present r), value).

Definition make_parse_pin_protocol (r : CTAPMakeCredentialRequest)
    : reader CTAPMakeCredentialRequest := λ value,
  '(_, value) ← read_uint value;
  Ret (mkMake (mc_rp r) (mc_user r) (mc_clientDataHash r) (mc_params r) (mc_excludeList r)
         (mc_options r) (mc_up_option_present r) (mc_pin_auth_present r) true, value).

Definition make_dispatch (key : Z) (r : CTAPMakeCredentialRequest)
    : reader CTAPMakeCredentialRequest :=
  match key with
  | 1 => make_parse_client_data_hash r
  | 2 => make_parse_rp r
  | 3 => make_parse_user r
  | 4 => make_parse_pubkey_params r
  | 5 => make_parse_exclude_list r
  | 6 => make_parse_extensions r
  | 7 => make_parse_options r
  | 8 => make_parse_pin_auth r
  | 9 => make_parse_pin_protocol r
  | _ => skip_member r
  end.

Definition make_parseRequest (payload : list Z) : res (bool * CTAPMakeCredentialRequest) :=
  parse_or_clear make_clear (parse_parameters make_dispatch [1; 2; 3; 4] make_clear payload).

Definition make_validation_error (r : CTAPMakeCredentialRequest) : option CTAPError :=
  if mc_up_option_present r then Some CTAP2_ERR_INVALID_OPTION
  else if mc_pin_auth_present r || mc_pin_protocol_present r then Some CTAP2_ERR_PIN_AUTH_INVALID
  else None.

(** ** Readers terminate and consume input *)

(** On any input the reader yields a value with property [R] after consuming something,
    or throws the parser's own exception. *)
Definition reads {A} (R : A → Prop) (m : reader A) : Prop :=
  ∀ v, match m v with
       | Ret (a, v') => R a ∧ (cbor_remaining v' < cbor_remaining v)%nat
       | Throw e => e = CborError
       end.

(** The same for code that may consume nothing. *)
Definition yields {A} (R : A → Prop) (m : reader A) : Prop :=
  ∀ v, match m v with
       | Ret (a, v') => R a ∧ (cbor_remaining v' ≤ cbor_remaining v)%nat
       | Throw e => e = CborError
       end.

Lemma reads_yields {A} (R : A → Prop) m : reads R m → yields R m.
Proof. intros Hm v. specialize (Hm v). destruct (m v) as [[a v']|e]; [|done]. intuition lia. Qed.

Lemma reads_weaken {A} (R R' : A → Prop) m : (∀ a, R a → R' a) → reads R m → reads R' m.
Proof. intros HR Hm v. specialize (Hm v). destruct (m v) as [[a v']|e]; [|done]. naive_solver. Qed.

Lemma yields_ret {A} (R : A → Prop) a : R a → yields R (λ v, Ret (a, v)).
Proof. intros HR v. done. Qed.

Lemma yields_if {A} (R : A → Prop) (b : bool) m :
  (b = false → yields R m) → yields R (λ v, throw_if b as CborError ;; m v).
Proof. intros Hm v. destruct b; [done|]. by apply Hm. Qed.

Lemma reads_bind {A B} (R : A → Prop) (R' : B → Prop) (m : reader A) (k : A → reader B) :
  reads R m → (∀ a, R a → yields R' (k a)) → reads R' (λ v, '(a, v') ← m v; k a v').
Proof.
  intros Hm Hk v. specialize (Hm v). destruct (m v) as [[a v']|e]; simpl; [|done].
  destruct Hm as [Ha Hlt]. specialize (Hk a Ha v'). destruct (k a v') as [[b v'']|]; [|done].
  intuition lia.
Qed.

Lemma string_reads (is_string : CborValue → bool) n :
  reads (λ s, len s ≤ n ∧ bytes_ok s) (λ value,
    throw_if negb (is_string value) as CborError ;;
    length ← cbor_check (cbor_calculate_string_length value);
    throw_if n <? length as CborError ;;
    cbor_check (cbor_copy_string value length)).
Proof.
  intros v. destruct (is_string v); [|done]. simpl.
  destruct (cbor_calculate_string_length v) as [l|]; [|done]. simpl.
  destruct (n <? l) eqn:E; [done|]. apply Z.ltb_ge in E.
  destruct (cbor_copy_string v l) as [[s v']|] eqn:Ec; [|done]. simpl.
  pose proof (cbor_copy_fits _ _ _ _ Ec). pose proof (cbor_copy_consumes _ _ _ _ Ec).
  split; [split; [lia|by eapply cbor_copy_bytes]|done].
Qed.

Lemma read_text_reads n : reads (λ s, len s ≤ n ∧ bytes_ok s) (read_text n).
Proof. apply string_reads. Qed.
Lemma read_bytes_reads n : reads (λ s, len s ≤ n ∧ bytes_ok s) (read_bytes n).
Proof. apply string_reads. Qed.

Lemma advance_fixed_reads {A} (is_type : CborValue → bool) (get : CborValue → option A) :
  reads (λ _, True) (λ value,
    throw_if negb (is_type value) as CborError ;;
    result ← cbor_check (get value);
    value' ← cbor_check (cbor_advance_fixed value);
    Ret (result, value')).
Proof.
  intros v. destruct (is_type v); [|done]. simpl. destruct (get v); [|done]. simpl.
  destruct (cbor_advance_fixed v) eqn:E; [|done]. simpl. split; [done|].
  by apply cbor_fixed_consumes.
Qed.

Lemma read_uint_reads : reads (λ _, True) read_uint.
Proof. apply advance_fixed_reads. Qed.
Lemma read_int_reads : reads (λ _, True) read_int.
Proof. apply advance_fixed_reads. Qed.
Lemma read_bool_reads : reads (λ _, True) read_bool.
Proof. apply advance_fixed_reads. Qed.

Lemma skip_member_reads {S} (R : S → Prop) s : R s → reads R (skip_member s).
Proof.
  intros HR v. unfold skip_member, skip. destruct (cbor_advance v) eqn:E; [|done]. simpl.
  split; [done|]. by apply cbor_advance_consumes.
Qed.

(** A loop whose callback consumes input on every call ends within its fuel. *)
Lemma container_loop_yields {S} (I : S → Prop) (f : S → reader S) fuel s v :
  (∀ s, I s → reads I (f s)) → I s → (cbor_remaining v < fuel)%nat →
  match container_loop fuel f s v with
  | Ret (s', v') => I s' ∧ (cbor_remaining v' ≤ cbor_remaining v)%nat
  | Throw e => e = CborError
  end.
Proof.
  intros Hf. revert s v. induction fuel as [|fuel IH]; intros s v Hs Hfuel; [lia|]. simpl.
  destruct (cbor_at_end v); [done|]. specialize (Hf s Hs v).
  destruct (f s v) as [[s' v']|e]; [|done]. simpl. destruct Hf as [Hs' Hlt].
  specialize (IH s' v' Hs'). destruct (container_loop fuel f s' v') as [[s'' v'']|e].
  - destruct IH; [lia|]. split; [done|lia].
  - apply IH. lia.
Qed.

Lemma read_container_reads {S} (I : S → Prop) is_container (f : S → reader S) s :
  (∀ s, I s → reads I (f s)) → I s → reads I (read_container is_container f s).
Proof.
  intros Hf Hs v. unfold read_container. destruct (is_container v); [|done]. simpl.
  destruct (cbor_enter_container v) as [c|] eqn:Ec; [|done]. simpl.
  pose proof (container_loop_yields I f (Datatypes.S (cbor_remaining c)) s c Hf Hs ltac:(lia)) as Hl.
  simpl in Hl. destruct (cbor_at_end c).
  - simpl. destruct (cbor_leave_container v c) as [v'|] eqn:El; [|done]. simpl. split; [done|].
    apply cbor_leave_consumes in El. apply cbor_enter_consumes in Ec. lia.
  - destruct (f s c) as [[s' c']|e]; [|done]. simpl in *.
    destruct (container_loop _ f s' c') as [[s'' c'']|e]; [|done]. simpl in *.
    destruct Hl as [Hs'' Hle].
    destruct (cbor_leave_container v c'') as [v'|] eqn:El; [|done]. simpl. split; [done|].
    apply cbor_leave_consumes in El. apply cbor_enter_consumes in Ec. lia.
Qed.

Lemma text_member_reads {S} (I : gset (list Z) → S → Prop) max member st :
  (∀ key, key ∉ fst st → reads (I ({[key]} ∪ fst st)) (member key (snd st))) →
  reads (λ st', I (fst st') (snd st')) (text_member max member st).
Proof.
  intros Hm. unfold text_member. eapply reads_bind; [apply read_text_reads|].
  intros key _ v. unfold require_unique. destruct (bool_decide (key ∈ fst st)) eqn:E; [done|].
  apply bool_decide_eq_false in E. simpl. specialize (Hm key E v).
  destruct (member key (snd st) v) as [[s v']|]; [|done]. simpl. destruct Hm. split; [done|lia].
Qed.

(** A map with text keys whose members keep [I]. *)
Lemma text_map_reads {S} (I : gset (list Z) → S → Prop) max member s :
  (∀ seen key s, I seen s → key ∉ seen → reads (I ({[key]} ∪ seen)) (member key s)) → I ∅ s →
  reads (λ st, I (fst st) (snd st)) (read_map (text_member max member) (∅, s)).
Proof.
  intros Hm Hs. apply (read_container_reads (λ st, I (fst st) (snd st))); [|done].
  intros st Hst. apply text_member_reads. intros key Hk. by apply Hm.
Qed.

(** A map whose members keep [R], with the captured variable as result. *)
Lemma text_map_value_reads {S} (R : S → Prop) max member s :
  (∀ key s, R s → reads R (member key s)) → R s →
  reads R (λ value, '((_, s), value) ← read_map (text_member max member) (∅, s) value;
                    Ret (s, value)).
Proof.
  intros Hm Hs. eapply reads_bind.
  - apply (text_map_reads (λ _, R)); [|done]. intros. by apply Hm.
  - intros [seen s'] Hs'. by apply yields_ret.
Qed.

(** ** Descriptors *)

Definition descriptor_ok (d : PublicKeyCredentialDescriptor) : Prop :=
  1 ≤ len (d_type d) ≤ MAX_ENTITY_TEXT_LENGTH ∧
  1 ≤ len (d_id d) ≤ MAX_CREDENTIAL_ID_LENGTH ∧ bytes_ok (d_id d) ∧
  Forall (λ t, len t ≤ MAX_TRANSPORT_NAME_LENGTH) (d_transports d).

(** The same before emptiness is checked. *)
Definition descriptor_partial (d : PublicKeyCredentialDescriptor) : Prop :=
  len (d_type d) ≤ MAX_ENTITY_TEXT_LENGTH ∧ len (d_id d) ≤ MAX_CREDENTIAL_ID_LENGTH ∧
  bytes_ok (d_id d) ∧ Forall (λ t, len t ≤ MAX_TRANSPORT_NAME_LENGTH) (d_transports d).

Lemma descriptor_transport_reads d :
  descriptor_partial d → reads descriptor_partial (descriptor_transport d).
Proof.
  intros (H1 & H2 & H3 & H4). eapply reads_bind; [apply read_text_reads|].
  intros t [Ht _]. apply yields_ret. split_and!; [done..|]. apply Forall_app. by split; [|constructor].
Qed.

Lemma descriptor_member_reads key d :
  descriptor_partial d → reads descriptor_partial (descriptor_member key d).
Proof.
  intros Hd. pose proof Hd as (H1 & H2 & H3 & H4). unfold descriptor_member.
  destruct (bool_decide (key = lit "type")).
  { eapply reads_bind; [apply read_text_reads|]. intros t [Ht _]. by apply yields_ret. }
  destruct (bool_decide (key = lit "id")).
  { eapply reads_bind; [apply read_bytes_reads|]. intros t [Ht Hb]. by apply yields_ret. }
  destruct (bool_decide (key = lit "transports")).
  { apply read_container_reads; [|done]. apply descriptor_transport_reads. }
  by apply skip_member_reads.
Qed.

Lemma read_credential_descriptor_reads : reads descriptor_ok read_credential_descriptor.
Proof.
  unfold read_credential_descriptor. eapply reads_bind.
  - apply (text_map_reads (λ _, descriptor_partial)).
    + intros seen key s Hs _. by apply descriptor_member_reads.
    + split_and!; (done || constructor).
  - intros [seen d] (H1 & H2 & H3 & H4). simpl in *. apply yields_if. intros Hc.
    reflect_bools. apply yields_ret. split_and!; try done; lia.
Qed.

Lemma push_descriptor_reads l :
  Forall descriptor_ok l → reads (Forall descriptor_ok) (push_descriptor l).
Proof.
  intros Hl. eapply reads_bind; [apply read_credential_descriptor_reads|].
  intros d Hd. apply yields_ret. apply Forall_app. by split; [|constructor].
Qed.

Lemma extensions_reads {A} (R : A → Prop) (r : A) :
  R r → reads R (λ value,
    '(_, value) ← read_map (text_member MAX_EXTENSION_NAME_LENGTH extension_member) (∅, ()) value;
    Ret (r, value)).
Proof.
  intros Hr. eapply reads_bind; [|intros _ _; by apply yields_ret].
  apply (text_map_reads (λ _ _, True)); [|done]. intros. by apply skip_member_reads.
Qed.

(** ** The top-level map *)

(** If every parameter keeps the invariant [I], indexed by the keys seen, then parsing
    ends with [I] for a set of keys that includes the required ones. *)
Lemma parse_parameters_spec {S} (I : gset Z → S → Prop) dispatch required s payload :
  (∀ seen key s, I seen s → key ∉ seen → reads (I ({[key]} ∪ seen)) (dispatch key s)) → I ∅ s →
  match parse_parameters dispatch required s payload with
  | Ret s' => ∃ seen, I seen s' ∧ ∀ key, key ∈ required → key ∈ seen
  | Throw e => e = CborError
  end.
Proof.
  intros Hd Hs. unfold parse_parameters.
  destruct (cbor_parser_init payload) as [root|]; [|done]. simpl.
  assert (reads (λ st, I (fst st) (snd st)) (read_map (parameter dispatch) (∅, s))) as Hr.
  { apply (read_container_reads (λ st, I (fst st) (snd st))); [|done]. intros [seen s1] Hst.
    eapply reads_bind; [apply read_uint_reads|]. intros key _ v. simpl in *.
    destruct (bool_decide (key ∈ seen)) eqn:E; [done|]. apply bool_decide_eq_false in E.
    specialize (Hd seen key s1 Hst E v). destruct (dispatch key s1 v) as [[s2 v2]|]; [|done]. simpl.
    destruct Hd. split; [done|lia]. }
  specialize (Hr root). destruct (read_map (parameter dispatch) (∅, s) root) as [[[seen s1] root1]|e];
    [|done]. simpl in *. destruct Hr as [Hi _].
  destruct (forallb _ required) eqn:Ef; [|done]. simpl. unfold require_complete.
  destruct (cbor_at_source_end payload root1); [|done]. simpl. exists seen. split; [done|].
  intros key Hk. rewrite forallb_forall in Ef. apply list_elem_of_In in Hk.
  by specialize (Ef key Hk); apply bool_decide_eq_true in Ef.
Qed.

(** ** What an accepted request looks like *)

Definition get_request_ok (r : CTAPGetAssertionRequest) : Prop :=
  1 ≤ len (ga_rpId r) ≤ MAX_RP_ID_LENGTH ∧ bytes_ok (ga_rpId r) ∧
  len (ga_clientDataHash r) = CLIENT_DATA_HASH_LENGTH ∧ bytes_ok (ga_clientDataHash r) ∧
  Forall descriptor_ok (ga_allowList r) ∧
  (∃ up uv, ga_options r !! lit "up" = Some up ∧ ga_options r !! lit "uv" = Some uv).

(** The same for the keys already seen. *)
Definition get_partial (seen : gset Z) (r : CTAPGetAssertionRequest) : Prop :=
  (1 ∈ seen → 1 ≤ len (ga_rpId r)) ∧ len (ga_rpId r) ≤ MAX_RP_ID_LENGTH ∧ bytes_ok (ga_rpId r) ∧
  (2 ∈ seen → len (ga_clientDataHash r) = CLIENT_DATA_HASH_LENGTH) ∧
  bytes_ok (ga_clientDataHash r) ∧ Forall descriptor_ok (ga_allowList r) ∧
  (∃ up uv, ga_options r !! lit "up" = Some up ∧ ga_options r !! lit "uv" = Some uv).

(** One more key that is neither required. *)
Lemma get_partial_seen seen key r :
  key ≠ 1 → key ≠ 2 → get_partial seen r → get_partial ({[key]} ∪ seen) r.
Proof. intros H1 H2 (A & B & C & D & E). split_and!; [set_solver|done|done|set_solver|apply E..]. Qed.

Lemma options_insert (m : Options) (k1 k2 name : list Z) b :
  (∃ x y, m !! k1 = Some x ∧ m !! k2 = Some y) →
  ∃ x y, <[name := b]> m !! k1 = Some x ∧ <[name := b]> m !! k2 = Some y.
Proof.
  intros (x & y & Hx & Hy).
  assert (∀ k z, m !! k = Some z → is_Some (<[name := b]> m !! k)) as Hins.
  { intros k z Hk. destruct (decide (name = k)) as [<-|]; [by rewrite lookup_insert_eq; eexists|].
    rewrite lookup_insert_ne by done. by eexists. }
  destruct (Hins _ _ Hx) as [x' ->], (Hins _ _ Hy) as [y' ->]. by exists x', y'.
Qed.

Lemma get_option_member_reads seen name r :
  get_partial seen r → reads (get_partial seen) (get_option_member name r).
Proof.
  intros Hr. pose proof Hr as (A & B & C & D & E & F & G). unfold get_option_member.
  destruct (bool_decide (name = lit "up") || bool_decide (name = lit "uv")).
  { eapply reads_bind; [apply read_bool_reads|]. intros b _. apply yields_ret.
    split_and!; try done. by apply options_insert. }
  destruct (bool_decide (name = lit "rk")).
  { eapply reads_bind; [apply read_bool_reads|]. intros b _. by apply yields_ret. }
  by apply skip_member_reads.
Qed.

(** Case analysis on the integer literals of a [match]. *)
Ltac split_literals :=
  repeat match goal with
  | |- context [match ?z with Z0 => _ | Zpos _ => _ | Zneg _ => _ end] => destruct z
  | |- context [match ?p with xI _ => _ | xO _ => _ | xH => _ end] => destruct p
  end.

Lemma get_dispatch_other key r :
  ¬ 1 ≤ key ≤ 7 → get_dispatch key r = skip_member r.
Proof. intros Hk. unfold get_dispatch. split_literals; done || lia. Qed.

Lemma get_dispatch_reads seen key r :
  get_partial seen r → key ∉ seen → reads (get_partial ({[key]} ∪ seen)) (get_dispatch key r).
Proof.
  intros Hr Hk. destruct (decide (1 ≤ key ≤ 7)) as [Hin|Hout].
  2:{ rewrite get_dispatch_other by done. apply skip_member_reads, get_partial_seen; [lia..|done]. }
  destruct (decide (key = 1)) as [->|H1].
  { destruct Hr as (A & B & C & D & E & F & G).
    eapply reads_bind; [apply read_text_reads|]. intros h [Hl Hb]. apply yields_if. intros Hc.
    reflect_bools. apply yields_ret. split_and!; try done; simpl; [lia|set_solver]. }
  destruct (decide (key = 2)) as [->|H2].
  { destruct Hr as (A & B & C & D & E & F & G).
    eapply reads_bind; [apply read_bytes_reads|]. intros h [_ Hb]. apply yields_if. intros Hc.
    reflect_bools. apply yields_ret. split_and!; try done. set_solver. }
  apply (get_partial_seen seen key r H1 H2) in Hr as Hr'. clear Hr.
  pose proof Hr' as (A & B & C & D & E & F & G).
  assert (key = 3 ∨ key = 4 ∨ key = 5 ∨ key = 6 ∨ key = 7)
    as [->|[->|[->|[->| ->]]]] by lia; simpl.
  - eapply reads_bind; [apply read_container_reads, F; apply push_descriptor_reads|].
    intros l Hl. by apply yields_ret.
  - by apply extensions_reads.
  - apply text_map_value_reads; [|done]. apply get_option_member_reads.
  - eapply reads_bind; [apply read_bytes_reads|]. intros _ _. by apply yields_ret.
  - eapply reads_bind; [apply read_uint_reads|]. intros _ _. by apply yields_ret.
Qed.

(** ** The same for authenticatorMakeCredential *)

Definition make_request_ok (r : CTAPMakeCredentialRequest) : Prop :=
  1 ≤ len (rp_id (mc_rp r)) ≤ MAX_RP_ID_LENGTH ∧
  (len (ue_id (mc_user r)) ≤ MAX_USER_ID_LENGTH ∧ bytes_ok (ue_id (mc_user r)) ∧
   len (ue_name (mc_user r)) ≤ MAX_ENTITY_TEXT_LENGTH ∧
   len (ue_displayName (mc_user r)) ≤ MAX_ENTITY_TEXT_LENGTH) ∧
  len (mc_clientDataHash r) = CLIENT_DATA_HASH_LENGTH ∧
  Forall (λ p, INT_MIN ≤ pk_alg p ≤ INT_MAX) (mc_params r) ∧
  Forall descriptor_ok (mc_excludeList r) ∧
  (∃ rk uv, mc_options r !! lit "rk" = Some rk ∧ mc_options r !! lit "uv" = Some uv).

Definition user_ok (u : UserEntity) : Prop :=
  len (ue_id u) ≤ MAX_USER_ID_LENGTH ∧ bytes_ok (ue_id u) ∧
  len (ue_name u) ≤ MAX_ENTITY_TEXT_LENGTH ∧ len (ue_displayName u) ≤ MAX_ENTITY_TEXT_LENGTH.

Definition make_partial (seen : gset Z) (r : CTAPMakeCredentialRequest) : Prop :=
  (1 ∈ seen → len (mc_clientDataHash r) = CLIENT_DATA_HASH_LENGTH) ∧
  (2 ∈ seen → 1 ≤ len (rp_id (mc_rp r))) ∧ len (rp_id (mc_rp r)) ≤ MAX_RP_ID_LENGTH ∧
  user_ok (mc_user r) ∧ Forall (λ p, INT_MIN ≤ pk_alg p ≤ INT_MAX) (mc_params r) ∧
  Forall descriptor_ok (mc_excludeList r) ∧
  (∃ rk uv, mc_options r !! lit "rk" = Some rk ∧ mc_options r !! lit "uv" = Some uv).

Lemma make_partial_seen seen key r :
  key ≠ 1 → key ≠ 2 → make_partial seen r → make_partial ({[key]} ∪ seen) r.
Proof. intros H1 H2 (A & B & C). split_and!; [set_solver|set_solver|apply C..]. Qed.

Lemma rp_member_reads key rp :
  len (rp_id rp) ≤ MAX_RP_ID_LENGTH →
  reads (λ rp, len (rp_id rp) ≤ MAX_RP_ID_LENGTH) (rp_member key rp).
Proof.
  intros Hrp. unfold rp_member. destruct (bool_decide (key = lit "id")).
  { eapply reads_bind; [apply read_text_reads|]. intros t [Ht _]. by apply yields_ret. }
  destruct (bool_decide (key = lit "name")).
  { eapply reads_bind; [apply read_text_reads|]. intros t _. by apply yields_ret. }
  by apply skip_member_reads.
Qed.

Lemma user_member_reads key u : user_ok u → reads user_ok (user_member key u).
Proof.
  intros Hu. pose proof Hu as (A & B & C & D). unfold user_member.
  destruct (bool_decide (key = lit "id")).
  { eapply reads_bind; [apply read_bytes_reads|]. intros t [Ht Hb]. by apply yields_ret. }
  destruct (bool_decide (key = lit "name")).
  { eapply reads_bind; [apply read_text_reads|]. intros t [Ht _]. by apply yields_ret. }
  destruct (bool_decide (key = lit "displayName")).
  { eapply reads_bind; [apply read_text_reads|]. intros t [Ht _]. by apply yields_ret. }
  by apply skip_member_reads.
Qed.

Lemma param_member_reads key p :
  INT_MIN ≤ pk_alg p ≤ INT_MAX → reads (λ p, INT_MIN ≤ pk_alg p ≤ INT_MAX) (param_member key p).
Proof.
  intros Hp. unfold param_member. destruct (bool_decide (key = lit "type")).
  { eapply reads_bind; [apply read_text_reads|]. intros t _. by apply yields_ret. }
  destruct (bool_decide (key = lit "alg")).
  { eapply reads_bind; [apply read_int_reads|]. intros a _. apply yields_if. intros Hc.
    reflect_bools. by apply yields_ret. }
  by apply skip_member_reads.
Qed.

Lemma push_param_reads l :
  Forall (λ p, INT_MIN ≤ pk_alg p ≤ INT_MAX) l →
  reads (Forall (λ p, INT_MIN ≤ pk_alg p ≤ INT_MAX)) (push_param l).
Proof.
  intros Hl. eapply reads_bind.
  - apply (text_map_reads (λ _ p, INT_MIN ≤ pk_alg p ≤ INT_MAX)); [|by simpl; unfold INT_MIN, INT_MAX; lia].
    intros. by apply param_member_reads.
  - intros [seen p] Hp. apply yields_if. intros _. apply yields_ret.
    apply Forall_app. by split; [|constructor].
Qed.

Lemma make_option_member_reads seen name r :
  make_partial seen r → reads (make_partial seen) (make_option_member name r).
Proof.
  intros Hr. pose proof Hr as (A & B & C & D & E & F & G). unfold make_option_member.
  destruct (bool_decide (name = lit "rk") || bool_decide (name = lit "uv")).
  { eapply reads_bind; [apply read_bool_reads|]. intros b _. apply yields_ret.
    split_and!; try done. by apply options_insert. }
  destruct (bool_decide (name = lit "up")).
  { eapply reads_bind; [apply read_bool_reads|]. intros b _. by apply yields_ret. }
  by apply skip_member_reads.
Qed.

Lemma make_dispatch_other key r :
  ¬ 1 ≤ key ≤ 9 → make_dispatch key r = skip_member r.
Proof. intros Hk. unfold make_dispatch. split_literals; done || lia. Qed.

Lemma make_dispatch_reads seen key r :
  make_partial seen r → key ∉ seen → reads (make_partial ({[key]} ∪ seen)) (make_dispatch key r).
Proof.
  intros Hr Hk. destruct (decide (1 ≤ key ≤ 9)) as [Hin|Hout].
  2:{ rewrite make_dispatch_other by done. apply skip_member_reads, make_partial_seen; [lia..|done]. }
  destruct (decide (key = 1)) as [->|H1].
  { destruct Hr as (A & B & C & D & E & F & G).
    eapply reads_bind; [apply read_bytes_reads|]. intros h [_ Hb]. apply yields_if. intros Hc.
    reflect_bools. apply yields_ret. split_and!; try done. set_solver. }
  destruct (decide (key = 2)) as [->|H2].
  { destruct Hr as (A & B & C & D & E & F & G). eapply reads_bind.
    - apply (text_map_reads (λ _ rp, len (rp_id rp) ≤ MAX_RP_ID_LENGTH)); [|done].
      intros. by apply rp_member_reads.
    - intros [seen' rp] Hrp. apply yields_if. intros Hc. reflect_bools. apply yields_ret.
      split_and!; try done; simpl; [set_solver|lia]. }
  apply (make_partial_seen seen key r H1 H2) in Hr as Hr'. clear Hr.
  pose proof Hr' as (A & B & C & D & E & F & G).
  assert (key = 3 ∨ key = 4 ∨ key = 5 ∨ key = 6 ∨ key = 7 ∨ key = 8 ∨ key = 9)
    as [->|[->|[->|[->|[->|[->| ->]]]]]] by lia; simpl.
  - eapply reads_bind.
    + apply (text_map_reads (λ _, user_ok)); [|done]. intros. by apply user_member_reads.
    + intros [seen' u] Hu. apply yields_if. intros _. by apply yields_ret.
  - eapply reads_bind; [apply read_container_reads, E; apply push_param_reads|].
    intros l Hl. by apply yields_ret.
  - eapply reads_bind; [apply read_container_reads, F; apply push_descriptor_reads|].
    intros l Hl. by apply yields_ret.
  - by apply extensions_reads.
  - apply text_map_value_reads; [|done]. apply make_option_member_reads.
  - eapply reads_bind; [apply read_bytes_reads|]. intros _ _. by apply yields_ret.
  - eapply reads_bind; [apply read_uint_reads|]. intros _ _. by apply yields_ret.
Qed.

Lemma get_clear_partial : get_partial ∅ get_clear.
Proof. split_and!; first [done | by exists true, false | constructor | set_solver]. Qed.

Lemma make_clear_partial : make_partial ∅ make_clear.
Proof.
  assert (user_ok (mc_user make_clear)) by (split_and!; done || constructor).
  split_and!; first [done | by exists false, false | constructor | set_solver].
Qed.
End parsing.

(** Parsing ends, with an acceptable request or a cleared one. *)
Lemma get_parse_total `{TinyCbor} payload :
  ∃ b r, get_parseRequest payload = Ret (b, r) ∧ if b then get_request_ok r else r = get_clear.
Proof.
  pose proof (parse_parameters_spec get_partial get_dispatch [1; 2] get_clear payload
    get_dispatch_reads get_clear_partial) as Hp. unfold get_parseRequest.
  destruct (parse_parameters _ _ _ _) as [r|e]; [|rewrite Hp; by exists false, get_clear].
  exists true, r. split; [done|]. destruct Hp as (seen & (A & B & C & D & E & F & G) & Hreq).
  split_and!; try done; [apply A, Hreq; set_solver|apply D, Hreq; set_solver].
Qed.

Lemma make_parse_total `{TinyCbor} payload :
  ∃ b r, make_parseRequest payload = Ret (b, r) ∧ if b then make_request_ok r else r = make_clear.
Proof.
  pose proof (parse_parameters_spec make_partial make_dispatch [1; 2; 3; 4] make_clear payload
    make_dispatch_reads make_clear_partial) as Hp. unfold make_parseRequest.
  destruct (parse_parameters _ _ _ _) as [r|e]; [|rewrite Hp; by exists false, make_clear].
  exists true, r. split; [done|]. destruct Hp as (seen & (A & B & C & D & E & F & G) & Hreq).
  split_and!; try done; try apply D; [apply B, Hreq; set_solver|apply A, Hreq; set_solver].
Qed.

(** ** An instance of the parameter

    An iterator over definite-length CBOR with arguments of at most one byte, to run the
    parsers on concrete requests. *)

Record toy_value := mkToy { tv_rest : list Z; tv_left : option nat }.

(** Major type, argument and the bytes after the head. *)
Definition toy_head (l : list Z) : option (Z * nat * list Z) :=
  match l with
  | b :: l' =>
      let info := b mod 32 in
      if info <? 24 then Some (b / 32, Z.to_nat info, l') else
      if info =? 24 then
        match l' with a :: l'' => Some (b / 32, Z.to_nat a, l'') | [] => None end
      else None
  | [] => None
  end.

Lemma toy_head_shorter l m n l' : toy_head l = Some (m, n, l') → (length l' < length l)%nat.
Proof.
  destruct l as [|b l]; [done|]. simpl. destruct (b mod 32 <? 24); [intros [= <- <- <-]; lia|].
  destruct (b mod 32 =? 24); [|done]. destruct l as [|a l]; [done|]. intros [= <- <- <-]. simpl. lia.
Qed.

(** Skips [n] items, those inside containers included. *)
Fixpoint toy_skip (fuel n : nat) (l : list Z) : option (list Z) :=
  match n, fuel with
  | O, _ => Some l
  | _, O => None
  | S n, S fuel =>
      '(m, k, l') ← toy_head l;
      if (m =? 2) || (m =? 3) then
        if (k <=? length l')%nat then toy_skip fuel n (drop k l') else None
      else if m =? 4 then toy_skip fuel (k + n) l'
      else if m =? 5 then toy_skip fuel (2 * k + n) l'
      else toy_skip fuel n l'
  end.

Lemma toy_skip_shorter fuel n l l' :
  toy_skip fuel n l = Some l' → (length l' ≤ length l ∧ (0 < n → length l' < length l))%nat.
Proof.
  revert n l. induction fuel as [|fuel IH]; intros [|n] l; simpl; try done;
    try (intros [= <-]; lia).
  destruct (toy_head l) as [[[m k] l1]|] eqn:Eh; [|done]. simpl. apply toy_head_shorter in Eh.
  destruct ((m =? 2) || (m =? 3)).
  { destruct (k <=? length l1)%nat; [|done]. intros Hs. apply IH in Hs.
    rewrite length_drop in Hs. lia. }
  destruct (m =? 4); [intros Hs; apply IH in Hs; lia|].
  destruct (m =? 5); intros Hs; apply IH in Hs; lia.
Qed.

Definition toy_is (m : Z) (v : toy_value) : bool :=
  match toy_head (tv_rest v) with Some (m', _, _) => m' =? m | None => false end.
Definition toy_next (v : toy_value) (rest : list Z) : toy_value := mkToy rest (pred <$> tv_left v).
Definition toy_enter (v : toy_value) : option toy_value :=
  '(m, k, l) ← toy_head (tv_rest v);
  Some (mkToy l (Some (if m =? 5 then (2 * k)%nat else k))).
Definition toy_copy (v : toy_value) (n : Z) : option (list Z * toy_value) :=
  '(_, k, l) ← toy_head (tv_rest v);
  if (k <=? length l)%nat && (Z.of_nat k <=? n) && bytes_okb (take k l)
  then Some (take k l, toy_next v (drop k l)) else None.
Definition toy_advance (v : toy_value) : option toy_value :=
  l ← toy_skip (length (tv_rest v)) 1 (tv_rest v); Some (toy_next v l).
Definition toy_argument (v : toy_value) : option Z :=
  '(m, k, _) ← toy_head (tv_rest v);
  Some (if m =? 1 then -1 - Z.of_nat k else Z.of_nat k).

Definition toy_done (v : toy_value) : bool :=
  match tv_left v with Some n => (n =? 0)%nat | None => false end.
Definition toy_source_end (_ : list Z) (v : toy_value) : bool :=
  match tv_rest v with [] => true | _ => false end.

#[global] Program Instance toy_cbor : TinyCbor := {|
  CborValue := toy_value;
  cbor_parser_init l := Some (mkToy l None);
  cbor_is_map := toy_is 5;
  cbor_is_array := toy_is 4;
  cbor_is_text_string := toy_is 3;
  cbor_is_byte_string := toy_is 2;
  cbor_is_unsigned_integer := toy_is 0;
  cbor_is_integer v := toy_is 0 v || toy_is 1 v;
  cbor_is_boolean := toy_is 7;
  cbor_at_end := toy_done;
  cbor_enter_container := toy_enter;
  cbor_leave_container v c := Some (toy_next v (tv_rest c));
  cbor_calculate_string_length v := Z.of_nat ∘ snd ∘ fst <$> toy_head (tv_rest v);
  cbor_copy_string := toy_copy;
  cbor_get_uint64 := toy_argument;
  cbor_get_int64 := toy_argument;
  cbor_get_boolean v := Z.eqb 21 <$> toy_argument v;
  cbor_advance_fixed := toy_advance;
  cbor_advance := toy_advance;
  cbor_at_source_end := toy_source_end;
  cbor_remaining v := length (tv_rest v);
|}.
Next Obligation.
  intros v c. unfold toy_enter. destruct (toy_head (tv_rest v)) as [[[m k] l]|] eqn:E; [|done].
  intros [= <-]. simpl. by eapply toy_head_shorter.
Qed.
Next Obligation. intros v c v' [= <-]. done. Qed.
Next Obligation.
  intros v n s v'. unfold toy_copy. destruct (toy_head (tv_rest v)) as [[[m k] l]|] eqn:E; [|done].
  simpl. destruct (_ && _); [|done]. intros [= <- <-]. simpl. rewrite length_drop.
  apply toy_head_shorter in E. lia.
Qed.
Next Obligation.
  intros v n s v'. unfold toy_copy. destruct (toy_head (tv_rest v)) as [[[m k] l]|]; [|done]. simpl.
  destruct (_ && _) eqn:E; [|done]. intros [= <- <-]. reflect_bools. rewrite length_take. lia.
Qed.
Next Obligation.
  intros v n s v'. unfold toy_copy. destruct (toy_head (tv_rest v)) as [[[m k] l]|]; [|done]. simpl.
  destruct (_ && _) eqn:E; [|done]. intros [= <- <-]. apply andb_true_iff in E as [_ E].
  by apply bytes_okb_ok.
Qed.
Next Obligation.
  intros v v'. unfold toy_advance. destruct (toy_skip _ _ _) as [l|] eqn:E; [|done].
  intros [= <-]. simpl. apply toy_skip_shorter in E. lia.
Qed.
Next Obligation.
  intros v v'. unfold toy_advance. destruct (toy_skip _ _ _) as [l|] eqn:E; [|done].
  intros [= <-]. simpl. apply toy_skip_shorter in E. lia.
Qed.

(** A GetAssertion request for "example.org" with user verification. *)
Definition example_get_bytes : list Z :=
  [163; 1; 107] ++ lit "example.org" ++ [2; 88; 32] ++ replicate 32 170 ++
  [5; 161; 98] ++ lit "uv" ++ [245].

Example example_get_parsed :
  get_parseRequest example_get_bytes =
    Ret (true, mkGet (lit "example.org") (replicate 32 170) []
      {[lit "uv" := true; lit "up" := true]} false false false).
Proof. vm_compute. reflexivity. Qed.

(** A MakeCredential request for a resident ES256 key. *)
Definition example_make_bytes : list Z :=
  [165; 1; 88; 32] ++ replicate 32 170 ++ [2; 161; 98] ++ lit "id" ++ [107] ++ lit "example.org" ++
  [3; 162; 98] ++ lit "id" ++ [67; 1; 2; 3; 100] ++ lit "name" ++ [101] ++ lit "alice" ++
  [4; 129; 162; 99] ++ lit "alg" ++ [38; 100] ++ lit "type" ++ [106] ++ lit "public-key" ++
  [7; 161; 98] ++ lit "rk" ++ [245].

Example example_make_parsed :
  make_parseRequest example_make_bytes =
    Ret (true, mkMake (mkRp (lit "example.org") []) (mkUserEntity [1; 2; 3] (lit "alice") [])
      (replicate 32 170) [mkParam (lit "public-key") (-7)] []
      {[lit "rk" := true; lit "uv" := false]} false false false).
Proof. vm_compute. reflexivity. Qed.

(** ** Properties *)

(** Parsing an authenticatorGetAssertion request always comes to an end, on any bytes:
    it either accepts a request whose relying-party identifier, client data hash,
    descriptors and options are within their limits, or refuses it and leaves the request
    object cleared. *)
Theorem get_assertion_parsing `{TinyCbor} payload :
  ∃ b r, get_parseRequest payload = Ret (b, r) ∧
    if b then get_request_ok r else r = get_clear.
Proof. apply get_parse_total. Qed.

Lemma get_assertion_parsing_witness :
  ∃ r, get_parseRequest example_get_bytes = Ret (true, r) ∧ get_request_ok r.
Proof.
  destruct (get_assertion_parsing example_get_bytes) as (b & r & E & Hr). exists r.
  rewrite example_get_parsed in E. injection E as Eb Er. rewrite <- Eb in Hr.
  split; [|exact Hr]. rewrite example_get_parsed. by rewrite <- Er.
Defined.

(** C35: Parsing an authenticatorMakeCredential request always comes to an end, on any
    bytes: it either accepts a request whose relying party, user, hash, algorithms,
    exclude list and options are within their limits, or refuses it and leaves the
    request object cleared. *)
Theorem make_credential_parsing `{TinyCbor} payload :
  ∃ b r, make_parseRequest payload = Ret (b, r) ∧
    if b then make_request_ok r else r = make_clear.
Proof. apply make_parse_total. Qed.

Lemma make_credential_parsing_witness :
  ∃ r, make_parseRequest example_make_bytes = Ret (true, r) ∧ make_request_ok r.
Proof.
  destruct (make_credential_parsing example_make_bytes) as (b & r & E & Hr). exists r.
  rewrite example_make_parsed in E. injection E as Eb Er. rewrite <- Eb in Hr.
  split; [|exact Hr]. rewrite example_make_parsed. by rewrite <- Er.
Defined.
