(* ===== verification/Cbor.v ===== *)
(** * CBOR values (RFC 8949)

    The reference that the responses are measured against: values, their definite-length
    encoding with the shortest heads, and an independent reader.  Reading an encoding gives
    the value back. *)
From Stdlib Require Import ZArith Lia.
From stdpp Require Import base list strings.
From S2P Require Import Prelude.

Inductive cbor :=
  | CInt (value : Z)
  | CBytes (value : list Z)
  | CText (value : list Z)
  | CArray (items : list cbor)
  | CMap (entries : list (cbor * cbor))
  | CBool (value : bool).

(** Induction through the containers. *)
Section cbor_ind.
Variable P : cbor → Prop.
Hypothesis Hint : ∀ z, P (CInt z).
Hypothesis Hbytes : ∀ s, P (CBytes s).
Hypothesis Htext : ∀ s, P (CText s).
Hypothesis Harray : ∀ l, Forall P l → P (CArray l).
Hypothesis Hmap : ∀ l, Forall (λ kv, P kv.1 ∧ P kv.2) l → P (CMap l).
Hypothesis Hbool : ∀ b, P (CBool b).

Fixpoint cbor_deep_ind (v : cbor) : P v :=
  match v with
  | CInt z => Hint z
  | CBytes s => Hbytes s
  | CText s => Htext s
  | CArray l => Harray l
      ((fix go l : Forall P l := match l with
        | [] => Forall_nil_2 P
        | x :: l => Forall_cons_2 P x l (cbor_deep_ind x) (go l)
        end) l)
  | CMap l => Hmap l
      ((fix go l : Forall (λ kv, P kv.1 ∧ P kv.2) l := match l with
        | [] => Forall_nil_2 _
        | (k, v) :: l => Forall_cons_2 (λ kv, P kv.1 ∧ P kv.2) (k, v) l
            (conj (cbor_deep_ind k) (cbor_deep_ind v)) (go l)
        end) l)
  | CBool b => Hbool b
  end.
End cbor_ind.

(** ** Encoding *)

(** The big-endian bytes of an argument. *)
Fixpoint be_bytes (size : nat) (n : Z) : list Z :=
  match size with
  | O => []
  | S size => n / 256 ^ Z.of_nat size mod 256 :: be_bytes size n
  end.

(** The head of an item: its major type and its argument, in the shortest form. *)
Definition cbor_head (major n : Z) : list Z :=
  if n <? 24 then [major * 32 + n] else
  if n <? 2 ^ 8 then major * 32 + 24 :: be_bytes 1 n else
  if n <? 2 ^ 16 then major * 32 + 25 :: be_bytes 2 n else
  if n <? 2 ^ 32 then major * 32 + 26 :: be_bytes 4 n else
  major * 32 + 27 :: be_bytes 8 n.

Definition cbor_int (z : Z) : list Z :=
  if z <? 0 then cbor_head 1 (-1 - z) else cbor_head 0 z.

Fixpoint cbor_encode (v : cbor) : list Z :=
  match v with
  | CInt z => cbor_int z
  | CBytes s => cbor_head 2 (len s) ++ s
  | CText s => cbor_head 3 (len s) ++ s
  | CArray l => cbor_head 4 (len l) ++ concat (map cbor_encode l)
  | CMap l => cbor_head 5 (len l) ++
      concat (map (λ kv : cbor * cbor, let (k, v) := kv in cbor_encode k ++ cbor_encode v) l)
  | CBool b => [if b then 245 else 244]
  end.

(** ** Reading *)

Definition be_value (l : list Z) : Z := foldl (λ n b, n * 256 + b) 0 l.

(** [n] bytes of the input, if there are so many. *)
Definition cut (n : nat) (bs : list Z) : option (list Z * list Z) :=
  if (n <=? length bs)%nat then Some (take n bs, drop n bs) else None.

(** The major type, the additional information and the argument. *)
Definition read_head (bs : list Z) : option (Z * Z * Z * list Z) :=
  match bs with
  | [] => None
  | b :: bs =>
      let major := b / 32 in
      let info := b mod 32 in
      let argument size := '(a, bs) ← cut size bs; Some (major, info, be_value a, bs) in
      if info <? 24 then Some (major, info, info, bs) else
      if info =? 24 then argument 1%nat else
      if info =? 25 then argument 2%nat else
      if info =? 26 then argument 4%nat else
      if info =? 27 then argument 8%nat else None
  end.

(** [n] items, one after the other. *)
Fixpoint read_many {A} (read : list Z → option (A * list Z)) (n : nat) (bs : list Z)
    : option (list A * list Z) :=
  match n with
  | O => Some ([], bs)
  | S n => '(x, bs) ← read bs; '(l, bs) ← read_many read n bs; Some (x :: l, bs)
  end.

(** One item; every level of nesting takes a unit of fuel. *)
Fixpoint cbor_read (fuel : nat) (bs : list Z) : option (cbor * list Z) :=
  match fuel with
  | O => None
  | S fuel =>
      '(major, info, n, bs) ← read_head bs;
      if major =? 0 then Some (CInt n, bs) else
      if major =? 1 then Some (CInt (-1 - n), bs) else
      if major =? 2 then '(s, bs) ← cut (Z.to_nat n) bs; Some (CBytes s, bs) else
      if major =? 3 then '(s, bs) ← cut (Z.to_nat n) bs; Some (CText s, bs) else
      if major =? 4 then
        '(l, bs) ← read_many (cbor_read fuel) (Z.to_nat n) bs; Some (CArray l, bs) else
      if major =? 5 then
        '(l, bs) ← read_many (λ bs,
           '(k, bs) ← cbor_read fuel bs; '(v, bs) ← cbor_read fuel bs; Some ((k, v), bs))
           (Z.to_nat n) bs;
        Some (CMap l, bs) else
      if (major =? 7) && (info =? 20) then Some (CBool false, bs) else
      if (major =? 7) && (info =? 21) then Some (CBool true, bs) else None
  end.

(** The value that is the whole input; an input is nested at most as deep as it is long. *)
Definition cbor_decode (bs : list Z) : option cbor :=
  match cbor_read (length bs) bs with Some (v, []) => Some v | _ => None end.

(** The integers of a value are within CBOR's range. *)
Fixpoint ints_ok (v : cbor) : Prop :=
  match v with
  | CInt z => - 2 ^ 64 ≤ z < 2 ^ 64
  | CArray l => foldr (λ x P, ints_ok x ∧ P) True l
  | CMap l => foldr (λ (kv : cbor * cbor) P, let (k, v) := kv in (ints_ok k ∧ ints_ok v) ∧ P) True l
  | _ => True
  end.

(** ** Reading an encoding *)

Lemma length_be_bytes size n : length (be_bytes size n) = size.
Proof. induction size; simpl; congruence. Qed.

Lemma foldl_be l n : foldl (λ n b, n * 256 + b) n l = n * 256 ^ len l + be_value l.
Proof.
  unfold be_value. revert n. induction l as [|b l IH]; intros n; cbn [foldl]; [simpl; lia|].
  rewrite IH, (IH (0 * 256 + b)). replace (len (b :: l)) with (Z.succ (len l)) by (simpl; lia).
  rewrite Z.pow_succ_r by lia. lia.
Qed.

Lemma be_value_bytes size n : be_value (be_bytes size n) = n mod 256 ^ Z.of_nat size.
Proof.
  induction size as [|size IH]; [by rewrite Z.mod_1_r|]. cbn [be_bytes].
  unfold be_value. cbn [foldl]. rewrite foldl_be, IH, length_be_bytes.
  rewrite Nat2Z.inj_succ, Z.pow_succ_r by lia.
  rewrite (Z.mul_comm 256), Z.rem_mul_r by lia. lia.
Qed.

Lemma cut_app a b : cut (length a) (a ++ b) = Some (a, b).
Proof.
  unfold cut. rewrite length_app, (proj2 (Nat.leb_le _ _)) by lia.
  by rewrite take_app_length, drop_app_length.
Qed.

(** The head of an encoding is read back. *)
Lemma read_cbor_head major n rest :
  0 ≤ major < 8 → 0 ≤ n < 2 ^ 64 →
  ∃ info, read_head (cbor_head major n ++ rest) = Some (major, info, n, rest).
Proof.
  intros Hm Hn.
  assert (∀ size info, 0 ≤ info < 32 → info = 24 ∧ size = 1%nat ∨ info = 25 ∧ size = 2%nat ∨
    info = 26 ∧ size = 4%nat ∨ info = 27 ∧ size = 8%nat → n < 256 ^ Z.of_nat size →
    ∃ i, read_head ((major * 32 + info :: be_bytes size n) ++ rest) = Some (major, i, n, rest)) as Hlong.
  { intros size info Hi Hcases Hsize. exists info. unfold read_head. cbn [app]. cbv zeta.
    replace ((major * 32 + info) / 32) with major by (rewrite Z.div_add_l, Z.div_small; lia).
    replace ((major * 32 + info) mod 32) with info
      by (rewrite Z.add_comm, Z.mod_add by lia; symmetry; by apply Z.mod_small).
    assert (cut size (be_bytes size n ++ rest) = Some (be_bytes size n, rest)) as Hcut.
    { rewrite <- (length_be_bytes size n) at 1. apply cut_app. }
    assert (be_value (be_bytes size n) = n) as Hval.
    { rewrite be_value_bytes. apply Z.mod_small. lia. }
    destruct Hcases as [[-> ->]|[[-> ->]|[[-> ->]|[-> ->]]]]; cbn [Z.ltb Z.eqb Z.compare Pos.compare Pos.compare_cont Pos.eqb];
      rewrite Hcut; cbn [mbind option_bind]; by rewrite Hval. }
  unfold cbor_head.
  destruct (n <? 24) eqn:E1; reflect_bools.
  { exists n. simpl.
    replace ((major * 32 + n) / 32) with major by (rewrite Z.div_add_l, Z.div_small; lia).
    replace ((major * 32 + n) mod 32) with n
      by (rewrite Z.add_comm, Z.mod_add by lia; symmetry; apply Z.mod_small; lia).
    by rewrite (proj2 (Z.ltb_lt _ _)) by done. }
  destruct (n <? 2 ^ 8) eqn:E2; reflect_bools; [apply Hlong; [lia|auto|simpl; lia]|].
  destruct (n <? 2 ^ 16) eqn:E3; reflect_bools; [apply Hlong; [lia|auto|simpl; lia]|].
  destruct (n <? 2 ^ 32) eqn:E4; reflect_bools; apply Hlong; try lia; auto 10; simpl; lia.
Qed.

Lemma cbor_head_length major n : (1 ≤ length (cbor_head major n))%nat.
Proof. unfold cbor_head. repeat case_match; simpl; lia. Qed.

(** Reading the items of a container, each of which can be read. *)
Lemma read_many_concat {A} (enc : A → list Z) read l rest :
  Forall (λ x, ∀ rest, read (enc x ++ rest) = Some (x, rest)) l →
  read_many read (length l) (concat (map enc l) ++ rest) = Some (l, rest).
Proof.
  induction 1 as [|x l Hx _ IH]; [done|]. simpl. by rewrite <- app_assoc, Hx; simpl; rewrite IH.
Qed.

(** An item of a concatenation is no longer than the whole. *)
Lemma concat_elem_length {A} (enc : A → list Z) l x :
  x ∈ l → (length (enc x) ≤ length (concat (map enc l)))%nat.
Proof.
  induction l as [|y l IH]; [by intros ?%not_elem_of_nil|]. simpl. rewrite length_app.
  intros [->|Hx]%elem_of_cons; [lia|]. specialize (IH Hx). lia.
Qed.

(** A container has at most as many items as its encoding has bytes. *)
Lemma concat_count {A} (enc : A → list Z) l :
  (∀ x, 1 ≤ length (enc x))%nat → (length l ≤ length (concat (map enc l)))%nat.
Proof.
  intros He. induction l as [|y l IH]; simpl; [lia|]. rewrite length_app. specialize (He y). lia.
Qed.

Lemma ints_ok_array l : ints_ok (CArray l) → Forall ints_ok l.
Proof. simpl. induction l; simpl; [done|]. intros [? ?]. auto. Qed.
Lemma ints_ok_map l : ints_ok (CMap l) → Forall (λ kv, ints_ok kv.1 ∧ ints_ok kv.2) l.
Proof. simpl. induction l as [|[k v] l IH]; simpl; [done|]. intros [? ?]. auto. Qed.

Lemma cbor_encode_length v : (1 ≤ length (cbor_encode v))%nat.
Proof.
  destruct v; cbn [cbor_encode]; unfold cbor_int; repeat case_match;
    rewrite ?length_app; simpl length;
    try (pose proof (cbor_head_length 0 value); lia); try apply cbor_head_length;
    match goal with |- (1 ≤ length (cbor_head ?m ?n) + _)%nat => pose proof (cbor_head_length m n); lia
    | _ => lia end.
Qed.

(** Every head within the range of a message. *)
Lemma cbor_read_encode v fuel rest :
  ints_ok v → len (cbor_encode v) < 2 ^ 64 → (length (cbor_encode v) ≤ fuel)%nat →
  cbor_read fuel (cbor_encode v ++ rest) = Some (v, rest).
Proof.
  revert fuel rest. induction v as [z|s|s|l IH|l IH|b] using cbor_deep_ind;
    intros fuel rest Hi Hlen Hfuel;
    (destruct fuel as [|fuel]; [pose proof (cbor_encode_length) as Hl;
       match type of Hfuel with (length (cbor_encode ?x) ≤ _)%nat => specialize (Hl x); lia end|]).
  - cbn [cbor_encode ints_ok] in *. unfold cbor_int.
    destruct (z <? 0) eqn:Ez; reflect_bools.
    + destruct (read_cbor_head 1 (-1 - z) rest) as [info E]; [lia..|].
      cbn [cbor_read]. rewrite E. simpl. do 3 f_equal. lia.
    + destruct (read_cbor_head 0 z rest) as [info E]; [lia..|].
      cbn [cbor_read]. by rewrite E.
  - cbn [cbor_encode] in *. rewrite length_app in Hlen.
    destruct (read_cbor_head 2 (len s) (s ++ rest)) as [info E]; [lia..|].
    cbn [cbor_read]. rewrite <- app_assoc, E. simpl. by rewrite Nat2Z.id, cut_app.
  - cbn [cbor_encode] in *. rewrite length_app in Hlen.
    destruct (read_cbor_head 3 (len s) (s ++ rest)) as [info E]; [lia..|].
    cbn [cbor_read]. rewrite <- app_assoc, E. simpl. by rewrite Nat2Z.id, cut_app.
  - cbn [cbor_encode] in *. rewrite length_app in Hlen, Hfuel.
    pose proof (cbor_head_length 4 (len l)). pose proof (concat_count cbor_encode l cbor_encode_length).
    destruct (read_cbor_head 4 (len l) (concat (map cbor_encode l) ++ rest)) as [info E]; [lia..|].
    cbn [cbor_read]. rewrite <- app_assoc, E. simpl. rewrite Nat2Z.id, read_many_concat; [done|].
    apply ints_ok_array in Hi. rewrite Forall_forall in IH, Hi |- *. intros x Hx rest'.
    pose proof (concat_elem_length cbor_encode l x Hx). apply IH; [done|by apply Hi|lia..].
  - cbn [cbor_encode] in *. set (enc := λ kv : cbor * cbor, let (k, v) := kv in cbor_encode k ++ cbor_encode v) in *.
    rewrite length_app in Hlen, Hfuel. pose proof (cbor_head_length 5 (len l)).
    assert (∀ kv, 1 ≤ length (enc kv))%nat as Hone.
    { intros [k v]. unfold enc. rewrite length_app. pose proof (cbor_encode_length k). lia. }
    pose proof (concat_count enc l Hone).
    destruct (read_cbor_head 5 (len l) (concat (map enc l) ++ rest)) as [info E]; [lia..|].
    cbn [cbor_read]. rewrite <- app_assoc, E. simpl. rewrite Nat2Z.id, read_many_concat; [done|].
    apply ints_ok_map in Hi. rewrite Forall_forall in IH, Hi |- *. intros [k v] Hx rest'.
    destruct (IH _ Hx) as [IHk IHv], (Hi _ Hx) as [Hk Hv]. simpl in *.
    pose proof (concat_elem_length enc l (k, v) Hx) as Hle.
    change (enc (k, v)) with (cbor_encode k ++ cbor_encode v) in Hle |- *.
    rewrite length_app in Hle. rewrite <- app_assoc.
    rewrite IHk by (done || lia). simpl. by rewrite IHv by (done || lia).
  - by destruct b.
Qed.

Lemma cbor_decode_encode v :
  ints_ok v → len (cbor_encode v) < 2 ^ 64 → cbor_decode (cbor_encode v) = Some v.
Proof.
  intros Hi Hl. unfold cbor_decode. rewrite <- (app_nil_r (cbor_encode v)) at 2.
  by rewrite cbor_read_encode.
Qed.
