(* ===== verification/CborResponses.v ===== *)
(** * CBOR responses (src/src/cbor_operations/cbor.cpp)

    The builders are straight-line sequences of tinycbor encoder calls, each checked, that
    write through a callback into a bounded buffer.  tinycbor is the parameter
    [TinyCborEncoder]: what each call passes to the callback.  Its documented contract is
    that a sequence of calls that fills every container with exactly the announced number
    of items does not fail by itself, and that each call writes the CBOR encoding of its
    item or of the head of its container.  Cbor.v has the encoding and a reader for it. *)
From Stdlib Require Import ZArith Lia.
From stdpp Require Import base list gmap strings.
From S2P Require Import Prelude Packet CredentialStore Cbor.

(** The encoder calls the builders make. *)
Inductive enc_call :=
  | CreateMap (length : Z)
  | CreateArray (length : Z)
  | CloseContainer
  | EncodeUint (value : Z)
  | EncodeInt (value : Z)
  | EncodeText (value : list Z)
  | EncodeBytes (value : list Z)
  | EncodeBoolean (value : bool).

Inductive enc_error := ErrorOutOfMemory | ErrorDataTooLarge | ErrorOther.

(** ** Sequences that respect the announced lengths

    The stack holds the items each open container still lacks. *)

(** One item goes into the innermost container. *)
Definition add_item (stack : list Z) : option (list Z) :=
  match stack with
  | n :: stack => if 0 <? n then Some (n - 1 :: stack) else None
  | [] => None
  end.

Definition count_call (stack : list Z) (c : enc_call) : option (list Z) :=
  match c with
  | CreateMap n => stack' ← add_item stack; Some (2 * n :: stack')
  | CreateArray n => stack' ← add_item stack; Some (n :: stack')
  | CloseContainer => match stack with 0 :: stack' => Some stack' | _ => None end
  | _ => add_item stack
  end.

Fixpoint count_calls (stack : list Z) (cs : list enc_call) : option (list Z) :=
  match cs with
  | [] => Some stack
  | c :: cs => stack' ← count_call stack c; count_calls stack' cs
  end.

(** One complete top-level item. *)
Definition balanced (cs : list enc_call) : Prop := count_calls [1] cs = Some [0].

(** What a call stands for in CBOR; the end of a definite-length container takes no bytes. *)
Definition call_encoding (c : enc_call) : list Z :=
  match c with
  | CreateMap n => cbor_head 5 n
  | CreateArray n => cbor_head 4 n
  | CloseContainer => []
  | EncodeUint n => cbor_head 0 n
  | EncodeInt n => cbor_int n
  | EncodeText s => cbor_head 3 (len s) ++ s
  | EncodeBytes s => cbor_head 2 (len s) ++ s
  | EncodeBoolean b => [if b then 245 else 244]
  end.

(** The numbers are of the types of the calls: [size_t], [uint64_t], [int64_t]. *)
Definition call_ok (c : enc_call) : Prop :=
  match c with
  | CreateMap n | CreateArray n | EncodeUint n => is_u64 n
  | EncodeInt n => - 2 ^ 63 ≤ n < 2 ^ 63
  | _ => True
  end.

(** A call takes the encoder to a new state and passes chunks of bytes to the callback,
    or reports an error of its own. *)
Class TinyCborEncoder := {
  Encoder : Type;
  encoder_init : Encoder;
  encode_call : Encoder → enc_call → Encoder * list (list Z) + enc_error;
  (** the states that a prefix of a balanced sequence reaches *)
  encoder_at : Encoder → list Z → Prop;
  encoder_at_init : encoder_at encoder_init [1];
  encode_call_counted e stack stack' c :
    encoder_at e stack → count_call stack c = Some stack' →
    ∃ e' chunks, encode_call e c = inl (e', chunks) ∧ encoder_at e' stack' ∧
      (call_ok c → concat chunks = call_encoding c);
}.

Section responses.
Context `{TinyCborEncoder}.

(** ** Encoding into a bounded buffer *)

Definition classify_error (error : enc_error) : CborEncodingFailure :=
  match error with
  | ErrorOutOfMemory | ErrorDataTooLarge => resource_limit
  | ErrorOther => invalid_structure
  end.

(** The callback; allocation is assumed to succeed. *)
Definition append_cbor (output data : list Z) : list Z + enc_error :=
  if (CTAPHID_MAX_PAYLOAD_SIZE <? len output) ||
     (CTAPHID_MAX_PAYLOAD_SIZE - len output <? len data)
  then inr ErrorDataTooLarge
  else inl (output ++ data).

(** The chunks of one call, in order; the first error ends the call. *)
Fixpoint append_chunks (output : list Z) (chunks : list (list Z)) : list Z + enc_error :=
  match chunks with
  | [] => inl output
  | data :: chunks =>
      match append_cbor output data with
      | inl output => append_chunks output chunks
      | inr e => inr e
      end
  end.

(** [check(call)] for each call. *)
Fixpoint run_calls (encoder : Encoder) (calls : list enc_call) (output : list Z) : res (list Z) :=
  match calls with
  | [] => Ret output
  | c :: calls =>
      match encode_call encoder c with
      | inr e => Throw (CborEncodingError (classify_error e))
      | inl (encoder, chunks) =>
          match append_chunks output chunks with
          | inr e => Throw (CborEncodingError (classify_error e))
          | inl output => run_calls encoder calls output
          end
      end
  end.

Definition encode_cbor (include_success_status : bool) (calls : list enc_call) : res (list Z) :=
  run_calls encoder_init calls (if include_success_status then [0] else []).

Definition pad32 (value : list Z) : res (list Z) :=
  throw_if 32 <? len value as CborEncodingError invalid_structure ;;
  Ret (replicate (32 - length value) 0 ++ value).

(** ** The builders *)

Definition aaguid : list Z :=
  [135; 145; 247; 220; 65; 139; 69; 16; 187; 245; 59; 175; 48; 113; 83; 36].
Definition firmware_version : Z := 1.

Definition getinfo_calls : list enc_call :=
  [CreateMap 6;
   EncodeUint 1; CreateArray 1; EncodeText (lit "FIDO_2_0"); CloseContainer;
   EncodeUint 3; EncodeBytes aaguid;
   EncodeUint 4; CreateMap 3;
     EncodeText (lit "rk"); EncodeBoolean true;
     EncodeText (lit "up"); EncodeBoolean true;
     EncodeText (lit "uv"); EncodeBoolean true;
   CloseContainer;
   EncodeUint 9; CreateArray 1; EncodeText (lit "usb"); CloseContainer;
   EncodeUint 10; CreateArray 1; CreateMap 2;
     EncodeText (lit "alg"); EncodeInt (-7);
     EncodeText (lit "type"); EncodeText (lit "public-key");
   CloseContainer; CloseContainer;
   EncodeUint 14; EncodeUint firmware_version;
   CloseContainer].

Definition build_getinfo_response : res (list Z) := encode_cbor true getinfo_calls.

Definition cose_calls (x_padded y_padded : list Z) : list enc_call :=
  [CreateMap 5;
   EncodeInt 1; EncodeInt 2;
   EncodeInt 3; EncodeInt (-7);
   EncodeInt (-1); EncodeInt 1;
   EncodeInt (-2); EncodeBytes x_padded;
   EncodeInt (-3); EncodeBytes y_padded;
   CloseContainer].

Definition build_cose_key (x y : list Z) : res (list Z) :=
  x_padded ← pad32 x;
  y_padded ← pad32 y;
  encode_cbor false (cose_calls x_padded y_padded).

Definition make_credential_calls (auth_data signData : list Z) : list enc_call :=
  [CreateMap 3;
   EncodeUint 1; EncodeText (lit "packed");
   EncodeUint 2; EncodeBytes auth_data;
   EncodeUint 3; CreateMap 2;
     EncodeText (lit "alg"); EncodeInt (-7);
     EncodeText (lit "sig"); EncodeBytes signData;
   CloseContainer;
   CloseContainer].

Definition build_authenticatorMakeCredential_response (auth_data signData : list Z) : res (list Z) :=
  encode_cbor true (make_credential_calls auth_data signData).

Definition user_calls (uv : bool) (credential : StoredCredential) : list enc_call :=
  [EncodeUint 4; CreateMap (if uv then 3 else 1);
   EncodeText (lit "id"); EncodeBytes (c_userId credential)] ++
  (if uv then
     [EncodeText (lit "name"); EncodeText (c_userName credential);
      EncodeText (lit "displayName"); EncodeText (c_userDisplayName credential)]
   else []) ++
  [CloseContainer].

Definition get_assertion_calls (auth_data signature : list Z) (uv : bool)
    (credential : StoredCredential) (include_user : bool) (number_of_credentials : option Z)
    : list enc_call :=
  let map_size := 3 + (if include_user then 1 else 0) +
    (match number_of_credentials with Some _ => 1 | None => 0 end) in
  [CreateMap map_size;
   EncodeUint 1; CreateMap 2;
     EncodeText (lit "id"); EncodeBytes (c_id credential);
     EncodeText (lit "type"); EncodeText (lit "public-key");
   CloseContainer;
   EncodeUint 2; EncodeBytes auth_data;
   EncodeUint 3; EncodeBytes signature] ++
  (if include_user then user_calls uv credential else []) ++
  (match number_of_credentials with Some n => [EncodeUint 5; EncodeUint n] | None => [] end) ++
  [CloseContainer].

Definition build_authenticatorGetAssertion_response (auth_data signature : list Z) (uv : bool)
    (credential : StoredCredential) (include_user : bool) (number_of_credentials : option Z)
    : res (list Z) :=
  encode_cbor true
    (get_assertion_calls auth_data signature uv credential include_user number_of_credentials).

(** ** The bytes of a response *)

(** What the encoder writes for a sequence of calls. *)
Fixpoint call_bytes (encoder : Encoder) (calls : list enc_call) : list Z :=
  match calls with
  | [] => []
  | c :: calls =>
      match encode_call encoder c with
      | inl (encoder, chunks) => concat chunks ++ call_bytes encoder calls
      | inr _ => []
      end
  end.

Lemma append_chunks_spec output chunks :
  len output ≤ CTAPHID_MAX_PAYLOAD_SIZE →
  append_chunks output chunks =
    if CTAPHID_MAX_PAYLOAD_SIZE <? len (output ++ concat chunks)
    then inr ErrorDataTooLarge else inl (output ++ concat chunks).
Proof.
  revert output. induction chunks as [|data chunks IH]; intros output Ho; simpl.
  { rewrite app_nil_r. by rewrite (proj2 (Z.ltb_ge _ _)) by done. }
  unfold append_cbor. rewrite (proj2 (Z.ltb_ge _ _) Ho). simpl. rewrite app_assoc.
  destruct (_ <? len data) eqn:E; reflect_bools.
  - rewrite (proj2 (Z.ltb_lt _ _)); [done|]. rewrite !length_app. lia.
  - apply IH. rewrite length_app. lia.
Qed.

(** A balanced sequence is encoded completely, unless it exceeds the buffer. *)
Lemma run_calls_spec encoder stack final calls output :
  encoder_at encoder stack → count_calls stack calls = Some final →
  len output ≤ CTAPHID_MAX_PAYLOAD_SIZE →
  run_calls encoder calls output =
    let bytes := output ++ call_bytes encoder calls in
    if CTAPHID_MAX_PAYLOAD_SIZE <? len bytes then Throw (CborEncodingError resource_limit)
    else Ret bytes.
Proof.
  revert encoder stack output. induction calls as [|c calls IH];
    intros encoder stack output He Hc Ho; simpl in *.
  { rewrite app_nil_r. by rewrite (proj2 (Z.ltb_ge _ _)) by done. }
  destruct (count_call stack c) as [stack'|] eqn:Ec; [|done]. simpl in Hc.
  destruct (encode_call_counted _ _ _ _ He Ec) as (e' & chunks & -> & He' & _).
  rewrite append_chunks_spec by done. rewrite app_assoc.
  destruct (CTAPHID_MAX_PAYLOAD_SIZE <? len (output ++ concat chunks)) eqn:El; reflect_bools.
  - rewrite (proj2 (Z.ltb_lt _ _)); [done|]. rewrite length_app. lia.
  - by apply (IH e' stack').
Qed.

Lemma encode_cbor_spec status calls :
  balanced calls →
  encode_cbor status calls =
    let bytes := (if status then [0] else []) ++ call_bytes encoder_init calls in
    if CTAPHID_MAX_PAYLOAD_SIZE <? len bytes then Throw (CborEncodingError resource_limit)
    else Ret bytes.
Proof.
  intros Hb. eapply run_calls_spec; [apply encoder_at_init|exact Hb|]. by destruct status.
Qed.

(** The bytes of a sequence are those of its calls. *)
Lemma call_bytes_encoding encoder stack final calls :
  encoder_at encoder stack → count_calls stack calls = Some final → Forall call_ok calls →
  call_bytes encoder calls = concat (map call_encoding calls).
Proof.
  revert encoder stack. induction calls as [|c calls IH]; intros encoder stack He Hc Hok; [done|].
  simpl in *. apply Forall_cons in Hok as [Hc1 Hok].
  destruct (count_call stack c) as [stack'|] eqn:Ec; [|done]. simpl in Hc.
  destruct (encode_call_counted _ _ _ _ He Ec) as (e' & chunks & -> & He' & Hb).
  rewrite Hb by done. f_equal. by eapply IH.
Qed.

Lemma getinfo_balanced : balanced getinfo_calls.
Proof. reflexivity. Qed.
Lemma cose_balanced x y : balanced (cose_calls x y).
Proof. reflexivity. Qed.
Lemma make_credential_balanced a s : balanced (make_credential_calls a s).
Proof. reflexivity. Qed.
Lemma get_assertion_balanced a s uv c u n : balanced (get_assertion_calls a s uv c u n).
Proof. destruct uv, u, n; reflexivity. Qed.
End responses.

(** ** An instance of the parameter *)

#[global] Program Instance toy_encoder : TinyCborEncoder := {|
  Encoder := list Z;
  encoder_init := [1];
  encode_call e c :=
    match count_call e c with Some e' => inl (e', [call_encoding c]) | None => inr ErrorOther end;
  encoder_at e stack := e = stack;
|}.
Next Obligation. done. Qed.
Next Obligation.
  intros e stack stack' c -> Hc. cbn beta. rewrite Hc. eexists _, _. split; [done|]. split; [done|].
  intros _. simpl. apply app_nil_r.
Qed.

(** ** The values of the responses (CTAP 2.0, sections 5 and 6; RFC 8152 for the key) *)

Definition getinfo_value : cbor :=
  CMap [(CInt 1, CArray [CText (lit "FIDO_2_0")]);
        (CInt 3, CBytes aaguid);
        (CInt 4, CMap [(CText (lit "rk"), CBool true); (CText (lit "up"), CBool true);
                       (CText (lit "uv"), CBool true)]);
        (CInt 9, CArray [CText (lit "usb")]);
        (CInt 10, CArray [CMap [(CText (lit "alg"), CInt (-7));
                                (CText (lit "type"), CText (lit "public-key"))]]);
        (CInt 14, CInt 1)].

(** A COSE key on P-256 for ES256. *)
Definition cose_value (x y : list Z) : cbor :=
  CMap [(CInt 1, CInt 2); (CInt 3, CInt (-7)); (CInt (-1), CInt 1);
        (CInt (-2), CBytes x); (CInt (-3), CBytes y)].

(** A packed self-attestation. *)
Definition attestation_value (auth_data signature : list Z) : cbor :=
  CMap [(CInt 1, CText (lit "packed")); (CInt 2, CBytes auth_data);
        (CInt 3, CMap [(CText (lit "alg"), CInt (-7)); (CText (lit "sig"), CBytes signature)])].

(** The user's entity; names only after verification. *)
Definition user_value (uv : bool) (c : StoredCredential) : cbor :=
  CMap ((CText (lit "id"), CBytes (c_userId c)) ::
    if uv then [(CText (lit "name"), CText (c_userName c));
                (CText (lit "displayName"), CText (c_userDisplayName c))] else []).

Definition assertion_value (auth_data signature : list Z) (uv : bool) (c : StoredCredential)
    (include_user : bool) (number_of_credentials : option Z) : cbor :=
  CMap ([(CInt 1, CMap [(CText (lit "id"), CBytes (c_id c));
                        (CText (lit "type"), CText (lit "public-key"))]);
         (CInt 2, CBytes auth_data); (CInt 3, CBytes signature)] ++
        (if include_user then [(CInt 4, user_value uv c)] else []) ++
        match number_of_credentials with Some n => [(CInt 5, CInt n)] | None => [] end).

(** The builder's result for a value: the status byte and the encoding, from which the value
    can be read, or the refusal of an encoding that is too large for a message. *)
Definition delivers (status : bool) (v : cbor) (r : res (list Z)) : Prop :=
  let bytes := (if status then [0] else []) ++ cbor_encode v in
  (len bytes ≤ CTAPHID_MAX_PAYLOAD_SIZE ∧ r = Ret bytes ∧ cbor_decode (cbor_encode v) = Some v) ∨
  (CTAPHID_MAX_PAYLOAD_SIZE < len bytes ∧ r = Throw (CborEncodingError resource_limit)).

Section delivery.
Context `{TinyCborEncoder}.

Lemma encode_cbor_delivers status calls v :
  balanced calls → Forall call_ok calls → concat (map call_encoding calls) = cbor_encode v →
  ints_ok v → delivers status v (encode_cbor status calls).
Proof.
  intros Hb Hok Hv Hi. rewrite encode_cbor_spec by done. unfold delivers. cbv zeta.
  rewrite (call_bytes_encoding _ _ _ _ encoder_at_init Hb Hok), Hv.
  destruct (_ <? _) eqn:E; reflect_bools; [by right; split|left; split; [lia|]].
  split; [done|]. apply cbor_decode_encode; [done|].
  rewrite length_app in E. unfold CTAPHID_MAX_PAYLOAD_SIZE in E. lia.
Qed.

(** The calls of the builders write these values. *)
Ltac encoding := cbn; rewrite ?app_nil_r, <- ?app_assoc; reflexivity.

Lemma getinfo_delivers : delivers true getinfo_value build_getinfo_response.
Proof.
  apply encode_cbor_delivers; [apply getinfo_balanced| |encoding|].
  - repeat constructor; unfold firmware_version; lia.
  - simpl. lia.
Qed.

Lemma cose_delivers x y : delivers false (cose_value x y) (encode_cbor false (cose_calls x y)).
Proof.
  apply encode_cbor_delivers; [apply cose_balanced| |encoding|].
  - repeat constructor; lia.
  - simpl. lia.
Qed.

Lemma make_credential_delivers a s :
  delivers true (attestation_value a s) (build_authenticatorMakeCredential_response a s).
Proof.
  apply encode_cbor_delivers; [apply make_credential_balanced| |encoding|].
  - repeat constructor; lia.
  - simpl. lia.
Qed.

Lemma get_assertion_delivers a s uv c u n :
  from_option (λ n, is_u64 n) True n →
  delivers true (assertion_value a s uv c u n) (build_authenticatorGetAssertion_response a s uv c u n).
Proof.
  intros Hn. apply encode_cbor_delivers; [apply get_assertion_balanced| | |].
  - destruct uv, u, n; repeat constructor; simpl in *; lia.
  - destruct n as [n|]; [|destruct uv, u; encoding].
    assert (∀ m, is_u64 m → cbor_int m = cbor_head 0 m) as Hint
      by (intros m Hm; unfold cbor_int; by rewrite (proj2 (Z.ltb_ge m 0)) by lia).
    destruct uv, u; cbn -[cbor_int cbor_head]; rewrite (Hint n) by done; encoding.
  - destruct uv, u, n; simpl in *; lia.
Qed.

(** A returned response carries the value. *)
Lemma delivers_ret status v bytes :
  delivers status v (Ret bytes) → bytes = (if status then [0] else []) ++ cbor_encode v.
Proof. intros [(_ & [= ->] & _)|[_ ?]]; done. Qed.
End delivery.

(** ** Properties *)

(** C36: A response is the CBOR item that the protocol describes.  Whatever the data: the
    builders of authenticatorGetInfo, authenticatorMakeCredential and
    authenticatorGetAssertion return the success status followed by an encoding from which an
    independent reader gets exactly the described map -- every key with its value, nothing
    else, nothing after it -- when that fits a CTAPHID message, and otherwise report that it
    does not; the information about the authenticator always fits.  A public key is encoded
    with both coordinates padded with zeros on the left to 32 bytes, always, unless a
    coordinate is longer, which is reported as an invalid structure. *)
Theorem responses_decode `{TinyCborEncoder} auth sig uv c user n x y :
  from_option (λ n, is_u64 n) True n →
  build_getinfo_response = Ret (0 :: cbor_encode getinfo_value) ∧
  cbor_decode (cbor_encode getinfo_value) = Some getinfo_value ∧
  delivers true (attestation_value auth sig) (build_authenticatorMakeCredential_response auth sig) ∧
  delivers true (assertion_value auth sig uv c user n)
    (build_authenticatorGetAssertion_response auth sig uv c user n) ∧
  let pad v := replicate (32 - length v) 0 ++ v in
  let key := cose_value (pad x) (pad y) in
  if (len x <=? 32) && (len y <=? 32)
  then build_cose_key x y = Ret (cbor_encode key) ∧ cbor_decode (cbor_encode key) = Some key
  else build_cose_key x y = Throw (CborEncodingError invalid_structure).
Proof.
  intros Hn. destruct getinfo_delivers as [(_ & -> & Hd)|[Hl _]]; [|by vm_compute in Hl].
  split_and!; [done|done|apply make_credential_delivers|by apply get_assertion_delivers|].
  cbv zeta. unfold build_cose_key, pad32. rewrite !Z.leb_antisym.
  destruct (32 <? len x) eqn:Ex; [done|]. destruct (32 <? len y) eqn:Ey; [done|]. reflect_bools.
  cbn [negb andb mbind res_bind].
  set (px := replicate (32 - length x) 0 ++ x). set (py := replicate (32 - length y) 0 ++ y).
  assert (length px = 32%nat ∧ length py = 32%nat) as [Hx Hy].
  { unfold px, py. rewrite !length_app, !length_replicate. lia. }
  destruct (cose_delivers px py) as [(_ & -> & Hk)|[Hl _]]; [done|].
  exfalso. cbn [cose_value cbor_encode map concat] in Hl. revert Hl.
  rewrite !length_app, Hx, Hy. by vm_compute.
Qed.

Lemma responses_decode_witness :
  let c := mkCred [5; 6] 1000 (lit "example.org") [7] (lit "a") (lit "A") (-7) 1 [] [] true 1 in
  delivers true (assertion_value [1; 2] [3] true c true (Some 2))
    (build_authenticatorGetAssertion_response [1; 2] [3] true c true (Some 2)).
Proof.
  apply (responses_decode [1; 2] [3] true
    (mkCred [5; 6] 1000 (lit "example.org") [7] (lit "a") (lit "A") (-7) 1 [] [] true 1)
    true (Some 2) [] []). simpl. lia.
Defined.
