(* ===== verification/Ceremony.v ===== *)
(** * CTAP ceremonies (src/src/registration/make_credential_response.cpp,
    src/src/authentication/, src/src/ctap_command_handler.cpp and the worker's entry point
    in src/src/device.cpp)

    Registration and authentication as the worker thread runs them: the requests, the
    user's consent, the credential store, the key provider, and the continuation state of
    authenticatorGetNextAssertion.

    The ceremony talks to the user through the interface [UserInteraction] and to the TPM
    through [CredentialKeyProvider]; both are the parameter [CeremonyEnv], with the clock,
    the stop token, the random generator, SHA-256 and the TPM key parser.  A trace records
    the calls of these interfaces that matter for consent, with their arguments and
    results: the user contexts read, the questions asked, and what the key provider was
    given to sign. *)
From Stdlib Require Import ZArith Lia.
From stdpp Require Import base list gmap strings relations.
From S2P Require Import Prelude Packet AgentRegistry InteractionRegistry.
From S2P Require Import CredentialStore CborRequests CborResponses.

Record CredentialKey := mkKey { key_privateBlob : list Z; key_publicBlob : list Z }.

Class CeremonyEnv := {
  Env : Type;
  (** [stop.stop_requested()]: another thread may request the stop at any time *)
  poll_stop : Env → bool * Env;
  (** [AssertionSequence::Clock::now()] *)
  clock_now : Env → Z * Env;
  (** class UserInteraction *)
  ui_current_context : ST Env UserContext;
  ui_request_presence : UserContext → UserInteractionRequest → ST Env UserInteractionResult;
  ui_request_verification : UserContext → UserInteractionRequest → ST Env UserInteractionResult;
  (** class CredentialKeyProvider *)
  provider_create : list Z → ST Env CredentialKey;
  provider_sign : list Z → list Z → list Z → list Z → ST Env (list Z);
  openssl_random_bytes : Z → ST Env (list Z);
  sha256 : list Z → res (list Z);
  sha256_length l d : sha256 l = Ret d → length d = 32%nat;
  extractPublic : list Z → res (list Z * list Z);
  (** the iteration order of the options *)
  option_order : Options → list (list Z * bool);
  option_order_perm m : option_order m ≡ₚ map_to_list m;
  (** [uint32_t] and [uint8_t] *)
  current_context_uid e u e' : ui_current_context e = (Ret u, e') → is_u32 (uc_uid u);
  random_bytes_ok n e b e' : openssl_random_bytes n e = (Ret b, e') → bytes_ok b ∧ len b = n;
  provider_create_ok id e k e' :
    provider_create id e = (Ret k, e') → bytes_ok (key_privateBlob k) ∧ bytes_ok (key_publicBlob k);
}.

(** ** The sequence of authenticatorGetNextAssertion (class AssertionSequence) *)

Record AssertionSequence := mkSeq {
  sq_credentials : list StoredCredential;
  sq_index : nat;
  sq_originCid : Z;
  sq_ownerContext : option UserContextBinding;
  sq_lastUse : Z;
}.

Definition SEQUENCE_TIMEOUT : Z := seconds 30.

Definition seq_clear : AssertionSequence := mkSeq [] 0 0 None 0.

(** What [begin] leaves after its [clear()], or the exception it throws. *)
Definition seq_begin (origin_cid : Z) (user_context : UserContext)
    (remaining_credentials : list StoredCredential) (now : Z) : res AssertionSequence :=
  if (origin_cid =? 0) || (len remaining_credentials =? 0) then Ret seq_clear else
  throw_if existsb (λ credential, negb (c_ownerUid credential =? uc_uid user_context))
             remaining_credentials as invalid_argument ;;
  Ret (mkSeq remaining_credentials 0 origin_cid (Some (binding user_context)) now).

Definition seq_next (cid : Z) (user_context : UserContext) (now : Z) (s : AssertionSequence)
    : option StoredCredential * AssertionSequence :=
  if negb (sq_originCid s =? 0) &&
     match sq_ownerContext s with
     | None => true
     | Some b => negb (bool_decide (binding user_context = b))
     end
  then (None, seq_clear) else
  if (sq_originCid s =? 0) || negb (cid =? sq_originCid s) then (None, s) else
  if (SEQUENCE_TIMEOUT <? now - sq_lastUse s) ||
     (length (sq_credentials s) <=? sq_index s)%nat
  then (None, seq_clear) else
  match sq_credentials s !! sq_index s with
  | None => (None, s)
  | Some credential =>
      (Some credential,
       if (S (sq_index s) =? length (sq_credentials s))%nat then seq_clear
       else mkSeq (sq_credentials s) (S (sq_index s)) (sq_originCid s) (sq_ownerContext s) now)
  end.

(** ** Helpers of authenticate.hpp *)

Inductive AssertionInteraction := InteractNone | InteractPresence | InteractVerification.

Definition assertion_interaction (user_presence_requested user_verification_requested : bool)
    : AssertionInteraction :=
  if user_verification_requested then InteractVerification else
  if user_presence_requested then InteractPresence else InteractNone.

Definition assertion_authenticator_flags (user_present user_verified : bool) : Z :=
  u8 (Z.lor (if user_present then 1 else 0) (if user_verified then 4 else 0)).

Definition has_assertion_continuations (allow_list_empty : bool) (credential_count : Z) : bool :=
  allow_list_empty && (1 <? credential_count).

(** ** State of the worker *)

(** The calls of [UserInteraction] and of [CredentialKeyProvider::sign], each with its
    arguments and its result. *)
Inductive ceremony_event :=
  | ReadContext (r : res UserContext)
  | AskedPresence (user : UserContext) (request : UserInteractionRequest) (r : res UserInteractionResult)
  | AskedVerification (user : UserContext) (request : UserInteractionRequest) (r : res UserInteractionResult)
  | Signed (credential_id digest public_blob private_blob : list Z) (r : res (list Z)).

(** The handler's [getAssertion_]: the parsed request, the outcome of the interaction and
    the sequence. *)
Record GetAssertionState := mkGetState {
  gs_request : CTAPGetAssertionRequest;
  gs_userPresent : bool;
  gs_userVerified : bool;
  gs_sequence : AssertionSequence;
}.

Definition get_state_clear : GetAssertionState := mkGetState get_clear false false seq_clear.

Section ceremony.
Context `{CeremonyEnv} `{StoreEnv} `{TinyCbor} `{TinyCborEncoder}.

Record Worker := mkWorker {
  wk_env : Env;
  wk_store : World;
  wk_get : GetAssertionState;
  wk_trace : list ceremony_event;
}.

(** Calls into the environment and the store. *)
Definition env_call {A} (m : ST Env A) : ST Worker A := λ w,
  let '(r, e) := m (wk_env w) in (r, mkWorker e (wk_store w) (wk_get w) (wk_trace w)).
Definition env_read {A} (m : Env → A * Env) : ST Worker A := λ w,
  let '(a, e) := m (wk_env w) in (Ret a, mkWorker e (wk_store w) (wk_get w) (wk_trace w)).
Definition store_call {A} (m : ST World A) : ST Worker A := λ w,
  let '(r, s) := m (wk_store w) in (r, mkWorker (wk_env w) s (wk_get w) (wk_trace w)).
Definition record_event (e : ceremony_event) : ST Worker () :=
  st_modify (λ w, mkWorker (wk_env w) (wk_store w) (wk_get w) (wk_trace w ++ [e])).
Definition get_request : ST Worker GetAssertionState := λ w, (Ret (wk_get w), w).
Definition set_request (g : GetAssertionState) : ST Worker () :=
  st_modify (λ w, mkWorker (wk_env w) (wk_store w) g (wk_trace w)).

(** [CTAPCommandHandler::reset] *)
Definition reset : ST Worker () := set_request get_state_clear.

Definition cancellation_point : ST Worker () :=
  let! stop := env_read poll_stop in
  if stop then st_throw OperationCancelled else st_ret ().

(** The calls that the trace records. *)
Definition read_context : ST Worker UserContext := λ w,
  let '(r, w) := env_call ui_current_context w in (r, snd (record_event (ReadContext r) w)).
Definition sign_digest (credential_id digest public_blob private_blob : list Z)
    : ST Worker (list Z) := λ w,
  let '(r, w) := env_call (provider_sign credential_id digest public_blob private_blob) w in
  (r, snd (record_event (Signed credential_id digest public_blob private_blob r) w)).
Definition request_presence (user : UserContext) (request : UserInteractionRequest)
    : ST Worker UserInteractionResult := λ w,
  let '(r, w) := env_call (ui_request_presence user request) w in
  (r, snd (record_event (AskedPresence user request r) w)).
Definition request_verification (user : UserContext) (request : UserInteractionRequest)
    : ST Worker UserInteractionResult := λ w,
  let '(r, w) := env_call (ui_request_verification user request) w in
  (r, snd (record_event (AskedVerification user request r) w)).

(** [options.at(name)] *)
Definition option_at (options : Options) (name : list Z) : res bool :=
  match options !! name with Some b => Ret b | None => Throw out_of_range end.

(** The four bytes of the signature counter in the authenticator data. *)
Definition count_bytes (sc : Z) : list Z :=
  [u8 (Z.land (Z.shiftr sc 24) 255); u8 (Z.land (Z.shiftr sc 16) 255);
   u8 (Z.land (Z.shiftr sc 8) 255); u8 (Z.land (Z.shiftr sc 0) 255)].

(** ** authenticatorMakeCredential *)

(** [rp.id] and the operation, as the user is shown them. *)
Definition make_question (operation : UserInteractionOperation)
    (rq : CTAPMakeCredentialRequest) : UserInteractionRequest :=
  mkUIRequest operation (rp_id (mc_rp rq)) 0.

(** Every answer but [approved] ends the ceremony with an error byte. *)
Definition denied_unless_approved (r : UserInteractionResult) : option (list Z) :=
  match r with
  | ui_approved => None
  | _ => Some [CTAP2_ERR_OPERATION_DENIED]
  end.

(** The loop over the exclude list: the early return, if any. *)
Fixpoint exclude_loop (rq : CTAPMakeCredentialRequest) (user_context : UserContext)
    (excludeList : list PublicKeyCredentialDescriptor) : ST Worker (option (list Z)) :=
  match excludeList with
  | [] => st_ret None
  | d :: excludeList =>
      if negb (bool_decide (d_type d = lit "public-key"))
      then exclude_loop rq user_context excludeList else
      let! excluded := store_call (has_for_rp (d_id d) (rp_id (mc_rp rq)) (uc_uid user_context)) in
      if negb excluded then exclude_loop rq user_context excludeList else
      let! _ := cancellation_point in
      let! presence := request_presence user_context (make_question check_excluded_credential rq) in
      let! _ := cancellation_point in
      st_ret (Some match denied_unless_approved presence with
                   | Some e => e
                   | None => [CTAP2_ERR_CREDENTIAL_EXCLUDED]
                   end)
  end.

Definition es256 (p : PubKeyCredParam) : bool :=
  (pk_alg p =? -7) && bool_decide (pk_type p = lit "public-key").

(** [selected_alg], 0 if none is supported. *)
Definition select_algorithm (params : list PubKeyCredParam) : Z :=
  match filter (λ p, es256 p = true) params with p :: _ => pk_alg p | [] => 0 end.

(** The loop over the options: only "uv" asks anything, and it ends the loop. *)
Fixpoint consent_loop (rq : CTAPMakeCredentialRequest) (user_context : UserContext)
    (options : list (list Z * bool)) : ST Worker (option (list Z)) :=
  match options with
  | [] => st_ret None
  | (name, option) :: options =>
      if negb (bool_decide (name = lit "uv")) then consent_loop rq user_context options else
      if option then
        let! verification :=
          request_verification user_context (make_question make_credential rq) in
        let! _ := cancellation_point in
        st_ret (denied_unless_approved verification)
      else
        let! _ := cancellation_point in
        let! presence := request_presence user_context (make_question make_credential rq) in
        let! _ := cancellation_point in
        st_ret (denied_unless_approved presence)
  end.

Definition make_flags (uv : bool) : Z :=
  let flags := Z.lor 0 1 in
  let flags := Z.lor flags (Z.shiftl (Z.b2z uv) 2) in
  u8 (Z.lor flags (Z.shiftl 1 6)).

(** From the authenticator data to the stored credential. *)
Definition create_credential (rq : CTAPMakeCredentialRequest) (user_context : UserContext)
    (selected_alg : Z) : ST Worker (list Z) :=
  let! rphash := st_lift (sha256 (rp_id (mc_rp rq))) in
  let! uv := st_lift (option_at (mc_options rq) (lit "uv")) in
  let flags := make_flags uv in
  let! credId := env_call (openssl_random_bytes 32) in
  let credIdLen := u16 (len credId) in
  let authData := rphash ++ [flags] ++ count_bytes 0 ++ take 16 aaguid ++
    [u8 (Z.shiftr credIdLen 8); u8 (Z.shiftr credIdLen 0)] ++ credId in
  let! _ := cancellation_point in
  let! key := env_call (provider_create credId) in
  let! _ := cancellation_point in
  let! rk := st_lift (option_at (mc_options rq) (lit "rk")) in
  let credential := mkCred credId 0 (rp_id (mc_rp rq)) (ue_id (mc_user rq)) (ue_name (mc_user rq))
    (ue_displayName (mc_user rq)) selected_alg 0 (key_privateBlob key) (key_publicBlob key) rk 0 in
  let! coordinates := st_lift (extractPublic (key_publicBlob key)) in
  let! cose_map := st_lift (build_cose_key (fst coordinates) (snd coordinates)) in
  let authData := authData ++ cose_map in
  let! signDataHash := st_lift (sha256 (authData ++ mc_clientDataHash rq)) in
  let! signData := sign_digest credId signDataHash (key_publicBlob key) (key_privateBlob key) in
  let! payload := st_lift (build_authenticatorMakeCredential_response authData signData) in
  let! _ := cancellation_point in
  if negb (bool_decide (rp_id (mc_rp rq) = lit "make.me.blink")) &&
     negb (bool_decide (rp_id (mc_rp rq) = lit ".dummy"))
  then
    let! _ := cancellation_point in
    let! _ := store_call (put credential (uc_uid user_context)) in
    st_ret payload
  else st_ret payload.

Definition make_build_response (rq : CTAPMakeCredentialRequest) : ST Worker (list Z) :=
  let! _ := cancellation_point in
  let! user_context := read_context in
  let! excluded := exclude_loop rq user_context (mc_excludeList rq) in
  match excluded with
  | Some payload => st_ret payload
  | None =>
      let selected_alg := select_algorithm (mc_params rq) in
      if selected_alg =? 0 then st_ret [CTAP2_ERR_UNSUPPORTED_ALGORITHM] else
      match make_validation_error rq with
      | Some error => st_ret [error]
      | None =>
          let! refused := consent_loop rq user_context (option_order (mc_options rq)) in
          match refused with
          | Some payload => st_ret payload
          | None => create_credential rq user_context selected_alg
          end
      end
  end.

(** ** authenticatorGetAssertion *)

Definition generate_single_credential_payload (credential : StoredCredential)
    (user_context : UserContext) (number_of_credentials : option Z) : ST Worker (list Z) :=
  let credential := with_signCount (u32 (c_signCount credential + 1)) credential in
  let! g := get_request in
  let rq := gs_request g in
  let! rphash := st_lift (sha256 (ga_rpId rq)) in
  let flags := assertion_authenticator_flags (gs_userPresent g) (gs_userVerified g) in
  let sc := c_signCount credential in
  let authData := rphash ++ [flags] ++ count_bytes sc in
  let! verification_data_hash := st_lift (sha256 (authData ++ ga_clientDataHash rq)) in
  let! signature := sign_digest (c_id credential) verification_data_hash
    (c_public_blob credential) (c_private_blob credential) in
  let include_user := negb (len (ga_allowList rq) =? 1) in
  let! payload := st_lift (build_authenticatorGetAssertion_response authData signature
    (gs_userVerified g) credential include_user number_of_credentials) in
  let! _ := cancellation_point in
  let! _ := store_call (incrementSigCount (c_id credential) (uc_uid user_context)) in
  st_ret payload.

Definition get_question (rpId : list Z) : UserInteractionRequest := mkUIRequest get_assertion rpId 0.

(** [userPresent = up; userVerified = uv;] *)
Definition set_consent (up uv : bool) : ST Worker () :=
  let! g := get_request in
  set_request (mkGetState (gs_request g) up uv (gs_sequence g)).

(** The [switch] on the interaction: the early return, if any. *)
Definition assertion_consent (user_context : UserContext) (rpId : list Z)
    (request_up request_uv : bool) : ST Worker (option (list Z)) :=
  match assertion_interaction request_up request_uv with
  | InteractVerification =>
      let! verification := request_verification user_context (get_question rpId) in
      let! _ := cancellation_point in
      match denied_unless_approved verification with
      | Some payload => st_ret (Some payload)
      | None =>
          let! _ := set_consent request_up true in
          st_ret None
      end
  | InteractPresence =>
      let! _ := cancellation_point in
      let! presence := request_presence user_context (get_question rpId) in
      let! _ := cancellation_point in
      match denied_unless_approved presence with
      | Some payload => st_ret (Some payload)
      | None =>
          let! _ := set_consent true false in
          st_ret None
      end
  | InteractNone => st_ret None
  end.

(** [sequence.begin(...)] *)
Definition begin_sequence (cid : Z) (user_context : UserContext) (rest : list StoredCredential)
    : ST Worker () :=
  let! now := env_read clock_now in
  let! g := get_request in
  let with_sequence := mkGetState (gs_request g) (gs_userPresent g) (gs_userVerified g) in
  let! _ := set_request (with_sequence seq_clear) in
  let! sequence := st_lift (seq_begin cid user_context rest now) in
  set_request (with_sequence sequence).

Definition get_build_response (cid : Z) : ST Worker (list Z) :=
  let! _ := cancellation_point in
  let! user_context := read_context in
  let! g := get_request in
  let rq := gs_request g in
  let! available_credentials :=
    store_call (find_for_assertion (ga_rpId rq) (ga_allowList rq) (uc_uid user_context)) in
  let number_of_credentials := u32 (len available_credentials) in
  match get_validation_error rq with
  | Some error => st_ret [error]
  | None =>
      let! _ := set_consent false false in
      let! request_up := st_lift (option_at (ga_options rq) (lit "up")) in
      let! request_uv := st_lift (option_at (ga_options rq) (lit "uv")) in
      let has_continuations :=
        has_assertion_continuations (len (ga_allowList rq) =? 0) (len available_credentials) in
      let! refused := assertion_consent user_context (ga_rpId rq) request_up request_uv in
      match refused with
      | Some payload => st_ret payload
      | None =>
          match available_credentials with
          | credential :: rest =>
              if 0 <? number_of_credentials then
                let! _ := cancellation_point in
                let! payload := generate_single_credential_payload credential user_context
                  (if has_continuations then Some number_of_credentials else None) in
                if has_continuations then
                  let! _ := begin_sequence cid user_context rest in
                  st_ret payload
                else st_ret payload
              else st_ret [CTAP2_ERR_NO_CREDENTIALS]
          | [] => st_ret [CTAP2_ERR_NO_CREDENTIALS]
          end
      end
  end.

Definition get_build_response_next (cid : Z) : ST Worker (list Z) :=
  let! user_context := read_context in
  let! now := env_read clock_now in
  let! g := get_request in
  let '(cred_maybe, sequence) := seq_next cid user_context now (gs_sequence g) in
  let! _ := set_request (mkGetState (gs_request g) (gs_userPresent g) (gs_userVerified g) sequence) in
  match cred_maybe with
  | None => st_ret [CTAP2_ERR_NOT_ALLOWED]
  | Some cred =>
      let! _ := cancellation_point in
      generate_single_credential_payload cred user_context None
  end.

(** ** The command handler (class CTAPCommandHandler) *)

Definition encoding_error_to_ctap (failure : CborEncodingFailure) : CTAPError :=
  match failure with
  | resource_limit => CTAP2_ERR_REQUEST_TOO_LARGE
  | invalid_structure => CTAP1_ERR_OTHER
  end.

(** The [catch] clauses around a response builder; [inl] is the early return. *)
Definition catch_ceremony (cid : Z) (cleanup : ST Worker ()) (m : ST Worker (list Z))
    : ST Worker (CTAPPacket + list Z) :=
  st_catch (let! payload := m in st_ret (inr payload)) (λ e,
    let! _ := cleanup in
    match e with
    | OperationCancelled | UserActionTimedOut => st_throw e
    | CborEncodingError failure => st_ret (inl (make_cbor_error cid (encoding_error_to_ctap failure)))
    | _ => st_ret (inl (make_cbor_error cid CTAP1_ERR_OTHER))
    end).

(** The end of [handle]. *)
Definition finish_response (cid : Z) (payload : list Z) : ST Worker CTAPPacket :=
  if CTAPHID_MAX_PAYLOAD_SIZE <? len payload then
    let! _ := reset in
    st_ret (make_cbor_error cid CTAP2_ERR_REQUEST_TOO_LARGE)
  else st_ret (mkCTAPPacket cid (Z.lor CTAPHID_CBOR MASK) (u16 (len payload)) payload).

Definition handle_getinfo (request : UHIDReport) : ST Worker CTAPPacket :=
  if negb (len (rep_payload request) =? 1)
  then st_ret (make_cbor_error (rep_cid request) CTAP1_ERR_INVALID_COMMAND)
  else match build_getinfo_response with
       | Ret payload => finish_response (rep_cid request) payload
       | Throw (CborEncodingError failure) =>
           st_ret (make_cbor_error (rep_cid request) (encoding_error_to_ctap failure))
       | Throw e => st_throw e
       end.

Definition handle_make_credential (request : UHIDReport) : ST Worker CTAPPacket :=
  let cid := rep_cid request in
  let! parsed := st_lift (make_parseRequest (drop 1 (rep_payload request))) in
  let '(accepted, rq) := parsed in
  if negb accepted then st_ret (make_cbor_error cid CTAP2_ERR_INVALID_CBOR) else
  let! outcome := catch_ceremony cid (st_ret ()) (make_build_response rq) in
  match outcome with
  | inl packet => st_ret packet
  | inr payload =>
      if len payload =? 1 then st_ret (make_cbor_error cid (byte_at payload 0))
      else finish_response cid payload
  end.

(** The two assertion commands share the end of their branch. *)
Definition finish_assertion (cid : Z) (outcome : CTAPPacket + list Z) : ST Worker CTAPPacket :=
  match outcome with
  | inl packet => st_ret packet
  | inr payload =>
      if len payload =? 1 then
        let! _ := reset in st_ret (make_cbor_error cid (byte_at payload 0))
      else finish_response cid payload
  end.

Definition handle_get_assertion (request : UHIDReport) : ST Worker CTAPPacket :=
  let cid := rep_cid request in
  let! _ := reset in
  let! parsed := st_lift (get_parseRequest (drop 1 (rep_payload request))) in
  let '(accepted, rq) := parsed in
  let! _ := set_request (mkGetState rq false false seq_clear) in
  if negb accepted then
    let! _ := reset in
    st_ret (make_cbor_error cid CTAP2_ERR_INVALID_CBOR)
  else
    let! outcome := catch_ceremony cid reset (get_build_response cid) in
    finish_assertion cid outcome.

Definition handle_get_next_assertion (request : UHIDReport) : ST Worker CTAPPacket :=
  let cid := rep_cid request in
  let! g := get_request in
  let origin := sq_originCid (gs_sequence g) in
  if (origin =? 0) || negb (origin =? cid)
  then st_ret (make_cbor_error cid CTAP2_ERR_NOT_ALLOWED) else
  if negb (len (rep_payload request) =? 1) then
    let! _ := reset in
    st_ret (make_cbor_error cid CTAP1_ERR_INVALID_COMMAND)
  else
    let! outcome := catch_ceremony cid reset (get_build_response_next cid) in
    finish_assertion cid outcome.

Definition handle (request : UHIDReport) : ST Worker CTAPPacket :=
  let command := byte_at (rep_payload request) 0 in
  let! _ := (if negb (command =? 2) && negb (command =? 8) then reset else st_ret ()) in
  if command =? 4 then handle_getinfo request else
  if command =? 1 then handle_make_credential request else
  if command =? 2 then handle_get_assertion request else
  if command =? 8 then handle_get_next_assertion request else
  st_ret (make_cbor_error (rep_cid request) CTAP1_ERR_INVALID_COMMAND).

(** [execute_ctap_request] (device.cpp): whatever is thrown, the continuation is dropped. *)
Definition execute_ctap_request (report : UHIDReport) : ST Worker CTAPPacket :=
  st_catch (let! _ := cancellation_point in handle report)
    (λ e, let! _ := reset in st_throw e).

(** The worker thread's body (event.cpp): the packet it reports. *)
Definition failure_packet (cid : Z) (e : exn) : CTAPPacket :=
  match e with
  | OperationCancelled => make_cbor_error cid CTAP2_ERR_KEEPALIVE_CANCEL
  | UserActionTimedOut => make_cbor_error cid CTAP2_ERR_OPERATION_DENIED
  | _ => make_cbor_error cid CTAP1_ERR_OTHER
  end.

Definition worker_task (report : UHIDReport) : ST Worker CTAPPacket :=
  st_catch (execute_ctap_request report) (λ e, st_ret (failure_packet (rep_cid report) e)).
End ceremony.
