(* ===== verification/CeremonyProofs.v ===== *)
(** * Consent, counters and continuations (proofs about Ceremony.v)

    A weakest-precondition calculus for the worker's code, and the properties of the
    ceremonies: nothing is signed as approved that the user did not approve, a returned
    signature counter is fresh, and every request is answered. *)
From Stdlib Require Import ZArith Lia.
From stdpp Require Import base list gmap strings relations sorting.
From S2P Require Import Prelude Hex Packet AgentRegistry InteractionRegistry CredentialStore.
From S2P Require Import CredentialStoreProofs CredentialQueries CborRequests Cbor CborResponses Ceremony.

Section proofs.
Context `{CeremonyEnv} `{StoreEnv} `{TinyCbor} `{TinyCborEncoder}.

(** ** Weakest preconditions of the worker's primitive operations *)

(** The worker in another environment. *)
Definition at_env (e : Env) (w : Worker) : Worker :=
  mkWorker e (wk_store w) (wk_get w) (wk_trace w).
Definition at_store (s : World) (w : Worker) : Worker :=
  mkWorker (wk_env w) s (wk_get w) (wk_trace w).
Definition at_get (g : GetAssertionState) (w : Worker) : Worker :=
  mkWorker (wk_env w) (wk_store w) g (wk_trace w).
Definition at_event (e : ceremony_event) (w : Worker) : Worker :=
  mkWorker (wk_env w) (wk_store w) (wk_get w) (wk_trace w ++ [e]).

Lemma wp_env_call {A} (m : ST Env A) Q w :
  (∀ r e, m (wk_env w) = (r, e) → Q r (at_env e w)) → wp (env_call m) Q w.
Proof. intros HQ. unfold wp, env_call. destruct (m (wk_env w)) as [r e]. by apply HQ. Qed.
Lemma wp_env_read {A} (m : Env → A * Env) Q w :
  (∀ a e, Q (Ret a) (at_env e w)) → wp (env_read m) Q w.
Proof. intros HQ. unfold wp, env_read. destruct (m (wk_env w)) as [a e]. apply HQ. Qed.
Lemma wp_store_call {A} (m : ST World A) Q w :
  (∀ r s, m (wk_store w) = (r, s) → Q r (at_store s w)) → wp (store_call m) Q w.
Proof. intros HQ. unfold wp, store_call. destruct (m (wk_store w)) as [r s]. by apply HQ. Qed.
Lemma wp_get_request Q w : Q (Ret (wk_get w)) w → wp get_request Q w.
Proof. done. Qed.
Lemma wp_set_request g Q w : Q (Ret ()) (at_get g w) → wp (set_request g) Q w.
Proof. done. Qed.
Lemma wp_reset Q w : Q (Ret ()) (at_get get_state_clear w) → wp reset Q w.
Proof. done. Qed.
Lemma wp_record ev Q w : Q (Ret ()) (at_event ev w) → wp (record_event ev) Q w.
Proof. done. Qed.
Lemma wp_cancellation_point (Q : res () → Worker → Prop) w :
  (∀ e, Q (Ret ()) (at_env e w)) → (∀ e, Q (Throw OperationCancelled) (at_env e w)) →
  wp cancellation_point Q w.
Proof.
  intros Hgo Hstop. apply wp_bind, wp_env_read. intros [] e; [by apply wp_throw|by apply wp_ret].
Qed.
Lemma wp_request_presence user rq Q w :
  (∀ r e, Q r (at_event (AskedPresence user rq r) (at_env e w))) →
  wp (request_presence user rq) Q w.
Proof.
  intros HQ. unfold wp, request_presence, env_call.
  destruct (ui_request_presence user rq (wk_env w)) as [r e]. apply HQ.
Qed.
Lemma wp_request_verification user rq Q w :
  (∀ r e, Q r (at_event (AskedVerification user rq r) (at_env e w))) →
  wp (request_verification user rq) Q w.
Proof.
  intros HQ. unfold wp, request_verification, env_call.
  destruct (ui_request_verification user rq (wk_env w)) as [r e]. apply HQ.
Qed.
Lemma wp_read_context Q w :
  (∀ r e, ui_current_context (wk_env w) = (r, e) → Q r (at_event (ReadContext r) (at_env e w))) →
  wp read_context Q w.
Proof.
  intros HQ. unfold wp, read_context, env_call.
  destruct (ui_current_context (wk_env w)) as [r e] eqn:E. by apply HQ.
Qed.
Lemma wp_sign_digest id digest pub priv Q w :
  (∀ r e, Q r (at_event (Signed id digest pub priv r) (at_env e w))) →
  wp (sign_digest id digest pub priv) Q w.
Proof.
  intros HQ. unfold wp, sign_digest, env_call.
  destruct (provider_sign id digest pub priv (wk_env w)) as [r e]. apply HQ.
Qed.
Lemma wp_set_consent up uv Q w :
  Q (Ret ()) (at_get (mkGetState (gs_request (wk_get w)) up uv (gs_sequence (wk_get w))) w) →
  wp (set_consent up uv) Q w.
Proof. done. Qed.
End proofs.

(** One step of symbolic execution. *)
Ltac wp_step :=
  lazymatch goal with
  | |- wp (env_call _) _ _ => apply wp_env_call
  | |- wp (env_read _) _ _ => apply wp_env_read
  | |- wp (store_call _) _ _ => apply wp_store_call
  | |- wp get_request _ _ => apply wp_get_request
  | |- wp (set_request _) _ _ => apply wp_set_request
  | |- wp reset _ _ => apply wp_reset
  | |- wp (record_event _) _ _ => apply wp_record
  | |- wp read_context _ _ => apply wp_read_context
  | |- wp (sign_digest _ _ _ _) _ _ => apply wp_sign_digest
  | |- wp cancellation_point _ _ => apply wp_cancellation_point; intros
  | |- wp (request_presence _ _) _ _ => apply wp_request_presence; intros
  | |- wp (set_consent _ _) _ _ => apply wp_set_consent
  | |- wp (request_verification _ _) _ _ => apply wp_request_verification; intros
  | |- _ => wp_basic
  end.

(** ** The continuation sequence *)

(** A call that is answered satisfies all the conditions of authenticatorGetNextAssertion. *)
Lemma seq_next_some cid user now s c s' :
  seq_next cid user now s = (Some c, s') →
  cid ≠ 0 ∧ sq_originCid s = cid ∧ sq_ownerContext s = Some (binding user) ∧
  now - sq_lastUse s ≤ SEQUENCE_TIMEOUT ∧ sq_credentials s !! sq_index s = Some c ∧
  (s' = seq_clear ∨
   (S (sq_index s) < length (sq_credentials s))%nat ∧
   s' = mkSeq (sq_credentials s) (S (sq_index s)) cid (sq_ownerContext s) now).
Proof.
  unfold seq_next.
  destruct (negb (sq_originCid s =? 0) && _) eqn:E1; [done|].
  destruct ((sq_originCid s =? 0) || negb (cid =? sq_originCid s)) eqn:E2; [done|].
  destruct ((SEQUENCE_TIMEOUT <? _) || _) eqn:E3; [done|]. apply orb_false_iff in E3 as [E3 E4].
  destruct (sq_credentials s !! sq_index s) as [c'|] eqn:El; [|done].
  destruct (S (sq_index s) =? length (sq_credentials s))%nat eqn:E5; intros [= -> <-];
    apply orb_false_iff in E2 as [E2 E2']; apply negb_false_iff in E2'; apply Z.eqb_eq in E2';
    apply Z.eqb_neq in E2; rewrite (proj2 (Z.eqb_neq _ _) E2) in E1; cbn [negb andb] in E1;
    apply Z.ltb_ge in E3; apply Nat.leb_gt in E4; apply Nat.eqb_eq in E5 || apply Nat.eqb_neq in E5;
    assert (sq_ownerContext s = Some (binding user)) as Ho
      by (destruct (sq_ownerContext s); [|done];
          apply negb_false_iff, bool_decide_eq_true in E1; congruence).
  - split_and!; try done; try congruence. by left.
  - split_and!; try done; try congruence. right. split; [lia|]. by rewrite E2'.
Qed.

(** Without an answer the sequence stays as it is, or is dropped. *)
Lemma seq_next_none cid user now s s' :
  seq_next cid user now s = (None, s') → s' = seq_clear ∨ s' = s.
Proof.
  unfold seq_next. destruct (negb (sq_originCid s =? 0) && _); [intros [= <-]; by left|].
  destruct ((sq_originCid s =? 0) || _); [intros [= <-]; by right|].
  destruct ((SEQUENCE_TIMEOUT <? _) || _); [intros [= <-]; by left|].
  destruct (_ !! _); [done|]. intros [= <-]. by right.
Qed.

(** ** Authenticator data

    The fields that a relying party reads from it (WebAuthn, section 6.1): the hash of the
    relying party's identifier, the flags and the signature counter. *)

Definition auth_rp_hash (message : list Z) : list Z := take 32 message.
Definition auth_flags (message : list Z) : Z := byte_at message 32.
Definition auth_counter (message : list Z) : Z := be_value (take 4 (drop 33 message)).

Definition FLAG_UP : Z := 0.
Definition FLAG_UV : Z := 2.
Definition FLAG_AT : Z := 6.

Lemma count_bytes_value sc : is_u32 sc → be_value (count_bytes sc) = sc.
Proof.
  intros Hs. unfold count_bytes. rewrite !u8_shiftr_land by lia. unfold be_value. cbn [foldl].
  Z.to_euclidean_division_equations. lia.
Qed.

Lemma auth_data_fields rphash flags sc rest :
  length rphash = 32%nat → is_u32 sc →
  let message := rphash ++ [flags] ++ count_bytes sc ++ rest in
  auth_rp_hash message = rphash ∧ auth_flags message = flags ∧ auth_counter message = sc ∧
  (37 ≤ length message)%nat.
Proof.
  intros Hl Hs. cbv zeta. unfold auth_rp_hash, auth_flags, auth_counter, byte_at. split_and!.
  - by rewrite <- Hl, take_app_length.
  - by rewrite <- Hl, lookup_app_r, Nat.sub_diag by done.
  - replace 33%nat with (length rphash + 1)%nat by lia. rewrite <- drop_drop, drop_app_length.
    by apply count_bytes_value.
  - rewrite !length_app, Hl. simpl. lia.
Qed.

(** ** Consent *)

Definition context_read (e : ceremony_event) : option (res UserContext) :=
  match e with ReadContext r => Some r | _ => None end.

(** The answer of the latest [current_context]. *)
Definition last_context (t : list ceremony_event) : option (res UserContext) :=
  last (omap context_read t).

Lemma last_context_read t r : last_context (t ++ [ReadContext r]) = Some r.
Proof. unfold last_context. rewrite omap_app. by apply last_snoc. Qed.
Lemma last_context_other t e : context_read e = None → last_context (t ++ [e]) = last_context t.
Proof. intros E. unfold last_context. rewrite omap_app. simpl. by rewrite E, app_nil_r. Qed.

(** The event approves the operation for this user and relying party; [verified] asks for
    an approved verification. *)
Definition approved (operation : UserInteractionOperation) (b : UserContextBinding)
    (rp : list Z) (verified : bool) (e : ceremony_event) : Prop :=
  match e with
  | AskedPresence u rq (Ret ui_approved) =>
      verified = false ∧ binding u = b ∧ rq = mkUIRequest operation rp 0
  | AskedVerification u rq (Ret ui_approved) =>
      binding u = b ∧ rq = mkUIRequest operation rp 0
  | _ => False
  end.

(** The user-present and user-verified bits of the flags are backed by events of [t]. *)
Definition backed (t : list ceremony_event) operation b rp (up uv : bool) : Prop :=
  (up = true → ∃ e, e ∈ t ∧ approved operation b rp false e) ∧
  (uv = true → ∃ e, e ∈ t ∧ approved operation b rp true e).

(** The digest is that of a message whose authenticator data claims no more than [t] backs:
    for the relying party whose hash it carries and the user whose context was read last. *)
Definition claims_backed `{CeremonyEnv} (t : list ceremony_event) (digest : list Z) : Prop :=
  ∃ user rp message,
    last_context t = Some (Ret user) ∧
    sha256 message = Ret digest ∧ (37 ≤ length message)%nat ∧
    sha256 rp = Ret (auth_rp_hash message) ∧
    let flags := auth_flags message in
    let operation := if Z.testbit flags FLAG_AT then make_credential else get_assertion in
    (operation = make_credential → Z.testbit flags FLAG_UP = true) ∧
    backed t operation (binding user) rp (Z.testbit flags FLAG_UP) (Z.testbit flags FLAG_UV).

Definition justified `{CeremonyEnv} (t : list ceremony_event) (e : ceremony_event) : Prop :=
  match e with
  | Signed _ digest _ _ _ => claims_backed t digest
  | _ => True
  end.

(** Everything that was signed is justified by what came before it. *)
Definition consented `{CeremonyEnv} (t : list ceremony_event) : Prop :=
  ∀ t1 e t2, t = t1 ++ e :: t2 → justified t1 e.

Lemma consented_snoc `{CeremonyEnv} t e : consented t → justified t e → consented (t ++ [e]).
Proof.
  intros Ht He t1 e' t2 E. destruct t2 as [|e2 t2] using rev_ind.
  - apply app_inj_tail in E as [-> ->]. done.
  - rewrite app_comm_cons, app_assoc in E. apply app_inj_tail in E as [-> _]. by apply (Ht _ _ t2).
Qed.

Lemma backed_app t l operation b rp up uv :
  backed t operation b rp up uv → backed (t ++ l) operation b rp up uv.
Proof.
  intros [Hp Hv]. split; [intros E; destruct (Hp E) as (e & ? & ?)|intros E; destruct (Hv E) as (e & ? & ?)];
    exists e; rewrite elem_of_app; auto.
Qed.

(** An approved verification backs both bits. *)
Lemma approved_backed t operation b rp verified e :
  e ∈ t → approved operation b rp verified e → backed t operation b rp true verified.
Proof.
  intros He Ha. split; [|by intros ->; eauto]. intros _. exists e. split; [done|].
  destruct e as [r|u rq [[]|]|u rq [[]|]|]; simpl in *; try done; intuition.
Qed.

Section consent.
Context `{CE : CeremonyEnv} `{SE : StoreEnv} `{TC : TinyCbor} `{TE : TinyCborEncoder}.

(** The code keeps the trace consented, only extends it, and leaves the handler alone. *)
Definition grows (w w' : Worker) : Prop :=
  consented (wk_trace w') ∧ (∃ l, wk_trace w' = wk_trace w ++ l) ∧ wk_get w' = wk_get w.

Lemma grows_refl w : consented (wk_trace w) → grows w w.
Proof. intros Hc. split_and!; [done| |done]. exists []. by rewrite app_nil_r. Qed.

Lemma grows_trans w1 w2 w3 : grows w1 w2 → grows w2 w3 → grows w1 w3.
Proof.
  intros (_ & [l1 E1] & G1) (C2 & [l2 E2] & G2). split_and!; [done| |congruence].
  exists (l1 ++ l2). by rewrite E2, E1, app_assoc.
Qed.

(** Only the environment and the store changed. *)
Lemma same_grows w w1 :
  consented (wk_trace w) → wk_trace w1 = wk_trace w → wk_get w1 = wk_get w → grows w w1.
Proof. intros Hc E1 E2. split_and!; [by rewrite E1| |done]. exists []. by rewrite app_nil_r. Qed.

(** One justified event happened besides. *)
Lemma event_grows ev w w1 :
  consented (wk_trace w) → justified (wk_trace w) ev → wk_trace w1 = wk_trace w ++ [ev] →
  wk_get w1 = wk_get w → grows w w1.
Proof.
  intros Hc Hj E1 E2. split_and!; [|by exists [ev]|done]. rewrite E1. by apply consented_snoc.
Qed.

Lemma grows_consented w w' : grows w w' → consented (wk_trace w').
Proof. by intros (? & _ & _). Qed.
Lemma grows_elem w w' e : grows w w' → e ∈ wk_trace w → e ∈ wk_trace w'.
Proof. intros (_ & [l ->] & _). rewrite elem_of_app. auto. Qed.
Lemma grows_backed w w' op b rp up uv :
  grows w w' → backed (wk_trace w) op b rp up uv → backed (wk_trace w') op b rp up uv.
Proof. intros (_ & [l ->] & _). apply backed_app. Qed.
End consent.

#[export] Hint Resolve grows_refl grows_consented : vauth.

(** Closes a [grows] goal after steps of the code. *)
Ltac grow :=
  first [ eapply same_grows; [by eauto with vauth|done|done]
        | eapply event_grows; [by eauto with vauth| |done|done]; [done || idtac] ].

Section consent_specs.
Context `{CE : CeremonyEnv} `{SE : StoreEnv} `{TC : TinyCbor} `{TE : TinyCborEncoder}.

(** Weakening a postcondition that composes growths. *)
Lemma wp_grows {A} (m : ST Worker A) (P : res A → Worker → Prop) w0 w :
  grows w0 w → wp m (λ r w', grows w w' ∧ P r w') w → wp m (λ r w', grows w0 w' ∧ P r w') w.
Proof. intros Hg. apply wp_mono. intros r w' [Hg' HP]. eauto using grows_trans. Qed.

Lemma denied_none r : denied_unless_approved r = None → r = ui_approved.
Proof. by destruct r. Qed.

Lemma exclude_loop_spec rq user l w :
  consented (wk_trace w) → wp (exclude_loop rq user l) (λ _ w', grows w w') w.
Proof.
  revert w. induction l as [|d l IH]; intros w Hc; cbn [exclude_loop]; [wp_step; auto with vauth|].
  destruct (bool_decide (d_type d = lit "public-key")); cbn [negb]; [|by apply IH].
  wp_step. wp_step. intros [excluded|e] s _; [|grow].
  destruct excluded; cbn [negb]; [|apply (IH (at_store s w)), Hc].
  wp_step. wp_step; [|grow]. wp_step. wp_step. destruct r as [presence|e']; [|grow].
  wp_step. wp_step; [wp_step|]; grow.
Qed.

(** What the user's consent to a registration leaves behind. *)
Lemma consent_loop_spec rq user l w :
  consented (wk_trace w) → NoDup l.*1 →
  wp (consent_loop rq user l) (λ r w', grows w w' ∧
    (r = Ret None → ∀ uv, (lit "uv", uv) ∈ l →
       backed (wk_trace w') make_credential (binding user) (rp_id (mc_rp rq)) true uv)) w.
Proof.
  intros Hc. induction l as [|[name option] l IH]; intros Hnd; cbn [consent_loop].
  { wp_step. split; [auto with vauth|]. by intros _ uv ?%not_elem_of_nil. }
  rewrite fmap_cons in Hnd. apply NoDup_cons in Hnd as [Hni Hnd].
  destruct (bool_decide (name = lit "uv")) eqn:En; cbn [negb]; reflect_bools.
  2:{ eapply wp_mono; [|by apply IH]. intros r w' [Hg Hr]. split; [done|]. intros E uv.
      rewrite elem_of_cons. intros [[= <- _]|Hin]; [done|]. by apply Hr. }
  subst name.
  assert (∀ uv, (lit "uv", uv) ∈ (lit "uv", option) :: l → uv = option) as Huniq.
  { intros uv [[=]|Hin]%elem_of_cons; [done|]. destruct Hni. apply list_elem_of_fmap.
    by exists (lit "uv", uv). }
  destruct option.
  - wp_step. wp_step. destruct r as [v|e']; [|split; [grow|done]].
    wp_step. wp_step; [wp_step|split; [grow|done]].
    split; [grow|]. intros [= Hd] uv Huv. apply denied_none in Hd as ->.
    rewrite (Huniq uv Huv). eapply approved_backed; [apply elem_of_app; right; apply list_elem_of_here|].
    done.
  - wp_step. wp_step; [|split; [grow|done]].
    wp_step. wp_step. destruct r as [v|e']; [|split; [grow|done]].
    wp_step. wp_step; [wp_step|split; [grow|done]].
    split; [grow|]. intros [= Hd] uv Huv. apply denied_none in Hd as ->.
    rewrite (Huniq uv Huv). eapply approved_backed; [apply elem_of_app; right; apply list_elem_of_here|].
    done.
Qed.

Lemma make_flags_bits uv :
  Z.testbit (make_flags uv) FLAG_UP = true ∧ Z.testbit (make_flags uv) FLAG_UV = uv ∧
  Z.testbit (make_flags uv) FLAG_AT = true.
Proof. by destruct uv. Qed.

Lemma assertion_flags_bits up uv :
  Z.testbit (assertion_authenticator_flags up uv) FLAG_UP = up ∧
  Z.testbit (assertion_authenticator_flags up uv) FLAG_UV = uv ∧
  Z.testbit (assertion_authenticator_flags up uv) FLAG_AT = false.
Proof. by destruct up, uv. Qed.

(** The loops read no other context. *)
Lemma exclude_loop_context rq user l w :
  wp (exclude_loop rq user l) (λ _ w', last_context (wk_trace w') = last_context (wk_trace w)) w.
Proof.
  revert w. induction l as [|d l IH]; intros w; cbn [exclude_loop]; [by wp_step|].
  destruct (negb _); [apply IH|]. wp_step. wp_step. intros [excluded|] s _; [|done].
  destruct (negb excluded); [apply (IH (at_store s w))|].
  wp_step. wp_step; [|done]. wp_step. wp_step. destruct r; [|by apply last_context_other].
  wp_step. wp_step; [wp_step|]; by apply last_context_other.
Qed.

Lemma consent_loop_context rq user l w :
  wp (consent_loop rq user l) (λ _ w', last_context (wk_trace w') = last_context (wk_trace w)) w.
Proof.
  induction l as [|[name option] l IH]; cbn [consent_loop]; [by wp_step|].
  destruct (negb _); [done|]. destruct option.
  - wp_step. wp_step. destruct r; [|by apply last_context_other].
    wp_step. wp_step; [wp_step|]; by apply last_context_other.
  - wp_step. wp_step; [|done]. wp_step. wp_step. destruct r; [|by apply last_context_other].
    wp_step. wp_step; [wp_step|]; by apply last_context_other.
Qed.

Lemma assertion_consent_context user rp up uv w :
  wp (assertion_consent user rp up uv) (λ _ w', last_context (wk_trace w') = last_context (wk_trace w)) w.
Proof.
  unfold assertion_consent. destruct (assertion_interaction up uv); [by wp_step| |].
  - wp_step. wp_step; [|done]. wp_step. wp_step. destruct r as [v|]; [|by apply last_context_other].
    wp_step. wp_step; [|by apply last_context_other].
    destruct (denied_unless_approved v); [wp_step; by apply last_context_other|].
    wp_step. wp_step. wp_step. by apply last_context_other.
  - wp_step. wp_step. destruct r as [v|]; [|by apply last_context_other].
    wp_step. wp_step; [|by apply last_context_other].
    destruct (denied_unless_approved v); [wp_step; by apply last_context_other|].
    wp_step. wp_step. wp_step. by apply last_context_other.
Qed.

Lemma create_credential_spec rq user alg w :
  consented (wk_trace w) → last_context (wk_trace w) = Some (Ret user) →
  (∀ uv, mc_options rq !! lit "uv" = Some uv →
     backed (wk_trace w) make_credential (binding user) (rp_id (mc_rp rq)) true uv) →
  wp (create_credential rq user alg) (λ _ w', grows w w') w.
Proof.
  intros Hc Hu Hb. assert (∀ w1, wk_trace w1 = wk_trace w → wk_get w1 = wk_get w → grows w w1) as Hsame
    by (intros; by apply same_grows).
  unfold create_credential. wp_step. wp_step. destruct (sha256 _) as [rphash|] eqn:Erp; [|by apply Hsame].
  wp_step. wp_step. unfold option_at at 1.
  destruct (mc_options rq !! lit "uv") as [uv|] eqn:Euv; [|by apply Hsame].
  wp_step. wp_step. intros [credId|] ? _; [|by apply Hsame].
  wp_step. wp_step; [|by apply Hsame]. wp_step. wp_step. intros [key|] ? _; [|by apply Hsame].
  wp_step. wp_step; [|by apply Hsame]. wp_step. wp_step.
  destruct (option_at _ _) as [rk|]; [|by apply Hsame].
  wp_step. wp_step. destruct (extractPublic _) as [xy|]; [|by apply Hsame].
  wp_step. wp_step. destruct (build_cose_key _ _) as [cose|]; [|by apply Hsame].
  wp_step. wp_step. destruct (sha256 (_ ++ mc_clientDataHash rq)) as [hash|] eqn:Eh; [|by apply Hsame].
  wp_step. wp_step. intros sig ?.
  set (ev := Signed credId hash (key_publicBlob key) (key_privateBlob key) sig).
  assert (∀ w1, wk_trace w1 = wk_trace w ++ [ev] → wk_get w1 = wk_get w → grows w w1) as Hsigned.
  { intros w1. apply event_grows; [done|]. rewrite <- !app_assoc in Eh.
    destruct (auth_data_fields rphash (make_flags uv) 0 (take 16 aaguid ++
      [u8 (Z.shiftr (u16 (len credId)) 8); u8 (Z.shiftr (u16 (len credId)) 0)] ++ credId ++ cose ++
      mc_clientDataHash rq)) as (F1 & F2 & _ & F4); [by eapply sha256_length|lia|].
    eexists user, _, _. split_and!; [done|exact Eh|exact F4|rewrite F1; exact Erp|..];
      cbv zeta; rewrite F2; destruct (make_flags_bits uv) as (-> & -> & ->).
    split; [done|by apply Hb]. }
  destruct sig as [sig|]; [|by apply Hsigned].
  wp_step. wp_step. destruct (build_authenticatorMakeCredential_response _ _); [|by apply Hsigned].
  wp_step. wp_step; [|by apply Hsigned].
  destruct (_ && _); [|wp_step; by apply Hsigned].
  wp_step. wp_step; [|by apply Hsigned]. wp_step. wp_step. intros [[]|] ? _; [wp_step|]; by apply Hsigned.
Qed.

Lemma make_build_response_spec rq w :
  consented (wk_trace w) → make_request_ok rq →
  wp (make_build_response rq) (λ _ w', grows w w') w.
Proof.
  intros Hc (_ & _ & _ & _ & _ & rk & uv & _ & Huv). unfold make_build_response.
  wp_step. wp_step; [|grow]. wp_step. wp_step. intros [user|] ? _; [|grow].
  wp_step. eapply wp_mono; [|apply wp_and; [by apply exclude_loop_spec, consented_snoc|
    apply exclude_loop_context]].
  intros r w1 [Hg1 Hu1]. simpl in Hu1. rewrite last_context_read in Hu1.
  assert (grows w w1) as Hg by (eapply grows_trans; [|exact Hg1]; grow).
  clear Hg1. destruct r as [[payload|]|]; [by wp_step| |done].
  destruct (_ =? 0); [by wp_step|]. destruct (make_validation_error rq); [by wp_step|].
  wp_step. eapply wp_mono; [|apply wp_and; [apply consent_loop_spec; [by eapply grows_consented|]|
    apply consent_loop_context]].
  2:{ rewrite option_order_perm. apply NoDup_fst_map_to_list. }
  intros r w2 [[Hg2 Hb] Hu2]. assert (grows w w2) as Hg' by (by eapply grows_trans).
  destruct r as [[payload|]|]; [by wp_step| |done].
  eapply wp_mono; [|apply create_credential_spec].
  - intros r w3 Hg3. by eapply grows_trans.
  - by eapply grows_consented.
  - by rewrite Hu2.
  - intros uv' E. apply Hb; [done|]. rewrite option_order_perm. by apply elem_of_map_to_list.
Qed.

(** *** Assertions *)

(** The consent recorded in the handler is backed for this user. *)
Definition get_backed (b : UserContextBinding) (g : GetAssertionState) (t : list ceremony_event)
    : Prop :=
  backed t get_assertion b (ga_rpId (gs_request g)) (gs_userPresent g) (gs_userVerified g).

Lemma generate_spec c user n w :
  consented (wk_trace w) → last_context (wk_trace w) = Some (Ret user) →
  get_backed (binding user) (wk_get w) (wk_trace w) →
  wp (generate_single_credential_payload c user n) (λ _ w', grows w w') w.
Proof.
  intros Hc Hu Hb. unfold generate_single_credential_payload.
  wp_step. wp_step. wp_step. wp_step. destruct (sha256 _) as [rphash|] eqn:Erp; [|grow].
  wp_step. wp_step.
  destruct (sha256 (_ ++ ga_clientDataHash _)) as [hash|] eqn:Eh; [|grow].
  wp_step. wp_step. intros sig ?. set (ev := Signed _ _ _ _ _).
  assert (justified (wk_trace w) ev) as Hj.
  { rewrite <- !app_assoc in Eh. set (flags := assertion_authenticator_flags _ _) in *.
    destruct (auth_data_fields rphash flags (u32 (c_signCount c + 1))
      (ga_clientDataHash (gs_request (wk_get w)))) as (F1 & F2 & _ & F4);
      [by eapply sha256_length|apply Z.mod_pos_bound; lia|].
    exists user, (ga_rpId (gs_request (wk_get w))), (rphash ++ [flags] ++
      count_bytes (u32 (c_signCount c + 1)) ++ ga_clientDataHash (gs_request (wk_get w))).
    split_and!; [done|exact Eh|exact F4|rewrite F1; exact Erp|]. cbv zeta. rewrite F2. unfold flags.
    destruct (assertion_flags_bits (gs_userPresent (wk_get w)) (gs_userVerified (wk_get w)))
      as (-> & -> & ->). split; [done|exact Hb]. }
  destruct sig as [sig|]; [|grow].
  wp_step. wp_step. destruct (build_authenticatorGetAssertion_response _ _ _ _ _ _); [|grow].
  wp_step. wp_step; [|grow]. wp_step. wp_step. intros [[]|] ? _; [wp_step|]; grow.
Qed.

(** The trace stays consented; the handler differs from [g] only in its consent, which is
    backed. *)
Definition consent_state (b : UserContextBinding) (g : GetAssertionState) (w' : Worker) : Prop :=
  consented (wk_trace w') ∧
  gs_request (wk_get w') = gs_request g ∧ gs_sequence (wk_get w') = gs_sequence g ∧
  get_backed b (wk_get w') (wk_trace w').

Lemma assertion_consent_spec user rp up uv w :
  consented (wk_trace w) → rp = ga_rpId (gs_request (wk_get w)) →
  gs_userPresent (wk_get w) = false → gs_userVerified (wk_get w) = false →
  wp (assertion_consent user rp up uv) (λ _ w', consent_state (binding user) (wk_get w) w') w.
Proof.
  intros Hc -> Hup Huv.
  assert (∀ w1, consented (wk_trace w1) → wk_get w1 = wk_get w →
    consent_state (binding user) (wk_get w) w1) as Hsame.
  { intros w1 Hc1 E. split_and!; [done|by rewrite E|by rewrite E|]. unfold get_backed. rewrite E, Hup, Huv.
    by split. }
  assert (∀ ev w1, wk_trace w1 = wk_trace w ++ [ev] → wk_get w1 = wk_get w →
    justified (wk_trace w) ev → consent_state (binding user) (wk_get w) w1) as Hev.
  { intros ev w1 Et Eg Hj. apply Hsame; [|done]. rewrite Et. by apply consented_snoc. }
  assert (∀ ev w1 up' uv', wk_trace w1 = wk_trace w ++ [ev] →
    wk_get w1 = mkGetState (gs_request (wk_get w)) up' uv' (gs_sequence (wk_get w)) →
    justified (wk_trace w) ev →
    approved get_assertion (binding user) (ga_rpId (gs_request (wk_get w))) uv' ev →
    consent_state (binding user) (wk_get w) w1) as Hok.
  { intros ev w1 up' uv' Et Eg Hj Ha. split_and!; [rewrite Et; by apply consented_snoc|by rewrite Eg..|].
    unfold get_backed. rewrite Eg, Et. simpl. destruct (approved_backed (wk_trace w ++ [ev]) _ _ _ _ ev
      ltac:(apply elem_of_app; right; apply list_elem_of_here) Ha) as [Hb1 Hb2].
    split; [intros ->; by apply Hb1|done]. }
  unfold assertion_consent. destruct (assertion_interaction up uv); [by wp_step; apply Hsame| |].
  - wp_step. wp_step; [|by apply Hsame]. wp_step. wp_step. destruct r as [v|]; [|by eapply Hev].
    wp_step. wp_step; [|by eapply Hev].
    destruct (denied_unless_approved v) eqn:Ed; [wp_step; by eapply Hev|].
    apply denied_none in Ed as ->. wp_step. wp_step. wp_step. by eapply Hok.
  - wp_step. wp_step. destruct r as [v|]; [|by eapply Hev]. wp_step. wp_step; [|by eapply Hev].
    destruct (denied_unless_approved v) eqn:Ed; [wp_step; by eapply Hev|].
    apply denied_none in Ed as ->. wp_step. wp_step. wp_step. by eapply Hok.
Qed.

(** ** The invariant between requests *)

(** A live sequence belongs to the user whose consent the handler remembers. *)
Definition sequence_backed (w : Worker) : Prop :=
  sq_originCid (gs_sequence (wk_get w)) ≠ 0 →
  ∃ b, sq_ownerContext (gs_sequence (wk_get w)) = Some b ∧ get_backed b (wk_get w) (wk_trace w).

Definition consent_inv (w : Worker) : Prop := consented (wk_trace w) ∧ sequence_backed w.

(** The result of a ceremony: the invariant when it returns, a consented trace in any case. *)
Definition ceremony_post {A} (r : res A) (w' : Worker) : Prop :=
  consented (wk_trace w') ∧ (is_ret r = true → sequence_backed w').

Lemma seq_begin_owner cid user l now s :
  seq_begin cid user l now = Ret s → s = seq_clear ∨ sq_ownerContext s = Some (binding user).
Proof.
  unfold seq_begin. destruct (_ || _); [intros [= <-]; by left|].
  destruct (existsb _ _); [done|]. intros [= <-]. by right.
Qed.

Lemma grows_post {A} (r : res A) b w w' :
  grows w w' → get_backed b (wk_get w) (wk_trace w) →
  (sq_originCid (gs_sequence (wk_get w)) ≠ 0 → sq_ownerContext (gs_sequence (wk_get w)) = Some b) →
  ceremony_post r w'.
Proof.
  intros Hg Hb Ho. pose proof Hg as (Hc & _ & Eg). split; [done|]. intros _ Hne. rewrite Eg in *.
  exists b. split; [by apply Ho|]. by eapply grows_backed.
Qed.

Lemma get_build_response_spec cid w :
  consented (wk_trace w) → gs_sequence (wk_get w) = seq_clear →
  wp (get_build_response cid) ceremony_post w.
Proof.
  intros Hc Hseq.
  assert (∀ w1 {A} (r : res A), consented (wk_trace w1) → gs_sequence (wk_get w1) = seq_clear →
    ceremony_post r w1) as Hclear.
  { intros w1 A r Hc1 E. split; [done|]. intros _. unfold sequence_backed. by rewrite E. }
  unfold get_build_response. wp_step. wp_step; [|by apply Hclear].
  wp_step. wp_step. intros [user|] ? _; [|by apply Hclear, Hseq; apply consented_snoc].
  assert (consented (wk_trace w ++ [ReadContext (Ret user)])) as Hc' by (by apply consented_snoc).
  wp_step. wp_step. wp_step. wp_step. intros [creds|] ? _; [|by apply Hclear]. simpl wk_get.
  destruct (get_validation_error _); [wp_step; by apply Hclear|].
  wp_step. wp_step. wp_step. wp_step. destruct (option_at _ _) as [up|]; [|by apply Hclear].
  wp_step. wp_step. destruct (option_at _ _) as [uv|]; [|by apply Hclear].
  wp_step. eapply wp_mono; [|apply wp_and; [by apply assertion_consent_spec|
    apply assertion_consent_context]]. simpl.
  intros r w1 [(Hc1 & Hrq & Hs & Hb) Hu1]. simpl in *. rewrite Hseq in Hs.
  rewrite last_context_read in Hu1.
  destruct r as [[payload|]|]; [wp_step; by apply Hclear| |by apply Hclear].
  destruct creds as [|c rest]; [wp_step; by apply Hclear|].
  destruct (0 <? _); [|wp_step; by apply Hclear].
  wp_step. wp_step; [|by apply Hclear].
  wp_step. eapply wp_mono; [|by apply generate_spec]. intros r w2 Hg.
  pose proof Hg as (Hc2 & _ & Eg). simpl in Eg. destruct r as [payload|]; [|apply Hclear; [done|by rewrite Eg]].
  destruct (has_assertion_continuations _ _); [|wp_step; apply Hclear; [done|by rewrite Eg]].
  wp_step. unfold begin_sequence. wp_step. wp_step. intros now ?. wp_step. wp_step. wp_step. wp_step.
  wp_step. wp_step. destruct (seq_begin _ _ _ _) as [sq|] eqn:Esq; [|by apply Hclear].
  wp_step. wp_step. apply seq_begin_owner in Esq as [->|Ho]; [by apply Hclear|].
  split; [done|]. intros _ _. exists (binding user). split; [exact Ho|].
  unfold get_backed. simpl. rewrite Eg. by eapply (grows_backed _ _ _ _ _ _ _ Hg).
Qed.

Lemma get_build_response_next_spec cid w :
  consent_inv w → wp (get_build_response_next cid) ceremony_post w.
Proof.
  intros [Hc Hs]. unfold get_build_response_next.
  wp_step. wp_step. intros u ? _.
  set (w0 := at_event _ _). assert (consent_inv w0) as [Hc0 Hs0].
  { split; [by apply consented_snoc|]. intros Hne. destruct (Hs Hne) as (b & Hb & Hbk).
    exists b. split; [done|]. by apply backed_app. }
  destruct u as [user|]; [|by split].
  wp_step. wp_step. intros now ?. wp_step. wp_step. simpl wk_get.
  destruct (seq_next cid user now (gs_sequence (wk_get w))) as [[c|] sq] eqn:En.
  - apply seq_next_some in En as (Hcid & Horig & Hown & _ & _ & Hsq).
    destruct Hs0 as (b & Hb & Hbk); [simpl; congruence|]. simpl in Hb. rewrite Hown in Hb.
    injection Hb as <-.
    assert (sq_originCid sq ≠ 0 → sq_ownerContext sq = Some (binding user)) as Hkeep
      by (destruct Hsq as [->|[_ ->]]; done).
    wp_step. wp_step.
    wp_step. wp_step; [|by apply (grows_post _ (binding user) (at_get (mkGetState
      (gs_request (wk_get w)) (gs_userPresent (wk_get w)) (gs_userVerified (wk_get w)) sq) w0));
      [grow|..]].
    eapply wp_mono; [|apply generate_spec; [exact Hc0|apply last_context_read|exact Hbk]].
    intros r w' Hg. eapply (grows_post _ (binding user)); [exact Hg|exact Hbk|exact Hkeep].
  - wp_step. wp_step. wp_step. split; [exact Hc0|]. intros _.
    apply seq_next_none in En as [->| ->]; [intros Hne; by destruct Hne|].
    intros Hne. exact (Hs0 Hne).
Qed.

Lemma reset_inv w : consented (wk_trace w) → consent_inv (at_get get_state_clear w).
Proof. intros Hc. split; [done|]. by intros []. Qed.

Lemma finish_response_inv cid payload w :
  consent_inv w → wp (finish_response cid payload) (λ _ w', consent_inv w') w.
Proof.
  intros Hi. unfold finish_response. destruct (_ <? _); [|by wp_step].
  wp_step. wp_step. wp_step. apply reset_inv. by destruct Hi.
Qed.

Lemma finish_assertion_inv cid outcome w :
  consent_inv w → wp (finish_assertion cid outcome) (λ _ w', consent_inv w') w.
Proof.
  intros Hi. unfold finish_assertion. destruct outcome as [packet|payload]; [by wp_step|].
  destruct (_ =? 1); [|by apply finish_response_inv].
  wp_step. wp_step. wp_step. apply reset_inv. by destruct Hi.
Qed.

(** Around a ceremony: what the handlers leave. *)
Lemma catch_ceremony_spec cid cleanup m w :
  wp m (λ r w', match r with
                | Ret _ => consent_inv w'
                | Throw _ => wp cleanup (λ r w2, r = Ret () ∧ consent_inv w2) w'
                end) w →
  wp (catch_ceremony cid cleanup m) (λ _ w', consent_inv w') w.
Proof.
  intros Hm. unfold catch_ceremony. wp_step. wp_step. eapply wp_mono; [|exact Hm].
  intros [payload|e] w1 Hw1; [by wp_step|]. wp_step. eapply wp_mono; [|exact Hw1].
  intros ? w2 [-> Hi]. by destruct e; wp_step.
Qed.

Lemma catch_reset_spec cid m w :
  wp m ceremony_post w → wp (catch_ceremony cid reset m) (λ _ w', consent_inv w') w.
Proof.
  intros Hm. apply catch_ceremony_spec. eapply wp_mono; [|exact Hm].
  intros [payload|e] w1 [Hc Hs]; [by split; [|apply Hs]|]. wp_step. split; [done|]. by apply reset_inv.
Qed.

Lemma handle_make_credential_inv request w :
  consent_inv w → wp (handle_make_credential request) (λ _ w', consent_inv w') w.
Proof.
  intros [Hc Hs]. unfold handle_make_credential. wp_step. wp_step.
  destruct (make_parse_total (drop 1 (rep_payload request))) as (b & rq & -> & Hrq).
  destruct b; cbn [negb]; [|by wp_step].
  wp_step. eapply wp_mono; [|apply catch_ceremony_spec].
  - intros [[packet|payload]|] w2 Hi2; [by wp_step| |done].
    destruct (_ =? 1); [by wp_step|]. by apply finish_response_inv.
  - eapply wp_mono; [|by apply make_build_response_spec]. intros r w2 Hg.
    assert (consent_inv w2) as Hi2.
    { pose proof Hg as (Hc2 & _ & Eg). split; [done|]. intros Hne. rewrite Eg in Hne.
      destruct (Hs Hne) as (b & Hb & Hbk). exists b. rewrite Eg. split; [done|].
      eapply grows_backed; [exact Hg|exact Hbk]. }
    by destruct r.
Qed.

Lemma handle_get_assertion_inv request w :
  consent_inv w → wp (handle_get_assertion request) (λ _ w', consent_inv w') w.
Proof.
  intros [Hc _]. unfold handle_get_assertion. wp_step. wp_step. wp_step. wp_step.
  destruct (get_parse_total (drop 1 (rep_payload request))) as (b & rq & -> & _).
  wp_step. wp_step. destruct b; cbn [negb]; [|wp_step; wp_step; wp_step; by apply reset_inv].
  wp_step. eapply wp_mono; [|by apply catch_reset_spec, get_build_response_spec].
  intros [outcome|] w2 Hi2; [by apply finish_assertion_inv|done].
Qed.

Lemma handle_get_next_assertion_inv request w :
  consent_inv w → wp (handle_get_next_assertion request) (λ _ w', consent_inv w') w.
Proof.
  intros Hi. unfold handle_get_next_assertion. wp_step. wp_step.
  destruct (_ || _); [by wp_step|].
  destruct (negb _); [wp_step; wp_step; wp_step; apply reset_inv; by destruct Hi|].
  wp_step. eapply wp_mono; [|by apply catch_reset_spec, get_build_response_next_spec].
  intros [outcome|] w2 Hi2; [by apply finish_assertion_inv|done].
Qed.

Lemma handle_inv request w : consent_inv w → wp (handle request) (λ _ w', consent_inv w') w.
Proof.
  intros Hi. unfold handle. wp_step.
  assert (∀ (b : bool) Q, (∀ w1, consent_inv w1 → Q (Ret ()) w1) →
    wp (if b then reset else st_ret ()) Q w) as Hreset.
  { intros b Q HQ. destruct b; wp_step; apply HQ; [apply reset_inv; by destruct Hi|done]. }
  apply Hreset. intros w1 Hi1.
  destruct (_ =? 4).
  { unfold handle_getinfo. destruct (negb _); [by wp_step|].
    destruct build_getinfo_response as [payload|e]; [by apply finish_response_inv|].
    by destruct e; wp_step. }
  destruct (_ =? 1); [by apply handle_make_credential_inv|].
  destruct (_ =? 2); [by apply handle_get_assertion_inv|].
  destruct (_ =? 8); [by apply handle_get_next_assertion_inv|]. by wp_step.
Qed.

Lemma execute_inv report w :
  consent_inv w → wp (execute_ctap_request report) (λ _ w', consent_inv w') w.
Proof.
  intros Hi. unfold execute_ctap_request. wp_step. wp_step.
  assert (∀ w1 e, consent_inv w1 →
    wp (let! _ := reset in st_throw (A:=CTAPPacket) e) (λ _ w', consent_inv w') w1) as Hreset.
  { intros w1 e [Hc1 _]. wp_step. wp_step. wp_step. by apply reset_inv. }
  wp_step; [|by apply Hreset].
  eapply wp_mono; [|by apply handle_inv]. intros [p|e'] w1 Hi1; [done|by apply Hreset].
Qed.

Lemma worker_task_inv report w :
  consent_inv w → wp (worker_task report) (λ _ w', consent_inv w') w.
Proof.
  intros Hi. unfold worker_task. wp_step. eapply wp_mono; [|by apply execute_inv].
  intros [p|e] w1 Hi1; [done|]. by wp_step.
Qed.
End consent_specs.

(** ** Executions of the worker *)

(** Between requests the environment may change, and CTAPHID_INIT resets the handler. *)
Inductive worker_step `{CE : CeremonyEnv} `{SE : StoreEnv} `{TC : TinyCbor} `{TE : TinyCborEncoder}
    (w : Worker) : Worker → Prop :=
  | step_task report : worker_step w (worker_task report w).2
  | step_init_reset : worker_step w (at_get get_state_clear w)
  | step_world e : worker_step w (at_env e w).

(** A worker that has not served a request yet. *)
Definition fresh_worker `{CE : CeremonyEnv} (w : Worker) : Prop :=
  wk_trace w = [] ∧ wk_get w = get_state_clear.

Section executions.
Context `{CE : CeremonyEnv} `{SE : StoreEnv} `{TC : TinyCbor} `{TE : TinyCborEncoder}.

Lemma consent_inv_step w w' : consent_inv w → worker_step w w' → consent_inv w'.
Proof.
  intros Hi [report| |e].
  - by apply worker_task_inv.
  - apply reset_inv. by destruct Hi.
  - exact Hi.
Qed.

Lemma consent_inv_reachable w w' : fresh_worker w → rtc worker_step w w' → consent_inv w'.
Proof.
  intros [Ht Hg] Hs. assert (consent_inv w) as Hi.
  { split; [|unfold sequence_backed; by rewrite Hg]. rewrite Ht. by intros [] ? ? ?. }
  clear Ht Hg. induction Hs; eauto using consent_inv_step.
Qed.

(** ** Every request is answered *)

(** A packet for this channel that fits a CTAPHID message. *)
Definition answers (cid : Z) (p : CTAPPacket) : Prop :=
  pkt_cid p = cid ∧ pkt_cmd p = Z.lor CTAPHID_CBOR MASK ∧ pkt_len p = len (pkt_payload p) ∧
  len (pkt_payload p) ≤ CTAPHID_MAX_PAYLOAD_SIZE.

Lemma cbor_error_answers cid e : answers cid (make_cbor_error cid e).
Proof. by split_and!. Qed.

Definition answered (cid : Z) (r : res CTAPPacket) (_ : Worker) : Prop :=
  match r with Ret p => answers cid p | Throw _ => True end.

Lemma finish_response_answered cid payload w :
  wp (finish_response cid payload) (answered cid) w.
Proof.
  unfold finish_response. destruct (_ <? _) eqn:E.
  - wp_step. wp_step. wp_step. apply cbor_error_answers.
  - wp_step. apply Z.ltb_ge in E. split_and!; try done. simpl.
    apply u16_small. unfold CTAPHID_MAX_PAYLOAD_SIZE in E. lia.
Qed.

Lemma catch_ceremony_answered cid cleanup m w :
  (∀ w1, ∃ w2, cleanup w1 = (Ret (), w2)) →
  wp (catch_ceremony cid cleanup m)
    (λ r _, match r with Ret (inl p) => answers cid p | _ => True end) w.
Proof.
  intros Hcl. unfold catch_ceremony. wp_step. wp_step. apply (wp_mono _ (λ _ _, True)); [|done].
  intros [payload|e] w1 _; [by wp_step|]. wp_step. unfold wp at 1. destruct (Hcl w1) as [w2 ->]. simpl.
  destruct e; wp_step; try done; apply cbor_error_answers.
Qed.

Lemma finish_assertion_answered cid outcome w :
  match outcome with inl p => answers cid p | inr _ => True end →
  wp (finish_assertion cid outcome) (answered cid) w.
Proof.
  intros Ho. unfold finish_assertion. destruct outcome as [p|payload]; [by wp_step|].
  destruct (_ =? 1); [|apply finish_response_answered].
  wp_step. wp_step. wp_step. apply cbor_error_answers.
Qed.

Lemma handle_answered request w : wp (handle request) (answered (rep_cid request)) w.
Proof.
  unfold handle. wp_step. apply (wp_mono _ (λ r _, r = Ret ())); [|by destruct (_ && _)].
  intros ? w1 ->. clear w.
  assert (∀ e w, wp (st_ret (make_cbor_error (rep_cid request) e)) (answered (rep_cid request)) w)
    as Herr by (intros; wp_step; apply cbor_error_answers).
  destruct (_ =? 4).
  { unfold handle_getinfo. destruct (negb _); [apply Herr|].
    destruct build_getinfo_response as [payload|e]; [apply finish_response_answered|].
    destruct e; first [apply Herr|by wp_step]. }
  destruct (_ =? 1).
  { unfold handle_make_credential. wp_step. wp_step. destruct (make_parseRequest _) as [[b rq]|]; [|done].
    destruct (negb b); [apply Herr|].
    wp_step. eapply wp_mono; [|apply catch_ceremony_answered; intros w2; by exists w2].
    intros [[p|payload]|] w2 Hp; [by wp_step| |done].
    destruct (_ =? 1); [apply Herr|apply finish_response_answered]. }
  destruct (_ =? 2).
  { unfold handle_get_assertion. wp_step. wp_step. wp_step. wp_step.
    destruct (get_parseRequest _) as [[b rq]|]; [|done]. wp_step. wp_step.
    destruct (negb b); [wp_step; wp_step; apply Herr|].
    wp_step. eapply wp_mono; [|apply catch_ceremony_answered; intros w2; by eexists].
    intros [outcome|] w2 Hp; [|done]. apply finish_assertion_answered. by destruct outcome. }
  destruct (_ =? 8); [|apply Herr].
  unfold handle_get_next_assertion. wp_step. wp_step. destruct (_ || _); [apply Herr|].
  destruct (negb _); [wp_step; wp_step; apply Herr|].
  wp_step. eapply wp_mono; [|apply catch_ceremony_answered; intros w2; by eexists].
  intros [outcome|] w2 Hp; [|done]. apply finish_assertion_answered. by destruct outcome.
Qed.

Lemma worker_task_answered report w :
  ∃ p w', worker_task report w = (Ret p, w') ∧ answers (rep_cid report) p.
Proof.
  assert (wp (worker_task report) (λ r _, ∃ p, r = Ret p ∧ answers (rep_cid report) p) w) as Hw.
  { unfold worker_task. wp_step. unfold execute_ctap_request. wp_step. wp_step.
    assert (∀ e w1, wp (let! _ := reset in st_throw (A:=CTAPPacket) e)
      (λ r w', match r with
         | Ret p => ∃ q, Ret p = Ret q ∧ answers (rep_cid report) q
         | Throw e => wp (st_ret (failure_packet (rep_cid report) e))
             (λ r _, ∃ p, r = Ret p ∧ answers (rep_cid report) p) w' end) w1) as Hthrow.
    { intros e w1. wp_step. wp_step. wp_step. wp_step. eexists. split; [done|].
      destruct e; apply cbor_error_answers. }
    wp_step; [|apply Hthrow]. eapply wp_mono; [|apply handle_answered].
    intros [p|e'] w1 Hp; [by exists p|apply Hthrow]. }
  unfold wp in Hw. destruct (worker_task report w) as [r w']. simpl in Hw. destruct Hw as (p & -> & Hp).
  by exists p, w'.
Qed.
End executions.

(** ** Counters *)

Section counters.
Context `{CE : CeremonyEnv} `{SE : StoreEnv} `{TC : TinyCbor} `{TE : TinyCborEncoder}.

(** The credentials in the store's memory. *)
Definition stored (w : Worker) : Storage := w_stored (wk_store w).

Definition store_good (w : Worker) : Prop :=
  storage_ok (stored w) ∧ is_u64 (w_generation (wk_store w)).

(** The credential is in the store as it is, for this owner and relying party. *)
Definition current_credential (w : Worker) (uid : Z) (rp : list Z) (c : StoredCredential) : Prop :=
  stored w !! hex_string (c_id c) = Some c ∧ c_ownerUid c = uid ∧ c_rpId c = rp.

(** What a successful assertion with this response did: the last thing that was signed is
    the digest of the response's authenticator data with the request's client data hash, by
    the key of a credential of the user whose context was read last, for the requested
    relying party; the data carry the counter value one above the stored one, which is
    stored. *)
Definition asserted (rq : CTAPGetAssertionRequest) (payload : list Z) (w w' : Worker) : Prop :=
  ∃ user c auth digest sig t uv include_user n,
    wk_trace w' = t ++ [Signed (c_id c) digest (c_public_blob c) (c_private_blob c) (Ret sig)] ∧
    last_context t = Some (Ret user) ∧
    current_credential w (uc_uid user) (ga_rpId rq) c ∧
    length auth = 37%nat ∧ sha256 (ga_rpId rq) = Ret (auth_rp_hash auth) ∧
    auth_counter auth = c_signCount c + 1 ∧ c_signCount c < U32_MAX ∧
    sha256 (auth ++ ga_clientDataHash rq) = Ret digest ∧
    payload = 0 :: cbor_encode (assertion_value auth sig uv c include_user n) ∧
    stored w' = <[hex_string (c_id c) := with_signCount (c_signCount c + 1) c]> (stored w).

Lemma increment_effect id owner s r s' c :
  storage_ok (w_stored s) → is_u64 (w_generation s) → w_stored s !! hex_string id = Some c →
  incrementSigCount id owner s = (r, s') →
  storage_ok (w_stored s') ∧ is_u64 (w_generation s') ∧
  match r with
  | Ret _ => c_signCount c < U32_MAX ∧ u32 (c_signCount c + 1) = c_signCount c + 1 ∧
      w_stored s' = <[hex_string id := with_signCount (c_signCount c + 1) c]> (w_stored s)
  | Throw _ => w_stored s' = w_stored s
  end.
Proof.
  intros Hok Hg Hl Hrun. change (run_op (DoIncrement id owner) s = (r, s')) in Hrun.
  pose proof (run_op_generation (DoIncrement id owner) s Hg) as Hg'. rewrite Hrun in Hg'.
  pose proof (run_op_memory _ _ _ _ Hrun) as Hm. destruct r as [[]|e].
  - destruct Hm as (Hacc & _ & Ht). pose proof (target_ok (DoIncrement id owner) s Hok I Hacc Hg) as Hto.
    rewrite <- Ht in Hto. split; [done|]. split; [done|].
    destruct Hacc as (c' & _ & Hl' & _ & Hmax). rewrite Hl in Hl'. injection Hl' as <-.
    destruct Hok as [Hok _]. destruct (Hok _ _ Hl) as [_ (_ & _ & _ & _ & _ & _ & Hsc)].
    assert (u32 (c_signCount c + 1) = c_signCount c + 1) as E
      by (unfold U32_MAX in *; apply u32_small; lia).
    simpl in Ht. rewrite Hl, E in Ht. unfold U32_MAX in *. split; [lia|done].
  - rewrite Hm. done.
Qed.

Lemma generate_counter c user n w :
  store_good w → last_context (wk_trace w) = Some (Ret user) → from_option (λ n, is_u64 n) True n →
  current_credential w (uc_uid user) (ga_rpId (gs_request (wk_get w))) c →
  wp (generate_single_credential_payload c user n) (λ r w',
    store_good w' ∧ wk_get w' = wk_get w ∧
    match r with
    | Ret payload => asserted (gs_request (wk_get w)) payload w w' ∧
        stored w' = <[hex_string (c_id c) := with_signCount (c_signCount c + 1) c]> (stored w)
    | Throw _ => stored w' = stored w
    end) w.
Proof.
  intros [Hok Hg] Hu Hn Hcur. pose proof Hcur as (Hl & Howner & Hrp).
  unfold generate_single_credential_payload.
  wp_step. wp_step. wp_step. wp_step. destruct (sha256 _) as [rphash|] eqn:Erp; [|done].
  wp_step. wp_step. destruct (sha256 (_ ++ ga_clientDataHash _)) as [hash|] eqn:Eh; [|done].
  wp_step. wp_step. intros sig ?. destruct sig as [sig|]; [|done].
  wp_step. wp_step. set (flags := assertion_authenticator_flags _ _) in *.
  destruct (build_authenticatorGetAssertion_response _ _ _ _ _ _) as [payload|] eqn:Eb; [|done].
  wp_step. wp_step; [|done]. wp_step. wp_step. intros r s Hinc. simpl in Hinc.
  destruct (increment_effect _ _ _ _ _ c Hok Hg Hl Hinc) as (Hok' & Hg' & Hr).
  destruct r as [[]|]; [|split_and!; done]. destruct Hr as (Hlt & Eu & Hs').
  wp_step. split; [done|]. split; [done|]. split; [|done].
  change (c_signCount (with_signCount (u32 (c_signCount c + 1)) c)) with (u32 (c_signCount c + 1)) in *.
  rewrite Eu in *.
  destruct (auth_data_fields rphash flags (c_signCount c + 1) []) as (F1 & _ & F3 & _);
    [by eapply sha256_length|rewrite <- Eu; apply Z.mod_pos_bound; lia|].
  rewrite app_nil_r in F1, F3. apply sha256_length in Erp as Hrl.
  pose proof (get_assertion_delivers (rphash ++ [flags] ++ count_bytes (c_signCount c + 1)) sig
    (gs_userVerified (wk_get w)) (with_signCount (c_signCount c + 1) c)
    (negb (len (ga_allowList (gs_request (wk_get w))) =? 1)) n Hn) as Hd.
  rewrite Eb in Hd. apply delivers_ret in Hd.
  eexists user, c, _, hash, sig, (wk_trace w), _, _, n.
  split_and!; [done|done|done| |by rewrite F1|exact F3|done|exact Eh|exact Hd|done].
  rewrite !length_app, Hrl. done.
Qed.

(** Another credential is not affected by a counter update. *)
Lemma current_other w w' uid rp c c' :
  storage_ok (stored w) → stored w' = <[hex_string (c_id c) := c']> (stored w) →
  stored w !! hex_string (c_id c) = Some c → ∀ d, current_credential w uid rp d →
  c_id d ≠ c_id c → current_credential w' uid rp d.
Proof.
  intros [Hok _] Hs Hc d (Hd & Ho & Hr) Hne. split_and!; [|done..]. rewrite Hs, lookup_insert_ne; [done|].
  intros E. apply Hne. destruct (Hok _ _ Hc) as [_ (_ & Hbc & _)], (Hok _ _ Hd) as [_ (_ & Hbd & _)].
  symmetry. by apply hex_string_inj.
Qed.

Lemma nodup_ids m l :
  storage_ok m → NoDup l → (∀ c, c ∈ l → ∃ k, m !! k = Some c) → NoDup (c_id <$> l).
Proof.
  intros Hok Hnd Hin. apply NoDup_fmap_2_strong; [|done]. intros x y Hx Hy E.
  destruct (Hin x Hx) as [k Hk], (Hin y Hy) as [k' Hk']. by eapply storage_id_inj.
Qed.

Lemma find_for_assertion_current rp allow uid s r s' :
  storage_ok (w_stored s) → Forall descriptor_ok allow →
  find_for_assertion rp allow uid s = (r, s') →
  s' = s ∧ match r with
           | Ret l => NoDup (c_id <$> l) ∧ ∀ c, c ∈ l →
               w_stored s !! hex_string (c_id c) = Some c ∧ c_ownerUid c = uid ∧ c_rpId c = rp
           | Throw _ => True
           end.
Proof.
  intros Hok Hd. unfold find_for_assertion, require_ready, st_bind, st_get.
  destruct (w_requiresReload s); [by intros [= <- <-]|]. simpl.
  destruct (0 <? len allow).
  - unfold st_lift. intros [= <- <-]. split; [done|].
    destruct (find_allowed _ _ _ _ _) as [l|] eqn:Ef; [|done].
    apply find_allowed_spec in Ef as [Hnd Hel]; [|done|].
    2:{ eapply Forall_impl; [exact Hd|]. by intros d (_ & _ & ? & _). }
    assert (∀ c, c ∈ l → w_stored s !! hex_string (c_id c) = Some c ∧ c_ownerUid c = uid ∧
      c_rpId c = rp) as Hall.
    { intros c (_ & _ & Hl & Hb)%Hel. unfold belongs_to_rp in Hb.
      rewrite andb_true_iff, Z.eqb_eq, bool_decide_eq_true in Hb. done. }
    split; [|done]. eapply nodup_ids; [done..|]. intros c Hc. eexists. by apply Hall.
  - intros [= <- <-]. split; [done|].
    set (l := filter _ _).
    assert (∀ c, c ∈ l → w_stored s !! hex_string (c_id c) = Some c ∧ c_ownerUid c = uid ∧
      c_rpId c = rp) as Hall.
    { intros c. unfold l. rewrite list_elem_of_filter, map_order_elem. unfold discoverable_for.
      rewrite !andb_true_iff, Z.eqb_eq, bool_decide_eq_true. intros [[[Ho _] Hr] [k Hk]].
      destruct Hok as [Hok _]. destruct (Hok _ _ Hk) as [-> _]. done. }
    split; [|intros c; rewrite std_sort_perm; apply Hall]. rewrite std_sort_perm.
    eapply nodup_ids; [done| |].
    + by apply NoDup_filter, map_order_nodup_snd.
    + intros c Hc. eexists. by apply Hall.
Qed.

(** The credentials a sequence has not handed out yet. *)
Definition live (s : AssertionSequence) : list StoredCredential :=
  drop (sq_index s) (sq_credentials s).

(** A live sequence holds the store's current credentials of its owner, each once. *)
Definition sequence_current (w : Worker) : Prop :=
  let s := gs_sequence (wk_get w) in
  sq_originCid s ≠ 0 →
  ∃ b, sq_ownerContext s = Some b ∧ NoDup (c_id <$> live s) ∧
    ∀ c, c ∈ live s →
      current_credential w (bd_uid b) (ga_rpId (gs_request (wk_get w))) c.

Definition counter_inv (w : Worker) : Prop := store_good w ∧ sequence_current w.

Lemma counter_inv_reset w : store_good w → counter_inv (at_get get_state_clear w).
Proof. intros Hs. split; [done|]. by intros Hne. Qed.

(** Loops that ask the user leave the store and the handler alone. *)
Definition untouched (w w' : Worker) : Prop :=
  wk_store w' = wk_store w ∧ wk_get w' = wk_get w.

Lemma untouched_inv w w' : untouched w w' → counter_inv w → counter_inv w'.
Proof.
  intros [Es Eg] [Hs Hc]. unfold counter_inv, store_good, sequence_current, current_credential,
    stored in *. by rewrite Es, Eg.
Qed.

Lemma has_for_rp_store id rp uid s : (has_for_rp id rp uid s).2 = s.
Proof.
  unfold has_for_rp, require_ready, find_credential, st_bind, st_get, st_lift.
  destruct (w_requiresReload s); [done|]. simpl. by destruct (hex_encode id).
Qed.

Lemma exclude_loop_untouched rq user l w :
  wp (exclude_loop rq user l) (λ _ w', untouched w w') w.
Proof.
  revert w. induction l as [|d l IH]; intros w; cbn [exclude_loop]; [by wp_step|].
  destruct (negb _); [apply IH|]. wp_step. wp_step. intros r s E.
  assert (s = wk_store w) as -> by (by rewrite <- (has_for_rp_store (d_id d) (rp_id (mc_rp rq))
    (uc_uid user) (wk_store w)), E).
  destruct r as [excluded|]; [|done]. destruct (negb excluded); [apply (IH (at_store _ w))|].
  wp_step. wp_step; [|done]. wp_step. wp_step. destruct r; [|done]. wp_step. wp_step; [by wp_step|done].
Qed.

Lemma consent_loop_untouched rq user l w :
  wp (consent_loop rq user l) (λ _ w', untouched w w') w.
Proof.
  induction l as [|[name option] l IH]; cbn [consent_loop]; [by wp_step|].
  destruct (negb _); [done|]. destruct option.
  - wp_step. wp_step. destruct r; [|done]. wp_step. wp_step; [by wp_step|done].
  - wp_step. wp_step; [|done]. wp_step. wp_step. destruct r; [|done].
    wp_step. wp_step; [by wp_step|done].
Qed.

Lemma create_credential_counter rq user alg w :
  store_good w → make_request_ok rq → is_u32 (uc_uid user) →
  wp (create_credential rq user alg) (λ _ w', store_good w' ∧ wk_get w' = wk_get w) w.
Proof.
  intros Hs (_ & (_ & Hbu & _) & _) Hu. unfold create_credential.
  wp_step. wp_step. destruct (sha256 _) as [rphash|]; [|done].
  wp_step. wp_step. destruct (option_at _ _) as [uv|]; [|done].
  wp_step. wp_step. intros [credId|] ? Hrand; [|done]. apply random_bytes_ok in Hrand as [Hbid _].
  wp_step. wp_step; [|done]. wp_step. wp_step. intros [key|] ? Hkey; [|done].
  apply provider_create_ok in Hkey as [Hpr Hpu].
  wp_step. wp_step; [|done]. wp_step. wp_step. destruct (option_at _ _) as [rk|]; [|done].
  wp_step. wp_step. destruct (extractPublic _) as [xy|]; [|done].
  wp_step. wp_step. destruct (build_cose_key _ _) as [cose|]; [|done].
  wp_step. wp_step. destruct (sha256 _) as [hash|]; [|done].
  wp_step. wp_step. intros [sig|] ?; [|done].
  wp_step. wp_step. destruct (build_authenticatorMakeCredential_response _ _); [|done].
  wp_step. wp_step; [|done]. destruct (_ && _); [|by wp_step].
  wp_step. wp_step; [|done]. wp_step. wp_step. intros r s Hput. destruct Hs as [Hok Hg].
  set (cred := mkCred _ _ _ _ _ _ _ _ _ _ _ _) in Hput. simpl wk_store in Hput.
  change (run_op (DoPut cred (uc_uid user)) (wk_store w) = (r, s)) in Hput.
  assert (op_ok (DoPut cred (uc_uid user))) as Hop by (split_and!; try done; simpl; lia).
  pose proof (run_op_generation (DoPut cred (uc_uid user)) _ Hg) as Hg'. rewrite Hput in Hg'.
  pose proof (run_op_memory _ _ _ _ Hput) as Hm.
  assert (storage_ok (w_stored s)) as Hok'.
  { destruct r as [[]|]; [|by rewrite Hm]. destruct Hm as (Hacc & _ & ->). by apply target_ok. }
  destruct r as [[]|]; [by wp_step|done].
Qed.

Lemma make_build_response_counter rq w :
  store_good w → make_request_ok rq →
  wp (make_build_response rq) (λ _ w', store_good w' ∧ wk_get w' = wk_get w) w.
Proof.
  intros Hs Hrq. unfold make_build_response. wp_step. wp_step; [|done].
  wp_step. wp_step. intros [user|] ? Hctx; [|done]. apply current_context_uid in Hctx.
  assert (∀ w1, untouched w w1 → store_good w1 ∧ wk_get w1 = wk_get w) as Hun.
  { intros w1 [E1 E2]. split; [|done]. unfold store_good, stored in *. by rewrite E1. }
  wp_step. eapply wp_mono; [|apply exclude_loop_untouched]. intros r w1 Hw1.
  change (untouched w w1) in Hw1. destruct r as [[payload|]|]; [wp_step; by apply Hun| |by apply Hun].
  destruct (_ =? 0); [wp_step; by apply Hun|].
  destruct (make_validation_error rq); [wp_step; by apply Hun|].
  wp_step. eapply wp_mono; [|apply consent_loop_untouched]. intros r w2 [E1 E2].
  assert (untouched w w2) as Hw2 by (destruct Hw1; split; congruence).
  destruct r as [[payload|]|]; [wp_step; by apply Hun| |by apply Hun].
  destruct (Hun w2 Hw2) as [Hs2 Eg2].
  eapply wp_mono; [|by apply create_credential_counter]. intros r w3 [? ?]. split; [done|congruence].
Qed.

(** The consent of an assertion changes only the consent. *)
Lemma denied_length v p : denied_unless_approved v = Some p → len p = 1.
Proof. destruct v; [done|by intros [= <-]..]. Qed.

Lemma assertion_consent_untouched user rp up uv w :
  wp (assertion_consent user rp up uv) (λ r w', wk_store w' = wk_store w ∧
    gs_request (wk_get w') = gs_request (wk_get w) ∧
    gs_sequence (wk_get w') = gs_sequence (wk_get w) ∧
    match r with Ret (Some p) => len p = 1 | _ => True end) w.
Proof.
  pose proof denied_length as Hlen. unfold assertion_consent. destruct (assertion_interaction up uv); [by wp_step| |].
  - wp_step. wp_step; [|done]. wp_step. wp_step. destruct r as [v|]; [|done].
    wp_step. wp_step; [|done]. destruct (denied_unless_approved v) eqn:Ed; [wp_step; by eauto|].
    wp_step. wp_step. by wp_step.
  - wp_step. wp_step. destruct r as [v|]; [|done]. wp_step. wp_step; [|done].
    destruct (denied_unless_approved v) eqn:Ed; [wp_step; by eauto|]. wp_step. wp_step. by wp_step.
Qed.

(** A response of more than one byte is an assertion; everything else is an error that the
    handler follows by a reset. *)
Definition assertion_post (w : Worker) (r : res (list Z)) (w' : Worker) : Prop :=
  store_good w' ∧
  match r with
  | Ret payload => len payload = 1 ∨
      asserted (gs_request (wk_get w)) payload w w' ∧ sequence_current w'
  | Throw _ => True
  end.

Lemma asserted_store rq payload w1 w2 w' :
  stored w1 = stored w2 → asserted rq payload w1 w' → asserted rq payload w2 w'.
Proof.
  intros E. unfold asserted, current_credential. by rewrite E.
Qed.

Lemma get_build_response_counter cid w :
  store_good w → get_request_ok (gs_request (wk_get w)) → gs_sequence (wk_get w) = seq_clear →
  wp (get_build_response cid) (assertion_post w) w.
Proof.
  intros Hs (_ & _ & _ & _ & Hallow & _) Hseq. unfold get_build_response.
  assert (∀ e w1, wk_store w1 = wk_store w → assertion_post w (Ret [e]) w1) as Herr.
  { intros e w1 E. split; [|by left]. unfold store_good, stored in *. by rewrite E. }
  wp_step. wp_step; [|done]. wp_step. wp_step. intros [user|] ? _; [|done]. wp_step. wp_step.
  wp_step. wp_step. intros r s Hfind. simpl in Hfind.
  apply find_for_assertion_current in Hfind as [-> Hr]; [|by destruct Hs|done].
  destruct r as [creds|]; [|done]. destruct Hr as [Hnd Hcreds].
  destruct (get_validation_error _); [wp_step; by apply Herr|].
  wp_step. wp_step. wp_step. wp_step. destruct (option_at _ _) as [up|]; [|done].
  wp_step. wp_step. destruct (option_at _ _) as [uv|]; [|done].
  wp_step. eapply wp_mono; [|apply wp_and; [apply assertion_consent_untouched|
    apply assertion_consent_context]]. simpl.
  intros r w1 [(Es & Erq & Esq & Hlen) Hu1]. simpl in *. rewrite Hseq in Esq.
  rewrite last_context_read in Hu1.
  assert (store_good w1) as Hs1 by (unfold store_good, stored in *; by rewrite Es).
  destruct r as [[payload|]|]; [wp_step; by split; [|left]| |done].
  destruct creds as [|c rest]; [wp_step; by apply Herr|].
  destruct (0 <? _); [|wp_step; by apply Herr]. wp_step. wp_step; [|done].
  assert (stored w1 = stored w) as Est by (unfold stored; by rewrite Es).
  assert (∀ d, d ∈ c :: rest →
    current_credential w1 (uc_uid user) (ga_rpId (gs_request (wk_get w))) d) as Hcur.
  { intros d Hd. unfold current_credential. rewrite Est. by apply Hcreds. }
  wp_step. eapply wp_mono; [|apply (generate_counter c user _ (at_env e1 w1)); [done|exact Hu1| |]].
  3:{ simpl. rewrite Erq. apply Hcur, list_elem_of_here. }
  2:{ destruct (has_assertion_continuations _ _); [|done]. simpl. unfold u32.
      pose proof (Z.mod_pos_bound (len (c :: rest)) (2 ^ 32)) as Hb. simpl in Hb. lia. }
  intros r w2 (Hs2 & Eg2 & Hr). simpl in Eg2. destruct r as [payload|]; [|done]. simpl in Hr.
  destruct Hr as [Ha Hst]. apply (asserted_store _ _ _ w) in Ha; [|done].
  simpl in Ha. rewrite Erq in Ha.
  assert (sequence_current (at_get (mkGetState (gs_request (wk_get w)) (gs_userPresent (wk_get w2))
    (gs_userVerified (wk_get w2)) seq_clear) w2)) as Hclear by (by intros []).
  destruct (has_assertion_continuations _ _).
  2:{ wp_step. split; [done|]. right. split; [done|]. unfold sequence_current. by rewrite Eg2, Esq. }
  rewrite fmap_cons in Hnd. apply NoDup_cons in Hnd as [Hni Hnd].
  wp_step. unfold begin_sequence. wp_step. wp_step. intros now ?. wp_step. wp_step. wp_step. wp_step.
  wp_step. wp_step. unfold seq_begin.
  destruct (_ || _); [wp_step; wp_step; split; [done|]; right; split; [done|]; by intros []|].
  destruct (existsb _ _); [done|]. wp_step. wp_step. split; [done|]. right. split; [done|].
  intros _. exists (binding user). split; [done|]. unfold live. simpl. rewrite drop_0.
  split; [done|]. intros d Hd. rewrite Eg2, Erq.
  eapply (current_other (at_env e1 w1)); [by destruct Hs1|exact Hst| | |].
  - by apply Hcur, list_elem_of_here.
  - apply Hcur. by apply list_elem_of_further.
  - intros E. apply Hni. rewrite <- E. apply list_elem_of_fmap. by exists d.
Qed.

Lemma get_build_response_next_counter cid w :
  counter_inv w → wp (get_build_response_next cid) (assertion_post w) w.
Proof.
  intros [Hs Hc]. unfold get_build_response_next.
  wp_step. wp_step. intros [user|] ? _; [|done]. wp_step. wp_step. intros now ?. wp_step. wp_step.
  simpl wk_get. destruct (seq_next _ _ _ _) as [[c|] sq] eqn:En.
  2:{ wp_step. wp_step. wp_step. split; [done|by left]. }
  apply seq_next_some in En as (Hcid & Horig & Hown & _ & Hidx & Hsq).
  destruct Hc as (b & Hb & Hnd & Hcur); [congruence|]. rewrite Hown in Hb. injection Hb as <-.
  unfold live in Hnd, Hcur. rewrite (drop_S _ _ _ Hidx) in Hnd, Hcur.
  rewrite fmap_cons in Hnd. apply NoDup_cons in Hnd as [Hni Hnd].
  wp_step. wp_step. wp_step. wp_step; [|done].
  eapply wp_mono; [|apply generate_counter; [done|apply last_context_read|done|apply Hcur, list_elem_of_here]].
  intros r w2 (Hs2 & Eg2 & Hr). simpl in Eg2. split; [done|]. destruct r as [payload|]; [|done].
  simpl in Hr. destruct Hr as [Ha Hst]. right. split; [by eapply asserted_store; [|exact Ha]|].
  unfold sequence_current. rewrite Eg2. simpl. destruct Hsq as [->|[_ ->]]; [by intros []|].
  simpl. intros _. exists (binding user). split; [done|]. unfold live. simpl. split; [done|].
  intros d Hd. eapply current_other; [|exact Hst| | |].
  - by destruct Hs.
  - by apply Hcur, list_elem_of_here.
  - apply Hcur. by apply list_elem_of_further.
  - intros E. apply Hni. rewrite <- E. apply list_elem_of_fmap. by exists d.
Qed.

(** The request that an assertion command is answered for: its own, or for a continuation
    the one that the handler keeps. *)
Definition served_request (report : UHIDReport) (w : Worker) : option CTAPGetAssertionRequest :=
  let command := byte_at (rep_payload report) 0 in
  if command =? 2 then
    match get_parseRequest (drop 1 (rep_payload report)) with
    | Ret (true, rq) => Some rq
    | _ => None
    end
  else if command =? 8 then Some (gs_request (wk_get w)) else None.

(** What a request to the handler does: a response of more than one byte to an assertion
    command is an assertion. *)
Definition handle_post (report : UHIDReport) (w : Worker) (r : res CTAPPacket) (w' : Worker) : Prop :=
  counter_inv w' ∧
  match r with
  | Ret p =>
      byte_at (rep_payload report) 0 = 2 ∨ byte_at (rep_payload report) 0 = 8 →
      len (pkt_payload p) ≠ 1 →
      ∃ rq, served_request report w = Some rq ∧ asserted rq (pkt_payload p) w w'
  | Throw _ => True
  end.

(** A packet of one byte asserts nothing. *)
Lemma handle_post_error report w cid e w' :
  counter_inv w' → handle_post report w (Ret (make_cbor_error cid e)) w'.
Proof. by split. Qed.

(** An assertion ceremony with its handlers and the end of its branch. *)
Lemma assertion_branch report cid m w w0 :
  stored w = stored w0 → served_request report w0 = Some (gs_request (wk_get w)) →
  wp m (assertion_post w) w →
  wp (let! outcome := catch_ceremony cid reset m in finish_assertion cid outcome)
    (handle_post report w0) w.
Proof.
  intros E0 Hrq Hm. wp_step. unfold catch_ceremony. wp_step. wp_step. eapply wp_mono; [|exact Hm].
  intros [payload|e] w1 [Hs1 Hr].
  - wp_step. unfold finish_assertion. destruct (len payload =? 1) eqn:El; reflect_bools.
    { wp_step. wp_step. wp_step. by apply handle_post_error, counter_inv_reset. }
    destruct Hr as [|[Ha Hc1]]; [done|]. apply (asserted_store _ _ _ w0) in Ha; [|done].
    unfold finish_response. destruct (_ <? _).
    + wp_step. wp_step. wp_step. by apply handle_post_error, counter_inv_reset.
    + wp_step. split; [done|]. intros _ _. by eexists.
  - wp_step. wp_step. pose proof (counter_inv_reset w1 Hs1) as Hinv.
    destruct e; wp_step; first [by split | unfold finish_assertion; wp_step; by apply handle_post_error].
Qed.

(** The other commands assert nothing. *)
Definition other_command (report : UHIDReport) : Prop :=
  ¬ (byte_at (rep_payload report) 0 = 2 ∨ byte_at (rep_payload report) 0 = 8).

Lemma handle_post_other report w r w' :
  other_command report → counter_inv w' → handle_post report w r w'.
Proof. intros Ho Hi. split; [done|]. by destruct r. Qed.

Lemma finish_response_counter report cid payload w0 w :
  other_command report → counter_inv w → wp (finish_response cid payload) (handle_post report w0) w.
Proof.
  intros Ho Hi. unfold finish_response. destruct (_ <? _); [|wp_step; by apply handle_post_other].
  wp_step. wp_step. wp_step. apply handle_post_error, counter_inv_reset. by destruct Hi.
Qed.

Lemma handle_make_credential_counter request w0 w :
  other_command request → store_good w → gs_sequence (wk_get w) = seq_clear →
  wp (handle_make_credential request) (handle_post request w0) w.
Proof.
  intros Ho Hs Hseq. unfold handle_make_credential. wp_step. wp_step.
  assert (∀ w1, store_good w1 → wk_get w1 = wk_get w → counter_inv w1) as Hinv.
  { intros w1 Hs1 Eg1. split; [done|]. unfold sequence_current. rewrite Eg1, Hseq. by intros []. }
  destruct (make_parse_total (drop 1 (rep_payload request))) as (b & rq & -> & Hrq).
  destruct b; cbn [negb]; [|wp_step; by apply handle_post_error, Hinv].
  wp_step. unfold catch_ceremony. wp_step. wp_step.
  eapply wp_mono; [|by apply make_build_response_counter]. intros r w1 [Hs1 Eg1].
  specialize (Hinv w1 Hs1 Eg1). destruct r as [payload|e].
  - wp_step. destruct (_ =? 1); [wp_step; by apply handle_post_error|]. by apply finish_response_counter.
  - wp_step. wp_step. destruct e; wp_step; first [by apply handle_post_other | wp_step; by apply handle_post_other].
Qed.

Lemma handle_counter request w :
  counter_inv w → wp (handle request) (handle_post request w) w.
Proof.
  intros Hi. pose proof Hi as [Hs Hc]. unfold handle. wp_step.
  destruct (Z.eqb_spec (byte_at (rep_payload request) 0) 2) as [E2|E2].
  { rewrite E2. simpl. wp_step. unfold handle_get_assertion. wp_step. wp_step. wp_step. wp_step.
    destruct (get_parse_total (drop 1 (rep_payload request))) as (b & rq & Ep & Hrq). rewrite Ep.
    wp_step. wp_step. destruct b; cbn [negb].
    - apply assertion_branch; [done| |by apply get_build_response_counter].
      unfold served_request. cbv zeta. by rewrite E2, Ep.
    - wp_step. wp_step. wp_step. by apply handle_post_error, counter_inv_reset. }
  destruct (Z.eqb_spec (byte_at (rep_payload request) 0) 8) as [E8|E8].
  { rewrite E8. simpl. wp_step. unfold handle_get_next_assertion. wp_step. wp_step.
    destruct (_ || _); [wp_step; by apply handle_post_error|].
    destruct (negb _); [wp_step; wp_step; wp_step; by apply handle_post_error, counter_inv_reset|].
    apply assertion_branch; [done| |by apply get_build_response_next_counter].
    unfold served_request. cbv zeta. by rewrite E8. }
  assert (other_command request) as Ho by (by intros [|]).
  simpl. wp_step. pose proof (counter_inv_reset w Hs) as Hi1.
  destruct (_ =? 4).
  { unfold handle_getinfo. destruct (negb _); [wp_step; by apply handle_post_other|].
    destruct build_getinfo_response as [payload|e]; [by apply finish_response_counter|].
    by destruct e; wp_step; apply handle_post_other. }
  destruct (_ =? 1); [by apply handle_make_credential_counter|].
  wp_step. by apply handle_post_other.
Qed.

Lemma worker_task_counter report w :
  counter_inv w → wp (worker_task report) (handle_post report w) w.
Proof.
  intros Hi. unfold worker_task, execute_ctap_request. wp_step. wp_step. wp_step.
  assert (∀ e w1, store_good w1 →
    wp (let! _ := reset in st_throw (A:=CTAPPacket) e)
      (λ r w', match r with
         | Ret p => handle_post report w (Ret p) w'
         | Throw e => wp (st_ret (failure_packet (rep_cid report) e)) (handle_post report w) w' end) w1)
    as Hthrow.
  { intros e w1 Hs1. wp_step. wp_step. wp_step. wp_step.
    destruct e; by apply handle_post_error, counter_inv_reset. }
  wp_step; [|apply Hthrow; by destruct Hi].
  eapply wp_mono; [|by apply handle_counter]. intros [p|e'] w1 Hp; [exact Hp|].
  apply Hthrow. by destruct Hp as [[? _] _].
Qed.

Lemma counter_inv_step w w' : counter_inv w → worker_step w w' → counter_inv w'.
Proof.
  intros Hi [report| |e].
  - by apply worker_task_counter.
  - apply counter_inv_reset. by destruct Hi.
  - exact Hi.
Qed.

Lemma counter_inv_reachable w w' :
  fresh_worker w → store_good w → rtc worker_step w w' → counter_inv w'.
Proof.
  intros [_ Hg] Hs Hsteps. assert (counter_inv w) as Hi.
  { split; [done|]. unfold sequence_current. rewrite Hg. by intros []. }
  clear Hg Hs. induction Hsteps; eauto using counter_inv_step.
Qed.
End counters.

(** ** An instance of the parameters *)

(** The environment is the answer the user gives to every question. *)
Definition example_user : UserContext :=
  mkUser 1000 (lit "alice") (Some (mkSession (lit "c2") (lit ":1.5") 1)).

Definition toy_random (n : Z) : ST UserInteractionResult (list Z) :=
  if n <? 0 then st_throw length_error else st_ret (replicate (Z.to_nat n) 5).

#[global] Program Instance toy_ceremony : CeremonyEnv := {|
  Env := UserInteractionResult;
  poll_stop e := (false, e);
  clock_now e := (0, e);
  ui_current_context := st_ret example_user;
  ui_request_presence _ _ := st_get;
  ui_request_verification _ _ := st_get;
  provider_create _ := st_ret (mkKey [1; 2] [3; 4]);
  provider_sign _ digest _ _ := st_ret (9 :: digest);
  openssl_random_bytes := toy_random;
  sha256 l := Ret (take 32 (l ++ replicate 32 0));
  extractPublic _ := Ret ([1], [2]);
  option_order := map_to_list;
|}.
Next Obligation.
  intros l d [= <-]. rewrite length_take_le; [done|]. rewrite length_app. simpl. lia.
Qed.
Next Obligation. done. Qed.
Next Obligation. intros e u e' [= <- <-]. simpl. lia. Qed.
Next Obligation.
  intros n e b e'. unfold toy_random. destruct (n <? 0) eqn:E; [done|]. intros [= <- <-].
  apply Z.ltb_ge in E. split; [by apply Forall_replicate; lia|]. rewrite length_replicate. lia.
Qed.
Next Obligation. intros id e k e' [= <- <-]. split; repeat constructor; lia. Qed.

Definition example_worker : Worker := mkWorker (ui_approved : Env) example_world get_state_clear [].
Definition command_report (command : Z) (body : list Z) : UHIDReport :=
  mkUHIDReport 7 CTAPHID_CBOR (len (command :: body)) (command :: body) 0.

(** Alice registers, then authenticates. *)
Definition example_registered : Worker :=
  (worker_task (command_report 1 example_make_bytes) example_worker).2.
Definition example_authenticated : Worker :=
  (worker_task (command_report 2 example_get_bytes) example_registered).2.

(** What the two ceremonies asked and signed: the digests are those of messages that claim
    presence (and attested data) and presence and verification. *)
Definition example_id : list Z := replicate 32 5.

Example example_trace :
  ∃ d1 d2, wk_trace example_authenticated =
    [ReadContext (Ret example_user);
     AskedPresence example_user (mkUIRequest make_credential (lit "example.org") 0) (Ret ui_approved);
     Signed example_id d1 [3; 4] [1; 2] (Ret (9 :: d1));
     ReadContext (Ret example_user);
     AskedVerification example_user (mkUIRequest get_assertion (lit "example.org") 0) (Ret ui_approved);
     Signed example_id d2 [3; 4] [1; 2] (Ret (9 :: d2))].
Proof. eexists _, _. vm_compute. reflexivity. Qed.

(** ** Properties *)

(** C1: Nothing is signed as approved that the user did not approve.  In every execution
    of the worker, whatever the requests, the environment and the store do: a digest that is
    passed to the key provider to be signed is the SHA-256 of a message that starts with
    authenticator data, and these claim no more than the user agreed to.  If their flags claim
    user presence, an approval of the same operation (a registration if they carry attested
    credential data, otherwise an assertion), for the relying party whose hash they carry, by
    the user (account, session and agent registration) whose context was read last, came
    before; if they claim user verification, an approved verification; those of a
    registration always claim presence. *)
Theorem signatures_need_consent `{CeremonyEnv} `{StoreEnv} `{TinyCbor} `{TinyCborEncoder} w w' t1
    id digest public_blob private_blob r t2 :
  fresh_worker w → rtc worker_step w w' →
  wk_trace w' = t1 ++ Signed id digest public_blob private_blob r :: t2 →
  ∃ user rp message,
    last_context t1 = Some (Ret user) ∧
    sha256 message = Ret digest ∧ (37 ≤ length message)%nat ∧
    sha256 rp = Ret (auth_rp_hash message) ∧
    let flags := auth_flags message in
    let operation := if Z.testbit flags FLAG_AT then make_credential else get_assertion in
    (operation = make_credential → Z.testbit flags FLAG_UP = true) ∧
    (Z.testbit flags FLAG_UP = true → ∃ e, e ∈ t1 ∧ approved operation (binding user) rp false e) ∧
    (Z.testbit flags FLAG_UV = true → ∃ e, e ∈ t1 ∧ approved operation (binding user) rp true e).
Proof.
  intros Hf Hs E. destruct (consent_inv_reachable w w' Hf Hs) as [Hc _].
  exact (Hc _ _ _ E).
Qed.

Lemma example_steps : rtc worker_step example_worker example_authenticated.
Proof.
  eapply rtc_l; [apply (step_task example_worker)|]. apply rtc_once.
  apply (step_task example_registered).
Qed.

Lemma example_fresh : fresh_worker example_worker.
Proof. done. Qed.

(** Alice's assertion: its message claims presence and verification. *)
Lemma signatures_need_consent_witness :
  ∃ d2, wk_trace example_authenticated = take 5 (wk_trace example_authenticated) ++
      [Signed example_id d2 [3; 4] [1; 2] (Ret (9 :: d2))] ∧
    ∃ user rp message, last_context (take 5 (wk_trace example_authenticated)) = Some (Ret user) ∧
      sha256 message = Ret d2 ∧ sha256 rp = Ret (auth_rp_hash message).
Proof.
  set (d2 := match (last (wk_trace example_authenticated)) with
             | Some (Signed _ d _ _ _) => d | _ => [] end).
  assert (wk_trace example_authenticated = take 5 (wk_trace example_authenticated) ++
      [Signed example_id d2 [3; 4] [1; 2] (Ret (9 :: d2))]) as E by (vm_compute; reflexivity).
  exists d2. split; [exact E|].
  destruct (signatures_need_consent example_worker example_authenticated
    (take 5 (wk_trace example_authenticated)) example_id d2 [3; 4] [1; 2] (Ret (9 :: d2)) []
    example_fresh example_steps E) as (user & rp & message & H1 & H2 & _ & H3 & _).
  exists user, rp, message. exact (conj H1 (conj H2 H3)).
Defined.

(** C2: A successful assertion uses a credential of the user whose context was read, for
    the relying party of the request, and signs a fresh counter value.  The response is the
    CBOR map with that credential's descriptor, authenticator data of 37 bytes and a
    signature; the signature is what the key provider returned for the credential's key
    and the SHA-256 of exactly these authenticator data followed by the request's client
    data hash; the authenticator data carry the hash of the requested relying party and, in
    their counter field, exactly one more than the stored value, without wrapping around;
    that value is stored, with nothing else changed, before the response is sent.  This holds
    for the first assertion and for every continuation (whose request is the one that the
    handler keeps), in every execution of the worker. *)
Theorem assertion_counter_fresh `{CeremonyEnv} `{StoreEnv} `{TinyCbor} `{TinyCborEncoder} w w1 report p w2 :
  fresh_worker w → store_good w → rtc worker_step w w1 →
  byte_at (rep_payload report) 0 = 2 ∨ byte_at (rep_payload report) 0 = 8 →
  worker_task report w1 = (Ret p, w2) → len (pkt_payload p) ≠ 1 →
  ∃ rq, served_request report w1 = Some rq ∧ asserted rq (pkt_payload p) w1 w2.
Proof.
  intros Hf Hs Hsteps Hcmd Hrun Hp.
  pose proof (worker_task_counter report w1 (counter_inv_reachable w w1 Hf Hs Hsteps)) as Hw.
  unfold wp in Hw. rewrite Hrun in Hw. destruct Hw as [_ Ha]. by apply Ha.
Qed.

Lemma example_store_good : store_good example_worker.
Proof. split; [apply storage_ok_empty|]. split; vm_compute; congruence. Qed.

Definition example_packet : CTAPPacket :=
  match (worker_task (command_report 2 example_get_bytes) example_registered).1 with
  | Ret p => p | Throw _ => make_cbor_error 0 0
  end.

Lemma assertion_counter_fresh_witness :
  ∃ rq, served_request (command_report 2 example_get_bytes) example_registered = Some rq ∧
    asserted rq (pkt_payload example_packet) example_registered example_authenticated.
Proof.
  assert ((worker_task (command_report 2 example_get_bytes) example_registered).1 =
    Ret example_packet) as E by (vm_compute; reflexivity).
  eapply (assertion_counter_fresh example_worker example_registered
    (command_report 2 example_get_bytes)).
  - exact example_fresh.
  - exact example_store_good.
  - apply rtc_once, (step_task example_worker).
  - left. reflexivity.
  - unfold example_authenticated. rewrite (surjective_pairing (worker_task _ _)) at 1.
    rewrite E. reflexivity.
  - vm_compute. discriminate.
Defined.

(** C13: Every request is answered: whatever happens during a ceremony -- cancellation,
    timeout, lost agent, TPM, store or encoding failures -- the worker reports exactly one
    packet, addressed to the requesting channel, and that packet can always be framed. *)
Theorem every_request_answered `{CeremonyEnv} `{StoreEnv} `{TinyCbor} `{TinyCborEncoder} report w :
  ∃ p w' frames, worker_task report w = (Ret p, w') ∧ pkt_cid p = rep_cid report ∧
    pkt_cmd p = Z.lor CTAPHID_CBOR MASK ∧ stringify p = Ret frames.
Proof.
  destruct (worker_task_answered report w) as (p & w' & Hrun & Hcid & Hcmd & Hlen & Hmax).
  assert (∃ frames, stringify p = Ret frames) as [frames Hfr].
  { unfold stringify. rewrite Hlen, Z.eqb_refl, (proj2 (Z.ltb_ge _ _) Hmax). cbn [negb].
    destruct (fill_to_64 _ _ _). by eexists. }
  by exists p, w', frames.
Qed.

Lemma every_request_answered_witness :
  ∃ p w' frames, worker_task (command_report 8 []) example_worker = (Ret p, w') ∧
    pkt_cid p = 7 ∧ pkt_cmd p = Z.lor CTAPHID_CBOR MASK ∧ stringify p = Ret frames.
Proof. apply (every_request_answered (command_report 8 []) example_worker). Defined.

(** Calls of [next], with their answers. *)
Fixpoint seq_run (s : AssertionSequence) (calls : list (Z * UserContext * Z))
    : list (option StoredCredential) * AssertionSequence :=
  match calls with
  | [] => ([], s)
  | (cid, user, now) :: calls =>
      let '(r, s) := seq_next cid user now s in
      let '(rs, s) := seq_run s calls in
      (r :: rs, s)
  end.

(** What a sequence can still hand out. *)
Definition pending (s : AssertionSequence) : list StoredCredential :=
  if sq_originCid s =? 0 then [] else live s.

Lemma seq_run_prefix s calls : omap id (seq_run s calls).1 `prefix_of` pending s.
Proof.
  revert s. induction calls as [|[[cid user] now] calls IH]; intros s; [apply prefix_nil|].
  simpl. destruct (seq_next cid user now s) as [r s1] eqn:En.
  specialize (IH s1). destruct (seq_run s1 calls) as [rs s2]. simpl in *.
  destruct r as [c|]; simpl.
  - apply seq_next_some in En as (Hne & Ho & _ & _ & Hc & Hs1). unfold pending at 1, live.
    rewrite (proj2 (Z.eqb_neq _ _)) by congruence. rewrite (drop_S _ _ _ Hc).
    apply prefix_cons. destruct Hs1 as [->|[_ ->]].
    + etrans; [exact IH|apply prefix_nil].
    + unfold pending, live in IH. simpl in IH.
      by rewrite (proj2 (Z.eqb_neq _ _)) in IH by congruence.
  - apply seq_next_none in En as [->| ->]; [|done].
    etrans; [exact IH|apply prefix_nil].
Qed.

(** A sequence in use: a channel, an owner, and credentials left. *)
Definition running (cid : Z) (user : UserContext) (last : Z) (l : list StoredCredential)
    (s : AssertionSequence) : Prop :=
  sq_originCid s = cid ∧ sq_ownerContext s = Some (binding user) ∧ sq_lastUse s = last ∧
  drop (sq_index s) (sq_credentials s) = l.

Lemma seq_next_running cid user last now c l s :
  cid ≠ 0 → running cid user last (c :: l) s → now - last ≤ SEQUENCE_TIMEOUT →
  ∃ s', seq_next cid user now s = (Some c, s') ∧
    if decide (l = []) then s' = seq_clear else running cid user now l s'.
Proof.
  intros Hne (Ho & Hw & Hl & Hd) Ht.
  assert (sq_credentials s !! sq_index s = Some c) as Hc.
  { rewrite <- (Nat.add_0_r (sq_index s)), <- lookup_drop, Hd. done. }
  assert (drop (S (sq_index s)) (sq_credentials s) = l) as Hl'.
  { rewrite (drop_S _ _ _ Hc) in Hd. by injection Hd. }
  pose proof (lookup_lt_Some _ _ _ Hc) as Hlt.
  unfold seq_next. rewrite Ho, Hw, Hc, Hl, (proj2 (Z.eqb_neq _ _) Hne), Z.eqb_refl.
  rewrite bool_decide_eq_true_2 by done. cbn [negb andb orb].
  rewrite (proj2 (Z.ltb_ge _ _) Ht), (proj2 (Nat.leb_gt _ _) Hlt). cbn [orb].
  eexists. split; [done|]. apply (f_equal length) in Hl' as Hlen. rewrite length_drop in Hlen.
  destruct (decide (l = [])) as [->|Hnil].
  - simpl in Hlen. by rewrite (proj2 (Nat.eqb_eq _ _)) by lia.
  - destruct l as [|d l]; [done|]. simpl in Hlen.
    rewrite (proj2 (Nat.eqb_neq _ _)) by lia. by split_and!.
Qed.

(** Calls that keep to the channel, the user and the time limit. *)
Fixpoint timely (cid : Z) (user : UserContext) (last : Z) (calls : list (Z * UserContext * Z)) : Prop :=
  match calls with
  | [] => True
  | (c, u, now) :: calls => c = cid ∧ u = user ∧ now - last ≤ SEQUENCE_TIMEOUT ∧
      timely cid user now calls
  end.

Lemma seq_run_timely cid user last l s calls :
  cid ≠ 0 → l ≠ [] → running cid user last l s → timely cid user last calls →
  length calls = length l → seq_run s calls = (Some <$> l, seq_clear).
Proof.
  intros Hne. revert last l s. induction calls as [|[[c u] now] calls IH];
    intros last l s Hnil Hrun Htimely Hlen; destruct l as [|d l]; try done.
  destruct Htimely as (-> & -> & Ht & Htimely). injection Hlen as Hlen.
  destruct (seq_next_running _ _ _ _ _ _ _ Hne Hrun Ht) as (s' & En & Hs'). simpl. rewrite En.
  destruct (decide (l = [])) as [->|Hl].
  - subst s'. by destruct calls.
  - by rewrite (IH now l s').
Qed.

(** A continuation hands out the remaining credentials in order, each at most once:
    whatever calls arrive, the answered ones get a prefix of the credentials the sequence
    was begun with, and an answered call is from the channel and the user it was begun for
    and at most 30 seconds after the last use; calls that keep to this get all of them,
    after which the sequence is over. *)
Theorem continuation_sequence cid user l t0 s :
  cid ≠ 0 → l ≠ [] → seq_begin cid user l t0 = Ret s →
  (∀ calls, omap id (seq_run s calls).1 `prefix_of` l) ∧
  (∀ c u now x s' s1, seq_next c u now s1 = (Some x, s') →
     c = sq_originCid s1 ∧ sq_ownerContext s1 = Some (binding u) ∧
     now - sq_lastUse s1 ≤ SEQUENCE_TIMEOUT) ∧
  (∀ calls, timely cid user t0 calls → length calls = length l →
     seq_run s calls = (Some <$> l, seq_clear)).
Proof.
  intros Hne Hl Hb. unfold seq_begin in Hb. rewrite (proj2 (Z.eqb_neq _ _) Hne) in Hb.
  rewrite (proj2 (Z.eqb_neq _ _)) in Hb by (destruct l; simpl; [done|lia]). cbn [orb] in Hb.
  destruct (existsb _ _); [done|]. injection Hb as <-. split; [|split].
  - intros calls. pose proof (seq_run_prefix (mkSeq l 0 cid (Some (binding user)) t0) calls) as Hp.
    unfold pending, live in Hp. simpl in Hp.
    by rewrite (proj2 (Z.eqb_neq _ _) Hne), drop_0 in Hp.
  - intros c u now x s' s1 E. apply seq_next_some in E as (_ & -> & ? & ? & _). done.
  - intros calls Ht Hlen. by apply (seq_run_timely cid user t0 l).
Qed.

Lemma continuation_sequence_witness :
  let c := mkCred [1] 1000 [] [] [] [] (-7) 0 [] [] true 1 in
  ∃ s, seq_begin 7 example_user [c; c] 0 = Ret s ∧
    seq_run s [(7, example_user, seconds 30); (7, example_user, seconds 60)] =
      ([Some c; Some c], seq_clear).
Proof.
  intros c. eexists. split; [reflexivity|].
  refine (proj2 (proj2 (continuation_sequence 7 example_user [c; c] 0 _ _ _ eq_refl))
    [(7, example_user, seconds 30); (7, example_user, seconds 60)] _ _).
  - discriminate.
  - discriminate.
  - repeat split; vm_compute; congruence.
  - reflexivity.
Defined.
