(* ===== verification/EventLoop.v ===== *)
(** * The daemon's event loop (src/src/event.cpp, src/src/keepalive.hpp)

    One thread reads HID frames, answers the transport commands itself and hands CBOR
    commands to a worker thread, at most one at a time.  The state is what [run] keeps in
    its local variables.  An iteration of its loop has two halves, before and after the
    result of the worker is taken over; each is a function of what poll, the device and
    the clock deliver.  The worker's own actions (setting the keepalive status, posting its
    result) are steps that may happen before each half: within a half the loop takes over
    the result at most once, under the mutex.  A trace records what happened. *)
From Stdlib Require Import ZArith Lia.
From stdpp Require Import base list gmap strings relations.
From S2P Require Import Prelude Packet FrameProcessor.

Inductive KeepaliveStatus := ka_processing | ka_up_needed.

Definition keepalive_code (s : KeepaliveStatus) : Z :=
  match s with ka_processing => 1 | ka_up_needed => 2 end.

Record ActiveTask := mkActive {
  at_generation : Z;
  at_cid : Z;
  at_next_keepalive : Z;
  at_cancel_requested : bool;
  at_discard_result : bool;
}.

Record TaskResult := mkResult { tr_generation : Z; tr_cid : Z; tr_packet : CTAPPacket }.

(** The worker thread: its task, whether a stop was requested, whether it has posted its
    result; [keepalive] is the status it shares with the loop. *)
Record WorkerThread := mkThread {
  th_generation : Z;
  th_request : UHIDReport;
  th_stop : bool;
  th_done : bool;
  th_keepalive : KeepaliveStatus;
}.

Inductive loop_event :=
  | Sent (p : CTAPPacket)                        (** the loop sends a packet *)
  | Started (generation cid : Z)                 (** the loop starts a worker *)
  | StopRequested (generation : Z) (discard : bool)  (** the loop asks it to stop *)
  | Posted (generation : Z) (p : CTAPPacket)     (** the worker posts its result *)
  | HandlerReset.                                (** the loop resets the command handler *)

#[global] Instance loop_event_eq_dec : EqDecision loop_event.
Proof. solve_decision. Defined.

Record Loop := mkLoop {
  lp_allocated : gset Z;
  lp_completion : option TaskResult;
  lp_active : option ActiveTask;
  lp_next_generation : Z;
  lp_worker : option WorkerThread;
  lp_incoming : option IncomingTransaction;
  lp_trace : list loop_event;
}.

Definition loop_initial : Loop := mkLoop ∅ None None 1 None None [].

(** What one turn of the loop finds.  [dv_output] is a UHID_OUTPUT event with its data,
    [dv_other] another event, [dv_failed] a failed read.  [in_random] is what arc4random
    delivers, and [in_send_ok] whether the device takes all frames of a packet. *)
Inductive device_event := dv_none | dv_failed | dv_other | dv_output (data : list Z).

Record Input := mkInput {
  in_device : device_event;
  in_expire_now : Z;
  in_frame_now : Z;
  in_start_now : Z;
  in_keepalive_now : Z;
  in_random : list Z;
  in_send_ok : CTAPPacket → bool;
}.

(** ** Small steps *)

Definition upd_active (a : option ActiveTask) (l : Loop) : Loop :=
  mkLoop (lp_allocated l) (lp_completion l) a (lp_next_generation l) (lp_worker l)
    (lp_incoming l) (lp_trace l).
Definition upd_worker (t : option WorkerThread) (l : Loop) : Loop :=
  mkLoop (lp_allocated l) (lp_completion l) (lp_active l) (lp_next_generation l) t
    (lp_incoming l) (lp_trace l).
Definition upd_completion (c : option TaskResult) (l : Loop) : Loop :=
  mkLoop (lp_allocated l) c (lp_active l) (lp_next_generation l) (lp_worker l)
    (lp_incoming l) (lp_trace l).
Definition upd_incoming (i : option IncomingTransaction) (l : Loop) : Loop :=
  mkLoop (lp_allocated l) (lp_completion l) (lp_active l) (lp_next_generation l) (lp_worker l)
    i (lp_trace l).
Definition upd_allocated (s : gset Z) (l : Loop) : Loop :=
  mkLoop s (lp_completion l) (lp_active l) (lp_next_generation l) (lp_worker l)
    (lp_incoming l) (lp_trace l).
Definition log_event (e : loop_event) (l : Loop) : Loop :=
  mkLoop (lp_allocated l) (lp_completion l) (lp_active l) (lp_next_generation l) (lp_worker l)
    (lp_incoming l) (lp_trace l ++ [e]).

(** [send_packet] *)
Definition send_packet (inp : Input) (p : CTAPPacket) : ST Loop () := λ l,
  match frame_packet p with
  | Throw e => (Throw e, l)
  | Ret _ => if in_send_ok inp p then (Ret (), log_event (Sent p) l) else (Throw runtime_error, l)
  end.

Definition keepalive_packet (cid : Z) (status : KeepaliveStatus) : CTAPPacket :=
  let payload := [keepalive_code status] in
  mkCTAPPacket cid (Z.lor CTAPHID_KEEPALIVE MASK) (u16 (len payload)) payload.

(** [worker.request_stop()] *)
Definition stopped (t : WorkerThread) : WorkerThread :=
  mkThread (th_generation t) (th_request t) true (th_done t) (th_keepalive t).
Definition request_stop (generation : Z) (discard : bool) : ST Loop () :=
  st_modify (λ l, log_event (StopRequested generation discard)
                    (upd_worker (stopped <$> lp_worker l) l)).

(** [command_handler.reset()] from the loop *)
Definition reset_handler : ST Loop () := st_modify (log_event HandlerReset).

(** The [do ... while] loop over the random candidates; [None] when it is still drawing. *)
Fixpoint allocate_cid (candidates : list Z) (allocated_cids : gset Z) : option (Z * gset Z) :=
  match candidates with
  | [] => None
  | candidate :: candidates =>
      if (candidate =? CTAPHID_BROADCAST_CID) || (candidate =? CTAPHID_INVALID_CID) ||
         bool_decide (candidate ∈ allocated_cids)
      then allocate_cid candidates allocated_cids
      else Some (candidate, {[candidate]} ∪ allocated_cids)
  end.

Definition milliseconds_until (deadline now : Z) : Z :=
  if deadline <=? now then 0
  else Z.min (- (- (deadline - now) / milliseconds 1)) 2147483647.

(** The timeout of the next poll; [-1] waits without a limit. *)
Definition poll_timeout (active : option ActiveTask) (incoming : option IncomingTransaction)
    (now now' : Z) : Z :=
  let timeout := match active with
                 | Some a => if at_cancel_requested a then 20
                             else milliseconds_until (at_next_keepalive a) now
                 | None => -1
                 end in
  match fp_deadline incoming with
  | Some deadline =>
      let assembly_timeout := milliseconds_until deadline now' in
      if (timeout <? 0) || (assembly_timeout <? timeout) then assembly_timeout else timeout
  | None => timeout
  end.

(** ** Reports *)

(** Each branch returns whether the iteration ends here ([continue]). *)
Definition reply (inp : Input) (p : CTAPPacket) : ST Loop bool :=
  let! _ := send_packet inp p in st_ret true.
Definition refuse (inp : Input) (request : UHIDReport) (e : HIDError) : ST Loop bool :=
  reply inp (make_hid_error (rep_cid request) e).

Definition on_cancel (request : UHIDReport) : ST Loop bool :=
  let! l := st_get in
  match lp_active l with
  | Some a =>
      if (at_cid a =? rep_cid request) && negb (at_discard_result a) then
        let! _ := st_modify (upd_active (Some (mkActive (at_generation a) (at_cid a)
          (at_next_keepalive a) true (at_discard_result a)))) in
        let! _ := request_stop (at_generation a) (at_discard_result a) in
        st_ret true
      else st_ret true
  | None => st_ret true
  end.

Definition on_init (inp : Input) (request : UHIDReport) : ST Loop bool :=
  let! l := st_get in
  if len (rep_payload request) =? 0 then refuse inp request HID_ERR_INVALID_LENGTH else
  if match lp_active l with Some a => negb (rep_cid request =? at_cid a) | None => false end
  then refuse inp request HID_ERR_CHANNEL_BUSY else
  if rep_cid request =? CTAPHID_BROADCAST_CID then
    match allocate_cid (in_random inp) (lp_allocated l) with
    | None => st_throw runtime_error
    | Some (assigned_cid, allocated) =>
        let! _ := st_modify (upd_allocated allocated) in
        reply inp (handle_init request assigned_cid)
    end
  else if negb (bool_decide (rep_cid request ∈ lp_allocated l))
  then refuse inp request HID_ERR_INVALID_CHANNEL
  else
    let! _ := match lp_active l with
              | Some a =>
                  if at_cid a =? rep_cid request then
                    let! _ := st_modify (upd_active (Some (mkActive (at_generation a) (at_cid a)
                      (at_next_keepalive a) true true))) in
                    request_stop (at_generation a) true
                  else reset_handler
              | None => reset_handler
              end in
    reply inp (handle_init request (rep_cid request)).

(** The worker starts: a new task, its thread and its keepalive timer. *)
Definition start_task (inp : Input) (request : UHIDReport) : ST Loop () :=
  st_modify (λ l,
    let generation := lp_next_generation l in
    mkLoop (lp_allocated l) (lp_completion l)
      (Some (mkActive generation (rep_cid request) (in_start_now inp + milliseconds 100) false false))
      (u64 (generation + 1))
      (Some (mkThread generation request false false ka_processing))
      (lp_incoming l) (lp_trace l ++ [Started generation (rep_cid request)])).

Definition on_report (inp : Input) (request : UHIDReport) : ST Loop bool :=
  if rep_cmd request =? CTAPHID_CANCEL then on_cancel request else
  if rep_cmd request =? CTAPHID_INIT then on_init inp request else
  let! l := st_get in
  if negb (bool_decide (rep_cid request ∈ lp_allocated l))
  then refuse inp request HID_ERR_INVALID_CHANNEL else
  if bool_decide (is_Some (lp_active l)) then refuse inp request HID_ERR_CHANNEL_BUSY else
  if rep_cmd request =? CTAPHID_PING then reply inp (handle_ping request) else
  if rep_cmd request =? CTAPHID_CBOR then
    if len (rep_payload request) =? 0 then refuse inp request HID_ERR_INVALID_LENGTH else
    let! _ := start_task inp request in
    st_ret false
  else refuse inp request HID_ERR_INVALID_COMMAND.

Definition on_frame (inp : Input) (data : list Z) : ST Loop bool :=
  let! l := st_get in
  let '(incoming, result) := process (lp_incoming l) data (at_cid <$> lp_active l)
    (lp_allocated l) (in_frame_now inp) in
  let! _ := st_modify (upd_incoming incoming) in
  match result with
  | FrameError cid e => reply inp (make_hid_error cid e)
  | Completed request => on_report inp request
  | Monostate => st_ret false
  end.

(** ** The end of an iteration *)

(** [ready.swap(completion)], and the active task's result if it is its own.  [join]
    returns because the worker has posted its result. *)
Definition collect_result (inp : Input) : ST Loop () :=
  let! l := st_get in
  let ready := lp_completion l in
  let! _ := st_modify (upd_completion None) in
  match ready, lp_active l with
  | Some r, Some a =>
      if tr_generation r =? at_generation a then
        let! _ := st_modify (upd_worker None) in
        let! _ := (if negb (at_discard_result a) then send_packet inp (tr_packet r)
                   else reset_handler) in
        st_modify (upd_active None)
      else st_ret ()
  | _, _ => st_ret ()
  end.

Definition send_keepalive (inp : Input) : ST Loop () :=
  let! l := st_get in
  match lp_active l with
  | Some a =>
      if (at_next_keepalive a <=? in_keepalive_now inp) && negb (at_cancel_requested a) then
        let status := match lp_worker l with Some t => th_keepalive t | None => ka_processing end in
        let! _ := send_packet inp (keepalive_packet (at_cid a) status) in
        st_modify (upd_active (Some (mkActive (at_generation a) (at_cid a)
          (in_keepalive_now inp + milliseconds 100) (at_cancel_requested a) (at_discard_result a))))
      else st_ret ()
  | None => st_ret ()
  end.

(** [frame_processor.expire(now)] and its error packet *)
Definition expire_assembly (inp : Input) : ST Loop () :=
  let! l := st_get in
  let '(incoming, timeout_error) := expire (lp_incoming l) (in_expire_now inp) in
  let! _ := st_modify (upd_incoming incoming) in
  match timeout_error with
  | Some (cid, e) => send_packet inp (make_hid_error cid e)
  | None => st_ret ()
  end.

(** The first half of an iteration, after poll; it returns whether the loop continues with
    the next iteration at once. *)
Definition receive (inp : Input) : ST Loop bool :=
  let! _ := expire_assembly inp in
  match in_device inp with
  | dv_none | dv_other => st_ret false
  | dv_failed => st_ret true
  | dv_output data => on_frame inp data
  end.

(** The second half. *)
Definition conclude (inp : Input) : ST Loop () :=
  let! _ := collect_result inp in
  send_keepalive inp.

(** The shutdown signal: the worker, if there is one, is asked to stop and joined. *)
Definition begin_shutdown (l : Loop) : Loop := upd_worker (stopped <$> lp_worker l) l.
Definition joinable (l : Loop) : bool :=
  match lp_worker l with Some t => th_done t | None => true end.

(** The worker posts its result (the end of the thread's lambda). *)
Definition worker_posts (packet : CTAPPacket) (t : WorkerThread) (l : Loop) : Loop :=
  log_event (Posted (th_generation t) packet)
    (upd_worker (Some (mkThread (th_generation t) (th_request t) (th_stop t) true (th_keepalive t)))
       (upd_completion (Some (mkResult (th_generation t) (rep_cid (th_request t)) packet)) l)).

(** The worker sets the keepalive status ([KeepaliveState::set]). *)
Definition worker_sets_keepalive (s : KeepaliveStatus) (t : WorkerThread) (l : Loop) : Loop :=
  upd_worker (Some (mkThread (th_generation t) (th_request t) (th_stop t) (th_done t) s)) l.

(** ** The interface to the worker

    What the loop relies on: the packets the worker's body may report for a request are
    CBOR responses to the request's channel that can be framed. *)
Class TaskBody := {
  task_answers : UHIDReport → CTAPPacket → Prop;
  task_answers_spec request p :
    task_answers request p →
    pkt_cid p = rep_cid request ∧ pkt_cmd p = Z.lor CTAPHID_CBOR MASK ∧
    len (pkt_payload p) = pkt_len p ∧ pkt_len p ≤ CTAPHID_MAX_PAYLOAD_SIZE
}.

(** ** Executions *)

Inductive phase := Polling | Collecting | Joining | Stopped.

#[global] Instance phase_eq_dec : EqDecision phase.
Proof. solve_decision. Defined.

Section executions.
Context `{TaskBody}.

(** The device delivers bytes; a call of [run] that throws has no further steps. *)
Definition input_ok (inp : Input) : Prop :=
  match in_device inp with dv_output data => bytes_ok data | _ => True end ∧
  Forall (λ c, is_u32 c) (in_random inp).

Inductive loop_step : phase * Loop → phase * Loop → Prop :=
  | step_continue inp l l' :
      input_ok inp → receive inp l = (Ret true, l') → loop_step (Polling, l) (Polling, l')
  | step_proceed inp l l' :
      input_ok inp → receive inp l = (Ret false, l') → loop_step (Polling, l) (Collecting, l')
  | step_conclude inp l l' :
      conclude inp l = (Ret (), l') → loop_step (Collecting, l) (Polling, l')
  | step_shutdown l : loop_step (Polling, l) (Joining, begin_shutdown l)
  | step_joined l : joinable l = true → loop_step (Joining, l) (Stopped, upd_worker None l)
  | step_posts ph t packet l :
      lp_worker l = Some t → th_done t = false → task_answers (th_request t) packet →
      loop_step (ph, l) (ph, worker_posts packet t l)
  | step_keepalive ph t s l :
      lp_worker l = Some t → th_done t = false →
      loop_step (ph, l) (ph, worker_sets_keepalive s t l).

Definition reachable (ph : phase) (l : Loop) : Prop :=
  rtc loop_step (Polling, loop_initial) (ph, l).
End executions.
