(* ===== verification/EventLoopProofs.v ===== *)
(** * The event loop serves one request at a time (proofs about EventLoop.v)

    An abstract specification of the loop (a session is idle or serves one request), the
    proof that every execution refines it, and what follows for the packets on the wire and
    for the command handler that the two threads share.  The worker is known through the
    interface [TaskBody], which the ceremonies implement. *)
From Stdlib Require Import ZArith Lia.
From stdpp Require Import base list gmap strings relations.
From S2P Require Import Prelude Packet FrameProcessor CredentialStore CborRequests.
From S2P Require Import CborResponses Ceremony CeremonyProofs EventLoop.

(** ** The specification *)

Inductive session :=
  | Idle
  | Serving (generation cid : Z) (cancelled discarded : bool) (result : option CTAPPacket).

Definition is_response (p : CTAPPacket) : bool := pkt_cmd p =? Z.lor CTAPHID_CBOR MASK.
Definition is_keepalive (p : CTAPPacket) : bool := pkt_cmd p =? Z.lor CTAPHID_KEEPALIVE MASK.

(** The events a session allows.  A response is the worker's result, sent to the channel
    that asked, unless the request was abandoned; then the result is dropped and the
    handler reset.  Keepalives go to the channel being served, until it is cancelled. *)
Definition session_step (s : session) (e : loop_event) : option session :=
  match s with
  | Idle =>
      match e with
      | Started g cid => Some (Serving g cid false false None)
      | Sent p => if is_response p || is_keepalive p then None else Some Idle
      | HandlerReset => Some Idle
      | _ => None
      end
  | Serving g cid cancelled discarded result =>
      match e with
      | Started _ _ => None
      | Sent p =>
          if is_response p then
            if bool_decide (result = Some p) && (pkt_cid p =? cid) && negb discarded
            then Some Idle else None
          else if is_keepalive p then
            if (pkt_cid p =? cid) && negb cancelled then Some s else None
          else Some s
      | StopRequested g' discard =>
          if g =? g' then Some (Serving g cid true (discarded || discard) result) else None
      | Posted g' p =>
          if (g =? g') && bool_decide (result = None)
          then Some (Serving g cid cancelled discarded (Some p)) else None
      | HandlerReset =>
          if discarded && bool_decide (is_Some result) then Some Idle else None
      end
  end.

Fixpoint session_run (s : session) (t : list loop_event) : option session :=
  match t with
  | [] => Some s
  | e :: t => match session_step s e with Some s => session_run s t | None => None end
  end.

(** The session a state of the loop stands for. *)
Definition session_of (l : Loop) : session :=
  match lp_active l with
  | None => Idle
  | Some a => Serving (at_generation a) (at_cid a) (at_cancel_requested a) (at_discard_result a)
                (tr_packet <$> lp_completion l)
  end.

Lemma session_run_app s t1 t2 :
  session_run s (t1 ++ t2) = s' ← session_run s t1; session_run s' t2.
Proof.
  revert s. induction t1 as [|e t1 IH]; intros s; [done|]. simpl.
  destruct (session_step s e); [apply IH|done].
Qed.

Lemma session_run_snoc s t e s1 :
  session_run s t = Some s1 → session_run s (t ++ [e]) = session_step s1 e.
Proof. intros E. rewrite session_run_app, E. simpl. by destruct (session_step s1 e). Qed.

Lemma session_run_split s t1 e t2 s' :
  session_run s (t1 ++ e :: t2) = Some s' →
  ∃ s1 s2, session_run s t1 = Some s1 ∧ session_step s1 e = Some s2.
Proof.
  rewrite session_run_app. destruct (session_run s t1) as [s1|]; [|done]. simpl.
  destruct (session_step s1 e) as [s2|] eqn:E; [|done]. by exists s1, s2.
Qed.

(** ** Reading a session off its trace *)

(** Nothing that begins or ends a request. *)
Definition quiet (e : loop_event) : Prop :=
  match e with
  | Started _ _ | HandlerReset => False
  | Sent p => is_response p = false
  | _ => True
  end.

(** The history of the request being served. *)
Lemma session_history t g cid cancelled discarded result :
  session_run Idle t = Some (Serving g cid cancelled discarded result) →
  ∃ t0 mid, t = t0 ++ Started g cid :: mid ∧ session_run Idle t0 = Some Idle ∧
    Forall quiet mid ∧
    (cancelled = false → ∀ d, StopRequested g d ∉ mid) ∧
    (discarded = false → StopRequested g true ∉ mid) ∧
    (∀ p, result = Some p → Posted g p ∈ mid).
Proof.
  revert g cid cancelled discarded result.
  induction t as [|e t IH] using rev_ind; intros g cid cancelled discarded result; [done|].
  rewrite session_run_app. destruct (session_run Idle t) as [s|] eqn:Es; [|done].
  intros E. simpl in E. destruct (session_step s e) as [s'|] eqn:Ee; [|done].
  injection E as ->.
  destruct s as [|g0 cid0 ca di re]; [destruct e; simpl in Ee; try done|].
  { by destruct (is_response p || is_keepalive p). }
  { injection Ee as -> -> <- <- <-. exists t, []. split_and!; try done; intros; apply not_elem_of_nil. }
  destruct (IH _ _ _ _ _ eq_refl) as (t0 & mid & -> & Ht0 & Hq & Hc & Hd & Hr). clear IH.
  exists t0, (mid ++ [e]). rewrite <- app_assoc. setoid_rewrite elem_of_app.
  setoid_rewrite list_elem_of_singleton.
  assert (quiet e ∧ g0 = g ∧ cid0 = cid) as (Hqe & -> & ->).
  { destruct e; simpl in Ee; split_cases. }
  rewrite Forall_app, Forall_singleton. split_and!; try done; destruct e; simpl in Ee;
    split_cases; reflect_bools; subst; intros;
    reflect_bools; naive_solver.
Qed.

(** A request that is no longer waiting for its worker has got its result. *)
Lemma session_posted g cid ca di mid s' :
  session_run (Serving g cid ca di None) mid = Some s' →
  (∃ p, Posted g p ∈ mid) ∨ ∃ ca' di', s' = Serving g cid ca' di' None.
Proof.
  revert ca di. induction mid as [|e mid IH]; intros ca di E.
  { injection E as <-. right. by exists ca, di. }
  assert ((∃ p, e = Posted g p) ∨
    ∃ ca' di', session_step (Serving g cid ca di None) e = Some (Serving g cid ca' di' None))
    as [[p ->]|(ca' & di' & Es)].
  { cbn [session_run] in E. destruct e; simpl in *; split_cases; reflect_bools; simplify_eq; eauto; naive_solver. }
  - left. exists p. apply list_elem_of_here.
  - cbn [session_run] in E. rewrite Es in E. destruct (IH _ _ E) as [[p Hp]|Hs]; [left|by right].
    exists p. by apply list_elem_of_further.
Qed.

(** ** The invariant *)

(** A packet that [stringify] accepts. *)
Definition framable (p : CTAPPacket) : Prop :=
  len (pkt_payload p) = pkt_len p ∧ pkt_len p ≤ CTAPHID_MAX_PAYLOAD_SIZE.

(** The packets the loop sends on its own behalf. *)
Definition transport_packet (p : CTAPPacket) : Prop :=
  framable p ∧ is_response p = false ∧ is_keepalive p = false.

Lemma hid_error_transport cid e : transport_packet (make_hid_error cid e).
Proof. by repeat split; vm_compute. Qed.

Lemma handle_init_transport request cid : transport_packet (handle_init request cid).
Proof.
  unfold handle_init. destruct (Z.eqb_spec (len (rep_payload request)) 8) as [E|];
    [|apply hid_error_transport].
  cbn [negb]. assert (length (rep_payload request) = 8%nat) as E' by lia.
  unfold transport_packet, framable. cbn [pkt_payload pkt_len].
  rewrite !length_app, length_take, E'. by repeat split; vm_compute.
Qed.

Lemma handle_ping_transport request :
  len (rep_payload request) ≤ CTAPHID_MAX_PAYLOAD_SIZE → transport_packet (handle_ping request).
Proof.
  intros Hlen. unfold CTAPHID_MAX_PAYLOAD_SIZE in *. unfold transport_packet, framable, handle_ping.
  simpl. rewrite u16_small by lia. done.
Qed.

Lemma keepalive_framable cid s : framable (keepalive_packet cid s).
Proof. by split; vm_compute. Qed.

Section invariant.
Context `{TaskBody}.

(** The worker belongs to the active task, is stopped when the task is cancelled, and its
    result, once posted, waits in [completion]. *)
Definition task_inv (allocated : gset Z) (completion : option TaskResult)
    (active : option ActiveTask) (worker : option WorkerThread) : Prop :=
  match active, worker with
  | None, None => completion = None
  | Some a, Some t =>
      th_generation t = at_generation a ∧ rep_cid (th_request t) = at_cid a ∧
      at_cid a ∈ allocated ∧
      (at_discard_result a = true → at_cancel_requested a = true) ∧
      (at_cancel_requested a = true → th_stop t = true) ∧
      match completion with
      | None => th_done t = false
      | Some r => th_done t = true ∧ tr_generation r = at_generation a ∧
                  task_answers (th_request t) (tr_packet r)
      end
  | _, _ => False
  end.

Record loop_inv (l : Loop) : Prop := mkInv {
  inv_channels : ∀ c, c ∈ lp_allocated l →
    is_u32 c ∧ c ≠ CTAPHID_BROADCAST_CID ∧ c ≠ CTAPHID_INVALID_CID;
  inv_incoming : incoming_ok (lp_allocated l) (lp_incoming l);
  inv_session : session_run Idle (lp_trace l) = Some (session_of l);
  inv_task : task_inv (lp_allocated l) (lp_completion l) (lp_active l) (lp_worker l);
}.

Lemma loop_inv_initial : loop_inv loop_initial.
Proof. split; done. Qed.

Lemma incoming_ok_mono (s s' : gset Z) i : s ⊆ s' → incoming_ok s i → incoming_ok s' i.
Proof. intros Hs. destruct i as [tx|]; [|done]. simpl. intuition set_solver. Qed.

Lemma task_inv_mono (s s' : gset Z) c a t : s ⊆ s' → task_inv s c a t → task_inv s' c a t.
Proof. intros Hs. destruct a, t; simpl; [|done..]. intuition set_solver. Qed.

(** What an event leaves of the state. *)
Lemma log_session l e s :
  loop_inv l → session_step (session_of l) e = Some s →
  session_run Idle (lp_trace l ++ [e]) = Some s.
Proof. intros Hi Hs. by rewrite (session_run_snoc _ _ _ _ (inv_session _ Hi)). Qed.

Lemma transport_session s p : transport_packet p → session_step s (Sent p) = Some s.
Proof. intros (_ & Hr & Hk). destruct s; simpl; by rewrite Hr, Hk. Qed.

Lemma inv_sent l p : loop_inv l → transport_packet p → loop_inv (log_event (Sent p) l).
Proof.
  intros Hi Hp. destruct (Hi) as [Hc Hin Hs Ht]. split; try done. simpl.
  apply (log_session l); [done|]. by apply transport_session.
Qed.

Lemma inv_reset l : loop_inv l → lp_active l = None → loop_inv (log_event HandlerReset l).
Proof.
  intros Hi Ha. destruct (Hi) as [Hc Hin Hs Ht]. split; try done. simpl.
  apply (log_session l); [done|]. unfold session_of. cbn [lp_active log_event]. by rewrite Ha.
Qed.

Lemma inv_allocate l c :
  loop_inv l → is_u32 c → c ≠ CTAPHID_BROADCAST_CID → c ≠ CTAPHID_INVALID_CID →
  loop_inv (upd_allocated ({[c]} ∪ lp_allocated l) l).
Proof.
  intros [Hc Hin Hs Ht] ???. split; simpl.
  - intros c'. rewrite elem_of_union, elem_of_singleton. intros [->|?]; [done|by apply Hc].
  - eapply incoming_ok_mono; [|done]. set_solver.
  - done.
  - eapply task_inv_mono; [|done]. set_solver.
Qed.

Lemma inv_incoming_upd l i :
  loop_inv l → incoming_ok (lp_allocated l) i → loop_inv (upd_incoming i l).
Proof. intros [Hc Hin Hs Ht] ?. by split. Qed.

(** The loop asks the worker of the active task to stop. *)
Lemma inv_stop l a discard :
  loop_inv l → lp_active l = Some a →
  loop_inv (log_event (StopRequested (at_generation a) discard)
    (upd_worker (stopped <$> lp_worker l)
      (upd_active (Some (mkActive (at_generation a) (at_cid a) (at_next_keepalive a) true
        (at_discard_result a || discard))) l))).
Proof.
  intros Hi Ha. destruct (Hi) as [Hc Hin Hs Ht]. split; try done; simpl.
  - apply (log_session l); [done|]. unfold session_of. rewrite Ha. simpl. by rewrite Z.eqb_refl.
  - rewrite Ha in Ht. destruct (lp_worker l) as [t|]; simpl in *; [|done]. naive_solver.
Qed.

Lemma inv_start l inp request :
  loop_inv l → lp_active l = None → rep_cid request ∈ lp_allocated l →
  loop_inv (start_task inp request l).2.
Proof.
  intros Hi Ha Hin. destruct (Hi) as [Hc Hinc Hs Ht]. rewrite Ha in Ht.
  destruct (lp_worker l) eqn:Ew; [done|]. simpl in Ht.
  unfold start_task, st_modify. split; try done; simpl.
  - rewrite (session_run_snoc _ _ _ _ Hs). unfold session_of. rewrite Ha. simpl. by rewrite Ht.
  - by rewrite Ht.
Qed.

(** ** The two halves of an iteration *)

(** The only ways to leave the loop by an exception: the device does not take a packet, or
    the channel allocation is still drawing candidates. *)
Definition failing (inp : Input) (allocated : gset Z) : Prop :=
  (∃ p, in_send_ok inp p = false) ∨ allocate_cid (in_random inp) allocated = None.

(** Channels: unchanged, or one fresh channel, announced in the answer to the INIT. *)
Definition channel_step (l l' : Loop) : Prop :=
  lp_allocated l' = lp_allocated l ∨
  ∃ c request, c ∉ lp_allocated l ∧ c ≠ CTAPHID_BROADCAST_CID ∧ c ≠ CTAPHID_INVALID_CID ∧
    lp_allocated l' = {[c]} ∪ lp_allocated l ∧ lp_active l = None ∧
    rep_cid request = CTAPHID_BROADCAST_CID ∧
    last (lp_trace l') = Some (Sent (handle_init request c)).

Definition good_outcome {A} (inp : Input) (l0 : Loop) (r : res A) (l : Loop) : Prop :=
  match r with
  | Ret _ => loop_inv l ∧ channel_step l0 l
  | Throw _ => failing inp (lp_allocated l0)
  end.

Lemma frame_packet_framable p : framable p → ∃ frames, frame_packet p = Ret frames.
Proof.
  intros [Hlen Hmax]. unfold frame_packet. rewrite stringify_spec by done. by eexists.
Qed.

Lemma wp_send inp p Q l :
  framable p → (in_send_ok inp p = true → Q (Ret ()) (log_event (Sent p) l)) →
  (∀ e, in_send_ok inp p = false → Q (Throw e) l) → wp (send_packet inp p) Q l.
Proof.
  intros Hp Hok Hfail. unfold wp, send_packet. destruct (frame_packet_framable p Hp) as [fr ->].
  destruct (in_send_ok inp p) eqn:E; [by apply Hok|by apply Hfail].
Qed.

(** Sending a packet of the loop's own. *)
Lemma send_transport inp p l0 l :
  loop_inv l → transport_packet p → channel_step l0 (log_event (Sent p) l) →
  wp (send_packet inp p) (good_outcome inp l0) l.
Proof.
  intros Hi Hp Hc. apply wp_send; [apply Hp| |].
  - intros _. split; [|done]. by apply inv_sent.
  - intros e Hf. left. by exists p.
Qed.

Lemma reply_transport inp p l0 l :
  loop_inv l → transport_packet p → channel_step l0 (log_event (Sent p) l) →
  wp (reply inp p) (good_outcome inp l0) l.
Proof.
  intros Hi Hp Hc. apply wp_bind. eapply wp_mono; [|by apply (send_transport inp p l0)].
  intros [[]|e] l' Ho; [|done]. by apply wp_ret.
Qed.

Lemma refuse_transport inp request e l0 l :
  loop_inv l → lp_allocated l = lp_allocated l0 →
  wp (refuse inp request e) (good_outcome inp l0) l.
Proof. intros. apply reply_transport; [done|apply hid_error_transport|by left]. Qed.

Lemma allocate_cid_some candidates allocated c s :
  Forall (λ c, is_u32 c) candidates → allocate_cid candidates allocated = Some (c, s) →
  c ∉ allocated ∧ is_u32 c ∧ c ≠ CTAPHID_BROADCAST_CID ∧ c ≠ CTAPHID_INVALID_CID ∧
  s = {[c]} ∪ allocated.
Proof.
  induction candidates as [|x candidates IH]; [done|]. rewrite Forall_cons. intros [Hx Hf]. simpl.
  destruct ((x =? CTAPHID_BROADCAST_CID) || (x =? CTAPHID_INVALID_CID) || _) eqn:E; [by apply IH|].
  intros [= -> <-]. reflect_bools. done.
Qed.

Lemma allocate_cid_total candidates allocated c :
  c ∈ candidates → c ≠ CTAPHID_BROADCAST_CID → c ≠ CTAPHID_INVALID_CID → c ∉ allocated →
  is_Some (allocate_cid candidates allocated).
Proof.
  intros Hc Hb Hi Ha. induction candidates as [|x candidates IH]; [by apply not_elem_of_nil in Hc|].
  simpl. destruct ((x =? CTAPHID_BROADCAST_CID) || (x =? CTAPHID_INVALID_CID) || _) eqn:E; [|done].
  apply elem_of_cons in Hc as [<-|Hc]; [|by apply IH].
  rewrite (proj2 (Z.eqb_neq _ _) Hb), (proj2 (Z.eqb_neq _ _) Hi) in E. reflect_bools.
  destruct E as [?|E]; [done|]. reflect_bools. done.
Qed.

Lemma on_cancel_good inp request l0 l :
  loop_inv l → lp_allocated l = lp_allocated l0 →
  wp (on_cancel request) (good_outcome inp l0) l.
Proof.
  intros Hi Ha. apply wp_bind, wp_get. destruct (lp_active l) as [a|] eqn:E; [|apply wp_ret; split; [done|by left]].
  destruct ((at_cid a =? rep_cid request) && negb (at_discard_result a)) eqn:Ec;
    [|apply wp_ret; split; [done|by left]].
  do 2 apply wp_bind, wp_modify. apply wp_ret. split; [|by left]. reflect_bools.
  pose proof (inv_stop l a (at_discard_result a) Hi E) as Hs.
  by rewrite orb_diag in Hs.
Qed.

Lemma on_init_good inp request l0 l :
  input_ok inp → loop_inv l → lp_allocated l = lp_allocated l0 → lp_active l = lp_active l0 →
  wp (on_init inp request) (good_outcome inp l0) l.
Proof.
  intros [_ Hrand] Hi Ha Hac. apply wp_bind, wp_get.
  destruct (len (rep_payload request) =? 0); [by apply refuse_transport|].
  destruct (match lp_active l with Some a => _ | None => false end) eqn:Eb; [by apply refuse_transport|].
  destruct (Z.eqb_spec (rep_cid request) CTAPHID_BROADCAST_CID) as [Ebc|Ebc].
  { destruct (allocate_cid (in_random inp) (lp_allocated l)) as [[c s]|] eqn:Eal.
    - apply allocate_cid_some in Eal as (Hfresh & Hu & Hb & Hz & ->); [|done].
      apply wp_bind, wp_modify. apply reply_transport; [by apply inv_allocate|
        apply handle_init_transport|]. right. exists c, request. rewrite <- Ha, <- Hac.
      split_and!; try done; [|apply last_snoc].
      destruct (lp_active l) as [a|] eqn:Ea; [|done]. reflect_bools.
      pose proof (inv_task _ Hi) as Ht. rewrite Ea in Ht. destruct (lp_worker l); [|done].
      destruct Ht as (_ & _ & Hin & _). rewrite Eb in Ebc.
      by destruct (inv_channels _ Hi _ Hin) as (_ & ? & _).
    - apply wp_throw. right. by rewrite <- Ha. }
  destruct (negb (bool_decide (rep_cid request ∈ lp_allocated l))); [by apply refuse_transport|].
  apply wp_bind. destruct (lp_active l) as [a|] eqn:Ea.
  - reflect_bools. rewrite Eb, Z.eqb_refl. apply wp_bind, wp_modify, wp_modify.
    apply reply_transport; [|apply handle_init_transport|by left].
    pose proof (inv_stop l a true Hi Ea) as Hs. by rewrite orb_true_r in Hs.
  - apply wp_modify. apply reply_transport; [by apply inv_reset|apply handle_init_transport|by left].
Qed.

Lemma on_report_good inp request l0 l :
  input_ok inp → loop_inv l → lp_allocated l = lp_allocated l0 → lp_active l = lp_active l0 →
  rep_len request ≤ CTAPHID_MAX_PAYLOAD_SIZE → len (rep_payload request) = rep_len request →
  wp (on_report inp request) (good_outcome inp l0) l.
Proof.
  intros Hinp Hi Ha Hac Hmax Hlen. unfold on_report.
  destruct (rep_cmd request =? CTAPHID_CANCEL); [by apply on_cancel_good|].
  destruct (rep_cmd request =? CTAPHID_INIT); [by apply on_init_good|].
  apply wp_bind, wp_get.
  destruct (negb (bool_decide (rep_cid request ∈ lp_allocated l))) eqn:Ein; [by apply refuse_transport|].
  destruct (bool_decide (is_Some (lp_active l))) eqn:Eac; [by apply refuse_transport|].
  destruct (rep_cmd request =? CTAPHID_PING).
  { apply reply_transport; [done|apply handle_ping_transport; lia|by left]. }
  destruct (rep_cmd request =? CTAPHID_CBOR); [|by apply refuse_transport].
  destruct (len (rep_payload request) =? 0); [by apply refuse_transport|].
  reflect_bools. apply wp_bind. unfold start_task. apply wp_modify, wp_ret. split; [|by left].
  apply (inv_start l inp request); [done| |done].
  destruct (lp_active l); [|done]. destruct Eac. by eexists.
Qed.

Lemma on_frame_good inp data l0 l :
  input_ok inp → in_device inp = dv_output data →
  loop_inv l → lp_allocated l = lp_allocated l0 → lp_active l = lp_active l0 →
  wp (on_frame inp data) (good_outcome inp l0) l.
Proof.
  intros Hinp Hdev Hi Ha Hac. apply wp_bind, wp_get.
  destruct (process _ _ _ _ _) as [incoming result] eqn:Ep. apply wp_bind, wp_modify.
  assert (bytes_ok data) as Hb by (destruct Hinp as [Hinp _]; by rewrite Hdev in Hinp).
  destruct (process_ok _ _ _ _ _ _ _ Hb (inv_incoming _ Hi) Ep) as [Hinc Hrep].
  apply (inv_incoming_upd l incoming Hi) in Hinc.
  destruct result as [|request|cid e].
  - apply wp_ret. split; [done|by left].
  - destruct (Hrep _ eq_refl) as (Hlen & Hmax & _). by apply on_report_good.
  - apply reply_transport; [done|apply hid_error_transport|by left].
Qed.

Lemma expire_good inp l :
  loop_inv l →
  wp (expire_assembly inp) (λ r l', match r with
    | Ret _ => loop_inv l' ∧ lp_allocated l' = lp_allocated l ∧ lp_active l' = lp_active l
    | Throw _ => failing inp (lp_allocated l) end) l.
Proof.
  intros Hi. apply wp_bind, wp_get. unfold expire.
  pose proof (inv_incoming_upd l None Hi I) as Hn.
  pose proof (inv_incoming_upd l _ Hi (inv_incoming _ Hi)) as Hk.
  destruct (lp_incoming l) as [tx|]; [destruct (in_expire_now inp <? in_deadline tx)|];
    apply wp_bind, wp_modify; [by apply wp_ret| |by apply wp_ret].
  apply wp_send; [apply hid_error_transport| |].
  - intros _. split; [|done]. apply inv_sent; [done|apply hid_error_transport].
  - intros e Hf. left. by eexists.
Qed.

Lemma receive_good inp l : input_ok inp → loop_inv l → wp (receive inp) (good_outcome inp l) l.
Proof.
  intros Hinp Hi. apply wp_bind. eapply wp_mono; [|by apply expire_good].
  intros [_|e] l1; [|done]. intros (Hi1 & Ha & Hac).
  destruct (in_device inp) as [| | |data] eqn:Ed; try (apply wp_ret; split; [done|by left]).
  by apply on_frame_good.
Qed.

(** What the second half does with the active task: a posted result is answered (or dropped,
    with a reset of the handler) and the task ends; otherwise it goes on, with a keepalive
    when one is due. *)
Definition keepalive_due (inp : Input) (a : ActiveTask) : bool :=
  (at_next_keepalive a <=? in_keepalive_now inp) && negb (at_cancel_requested a).

Definition concluded (inp : Input) (l l' : Loop) : Prop :=
  match lp_active l, lp_worker l, lp_completion l with
  | Some a, Some t, Some r =>
      lp_active l' = None ∧ lp_worker l' = None ∧
      lp_trace l' = lp_trace l ++
        [if at_discard_result a then HandlerReset else Sent (tr_packet r)]
  | Some a, Some t, None =>
      lp_worker l' = Some t ∧
      lp_trace l' = lp_trace l ++
        (if keepalive_due inp a then [Sent (keepalive_packet (at_cid a) (th_keepalive t))] else []) ∧
      lp_active l' = Some (if keepalive_due inp a
        then mkActive (at_generation a) (at_cid a) (in_keepalive_now inp + milliseconds 100)
               (at_cancel_requested a) (at_discard_result a)
        else a)
  | _, _, _ => lp_active l' = None ∧ lp_trace l' = lp_trace l
  end.

Definition good_conclusion (inp : Input) (l0 : Loop) (r : res ()) (l : Loop) : Prop :=
  match r with
  | Ret _ => loop_inv l ∧ lp_allocated l = lp_allocated l0 ∧ concluded inp l0 l
  | Throw _ => ∃ p, in_send_ok inp p = false
  end.

(** The active task ends: with its response, or dropped. *)
Lemma inv_finish l a t r e :
  loop_inv l → lp_active l = Some a → lp_worker l = Some t → lp_completion l = Some r →
  e = (if at_discard_result a then HandlerReset else Sent (tr_packet r)) →
  loop_inv (upd_active None (log_event e (upd_worker None (upd_completion None l)))).
Proof.
  intros Hi Ha Hw Hc ->. destruct (Hi) as [Hch Hin Hs Ht].
  rewrite Ha, Hw, Hc in Ht. destruct Ht as (_ & Hcid & _ & _ & _ & _ & _ & Hans).
  destruct (task_answers_spec _ _ Hans) as (Hpc & Hcmd & _).
  split; try done. simpl. rewrite (session_run_snoc _ _ _ _ Hs). unfold session_of at 1.
  rewrite Ha, Hc. cbn [lp_active upd_active session_of]. destruct (at_discard_result a); simpl.
  - done.
  - unfold is_response. rewrite Hcmd, Z.eqb_refl, Hpc, Hcid, Z.eqb_refl.
    by rewrite bool_decide_true.
Qed.

Lemma keepalive_session a l :
  lp_active l = Some a → at_cancel_requested a = false →
  ∀ s, session_step (session_of l) (Sent (keepalive_packet (at_cid a) s)) = Some (session_of l).
Proof.
  intros Ha Hc s. unfold session_of. rewrite Ha. simpl.
  rewrite Z.eqb_refl, Hc. by destruct s.
Qed.

Lemma inv_keepalive inp l a s :
  loop_inv l → lp_active l = Some a → at_cancel_requested a = false →
  loop_inv (upd_active (Some (mkActive (at_generation a) (at_cid a)
      (in_keepalive_now inp + milliseconds 100) (at_cancel_requested a) (at_discard_result a)))
    (log_event (Sent (keepalive_packet (at_cid a) s)) l)).
Proof.
  intros Hi Ha Hc. destruct (Hi) as [Hch Hin Hs Ht]. split; try done; simpl.
  - rewrite (session_run_snoc _ _ _ _ Hs), (keepalive_session a) by done.
    unfold session_of. by rewrite Ha.
  - by rewrite Ha in Ht.
Qed.

Lemma conclude_good inp l : loop_inv l → wp (conclude inp) (good_conclusion inp l) l.
Proof.
  intros Hi. pose proof (inv_task _ Hi) as Ht. unfold conclude, collect_result.
  apply wp_bind, wp_bind, wp_get, wp_bind, wp_modify.
  assert (lp_completion l = None → upd_completion None l = l) as Hsame
    by (intros Hn; destruct l; simpl in *; by subst).
  unfold concluded, good_conclusion, concluded.
  destruct (lp_active l) as [a|] eqn:Ea, (lp_worker l) as [t|] eqn:Ew; try done.
  - destruct (lp_completion l) as [r|] eqn:Ec.
    + destruct Ht as (Hg & Hcid & Hin & _ & _ & Hd & Hrg & Hans). rewrite Hrg, Z.eqb_refl.
      destruct (task_answers_spec _ _ Hans) as (_ & _ & Hfr).
      pose proof (inv_finish l a t r _ Hi Ea Ew Ec eq_refl) as Hfin.
      apply wp_bind, wp_modify, wp_bind. destruct (at_discard_result a) eqn:Edis; cbn [negb].
      * apply wp_modify, wp_modify. by apply wp_bind, wp_get, wp_ret.
      * apply wp_send; [done| |intros e Hf; by exists (tr_packet r)]. intros _.
        apply wp_modify. by apply wp_bind, wp_get, wp_ret.
    + rewrite (Hsame eq_refl). apply wp_ret, wp_bind, wp_get. rewrite Ea, Ew.
      fold (keepalive_due inp a). destruct (keepalive_due inp a) eqn:Ek.
      * apply wp_bind, wp_send; [apply keepalive_framable| |intros e Hf; by eexists]. intros _.
        apply wp_modify. unfold keepalive_due in Ek. reflect_bools.
        split; [by apply inv_keepalive|done].
      * apply wp_ret. split; [done|]. by rewrite app_nil_r.
  - rewrite Ht, (Hsame Ht). apply wp_ret, wp_bind, wp_get. rewrite Ea. by apply wp_ret.
Qed.

(** ** All executions *)

Definition phase_inv (ph : phase) (l : Loop) : Prop :=
  match ph with
  | Stopped => ∃ l0, loop_inv l0 ∧ l = upd_worker None l0
  | _ => loop_inv l
  end.

Lemma inv_worker_upd l f :
  loop_inv l →
  (∀ t, th_generation (f t) = th_generation t ∧ th_request (f t) = th_request t ∧
        th_done (f t) = th_done t ∧ (th_stop t = true → th_stop (f t) = true)) →
  loop_inv (upd_worker (f <$> lp_worker l) l).
Proof.
  intros [Hc Hin Hs Ht] Hf. split; try done. simpl.
  destruct (lp_active l) as [a|], (lp_worker l) as [t|]; simpl in *; try done.
  destruct (Hf t) as (-> & -> & -> & Hst). naive_solver.
Qed.

Lemma inv_posts l t p :
  loop_inv l → lp_worker l = Some t → th_done t = false → task_answers (th_request t) p →
  loop_inv (worker_posts p t l).
Proof.
  intros Hi Hw Hd Hans. destruct (Hi) as [Hc Hin Hs Ht]. rewrite Hw in Ht.
  destruct (lp_active l) as [a|] eqn:Ea; [|done].
  destruct Ht as (Hg & Hcid & Hal & Hdc & Hst & Hres).
  destruct (lp_completion l) as [r|] eqn:Ec; [destruct Hres; congruence|].
  split; try done; simpl.
  - rewrite (session_run_snoc _ _ _ _ Hs). unfold session_of. rewrite Ea, Ec. simpl.
    by rewrite Hg, Ea, Z.eqb_refl.
  - by rewrite Ea.
Qed.

Lemma loop_step_inv ph l ph' l' :
  loop_step (ph, l) (ph', l') → phase_inv ph l → phase_inv ph' l'.
Proof.
  intros Hstep Hi. inversion Hstep as [inp ? ? Hinp Hr|inp ? ? Hinp Hr|inp ? ? Hr|?|? Hj|
    ? t p ? Hw Hd Ha|? t s ? Hw Hd]; subst; cbn [phase_inv] in *.
  - by apply (wp_run _ _ _ _ _ (receive_good inp l Hinp Hi) Hr).
  - by apply (wp_run _ _ _ _ _ (receive_good inp l Hinp Hi) Hr).
  - by apply (wp_run _ _ _ _ _ (conclude_good inp l Hi) Hr).
  - by apply inv_worker_upd.
  - by exists l.
  - destruct ph'; cbn [phase_inv] in *; try by apply inv_posts. by destruct Hi as (l0 & _ & ->).
  - assert (∀ l, lp_worker l = Some t → loop_inv l → loop_inv (worker_sets_keepalive s t l)) as Hk.
    { intros l1 Hw1 Hi1. pose proof (inv_worker_upd l1 (λ t, mkThread (th_generation t)
        (th_request t) (th_stop t) (th_done t) s) Hi1) as Hu. rewrite Hw1 in Hu. by apply Hu. }
    destruct ph'; cbn [phase_inv] in *; try by apply Hk. by destruct Hi as (l0 & _ & ->).
Qed.

Lemma reachable_inv ph l : reachable ph l → phase_inv ph l.
Proof.
  intros Hr. change (phase_inv (ph, l).1 (ph, l).2).
  refine (rtc_ind_r (λ s, phase_inv s.1 s.2) (Polling, loop_initial) loop_inv_initial _ _ Hr).
  intros [ph1 l1] [ph2 l2] _ Hstep. by apply loop_step_inv.
Qed.

Lemma reachable_session ph l :
  reachable ph l → session_run Idle (lp_trace l) = Some (session_of l).
Proof.
  intros Hr. apply reachable_inv in Hr.
  destruct ph; try apply (inv_session _ Hr). destruct Hr as (l0 & Hi & ->). apply (inv_session _ Hi).
Qed.
End invariant.

Lemma quiet_serving g cid ca di re mid s' :
  Forall quiet mid → session_run (Serving g cid ca di re) mid = Some s' →
  ∃ g cid ca di re, s' = Serving g cid ca di re.
Proof.
  intros Hq. revert g cid ca di re. induction Hq as [|e mid He _ IH]; intros g cid ca di re.
  { intros [= <-]. by eexists _, _, _, _, _. }
  destruct e; simpl in *; try done; [rewrite He|..]; intros E; split_cases; by eapply IH.
Qed.

(** A request that was started and is not being served has its result. *)
Lemma started_posted t1 s t0 g c mid :
  session_run Idle t1 = Some s → t1 = t0 ++ Started g c :: mid →
  match s with Idle => True | Serving _ _ _ _ re => is_Some re end → ∃ p, Posted g p ∈ mid.
Proof.
  intros E -> Hs. rewrite session_run_app in E. destruct (session_run Idle t0) as [[]|]; [|done..].
  simpl in E. destruct (session_posted _ _ _ _ _ _ E) as [?|(ca & di & ->)]; [done|].
  by destruct Hs.
Qed.

(** ** The worker's interface, implemented by the ceremonies *)

Lemma ctap_task_answers `{CeremonyEnv} `{StoreEnv} `{TinyCbor} `{TinyCborEncoder} request p :
  (∃ w w', worker_task request w = (Ret p, w')) →
  pkt_cid p = rep_cid request ∧ pkt_cmd p = Z.lor CTAPHID_CBOR MASK ∧
  len (pkt_payload p) = pkt_len p ∧ pkt_len p ≤ CTAPHID_MAX_PAYLOAD_SIZE.
Proof.
  intros (w & w' & Hrun).
  destruct (worker_task_answered request w) as (p' & w2 & Hrun' & Hcid & Hcmd & Hlen & Hmax).
  rewrite Hrun in Hrun'. injection Hrun' as <- <-. split_and!; try done. by rewrite Hlen.
Qed.

#[global] Instance ctap_task `{CeremonyEnv} `{StoreEnv} `{TinyCbor} `{TinyCborEncoder} : TaskBody := {|
  task_answers request p := ∃ w w', worker_task request w = (Ret p, w');
  task_answers_spec := ctap_task_answers
|}.

(** ** An example execution: a channel is allocated, getInfo is requested and answered *)

Definition example_init_frame : list Z :=
  [255; 255; 255; 255; 134; 0; 8; 1; 2; 3; 4; 5; 6; 7; 8] ++ replicate 49 0.
Definition example_cbor_frame : list Z := [0; 0; 0; 7; 144; 0; 1; 4] ++ replicate 56 0.
Definition example_input (d : device_event) : Input := mkInput d 0 0 0 0 [0; 7] (λ _, true).
Definition example_request : UHIDReport := mkUHIDReport 7 16 1 [4] 0.
Definition example_answer : CTAPPacket :=
  match (worker_task example_request example_worker).1 with
  | Ret p => p
  | Throw _ => make_cbor_error 0 0
  end.
Definition example_opened : Loop :=
  (receive (example_input (dv_output example_init_frame)) loop_initial).2.
Definition example_started : Loop :=
  (receive (example_input (dv_output example_cbor_frame)) example_opened).2.
Definition example_thread : WorkerThread := mkThread 1 example_request false false ka_processing.
Definition example_posted : Loop := worker_posts example_answer example_thread example_started.
Definition example_concluded : Loop := (conclude (example_input dv_none) example_posted).2.

Lemma example_input_ok d :
  match d with dv_output data => bytes_okb data = true | _ => True end → input_ok (example_input d).
Proof.
  intros Hd. split; [destruct d; try done; by apply bytes_okb_ok|]. repeat constructor; lia.
Qed.

Lemma example_init_step : loop_step (Polling, loop_initial) (Polling, example_opened).
Proof.
  apply (step_continue (example_input (dv_output example_init_frame))).
  - apply example_input_ok. reflexivity.
  - vm_compute. reflexivity.
Qed.

Lemma example_cbor_step : loop_step (Polling, example_opened) (Collecting, example_started).
Proof.
  apply (step_proceed (example_input (dv_output example_cbor_frame))).
  - apply example_input_ok. reflexivity.
  - vm_compute. reflexivity.
Qed.

Lemma example_post_step : loop_step (Collecting, example_started) (Collecting, example_posted).
Proof.
  apply (step_posts Collecting example_thread); [vm_compute; reflexivity..|].
  exists example_worker, (worker_task example_request example_worker).2. vm_compute. reflexivity.
Qed.

Lemma example_conclude_step : loop_step (Collecting, example_posted) (Polling, example_concluded).
Proof. apply (step_conclude (example_input dv_none)). vm_compute. reflexivity. Qed.

Lemma example_reachable_posted : reachable Collecting example_posted.
Proof.
  eapply rtc_l; [apply example_init_step|]. eapply rtc_l; [apply example_cbor_step|].
  apply rtc_once, example_post_step.
Qed.

Lemma example_reachable : reachable Polling example_concluded.
Proof. eapply rtc_r; [apply example_reachable_posted|apply example_conclude_step]. Qed.

(** ** Properties *)

(** C5: The event loop refines its specification.  In every execution -- whatever frames
    arrive, however the worker's actions interleave with the loop's -- the recorded events
    are an execution of the session machine, and it ends in the session that the loop's
    variables stand for: idle without an active task; serving one request on one channel,
    with the flags and the pending result of the active task, otherwise. *)
Theorem loop_refines_session `{TaskBody} ph l :
  reachable ph l → session_run Idle (lp_trace l) = Some (session_of l).
Proof. apply reachable_session. Qed.

Lemma loop_refines_session_witness : session_run Idle (lp_trace example_posted) =
  Some (Serving 1 7 false false (Some example_answer)).
Proof.
  rewrite (loop_refines_session Collecting example_posted example_reachable_posted).
  vm_compute. reflexivity.
Defined.

(** C6: One request at a time, on the wire and in the command handler.  A CBOR response is
    only sent for the request started last, to the channel it came from, is exactly the
    result its worker posted, is sent once, and not after the request was abandoned by an
    INIT.  Keepalives go to the channel being served, before its response and not once
    it is cancelled.  A worker is only started, and the handler only reset by the loop, when
    every worker started before has posted its result, so that the two threads never use
    the handler at the same time; and a worker is only started when the previous request has
    been answered or dropped. *)
Theorem requests_serialized `{TaskBody} ph l t1 e t2 :
  reachable ph l → lp_trace l = t1 ++ e :: t2 →
  match e with
  | Sent p =>
      (is_response p = true → ∃ t0 g mid, t1 = t0 ++ Started g (pkt_cid p) :: mid ∧
         Forall quiet mid ∧ Posted g p ∈ mid ∧ StopRequested g true ∉ mid) ∧
      (is_keepalive p = true → ∃ t0 g mid, t1 = t0 ++ Started g (pkt_cid p) :: mid ∧
         Forall quiet mid ∧ ∀ d, StopRequested g d ∉ mid)
  | HandlerReset => ∀ t0 g c mid, t1 = t0 ++ Started g c :: mid → ∃ p, Posted g p ∈ mid
  | Started _ _ => ∀ t0 g c mid, t1 = t0 ++ Started g c :: mid →
      (∃ p, Posted g p ∈ mid) ∧ ¬ Forall quiet mid
  | _ => True
  end.
Proof.
  intros Hr Et. pose proof (reachable_session ph l Hr) as Hs. rewrite Et in Hs.
  destruct (session_run_split _ _ _ _ _ Hs) as (s1 & s2 & Hs1 & Hstep).
  destruct e as [p|g0 c0|g0 d|g0 p|]; [|intros t0 g c mid E|done|done|intros t0 g c mid E].
  - assert (is_response p = true → is_keepalive p = false) as Hrk.
    { unfold is_response, is_keepalive. intros E%Z.eqb_eq. by rewrite E. }
    destruct s1 as [|g cid ca di re]; simpl in Hstep.
    { case_match eqn:E; [done|]. reflect_bools. split; congruence. }
    destruct (session_history _ _ _ _ _ _ Hs1) as (t0 & mid & -> & _ & Hq & Hc & Hd & Hp).
    split; intros E.
    + rewrite E in Hstep. split_cases. reflect_bools. subst. exists t0, g, mid.
      by split_and!; [..|apply Hp|apply Hd].
    + destruct (is_response p); [by rewrite Hrk in E|]. rewrite E in Hstep. split_cases.
      reflect_bools. subst. exists t0, g, mid.
      by split_and!; [..|apply Hc].
  - destruct s1; [|done]. split; [by eapply started_posted|]. intros Hq. subst t1.
    rewrite session_run_app in Hs1. destruct (session_run Idle t0) as [[]|]; [|done..].
    simpl in Hs1. by destruct (quiet_serving _ _ _ _ _ _ _ Hq Hs1) as (?&?&?&?&?&?).
  - eapply started_posted; [done..|]. destruct s1; [done|]. simpl in Hstep. split_cases.
    by reflect_bools.
Qed.

Lemma requests_serialized_witness :
  ∃ t0 g mid, take 3 (lp_trace example_concluded) = t0 ++ Started g 7 :: mid ∧
    Forall quiet mid ∧ Posted g example_answer ∈ mid ∧ StopRequested g true ∉ mid.
Proof.
  assert (pkt_cid example_answer = 7) as E by (vm_compute; reflexivity). rewrite <- E.
  refine (proj1 (requests_serialized Polling example_concluded
    (take 3 (lp_trace example_concluded)) (Sent example_answer) [] example_reachable _) _).
  - vm_compute. reflexivity.
  - vm_compute. reflexivity.
Defined.

(** No frame brings the daemon down.  As long as the device takes the packets and the
    random source delivers one usable channel number, the handling of an arbitrary frame
    (of any length and content, in any reachable state) returns: it neither throws nor
    loops, whatever it answers. *)
Theorem receive_total `{TaskBody} inp l c :
  reachable Polling l → input_ok inp → (∀ p, in_send_ok inp p = true) →
  c ∈ in_random inp → c ≠ CTAPHID_BROADCAST_CID → c ≠ CTAPHID_INVALID_CID →
  c ∉ lp_allocated l →
  ∃ continue l', receive inp l = (Ret continue, l').
Proof.
  intros Hr Hinp Hsend Hc Hb Hz Ha.
  pose proof (receive_good inp l Hinp (reachable_inv _ _ Hr)) as Hw. unfold wp in Hw.
  destruct (receive inp l) as [[b|e] l']; [by exists b, l'|].
  destruct Hw as [[p Hp]|Hn]; [by rewrite Hsend in Hp|].
  by destruct (allocate_cid_total _ _ _ Hc Hb Hz Ha) as [? E]; rewrite Hn in E.
Qed.

Lemma receive_total_witness : ∃ continue l',
  receive (mkInput (dv_output [1; 2; 3]) 0 0 0 0 [7; 9] (λ _, true)) example_concluded =
    (Ret continue, l').
Proof.
  apply (receive_total _ example_concluded 9 example_reachable).
  - split; [apply bytes_okb_ok; reflexivity|repeat constructor; lia].
  - reflexivity.
  - apply list_elem_of_further, list_elem_of_here.
  - discriminate.
  - discriminate.
  - apply (bool_decide_unpack (9 ∉ lp_allocated example_concluded)). vm_compute. exact I.
Defined.

(** Results are not lost.  The second half of an iteration returns as long as the device
    takes the packets, and settles the active task: when its worker has posted a result, that
    packet is sent (or, for an abandoned request, the handler is reset) as the only event,
    the worker is gone and the loop is free for the next request; otherwise the task goes on,
    and a keepalive with the worker's current status is sent exactly when one is due. *)
Theorem conclude_settles `{TaskBody} inp l :
  reachable Collecting l → (∀ p, in_send_ok inp p = true) →
  ∃ l', conclude inp l = (Ret (), l') ∧ concluded inp l l' ∧ lp_allocated l' = lp_allocated l.
Proof.
  intros Hr Hsend. pose proof (conclude_good inp l (reachable_inv _ _ Hr)) as Hw. unfold wp in Hw.
  destruct (conclude inp l) as [[[]|e] l']; [exists l'; by destruct Hw as (_ & ? & ?)|].
  destruct Hw as [p Hp]. by rewrite Hsend in Hp.
Qed.

Lemma conclude_settles_witness :
  lp_trace example_concluded = lp_trace example_posted ++ [Sent example_answer].
Proof.
  destruct (conclude_settles (example_input dv_none) example_posted example_reachable_posted)
    as (l' & E & Hc & _); [reflexivity|].
  assert (example_concluded = l') as -> by (unfold example_concluded; rewrite E; reflexivity).
  exact (proj2 (proj2 Hc)).
Defined.

(** Channel numbers are never handed out twice.  Handling a frame leaves the allocated
    channels as they are, or adds exactly one that was not allocated before, is neither the
    broadcast nor the invalid channel, and is announced in the answer to an INIT on the
    broadcast channel while no request is active; and in every reachable state all
    allocated channels are valid and the message being assembled is well formed and
    comes from one of them. *)
Theorem channel_allocation `{TaskBody} inp l continue l' :
  reachable Polling l → input_ok inp → receive inp l = (Ret continue, l') →
  channel_step l l' ∧ lp_allocated l ⊆ lp_allocated l' ∧
  (∀ c, c ∈ lp_allocated l' → is_u32 c ∧ c ≠ CTAPHID_BROADCAST_CID ∧ c ≠ CTAPHID_INVALID_CID) ∧
  incoming_ok (lp_allocated l') (lp_incoming l').
Proof.
  intros Hr Hinp E.
  destruct (wp_run _ _ _ _ _ (receive_good inp l Hinp (reachable_inv _ _ Hr)) E) as [Hi Hc].
  split; [done|]. split; [|split; [apply Hi|apply Hi]].
  destruct Hc as [->|(c & request & _ & _ & _ & -> & _)]; set_solver.
Qed.

Lemma channel_allocation_witness : channel_step loop_initial example_opened.
Proof.
  apply (channel_allocation (example_input (dv_output example_init_frame)) loop_initial true).
  - apply rtc_refl.
  - apply example_input_ok. reflexivity.
  - vm_compute. reflexivity.
Defined.

(** The loop never sleeps past a keepalive: with an active task whose timer was set at most
    100 ms ahead, poll waits between 0 and 100 milliseconds. *)
Lemma poll_timeout_active a incoming now now' :
  at_next_keepalive a ≤ now + milliseconds 100 →
  0 ≤ poll_timeout (Some a) incoming now now' ≤ 100.
Proof.
  intros Hk. assert (∀ d n, 0 ≤ milliseconds_until d n) as Hnn.
  { intros d n. unfold milliseconds_until, milliseconds. case_match; reflect_bools; [lia|].
    Z.to_euclidean_division_equations. lia. }
  assert (milliseconds_until (at_next_keepalive a) now ≤ 100) as Hle.
  { unfold milliseconds_until, milliseconds in *. case_match; reflect_bools; [lia|].
    Z.to_euclidean_division_equations. lia. }
  unfold poll_timeout.
  pose proof (Hnn (at_next_keepalive a) now).
  assert (0 ≤ (if at_cancel_requested a then 20
    else milliseconds_until (at_next_keepalive a) now) ≤ 100) as Ht by (case_match; lia).
  destruct (fp_deadline incoming) as [d|]; [|done]. pose proof (Hnn d now').
  revert Ht. generalize (if at_cancel_requested a then 20
    else milliseconds_until (at_next_keepalive a) now). intros t Ht.
  destruct ((t <? 0) || _) eqn:E; [|done]. reflect_bools. destruct E; reflect_bools; lia.
Qed.
