(* ===== verification/VerifierSocket.v ===== *)
(** * The verifier's socket (src/src/uv/src/verifier_socket.cpp)

    The packet socket both ends of the verifier protocol use, with what the system calls on
    its descriptor answer as data, and an endpoint: the socket together with the
    conversation state its owner keeps.  The three programs that talk over it (the daemon's
    client, the verifier service and the PAM handler) are in VerifierClient.v,
    VerifierService.v and AuthHandler.v. *)
From Stdlib Require Import ZArith Lia.
From stdpp Require Import base list.
From S2P Require Import Prelude VerifierProtocol VerifierConversation.

(** ** Constructing a socket *)

(** What the system calls of [validate_socket] answer; [None] is a failed call.  The two
    addresses are given by their size and family. *)
Inductive peername := peer_enotconn | peer_error | peer_address (size family : Z).

Record Descriptor := mkDesc {
  d_getfd : option Z;
  d_setfd_ok : bool;
  d_type : option Z;
  d_sockname : option (Z * Z);
  d_peername : peername;
}.

Definition FD_CLOEXEC : Z := 1.
Definition SOCK_SEQPACKET : Z := 5.
Definition AF_UNIX : Z := 1.
(** [sizeof(sa_family_t)] *)
Definition FAMILY_SIZE : Z := 2.

Definition not_local (size family : Z) : bool := (size <? FAMILY_SIZE) || negb (family =? AF_UNIX).

Definition validate_socket (d : Descriptor) : res () :=
  match d_getfd d with
  | None => Throw system_error
  | Some descriptor_flags =>
      throw_if (Z.land descriptor_flags FD_CLOEXEC =? 0) && negb (d_setfd_ok d) as system_error ;;
      match d_type d with
      | None => Throw system_error
      | Some type =>
          throw_if negb (type =? SOCK_SEQPACKET) as VerifierSocketError ;;
          match d_sockname d with
          | None => Throw system_error
          | Some (size, family) =>
              throw_if not_local size family as VerifierSocketError ;;
              match d_peername d with
              | peer_enotconn => Throw VerifierSocketError
              | peer_error => Throw system_error
              | peer_address size family =>
                  throw_if not_local size family as VerifierSocketError ;; Ret ()
              end
          end
      end
  end.

(** The constructor: the descriptor it adopts, closed again when validation fails. *)
Definition VerifierSocket_new (fd : Z) (d : Descriptor) : res Z :=
  throw_if fd <? 0 as invalid_argument ;;
  _ ← validate_socket d;
  Ret fd.

Definition require_open (fd : Z) : res () :=
  throw_if fd <? 0 as VerifierSocketError ;; Ret ().

(** ** Sending and receiving

    The result of a system call is the one after the retries on EINTR.  A received
    datagram is given whole; the kernel cuts it to the buffer and flags that. *)

Inductive send_result := send_failed | send_count (count : Z).
Inductive recv_result := recv_failed | recv_datagram (packet : list Z) (ctrunc : bool).

Definition socket_send (fd : Z) (message : VerifierMessage) (r : send_result) : res () :=
  _ ← require_open fd;
  packet ← encode_verifier_message message;
  match r with
  | send_failed => Throw system_error
  | send_count count => throw_if negb (count =? len packet) as VerifierSocketError ;; Ret ()
  end.

Definition socket_receive (fd : Z) (r : recv_result) : res VerifierMessage :=
  _ ← require_open fd;
  match r with
  | recv_failed => Throw system_error
  | recv_datagram packet ctrunc =>
      let count := Z.min (len packet) MAX_VERIFIER_PACKET_SIZE in
      throw_if count =? 0 as VerifierSocketError ;;
      throw_if MAX_VERIFIER_PACKET_SIZE <? len packet as VerifierSocketError ;;
      throw_if ctrunc as VerifierSocketError ;;
      throw_if MAX_VERIFIER_PACKET_SIZE <? count as VerifierSocketError ;;
      decode_verifier_message (take (Z.to_nat count) packet)
  end.

Record VerifierPeerCredentials := mkPeer { peer_pid : Z; peer_uid : Z; peer_gid : Z }.

(** [getsockopt(SO_PEERCRED)]: the answer and whether it has the expected size. *)
Definition peer_credentials (fd : Z) (answer : option (VerifierPeerCredentials * bool))
    : res VerifierPeerCredentials :=
  _ ← require_open fd;
  match answer with
  | None => Throw system_error
  | Some (credentials, size_ok) =>
      throw_if negb size_ok || (peer_pid credentials <=? 0) as VerifierSocketError ;;
      Ret credentials
  end.

(** ** Endpoints *)

(** A socket with the conversation its owner follows; [ep_trace] is what went over it. *)
Record Endpoint := mkEndpoint {
  ep_fd : Z;
  ep_state : VerifierConversationState;
  ep_trace : trace;
}.

Definition endpoint_new (fd : Z) : Endpoint := mkEndpoint fd VerifierAwaitingStart [].

Definition wire (who : VerifierMessageSender) (m : VerifierMessage) (e : Endpoint) : Endpoint :=
  mkEndpoint (ep_fd e) (ep_state e) (ep_trace e ++ [(who, m)]).
Definition advanced (s : VerifierConversationState) (e : Endpoint) : Endpoint :=
  mkEndpoint (ep_fd e) s (ep_trace e).

(** [state = advance_verifier_conversation(state, who, message);] *)
Definition advance (who : VerifierMessageSender) (m : VerifierMessage) : ST Endpoint () :=
  let! e := st_get in
  let! s := st_lift (advance_verifier_conversation (ep_state e) who m) in
  st_modify (advanced s).

(** [socket.send(message); state = advance_verifier_conversation(state, who, message);] *)
Definition send_message (who : VerifierMessageSender) (m : VerifierMessage) (r : send_result)
    : ST Endpoint () :=
  let! e := st_get in
  let! _ := st_lift (socket_send (ep_fd e) m r) in
  let! _ := st_modify (wire who m) in
  advance who m.

(** [message = socket.receive(); state = advance_verifier_conversation(state, who, message);] *)
Definition receive_message (who : VerifierMessageSender) (r : recv_result)
    : ST Endpoint VerifierMessage :=
  let! e := st_get in
  let! m := st_lift (socket_receive (ep_fd e) r) in
  let! _ := st_modify (wire who m) in
  let! _ := advance who m in
  st_ret m.

(** ** What is exchanged is a conversation *)

Definition follows (e : Endpoint) : Prop :=
  run_conversation VerifierAwaitingStart (ep_trace e) = Ret (ep_state e).

(** The peer, [who], broke the protocol with its last message. *)
Definition refused (who : VerifierMessageSender) (e : Endpoint) : Prop :=
  ∃ tr m, ep_trace e = tr ++ [(who, m)] ∧
    run_conversation VerifierAwaitingStart tr = Ret (ep_state e) ∧
    advance_verifier_conversation (ep_state e) who m = Throw VerifierConversationError.

(** How an endpoint may be left: following the protocol, or because the peer broke it. *)
Definition left_by {A} (peer : VerifierMessageSender) (r : res A) (e : Endpoint) : Prop :=
  follows e ∨ refused peer e ∧ r = Throw VerifierConversationError.

Lemma follows_new fd : follows (endpoint_new fd).
Proof. done. Qed.

Lemma advance_error s who m e :
  advance_verifier_conversation s who m = Throw e → e = VerifierConversationError.
Proof.
  unfold advance_verifier_conversation.
  destruct m; simpl; repeat case_match; simpl; congruence.
Qed.

Lemma follows_advance e who m s :
  follows e → advance_verifier_conversation (ep_state e) who m = Ret s →
  follows (advanced s (wire who m e)).
Proof.
  unfold follows. intros Hf Ha. simpl. rewrite run_app, Hf. simpl. by rewrite Ha.
Qed.

Lemma wp_send_message who m r s Q e :
  advance_verifier_conversation (ep_state e) who m = Ret s →
  (∀ ex, Q (Throw ex) e) → Q (Ret ()) (advanced s (wire who m e)) →
  wp (send_message who m r) Q e.
Proof.
  intros Ha Hfail Hok. do 2 (apply wp_bind; first [apply wp_get|apply wp_lift]).
  destruct (socket_send (ep_fd e) m r) as [[]|ex]; [|apply Hfail].
  apply wp_bind, wp_modify. apply wp_bind, wp_get, wp_bind, wp_lift.
  cbn [ep_state wire]. rewrite Ha. by apply wp_modify.
Qed.

Lemma wp_receive_message who r Q e :
  (∀ ex, Q (Throw ex) e) →
  (∀ m s, socket_receive (ep_fd e) r = Ret m →
     advance_verifier_conversation (ep_state e) who m = Ret s →
     Q (Ret m) (advanced s (wire who m e))) →
  (∀ m, advance_verifier_conversation (ep_state e) who m = Throw VerifierConversationError →
     Q (Throw VerifierConversationError) (wire who m e)) →
  wp (receive_message who r) Q e.
Proof.
  intros Hfail Hok Hbad. do 2 (apply wp_bind; first [apply wp_get|apply wp_lift]).
  destruct (socket_receive (ep_fd e) r) as [m|ex]; [|apply Hfail].
  apply wp_bind, wp_modify. apply wp_bind, wp_bind, wp_get, wp_bind, wp_lift.
  cbn [ep_state wire]. destruct (advance_verifier_conversation _ who m) as [s|ex] eqn:E.
  - apply wp_modify, wp_ret. by apply Hok.
  - pose proof (advance_error _ _ _ _ E) as ->. by apply Hbad.
Qed.

(** ** What is on record stays on record *)

Definition grows (e e' : Endpoint) : Prop := ep_trace e `prefix_of` ep_trace e'.

#[export] Instance grows_preorder : PreOrder grows.
Proof. unfold grows. split; [intros e; reflexivity|intros e1 e2 e3; apply transitivity]. Qed.

Lemma send_grows who m r e : wp (send_message who m r) (λ _ e', grows e e') e.
Proof.
  do 2 (apply wp_bind; first [apply wp_get|apply wp_lift]).
  destruct (socket_send _ _ _) as [[]|ex]; [|done]. apply wp_bind, wp_modify.
  assert (grows e (wire who m e)) as Hg by by apply prefix_app_r.
  apply wp_bind, wp_get, wp_bind, wp_lift. by destruct (advance_verifier_conversation _ _ _).
Qed.

Lemma receive_grows who r e : wp (receive_message who r) (λ _ e', grows e e') e.
Proof.
  apply wp_receive_message; [done|intros m s _ _; by apply prefix_app_r|intros m _; by apply prefix_app_r].
Qed.

(** What exactly is put on record. *)
Lemma send_trace who m r e :
  wp (send_message who m r)
    (λ _ e', ep_trace e' = ep_trace e ∨ ep_trace e' = ep_trace e ++ [(who, m)]) e.
Proof.
  do 2 (apply wp_bind; first [apply wp_get|apply wp_lift]).
  destruct (socket_send _ _ _) as [[]|ex]; [|by left]. apply wp_bind, wp_modify.
  apply wp_bind, wp_get, wp_bind, wp_lift. by destruct (advance_verifier_conversation _ _ _); right.
Qed.

Lemma receive_trace who r e :
  wp (receive_message who r)
    (λ _ e', ∃ m, ep_trace e' = ep_trace e ∨ ep_trace e' = ep_trace e ++ [(who, m)]) e.
Proof.
  apply wp_receive_message; [intros ex; exists CancelVerification; by left|..]; intros m; exists m; by right.
Qed.

(** ** A packet that is sent whole is received as the message it encodes *)

Lemma socket_delivery fd fd' m packet :
  encode_verifier_message m = Ret packet → bytes_ok packet → message_in_range m →
  0 ≤ fd → 0 ≤ fd' →
  socket_send fd m (send_count (len packet)) = Ret () ∧
  socket_receive fd' (recv_datagram packet false) = Ret m.
Proof.
  intros He Hb Hr Hfd Hfd'. unfold socket_send, socket_receive, require_open.
  rewrite (proj2 (Z.ltb_ge _ _) Hfd), (proj2 (Z.ltb_ge _ _) Hfd'). cbn -[Z.min]. rewrite He. simpl.
  rewrite Z.eqb_refl. split; [done|]. apply encode_spec in He.
  pose proof (encodes_size _ _ He) as Hs. rewrite packet_max in *.
  rewrite Z.min_l by lia. rewrite (proj2 (Z.eqb_neq _ _)) by lia.
  rewrite !(proj2 (Z.ltb_ge _ _)) by lia. rewrite Nat2Z.id, take_ge by lia.
  by apply decode_of_encodes.
Qed.
