(* ===== verification/VerifierClient.v ===== *)
(** * The daemon's verifier client (src/src/uv/src/verifier_client.cpp)

    [run_verifier_service] connects to the PAM verifier, starts a verification and serves
    its messages until it completes, is cancelled or times out.  The callbacks it is given
    act on a state [S] of their owner (the agent service); one turn of its loop is given by
    what the other threads do meanwhile and what the clock, the stop token and the socket
    answer.  The loop has not returned ([None]) at the end of a list of turns. *)
From Stdlib Require Import ZArith Lia.
From stdpp Require Import base list.
From S2P Require Import Prelude VerifierProtocol VerifierConversation VerifierSocket.

(** ** Connecting *)

(** [sizeof(sockaddr_un::sun_path)] *)
Definition SUN_PATH_SIZE : Z := 108.

(** [None]: the system call fails. *)
Definition connect_to_verifier (native_path : list Z) (socket_fd : option Z) (connected : bool)
    (d : Descriptor) : res Z :=
  throw_if len native_path =? 0 as invalid_argument ;;
  throw_if SUN_PATH_SIZE <=? len native_path as invalid_argument ;;
  match socket_fd with
  | None => Throw system_error
  | Some descriptor =>
      throw_if negb connected as system_error ;;
      VerifierSocket_new descriptor d
  end.

(** ** The conversation with the verifier *)

Inductive poll_event := poll_failed | poll_nothing | poll_no_input | poll_input (r : recv_result).

Section client.
Context {S E : Type}.

(** The callbacks.  [E] is what the environment answers during a call; [None] is a call
    that is still waiting. *)
Record Callbacks := mkCallbacks {
  status_callback : E → VerificationStatusKind → list Z → ST S ();
  secret_callback : E → list Z → S → option (res (list Z) * S);
  cancellation_requested : E → ST S bool;
}.

Record Client := mkClient { cl_socket : Endpoint; cl_world : S }.

Definition on_socket {A} (m : ST Endpoint A) : ST Client A := λ c,
  let '(r, e) := m (cl_socket c) in (r, mkClient e (cl_world c)).
Definition on_world {A} (m : ST S A) : ST Client A := λ c,
  let '(r, w) := m (cl_world c) in (r, mkClient (cl_socket c) w).

Record ClientTurn := mkClientTurn {
  ct_others : S → S;        (** what other threads do before the turn *)
  ct_stop : bool;           (** [stop.stop_requested()] *)
  ct_cancel : E;            (** during the first [cancellation_requested()] *)
  ct_now : Z;               (** the clock *)
  ct_poll : poll_event;     (** what [poll] and [receive] find *)
  ct_callback : E;          (** during the status or secret callback *)
  ct_stop_after : bool;     (** [stop] after the secret callback *)
  ct_cancel_after : E;      (** during the second [cancellation_requested()] *)
  ct_send : send_result;    (** what [send] answers *)
}.

Context (cb : Callbacks).

(** The lambda [send_cancel]: nothing it throws gets out. *)
Definition send_cancel (r : send_result) : ST Endpoint () :=
  let! e := st_get in
  if verifier_conversation_is_terminal (ep_state e) then st_ret () else
  st_catch (send_message daemon CancelVerification r) (λ _, st_ret ()).

(** [send_cancel(); throw e;] *)
Definition cancel_with {A} (r : send_result) (e : exn) : ST Client A :=
  let! _ := on_socket (send_cancel r) in st_throw e.

(** A turn up to and including [receive]: the message, or [None] for [continue]. *)
Definition await_message (deadline : Z) (t : ClientTurn) : ST Client (option VerifierMessage) :=
  if ct_stop t then cancel_with (ct_send t) OperationCancelled else
  let! cancelled := on_world (cancellation_requested cb (ct_cancel t)) in
  if (cancelled : bool) then cancel_with (ct_send t) UserInteractionCancelled else
  if deadline <=? ct_now t then cancel_with (ct_send t) UserActionTimedOut else
  match ct_poll t with
  | poll_failed => st_throw system_error
  | poll_nothing => st_ret None
  | poll_no_input => st_throw VerifierSocketError
  | poll_input r =>
      let! message := on_socket (receive_message pam_verifier r) in
      st_ret (Some message)
  end.

(** After the secret callback has returned a secret. *)
Definition answer_secret (t : ClientTurn) (secret : list Z) : ST Client () :=
  if ct_stop_after t then cancel_with (ct_send t) OperationCancelled else
  let! cancelled := on_world (cancellation_requested cb (ct_cancel_after t)) in
  if (cancelled : bool) then cancel_with (ct_send t) UserInteractionCancelled else
  on_socket (send_message daemon (SecretResponse secret) (ct_send t)).

(** [Ret None] goes on with the next turn, [Ret (Some r)] is [return r]. *)
Definition client_turn (deadline : Z) (t : ClientTurn) (c : Client)
    : option (res (option VerificationResult) * Client) :=
  match await_message deadline t (mkClient (cl_socket c) (ct_others t (cl_world c))) with
  | (Throw e, c) => Some (Throw e, c)
  | (Ret None, c) => Some (Ret None, c)
  | (Ret (Some message), c) =>
      match message with
      | VerificationStatus kind text =>
          Some ((let! _ := on_world (status_callback cb (ct_callback t) kind text) in st_ret None) c)
      | SecretRequired prompt =>
          match secret_callback cb (ct_callback t) prompt (cl_world c) with
          | None => None
          | Some (Throw e, w) => Some (Throw e, mkClient (cl_socket c) w)
          | Some (Ret secret, w) =>
              Some ((let! _ := answer_secret t secret in st_ret None) (mkClient (cl_socket c) w))
          end
      | VerificationComplete result => Some (Ret (Some result), c)
      | _ => Some (Throw VerifierConversationError, c)
      end
  end.

Fixpoint client_loop (deadline : Z) (env : list ClientTurn) (c : Client)
    : option (res VerificationResult) * Client :=
  match env with
  | [] => (None, c)
  | t :: env =>
      match client_turn deadline t c with
      | None => (None, c)
      | Some (Throw e, c) => (Some (Throw e), c)
      | Some (Ret (Some result), c) => (Some (Ret result), c)
      | Some (Ret None, c) => client_loop deadline env c
      end
  end.

(** What happens before the loop. *)
Record ClientStart := mkClientStart {
  cs_stop : bool;
  cs_cancel : E;
  cs_now : Z;
  cs_connect : res Z;
  cs_send : send_result;
}.

(** The socket of a call that has not connected. *)
Definition unconnected (w : S) : Client := mkClient (endpoint_new (-1)) w.

Definition open_conversation (uid : Z) (session : list Z) (timeout : Z) (i : ClientStart) : ST Client () :=
  if cs_stop i then st_throw OperationCancelled else
  let! cancelled := on_world (cancellation_requested cb (cs_cancel i)) in
  if (cancelled : bool) then st_throw UserInteractionCancelled else
  if timeout <=? 0 then st_throw invalid_argument else
  let! fd := st_lift (cs_connect i) in
  let! _ := on_socket (λ _, (Ret (), endpoint_new fd)) in
  on_socket (send_message daemon (StartVerification uid session) (cs_send i)).

Definition run_verifier_service (uid : Z) (session : list Z) (timeout : Z) (i : ClientStart)
    (env : list ClientTurn) (w : S) : option (res VerificationResult) * Client :=
  match open_conversation uid session timeout i (unconnected w) with
  | (Throw e, c) => (Some (Throw e), c)
  | (Ret _, c) => client_loop (cs_now i + timeout) env c
  end.

(** ** The client follows the protocol *)

Definition client_follows (c : Client) : Prop := follows (cl_socket c).
Definition client_left {A} (r : res A) (c : Client) : Prop := left_by pam_verifier r (cl_socket c).

Lemma wp_on_socket {A} (m : ST Endpoint A) Q c :
  wp m (λ r e, Q r (mkClient e (cl_world c))) (cl_socket c) → wp (on_socket m) Q c.
Proof. unfold wp, on_socket. by destruct (m (cl_socket c)). Qed.

Lemma wp_on_world {A} (m : ST S A) Q c :
  (∀ r w, m (cl_world c) = (r, w) → Q r (mkClient (cl_socket c) w)) → wp (on_world m) Q c.
Proof. intros HQ. unfold wp, on_world. destruct (m (cl_world c)). by apply HQ. Qed.

Lemma wp_send_cancel r (Q : res () → Endpoint → Prop) e :
  ep_state e ≠ VerifierAwaitingStart →
  Q (Ret ()) e →
  (verifier_conversation_is_terminal (ep_state e) = false →
   Q (Ret ()) (advanced VerifierCancelled (wire daemon CancelVerification e))) →
  wp (send_cancel r) Q e.
Proof.
  intros Hs Hsame Hsent. apply wp_bind, wp_get.
  destruct (verifier_conversation_is_terminal (ep_state e)) eqn:Et; [by apply wp_ret|].
  apply wp_catch. eapply wp_send_message.
  - by destruct (ep_state e).
  - intros ex. by apply wp_ret.
  - by apply Hsent.
Qed.

(** The client has started a verification and nobody broke the protocol. *)
Definition talking (c : Client) : Prop :=
  client_follows c ∧ ep_state (cl_socket c) ≠ VerifierAwaitingStart.

Lemma cancel_with_follows {A} r e c (Q : res A → Client → Prop) :
  talking c → (∀ c', client_follows c' → Q (Throw e) c') → wp (cancel_with r e) Q c.
Proof.
  intros [Hf Hs] HQ. apply wp_bind, wp_on_socket, wp_send_cancel; [done| |].
  - apply wp_throw. by apply HQ.
  - intros Ht. apply wp_throw, HQ. apply follows_advance; [done|].
    by destruct (cl_socket c) as [fd []].
Qed.

(** What has been received when a turn goes on. *)
Definition got (c : Client) (r : res (option VerifierMessage)) (c' : Client) : Prop :=
  match r with
  | Ret None => talking c'
  | Ret (Some m) => talking c' ∧ last (ep_trace (cl_socket c')) = Some (pam_verifier, m) ∧
      match m with
      | SecretRequired _ => ep_state (cl_socket c') = VerifierAwaitingSecret
      | VerificationComplete result => ep_state (cl_socket c') = VerifierCompleted result
      | _ => True
      end
  | Throw e => left_by pam_verifier (Throw e : res ()) (cl_socket c')
  end.

Lemma advance_received s m s' :
  advance_verifier_conversation s pam_verifier m = Ret s' →
  s' ≠ VerifierAwaitingStart ∧
  match m with
  | SecretRequired _ => s' = VerifierAwaitingSecret
  | VerificationComplete result => s' = VerifierCompleted result
  | VerificationStatus _ _ => s' = VerifierVerifying
  | _ => False
  end.
Proof.
  unfold advance_verifier_conversation. rewrite bind_unit_ret. intros [_ Ha].
  destruct s, m; try done; simpl in Ha; simplify_eq; try done.
  case_match; by simplify_eq.
Qed.

Lemma await_message_got deadline t c :
  talking c → wp (await_message deadline t) (got c) c.
Proof.
  intros Ht. unfold await_message.
  assert (∀ e c', client_follows c' → got c (Throw e) c') as Hth by (intros e c' Hc; by left).
  destruct (ct_stop t); [by apply cancel_with_follows; eauto|].
  apply wp_bind, wp_on_world. intros [[]|e] w Hw; [by apply cancel_with_follows; eauto| |by apply Hth, Ht].
  cbn [cl_socket]. assert (talking (mkClient (cl_socket c) w)) as Ht' by done.
  destruct (deadline <=? ct_now t); [by apply cancel_with_follows; eauto|].
  destruct (ct_poll t) as [| | |r]; [by apply wp_throw, Hth, Ht'|by apply wp_ret|
    by apply wp_throw, Hth, Ht'|].
  apply wp_bind, wp_on_socket, wp_receive_message.
  - intros ex. by apply Hth, Ht'.
  - intros m s _ Ha. apply wp_ret. destruct (advance_received _ _ _ Ha) as [Hs Hm].
    split; [split; [by apply follows_advance; [apply Ht'|]|done]|].
    split; [apply last_snoc|]. by destruct m.
  - intros m Ha. right. split; [|done].
    exists (ep_trace (cl_socket c)), m. split_and!; [done|apply Ht|done].
Qed.

Lemma answer_secret_follows t secret c :
  talking c → ep_state (cl_socket c) = VerifierAwaitingSecret →
  wp (answer_secret t secret) (λ r c', client_follows c' ∧ (is_ret r = true → talking c')) c.
Proof.
  intros Ht Hs. unfold answer_secret.
  destruct (ct_stop_after t); [apply cancel_with_follows; [done|by intros]|].
  apply wp_bind, wp_on_world. intros [[]|e] w Hw.
  - apply cancel_with_follows; [done|by intros].
  - apply wp_on_socket. eapply (wp_send_message _ _ _ VerifierVerifying).
    + cbn [cl_socket]. by rewrite Hs.
    + intros ex. by split; [apply Ht|].
    + assert (client_follows (mkClient (advanced VerifierVerifying
        (wire daemon (SecretResponse secret) (cl_socket c))) w)) as Hf.
      { apply follows_advance; [apply Ht|]. by rewrite Hs. }
      split; [done|]. intros _. by split.
  - by split; [apply Ht|].
Qed.

(** How the conversation stands when the client is done, or still running. *)
Definition client_outcome (o : option (res VerificationResult)) (c : Client) : Prop :=
  match o with
  | None => client_follows c
  | Some (Ret result) =>
      client_follows c ∧ ep_state (cl_socket c) = VerifierCompleted result ∧
      last (ep_trace (cl_socket c)) = Some (pam_verifier, VerificationComplete result)
  | Some (Throw e) => left_by pam_verifier (Throw e : res ()) (cl_socket c)
  end.

Definition turn_outcome (o : res (option VerificationResult)) (c : Client) : Prop :=
  match o with
  | Ret None => talking c
  | Ret (Some result) => client_outcome (Some (Ret result)) c
  | Throw e => client_outcome (Some (Throw e)) c
  end.

Lemma client_turn_outcome deadline t c r c' :
  talking c → client_turn deadline t c = Some (r, c') → turn_outcome r c'.
Proof.
  intros Ht. unfold client_turn.
  set (c0 := mkClient (cl_socket c) (ct_others t (cl_world c))).
  pose proof (await_message_got deadline t c0 Ht) as Hg. unfold wp in Hg.
  destruct (await_message deadline t c0) as [[[m|]|e] c1]; simpl in Hg;
    [|by intros [= <- <-]|by intros [= <- <-]].
  destruct Hg as (Ht1 & Hlast & Hm). destruct m as [| | |kind text|prompt|result].
  1-3: intros [= <- <-]; left; apply Ht1.
  - intros [= Er]. unfold st_bind, on_world in Er.
    destruct (status_callback cb _ _ _ _) as [[[]|e] w]; injection Er as <- <-; [apply Ht1|left; apply Ht1].
  - destruct (secret_callback cb _ _ _) as [[[secret|e] w]|]; [| |done].
    + intros [= Er]. pose proof (answer_secret_follows t secret (mkClient (cl_socket c1) w) Ht1 Hm) as Ha.
      unfold wp, st_bind in *. destruct (answer_secret t secret _) as [[[]|e] c2];
        injection Er as <- <-; destruct Ha as [Ha1 Ha2]; [by apply Ha2|by left].
    + intros [= <- <-]. left. apply Ht1.
  - intros [= <- <-]. split; [apply Ht1|done].
Qed.

Lemma client_loop_outcome deadline env c :
  talking c → client_outcome (client_loop deadline env c).1 (client_loop deadline env c).2.
Proof.
  revert c. induction env as [|t env IH]; intros c Ht; [apply Ht|]. simpl.
  destruct (client_turn deadline t c) as [[[[result|]|e] c']|] eqn:Et; [..|apply Ht].
  - by apply (client_turn_outcome _ _ _ _ _ Ht) in Et.
  - apply IH. by apply (client_turn_outcome _ _ _ _ _ Ht) in Et.
  - by apply (client_turn_outcome _ _ _ _ _ Ht) in Et.
Qed.

Lemma open_conversation_talking uid session timeout i w :
  wp (open_conversation uid session timeout i)
    (λ r c, match r with Ret _ => talking c ∧
       ep_trace (cl_socket c) = [(daemon, StartVerification uid session)] | Throw e => client_follows c end)
    (unconnected w).
Proof.
  unfold open_conversation. destruct (cs_stop i); [done|].
  apply wp_bind, wp_on_world. intros [[]|e] w' _; [done| |done].
  destruct (timeout <=? 0); [done|]. apply wp_bind, wp_lift. destruct (cs_connect i) as [fd|]; [|done].
  apply wp_bind, wp_on_socket. unfold wp at 1. apply wp_on_socket.
  by eapply (wp_send_message _ _ _ VerifierVerifying).
Qed.

Lemma run_verifier_service_outcome uid session timeout i env w :
  let '(o, c) := run_verifier_service uid session timeout i env w in client_outcome o c.
Proof.
  unfold run_verifier_service.
  pose proof (open_conversation_talking uid session timeout i w) as Ho. unfold wp in Ho.
  destruct (open_conversation _ _ _ _ _) as [[[]|e] c]; simpl in Ho.
  - destruct Ho as [Ht _]. pose proof (client_loop_outcome (cs_now i + timeout) env c Ht).
    by destruct (client_loop _ _ _).
  - by left.
Qed.

(** ** The client comes to an end *)

Lemma client_turn_deadline deadline t c :
  deadline ≤ ct_now t → ∃ e c', client_turn deadline t c = Some (Throw e, c').
Proof.
  intros Hd. unfold client_turn, await_message.
  assert (∀ r e c0, ∃ c1, cancel_with (A:=option VerifierMessage) r e c0 = (Throw e, c1)) as Hc.
  { intros r e c0. unfold cancel_with, st_bind, on_socket, send_cancel, st_bind, st_get.
    destruct (verifier_conversation_is_terminal _); [by eexists|].
    unfold st_catch. destruct (send_message _ _ _ _) as [[[]|]]; by eexists. }
  destruct (ct_stop t).
  { destruct (Hc (ct_send t) OperationCancelled
      (mkClient (cl_socket c) (ct_others t (cl_world c)))) as [c1 ->]. by eexists _, _. }
  unfold st_bind at 1, on_world at 1.
  destruct (cancellation_requested cb _ _) as [[[]|e] w]; cbn beta iota zeta delta [cl_socket];
    [| |by eexists _, _].
  - destruct (Hc (ct_send t) UserInteractionCancelled (mkClient (cl_socket c) w)) as [c1 ->].
    by eexists _, _.
  - rewrite (proj2 (Z.leb_le _ _) Hd).
    destruct (Hc (ct_send t) UserActionTimedOut (mkClient (cl_socket c) w)) as [c1 ->]. by eexists _, _.
Qed.

Definition secrets_return (env : list ClientTurn) : Prop :=
  Forall (λ t, ∀ prompt w, is_Some (secret_callback cb (ct_callback t) prompt w)) env.

Lemma client_loop_ends deadline env c :
  secrets_return env →
  Exists (λ t, deadline ≤ ct_now t) env → is_Some (client_loop deadline env c).1.
Proof.
  intros Hcb He. revert c. induction He as [t env Hd|t env _ IH]; intros c; simpl.
  - destruct (client_turn_deadline deadline t c Hd) as (e & c' & ->). by eexists.
  - apply Forall_cons in Hcb as [Ht Hcb].
    assert (is_Some (client_turn deadline t c)) as [[[[r|]|e] c'] ->]; [|by eexists|by apply IH|by eexists].
    unfold client_turn. destruct (await_message _ _ _) as [[[[]|]|] c1]; try by eexists.
    destruct (Ht prompt (cl_world c1)) as [[[]] ->]; by eexists.
Qed.

Lemma run_verifier_service_ends uid session timeout i env w :
  secrets_return env → Exists (λ t, cs_now i + timeout ≤ ct_now t) env →
  is_Some (run_verifier_service uid session timeout i env w).1.
Proof.
  intros Hcb He. unfold run_verifier_service.
  destruct (open_conversation uid session timeout i _) as [[[]|e] c]; [by apply client_loop_ends|done].
Qed.

(** ** What the callbacks keep

    [I] is an invariant of the callbacks' state, [ok] says which secrets may be sent: both
    are kept by the callbacks and by the other threads. *)
Section invariant.
Context (I : S → Prop) (le : S → S → Prop) `{!PreOrder le} (ok : list Z → S → Prop).

Definition keeps {A} (Q : res A → S → Prop) (m : ST S A) : Prop :=
  ∀ w, I w → wp m (λ r w', I w' ∧ le w w' ∧ Q r w') w.

Record callbacks_keep (env : list ClientTurn) : Prop := {
  ck_ok : ∀ secret w w', le w w' → ok secret w → ok secret w';
  ck_others : Forall (λ t, ∀ w, I w → I (ct_others t w) ∧ le w (ct_others t w)) env;
  ck_cancel : ∀ e, keeps (λ _ _, True) (cancellation_requested cb e);
  ck_status : ∀ e kind text, keeps (λ _ _, True) (status_callback cb e kind text);
  ck_secret : ∀ e prompt w r w', I w → secret_callback cb e prompt w = Some (r, w') →
    I w' ∧ le w w' ∧ ∀ secret, r = Ret secret → ok secret w';
}.

(** The invariant of the client: every secret it has sent is allowed. *)
Definition client_keeps (w0 : S) (c : Client) : Prop :=
  I (cl_world c) ∧ le w0 (cl_world c) ∧
  ∀ secret, (daemon, SecretResponse secret) ∈ ep_trace (cl_socket c) → ok secret (cl_world c).

Context (env0 : list ClientTurn) (Hkeep : callbacks_keep env0) (w0 : S).

Lemma client_keeps_world c w :
  client_keeps w0 c → I w → le (cl_world c) w → client_keeps w0 (mkClient (cl_socket c) w).
Proof.
  intros (HI & Hle & Hok) Hw Hlt. split_and!; [done|by etrans|].
  intros secret Hin. by eapply (ck_ok _ Hkeep), Hok.
Qed.

Lemma client_keeps_socket c e m who :
  client_keeps w0 c →
  ep_trace e = ep_trace (cl_socket c) ∨ ep_trace e = ep_trace (cl_socket c) ++ [(who, m)] →
  (∀ secret, (who, m) = (daemon, SecretResponse secret) → ok secret (cl_world c)) →
  client_keeps w0 (mkClient e (cl_world c)).
Proof.
  intros (HI & Hle & Hok) He Hm. split_and!; [done..|]. simpl. intros secret Hin.
  destruct He as [He|He]; rewrite He in Hin; [by apply Hok|].
  apply elem_of_app in Hin as [Hin|Hin%list_elem_of_singleton]; [by apply Hok|by apply Hm].
Qed.

Lemma wp_on_world_keeps {A} (m : ST S A) P (Q : res A → Client → Prop) c :
  client_keeps w0 c → keeps P m →
  (∀ r w, client_keeps w0 (mkClient (cl_socket c) w) → P r w → Q r (mkClient (cl_socket c) w)) →
  wp (on_world m) Q c.
Proof.
  intros Hc Hm HQ. apply wp_on_world. intros r w Er.
  pose proof (wp_run _ _ _ _ _ (Hm (cl_world c) (proj1 Hc)) Er) as (HI & Hle & HP).
  apply HQ; [by apply client_keeps_world|done].
Qed.

Lemma send_keeps m r c :
  client_keeps w0 c → (∀ secret, m = SecretResponse secret → ok secret (cl_world c)) →
  wp (on_socket (send_message daemon m r)) (λ _ c', client_keeps w0 c') c.
Proof.
  intros Hc Hm. apply wp_on_socket. eapply wp_mono; [|apply send_trace]. simpl. intros _ e He.
  apply (client_keeps_socket c e m daemon); [done..|]. intros secret [= ->]. by apply Hm.
Qed.

Lemma cancel_with_keeps {A} r e c :
  client_keeps w0 c → wp (cancel_with (A:=A) r e) (λ _ c', client_keeps w0 c') c.
Proof.
  intros Hc. apply wp_bind, wp_on_socket. apply wp_bind, wp_get.
  destruct (verifier_conversation_is_terminal _); [by apply wp_ret, wp_throw; destruct c|].
  apply wp_catch. eapply wp_mono; [|apply send_trace]. intros o e' He.
  assert (client_keeps w0 (mkClient e' (cl_world c))) as Hc'
    by (by apply (client_keeps_socket c e' CancelVerification daemon)).
  by destruct o as [[]|]; [apply wp_throw|apply wp_ret, wp_throw].
Qed.

Lemma await_message_keeps deadline t c :
  client_keeps w0 c → wp (await_message deadline t) (λ _ c', client_keeps w0 c') c.
Proof.
  intros Hc. unfold await_message. destruct (ct_stop t); [by apply cancel_with_keeps|].
  apply wp_bind. eapply wp_on_world_keeps; [done|by apply (ck_cancel _ Hkeep)|].
  intros [[]|e] w Hw _; [by apply cancel_with_keeps| |done].
  destruct (deadline <=? ct_now t); [by apply cancel_with_keeps|].
  destruct (ct_poll t) as [| | |r]; [by apply wp_throw|by apply wp_ret|by apply wp_throw|].
  apply wp_bind, wp_on_socket. eapply wp_mono; [|apply receive_trace]. intros o e [m He].
  assert (client_keeps w0 (mkClient e w)) by (by apply (client_keeps_socket _ e m pam_verifier Hw)).
  by destruct o; [apply wp_ret|].
Qed.

Lemma answer_secret_keeps t secret c :
  client_keeps w0 c → ok secret (cl_world c) →
  wp (answer_secret t secret) (λ _ c', client_keeps w0 c') c.
Proof.
  intros Hc Hok. unfold answer_secret. destruct (ct_stop_after t); [by apply cancel_with_keeps|].
  apply wp_bind, wp_on_world. intros r w Er.
  pose proof (wp_run _ _ _ _ _ (ck_cancel _ Hkeep (ct_cancel_after t) _ (proj1 Hc)) Er) as (HI & Hle & _).
  assert (client_keeps w0 (mkClient (cl_socket c) w)) as Hw by (by apply client_keeps_world).
  destruct r as [[]|e]; [by apply cancel_with_keeps| |done].
  apply send_keeps; [done|]. intros ? [= <-]. by eapply (ck_ok _ Hkeep).
Qed.

Lemma client_turn_keeps deadline t c r c' :
  t ∈ env0 → client_keeps w0 c → client_turn deadline t c = Some (r, c') → client_keeps w0 c'.
Proof.
  intros Ht Hc. unfold client_turn.
  set (c0 := mkClient (cl_socket c) (ct_others t (cl_world c))).
  assert (client_keeps w0 c0) as Hc0.
  { pose proof (proj1 (Forall_forall _ _) (ck_others _ Hkeep) t Ht _ (proj1 Hc)) as [HI Hle].
    by apply client_keeps_world. }
  pose proof (await_message_keeps deadline t c0 Hc0) as Hg. unfold wp in Hg.
  destruct (await_message deadline t c0) as [[[m|]|e] c1]; simpl in Hg;
    [|by intros [= <- <-]|by intros [= <- <-]].
  destruct m as [| | |kind text|prompt|result]; try by intros [= <- <-].
  - intros [= Er]. assert (wp (on_world (status_callback cb (ct_callback t) kind text))
      (λ _ c', client_keeps w0 c') c1) as Hst
      by (eapply wp_on_world_keeps; [done|by apply (ck_status _ Hkeep)|done]).
    unfold wp, st_bind in *. destruct (on_world _ c1) as [[[]|e] c2]; by injection Er as <- <-.
  - destruct (secret_callback cb _ _ _) as [[o w]|] eqn:Es; [|done].
    destruct (ck_secret _ Hkeep _ _ _ _ _ (proj1 Hg) Es) as (HI & Hle & Hok).
    assert (client_keeps w0 (mkClient (cl_socket c1) w)) as Hw by (by apply client_keeps_world).
    destruct o as [secret|e]; [|by intros [= <- <-]].
    intros [= Er]. pose proof (answer_secret_keeps t secret _ Hw (Hok _ eq_refl)) as Ha.
    unfold wp, st_bind in *. destruct (answer_secret t secret _) as [[[]|e] c2]; by injection Er as <- <-.
Qed.

Lemma client_loop_keeps deadline env c :
  Forall (.∈ env0) env → client_keeps w0 c → client_keeps w0 (client_loop deadline env c).2.
Proof.
  revert c. induction env as [|t env IH]; intros c Hsub Hc; simpl; [done|].
  apply Forall_cons in Hsub as [Ht Hsub].
  destruct (client_turn deadline t c) as [[o c']|] eqn:Et; [|done].
  apply client_turn_keeps in Et; [|done..].
  destruct o as [[result|]|e]; [done|by apply IH|done].
Qed.

Lemma run_verifier_service_keeps uid session timeout i :
  I w0 → client_keeps w0 (run_verifier_service uid session timeout i env0 w0).2.
Proof.
  intros HI. unfold run_verifier_service.
  assert (client_keeps w0 (unconnected w0)) as H0.
  { split_and!; [done|reflexivity|]. intros secret Hin. by apply not_elem_of_nil in Hin. }
  assert (wp (open_conversation uid session timeout i) (λ _ c, client_keeps w0 c) (unconnected w0)) as Ho.
  { unfold open_conversation. destruct (cs_stop i); [done|].
    apply wp_bind. eapply wp_on_world_keeps; [done|by apply (ck_cancel _ Hkeep)|].
    intros [[]|e] w Hw _; [done| |done]. destruct (timeout <=? 0); [done|].
    apply wp_bind, wp_lift. destruct (cs_connect i) as [fd|]; [|done].
    apply wp_bind, wp_on_socket. unfold wp at 1. cbn [fst snd].
    apply send_keeps; [|done]. by apply (client_keeps_socket _ (endpoint_new fd) CancelVerification daemon Hw); [left|]. }
  unfold wp in Ho. destruct (open_conversation _ _ _ _ _) as [[[]|e] c]; [|done].
  apply client_loop_keeps; [by apply Forall_forall|exact Ho].
Qed.
End invariant.
End client.
Arguments Callbacks : clear implicits.
Arguments Client : clear implicits.
Arguments ClientTurn : clear implicits.
Arguments ClientStart : clear implicits.
