(* ===== verification/VerifierService.v ===== *)
(** * The PAM verifier service (src/src/uv/src/cancellable_process.cpp,
    src/src/uv/src/pam_verifier_service.cpp)

    The service accepts one connection of the daemon, checks who is asking and whose session
    is to be verified, and runs the PAM handler as a child process, relaying the messages
    between the two.  As in VerifierClient.v, system calls are given by their results and
    one turn of the supervision loop by what it finds. *)
From Stdlib Require Import ZArith Lia.
From stdpp Require Import base list strings.
From S2P Require Import Prelude AgentService VerifierProtocol VerifierConversation VerifierSocket.
From S2P Require Import VerifierClient.

(** ** Child processes (class ChildProcess) *)

Definition SIGINT : Z := 2.
Definition SIGKILL : Z := 9.
Definition SIGTERM : Z := 15.

(** The answers of [waitpid]. *)
Inductive wait_status :=
  | w_running | w_interrupted | w_no_child | w_failed
  | w_exited (code : Z) | w_signaled | w_other.

(** The process identifier, [-1] when there is nothing left to reap, the signals sent to the
    process group, and the program and arguments it was started with. *)
Record Child := mkChild { ch_pid : Z; ch_signals : list Z; ch_argv : list (list Z) }.

Definition reaped (c : Child) : Child := mkChild (-1) (ch_signals c) (ch_argv c).
Definition signalled (signal : Z) (c : Child) : Child := mkChild (ch_pid c) (ch_signals c ++ [signal]) (ch_argv c).

Definition child_poll (w : wait_status) : ST Child (option Z) := λ c,
  match w with
  | w_running | w_interrupted => (Ret None, c)
  | w_no_child | w_failed => (Throw system_error, c)
  | w_exited code => (Ret (Some code), reaped c)
  | w_signaled | w_other => (Throw runtime_error, reaped c)
  end.

(** [polls]: the answers of the polls made before the grace period is over. *)
Fixpoint wait_for_exit (polls : list wait_status) (c : Child) : bool * Child :=
  match polls with
  | [] => (false, c)
  | (w_exited _ | w_signaled | w_other | w_no_child) :: _ => (true, reaped c)
  | w_failed :: _ => (false, c)
  | (w_running | w_interrupted) :: polls => wait_for_exit polls c
  end.

(** The two grace periods, of 2 seconds and of 500 milliseconds. *)
Record Graces := mkGraces { g_interrupt : list wait_status; g_terminate : list wait_status }.

Definition terminate_and_reap (g : Graces) (c : Child) : Child :=
  if ch_pid c <=? 0 then c else
  let '(gone, c) := wait_for_exit (g_interrupt g) (signalled SIGINT c) in
  if (gone : bool) then c else
  let '(gone, c) := wait_for_exit (g_terminate g) (signalled SIGTERM c) in
  if (gone : bool) then c else
  reaped (signalled SIGKILL c).

(** ** Spawning the child *)

Definition VERIFIER_SOCKET_FD : Z := 3.
Definition STDERR_FILENO : Z := 2.

(** [make_verifier_socket_pair] *)
Definition make_verifier_socket_pair (r : option (Z * Z)) : res (Z * Z) :=
  match r with None => Throw system_error | Some descriptors => Ret descriptors end.

(** [duplicate]: what [fcntl(F_DUPFD_CLOEXEC)] answers. *)
Definition move_above_auth_descriptors (descriptor : Z) (duplicate : Z) : res Z :=
  if (descriptor =? VERIFIER_SOCKET_FD) || (descriptor =? VERIFIER_SOCKET_FD + 1) then
    throw_if duplicate <? 0 as system_error ;; Ret duplicate
  else Ret descriptor.

(** What the child does with its descriptors before it runs the program. *)
Inductive file_action := fa_dup2 (fd target : Z) | fa_closefrom (fd : Z).

Definition spawn_file_actions (verifier_fd : Z) : list file_action :=
  (if 0 <=? verifier_fd then [fa_dup2 verifier_fd VERIFIER_SOCKET_FD] else []) ++
  [fa_closefrom (if 0 <=? verifier_fd then VERIFIER_SOCKET_FD + 1 else STDERR_FILENO + 1)].

(** A descriptor table, from numbers to open files. *)
Definition apply_action {F} (table : Z → option F) (a : file_action) : Z → option F :=
  match a with
  | fa_dup2 fd target => λ n, if n =? target then table fd else table n
  | fa_closefrom fd => λ n, if fd <=? n then None else table n
  end.

(** The calls that prepare the spawn, by their return codes, and the child's pid. *)
Record Spawn := mkSpawn { sp_codes : list Z; sp_pid : Z }.

Definition spawn_program (path : list Z) (arguments : list (list Z)) (s : Spawn) : res Child :=
  let argv := path :: arguments in
  throw_if negb (forallb (λ rc, rc =? 0) (sp_codes s)) as system_error ;;
  Ret (mkChild (sp_pid s) [] argv).

(** [arm_parent_death_signal]: whether [prctl] succeeds, and [getppid]. *)
Definition arm_parent_death_signal (expected_parent : Z) (prctl_ok : bool) (ppid : Z) : res () :=
  throw_if expected_parent <=? 1 as invalid_argument ;;
  throw_if negb prctl_ok as system_error ;;
  throw_if negb (ppid =? expected_parent) as runtime_error ;;
  Ret ().

(** ** Supervising the child (run_cancellable_verifier_program) *)

Section program.
Context {S E : Type}.
Context (cb : Callbacks S E).

Record Program := mkProgram {
  pg_socket : Endpoint;
  pg_child : Child;
  pg_completion : option VerificationResult;
  pg_world : S;
}.

Definition on_endpoint {A} (m : ST Endpoint A) : ST Program A := λ p,
  let '(r, e) := m (pg_socket p) in
  (r, mkProgram e (pg_child p) (pg_completion p) (pg_world p)).
Definition on_child {A} (m : ST Child A) : ST Program A := λ p,
  let '(r, c) := m (pg_child p) in
  (r, mkProgram (pg_socket p) c (pg_completion p) (pg_world p)).
Definition on_owner {A} (m : ST S A) : ST Program A := λ p,
  let '(r, w) := m (pg_world p) in
  (r, mkProgram (pg_socket p) (pg_child p) (pg_completion p) w).
Definition set_world (w : S) (p : Program) : Program :=
  mkProgram (pg_socket p) (pg_child p) (pg_completion p) w.
Definition complete_with (r : VerificationResult) (p : Program) : Program :=
  mkProgram (pg_socket p) (pg_child p) (Some r) (pg_world p).
Definition reap (g : Graces) : ST Program () := on_child (λ c, (Ret (), terminate_and_reap g c)).

(** One poll of the inner loop, with what the callbacks and [send] answer. *)
Record ProgramInput := mkProgramInput {
  pi_poll : poll_event;
  pi_callback : E;
  pi_send : send_result;
}.

(** The lambda [receive_message]. *)
Definition relay_message (i : ProgramInput) (r : recv_result) (p : Program)
    : option (res () * Program) :=
  match on_endpoint (receive_message pam_verifier r) p with
  | (Throw e, p) => Some (Throw e, p)
  | (Ret message, p) =>
      match message with
      | VerificationStatus kind text => Some (on_owner (status_callback cb (pi_callback i) kind text) p)
      | SecretRequired prompt =>
          match secret_callback cb (pi_callback i) prompt (pg_world p) with
          | None => None
          | Some (Throw e, w) => Some (Throw e, set_world w p)
          | Some (Ret secret, w) =>
              Some (on_endpoint (send_message daemon (SecretResponse secret) (pi_send i)) (set_world w p))
          end
      | VerificationComplete result => Some (Ret (), complete_with result p)
      | _ => Some (Throw VerifierConversationError, p)
      end
  end.

(** [while(!completion)]: the inner loop, until there is nothing to read. *)
Fixpoint drain (inputs : list ProgramInput) (p : Program) : option (res () * Program) :=
  match inputs with
  | [] => Some (Ret (), p)
  | i :: inputs =>
      match pg_completion p with
      | Some _ => Some (Ret (), p)
      | None =>
          match pi_poll i with
          | poll_failed => Some (Throw system_error, p)
          | poll_nothing | poll_no_input => Some (Ret (), p)
          | poll_input r =>
              match relay_message i r p with
              | Some (Ret _, p) => drain inputs p
              | other => other
              end
          end
      end
  end.

Record ProgramTurn := mkProgramTurn {
  pt_inputs : list ProgramInput;
  pt_stop : bool;
  pt_cancel : E;
  pt_wait : wait_status;
  pt_now : Z;
  pt_send : send_result;
  pt_graces : Graces;
}.

(** [send_cancel(); child.terminate_and_reap(); throw e;] *)
Definition abandon {A} (t : ProgramTurn) (e : exn) : ST Program A :=
  let! _ := on_endpoint (send_cancel (pt_send t)) in
  let! _ := reap (pt_graces t) in
  st_throw e.

(** A turn of the outer loop after the inner one; [Ret None] goes on. *)
Definition check_child (deadline : Z) (t : ProgramTurn) : ST Program (option VerificationResult) :=
  if pt_stop t then abandon t OperationCancelled else
  let! cancelled := on_owner (cancellation_requested cb (pt_cancel t)) in
  if (cancelled : bool) then abandon t UserInteractionCancelled else
  let! child_status := on_child (child_poll (pt_wait t)) in
  match child_status with
  | Some status =>
      let! p := st_get in
      match pg_completion p with
      | None => st_throw runtime_error
      | Some completion =>
          let success_exit := status =? 0 in
          let success_result := completion =? result_success in
          if negb (eqb success_exit success_result) then st_throw runtime_error
          else st_ret (Some completion)
      end
  | None => if deadline <=? pt_now t then abandon t UserActionTimedOut else st_ret None
  end.

Fixpoint program_loop (deadline : Z) (env : list ProgramTurn) (p : Program)
    : option (res VerificationResult) * Program :=
  match env with
  | [] => (None, p)
  | t :: env =>
      match drain (pt_inputs t) p with
      | None => (None, p)
      | Some (Throw e, p) => (Some (Throw e), p)
      | Some (Ret _, p) =>
          match check_child deadline t p with
          | (Throw e, p) => (Some (Throw e), p)
          | (Ret (Some result), p) => (Some (Ret result), p)
          | (Ret None, p) => program_loop deadline env p
          end
      end
  end.

Record ProgramStart := mkProgramStart {
  ps_path : list Z;
  ps_arguments : list (list Z);
  ps_stop : bool;
  ps_cancel : E;
  ps_now : Z;
  ps_sockets : option (Z * Z);
  ps_duplicates : Z * Z;
  ps_descriptor : Descriptor;
  ps_spawn : Spawn;
  ps_send : send_result;
}.

Definition with_arguments (arguments : list (list Z)) (i : ProgramStart) : ProgramStart :=
  mkProgramStart (ps_path i) arguments (ps_stop i) (ps_cancel i) (ps_now i) (ps_sockets i)
    (ps_duplicates i) (ps_descriptor i) (ps_spawn i) (ps_send i).

Definition no_child : Child := mkChild (-1) [] [].

(** Up to the child's creation, and the first message to it. *)
Definition start_program (timeout : Z) (i : ProgramStart) : ST Program () :=
  if ps_stop i then st_throw OperationCancelled else
  let! cancelled := on_owner (cancellation_requested cb (ps_cancel i)) in
  if (cancelled : bool) then st_throw UserInteractionCancelled else
  if len (ps_path i) =? 0 then st_throw invalid_argument else
  if timeout <=? 0 then st_throw invalid_argument else
  let! sockets := st_lift (make_verifier_socket_pair (ps_sockets i)) in
  let! daemon_fd := st_lift (move_above_auth_descriptors sockets.1 (ps_duplicates i).1) in
  let! verifier_fd := st_lift (move_above_auth_descriptors sockets.2 (ps_duplicates i).2) in
  let! fd := st_lift (VerifierSocket_new daemon_fd (ps_descriptor i)) in
  let! child := st_lift (spawn_program (ps_path i) (ps_arguments i) (ps_spawn i)) in
  st_modify (λ p, mkProgram (endpoint_new fd) child None (pg_world p)).

(** [graces]: what the destructor of the child finds, whichever way the function ends. *)
Definition run_cancellable_verifier_program (uid : Z) (session : list Z) (timeout : Z)
    (i : ProgramStart) (env : list ProgramTurn) (graces : Graces) (w : S)
    : option (res VerificationResult) * Program :=
  match start_program timeout i (mkProgram (endpoint_new (-1)) no_child None w) with
  | (Throw e, p) => (Some (Throw e), p)
  | (Ret _, p) =>
      let '(o, p) :=
        match on_endpoint (send_message daemon (StartVerification uid session) (ps_send i)) p with
        | (Throw e, p) => (Some (Throw e), p)
        | (Ret _, p) => program_loop (ps_now i + timeout) env p
        end in
      match o with
      | None => (None, p)
      | Some r => (Some r, snd (reap graces p))
      end
  end.

(** ** The same supervision without a conversation (run_cancellable_program) *)

Record PlainTurn := mkPlainTurn {
  pl_stop : bool; pl_cancel : E; pl_wait : wait_status; pl_now : Z; pl_graces : Graces }.

(** [child.terminate_and_reap(); throw e;] *)
Definition give_up_child {A} (g : Graces) (e : exn) : ST Program A :=
  let! _ := reap g in st_throw e.

Definition plain_turn (deadline : Z) (t : PlainTurn) : ST Program (option Z) :=
  if pl_stop t then give_up_child (pl_graces t) OperationCancelled else
  let! cancelled := on_owner (cancellation_requested cb (pl_cancel t)) in
  if (cancelled : bool) then give_up_child (pl_graces t) UserInteractionCancelled else
  let! status := on_child (child_poll (pl_wait t)) in
  match status with
  | Some code => st_ret (Some code)
  | None => if deadline <=? pl_now t then give_up_child (pl_graces t) UserActionTimedOut else st_ret None
  end.

Fixpoint plain_loop (deadline : Z) (env : list PlainTurn) (p : Program) : option (res Z) * Program :=
  match env with
  | [] => (None, p)
  | t :: env =>
      match plain_turn deadline t p with
      | (Throw e, p) => (Some (Throw e), p)
      | (Ret (Some code), p) => (Some (Ret code), p)
      | (Ret None, p) => plain_loop deadline env p
      end
  end.

Definition run_cancellable_program (timeout : Z) (i : ProgramStart) (env : list PlainTurn)
    (graces : Graces) (w : S) : option (res Z) * Program :=
  let p := mkProgram (endpoint_new (-1)) no_child None w in
  if ps_stop i then (Some (Throw OperationCancelled), p) else
  match on_owner (cancellation_requested cb (ps_cancel i)) p with
  | (Throw e, p) => (Some (Throw e), p)
  | (Ret true, p) => (Some (Throw UserInteractionCancelled), p)
  | (Ret false, p) =>
      if len (ps_path i) =? 0 then (Some (Throw invalid_argument), p) else
      if timeout <=? 0 then (Some (Throw invalid_argument), p) else
      match spawn_program (ps_path i) (ps_arguments i) (ps_spawn i) with
      | Throw e => (Some (Throw e), p)
      | Ret child =>
          let '(o, p) := plain_loop (ps_now i + timeout) env
            (mkProgram (pg_socket p) child None (pg_world p)) in
          match o with
          | None => (None, p)
          | Some r => (Some r, snd (reap graces p))
          end
      end
  end.
End program.
Arguments Program : clear implicits.
Arguments ProgramInput : clear implicits.
Arguments ProgramTurn : clear implicits.
Arguments ProgramStart : clear implicits.
Arguments PlainTurn : clear implicits.

(** ** Accounts *)

Definition MAX_ACCOUNT_BUFFER_SIZE : Z := 1024 * 1024.

(** The answer of [getpwnam_r] or [getpwuid_r] for a buffer of a given size. *)
Inductive account_answer (A : Type) :=
  | ac_found (a : A) | ac_missing | ac_erange | ac_failed.
Arguments ac_found {A} a.
Arguments ac_missing {A}.
Arguments ac_erange {A}.
Arguments ac_failed {A}.

Definition first_buffer_size (suggested_size : Z) : Z :=
  Z.min (if 0 <? suggested_size then suggested_size else 16384) MAX_ACCOUNT_BUFFER_SIZE.

(** The loop that doubles the buffer; [missing] is the exception for an absent account. *)
Fixpoint account_loop {A} (fuel : nat) (lookup : Z → account_answer A) (missing : exn)
    (buffer_size : Z) : option (res A) :=
  match fuel with
  | O => None
  | Datatypes.S fuel =>
      match lookup buffer_size with
      | ac_found a => Some (Ret a)
      | answer =>
          if match answer with ac_erange => buffer_size =? MAX_ACCOUNT_BUFFER_SIZE | _ => true end
          then Some (Throw match answer with ac_missing => missing | _ => system_error end)
          else account_loop fuel lookup missing (Z.min (buffer_size * 2) MAX_ACCOUNT_BUFFER_SIZE)
      end
  end.

(** Twenty doublings reach the limit from any size (see [account_lookup_total]). *)
Definition ACCOUNT_FUEL : nat := 21.

Definition uid_for_username (suggested_size : Z) (lookup : Z → account_answer Z) : option (res Z) :=
  account_loop ACCOUNT_FUEL lookup runtime_error (first_buffer_size suggested_size).

Definition username_for_uid (requested_uid suggested_size : Z) (lookup : Z → account_answer (list Z))
    : option (res (list Z)) :=
  if U32_MAX <? requested_uid then Some (Throw invalid_argument) else
  account_loop ACCOUNT_FUEL lookup invalid_argument (first_buffer_size suggested_size).

(** ** The conversation with the daemon (class DaemonConversation) *)

(** What the daemon's socket answers during a call. *)
Record DaemonEvents := mkDaemonEvents {
  de_send : send_result; de_recv : recv_result; de_poll : poll_event }.

Definition receive_start (r : recv_result) : ST Endpoint (Z * list Z) :=
  let! message := receive_message daemon r in
  match message with
  | StartVerification uid session => st_ret (uid, session)
  | _ => st_throw VerifierConversationError
  end.

Definition send_from_verifier (message : VerifierMessage) (r : send_result) : ST Endpoint () :=
  send_message pam_verifier message r.

Definition request_secret (e : DaemonEvents) (prompt : list Z) : ST Endpoint (list Z) :=
  let! _ := send_from_verifier (SecretRequired prompt) (de_send e) in
  let! response := receive_message daemon (de_recv e) in
  match response with
  | CancelVerification => st_throw UserInteractionCancelled
  | SecretResponse secret => st_ret secret
  | _ => st_throw VerifierConversationError
  end.

Definition daemon_cancellation_requested (e : DaemonEvents) : ST Endpoint bool :=
  let! d := st_get in
  if verifier_conversation_is_terminal (ep_state d)
  then st_ret match ep_state d with VerifierCancelled => true | _ => false end
  else match de_poll e with
  | poll_failed => st_throw system_error
  | poll_nothing => st_ret false
  | poll_no_input => st_throw VerifierSocketError
  | poll_input r =>
      let! message := receive_message daemon r in
      match message with
      | CancelVerification => st_ret true
      | _ => st_throw VerifierConversationError
      end
  end.

Definition daemon_callbacks : Callbacks Endpoint DaemonEvents := {|
  status_callback e kind text := send_from_verifier (VerificationStatus kind text) (de_send e);
  secret_callback e prompt d := Some (request_secret e prompt d);
  cancellation_requested := daemon_cancellation_requested;
|}.

(** ** Authorisation *)

Definition authorize_verifier_peer (peer : VerifierPeerCredentials) (expected_daemon_uid : Z) : res () :=
  throw_if peer_pid peer <=? 0 as runtime_error ;;
  throw_if negb (peer_uid peer =? expected_daemon_uid) as runtime_error ;;
  Ret ().

Definition authorize_verification_session (targetUid : Z) (sessionId : list Z)
    (session : LoginSessionProperties) : res () :=
  throw_if len sessionId =? 0 as invalid_argument ;;
  throw_if U32_MAX <? targetUid as invalid_argument ;;
  validate_active_local_session session targetUid.

(** ** One connection (run_pam_verifier_connection) *)

(** [cn_query] and [cn_query_again]: what the session query answers before the child runs
    and after its success; [cn_username]: the account of the requested uid; [cn_program]: how
    the child is started, apart from its arguments; [cn_pid]: the service's own process
    identifier, as text. *)
Record Connection := mkConnection {
  cn_fd : Z;
  cn_peer : option (VerifierPeerCredentials * bool);
  cn_start : recv_result;
  cn_query : list Z → res LoginSessionProperties;
  cn_username : Z → res (list Z);
  cn_error_send : send_result;
  cn_pam_service : list Z;
  cn_configuration : list Z;
  cn_pid : list Z;
  cn_program : ProgramStart DaemonEvents;
  cn_turns : list (ProgramTurn DaemonEvents);
  cn_graces : Graces;
  cn_query_again : list Z → res LoginSessionProperties;
  cn_result_send : send_result;
}.

(** The daemon's endpoint and, once it was started, the supervised child. *)
Record ServiceState := mkServiceState {
  vs_daemon : Endpoint;
  vs_program : option (Program Endpoint);
}.

(** The constant VAUTH_AUTH_HANDLER_COMMAND. *)
Definition VAUTH_AUTH_HANDLER_COMMAND : list Z := lit "vauth_auth_handler".

Definition handler_arguments (c : Connection) (username : list Z) : list (list Z) :=
  [VAUTH_AUTH_HANDLER_COMMAND; username; cn_pam_service c; cn_configuration c; cn_pid c].

(** [try { m } catch(...) { daemon.complete(VerificationResult::error); throw; }] *)
Definition or_complete_error {A} (r : send_result) (m : res A) : ST Endpoint A :=
  match m with
  | Ret a => st_ret a
  | Throw e =>
      let! _ := send_from_verifier (VerificationComplete result_error) r in
      st_throw e
  end.

(** The peer check, the start message and the checks before the child: the target and the
    account name. *)
Definition admit_request (expected_daemon_uid timeout : Z) (c : Connection)
    : ST Endpoint (Z * list Z * list Z) :=
  if timeout <=? 0 then st_throw invalid_argument else
  let! peer := st_lift (peer_credentials (cn_fd c) (cn_peer c)) in
  let! _ := st_lift (authorize_verifier_peer peer expected_daemon_uid) in
  let! start := receive_start (cn_start c) in
  let '(targetUid, sessionId) := start in
  let! username := or_complete_error (cn_error_send c)
    (session ← cn_query c sessionId;
     _ ← authorize_verification_session targetUid sessionId session;
     cn_username c targetUid) in
  st_ret (targetUid, sessionId, username).

(** After the child: a success is checked against the session once more. *)
Definition report_result (targetUid : Z) (sessionId : list Z) (result : VerificationResult)
    (c : Connection) : ST Endpoint Z :=
  let! _ := (if result =? result_success then
               or_complete_error (cn_error_send c)
                 (session ← cn_query_again c sessionId;
                  authorize_verification_session targetUid sessionId session)
             else st_ret ()) in
  let! _ := send_from_verifier (VerificationComplete result) (cn_result_send c) in
  st_ret 0.

(** [catch(const UserInteractionCancelled&) { return 0; }] *)
Definition ignore_cancellation (r : res Z) : res Z :=
  match r with Throw UserInteractionCancelled => Ret 0 | r => r end.

Definition run_pam_verifier_connection (expected_daemon_uid timeout : Z) (c : Connection)
    : option (res Z) * ServiceState :=
  match admit_request expected_daemon_uid timeout c (endpoint_new (cn_fd c)) with
  | (Throw e, d) => (Some (Throw e), mkServiceState d None)
  | (Ret (targetUid, sessionId, username), d) =>
      let '(o, p) := run_cancellable_verifier_program daemon_callbacks targetUid sessionId timeout
                       (with_arguments (handler_arguments c username) (cn_program c)) (cn_turns c) (cn_graces c) d in
      match o with
      | None => (None, mkServiceState (pg_world p) (Some p))
      | Some (Throw e) =>
          (Some (ignore_cancellation (Throw e)), mkServiceState (pg_world p) (Some p))
      | Some (Ret result) =>
          let '(r, d) := report_result targetUid sessionId result c (pg_world p) in
          (Some (ignore_cancellation r), mkServiceState d (Some p))
      end
  end.
