(* ===== verification/VerifierServiceProofs.v ===== *)
(** * A verification succeeds only through PAM (proofs about VerifierService.v)

    The supervised child is always reaped, its conversation follows the protocol and its
    result agrees with its exit status; and the service reports success to the daemon only
    for an authorised request that the child verified, for a session that was and still is
    active, local and the user's own. *)
From Stdlib Require Import ZArith Lia.
From stdpp Require Import base list.
From S2P Require Import Prelude AgentService VerifierProtocol VerifierConversation VerifierSocket.
From S2P Require Import VerifierClient VerifierService.

(** ** Reaping *)

Lemma wait_for_exit_spec polls c :
  wait_for_exit polls c = (true, reaped c) ∨ wait_for_exit polls c = (false, c).
Proof. induction polls as [|[] polls IH]; simpl; auto. Qed.

(** The child is gone afterwards; the signals escalate in order, each one only when the
    child has outlived the grace period of the one before. *)
Lemma terminate_and_reap_spec g c :
  0 < ch_pid c →
  ch_pid (terminate_and_reap g c) = -1 ∧
  ∃ n, (1 ≤ n)%nat ∧
    ch_signals (terminate_and_reap g c) = ch_signals c ++ take n [SIGINT; SIGTERM; SIGKILL].
Proof.
  intros Hp. unfold terminate_and_reap. rewrite (proj2 (Z.leb_gt _ _) Hp).
  destruct (wait_for_exit_spec (g_interrupt g) (signalled SIGINT c)) as [-> | ->].
  { split; [done|]. by exists 1%nat. }
  destruct (wait_for_exit_spec (g_terminate g) (signalled SIGTERM (signalled SIGINT c))) as [-> | ->].
  { split; [done|]. exists 2%nat. split; [lia|]. simpl. by rewrite <- app_assoc. }
  split; [done|]. exists 3%nat. split; [lia|]. simpl. by rewrite <- !app_assoc.
Qed.

Lemma terminate_and_reap_done g c : ch_pid (terminate_and_reap g c) ≤ 0.
Proof.
  destruct (decide (0 < ch_pid c)) as [Hp|Hp].
  - destruct (terminate_and_reap_spec g c Hp) as [-> _]. lia.
  - unfold terminate_and_reap. rewrite (proj2 (Z.leb_le _ _)) by lia. lia.
Qed.

Lemma terminate_and_reap_argv g c : ch_argv (terminate_and_reap g c) = ch_argv c.
Proof.
  unfold terminate_and_reap. destruct (ch_pid c <=? 0); [done|].
  destruct (wait_for_exit_spec (g_interrupt g) (signalled SIGINT c)) as [-> | ->]; [done|].
  by destruct (wait_for_exit_spec (g_terminate g) (signalled SIGTERM (signalled SIGINT c))) as [-> | ->].
Qed.

(** ** The descriptors of the child *)

(** With the socket moved above the two reserved descriptors, the child runs with the
    standard streams, the verifier socket as descriptor 3, and nothing else. *)
Lemma child_descriptors {F} (table : Z → option F) fd duplicate verifier_fd :
  0 ≤ fd → VERIFIER_SOCKET_FD + 2 ≤ duplicate ∨ duplicate < 0 →
  move_above_auth_descriptors fd duplicate = Ret verifier_fd →
  let table' := foldl apply_action table (spawn_file_actions verifier_fd) in
  table' VERIFIER_SOCKET_FD = table verifier_fd ∧ verifier_fd ≠ VERIFIER_SOCKET_FD ∧
  (∀ n, n < VERIFIER_SOCKET_FD → table' n = table n) ∧
  (∀ n, VERIFIER_SOCKET_FD < n → table' n = None).
Proof.
  intros Hfd Hd Hm. unfold move_above_auth_descriptors, VERIFIER_SOCKET_FD in *.
  assert (0 ≤ verifier_fd ∧ verifier_fd ≠ 3) as [Hv Hv3].
  { destruct ((fd =? 3) || (fd =? 3 + 1)) eqn:E; [|by injection Hm as <-; reflect_bools].
    apply throw_if_ret in Hm as [Hm [= <-]]. reflect_bools. lia. }
  unfold spawn_file_actions, VERIFIER_SOCKET_FD. rewrite (proj2 (Z.leb_le _ _) Hv). simpl.
  split_and!; [done|done| |]; intros n Hn.
  - rewrite (proj2 (Z.leb_gt _ _)) by lia. by rewrite (proj2 (Z.eqb_neq _ _)) by lia.
  - by rewrite (proj2 (Z.leb_le _ _)) by lia.
Qed.

(** ** The supervision loop *)

Section program.
Context {S E : Type} (cb : Callbacks S E).
(** The owner of the callbacks: its state while the program runs, and when it is given up
    with an exception. *)
Context (running : S → Prop) (ended : exn → S → Prop) (argv : list (list Z)).
Hypothesis running_ended : ∀ e w, running w → ended e w.
Hypothesis status_spec : ∀ v kind text w, running w → is_valid_status_kind kind = true →
  wp (status_callback cb v kind text)
    (λ r w', match r with Ret _ => running w' | Throw e => ended e w' end) w.
Hypothesis secret_spec : ∀ v prompt w r w', running w →
  secret_callback cb v prompt w = Some (r, w') →
  match r with Ret _ => running w' | Throw e => ended e w' end.
Hypothesis cancel_spec : ∀ v w, running w →
  wp (cancellation_requested cb v)
    (λ r w', match r with
       | Ret true => ended UserInteractionCancelled w'
       | Ret false => running w'
       | Throw e => ended e w' end) w.

(** The child's conversation in progress, and its completion. *)
Definition program_ok (p : Program S) : Prop :=
  follows (pg_socket p) ∧ ep_state (pg_socket p) ≠ VerifierAwaitingStart ∧
  (∀ r, pg_completion p = Some r → ep_state (pg_socket p) = VerifierCompleted r) ∧
  running (pg_world p) ∧ ch_argv (pg_child p) = argv.

Definition program_left (e : exn) (p : Program S) : Prop :=
  left_by pam_verifier (Throw e : res ()) (pg_socket p) ∧ ended e (pg_world p).

Lemma program_ok_left e p : program_ok p → program_left e p.
Proof. intros (Hf & _ & _ & Hr & _). split; [by left|by apply running_ended]. Qed.

Lemma wp_on_endpoint {A} (m : ST Endpoint A) (Q : res A → Program S → Prop) p :
  wp m (λ r e, Q r (mkProgram e (pg_child p) (pg_completion p) (pg_world p))) (pg_socket p) →
  wp (on_endpoint m) Q p.
Proof. unfold wp, on_endpoint. by destruct (m (pg_socket p)). Qed.

Lemma wp_on_owner {A} (m : ST S A) (Q : res A → Program S → Prop) p :
  wp m (λ r w, Q r (set_world w p)) (pg_world p) → wp (on_owner m) Q p.
Proof. unfold wp, on_owner. by destruct (m (pg_world p)). Qed.

Lemma wp_on_child {A} (m : ST Child A) (Q : res A → Program S → Prop) p :
  wp m (λ r c, Q r (mkProgram (pg_socket p) c (pg_completion p) (pg_world p))) (pg_child p) →
  wp (on_child m) Q p.
Proof. unfold wp, on_child. by destruct (m (pg_child p)). Qed.

Lemma relay_message_ok i r p o p' :
  program_ok p → pg_completion p = None → relay_message cb i r p = Some (o, p') →
  match o with Ret _ => program_ok p' | Throw e => program_left e p' end.
Proof.
  intros Hok Hc. destruct (Hok) as (Hf & Hs & _ & Hr & Hargv). unfold relay_message.
  assert (wp (on_endpoint (receive_message pam_verifier r)) (λ o p1, pg_world p1 = pg_world p ∧
    pg_completion p1 = None ∧ ch_argv (pg_child p1) = argv ∧ match o with
    | Ret m => follows (pg_socket p1) ∧
        ∃ s, advance_verifier_conversation s pam_verifier m = Ret (ep_state (pg_socket p1))
    | Throw e => left_by pam_verifier (Throw e : res ()) (pg_socket p1) end) p) as Hw.
  { apply wp_on_endpoint, wp_receive_message.
    - intros ex. split_and!; [done|done|done|by left].
    - intros m s _ Ha. split_and!; [done|done|done|by apply follows_advance|by eexists].
    - intros m Ha. split_and!; [done|done|done|]. right. split; [|done].
      by exists (ep_trace (pg_socket p)), m. }
  unfold wp in Hw. destruct (on_endpoint _ p) as [[m|e] p1]; simpl in Hw; destruct Hw as (Ew & Ec & Hargv1 & Hw);
    [|intros [= <- <-]; split; [done|rewrite Ew; by apply running_ended]].
  destruct Hw as [Hf1 [s Ha]]. destruct (advance_received _ _ _ Ha) as [Hs1 Hm].
  assert (∀ w, running w → pg_completion p1 = None → program_ok (set_world w p1)) as Hok1.
  { intros w Hrw Hn. split_and!; [done|done| |done|done]. intros r0. simpl. congruence. }
  destruct m as [| | |kind text|prompt|result]; try done.
  - intros [= Eo]. pose proof (wp_on_owner (status_callback cb (pi_callback i) kind text)
      (λ o p', match o with Ret _ => program_ok p' | Throw e => program_left e p' end) p1) as Hst.
    unfold wp in Hst. rewrite Eo in Hst. apply Hst. rewrite Ew.
    assert (is_valid_status_kind kind = true) as Hk.
    { unfold advance_verifier_conversation in Ha. apply bind_unit_ret in Ha as [Ha _].
      apply throw_if_ret in Ha as [Ha _]. by apply negb_false_iff in Ha. }
    specialize (status_spec (pi_callback i) kind text (pg_world p) Hr Hk). unfold wp in status_spec.
    destruct (status_callback cb _ _ _ _) as [[[]|e] w]; [by apply Hok1|]. split; [by left|done].
  - destruct (secret_callback cb _ _ _) as [[[secret|e] w]|] eqn:Esec; [| |done].
    + apply (secret_spec _ _ _ _ _) in Esec as Hsec; [|by rewrite Ew].
      intros [= Eo]. pose proof (wp_on_endpoint (send_message daemon (SecretResponse secret) (pi_send i))
        (λ o p', match o with Ret _ => program_ok p' | Throw e => program_left e p' end)
        (set_world w p1)) as Hsend. unfold wp in Hsend. rewrite Eo in Hsend. apply Hsend.
      assert (advance_verifier_conversation (ep_state (pg_socket (set_world w p1))) daemon
        (SecretResponse secret) = Ret VerifierVerifying) as Hadv by (simpl; by rewrite Hm).
      eapply wp_send_message; [done| |].
      * intros ex. split; [by left|by apply running_ended].
      * split_and!; [by apply follows_advance|done| |done|done]. intros r0. simpl. congruence.
    + apply (secret_spec _ _ _ _ _) in Esec as Hsec; [|by rewrite Ew].
      intros [= <- <-]. split; [by left|done].
  - intros [= <- <-]. split_and!; [done|done| |simpl; by rewrite Ew|done].
    intros r0. simpl. by intros [= <-].
Qed.

Lemma drain_ok inputs p o p' :
  program_ok p → drain cb inputs p = Some (o, p') →
  match o with Ret _ => program_ok p' | Throw e => program_left e p' end.
Proof.
  revert p. induction inputs as [|i inputs IH]; intros p Hok; simpl; [by intros [= <- <-]|].
  destruct (pg_completion p) as [r|] eqn:Ec; [by intros [= <- <-]|].
  destruct (pi_poll i) as [| | |r]; [intros [= <- <-]; by apply program_ok_left|
    by intros [= <- <-]|by intros [= <- <-]|].
  destruct (relay_message cb i r p) as [[[u|e] p1]|] eqn:Er; [| |done].
  - apply IH. by apply relay_message_ok in Er.
  - intros [= <- <-]. by apply relay_message_ok in Er.
Qed.

Lemma abandon_left {A} (t : ProgramTurn E) e p :
  follows (pg_socket p) → ep_state (pg_socket p) ≠ VerifierAwaitingStart → ended e (pg_world p) →
  wp (abandon t e) (λ (r : res A) p', r = Throw e ∧ program_left e p') p.
Proof.
  intros Hf Hs He. apply wp_bind, wp_on_endpoint, wp_send_cancel; [done| |].
  - apply wp_bind, wp_on_child, wp_throw. split; [done|]. split; [by left|done].
  - intros Ht. apply wp_bind, wp_on_child, wp_throw. split; [done|]. split; [left|done].
    apply follows_advance; [done|]. by destruct (ep_state (pg_socket p)).
Qed.

(** The result agrees with the exit status of the child. *)
Definition agrees (t : ProgramTurn E) (result : VerificationResult) : Prop :=
  ∃ code, pt_wait t = w_exited code ∧ (code = 0 ↔ result = result_success).

Lemma check_child_ok deadline t p :
  program_ok p →
  wp (check_child cb deadline t) (λ o p', match o with
    | Ret None => program_ok p'
    | Ret (Some result) => program_ok p' ∧ pg_completion p' = Some result ∧ agrees t result
    | Throw e => program_left e p' end) p.
Proof.
  intros Hok. destruct (Hok) as (Hf & Hs & Hc & Hr & Hargv). unfold check_child.
  assert (∀ e p, follows (pg_socket p) → ep_state (pg_socket p) ≠ VerifierAwaitingStart →
    ended e (pg_world p) → wp (abandon t e) (λ o p', match o with
    | Ret None => program_ok p'
    | Ret (Some result) => program_ok p' ∧ pg_completion p' = Some result ∧ agrees t result
    | Throw e => program_left e p' end) p) as Hab.
  { intros e p1 ???. eapply wp_mono; [|by apply abandon_left]. by intros r p2 [-> ?]. }
  destruct (pt_stop t); [apply Hab; [done..|by apply running_ended]|].
  apply wp_bind, wp_on_owner. eapply wp_mono; [|by apply cancel_spec].
  intros [[]|e] w; [intros Hw; by apply Hab| |intros Hw; split; [by left|done]].
  intros Hw. assert (program_ok (set_world w p)) as Hok1 by done.
  apply wp_bind, wp_on_child. unfold child_poll, wp at 1.
  assert (∀ c, ch_argv c = argv → program_ok (mkProgram (pg_socket p) c (pg_completion p) w)) as Hok2 by done.
  destruct (pt_wait t) as [| | | |code| |] eqn:Ewait; cbn;
    try (by apply program_ok_left, Hok2).
  1-2: destruct (deadline <=? pt_now t); [apply Hab; [done..|by apply running_ended]|by apply wp_ret].
  apply wp_bind, wp_get. cbn. destruct (pg_completion p) as [completion|] eqn:Ec;
    [|by apply wp_throw, program_ok_left, Hok2].
  destruct (negb (eqb _ _)) eqn:En; [by apply wp_throw, program_ok_left, Hok2|].
  apply wp_ret. split_and!; [by apply Hok2|done|]. exists code. split; [done|].
  apply negb_false_iff, eqb_prop in En. rewrite <- Z.eqb_eq, En. apply Z.eqb_eq.
Qed.

Lemma program_loop_ok deadline env p :
  program_ok p →
  match program_loop cb deadline env p with
  | (None, p') => True
  | (Some (Ret result), p') =>
      program_ok p' ∧ pg_completion p' = Some result ∧ Exists (λ t, agrees t result) env
  | (Some (Throw e), p') => program_left e p'
  end.
Proof.
  revert p. induction env as [|t env IH]; intros p Hok; [done|]. simpl.
  destruct (drain cb _ _) as [[[[]|e] p1]|] eqn:Ed; [| |done]; apply drain_ok in Ed; try done.
  pose proof (check_child_ok deadline t p1 Ed) as Hc. unfold wp in Hc.
  destruct (check_child cb deadline t p1) as [[[result|]|e] p2]; simpl in Hc; [|by specialize (IH p2 Hc);
    destruct (program_loop cb deadline env p2) as [[[result|e]|] p3]; intuition auto|done].
  destruct Hc as (? & ? & ?). by split_and!; [..|left].
Qed.


Lemma start_program_ok timeout i w :
  running w → argv = ps_path i :: ps_arguments i →
  wp (start_program cb timeout i) (λ o p, match o with
    | Ret _ => pg_socket p = endpoint_new (ep_fd (pg_socket p)) ∧ pg_completion p = None ∧
               running (pg_world p) ∧ ch_argv (pg_child p) = argv
    | Throw e => program_left e p ∧ pg_child p = no_child end)
    (mkProgram (endpoint_new (-1)) no_child None w).
Proof.
  intros Hw ->. unfold start_program.
  assert (∀ e w, ended e w → program_left e (mkProgram (endpoint_new (-1)) no_child None w) ∧
    no_child = no_child) as Hfail by (intros e w0 He; split; [split; [by left|done]|done]).
  destruct (ps_stop i); [by apply wp_throw, Hfail, running_ended|].
  apply wp_bind, wp_on_owner. eapply wp_mono; [|by apply cancel_spec].
  intros [[]|e] w1 Hw1; [by apply wp_throw, Hfail| |by apply Hfail].
  assert (∀ e, program_left e (set_world w1 (mkProgram (endpoint_new (-1)) no_child None w)) ∧
    no_child = no_child) as Hfail1 by (intros e; by apply Hfail, running_ended).
  destruct (len (ps_path i) =? 0); [apply wp_throw, Hfail1|].
  destruct (timeout <=? 0); [apply wp_throw, Hfail1|].
  apply wp_bind, wp_lift. destruct (make_verifier_socket_pair _); [|apply Hfail1].
  do 2 (apply wp_bind, wp_lift; destruct (move_above_auth_descriptors _ _); [|apply Hfail1]).
  apply wp_bind, wp_lift. destruct (VerifierSocket_new _ _); [|apply Hfail1].
  apply wp_bind, wp_lift. unfold spawn_program. destruct (negb _); [apply Hfail1|].
  by apply wp_modify.
Qed.

(** Whichever way the function ends, the child is gone. *)
Lemma run_program_ok uid session timeout i env g w :
  running w → argv = ps_path i :: ps_arguments i →
  match run_cancellable_verifier_program cb uid session timeout i env g w with
  | (None, _) => True
  | (Some o, p) =>
      ch_pid (pg_child p) ≤ 0 ∧
      match o with
      | Ret result =>
          follows (pg_socket p) ∧ ep_state (pg_socket p) = VerifierCompleted result ∧
          running (pg_world p) ∧ ch_argv (pg_child p) = argv ∧ Exists (λ t, agrees t result) env
      | Throw e => program_left e p
      end
  end.
Proof.
  intros Hw Hargv. unfold run_cancellable_verifier_program.
  pose proof (start_program_ok timeout i w Hw Hargv) as Hs. unfold wp in Hs.
  destruct (start_program cb timeout i _) as [[[]|e] p]; simpl in Hs;
    [|destruct Hs as [Hl ->]; split; [simpl; lia|done]].
  destruct Hs as (Hp & Hn & Hr & Ha).
  assert (match (match on_endpoint (send_message daemon (StartVerification uid session) (ps_send i)) p with
        | (Throw e, p) => (Some (Throw e), p)
        | (Ret _, p) => program_loop cb (ps_now i + timeout) env p
        end) with
    | (None, _) => True
    | (Some (Ret result), p') =>
        program_ok p' ∧ pg_completion p' = Some result ∧ Exists (λ t, agrees t result) env
    | (Some (Throw e), p') => program_left e p'
    end) as Hmain.
  { assert (wp (on_endpoint (send_message daemon (StartVerification uid session) (ps_send i)))
      (λ o p', match o with Ret _ => program_ok p' | Throw e => program_left e p' end) p) as Hsend.
    { apply wp_on_endpoint. eapply (wp_send_message _ _ _ VerifierVerifying).
      - by rewrite Hp.
      - intros ex. split; [left; by rewrite Hp|by apply running_ended].
      - split_and!; [by rewrite Hp|done| |done|done]. simpl. congruence. }
    unfold wp in Hsend. destruct (on_endpoint _ p) as [[[]|e] p1]; [|done].
    by apply program_loop_ok. }
  destruct (match on_endpoint _ p with (Ret _, _) => _ | (Throw _, _) => _ end)
    as [[[result|e]|] p1]; [| |done]; unfold reap, on_child; simpl.
  - destruct Hmain as ((Hf & _ & Hc & Hr1 & Ha1) & Hcomp & Hex). split; [apply terminate_and_reap_done|].
    split_and!; [done|by apply Hc|done| |done]. by rewrite terminate_and_reap_argv.
  - split; [apply terminate_and_reap_done|done].
Qed.
End program.

(** ** The daemon's side of the service *)

(** While the child runs the daemon may cancel and is asked for secrets. *)
Definition serving_daemon (d : Endpoint) : Prop := follows d ∧ ep_state d = VerifierVerifying.

(** Given up: the conversation was left as it stands, without a result. *)
Definition no_result (d : Endpoint) : Prop := ∀ r, ep_state d ≠ VerifierCompleted r.
Definition daemon_left (e : exn) (d : Endpoint) : Prop :=
  left_by daemon (Throw e : res ()) d ∧ no_result d.

Lemma serving_left e d : serving_daemon d → daemon_left e d.
Proof. intros [Hf Hs]. split; [by left|]. intros r. by rewrite Hs. Qed.

Lemma receive_daemon (r : recv_result) (d : Endpoint) :
  follows d → no_result d →
  wp (receive_message daemon r) (λ o d', match o with
    | Ret m => follows d' ∧ advance_verifier_conversation (ep_state d) daemon m = Ret (ep_state d')
    | Throw e => daemon_left e d' end) d.
Proof.
  intros Hf Hn. apply wp_receive_message.
  - intros ex. split; [by left|done].
  - intros m s _ Ha. split; [by apply follows_advance|done].
  - intros m Ha. split; [|done]. right. split; [|done]. by exists (ep_trace d), m.
Qed.

Lemma daemon_status_spec v kind text d :
  serving_daemon d → is_valid_status_kind kind = true →
  wp (status_callback daemon_callbacks v kind text)
    (λ r d', match r with Ret _ => serving_daemon d' | Throw e => daemon_left e d' end) d.
Proof.
  intros Hd Hk. assert (advance_verifier_conversation (ep_state d) pam_verifier
    (VerificationStatus kind text) = Ret VerifierVerifying) as Ha.
  { destruct Hd as [_ ->]. unfold advance_verifier_conversation. simpl. by rewrite Hk. }
  eapply wp_send_message; [done|intros ex; by apply serving_left|].
  split; [by apply follows_advance; [apply Hd|]|done].
Qed.

Lemma daemon_secret_spec v prompt d r d' :
  serving_daemon d → secret_callback daemon_callbacks v prompt d = Some (r, d') →
  match r with Ret _ => serving_daemon d' | Throw e => daemon_left e d' end.
Proof.
  intros Hd [= E]. pose proof E as Hrun. revert Hrun.
  apply (wp_run _ (λ r d', match r with Ret _ => serving_daemon d' | Throw e => daemon_left e d' end)).
  destruct (Hd) as [Hf Hs]. apply wp_bind. eapply (wp_send_message _ _ _ VerifierAwaitingSecret).
  - by rewrite Hs.
  - intros ex. by apply serving_left.
  - set (d1 := advanced _ _). assert (follows d1) as Hf1 by (apply follows_advance; [done|by rewrite Hs]).
    apply wp_bind. eapply wp_mono; [|by apply receive_daemon]. intros [m|e] d2; [|done].
    intros [Hf2 Ha]. unfold d1 in Ha. cbn [ep_state advanced] in Ha.
    apply awaiting_step in Ha as [(secret & _ & -> & Hs2)|[Hend Ht]].
    + by apply wp_ret.
    + assert (m = CancelVerification) as -> by (specialize (Hend []); by inversion Hend).
      apply wp_throw. split; [by left|]. specialize (Hend []). inversion Hend. intros r0. congruence.
Qed.

Lemma daemon_cancel_spec v d :
  serving_daemon d →
  wp (cancellation_requested daemon_callbacks v) (λ r d', match r with
    | Ret true => daemon_left UserInteractionCancelled d'
    | Ret false => serving_daemon d'
    | Throw e => daemon_left e d' end) d.
Proof.
  intros Hd. destruct (Hd) as [Hf Hs]. apply wp_bind, wp_get. rewrite Hs. cbn.
  destruct (de_poll v) as [| | |r]; [by apply wp_throw, serving_left|by apply wp_ret|
    by apply wp_throw, serving_left|].
  apply wp_bind. eapply wp_mono; [|apply receive_daemon; [done|by apply (serving_left system_error)]].
  intros [m|e] d2; [|done]. intros [Hf2 Ha]. rewrite Hs in Ha.
  apply verifying_step in Ha as [(k & t & ? & _)|[(p & ? & _)|[Hend Ht]]]; [done..|].
  assert (m = CancelVerification) as -> by (by inversion Hend).
  apply wp_ret. split; [by left|]. inversion Hend. intros r0. congruence.
Qed.

(** The conversation that began with message [x] goes on. *)
Definition begun (x : VerifierMessageSender * VerifierMessage) (d : Endpoint) : Prop :=
  head (ep_trace d) = Some x.

Lemma begun_grows x d d' : begun x d → grows d d' → begun x d'.
Proof. unfold begun, grows. intros Hb [rest ->]. by destruct (ep_trace d). Qed.

Lemma request_secret_grows e prompt d : wp (request_secret e prompt) (λ _ d', grows d d') d.
Proof.
  apply wp_bind. eapply wp_mono; [|apply send_grows]. intros [[]|ex] d1 Hg; [|done].
  apply wp_bind. eapply wp_mono; [|apply receive_grows]. intros o d2 Hg2.
  assert (grows d d2) as Hg' by (by etrans).
  destruct o as [[]|ex]; by first [apply wp_ret|apply wp_throw|idtac].
Qed.

Lemma daemon_cancellation_grows e d : wp (daemon_cancellation_requested e) (λ _ d', grows d d') d.
Proof.
  assert (grows d d) as Hr by reflexivity.
  apply wp_bind, wp_get. destruct (verifier_conversation_is_terminal _); [by apply wp_ret|].
  destruct (de_poll e) as [| | |r]; [by apply wp_throw|by apply wp_ret|by apply wp_throw|].
  apply wp_bind. eapply wp_mono; [|apply receive_grows].
  intros [[]|ex] d2 Hg; by first [apply wp_ret|apply wp_throw|idtac].
Qed.

(** The supervision of the child, seen from the daemon's side of the service. *)
Lemma run_service_program x uid session timeout i env g d :
  serving_daemon d → begun x d →
  match run_cancellable_verifier_program daemon_callbacks uid session timeout i env g d with
  | (None, _) => True
  | (Some o, p) =>
      ch_pid (pg_child p) ≤ 0 ∧ begun x (pg_world p) ∧
      match o with
      | Ret result =>
          follows (pg_socket p) ∧ ep_state (pg_socket p) = VerifierCompleted result ∧
          serving_daemon (pg_world p) ∧ ch_argv (pg_child p) = ps_path i :: ps_arguments i ∧
          Exists (λ t, agrees t result) env
      | Throw e => daemon_left e (pg_world p)
      end
  end.
Proof.
  intros Hd Hb.
  assert (match run_cancellable_verifier_program daemon_callbacks uid session timeout i env g d with
    | (None, _) => True
    | (Some o, p) => ch_pid (pg_child p) ≤ 0 ∧ match o with
        | Ret result =>
            follows (pg_socket p) ∧ ep_state (pg_socket p) = VerifierCompleted result ∧
            (serving_daemon (pg_world p) ∧ begun x (pg_world p)) ∧
            ch_argv (pg_child p) = ps_path i :: ps_arguments i ∧ Exists (λ t, agrees t result) env
        | Throw e => program_left (λ e d, daemon_left e d ∧ begun x d) e p
        end
    end) as Hp.
  { apply (run_program_ok daemon_callbacks (λ d, serving_daemon d ∧ begun x d)
      (λ e d, daemon_left e d ∧ begun x d) (ps_path i :: ps_arguments i)); [| | | |done|done].
    - intros e d0 [Hs Hx]. split; [by apply serving_left|done].
    - intros v kind text d0 [Hs Hx] Hk.
      eapply wp_mono; [|apply wp_and; [by apply daemon_status_spec|apply send_grows]].
      intros [[]|e] d1 [Hq Hg]; (split; [done|by eapply begun_grows]).
    - intros v prompt d0 r d1 [Hs Hx] E. pose proof (daemon_secret_spec _ _ _ _ _ Hs E) as Hq.
      injection E as E. pose proof (request_secret_grows v prompt d0) as Hg. unfold wp in Hg.
      rewrite E in Hg. destruct r; (split; [done|by eapply begun_grows]).
    - intros v d0 [Hs Hx].
      eapply wp_mono; [|apply wp_and; [by apply daemon_cancel_spec|apply daemon_cancellation_grows]].
      intros [[]|e] d1 [Hq Hg]; (split; [done|by eapply begun_grows]). }
  destruct (run_cancellable_verifier_program _ _ _ _ _ _ _ _) as [[[result|e]|] p]; [| |done].
  - destruct Hp as (? & ? & ? & [??] & ? & ?). done.
  - destruct Hp as (? & _ & [??]). done.
Qed.

(** ** One connection *)

Definition active_local (session : LoginSessionProperties) (uid : Z) : Prop :=
  lp_uid session = uid ∧ lp_active session = true ∧ lp_remote session = false.

Lemma authorize_session_ok uid sessionId session :
  authorize_verification_session uid sessionId session = Ret () → active_local session uid.
Proof.
  unfold authorize_verification_session, validate_active_local_session.
  rewrite !throw_if_ret. intros (_ & _ & Hu & Ha & Hr & _). reflect_bools. done.
Qed.

(** What the service has checked before it starts the child. *)
Record admitted (expected_uid : Z) (c : Connection) (uid : Z) (sessionId username : list Z) : Prop := {
  ad_peer : ∃ peer, peer_credentials (cn_fd c) (cn_peer c) = Ret peer ∧
    peer_uid peer = expected_uid ∧ 0 < peer_pid peer;
  ad_session : ∃ session, cn_query c sessionId = Ret session ∧ active_local session uid;
  ad_username : cn_username c uid = Ret username;
}.

Lemma complete_error_left {A} r (m : res A) d (Q : res A → Endpoint → Prop) :
  serving_daemon d → (∀ a, m = Ret a → Q (Ret a) d) →
  (∀ e d', follows d' → ep_state d' ≠ VerifierCompleted result_success → Q (Throw e) d') →
  wp (or_complete_error r m) Q d.
Proof.
  intros Hd Hok Hfail. destruct m as [a|e]; simpl; [by apply wp_ret, Hok|]. destruct (Hd) as [Hf Hs].
  apply wp_bind. eapply (wp_send_message _ _ _ (VerifierCompleted result_error)).
  - by rewrite Hs.
  - intros ex. apply Hfail; [done|by rewrite Hs].
  - apply wp_throw, Hfail; [apply follows_advance; [done|by rewrite Hs]|done].
Qed.

Lemma admit_request_ok expected timeout c :
  wp (admit_request expected timeout c) (λ o d, match o with
    | Ret (uid, sessionId, username) =>
        serving_daemon d ∧ ep_trace d = [(daemon, StartVerification uid sessionId)] ∧
        admitted expected c uid sessionId username
    | Throw e => left_by daemon (Throw e : res ()) d ∧ ep_state d ≠ VerifierCompleted result_success
    end) (endpoint_new (cn_fd c)).
Proof.
  unfold admit_request. destruct (timeout <=? 0); [apply wp_throw; split; [by left|done]|].
  apply wp_bind, wp_lift. destruct (peer_credentials _ _) as [peer|e] eqn:Ep; [|split; [by left|done]].
  apply wp_bind, wp_lift. destruct (authorize_verifier_peer peer expected) as [[]|e] eqn:Ea;
    [|split; [by left|done]].
  apply wp_bind, wp_bind. apply wp_receive_message.
  - intros ex. split; [by left|done].
  - intros m s _ Hadv. apply start_step in Hadv as Hst. destruct Hst as (uid & sessionId & _ & -> & ->).
    apply wp_ret. assert (serving_daemon (advanced VerifierVerifying (wire daemon
      (StartVerification uid sessionId) (endpoint_new (cn_fd c))))) as Hd by done.
    apply wp_bind. apply complete_error_left; [done| |intros; split; [by left|done]].
    intros username Hu. apply wp_ret. split_and!; [done|done|].
    destruct (cn_query c sessionId) as [session|] eqn:Eq; [|done]. cbn in Hu.
    apply bind_unit_ret in Hu as [Hsess Hu]. apply authorize_session_ok in Hsess.
    unfold authorize_verifier_peer in Ea. rewrite !throw_if_ret in Ea. destruct Ea as (H1 & H2 & _).
    reflect_bools. split; [by exists peer|by exists session|done].
  - intros m Hadv. split; [|done]. right. split; [|done]. by exists [], m.
Qed.

(** A completed conversation has a result of the protocol, the last message sent. *)
Lemma follows_completed e r :
  follows e → ep_state e = VerifierCompleted r →
  is_valid_result r = true ∧ last (ep_trace e) = Some (pam_verifier, VerificationComplete r).
Proof.
  unfold follows. intros Hf Hs. rewrite Hs in Hf. revert Hf.
  destruct (ep_trace e) as [|x tr _] using rev_ind; [done|]. rewrite run_app, last_snoc.
  destruct (run_conversation VerifierAwaitingStart tr) as [s|]; [|done]. destruct x as [who m]. simpl.
  destruct (advance_verifier_conversation s who m) as [s'|] eqn:Ha; [|done]. intros [= ->].
  unfold advance_verifier_conversation in Ha. apply bind_unit_ret in Ha as [Hv Ha].
  destruct s, who, m; try done; cbn in Ha; [|case_match; [|done]]; injection Ha as <-;
    apply throw_if_ret in Hv as [Hv _]; by apply negb_false_iff in Hv.
Qed.

(** The service's own result is on record exactly when its conversation is completed. *)
Lemma left_completed {A} (o : res A) d r :
  left_by daemon o d → (pam_verifier, VerificationComplete r) ∈ ep_trace d →
  ep_state d = VerifierCompleted r.
Proof.
  assert (∀ tr s, (pam_verifier, VerificationComplete r) ∈ tr →
    run_conversation VerifierAwaitingStart tr = Ret s → s = VerifierCompleted r) as Hrun.
  { intros tr s Hin. apply list_elem_of_split in Hin as (t1 & t2 & ->). rewrite run_app.
    destruct (run_conversation VerifierAwaitingStart t1) as [s1|]; [|done]. simpl.
    destruct (advance_verifier_conversation s1 pam_verifier _) as [s2|] eqn:Ha; [|done].
    apply advance_received in Ha as [_ ->]. simpl. intros Ht.
    by apply run_terminal in Ht as [-> ->]. }
  intros [Hf|[(tr & m & -> & Hf & _) _]] Hin; [by eapply Hrun|].
  apply elem_of_app in Hin as [Hin|Hin%list_elem_of_singleton]; [by eapply Hrun|done].
Qed.

Lemma report_result_ok uid sessionId result c d :
  serving_daemon d → is_valid_result result = true →
  wp (report_result uid sessionId result c) (λ o d', follows d' ∧
    (ep_state d' = VerifierCompleted result_success → result = result_success ∧
       ∃ session, cn_query_again c sessionId = Ret session ∧ active_local session uid)) d.
Proof.
  intros Hd Hv. destruct (Hd) as [Hf Hs]. unfold report_result.
  assert (∀ Q : Prop, (result = result_success → Q) → wp
    (let! _ := send_from_verifier (VerificationComplete result) (cn_result_send c) in st_ret 0)
    (λ o d', follows d' ∧ (ep_state d' = VerifierCompleted result_success → result = result_success ∧ Q)) d)
    as Hsend.
  { intros Q HQ. apply wp_bind.
    assert (advance_verifier_conversation (ep_state d) pam_verifier (VerificationComplete result) =
      Ret (VerifierCompleted result)) as Ha.
    { rewrite Hs. unfold advance_verifier_conversation. simpl. by rewrite Hv. }
    eapply wp_send_message; [done| |].
    - intros ex. split; [done|by rewrite Hs].
    - apply wp_ret. split; [by apply follows_advance|]. simpl. intros [= ->]. auto. }
  apply wp_bind. destruct (Z.eqb_spec result result_success) as [->|Hne].
  - apply complete_error_left; [done| |].
    + intros [] Hq. apply Hsend. intros _. destruct (cn_query_again c sessionId) as [session|]; [|done].
      exists session. split; [done|]. by eapply authorize_session_ok.
    + intros e d' Hl Hns. by split.
  - apply wp_ret. by apply Hsend.
Qed.

Lemma report_result_grows uid sessionId result c d :
  wp (report_result uid sessionId result c) (λ _ d', grows d d') d.
Proof.
  assert (∀ d0 d1, grows d0 d1 → wp (let! _ := send_from_verifier (VerificationComplete result)
    (cn_result_send c) in st_ret 0) (λ _ d', grows d0 d') d1) as Hsend.
  { intros d0 d1 Hg. apply wp_bind. eapply wp_mono; [|apply send_grows].
    intros [[]|e] d2 Hg2; [apply wp_ret|]; by etrans. }
  assert (grows d d) as Hrefl by reflexivity.
  apply wp_bind. destruct (result =? result_success); [|by apply wp_ret, Hsend].
  destruct (session ← _; _) as [[]|e]; simpl; [by apply wp_ret, Hsend|].
  apply wp_bind. eapply wp_mono; [|apply send_grows]. intros [[]|e'] d1 Hg; [by apply wp_throw|done].
Qed.

(** The outcome of a connection: the conversation with the daemon is left in order, the
    child is gone, and a success has been earned. *)
Definition service_outcome (expected : Z) (c : Connection) (o : option (res Z)) (st : ServiceState)
    : Prop :=
  match o with
  | None => True
  | Some r =>
      left_by daemon r (vs_daemon st) ∧
      (∀ p, vs_program st = Some p → ch_pid (pg_child p) ≤ 0) ∧
      ((pam_verifier, VerificationComplete result_success) ∈ ep_trace (vs_daemon st) →
       ∃ uid sessionId username session p,
         admitted expected c uid sessionId username ∧
         begun (daemon, StartVerification uid sessionId) (vs_daemon st) ∧
         cn_query_again c sessionId = Ret session ∧ active_local session uid ∧
         vs_program st = Some p ∧
         ch_argv (pg_child p) = ps_path (cn_program c) :: handler_arguments c username ∧
         follows (pg_socket p) ∧ ep_state (pg_socket p) = VerifierCompleted result_success ∧
         Exists (λ t, pt_wait t = w_exited 0) (cn_turns c))
  end.

Lemma left_ignoring (e : exn) d :
  left_by daemon (Throw e : res ()) d → left_by daemon (ignore_cancellation (Throw e)) d.
Proof. intros [Hf|[Hr [= ->]]]; [by left|by right]. Qed.

Lemma run_connection_outcome expected timeout c :
  let '(o, st) := run_pam_verifier_connection expected timeout c in service_outcome expected c o st.
Proof.
  unfold run_pam_verifier_connection.
  pose proof (admit_request_ok expected timeout c) as Ha. unfold wp in Ha.
  destruct (admit_request _ _ _ _) as [[[[uid sessionId] username]|e] d]; simpl in Ha.
  2:{ destruct Ha as [Hl Hn]. split_and!; [|done|].
      - destruct Hl as [Hf|[Hr [= ->]]]; [by left|by right].
      - intros Hin. by apply (left_completed _ _ _ Hl) in Hin. }
  destruct Ha as (Hd & Htr & Had).
  set (i := with_arguments (handler_arguments c username) (cn_program c)).
  pose proof (run_service_program (daemon, StartVerification uid sessionId) uid sessionId timeout i
    (cn_turns c) (cn_graces c) d Hd) as Hp.
  assert (begun (daemon, StartVerification uid sessionId) d) as Hb by (unfold begun; by rewrite Htr).
  specialize (Hp Hb).
  destruct (run_cancellable_verifier_program _ _ _ _ _ _ _ _) as [[[result|e]|] p]; [| |done];
    destruct Hp as (Hpid & Hbegun & Hp).
  - destruct Hp as (Hf & Hs & Hrun & Hargv & Hex).
    destruct (follows_completed _ _ Hf Hs) as [Hv _].
    pose proof (report_result_ok uid sessionId result c (pg_world p) Hrun Hv) as Hr.
    pose proof (report_result_grows uid sessionId result c (pg_world p)) as Hg. unfold wp in Hr, Hg.
    destruct (report_result _ _ _ _ _) as [r d']. destruct Hr as [Hf' Hr]. cbn [fst snd] in *.
    split_and!; [by left|by intros ? [= <-]|]. intros Hin. cbn [vs_daemon vs_program] in *.
    assert (ep_state d' = VerifierCompleted result_success) as Hc.
    { eapply (left_completed (Ret 0)); [by left|done]. }
    destruct (Hr Hc) as (-> & session & Hq & ? & ? & ?).
    exists uid, sessionId, username, session, p. split_and!; try done; [exact (begun_grows _ _ _ Hbegun Hg)|].
    eapply Exists_impl; [exact Hex|]. intros t (code & Ht & Hcode). rewrite Ht. f_equal. by apply Hcode.
  - destruct Hp as [Hl Hn]. split_and!; [by apply left_ignoring|by intros ? [= <-]|].
    intros Hin. apply (left_completed _ _ _ Hl) in Hin. by apply Hn in Hin.
Qed.

(** ** Accounts are found or not in at most twenty-one lookups *)

Lemma account_loop_total {A} fuel (lookup : Z → account_answer A) missing size :
  0 < size ≤ MAX_ACCOUNT_BUFFER_SIZE → MAX_ACCOUNT_BUFFER_SIZE ≤ size * 2 ^ Z.of_nat fuel →
  is_Some (account_loop (S fuel) lookup missing size).
Proof.
  revert size. induction fuel as [|fuel IH]; intros size Hs Hf.
  - assert (size = MAX_ACCOUNT_BUFFER_SIZE) as -> by lia. cbn [account_loop].
    rewrite Z.eqb_refl. destruct (lookup _); by eexists.
  - cbn [account_loop]. destruct (lookup size); try by eexists.
    destruct (Z.eqb_spec size MAX_ACCOUNT_BUFFER_SIZE); [by eexists|].
    apply IH; [lia|]. rewrite Nat2Z.inj_succ, Z.pow_succ_r in Hf by lia.
    assert (1 ≤ 2 ^ Z.of_nat fuel) by (apply (Z.pow_le_mono_r 2 0); lia).
    destruct (Z.min_spec (size * 2) MAX_ACCOUNT_BUFFER_SIZE) as [[_ ->]|[_ ->]]; nia.
Qed.

Lemma account_lookup_total {A} (lookup : Z → account_answer A) missing suggested :
  is_Some (account_loop ACCOUNT_FUEL lookup missing (first_buffer_size suggested)).
Proof.
  unfold ACCOUNT_FUEL, first_buffer_size, MAX_ACCOUNT_BUFFER_SIZE. apply account_loop_total.
  - unfold MAX_ACCOUNT_BUFFER_SIZE. destruct (0 <? suggested) eqn:E; reflect_bools; lia.
  - unfold MAX_ACCOUNT_BUFFER_SIZE. change (2 ^ Z.of_nat 20) with (1024 * 1024).
    destruct (0 <? suggested) eqn:E; reflect_bools; lia.
Qed.
