(* ===== verification/AuthHandler.v ===== *)
(** * The PAM handler (src/src/uv/src/auth_handler.cpp)

    The child process of the verifier service: it answers PAM's prompts with secrets it asks
    for over its socket, and reports how PAM decided.  The PAM library is a parameter: a
    stack of modules is a program that converses and ends with a status. *)
From Stdlib Require Import ZArith Lia.
From stdpp Require Import base list strings.
From S2P Require Import Prelude VerifierProtocol VerifierConversation VerifierSocket.
From S2P Require Import VerifierClient VerifierService.

(** ** Status codes and message styles of PAM *)

Definition PAM_SUCCESS : Z := 0.
Definition PAM_SYSTEM_ERR : Z := 4.
Definition PAM_BUF_ERR : Z := 5.
Definition PAM_PERM_DENIED : Z := 6.
Definition PAM_AUTH_ERR : Z := 7.
Definition PAM_CRED_INSUFFICIENT : Z := 8.
Definition PAM_USER_UNKNOWN : Z := 10.
Definition PAM_MAXTRIES : Z := 11.
Definition PAM_NEW_AUTHTOK_REQD : Z := 12.
Definition PAM_ACCT_EXPIRED : Z := 13.
Definition PAM_CONV_ERR : Z := 19.
Definition PAM_PROMPT_ECHO_OFF : Z := 1.
Definition PAM_PROMPT_ECHO_ON : Z := 2.
Definition PAM_ERROR_MSG : Z := 3.
Definition PAM_TEXT_INFO : Z := 4.
Definition PAM_MAX_NUM_MSG : Z := 32.

(** ** The conversation function *)

(** [None] is a null pointer. *)
Record pam_message := mkPamMessage { pm_style : Z; pm_msg : option (list Z) }.
Definition pam_replies : Type := list (option (list Z)).

(** What the socket and [calloc] answer while one message is handled. *)
Record PamEvents := mkPamEvents { pe_send : send_result; pe_recv : recv_result; pe_calloc : bool }.

Definition no_events : PamEvents := mkPamEvents send_failed recv_failed false.

Definition text_of (m : pam_message) : list Z := default [] (pm_msg m).

Definition send_verifier_message (message : VerifierMessage) (r : send_result) : ST Endpoint () :=
  send_message pam_verifier message r.

(** The status and, on success, the copy of the secret. *)
Definition read_secret_response (e : PamEvents) (prompt : list Z) : ST Endpoint (Z * option (list Z)) :=
  let! _ := send_verifier_message (SecretRequired prompt) (pe_send e) in
  let! message := receive_message daemon (pe_recv e) in
  match message with
  | SecretResponse secret =>
      if pe_calloc e then st_ret (PAM_SUCCESS, Some secret) else st_ret (PAM_BUF_ERR, None)
  | _ => st_ret (PAM_CONV_ERR, None)
  end.

(** The [switch] on the style of a message. *)
Definition handle_message (e : PamEvents) (m : pam_message) : ST Endpoint (Z * option (list Z)) :=
  if pm_style m =? PAM_PROMPT_ECHO_OFF then read_secret_response e (text_of m) else
  if pm_style m =? PAM_PROMPT_ECHO_ON then st_ret (PAM_CONV_ERR, None) else
  if pm_style m =? PAM_TEXT_INFO then
    let! _ := send_verifier_message (VerificationStatus status_information (text_of m)) (pe_send e) in
    st_ret (PAM_SUCCESS, None)
  else if pm_style m =? PAM_ERROR_MSG then
    let! _ := send_verifier_message (VerificationStatus status_error (text_of m)) (pe_send e) in
    st_ret (PAM_SUCCESS, None)
  else st_ret (PAM_CONV_ERR, None).

(** The [for] loop; on a failure the replies collected so far are freed. *)
Fixpoint conversation_loop (messages : list (option pam_message)) (events : list PamEvents)
    (replies : pam_replies) : ST Endpoint (Z * option pam_replies) :=
  match messages with
  | [] => st_ret (PAM_SUCCESS, Some replies)
  | None :: _ => st_ret (PAM_CONV_ERR, None)
  | Some m :: messages =>
      let! answer := handle_message (default no_events (head events)) m in
      let '(rc, response) := answer in
      if rc =? PAM_SUCCESS then conversation_loop messages (tail events) (replies ++ [response])
      else st_ret (rc, None)
  end.

(** [messages] has [message_count] entries, one event each; [calloc_ok] is the allocation
    of the replies. *)
Definition conversation (messages : option (list (option pam_message))) (calloc_ok : bool)
    (events : list PamEvents) : ST Endpoint (Z * option pam_replies) :=
  match messages with
  | None => st_ret (PAM_CONV_ERR, None)
  | Some messages =>
      if (len messages <=? 0) || (PAM_MAX_NUM_MSG <? len messages)
      then st_ret (PAM_CONV_ERR, None) else
      if negb calloc_ok then st_ret (PAM_BUF_ERR, None) else
      st_catch (conversation_loop messages events []) (λ _, st_ret (PAM_CONV_ERR, None))
  end.

(** ** PAM *)

(** A stack of modules at work. *)
Inductive pam_program :=
  | pam_done (rc : Z)
  | pam_converse (messages : option (list (option pam_message))) (calloc_ok : bool)
      (events : list PamEvents) (k : Z → option pam_replies → pam_program).

Fixpoint run_pam (program : pam_program) : ST Endpoint Z :=
  match program with
  | pam_done rc => st_ret rc
  | pam_converse messages calloc_ok events k =>
      let! answer := conversation messages calloc_ok events in
      run_pam (k answer.1 answer.2)
  end.

(** What PAM does for a service, an account and a configuration directory: the status of
    [pam_start_confdir] and whether it delivers a handle, the two calls, and [pam_end]. *)
Record PamStack := mkPamStack {
  pam_start : Z;
  pam_handle : bool;
  pam_authenticate : pam_program;
  pam_acct_mgmt : pam_program;
  pam_end : Z → Z;
}.

(** PAM for an account, a service and a configuration directory. *)
Definition Pam : Type := list Z → list Z → list Z → PamStack.

(** [PamSession::close] *)
Definition close_session (p : PamStack) (status : Z) : Z :=
  if pam_handle p then pam_end p status else PAM_SUCCESS.

Definition authenticate (p : PamStack) : ST Endpoint Z :=
  let rc := pam_start p in
  let! rc := (if rc =? PAM_SUCCESS then run_pam (pam_authenticate p) else st_ret rc) in
  let! rc := (if rc =? PAM_SUCCESS then run_pam (pam_acct_mgmt p) else st_ret rc) in
  let end_rc := close_session p rc in
  if (rc =? PAM_SUCCESS) && negb (end_rc =? PAM_SUCCESS) then st_ret end_rc else st_ret rc.

Definition verification_result_from_pam_status (pam_status : Z) : VerificationResult :=
  if pam_status =? PAM_SUCCESS then result_success else
  if (pam_status =? PAM_PERM_DENIED) || (pam_status =? PAM_AUTH_ERR) ||
     (pam_status =? PAM_CRED_INSUFFICIENT) || (pam_status =? PAM_USER_UNKNOWN) ||
     (pam_status =? PAM_MAXTRIES) || (pam_status =? PAM_NEW_AUTHTOK_REQD) ||
     (pam_status =? PAM_ACCT_EXPIRED)
  then result_denied else result_error.

(** ** The program *)

(** [std::from_chars] for an [int], which has to use up the whole text. *)
Fixpoint decimal (digits : list Z) (acc : Z) : option Z :=
  match digits with
  | [] => Some acc
  | d :: digits => if (48 <=? d) && (d <=? 57) then decimal digits (acc * 10 + (d - 48)) else None
  end.

Definition from_chars_int (text : list Z) : option Z :=
  let '(sign, digits) := match text with 45 :: digits => (-1, digits) | _ => (1, text) end in
  if len digits =? 0 then None else
  v ← decimal digits 0;
  if (-2147483648 <=? sign * v) && (sign * v <=? 2147483647) then Some (sign * v) else None.

Record HandlerEvents := mkHandlerEvents {
  he_prctl : bool;
  he_ppid : Z;
  he_descriptor : Descriptor;
  he_start : recv_result;
  he_complete : send_result;
}.

(** The body of the [try] block. *)
Definition handler_body (pam : Pam) (username process_name confdir parent_text : list Z)
    (e : HandlerEvents) : ST Endpoint Z :=
  match from_chars_int parent_text with
  | None => st_ret PAM_SYSTEM_ERR
  | Some expected_parent =>
      let! _ := st_lift (arm_parent_death_signal expected_parent (he_prctl e) (he_ppid e)) in
      let! fd := st_lift (VerifierSocket_new VERIFIER_SOCKET_FD (he_descriptor e)) in
      let! _ := st_put (endpoint_new fd) in
      let! _ := receive_message daemon (he_start e) in
      let! result := authenticate (pam username process_name confdir) in
      let! _ := send_verifier_message
        (VerificationComplete (verification_result_from_pam_status result)) (he_complete e) in
      st_ret result
  end.

(** [argv]: what is left of the command line after the command. *)
Definition run_vauth_auth_handler (pam : Pam) (argv : list (list Z)) (e : HandlerEvents)
    : ST Endpoint Z :=
  match argv with
  | [username; process_name; confdir; parent_text] =>
      st_catch (handler_body pam username process_name confdir parent_text e)
        (λ _, st_ret PAM_SYSTEM_ERR)
  | _ => st_ret PAM_SYSTEM_ERR
  end.

(** The dispatch in [main] (src/src/vauth.cpp): a process started with the handler's command
    runs the handler; its exit status is the low byte of what the handler returns. *)
Definition handler_process (pam : Pam) (argv : list (list Z)) (e : HandlerEvents)
    (d : Endpoint) : option (Z * Endpoint) :=
  match argv with
  | _ :: command :: arguments =>
      if bool_decide (command = VAUTH_AUTH_HANDLER_COMMAND) then
        match run_vauth_auth_handler pam arguments e d with
        | (Ret rc, d) => Some (rc mod 256, d)
        | (Throw _, d) => None
        end
      else None
  | _ => None
  end.

(** ** PAM's verdict *)

(** PAM let the account in: every call succeeded. *)
Definition authenticated (p : PamStack) (d : Endpoint) : Prop :=
  pam_start p = PAM_SUCCESS ∧
  (∃ d1 d2, run_pam (pam_authenticate p) d = (Ret PAM_SUCCESS, d1) ∧
            run_pam (pam_acct_mgmt p) d1 = (Ret PAM_SUCCESS, d2)) ∧
  (pam_handle p = true → pam_end p PAM_SUCCESS = PAM_SUCCESS).

(** The handler has not reported a result, and has not broken the protocol unless the
    conversation can no longer succeed. *)
Definition undecided (d : Endpoint) : Prop :=
  (∀ r, (pam_verifier, VerificationComplete r) ∉ ep_trace d) ∧
  (follows d ∧ ep_state d = VerifierVerifying ∨
   ep_state d = VerifierAwaitingSecret ∨ ep_state d = VerifierCancelled).

Lemma wire_undecided who m d r :
  (pam_verifier, VerificationComplete r) ∉ ep_trace d → m ≠ VerificationComplete r →
  (pam_verifier, VerificationComplete r) ∉ ep_trace (wire who m d).
Proof. intros Hn Hm. simpl. rewrite elem_of_app, list_elem_of_singleton. naive_solver. Qed.

(** A message of the handler to the service is accepted by both, or the handler is undecided. *)
Lemma send_undecided m r s d :
  undecided d → (∀ r, m ≠ VerificationComplete r) →
  advance_verifier_conversation VerifierVerifying pam_verifier m = Ret s →
  (∀ s0, s0 = VerifierAwaitingSecret ∨ s0 = VerifierCancelled →
     advance_verifier_conversation s0 pam_verifier m = Throw VerifierConversationError) →
  wp (send_verifier_message m r) (λ o d', match o with
    | Ret _ => follows d' ∧ ep_state d' = s ∧ ∀ r, (pam_verifier, VerificationComplete r) ∉ ep_trace d'
    | Throw _ => undecided d' end) d.
Proof.
  intros [Hn Hs] Hm Hadv Hbad. do 2 (apply wp_bind; first [apply wp_get|apply wp_lift]).
  destruct (socket_send _ _ _) as [[]|ex]; [|done]. apply wp_bind, wp_modify.
  apply wp_bind, wp_get, wp_bind, wp_lift. cbn [ep_state wire].
  assert (∀ r, (pam_verifier, VerificationComplete r) ∉ ep_trace (wire pam_verifier m d)) as Hn'
    by (intros r0; by apply wire_undecided).
  destruct Hs as [[Hf Hs]|Hs].
  - assert (advance_verifier_conversation (ep_state d) pam_verifier m = Ret s) as Ha by by rewrite Hs.
    rewrite Ha. apply wp_modify. split_and!; [by apply follows_advance|done|done].
  - rewrite (Hbad _ Hs). split; [done|by right].
Qed.

Lemma status_undecided k text r d :
  undecided d → is_valid_status_kind k = true →
  wp (send_verifier_message (VerificationStatus k text) r) (λ _ d', undecided d') d.
Proof.
  intros Hu Hk. assert (∀ s0, s0 ≠ VerifierVerifying →
    advance_verifier_conversation s0 pam_verifier (VerificationStatus k text) =
      Throw VerifierConversationError) as Hbad.
  { intros s0 Hs. unfold advance_verifier_conversation. simpl. rewrite Hk. by destruct s0. }
  eapply wp_mono; [|apply (send_undecided _ _ VerifierVerifying); [done|done| |]].
  - intros [u|e] d'; [|done]. intros (Hf & Hs & Hn). split; [done|by left].
  - unfold advance_verifier_conversation. simpl. by rewrite Hk.
  - intros s0 [-> | ->]; by apply Hbad.
Qed.

Lemma read_secret_undecided e prompt d :
  undecided d → wp (read_secret_response e prompt) (λ _ d', undecided d') d.
Proof.
  intros Hu. apply wp_bind. eapply wp_mono;
    [|apply (send_undecided _ _ VerifierAwaitingSecret); [done|done|done|by intros s0 [-> | ->]]].
  intros [u|ex] d1; [|done]. intros (Hf & Hs & Hn). apply wp_bind, wp_receive_message.
  - intros ex. split; [done|right; by left].
  - intros m s _ Ha. assert (undecided (advanced s (wire daemon m d1))) as Hu1.
    { apply (follows_advance _ _ _ _ Hf) in Ha as Hf'. rewrite Hs in Ha. split.
      - intros r. simpl. rewrite elem_of_app, list_elem_of_singleton. naive_solver.
      - apply awaiting_step in Ha as [(secret & _ & _ & ->)|[Hend _]]; [by left|].
        specialize (Hend []). inversion Hend; subst; right; by right. }
    destruct m; try by apply wp_ret. by destruct (pe_calloc e); apply wp_ret.
  - intros m _. split; [|right; by left].
    intros r. simpl. rewrite elem_of_app, list_elem_of_singleton. naive_solver.
Qed.

Lemma handle_message_undecided e m d :
  undecided d → wp (handle_message e m) (λ _ d', undecided d') d.
Proof.
  intros Hu. unfold handle_message.
  destruct (pm_style m =? PAM_PROMPT_ECHO_OFF); [by apply read_secret_undecided|].
  destruct (pm_style m =? PAM_PROMPT_ECHO_ON); [by apply wp_ret|].
  destruct (pm_style m =? PAM_TEXT_INFO); [|destruct (pm_style m =? PAM_ERROR_MSG); [|by apply wp_ret]].
  all: apply wp_bind; eapply wp_mono; [|by apply status_undecided]; by intros [u|ex].
Qed.

Lemma conversation_undecided messages calloc_ok events d :
  undecided d →
  wp (conversation messages calloc_ok events) (λ r d', is_ret r = true ∧ undecided d') d.
Proof.
  intros Hu. unfold conversation. destruct messages as [messages|]; [|by apply wp_ret].
  destruct (_ || _); [by apply wp_ret|]. destruct (negb calloc_ok); [by apply wp_ret|].
  apply wp_catch. assert (wp (conversation_loop messages events []) (λ _ d', undecided d') d) as Hl.
  { generalize ([] : pam_replies). revert events d Hu.
    induction messages as [|[m|] messages IH]; intros events d Hu replies; [by apply wp_ret| |by apply wp_ret].
    apply wp_bind. eapply wp_mono; [|by apply handle_message_undecided].
    intros [[rc response]|ex] d'; [|done]. intros Hu'.
    destruct (rc =? PAM_SUCCESS); [by apply IH|by apply wp_ret]. }
  eapply wp_mono; [|exact Hl]. intros [u|ex] d' Hu'; [done|by apply wp_ret].
Qed.

Lemma run_pam_undecided p d :
  undecided d → wp (run_pam p) (λ r d', is_ret r = true ∧ undecided d') d.
Proof.
  revert d. induction p as [rc|messages calloc_ok events k IH]; intros d Hu; simpl; [by apply wp_ret|].
  apply wp_bind. eapply wp_mono; [|by apply conversation_undecided].
  intros [answer|ex] d' [Hr Hu']; [by apply IH|done].
Qed.

Lemma authenticate_verdict p d :
  undecided d →
  wp (authenticate p) (λ r d', undecided d' ∧ ∃ rc, r = Ret rc ∧ (rc = PAM_SUCCESS → authenticated p d)) d.
Proof.
  intros Hu. unfold authenticate. apply wp_bind.
  destruct (Z.eqb_spec (pam_start p) PAM_SUCCESS) as [Hst|Hst].
  2:{ apply wp_ret, wp_bind. rewrite (proj2 (Z.eqb_neq _ _) Hst). apply wp_ret. cbn [andb].
      rewrite (proj2 (Z.eqb_neq _ _) Hst). apply wp_ret. split; [done|]. by exists (pam_start p). }
  pose proof (run_pam_undecided (pam_authenticate p) d Hu) as Ha. unfold wp in Ha |- * at 1.
  destruct (run_pam (pam_authenticate p) d) as [[rc1|ex] d1] eqn:E1; simpl in Ha; destruct Ha as [Hr1 Hu1];
    [|done]. cbn [fst snd].
  apply wp_bind. destruct (Z.eqb_spec rc1 PAM_SUCCESS) as [->|Hrc1].
  2:{ apply wp_ret. rewrite (proj2 (Z.eqb_neq _ _) Hrc1). apply wp_ret. split; [done|]. by exists rc1. }
  pose proof (run_pam_undecided (pam_acct_mgmt p) d1 Hu1) as Hb. unfold wp in Hb |- * at 1.
  destruct (run_pam (pam_acct_mgmt p) d1) as [[rc2|ex] d2] eqn:E2; simpl in Hb; destruct Hb as [Hr2 Hu2];
    [|done]. cbn [fst snd].
  destruct (Z.eqb_spec rc2 PAM_SUCCESS) as [->|Hrc2].
  2:{ apply wp_ret. split; [done|]. by exists rc2. }
  destruct (Z.eqb_spec (close_session p PAM_SUCCESS) PAM_SUCCESS) as [He|He]; apply wp_ret; (split; [done|]).
  - exists PAM_SUCCESS. split; [done|]. intros _. split_and!; [done|by exists d1, d2|].
    intros Hh. unfold close_session in He. by rewrite Hh in He.
  - eexists. split; [done|]. intros Hc. done.
Qed.

(** How the handler ends: a status, with a success reported only after PAM let the account
    in; and with status 0 only when that report completed the conversation. *)
Definition handler_outcome (p : PamStack) (r : res Z) (d : Endpoint) : Prop :=
  ∃ rc, r = Ret rc ∧
    ((pam_verifier, VerificationComplete result_success) ∈ ep_trace d →
       (rc = PAM_SUCCESS ∨ rc = PAM_SYSTEM_ERR) ∧ ∃ d0, undecided d0 ∧ authenticated p d0) ∧
    (rc = PAM_SUCCESS → follows d ∧ ep_state d = VerifierCompleted result_success).

Lemma handler_failed p d :
  (pam_verifier, VerificationComplete result_success) ∉ ep_trace d →
  handler_outcome p (Ret PAM_SYSTEM_ERR) d.
Proof. intros Hn. by exists PAM_SYSTEM_ERR. Qed.

Lemma verdict_success rc :
  verification_result_from_pam_status rc = result_success → rc = PAM_SUCCESS.
Proof.
  unfold verification_result_from_pam_status.
  destruct (Z.eqb_spec rc PAM_SUCCESS); [done|]. by case_match.
Qed.

Lemma verdict_valid rc : is_valid_result (verification_result_from_pam_status rc) = true.
Proof. unfold verification_result_from_pam_status. by repeat case_match. Qed.

(** The report at the end. *)
Lemma report_verdict p rc r d :
  undecided d → (rc = PAM_SUCCESS → ∃ d0, undecided d0 ∧ authenticated p d0) →
  wp (let! _ := send_verifier_message
        (VerificationComplete (verification_result_from_pam_status rc)) r in st_ret rc)
    (λ o d', match o with Ret _ => handler_outcome p o d' | Throw _ => handler_outcome p (Ret PAM_SYSTEM_ERR) d' end) d.
Proof.
  intros [Hn Hs] Hrc. apply wp_bind. do 2 (apply wp_bind; first [apply wp_get|apply wp_lift]).
  destruct (socket_send _ _ _) as [[]|ex]; [|by apply handler_failed].
  apply wp_bind, wp_modify, wp_bind, wp_get, wp_bind, wp_lift. cbn [ep_state wire].
  set (m := VerificationComplete _). set (d1 := wire pam_verifier m d).
  assert ((pam_verifier, VerificationComplete result_success) ∈ ep_trace d1 → rc = PAM_SUCCESS) as Hin.
  { simpl. rewrite elem_of_app, list_elem_of_singleton. intros [Hin|[= Heq]]; [by apply Hn in Hin|].
    by apply verdict_success. }
  destruct (advance_verifier_conversation (ep_state d) pam_verifier m) as [s|ex] eqn:Ha.
  - apply wp_modify, wp_ret. exists rc. split; [done|]. split.
    + intros Hi. apply Hin in Hi as ->. split; [by left|by apply Hrc].
    + intros ->. apply advance_received in Ha as Hr. destruct Hr as [_ Hr]. simpl in Hr. subst s.
      split; [|done]. apply follows_advance; [|done]. destruct Hs as [[Hf _]|Hs]; [done|].
      exfalso. unfold advance_verifier_conversation in Ha. by destruct Hs as [Hs|Hs]; rewrite Hs in Ha.
  - exists PAM_SYSTEM_ERR. split; [done|]. split; [|done]. intros Hi. split; [by right|by apply Hrc, Hin].
Qed.

Lemma run_handler_outcome pam username service conf parent e fd :
  wp (run_vauth_auth_handler pam [username; service; conf; parent] e)
    (λ r d, handler_outcome (pam username service conf) r d) (endpoint_new fd).
Proof.
  unfold run_vauth_auth_handler. apply wp_catch.
  assert (∀ fd', (pam_verifier, VerificationComplete result_success) ∉ ep_trace (endpoint_new fd')) as Hnew
    by (intros fd'; apply not_elem_of_nil).
  unfold handler_body. destruct (from_chars_int parent) as [expected|];
    [|apply wp_ret; by apply handler_failed].
  apply wp_bind, wp_lift. destruct (arm_parent_death_signal _ _ _); [|by apply wp_ret, handler_failed].
  apply wp_bind, wp_lift. destruct (VerifierSocket_new _ _) as [fd1|]; [|by apply wp_ret, handler_failed].
  apply wp_bind. unfold st_put, wp at 1. cbn [fst snd].
  apply wp_bind, wp_receive_message; [intros ex; by apply wp_ret, handler_failed| |].
  - intros m s _ Ha. pose proof (start_step _ _ _ Ha) as (uid & session & _ & -> & ->).
    apply (follows_advance _ _ _ _ (follows_new fd1)) in Ha as Hf.
    set (d := advanced _ _) in *. assert (undecided d) as Hu.
    { split; [|by left]. intros r. simpl. rewrite list_elem_of_singleton. naive_solver. }
    apply wp_bind. eapply wp_mono; [|by apply authenticate_verdict].
    intros r d1 (Hu1 & rc & -> & Hv). eapply wp_mono; [|apply (report_verdict (pam username service conf));
      [done|]]; [|intros Hrc; exists d; auto].
    intros [rc'|ex] d2 Ho; [done|by apply wp_ret].
  - intros m _. apply wp_ret, handler_failed. simpl. rewrite list_elem_of_singleton. naive_solver.
Qed.

(** ** An account whose password is asked for *)

(** A stack of one module that asks for a password and compares it. *)
Definition password_stack (password : list Z) (events : list PamEvents) : PamStack :=
  mkPamStack PAM_SUCCESS true
    (pam_converse (Some [Some (mkPamMessage PAM_PROMPT_ECHO_OFF (Some (lit "Password: ")))]) true events
       (λ rc replies, pam_done
          (if bool_decide (replies = Some [Some password]) then PAM_SUCCESS else PAM_AUTH_ERR)))
    (pam_done PAM_SUCCESS) (λ _, PAM_SUCCESS).

Definition packet_of (m : VerifierMessage) : list Z :=
  match encode_verifier_message m with Ret packet => packet | Throw _ => [] end.
Definition delivered (m : VerifierMessage) : recv_result := recv_datagram (packet_of m) false.
Definition sent_whole (m : VerifierMessage) : send_result := send_count (len (packet_of m)).
Definition good_descriptor : Descriptor :=
  mkDesc (Some FD_CLOEXEC) true (Some SOCK_SEQPACKET) (Some (2, AF_UNIX)) (peer_address 2 AF_UNIX).

Definition example_pam_events : list PamEvents :=
  [mkPamEvents (sent_whole (SecretRequired (lit "Password: ")))
     (delivered (SecretResponse (lit "hunter2"))) true].
Definition example_pam : Pam := λ username _ _,
  if bool_decide (username = lit "alice") then password_stack (lit "hunter2") example_pam_events
  else mkPamStack PAM_USER_UNKNOWN false (pam_done PAM_SYSTEM_ERR) (pam_done PAM_SYSTEM_ERR) (λ rc, rc).
Definition example_handler_events : HandlerEvents :=
  mkHandlerEvents true 77 good_descriptor (delivered (StartVerification 1000 (lit "c2")))
    (sent_whole (VerificationComplete result_success)).
Definition example_handler_argv : list (list Z) := [lit "alice"; lit "vauth"; lit "/etc/pam.d"; lit "77"].
Definition example_handled : Endpoint :=
  (run_vauth_auth_handler example_pam example_handler_argv example_handler_events (endpoint_new 3)).2.

Lemma example_handler_run :
  run_vauth_auth_handler example_pam example_handler_argv example_handler_events (endpoint_new 3) =
    (Ret PAM_SUCCESS, example_handled).
Proof. vm_compute. reflexivity. Qed.

(** ** Properties *)

(** The PAM handler reports what PAM decided.  Whatever the modules ask, whatever the
    service answers and whichever call fails, the handler ends with a status and never
    with an exception; it puts a success on the wire only when starting PAM, the
    authentication, the account check and the end of the session all succeeded for the
    given account; and it exits with status 0 only when that report has completed a
    conversation that follows the protocol. *)
Theorem handler_reports_pam pam username service conf parent e fd r d :
  run_vauth_auth_handler pam [username; service; conf; parent] e (endpoint_new fd) = (r, d) →
  ∃ rc, r = Ret rc ∧
    ((pam_verifier, VerificationComplete result_success) ∈ ep_trace d →
       (rc = PAM_SUCCESS ∨ rc = PAM_SYSTEM_ERR) ∧
       ∃ d0, undecided d0 ∧ authenticated (pam username service conf) d0) ∧
    (rc = PAM_SUCCESS → follows d ∧ ep_state d = VerifierCompleted result_success).
Proof. intros Hrun. exact (wp_run _ _ _ _ _ (run_handler_outcome pam username service conf parent e fd) Hrun). Qed.

Lemma handler_reports_pam_witness :
  follows example_handled ∧ ep_state example_handled = VerifierCompleted result_success.
Proof.
  destruct (handler_reports_pam example_pam (lit "alice") (lit "vauth") (lit "/etc/pam.d") (lit "77")
    example_handler_events 3 _ _ example_handler_run) as (rc & E & _ & Hok).
  apply Hok. injection E as <-. reflexivity.
Defined.
