(* ===== verification/Verification.v ===== *)
(** * A verification end to end

    The daemon's client, the verifier service and the PAM handler put together: the
    properties of each of the three programs, and what a verification that the daemon
    accepts says about PAM, given that the sockets between them deliver what is sent and
    that waitpid reports the child's exit status. *)
From Stdlib Require Import ZArith Lia.
From stdpp Require Import base list strings.
From S2P Require Import Prelude AgentService VerifierProtocol VerifierConversation VerifierSocket.
From S2P Require Import VerifierClient VerifierService VerifierServiceProofs AuthHandler.

(** ** The three programs, connected *)

(** The two ends of a socket: what one end has received the other has sent. *)
Definition connected (client server : Endpoint) : Prop :=
  (∀ m, (pam_verifier, m) ∈ ep_trace client → (pam_verifier, m) ∈ ep_trace server) ∧
  (∀ m, (daemon, m) ∈ ep_trace server → (daemon, m) ∈ ep_trace client).

(** The service's child is the handler: started with the child's arguments, talking over its
    socket. *)
Definition child_is_handler (pam : Pam) (e : HandlerEvents) (p : Program Endpoint) : Prop :=
  ∃ fd status d, handler_process pam (ch_argv (pg_child p)) e (endpoint_new fd) = Some (status, d) ∧
    connected (pg_socket p) d.

(** ** The client sends one request, the one it was given *)

Lemma send_cancel_grows r e : wp (send_cancel r) (λ _ e', grows e e') e.
Proof.
  apply wp_bind, wp_get. destruct (verifier_conversation_is_terminal _); [by apply wp_ret|].
  apply wp_catch. eapply wp_mono; [|apply send_grows]. by intros [[]|ex] e' Hg.
Qed.

Section client.
Context {S E : Type} (cb : Callbacks S E).

Definition client_grows (c c' : Client S) : Prop := grows (cl_socket c) (cl_socket c').

#[local] Instance client_grows_preorder : PreOrder client_grows.
Proof. unfold client_grows. split; [intros c; reflexivity|intros c1 c2 c3; apply transitivity]. Qed.

Lemma client_grows_refl c w : client_grows c (mkClient (cl_socket c) w).
Proof. unfold client_grows. simpl. reflexivity. Qed.

Lemma cancel_with_grows {A} r e c c0 :
  client_grows c0 c → wp (cancel_with (A:=A) r e) (λ _ c', client_grows c0 c') c.
Proof.
  intros Hc. apply wp_bind, wp_on_socket. eapply wp_mono; [|apply send_cancel_grows].
  intros o e' Hg. assert (grows (cl_socket c0) e') as Hg' by (by etrans). destruct o; [by apply wp_throw|done].
Qed.

Lemma await_message_grows deadline t c : wp (await_message cb deadline t) (λ _ c', client_grows c c') c.
Proof.
  assert (∀ w, client_grows c (mkClient (cl_socket c) w)) as Hrefl by (intros w; apply client_grows_refl).
  unfold await_message. destruct (ct_stop t); [apply cancel_with_grows; by destruct c|].
  apply wp_bind, wp_on_world. intros [[]|e] w _; [by apply cancel_with_grows| |apply Hrefl].
  destruct (deadline <=? ct_now t); [by apply cancel_with_grows|].
  destruct (ct_poll t) as [| | |r]; [by apply wp_throw|by apply wp_ret|by apply wp_throw|].
  apply wp_bind, wp_on_socket. eapply wp_mono; [|apply receive_grows]. by intros [m|ex] e' Hg.
Qed.

Lemma answer_secret_grows t secret c c0 :
  client_grows c0 c → wp (answer_secret cb t secret) (λ _ c', client_grows c0 c') c.
Proof.
  intros Hc. unfold answer_secret. destruct (ct_stop_after t); [by apply cancel_with_grows|].
  apply wp_bind, wp_on_world. intros [[]|e] w _; [by apply cancel_with_grows| |done].
  apply wp_on_socket. eapply wp_mono; [|apply send_grows]. intros o e' Hg.
  unfold client_grows in *. by etrans.
Qed.

Lemma client_turn_grows deadline t c r c' :
  client_turn cb deadline t c = Some (r, c') → client_grows c c'.
Proof.
  unfold client_turn. set (c0 := mkClient (cl_socket c) (ct_others t (cl_world c))).
  pose proof (await_message_grows deadline t c0) as Hg. unfold wp in Hg.
  destruct (await_message cb deadline t c0) as [[[m|]|e] c1]; simpl in Hg;
    [|by intros [= <- <-]|by intros [= <- <-]].
  destruct m as [| | |kind text|prompt|result]; try by intros [= <- <-].
  - intros [= Er]. unfold st_bind, on_world in Er.
    destruct (status_callback cb _ _ _ _) as [[[]|e] w]; by injection Er as <- <-.
  - destruct (secret_callback cb _ _ _) as [[[secret|e] w]|]; [|by intros [= <- <-]|done].
    intros [= Er]. pose proof (answer_secret_grows t secret (mkClient (cl_socket c1) w) c Hg) as Ha.
    unfold wp, st_bind in *. destruct (answer_secret cb t secret _) as [[[]|e] c2]; by injection Er as <- <-.
Qed.

Lemma client_loop_grows deadline env c : client_grows c (client_loop cb deadline env c).2.
Proof.
  revert c. induction env as [|t env IH]; intros c; simpl; [reflexivity|].
  destruct (client_turn cb deadline t c) as [[[[result|]|e] c']|] eqn:Et; [..|reflexivity];
    apply client_turn_grows in Et; try done. by etrans; [|apply IH].
Qed.
End client.

Lemma start_only_first tr s uid session :
  run_conversation VerifierAwaitingStart tr = Ret s →
  (daemon, StartVerification uid session) ∈ tr → head tr = Some (daemon, StartVerification uid session).
Proof.
  intros Hrun Hin. apply list_elem_of_split in Hin as (t1 & t2 & ->).
  destruct t1 as [|x t1]; [done|]. exfalso. rewrite run_app in Hrun.
  destruct (run_conversation VerifierAwaitingStart (x :: t1)) as [s1|] eqn:E1; [|done]. simpl in Hrun.
  assert (s1 ≠ VerifierAwaitingStart) as Hs1.
  { destruct x as [who m]. simpl in E1.
    destruct (advance_verifier_conversation _ who m) as [s0|] eqn:E0; [|done].
    apply start_step in E0 as (? & ? & -> & -> & ->). simpl in E1. clear Hrun.
    assert (∀ s0, s0 ≠ VerifierAwaitingStart → run_conversation s0 t1 = Ret s1 →
      s1 ≠ VerifierAwaitingStart) as Hrun by (clear E1; induction t1 as [|[who m] t1 IH];
        [by intros ?? [= <-]|]; intros s0 Hs0; simpl;
        destruct (advance_verifier_conversation s0 who m) as [s2|] eqn:E2; [|done]; simpl;
        apply IH; intros ->; unfold advance_verifier_conversation in E2;
        apply bind_unit_ret in E2 as [_ E2]; destruct s0, who, m; try done; by case_match).
    by apply (Hrun VerifierVerifying). }
  by destruct s1.
Qed.

Lemma left_start peer {A} (r : res A) e uid session :
  left_by peer r e → (daemon, StartVerification uid session) ∈ ep_trace e →
  peer = pam_verifier → head (ep_trace e) = Some (daemon, StartVerification uid session).
Proof.
  intros [Hf|[(tr & m & -> & Hf & _) _]] Hin ->; [by eapply start_only_first|].
  apply elem_of_app in Hin as [Hin|Hin%list_elem_of_singleton]; [|done].
  pose proof (start_only_first _ _ _ _ Hf Hin) as Hh. by destruct tr.
Qed.

Lemma client_starts_once {S E} (cb : Callbacks S E) uid session timeout i env w r cl uid' session' :
  run_verifier_service cb uid session timeout i env w = (Some (Ret r), cl) →
  (daemon, StartVerification uid' session') ∈ ep_trace (cl_socket cl) →
  uid' = uid ∧ session' = session.
Proof.
  intros Hrun Hin. pose proof (run_verifier_service_outcome cb uid session timeout i env w) as Ho.
  rewrite Hrun in Ho. destruct Ho as (Hf & _). pose proof (start_only_first _ _ _ _ Hf Hin) as Hh.
  unfold run_verifier_service in Hrun.
  pose proof (open_conversation_talking cb uid session timeout i w) as Hop. unfold wp in Hop.
  destruct (open_conversation cb uid session timeout i _) as [[[]|e] c]; [|done]. simpl in Hop.
  destruct Hop as [_ Htr]. pose proof (client_loop_grows cb (cs_now i + timeout) env c) as Hg.
  rewrite Hrun in Hg. unfold client_grows, grows in Hg. rewrite Htr in Hg.
  destruct Hg as [rest Hg]. simpl in Hg. rewrite Hg in Hh. by injection Hh as -> ->.
Qed.

(** ** An example: a password, asked for by PAM and supplied through the daemon *)

Definition example_prompt : VerifierMessage := SecretRequired (lit "Password: ").
Definition example_secret : VerifierMessage := SecretResponse (lit "hunter2").
Definition example_start : VerifierMessage := StartVerification 1000 (lit "c2").
Definition example_success : VerifierMessage := VerificationComplete result_success.

Definition example_callbacks : Callbacks () () :=
  mkCallbacks (λ _ _ _, st_ret ()) (λ _ _ w, Some (Ret (lit "hunter2"), w)) (λ _, st_ret false).
Definition example_client_turn (m : VerifierMessage) : ClientTurn () () :=
  mkClientTurn (λ w, w) false () 0 (poll_input (delivered m)) () false () (sent_whole example_secret).
Definition example_client_start : ClientStart () :=
  mkClientStart false () 0 (Ret 9) (sent_whole example_start).
Definition example_client : option (res VerificationResult) * Client () :=
  run_verifier_service example_callbacks 1000 (lit "c2") (seconds 30) example_client_start
    [example_client_turn example_prompt; example_client_turn example_success] ().

Definition example_session : list Z → res LoginSessionProperties := λ _, Ret (mkProps 1000 true false).
Definition example_events (send : VerifierMessage) : DaemonEvents :=
  mkDaemonEvents (sent_whole send) (delivered example_secret) poll_nothing.
Definition example_program_turn : ProgramTurn DaemonEvents :=
  mkProgramTurn
    [mkProgramInput (poll_input (delivered example_prompt)) (example_events example_prompt)
       (sent_whole example_secret);
     mkProgramInput (poll_input (delivered example_success)) (example_events example_prompt) send_failed]
    false (example_events example_prompt) (w_exited 0) 0 send_failed (mkGraces [] []).
Definition example_connection : Connection :=
  mkConnection 4 (Some (mkPeer 50 990 990, true)) (delivered example_start) example_session
    (λ _, Ret (lit "alice")) send_failed (lit "vauth") (lit "/etc/pam.d") (lit "77")
    (mkProgramStart (lit "/proc/self/exe") [] false (example_events example_prompt) 0 (Some (5, 6)) (5, 6)
       good_descriptor (mkSpawn [0; 0; 0] 78) (sent_whole example_start))
    [example_program_turn] (mkGraces [] []) example_session (sent_whole example_success).
Definition example_service_run : option (res Z) * ServiceState :=
  run_pam_verifier_connection 990 (seconds 30) example_connection.

Lemma example_client_run : example_client.1 = Some (Ret result_success).
Proof. vm_compute. reflexivity. Qed.
Lemma example_service_result : example_service_run.1 = Some (Ret 0).
Proof. vm_compute. reflexivity. Qed.

Definition example_child : Program Endpoint :=
  match vs_program example_service_run.2 with
  | Some p => p
  | None => mkProgram (endpoint_new (-1)) no_child None (endpoint_new (-1))
  end.
Lemma example_service_child : vs_program example_service_run.2 = Some example_child.
Proof. vm_compute. reflexivity. Qed.

(** Membership in a concrete trace. *)
Lemma elem_decided {A} `{EqDecision A} (x : A) (l : list A) : bool_decide (x ∈ l) = true → x ∈ l.
Proof. apply bool_decide_eq_true. Qed.

Lemma connected_decided client server :
  forallb (λ x, match x with (pam_verifier, _) => bool_decide (x ∈ ep_trace server) | _ => true end)
    (ep_trace client) = true →
  forallb (λ x, match x with (daemon, _) => bool_decide (x ∈ ep_trace client) | _ => true end)
    (ep_trace server) = true → connected client server.
Proof.
  rewrite !forallb_forall. intros H1 H2. split; intros m Hm%list_elem_of_In.
  - specialize (H1 _ Hm). simpl in H1. by apply bool_decide_eq_true in H1.
  - specialize (H2 _ Hm). simpl in H2. by apply bool_decide_eq_true in H2.
Qed.

(** ** Properties *)

(** The daemon's client follows the verifier protocol, whatever arrives.  At every end,
    and while it is running, the messages on its socket are a conversation of the protocol;
    the only exception is a last message of the verifier that the protocol does not allow,
    and then the call has thrown a conversation error.  It returns a result only when
    the verifier completed the conversation with that result. *)
Theorem client_follows_protocol {S E} (cb : Callbacks S E) uid session timeout i env w :
  let '(o, cl) := run_verifier_service cb uid session timeout i env w in
  match o with
  | None => follows (cl_socket cl)
  | Some (Ret result) =>
      follows (cl_socket cl) ∧ ep_state (cl_socket cl) = VerifierCompleted result ∧
      last (ep_trace (cl_socket cl)) = Some (pam_verifier, VerificationComplete result)
  | Some (Throw e) => left_by pam_verifier (Throw e : res ()) (cl_socket cl)
  end.
Proof. apply run_verifier_service_outcome. Qed.

(** The client comes to an end: when its loop gets a turn at or after the deadline and
    the callback for secrets returns, the call has returned or thrown, whatever the
    verifier sends or keeps back. *)
Theorem client_terminates {S E} (cb : Callbacks S E) uid session timeout i env w :
  Forall (λ t, ∀ prompt w, is_Some (secret_callback cb (ct_callback t) prompt w)) env →
  Exists (λ t, cs_now i + timeout ≤ ct_now t) env →
  is_Some (run_verifier_service cb uid session timeout i env w).1.
Proof. apply run_verifier_service_ends. Qed.

Lemma client_terminates_witness :
  is_Some (run_verifier_service example_callbacks 1000 (lit "c2") 5 example_client_start
    [mkClientTurn (λ w, w) false () 7 poll_nothing () false () send_failed] ()).1.
Proof.
  apply (client_terminates example_callbacks 1000 (lit "c2") 5 example_client_start).
  - constructor; [|constructor]. intros prompt w. by eexists.
  - constructor. vm_compute. discriminate.
Defined.

(** The verifier service reports a success only when it was earned: the peer is the
    daemon's account; the session named in the start message was active, local and owned by
    the target user before the child ran and still is after it; the child was started for
    the account of that user, completed its conversation with success and exited with
    status 0.  Whatever happens, the service leaves its conversation with the daemon in
    order and no child behind. *)
Theorem service_success_earned expected timeout c :
  let '(o, st) := run_pam_verifier_connection expected timeout c in
  ∀ r, o = Some r →
    left_by daemon r (vs_daemon st) ∧
    (∀ p, vs_program st = Some p → ch_pid (pg_child p) ≤ 0) ∧
    ((pam_verifier, VerificationComplete result_success) ∈ ep_trace (vs_daemon st) →
     ∃ uid sessionId username session p,
       admitted expected c uid sessionId username ∧
       begun (daemon, StartVerification uid sessionId) (vs_daemon st) ∧
       cn_query_again c sessionId = Ret session ∧ active_local session uid ∧
       vs_program st = Some p ∧
       ch_argv (pg_child p) = ps_path (cn_program c) :: handler_arguments c username ∧
       follows (pg_socket p) ∧ ep_state (pg_socket p) = VerifierCompleted result_success ∧
       Exists (λ t, pt_wait t = w_exited 0) (cn_turns c)).
Proof.
  pose proof (run_connection_outcome expected timeout c) as Ho.
  destruct (run_pam_verifier_connection expected timeout c) as [o st]. by intros r ->.
Qed.

Lemma service_success_earned_witness :
  ∃ uid sessionId username, admitted 990 example_connection uid sessionId username.
Proof.
  pose proof (service_success_earned 990 (seconds 30) example_connection) as H.
  fold example_service_run in H. rewrite (surjective_pairing example_service_run) in H.
  destruct (H _ example_service_result) as (_ & _ & Hs).
  destruct Hs as (uid & sessionId & username & session & p & Ha & _).
  - apply elem_decided. vm_compute. reflexivity.
  - exists uid, sessionId, username. exact Ha.
Defined.

(** A verification the daemon accepts went through PAM.  When the client's call for a
    user returns success, with the service at the other end of its socket and the PAM
    handler as the service's child, then PAM authenticated the account of that very user
    -- start, authentication, account check and end all succeeded -- and the user's
    session is active and local. *)
Lemma client_success_authenticated {S E} (cb : Callbacks S E) uid session timeout i env w cl
    expected timeout' c r st pam e :
  run_verifier_service cb uid session timeout i env w = (Some (Ret result_success), cl) →
  run_pam_verifier_connection expected timeout' c = (Some r, st) →
  connected (cl_socket cl) (vs_daemon st) →
  (∀ p, vs_program st = Some p → child_is_handler pam e p) →
  ∃ username props d0, cn_username c uid = Ret username ∧
    cn_query_again c session = Ret props ∧ active_local props uid ∧
    authenticated (pam username (cn_pam_service c) (cn_configuration c)) d0.
Proof.
  intros Hcl Hsv [Hcon1 Hcon2] Hchild.
  pose proof (run_verifier_service_outcome cb uid session timeout i env w) as Ho.
  rewrite Hcl in Ho. destruct Ho as (_ & _ & Hlast).
  pose proof (run_connection_outcome expected timeout' c) as Hout. rewrite Hsv in Hout.
  destruct Hout as (_ & _ & Hearned).
  destruct Hearned as (uid' & session' & username & props & p & Had & Hb & Hq & Hal & Hp & Hargv & Hf & Hs & _).
  { apply Hcon1, last_Some_elem_of, Hlast. }
  destruct (client_starts_once cb uid session timeout i env w _ cl uid' session' Hcl) as [-> ->].
  { apply Hcon2, head_Some_elem_of, Hb. }
  exists username, props. destruct (Hchild p Hp) as (fd & status & d & Hh & Hcon3 & _).
  rewrite Hargv in Hh. unfold handler_process, handler_arguments in Hh.
  rewrite bool_decide_true in Hh by done.
  destruct (run_vauth_auth_handler _ _ _ _) as [[rc|ex] d'] eqn:Er; [|done]. injection Hh as <- <-.
  destruct (wp_run _ _ _ _ _ (run_handler_outcome _ _ _ _ _ _ _) Er) as (rc' & _ & Hin & _).
  destruct Hin as [_ (d0 & _ & Hauth)].
  { apply Hcon3, last_Some_elem_of. by apply follows_completed. }
  exists d0. split_and!; [apply Had|done|apply Hal..|done].
Qed.
