(* ===== verification/UserInteraction.v ===== *)
(** * Asking the user (src/src/uv/src/auth.cpp, src/src/keepalive.hpp)

    [PamUserInteraction] asks the registered agent for presence and runs verifications.  It
    runs on the worker thread, against the D-Bus service of AgentService.v, while the D-Bus
    thread keeps serving the agent: between any two calls that take one of the service's
    locks, the D-Bus thread may handle any number of bus messages.  The state of this file
    is therefore the service together with a schedule of what the D-Bus thread does next. *)
From Stdlib Require Import ZArith Lia.
From stdpp Require Import base list strings.
From S2P Require Import Prelude EventLoop VerifierProtocol VerifierConversation VerifierSocket.
From S2P Require Import AgentRegistry InteractionRegistry AgentService VerifierClient.

(** ** What the D-Bus thread does *)

(** A bus message, or one of the thread's own actions. *)
Inductive bus_op :=
  | BusRegister (login : Login) (accounts : Accounts) (call : BusCall)
  | BusUnregister (call : BusCall)
  | BusRespond (login : Login) (call : BusCall) (generation request_id : Z) (approved : bool)
  | BusSubmit (login : Login) (call : BusCall) (generation request_id prompt_id : Z)
      (pipe : SecretPipe)
  | BusCancel (login : Login) (call : BusCall) (generation request_id : Z)
  | BusDisconnected (bus_name : list Z)
  | BusFailure
  | BusFlush.

(** Whether the call was accepted, and the service it leaves. *)
Definition bus_step (o : bus_op) (s : Service) : bool * Service :=
  match o with
  | BusRegister login accounts call =>
      let '(r, s') := call_register_agent login accounts call s in (is_ret r, s')
  | BusUnregister call => let '(r, s') := call_unregister_agent call s in (is_ret r, s')
  | BusRespond login call generation request_id approved =>
      let '(r, s') := call_respond_to_presence login call generation request_id approved s in
      (is_ret r, s')
  | BusSubmit login call generation request_id prompt_id pipe =>
      let '(r, s') := call_submit_secret login call generation request_id prompt_id pipe s in
      (is_ret r, s')
  | BusCancel login call generation request_id =>
      let '(r, s') := call_cancel_interaction login call generation request_id s in (is_ret r, s')
  | BusDisconnected bus_name => (true, unregister_disconnected_agent bus_name s)
  | BusFailure => (true, record_failure s)
  | BusFlush => (true, (send_queued_events s).2)
  end.

(** ** The state *)

(** A record of the run, not part of the program: an accepted bus call with the service it
    found, a registered context that the wait for a context found, with the service it was
    found in, or the end of a conversation with the verifier: its result and the socket it
    leaves. *)
Inductive log_entry :=
  | Accepted (o : bus_op) (s : Service)
  | Found (context : UserContext) (s : Service)
  | Conversed (r : res VerificationResult) (e : Endpoint).

(** [ui_schedule]: what the D-Bus thread does before each of the next calls that take a lock
    of the service. *)
Record UIState := mkUIState {
  ui_service : Service;
  ui_keepalive : KeepaliveStatus;
  ui_log : list log_entry;
  ui_schedule : list (list bus_op);
}.

Definition bus_act (w : UIState) (o : bus_op) : UIState :=
  let '(accepted, s) := bus_step o (ui_service w) in
  mkUIState s (ui_keepalive w)
    (if accepted then ui_log w ++ [Accepted o (ui_service w)] else ui_log w) (ui_schedule w).

Definition logged (x : log_entry) (w : UIState) : UIState :=
  mkUIState (ui_service w) (ui_keepalive w) (ui_log w ++ [x]) (ui_schedule w).

Definition bus_acts (ops : list bus_op) (w : UIState) : UIState := foldl bus_act w ops.

(** The D-Bus thread's turn in the schedule; once the schedule is over it stays quiet. *)
Definition interfere : ST UIState () := λ w,
  match ui_schedule w with
  | [] => (Ret (), w)
  | ops :: schedule =>
      (Ret (), bus_acts ops (mkUIState (ui_service w) (ui_keepalive w) (ui_log w) schedule))
  end.

Definition on_service {A} (m : ST Service A) : ST UIState A := λ w,
  let '(r, s) := m (ui_service w) in
  (r, mkUIState s (ui_keepalive w) (ui_log w) (ui_schedule w)).

(** An action under one of the service's locks. *)
Definition locked {A} (m : ST Service A) : ST UIState A :=
  let! _ := interfere in on_service m.

(** ** The service's channel, lock by lock

    The bodies of AgentService.v with the D-Bus thread between their locks. *)

Definition channel_begin (user : UserContext) (request : UserInteractionRequest) : ST UIState Z :=
  let! _ := locked throw_if_failed in
  if negb (uir_requestId request =? 0) then st_throw invalid_argument else
  let! s := locked st_get in
  if negb (bool_decide (is_Some (uc_session user))) || negb (is_current (sv_registry s) user)
  then st_ret 0
  else locked (on_interactions (begin user (uir_operation request) (uir_relyingPartyId request))).

Definition channel_publish (user : UserContext) (request : UserInteractionRequest)
    (state : UserInteractionState) (message : list Z) : ST UIState Z :=
  let! _ := locked throw_if_failed in
  let! s := locked st_get in
  if (uir_requestId request =? 0) || negb (bool_decide (is_Some (uc_session user))) ||
     negb (is_current (sv_registry s) user)
  then st_ret 0 else
  let! t := locked (on_interactions (transition user (uir_requestId request) state message)) in
  if negb (shouldPublish t) then st_ret 0 else
  let! _ := locked (st_modify (λ s, mkService (sv_registry s) (sv_interactions s)
    (sv_events s ++ [mkStateEvent user (uir_requestId request) (tr_promptId t)
       (uir_operation request) state (uir_relyingPartyId request) message]) (sv_failed s))) in
  st_ret (tr_promptId t).

Definition channel_end (user : UserContext) (request : UserInteractionRequest) : ST UIState () :=
  locked (st_modify (end_interaction user request)).

Definition channel_cancellation_requested (user : UserContext) (request : UserInteractionRequest)
    : ST UIState bool :=
  st_catch
    (let! _ := locked throw_if_failed in
     let! s := locked st_get in
     if negb (is_current (sv_registry s) user) then st_ret true else
     let! s := locked st_get in
     st_ret (InteractionRegistry.cancellation_requested user (uir_requestId request)
               (sv_interactions s)))
    (λ _, st_ret true).

(** ** Code that may still be running

    [None]: the call has not come to an end when its inputs run out. *)

Definition PT (S A : Type) : Type := S → option (res A) * S.

Definition pt_of {S A} (m : ST S A) : PT S A := λ s, let '(r, s') := m s in (Some r, s').

Definition pt_bind {S A B} (m : PT S A) (k : A → PT S B) : PT S B := λ s,
  match m s with
  | (Some (Ret a), s') => k a s'
  | (Some (Throw e), s') => (Some (Throw e), s')
  | (None, s') => (None, s')
  end.

Notation "'await' x ':=' m 'in' k" := (pt_bind m (λ x, k))
  (at level 10, x pattern, m at level 100, k at level 200) : vauth_scope.

(** [try { m } catch(e) { h e }] *)
Definition pt_catch {S A} (m : PT S A) (h : exn → ST S A) : PT S A := λ s,
  match m s with
  | (Some (Throw e), s') => pt_of (h e) s'
  | (o, s') => (o, s')
  end.

(** [m], then the destructor [d] however [m] ends. *)
Definition pt_finally {S A} (m : PT S A) (d : ST S ()) : PT S A := λ s,
  match m s with
  | (Some r, s') => (Some r, (d s').2)
  | (None, s') => (None, s')
  end.

(** ** The two waits *)

Record WaitTurn := mkWaitTurn { wt_others : list bus_op; wt_stop : bool; wt_now : Z }.

(** One turn of a wait's loop under the registry's lock. *)
Definition poll_turn {R} (poll : bool → bool → InteractionRegistry → option R * InteractionRegistry)
    (deadline : Z) (t : WaitTurn) (w : UIState) : option R * UIState :=
  let w := bus_acts (wt_others t) w in
  let '(r, reg) := poll (wt_stop t) (deadline <=? wt_now t) (sv_interactions (ui_service w)) in
  (r, mkUIState (set_interactions (ui_service w) reg) (ui_keepalive w) (ui_log w) (ui_schedule w)).

Fixpoint wait_loop {R} (poll : bool → bool → InteractionRegistry → option R * InteractionRegistry)
    (deadline : Z) (env : list WaitTurn) (w : UIState) : option (res R) * UIState :=
  match env with
  | [] => (None, w)
  | t :: env =>
      match poll_turn poll deadline t w with
      | (Some r, w) => (Some (Ret r), w)
      | (None, w) => wait_loop poll deadline env w
      end
  end.

Definition channel_wait_for_presence (user : UserContext) (request : UserInteractionRequest)
    (timeout start : Z) (env : list WaitTurn) : PT UIState UserInteractionResult :=
  await _ := pt_of (locked throw_if_failed) in
  if timeout <=? 0 then pt_of (st_throw invalid_argument) else
  await r := wait_loop (poll_presence user (uir_requestId request)) (start + timeout) env in
  pt_of (st_lift (presence_result r)).

Definition channel_wait_for_secret (user : UserContext) (request : UserInteractionRequest)
    (prompt_id timeout start : Z) (env : list WaitTurn) : PT UIState (list Z) :=
  await _ := pt_of (locked throw_if_failed) in
  if timeout <=? 0 then pt_of (st_throw invalid_argument) else
  await r := wait_loop (poll_secret user (uir_requestId request) prompt_id) (start + timeout) env in
  pt_of (st_lift (secret_result r)).

(** ** The user context *)

(** What [current_context] of the provider meets: logind's answer, the time of the call, and
    the wake-ups of its wait with what the D-Bus thread did before each. *)
Record ProviderRun := mkProviderRun {
  pv_login : Login;
  pv_start : Z;
  pv_wakeups : list (Z * list bus_op);
}.

Fixpoint woken (w : UIState) (wakeups : list (Z * list bus_op)) : list (Z * UIState) :=
  match wakeups with
  | [] => []
  | (now, ops) :: wakeups => let w' := bus_acts ops w in (now, w') :: woken w' wakeups
  end.

(** [registry_.wait_for_current(AGENT_STARTUP_GRACE)] *)
Definition channel_wait_for_current (p : ProviderRun) : PT UIState (option UserContext) := λ w,
  match wait_for_current (λ w, sv_registry (ui_service w)) w (pv_start p + AGENT_STARTUP_GRACE)
          (woken w (pv_wakeups p)) with
  | Some (context, w) =>
      (Some (Ret context),
       match context with Some c => logged (Found c (ui_service w)) w | None => w end)
  | None => (None, w)
  end.

Definition provider_current_context (p : ProviderRun) : PT UIState (option UserContext) :=
  await _ := pt_of (locked throw_if_failed) in
  await context := channel_wait_for_current p in
  await _ := pt_of (locked throw_if_failed) in
  match context with
  | None => pt_of (st_ret None)
  | Some c =>
      if session_is_still_active (pv_login p) c then pt_of (st_ret (Some c)) else
      pt_of (let! _ := locked (st_modify (λ s, set_interactions s (clear_for c (sv_interactions s)))) in
             let! _ := locked (st_modify (λ s,
               set_registry s (unregister_agent (agent_bus_name c) (sv_registry s)).2)) in
             st_ret None)
  end.

Definition context_is_still_current (p : ProviderRun) (user : UserContext) : PT UIState bool :=
  await current := provider_current_context p in
  pt_of (st_ret (match current with
                 | Some c => bool_decide (binding c = binding user)
                 | None => false
                 end)).

(** [stop] at the two cancellation points. *)
Definition pam_current_context (stop stop_again : bool) (p : ProviderRun) : PT UIState UserContext :=
  if stop then pt_of (st_throw OperationCancelled) else
  await context := provider_current_context p in
  match context with
  | Some c => if stop_again then pt_of (st_throw OperationCancelled) else pt_of (st_ret c)
  | None => pt_of (st_throw UserInteractionUnavailable)
  end.

(** ** Scopes *)

Definition USER_ACTION_TIMEOUT : Z := seconds 30.

(** [InteractionScope]: the request with its identifier, ended when the scope is left. *)
Definition interaction_scope {A} (user : UserContext) (request : UserInteractionRequest)
    (body : UserInteractionRequest → PT UIState A) : PT UIState A :=
  await id := pt_of (channel_begin user request) in
  if id =? 0 then pt_of (st_throw UserInteractionUnavailable) else
  let active := mkUIRequest (uir_operation request) (uir_relyingPartyId request) id in
  pt_finally (body active) (channel_end user active).

Definition set_keepalive (k : KeepaliveStatus) : ST UIState () :=
  st_modify (λ w, mkUIState (ui_service w) k (ui_log w) (ui_schedule w)).

(** [UserActionKeepaliveGuard] *)
Definition keepalive_guard {A} (m : PT UIState A) : PT UIState A :=
  await _ := pt_of (set_keepalive ka_up_needed) in
  pt_finally m (set_keepalive ka_processing).

(** [publish_state(...); return r;] and [publish_state(...); throw e;] *)
Definition publish_then {A} (user : UserContext) (request : UserInteractionRequest)
    (state : UserInteractionState) (k : ST UIState A) : ST UIState A :=
  let! _ := channel_publish user request state [] in k.

(** ** Presence *)

Record PresenceRun := mkPresenceRun {
  pr_start : Z;
  pr_wait : list WaitTurn;
  pr_provider : ProviderRun;
}.

(** The [try] block of [request_presence]. *)
Definition presence_body (run : PresenceRun) (user : UserContext) (request : UserInteractionRequest)
    : PT UIState UserInteractionResult :=
  keepalive_guard
    (await response := channel_wait_for_presence user request USER_ACTION_TIMEOUT
                         (pr_start run) (pr_wait run) in
     match response with
     | ui_cancelled => pt_of (publish_then user request cancelled (st_ret ui_cancelled))
     | _ =>
         await approved := (match response with
                            | ui_approved => context_is_still_current (pr_provider run) user
                            | _ => pt_of (st_ret false)
                            end) in
         pt_of (publish_then user request
                  (if (approved : bool) then presence_approved else presence_denied)
                  (st_ret (if approved then ui_approved else ui_denied)))
     end).

Definition presence_handlers (user : UserContext) (request : UserInteractionRequest) (e : exn)
    : ST UIState UserInteractionResult :=
  match e with
  | UserInteractionCancelled => publish_then user request cancelled (st_ret ui_cancelled)
  | OperationCancelled => publish_then user request cancelled (st_throw OperationCancelled)
  | UserActionTimedOut => publish_then user request timed_out (st_throw UserActionTimedOut)
  | _ => st_throw e
  end.

Definition request_presence (run : PresenceRun) (user : UserContext)
    (request : UserInteractionRequest) : PT UIState UserInteractionResult :=
  interaction_scope user request (λ active,
    await _ := pt_of (channel_publish user active presence_required []) in
    pt_catch (presence_body run user active) (presence_handlers user active)).

(** ** Verification *)

(** What the secret callback meets: the clock when it starts, the clock when its wait
    starts, and the turns of the wait. *)
Record CallbackRun := mkCallbackRun { cr_now : Z; cr_start : Z; cr_wait : list WaitTurn }.

Record VerificationRun := mkVerificationRun {
  vr_now : Z;
  vr_start : ClientStart CallbackRun;
  vr_turns : list (list bus_op * ClientTurn UIState CallbackRun);
  vr_provider : ProviderRun;
}.

(** The client's turn with the D-Bus thread as the other thread. *)
Definition with_bus (x : list bus_op * ClientTurn UIState CallbackRun) : ClientTurn UIState CallbackRun :=
  let '(ops, t) := x in
  mkClientTurn (bus_acts ops) (ct_stop t) (ct_cancel t) (ct_now t) (ct_poll t) (ct_callback t)
    (ct_stop_after t) (ct_cancel_after t) (ct_send t).

Definition status_state (kind : VerificationStatusKind) : UserInteractionState :=
  if kind =? status_information then verification_information else verification_error.

(** The lambda [secret_callback]. *)
Definition ask_secret (user : UserContext) (request : UserInteractionRequest) (deadline : Z)
    (e : CallbackRun) (prompt : list Z) : PT UIState (list Z) :=
  if deadline <=? cr_now e then pt_of (st_throw UserActionTimedOut) else
  await prompt_id := pt_of (channel_publish user request secret_required prompt) in
  if prompt_id =? 0 then
    pt_of (let! asked := channel_cancellation_requested user request in
           if (asked : bool) then st_throw UserInteractionCancelled
           else st_throw UserInteractionUnavailable)
  else channel_wait_for_secret user request prompt_id (deadline - cr_now e) (cr_start e) (cr_wait e).

Definition verification_callbacks (user : UserContext) (request : UserInteractionRequest)
    (deadline : Z) : Callbacks UIState CallbackRun := {|
  status_callback := λ _ kind text,
    let! _ := channel_publish user request (status_state kind) text in st_ret ();
  secret_callback := λ e prompt w,
    match ask_secret user request deadline e prompt w with
    | (Some r, w') => Some (r, w')
    | (None, _) => None
    end;
  VerifierClient.cancellation_requested := λ _, channel_cancellation_requested user request;
|}.

(** The client's call, for its result and the service it leaves. *)
Definition authenticate_client (run : VerificationRun) (user : UserContext)
    (request : UserInteractionRequest) (session : UserSessionContext)
    : PT UIState VerificationResult := λ w,
  let '(o, cl) := run_verifier_service
    (verification_callbacks user request (vr_now run + USER_ACTION_TIMEOUT))
    (uc_uid user) (ss_sessionId session) USER_ACTION_TIMEOUT (vr_start run)
    (with_bus <$> vr_turns run) w in
  (o, match o with Some r => logged (Conversed r (cl_socket cl)) (cl_world cl) | None => cl_world cl end).

Definition authenticate_user (run : VerificationRun) (user : UserContext)
    (request : UserInteractionRequest) : PT UIState VerificationResult :=
  match uc_session user with
  | None => pt_of (st_throw UserInteractionUnavailable)
  | Some session => keepalive_guard (authenticate_client run user request session)
  end.

(** The [try] block of [request_verification]. *)
Definition verification_body (run : VerificationRun) (user : UserContext)
    (request : UserInteractionRequest) : PT UIState UserInteractionResult :=
  await verification := authenticate_user run user request in
  if verification =? result_success then
    await current := context_is_still_current (vr_provider run) user in
    if negb (current : bool)
    then pt_of (publish_then user request verification_failed (st_throw VerificationInfrastructureError))
    else pt_of (publish_then user request verification_succeeded (st_ret ui_approved))
  else if verification =? result_denied then
    pt_of (publish_then user request verification_failed (st_ret ui_denied))
  else if verification =? result_error then
    pt_of (publish_then user request verification_failed (st_throw VerificationInfrastructureError))
  else pt_of (st_throw VerificationInfrastructureError).

Definition verification_handlers (user : UserContext) (request : UserInteractionRequest) (e : exn)
    : ST UIState UserInteractionResult :=
  match e with
  | UserInteractionCancelled => publish_then user request cancelled (st_ret ui_cancelled)
  | OperationCancelled => publish_then user request cancelled (st_throw OperationCancelled)
  | UserActionTimedOut => publish_then user request timed_out (st_throw UserActionTimedOut)
  | VerificationInfrastructureError => st_throw VerificationInfrastructureError
  | _ => publish_then user request verification_failed (st_throw VerificationInfrastructureError)
  end.

Definition request_verification (run : VerificationRun) (user : UserContext)
    (request : UserInteractionRequest) : PT UIState UserInteractionResult :=
  interaction_scope user request (λ active,
    await _ := pt_of (channel_publish user active verification_started []) in
    pt_catch (verification_body run user active) (verification_handlers user active)).
