(* ===== verification/UserInteractionProofs.v ===== *)
(** * What the user interaction promises

    The properties of [PamUserInteraction] under every interleaving with the D-Bus thread:
    an approval was given by the agent of the same registration to this very request, every
    way out of a request ends it, and a request comes to an end. *)
From Stdlib Require Import ZArith Lia.
From stdpp Require Import base list strings sets.
From S2P Require Import Prelude EventLoop VerifierProtocol VerifierConversation VerifierSocket.
From S2P Require Import AgentRegistry InteractionRegistry AgentService VerifierClient VerifierService.
From S2P Require Import VerifierServiceProofs AuthHandler Verification UserInteraction.

(** ** Partial correctness of code that may still be running

    [wq m Q s]: if [m] comes to an end when run from [s], its result and state satisfy [Q]. *)

Definition wq {S A} (m : PT S A) (Q : res A → S → Prop) (s : S) : Prop :=
  match m s with (Some r, s') => Q r s' | (None, _) => True end.

(** [m] comes to an end, whatever the state. *)
Definition pt_ends {S A} (m : PT S A) : Prop := ∀ s, is_Some (m s).1.

Section wq_rules.
Context {S : Type}.

Lemma wq_of {A} (m : ST S A) Q s : wp m Q s → wq (pt_of m) Q s.
Proof. unfold wq, wp, pt_of. by destruct (m s). Qed.

Lemma wq_mono {A} (m : PT S A) (Q Q' : res A → S → Prop) s :
  (∀ r s', Q r s' → Q' r s') → wq m Q s → wq m Q' s.
Proof. unfold wq. intros HQ. destruct (m s) as [[r|] s']; [apply HQ|done]. Qed.

Lemma wq_bind {A B} (m : PT S A) (k : A → PT S B) Q s :
  wq m (λ r s', match r with Ret a => wq (k a) Q s' | Throw e => Q (Throw e) s' end) s →
  wq (pt_bind m k) Q s.
Proof. unfold wq, pt_bind. by destruct (m s) as [[[a|e]|] s']. Qed.

Lemma wq_catch {A} (m : PT S A) h Q s :
  wq m (λ r s', match r with Ret a => Q (Ret a) s' | Throw e => wp (h e) Q s' end) s →
  wq (pt_catch m h) Q s.
Proof.
  unfold wq, wp, pt_catch, pt_of. destruct (m s) as [[[a|e]|] s']; [done| |done].
  by destruct (h e s').
Qed.

Lemma wq_finally {A} (m : PT S A) d Q s :
  wq m (λ r s', wp d (λ _ s'', Q r s'') s') s → wq (pt_finally m d) Q s.
Proof. unfold wq, wp, pt_finally. by destruct (m s) as [[r|] s']. Qed.

Lemma wq_run {A} (m : PT S A) Q s r s' : wq m Q s → m s = (Some r, s') → Q r s'.
Proof. unfold wq. intros HQ E. by rewrite E in HQ. Qed.

Lemma of_ends {A} (m : ST S A) : pt_ends (pt_of m).
Proof. intros s. unfold pt_of. destruct (m s). by eexists. Qed.

Lemma bind_ends {A B} (m : PT S A) (k : A → PT S B) :
  pt_ends m → (∀ a, pt_ends (k a)) → pt_ends (pt_bind m k).
Proof.
  intros Hm Hk s. unfold pt_bind. destruct (Hm s) as [r Hr].
  destruct (m s) as [[[a|e]|] s']; [apply Hk|by eexists|done].
Qed.

Lemma catch_ends {A} (m : PT S A) h : pt_ends m → pt_ends (pt_catch m h).
Proof.
  intros Hm s. unfold pt_catch. destruct (Hm s) as [r Hr].
  destruct (m s) as [[[a|e]|] s']; [by eexists|apply of_ends|done].
Qed.

Lemma finally_ends {A} (m : PT S A) d : pt_ends m → pt_ends (pt_finally m d).
Proof.
  intros Hm s. unfold pt_finally. destruct (Hm s) as [r Hr].
  destruct (m s) as [[o|] s']; [by eexists|done].
Qed.
End wq_rules.

#[export] Hint Resolve of_ends bind_ends catch_ends finally_ends : vauth.

(** ** Who answered *)

(** The request [active] of [user] is the pending one. *)
Definition asked_in (s : Service) (user : UserContext) (active : UserInteractionRequest) : Prop :=
  ∃ c, ir_current (sv_interactions s) = Some c ∧ pi_requestId c = uir_requestId active ∧
    pi_user c = binding user ∧ pi_operation c = uir_operation active ∧
    pi_relyingPartyId c = uir_relyingPartyId active.

(** Among the accepted calls, the agent [user] was registered with answered [active]. *)
Definition answered_by (log : list log_entry) (user : UserContext)
    (active : UserInteractionRequest) (approved : bool) : Prop :=
  ∃ login call generation s u,
    Accepted (BusRespond login call generation (uir_requestId active) approved) s ∈ log ∧
    authorised login call generation s u ∧ binding u = binding user ∧ asked_in s user active.

(** The same agent submitted this secret for [active]. *)
Definition submitted_by (log : list log_entry) (user : UserContext)
    (active : UserInteractionRequest) (secret : list Z) : Prop :=
  ∃ login call generation prompt_id pipe s u,
    Accepted (BusSubmit login call generation (uir_requestId active) prompt_id pipe) s ∈ log ∧
    authorised login call generation s u ∧ binding u = binding user ∧ asked_in s user active ∧
    read_secret_pipe pipe = Ret secret.

Section request.
Context (user : UserContext) (active : UserInteractionRequest).

Lemma answered_by_app log log' b :
  answered_by log user active b → answered_by (log ++ log') user active b.
Proof.
  intros (login & call & g & s & u & Hin & H). exists login, call, g, s, u.
  split; [apply elem_of_app; by left|done].
Qed.

Lemma submitted_by_app log log' secret :
  submitted_by log user active secret → submitted_by (log ++ log') user active secret.
Proof.
  intros (login & call & g & p & pipe & s & u & Hin & H). exists login, call, g, p, pipe, s, u.
  split; [apply elem_of_app; by left|done].
Qed.

(** What is pending is this request, and what it has been answered came from the agent. *)
Definition owned_request (log : list log_entry) (secret : option (list Z))
    (c : PendingInteraction) : Prop :=
  pi_requestId c = uir_requestId active ∧ pi_user c = binding user ∧
  pi_operation c = uir_operation active ∧ pi_relyingPartyId c = uir_relyingPartyId active ∧
  (∀ b, pi_presenceResponse c = Some b → answered_by log user active b) ∧
  (∀ s, secret = Some s → submitted_by log user active s).

Definition owned (log : list log_entry) (reg : InteractionRegistry) : Prop :=
  match ir_current reg with
  | None => True
  | Some c => owned_request log (ir_secretResponse reg) c
  end.

Lemma owned_app log log' reg : owned log reg → owned (log ++ log') reg.
Proof.
  unfold owned. destruct (ir_current reg) as [c|]; [|done].
  intros (Hid & Hu & Ho & Hrp & Hp & Hs). split_and!; try done.
  - intros b Hb. by apply answered_by_app, Hp.
  - intros s Hsec. by apply submitted_by_app, Hs.
Qed.

Lemma owned_drop log reg : owned log (drop_current reg).
Proof. done. Qed.

Lemma owned_clear_for log u reg : owned log reg → owned log (clear_for u reg).
Proof. intros Ho. unfold clear_for. case_match; [|done]. by case_match. Qed.

Lemma owned_close log reg c : ir_current reg = Some c → owned log reg → owned log (close_response reg c).
Proof. unfold owned. intros ->. done. Qed.

Lemma owned_transition log u id state message reg :
  owned log reg → owned log (transition u id state message reg).2.
Proof.
  intros Ho. unfold transition. destruct (pending_nonzero reg u id) as [c|] eqn:Ep; [|done].
  apply pending_nonzero_Some in Ep as [_ (Hc & _)%pending_request_Some].
  repeat (case_match; [done|]). destruct (apply_transition c state message reg) as [t reg'] eqn:Ea.
  cbn [snd]. unfold apply_transition in Ea. injection Ea as _ <-.
  destruct (is_terminal state); [done|]. unfold owned in *. rewrite Hc in Ho. simpl.
  destruct Ho as (Hid & Hu & Hop & Hrp & Hp & Hs). split_and!; try done.
  intros s. destruct (bool_decide (state = secret_required)); [done|apply Hs].
Qed.

Lemma owned_poll_presence log u id st ex reg :
  owned log reg → owned log (poll_presence u id st ex reg).2.
Proof.
  intros Ho. unfold poll_presence. destruct (pending_request reg u id) as [c|] eqn:Ep; [|done].
  apply pending_request_Some in Ep as (Hc & _).
  repeat (case_match; try done); by apply owned_close.
Qed.

Lemma owned_poll_secret log u id p st ex reg :
  owned log reg → owned log (poll_secret u id p st ex reg).2.
Proof.
  intros Ho. unfold poll_secret. destruct (pending_request reg u id) as [c|] eqn:Ep; [|done].
  apply pending_request_Some in Ep as (Hc & _).
  repeat (case_match; try done); try by apply owned_close.
  unfold owned in *. rewrite Hc in Ho. simpl. rewrite Hc.
  destruct Ho as (Hid & Hu & Hop & Hrp & Hp & Hs). by split_and!.
Qed.

(** ** What the D-Bus thread leaves alone *)

(** The log before the request, and since. *)
Definition inside (before : list log_entry) (w : UIState) : Prop :=
  ∃ log, ui_log w = before ++ log ∧ owned log (sv_interactions (ui_service w)).

Lemma pending_owned log reg u id c :
  owned log reg → pending_nonzero reg u id = Some c →
  id = uir_requestId active ∧ binding u = binding user ∧
  owned_request log (ir_secretResponse reg) c ∧ ir_current reg = Some c.
Proof.
  intros Ho [_ (Hc & Hid & Hu)%pending_request_Some]%pending_nonzero_Some.
  unfold owned in Ho. rewrite Hc in Ho. pose proof Ho as (Hid' & Hu' & _). split_and!; congruence.
Qed.

Lemma owned_asked s log c :
  ir_current (sv_interactions s) = Some c → owned_request log (ir_secretResponse (sv_interactions s)) c →
  asked_in s user active.
Proof. intros Hc (Hid & Hu & Ho & Hrp & _). by exists c. Qed.

Lemma respond_owned log login call g id b s :
  owned log (sv_interactions s) →
  let '(r, s') := call_respond_to_presence login call g id b s in
  owned (if is_ret r then log ++ [Accepted (BusRespond login call g id b) s] else log) (sv_interactions s').
Proof.
  intros Ho. unfold call_respond_to_presence, st_bind.
  destruct (registered_caller login call g s) as [[u|e] s1] eqn:Er.
  - apply registered_caller_ret in Er as [-> Ha]. unfold on_interactions, respond_to_presence.
    destruct (pending_nonzero (sv_interactions s) u id) as [c|] eqn:Ep; [|done].
    apply (pending_owned log) in Ep as (-> & Hu & Hc & Hcur); [|done].
    destruct (_ || pi_responseClosed c); [done|]. unfold owned. simpl.
    destruct Hc as (Hid & Hus & Hop & Hrp & Hp & Hs). split_and!; try done.
    + intros b' [= <-]. exists login, call, g, s, u. split_and!; [set_solver|done|done|by exists c].
    + intros sec Hsec. by apply submitted_by_app, Hs.
  - unfold registered_caller in Er. repeat case_match; simplify_eq; try done. by apply owned_clear_for.
Qed.

Lemma submit_owned log login call g id p pipe s :
  owned log (sv_interactions s) →
  let '(r, s') := call_submit_secret login call g id p pipe s in
  owned (if is_ret r then log ++ [Accepted (BusSubmit login call g id p pipe) s] else log) (sv_interactions s').
Proof.
  intros Ho. unfold call_submit_secret, st_bind.
  destruct (registered_caller login call g s) as [[u|e] s1] eqn:Er.
  - apply registered_caller_ret in Er as [-> Ha]. unfold st_lift.
    destruct (read_secret_pipe pipe) as [secret|e] eqn:Epipe; [|done].
    unfold on_interactions, submit_secret.
    destruct (pending_nonzero (sv_interactions s) u id) as [c|] eqn:Ep; [|done].
    apply (pending_owned log) in Ep as (-> & Hu & Hc & Hcur); [|done].
    destruct (_ || pi_cancelRequested c); [done|]. unfold owned. simpl.
    destruct Hc as (Hid & Hus & Hop & Hrp & Hp & Hs). split_and!; try done.
    + intros b Hb. by apply answered_by_app, Hp.
    + intros sec [= <-]. exists login, call, g, p, pipe, s, u.
      split_and!; [set_solver|done|done|by exists c|done].
  - unfold registered_caller in Er. repeat case_match; simplify_eq; try done. by apply owned_clear_for.
Qed.

Lemma cancel_owned log login call g id s :
  owned log (sv_interactions s) →
  let '(r, s') := call_cancel_interaction login call g id s in owned log (sv_interactions s').
Proof.
  intros Ho. unfold call_cancel_interaction, st_bind.
  destruct (registered_caller login call g s) as [[u|e] s1] eqn:Er.
  - apply registered_caller_ret in Er as [-> Ha]. unfold on_interactions, request_cancel.
    destruct (pending_nonzero (sv_interactions s) u id) as [c|] eqn:Ep; [|done].
    apply (pending_owned log) in Ep as (-> & Hu & Hc & Hcur); [|done].
    by destruct (_ || pi_responseClosed c).
  - unfold registered_caller in Er. repeat case_match; simplify_eq; try done. by apply owned_clear_for.
Qed.

Lemma owned_if (b : bool) log x reg :
  owned log reg → owned (if b then log ++ [x] else log) reg.
Proof. intros Ho. destruct b; [by apply owned_app|done]. Qed.

Lemma bus_step_owned log o s :
  owned log (sv_interactions s) →
  owned (if (bus_step o s).1 then log ++ [Accepted o s] else log) (sv_interactions (bus_step o s).2).
Proof.
  intros Ho. destruct o as [login accounts call|call|login call g id b|login call g id p pipe
    |login call g id|name| |]; simpl.
  - unfold call_register_agent, st_bind, st_lift, st_modify.
    destruct (resolve_peer login accounts call) as [peer|e]; [|done].
    set (s1 := match ar_current (sv_registry s) with Some _ => _ | None => _ end).
    assert (owned log (sv_interactions s1)) as H1.
    { subst s1. case_match; [|done]. case_match; [by apply owned_clear_for|done]. }
    unfold on_registry. destruct (register_agent peer (sv_registry s1)) as [[c|e] reg]; simpl.
    + by apply owned_app.
    + done.
  - unfold call_unregister_agent. repeat case_match; simplify_eq; simpl; try done;
      try apply owned_app; by apply owned_clear_for.
  - pose proof (respond_owned log login call g id b s Ho). by destruct (call_respond_to_presence _ _ _ _ _ _).
  - pose proof (submit_owned log login call g id p pipe s Ho). by destruct (call_submit_secret _ _ _ _ _ _ _).
  - pose proof (cancel_owned log login call g id s Ho).
    destruct (call_cancel_interaction _ _ _ _ _). by apply owned_if.
  - apply owned_app. unfold unregister_disconnected_agent. simpl.
    case_match; [|done]. case_match; [by apply owned_clear_for|done].
  - apply owned_app. unfold record_failure. simpl. case_match; [by apply owned_clear_for|done].
  - by apply owned_app.
Qed.
End request.

(** ** The run of a request *)

Section run.
Context (user : UserContext) (active : UserInteractionRequest) (before : list log_entry).

(** The request is still its own, the keepalive status is [k], and [low] is on record. *)
Definition holds (k : KeepaliveStatus) (low : list log_entry) (w : UIState) : Prop :=
  inside user active before w ∧ ui_keepalive w = k ∧ low `prefix_of` ui_log w.

Lemma holds_low k low w : holds k low w → holds k (ui_log w) w.
Proof. intros (Hi & Hk & _). by split_and!. Qed.

Lemma holds_weaken k low low' w : low' `prefix_of` low → holds k low w → holds k low' w.
Proof. intros Hp (Hi & Hk & Hl). split_and!; [done..|by etrans]. Qed.

Lemma bus_act_holds k low w o : holds k low w → holds k low (bus_act w o).
Proof.
  intros ((log & Hlog & Ho) & Hk & Hl). unfold bus_act.
  pose proof (bus_step_owned user active log o (ui_service w) Ho) as Hb.
  destruct (bus_step o (ui_service w)) as [acc s]; simpl in Hb. split_and!; [|done|].
  - exists (if acc then log ++ [Accepted o (ui_service w)] else log). split; [|done]. simpl.
    destruct acc; rewrite Hlog; [by rewrite app_assoc|done].
  - simpl. destruct acc; [by apply prefix_app_r|done].
Qed.

Lemma bus_acts_holds k low ops w : holds k low w → holds k low (bus_acts ops w).
Proof.
  unfold bus_acts. revert w. induction ops as [|o ops IH]; intros w Hw; [done|].
  simpl. by apply IH, bus_act_holds.
Qed.

Lemma wp_interfere k low Q w :
  holds k low w → (∀ w', holds k low w' → Q (Ret ()) w') → wp interfere Q w.
Proof.
  intros Hw HQ. unfold wp, interfere. destruct (ui_schedule w) as [|ops rest]; apply HQ; [done|].
  by apply bus_acts_holds.
Qed.

(** An action that keeps the request its own. *)
Definition harmless {A} (m : ST Service A) : Prop :=
  ∀ s log, owned user active log (sv_interactions s) → owned user active log (sv_interactions (m s).2).

Lemma wp_locked {A} (m : ST Service A) k low Q w :
  harmless m → holds k low w → (∀ r w', holds k low w' → Q r w') → wp (locked m) Q w.
Proof.
  intros Hm Hw HQ. apply wp_bind. eapply wp_interfere; [done|].
  intros w' ((log & Hlog & Ho) & Hk & Hl). unfold wp, on_service.
  specialize (Hm (ui_service w') log Ho). destruct (m (ui_service w')) as [r s]. apply HQ.
  split_and!; [by exists log|done..].
Qed.

Lemma harmless_failed : harmless throw_if_failed.
Proof. intros s log Ho. unfold throw_if_failed. by destruct (sv_failed s). Qed.
Lemma harmless_get : harmless st_get.
Proof. by intros s log Ho. Qed.
Lemma harmless_interactions f :
  (∀ log reg, owned user active log reg → owned user active log (f reg)) →
  harmless (st_modify (λ s, set_interactions s (f (sv_interactions s)))).
Proof. intros Hf s log Ho. by apply Hf. Qed.
Lemma harmless_transition u id state message :
  harmless (on_interactions (transition u id state message)).
Proof.
  intros s log Ho. unfold on_interactions.
  pose proof (owned_transition user active log u id state message _ Ho) as H.
  by destruct (transition _ _ _ _ _).
Qed.

Hint Resolve harmless_failed harmless_get harmless_transition : vauth.

Lemma wp_publish u request state message k low (Q : res Z → UIState → Prop) w :
  holds k low w → (∀ r w', holds k low w' → Q r w') →
  wp (channel_publish u request state message) Q w.
Proof.
  intros Hw HQ. unfold channel_publish. apply wp_bind. eapply wp_locked; [auto with vauth|done|].
  intros [[]|e] w1 H1; [|by apply HQ]. apply wp_bind. eapply wp_locked; [auto with vauth|done|].
  intros [s|e] w2 H2; [|by apply HQ]. destruct (_ || _); [by apply wp_ret, HQ|].
  apply wp_bind. eapply wp_locked; [auto with vauth|done|].
  intros [t|e] w3 H3; [|by apply HQ]. destruct (negb _); [by apply wp_ret, HQ|].
  apply wp_bind. eapply wp_locked; [by intros s' log Ho|done|].
  intros [[]|e] w4 H4; by apply HQ.
Qed.

Lemma wp_publish_then {A} u request state (m : ST UIState A) k low Q w :
  holds k low w → (∀ e w', holds k low w' → Q (Throw e) w') →
  (∀ w', holds k low w' → wp m Q w') → wp (publish_then u request state m) Q w.
Proof.
  intros Hw He Hm. apply wp_bind. eapply wp_publish; [done|]. intros [a|e] w' H'; auto.
Qed.

Lemma wp_cancellation u request k low (Q : res bool → UIState → Prop) w :
  holds k low w → (∀ b w', holds k low w' → Q (Ret b) w') →
  wp (channel_cancellation_requested u request) Q w.
Proof.
  intros Hw HQ. unfold channel_cancellation_requested. apply wp_catch, wp_bind.
  eapply wp_locked; [auto with vauth|done|]. intros [[]|e] w1 H1; [|by apply wp_ret, HQ].
  apply wp_bind. eapply wp_locked; [auto with vauth|done|]. intros [s|e] w2 H2; [|by apply wp_ret, HQ].
  destruct (negb _); [by apply wp_ret, HQ|].
  apply wp_bind. eapply wp_locked; [auto with vauth|done|]. intros [s'|e] w3 H3; by apply wp_ret, HQ.
Qed.

(** ** The waits *)

Lemma wq_wait_loop {R} poll deadline env k low (P : list log_entry → R → Prop) Q w :
  holds k low w →
  (∀ st ex log reg, owned user active log reg → owned user active log (poll st ex reg).2 ∧
     ∀ r, (poll st ex reg).1 = Some r → P log r) →
  (∀ r log w', holds k low w' → ui_log w' = before ++ log → P log r → Q (Ret r) w') →
  wq (wait_loop poll deadline env) Q w.
Proof.
  intros Hw Hpoll HQ. unfold wq. revert w Hw. induction env as [|t env IH]; intros w Hw; [done|].
  cbn [wait_loop]. unfold poll_turn.
  pose proof (bus_acts_holds k low (wt_others t) w Hw) as ((log & Hlog & Ho) & Hk & Hl).
  destruct (Hpoll (wt_stop t) (deadline <=? wt_now t) log _ Ho) as [Ho' HP].
  destruct (poll _ _ _) as [r reg]. cbn [fst snd] in Ho', HP.
  set (w1 := mkUIState _ _ _ _). assert (holds k low w1) as H1.
  { split_and!; [|done|done]. exists log. by split. }
  destruct r as [r|]; [|by apply IH]. eapply HQ; [done|done|by apply HP].
Qed.

Lemma wq_wait_for_presence request timeout start env k low Q w :
  holds k low w →
  (∀ r w', holds k low w' →
     (r = Ret ui_approved → ∃ log, ui_log w' = before ++ log ∧ answered_by log user active true) →
     Q r w') →
  wq (channel_wait_for_presence user request timeout start env) Q w.
Proof.
  intros Hw HQ. apply wq_bind, wq_of. eapply wp_locked; [auto with vauth|done|].
  intros [[]|e] w1 H1; [|by apply HQ]. destruct (timeout <=? 0); [by apply wq_of, wp_throw, HQ|].
  apply wq_bind. eapply (wq_wait_loop _ _ _ _ _
    (λ log r, r = pw_approved → answered_by log user active true)); [done|..].
  - intros st ex log reg Ho. split; [by apply owned_poll_presence|]. intros r Hr ->.
    unfold poll_presence in Hr. destruct (pending_request reg user _) as [c|] eqn:Ep; [|done].
    apply pending_request_Some in Ep as (Hc & _). unfold owned in Ho. rewrite Hc in Ho.
    destruct Ho as (_ & _ & _ & _ & Hp & _). apply Hp.
    destruct st; [done|]. destruct (pi_cancelRequested c); [done|].
    destruct (pi_presenceResponse c) as [[]|]; [done|done|]. by destruct ex.
  - intros r log w2 H2 Hlog HP. apply wq_of, wp_lift, HQ; [done|].
    intros Hr. exists log. split; [done|]. apply HP. by destruct r.
Qed.

Lemma wq_wait_for_secret request prompt_id timeout start env k low Q w :
  holds k low w →
  (∀ r w', holds k low w' →
     (∀ secret, r = Ret secret → ∃ log, ui_log w' = before ++ log ∧ submitted_by log user active secret) →
     Q r w') →
  wq (channel_wait_for_secret user request prompt_id timeout start env) Q w.
Proof.
  intros Hw HQ. apply wq_bind, wq_of. eapply wp_locked; [auto with vauth|done|].
  intros [[]|e] w1 H1; [|by apply HQ]. destruct (timeout <=? 0); [by apply wq_of, wp_throw, HQ|].
  apply wq_bind. eapply (wq_wait_loop _ _ _ _ _
    (λ log r, sw_status r = sw_provided → submitted_by log user active (sw_secret r))); [done|..].
  - intros st ex log reg Ho. split; [by apply owned_poll_secret|]. intros r Hr Hst.
    unfold poll_secret in Hr. destruct (pending_request reg user _) as [c|] eqn:Ep; [|by simplify_eq/=].
    apply pending_request_Some in Ep as (Hc & _). unfold owned in Ho. rewrite Hc in Ho.
    destruct Ho as (_ & _ & _ & _ & _ & Hs).
    destruct (_ || _); [by simplify_eq/=|]. destruct st; [by simplify_eq/=|].
    destruct (pi_cancelRequested c); [by simplify_eq/=|].
    destruct (ir_secretResponse reg) as [secret|] eqn:Es; [simplify_eq/=; by apply Hs|].
    destruct ex; by simplify_eq/=.
  - intros r log w2 H2 Hlog HP. apply wq_of, wp_lift, HQ; [done|].
    intros secret Hr. exists log. split; [done|]. destruct r as [[] sec]; try done. injection Hr as <-. by apply HP.
Qed.

(** ** The context provider *)

(** The record says that [c] was registered, and logind that its session is active and local. *)
Definition confirmed (login : Login) (log : list log_entry) : Prop :=
  ∃ c s, Found c s ∈ log ∧ ar_current (sv_registry s) = Some c ∧ binding c = binding user ∧
    session_is_still_active login c = true.

Lemma wait_current_holds k low deadline wakeups w :
  holds k low w →
  match wait_for_current (λ w, sv_registry (ui_service w)) w deadline (woken w wakeups) with
  | Some (o, w') => holds k low w' ∧ o = ar_current (sv_registry (ui_service w'))
  | None => True
  end.
Proof.
  revert w. induction wakeups as [|[now ops] wakeups IH]; intros w Hw; simpl;
    destruct (ar_current (sv_registry (ui_service w))) eqn:Hc; [done|done|done|].
  pose proof (bus_acts_holds k low ops w Hw) as H1. destruct (deadline <=? now); [done|].
  by apply IH.
Qed.

Lemma holds_logged k low w x : holds k low w → holds k (ui_log w ++ [x]) (logged x w).
Proof.
  intros ((log & Hlog & Ho) & Hk & Hl). split_and!; [|done|done].
  exists (log ++ [x]). split; [simpl; by rewrite Hlog, app_assoc|by apply owned_app].
Qed.

Lemma wq_wait_for_current p k low Q w :
  holds k low w →
  (∀ w', holds k low w' → Q (Ret None) w') →
  (∀ c s l w', holds k (low ++ l) w' → Found c s ∈ l → ar_current (sv_registry s) = Some c →
     Q (Ret (Some c)) w') →
  wq (channel_wait_for_current p) Q w.
Proof.
  intros Hw Hnone Hsome. unfold wq, channel_wait_for_current.
  pose proof (wait_current_holds k low (pv_start p + AGENT_STARTUP_GRACE) (pv_wakeups p) w Hw) as Hc.
  destruct (wait_for_current _ _ _ _) as [[[c|] w']|]; [|by apply Hnone, Hc|done].
  destruct Hc as [H' Hc]. pose proof H' as (_ & _ & [l Hl]).
  apply (Hsome c (ui_service w') (l ++ [Found c (ui_service w')])); [|set_solver|done].
  rewrite app_assoc, <- Hl. by eapply holds_logged.
Qed.

Lemma wq_still_current p k low Q w :
  holds k low w →
  (∀ r w', holds k low w' → r ≠ Ret true → Q r w') →
  (∀ l w', holds k (low ++ l) w' → confirmed (pv_login p) l → Q (Ret true) w') →
  wq (context_is_still_current p user) Q w.
Proof.
  intros Hw Hno Hyes. unfold context_is_still_current, provider_current_context.
  do 2 apply wq_bind. apply wq_of. eapply wp_locked; [auto with vauth|done|].
  intros [[]|e] w1 H1; [|by apply Hno]. apply wq_bind. eapply wq_wait_for_current; [done|..].
  - intros w2 H2. apply wq_bind, wq_of. eapply wp_locked; [auto with vauth|done|].
    intros [[]|e] w3 H3; [|by apply Hno]. by apply wq_of, wp_ret, wq_of, wp_ret, Hno.
  - intros c s l w2 H2 Hin Hc. assert (low `prefix_of` low ++ l) as Hp by (by apply prefix_app_r).
    apply wq_bind, wq_of. eapply wp_locked; [auto with vauth|done|].
    intros [[]|e] w3 H3; [|by apply Hno; [eapply holds_weaken|]].
    destruct (session_is_still_active (pv_login p) c) eqn:Ea.
    + apply wq_of, wp_ret, wq_of, wp_ret. case_bool_decide as Hb.
      * apply (Hyes l); [done|]. by exists c, s.
      * apply Hno; [by eapply holds_weaken|done].
    + apply wq_of, wp_bind. eapply wp_locked; [apply harmless_interactions; intros; by apply owned_clear_for|done|].
      intros [[]|e] w4 H4; [|by apply Hno; [eapply holds_weaken|]].
      apply wp_bind. eapply wp_locked; [by intros s' log Ho|done|].
      intros [[]|e] w5 H5; [|by apply Hno; [eapply holds_weaken|]].
      apply wp_ret, wq_of, wp_ret, Hno; [by eapply holds_weaken|done].
Qed.

Lemma wq_guard {A} (m : PT UIState A) k low Q w :
  holds k low w →
  (∀ w1, holds ka_up_needed low w1 →
     wq m (λ r w', Q r (mkUIState (ui_service w') ka_processing (ui_log w') (ui_schedule w'))) w1) →
  wq (keepalive_guard m) Q w.
Proof.
  intros (Hi & Hk & Hl) Hm. apply wq_bind, wq_of, wp_modify, wq_finally.
  eapply wq_mono; [|by apply Hm; split_and!]. intros r w' HQ. by apply wp_modify.
Qed.

Lemma holds_guard low w :
  holds ka_up_needed low w →
  holds ka_processing low (mkUIState (ui_service w) ka_processing (ui_log w) (ui_schedule w)).
Proof. intros (Hi & _ & Hl). by split_and!. Qed.
End run.

(** ** Presence *)

(** What is on record after [before] when presence was approved: the agent's approval of
    [active], and later the check that the user is still the registered one. *)
Definition presence_earned (login : Login) (user : UserContext) (active : UserInteractionRequest)
    (log : list log_entry) : Prop :=
  ∃ l1 l2, log = l1 ++ l2 ∧ answered_by l1 user active true ∧ confirmed user login l2.

Definition earned_since (P : list log_entry → Prop) (before : list log_entry) (w : UIState) : Prop :=
  ∃ log, ui_log w = before ++ log ∧ P log.

Section presence.
Context (user : UserContext) (active : UserInteractionRequest) (before : list log_entry)
  (run : PresenceRun).

(** How the body of [request_presence] ends. *)
Definition presence_post (r : res UserInteractionResult) (w : UIState) : Prop :=
  holds user active before ka_processing before w ∧
  (r = Ret ui_approved →
   earned_since (presence_earned (pv_login (pr_provider run)) user active) before w).

Lemma post_not_approved r w :
  holds user active before ka_processing before w → r ≠ Ret ui_approved → presence_post r w.
Proof. by split. Qed.

Lemma presence_body_post w :
  holds user active before ka_processing before w →
  wq (presence_body run user active) presence_post w.
Proof.
  intros Hw. eapply wq_guard; [done|]. intros w1 H1. apply wq_bind.
  eapply wq_wait_for_presence; [done|]. intros r w2 H2 Hans.
  assert (∀ state (k : res UserInteractionResult) w', k ≠ Ret ui_approved →
    holds user active before ka_up_needed before w' →
    wq (pt_of (publish_then user active state (st_lift k)))
      (λ r w', presence_post r (mkUIState (ui_service w') ka_processing (ui_log w') (ui_schedule w'))) w')
    as Hpub.
  { intros state k w' Hk H'. apply wq_of. eapply wp_publish_then; [done|..].
    - intros e w3 H3. by apply post_not_approved; [apply holds_guard|].
    - intros w3 H3. apply wp_lift, post_not_approved; [by apply holds_guard|done]. }
  destruct r as [[]|e].
  - destruct (Hans eq_refl) as (l1 & Hl1 & Ha). apply wq_bind.
    eapply (wq_still_current user active before); [by eapply holds_low|..].
    + intros r w3 H3 Hr. assert (holds user active before ka_up_needed before w3) as H3'.
      { eapply holds_weaken; [|done]. rewrite Hl1. by apply prefix_app_r. }
      destruct r as [[]|e]; [done| |by apply post_not_approved; [apply holds_guard|]].
      by apply (Hpub presence_denied (Ret ui_denied)).
    + intros l2 w3 H3 Hc. apply wq_of.
      assert (∀ w', holds user active before ka_up_needed (ui_log w2 ++ l2) w' →
        holds user active before ka_processing before
          (mkUIState (ui_service w') ka_processing (ui_log w') (ui_schedule w'))) as Hk.
      { intros w' H'. apply holds_guard. eapply holds_weaken; [|done].
        rewrite Hl1, <- app_assoc. by apply prefix_app_r. }
      eapply wp_publish_then; [done|..].
      * intros e w4 H4. by apply post_not_approved; [apply Hk|].
      * intros w4 H4. apply wp_ret. split; [by apply Hk|]. intros _.
        destruct H4 as (_ & _ & [l3 Hl3]). exists (l1 ++ l2 ++ l3). simpl.
        split; [by rewrite Hl3, Hl1, <- !app_assoc|]. exists l1, (l2 ++ l3). split_and!; [done..|].
        destruct Hc as (c & s & Hin & Hrest). exists c, s. split; [set_solver|done].
  - apply wq_bind, wq_of, wp_ret. by apply (Hpub presence_denied (Ret ui_denied)).
  - by apply (Hpub cancelled (Ret ui_cancelled)).
  - by apply post_not_approved; [apply holds_guard|].
Qed.

Lemma presence_handlers_post e w :
  holds user active before ka_processing before w →
  wp (presence_handlers user active e) presence_post w.
Proof.
  intros Hw. destruct e; try (by apply wp_throw, post_not_approved);
    (eapply wp_publish_then; [done|intros e w' H'; by apply post_not_approved|
      intros w' H'; first [apply wp_ret|apply wp_throw]; by apply post_not_approved]).
Qed.

Lemma presence_scope_post w :
  holds user active before ka_processing before w →
  wq (await _ := pt_of (channel_publish user active presence_required []) in
      pt_catch (presence_body run user active) (presence_handlers user active)) presence_post w.
Proof.
  intros Hw. apply wq_bind, wq_of. eapply wp_publish; [done|].
  intros [id|e] w1 H1; [|by apply post_not_approved]. apply wq_catch.
  eapply wq_mono; [|by apply presence_body_post]. intros [a|e] w2 H2; [done|].
  apply presence_handlers_post, H2.
Qed.
End presence.

(** ** The scope of a request *)

(** No interaction is pending. *)
Definition idle (w : UIState) : Prop := ir_current (sv_interactions (ui_service w)) = None.

Lemma idle_holds user active k w :
  idle w → ui_keepalive w = k → holds user active (ui_log w) k (ui_log w) w.
Proof.
  intros Hi Hk. split_and!; [|done|done]. exists []. split; [by rewrite app_nil_r|].
  unfold owned. by rewrite Hi.
Qed.

Lemma holds_idle user before k low w :
  (∀ active, holds user active before k low w) → idle w.
Proof.
  intros Hall. unfold idle. destruct (ir_current _) as [c|] eqn:Hc; [|done].
  assert (∀ id, pi_requestId c = id) as Hid.
  { intros id. destruct (Hall (mkUIRequest make_credential [] id)) as ((log & _ & Ho) & _).
    unfold owned in Ho. rewrite Hc in Ho. apply Ho. }
  pose proof (Hid 0). pose proof (Hid 1). lia.
Qed.

Lemma wp_forall {S A X} (m : ST S A) (Q : X → res A → S → Prop) s :
  (∀ x, wp m (Q x) s) → wp m (λ r s', ∀ x, Q x r s') s.
Proof. intros H x. apply H. Qed.

(** The same for a request that has not begun: nothing is pending, whatever is locked. *)
Lemma wp_locked_idle {A} (m : ST Service A) user before k Q w :
  (∀ active, harmless user active m) → (∀ active, holds user active before k before w) →
  (∀ r w', (∀ active, holds user active before k before w') → Q r w') → wp (locked m) Q w.
Proof.
  intros Hm Hw HQ. eapply wp_mono; [exact HQ|]. apply wp_forall. intros active.
  by eapply wp_locked.
Qed.

Lemma wp_interfere_idle user before k Q w :
  (∀ active, holds user active before k before w) →
  (∀ w', (∀ active, holds user active before k before w') → Q (Ret ()) w') → wp interfere Q w.
Proof.
  intros Hw HQ. unfold wp, interfere. destruct (ui_schedule w) as [|ops rest]; apply HQ; [done|].
  intros active. apply bus_acts_holds, Hw.
Qed.

Lemma wp_begin user request before k (Q : res Z → UIState → Prop) w :
  (∀ active, holds user active before k before w) →
  (∀ r w', (∀ active, holds user active before k before w') → r = Ret 0 ∨ is_ret r = false → Q r w') →
  (∀ id w', id ≠ 0 → holds user (mkUIRequest (uir_operation request) (uir_relyingPartyId request) id)
     before k before w' → Q (Ret id) w') →
  wp (channel_begin user request) Q w.
Proof.
  intros Hw Hno Hyes. unfold channel_begin. apply wp_bind.
  eapply wp_locked_idle; [intros; apply harmless_failed|done|].
  intros [[]|e] w1 H1; [|by apply Hno; [|right]].
  destruct (negb _); [by apply wp_throw, Hno; [|right]|].
  apply wp_bind. eapply wp_locked_idle; [intros; apply harmless_get|done|].
  intros [s|e] w2 H2; [|by apply Hno; [|right]].
  destruct (_ || _); [by apply wp_ret, Hno; [|left]|].
  apply wp_bind. eapply wp_interfere_idle; [done|]. intros w3 H3'.
  pose proof (holds_idle _ _ _ _ _ H3') as Hidle. unfold wp, on_service, on_interactions, begin.
  rewrite Hidle. destruct (_ || _) eqn:Eo; simpl.
  - apply Hno; [|by right]. replace (mkUIState _ _ _ _) with w3; [done|]. by destruct w3 as [[]].
  - reflect_bools. apply Hyes; [done|]. destruct (H3' (mkUIRequest make_credential [] 0)) as ((log & Hlog & _) & Hk & Hl).
    split_and!; [|done|done]. exists log. split; [done|]. unfold owned. simpl. by split_and!.
Qed.

Lemma wp_end user active before k low Q w :
  uir_requestId active ≠ 0 → holds user active before k low w →
  (∀ w', idle w' → ui_keepalive w' = k → low `prefix_of` ui_log w' → Q (Ret ()) w') →
  wp (channel_end user active) Q w.
Proof.
  intros Hid Hw HQ. unfold channel_end, locked. apply wp_bind. eapply wp_interfere; [done|].
  intros w1 ((log & Hlog & Ho) & Hk & Hl). unfold wp. simpl. apply HQ; [|done|done].
  unfold idle, end_interaction, end_request, pending_nonzero. simpl.
  rewrite (proj2 (Z.eqb_neq _ _) Hid). unfold owned in Ho.
  destruct (pending_request _ _ _) as [c|] eqn:Ep; [done|]. simpl.
  destruct (ir_current (sv_interactions (ui_service w1))) as [c|] eqn:Hc; [|done].
  destruct Ho as (Hid' & Hu & _). exfalso.
  assert (pending_request (sv_interactions (ui_service w1)) user (uir_requestId active) = Some c) as Hp
    by (by apply pending_request_Some). congruence.
Qed.

(** How a request ends: nothing pending, nothing asked for any more, and an approval is
    earned. *)
Definition request_ended (P : UserInteractionRequest → list log_entry → Prop)
    (request : UserInteractionRequest) (w : UIState) (r : res UserInteractionResult) (w' : UIState) : Prop :=
  idle w' ∧ ui_keepalive w' = ka_processing ∧
  (r = Ret ui_approved → ∃ id, id ≠ 0 ∧
     earned_since (P (mkUIRequest (uir_operation request) (uir_relyingPartyId request) id)) (ui_log w) w').

Lemma scope_ended user request body P w :
  idle w → ui_keepalive w = ka_processing →
  (∀ active log log', P active log → P active (log ++ log')) →
  (∀ active w1, uir_requestId active ≠ 0 → holds user active (ui_log w) ka_processing (ui_log w) w1 →
     wq (body active) (λ r w', holds user active (ui_log w) ka_processing (ui_log w) w' ∧
       (r = Ret ui_approved → earned_since (P active) (ui_log w) w')) w1) →
  wq (interaction_scope user request body) (request_ended P request w) w.
Proof.
  intros Hi Hk Hmono Hbody. apply wq_bind, wq_of.
  apply (wp_begin user request (ui_log w) ka_processing); [intros; by apply idle_holds|..].
  - intros r w1 H1 Hr. pose proof (holds_idle _ _ _ _ _ H1) as Hid.
    destruct (H1 request) as (_ & Hk1 & _).
    destruct Hr as [->|Hr]; [by apply wq_of, wp_throw|]. by destruct r.
  - intros id w1 Hid H1. rewrite (proj2 (Z.eqb_neq _ _) Hid). apply wq_finally.
    eapply wq_mono; [|by apply Hbody]. intros r w2 [H2 He].
    eapply (wp_end _ _ _ _ (ui_log w2)); [done|by eapply holds_low|].
    intros w3 Hi3 Hk3 [l3 Hl3]. split_and!; [done..|]. intros Hr. exists id. split; [done|].
    destruct (He Hr) as (log & Hlog & HP). exists (log ++ l3).
    split; [by rewrite Hl3, Hlog, app_assoc|by apply Hmono].
Qed.

Lemma presence_earned_app login user active log log' :
  presence_earned login user active log → presence_earned login user active (log ++ log').
Proof.
  intros (l1 & l2 & -> & Ha & (c & s & Hin & Hc)). exists l1, (l2 ++ log').
  split_and!; [by rewrite app_assoc|done|]. exists c, s. split; [set_solver|done].
Qed.

Lemma request_presence_ended run user request w :
  idle w → ui_keepalive w = ka_processing →
  wq (request_presence run user request)
    (request_ended (presence_earned (pv_login (pr_provider run)) user) request w) w.
Proof.
  intros Hi Hk. apply scope_ended; [done..|apply presence_earned_app|].
  intros active w1 _ H1. by apply presence_scope_post.
Qed.

(** ** Verification *)

(** A verifier service at the other end of the socket [e], with the PAM handler as its child,
    has authenticated the account of the user in an active local session. *)
Definition backed_by_pam (uid : Z) (session : list Z) (e : Endpoint) : Prop :=
  ∀ expected timeout c r st pam ev,
    run_pam_verifier_connection expected timeout c = (Some r, st) →
    connected e (vs_daemon st) →
    (∀ p, vs_program st = Some p → child_is_handler pam ev p) →
    ∃ username props d0, cn_username c uid = Ret username ∧
      cn_query_again c session = Ret props ∧ active_local props uid ∧
      authenticated (pam username (cn_pam_service c) (cn_configuration c)) d0.

(** The record of a successful client call for [user]: a conversation that completed with
    success, and every secret in it was submitted by the agent. *)
Definition conversed (user : UserContext) (active : UserInteractionRequest)
    (log : list log_entry) (e : Endpoint) : Prop :=
  ∃ l1 session, log = l1 ++ [Conversed (Ret result_success) e] ∧ uc_session user = Some session ∧
    follows e ∧ ep_state e = VerifierCompleted result_success ∧
    (∀ secret, (daemon, SecretResponse secret) ∈ ep_trace e → submitted_by l1 user active secret) ∧
    backed_by_pam (uc_uid user) (ss_sessionId session) e.

(** What is on record when a verification was approved: that conversation, and later the
    check that the user is still the registered one. *)
Definition verification_earned (run : VerificationRun) (user : UserContext)
    (active : UserInteractionRequest) (log : list log_entry) : Prop :=
  ∃ l1 l2 e, log = l1 ++ l2 ∧ conversed user active l1 e ∧ confirmed user (pv_login (vr_provider run)) l2.

Section verification.
Context (user : UserContext) (active : UserInteractionRequest) (before : list log_entry)
  (run : VerificationRun).

(** The callbacks keep the request its own. *)
Definition log_le (w w' : UIState) : Prop := ui_log w `prefix_of` ui_log w'.

#[local] Instance log_le_preorder : PreOrder log_le.
Proof. unfold log_le. split; [intros w; reflexivity|intros w1 w2 w3; apply transitivity]. Qed.

Definition secret_ok (secret : list Z) (w : UIState) : Prop :=
  ∃ log, ui_log w = before ++ log ∧ submitted_by log user active secret.

Lemma ask_secret_keeps deadline e prompt k low w :
  holds user active before k low w →
  wq (ask_secret user active deadline e prompt)
    (λ r w', holds user active before k low w' ∧ ∀ secret, r = Ret secret → secret_ok secret w') w.
Proof.
  intros Hw. unfold ask_secret. destruct (deadline <=? cr_now e); [by apply wq_of, wp_throw|].
  apply wq_bind, wq_of. eapply wp_publish; [done|]. intros [id|ex] w1 H1; [|done].
  destruct (id =? 0).
  - apply wq_of, wp_bind. eapply wp_cancellation; [done|]. intros [] w2 H2; by apply wp_throw.
  - eapply wq_wait_for_secret; [done|]. intros r w2 H2 Hr. by split.
Qed.

Lemma callbacks_keep_request deadline :
  callbacks_keep (verification_callbacks user active deadline)
    (λ w, holds user active before ka_up_needed before w) log_le secret_ok (with_bus <$> vr_turns run).
Proof.
  split.
  - intros secret w w' [l Hl] (log & Hlog & Hs). exists (log ++ l).
    split; [by rewrite Hl, Hlog, app_assoc|by apply submitted_by_app].
  - apply Forall_forall. intros t (x & -> & _)%list_elem_of_fmap w Hw. destruct x as [ops t'].
    simpl. split; [by apply bus_acts_holds|].
    apply holds_low in Hw. by apply (bus_acts_holds _ _ _ _ _ ops) in Hw as (_ & _ & ?).
  - intros e w Hw. eapply wp_cancellation; [by eapply holds_low|]. intros b w' H'.
    split_and!; [eapply holds_weaken; [|done]; apply Hw|apply H'|done].
  - intros e kind text w Hw. apply wp_bind. eapply wp_publish; [by eapply holds_low|].
    assert (∀ w', holds user active before ka_up_needed (ui_log w) w' →
      holds user active before ka_up_needed before w' ∧ log_le w w' ∧ True) as Hfin.
    { intros w' H'. split_and!; [eapply holds_weaken; [|done]; apply Hw|apply H'|done]. }
    intros [id|ex] w' H'; [by apply wp_ret, Hfin|by apply Hfin].
  - intros e prompt w r w' Hw Hr. simpl in Hr.
    destruct (ask_secret user active deadline e prompt w) as [[r1|] w1] eqn:Ea; [|done].
    injection Hr as -> ->.
    destruct (wq_run _ _ _ _ _ (ask_secret_keeps deadline e prompt _ _ w (holds_low _ _ _ _ _ _ Hw)) Ea)
      as [H1 Hs].
    split_and!; [eapply holds_weaken; [|done]; apply Hw|apply H1|done].
Qed.

Lemma authenticate_user_keeps w :
  holds user active before ka_processing before w →
  wq (authenticate_user run user active)
    (λ r w', holds user active before ka_processing before w' ∧
      (r = Ret result_success → earned_since (λ log, ∃ e, conversed user active log e) before w')) w.
Proof.
  intros Hw. unfold authenticate_user.
  destruct (uc_session user) as [session|] eqn:Hses; [|by apply wq_of, wp_throw].
  eapply wq_guard; [done|]. intros w1 H1. unfold wq, authenticate_client.
  set (cb := verification_callbacks _ _ _).
  pose proof (run_verifier_service_keeps cb _ log_le secret_ok _
    (callbacks_keep_request (vr_now run + USER_ACTION_TIMEOUT)) w1 (uc_uid user)
    (ss_sessionId session) USER_ACTION_TIMEOUT (vr_start run) H1) as (Hh & _ & Hsec).
  pose proof (run_verifier_service_outcome cb (uc_uid user) (ss_sessionId session)
    USER_ACTION_TIMEOUT (vr_start run) (with_bus <$> vr_turns run) w1) as Hout.
  destruct (run_verifier_service cb _ _ _ _ _ w1) as [[r|] cl] eqn:Er; [|done]. cbn [fst snd] in *.
  split.
  { apply holds_guard. eapply holds_weaken, holds_logged, Hh. by apply prefix_app_r, Hh. }
  intros ->. destruct Hout as (Hf & Hst & _). pose proof Hh as ((log & Hlog & _) & _).
  exists (log ++ [Conversed (Ret result_success) (cl_socket cl)]).
  split; [simpl; by rewrite Hlog, app_assoc|]. exists (cl_socket cl), log, session.
  split_and!; [done..| |].
  - intros secret Hin. destruct (Hsec secret Hin) as (log' & Hlog' & Hs). simpl in *.
    rewrite Hlog in Hlog'. by apply app_inv_head in Hlog' as ->.
  - intros expected timeout c r st pam ev Hsv Hcon Hchild. by eapply client_success_authenticated.
Qed.

Definition verification_post (r : res UserInteractionResult) (w : UIState) : Prop :=
  holds user active before ka_processing before w ∧
  (r = Ret ui_approved → earned_since (verification_earned run user active) before w).

Lemma verification_not_approved r w :
  holds user active before ka_processing before w → r ≠ Ret ui_approved → verification_post r w.
Proof. by split. Qed.

Lemma publish_not_approved state k w :
  k ≠ Ret ui_approved → holds user active before ka_processing before w →
  wp (publish_then user active state (st_lift k)) verification_post w.
Proof.
  intros Hk Hw. eapply wp_publish_then; [done|..].
  - intros e w' H'. by apply verification_not_approved.
  - intros w' H'. apply wp_lift. by apply verification_not_approved.
Qed.

Lemma verification_body_post w :
  holds user active before ka_processing before w →
  wq (verification_body run user active) verification_post w.
Proof.
  intros Hw. apply wq_bind. eapply wq_mono; [|by apply authenticate_user_keeps].
  intros [v|e] w1 [H1 Hs]; [|by apply verification_not_approved].
  destruct (v =? result_success) eqn:Ev.
  { apply Z.eqb_eq in Ev as ->. destruct (Hs eq_refl) as (l1 & Hl1 & e & Hconv).
    apply wq_bind. eapply (wq_still_current user active before); [by eapply holds_low|..].
    - intros r w2 H2 Hr. assert (holds user active before ka_processing before w2) as H2'.
      { eapply holds_weaken; [|done]. apply H1. }
      destruct r as [[]|ex]; [done| |by apply verification_not_approved].
      by apply wq_of, (publish_not_approved verification_failed (Throw VerificationInfrastructureError)).
    - intros l2 w2 H2 Hc. apply wq_of.
      assert (∀ w', holds user active before ka_processing (ui_log w1 ++ l2) w' →
        holds user active before ka_processing before w') as Hk.
      { intros w' H'. eapply holds_weaken; [|done]. rewrite Hl1, <- app_assoc. by apply prefix_app_r. }
      eapply wp_publish_then; [done|intros ex w3 H3; by apply verification_not_approved; [apply Hk|]|].
      intros w3 H3. apply wp_ret. split; [by apply Hk|]. intros _.
      destruct H3 as (_ & _ & [l3 Hl3]). exists (l1 ++ l2 ++ l3).
      split; [by rewrite Hl3, Hl1, <- !app_assoc|]. exists l1, (l2 ++ l3), e.
      split_and!; [done..|]. destruct Hc as (c & s & Hin & Hrest). exists c, s. split; [set_solver|done]. }
  destruct (v =? result_denied);
    [by apply wq_of, (publish_not_approved verification_failed (Ret ui_denied))|].
  destruct (v =? result_error);
    [by apply wq_of, (publish_not_approved verification_failed (Throw VerificationInfrastructureError))|].
  by apply wq_of, wp_throw, verification_not_approved.
Qed.

Lemma verification_handlers_post e w :
  holds user active before ka_processing before w →
  wp (verification_handlers user active e) verification_post w.
Proof.
  intros Hw. destruct e; first
    [by apply (publish_not_approved cancelled (Ret ui_cancelled))
    |by apply (publish_not_approved cancelled (Throw OperationCancelled))
    |by apply (publish_not_approved timed_out (Throw UserActionTimedOut))
    |by apply (publish_not_approved verification_failed (Throw VerificationInfrastructureError))
    |by apply wp_throw, verification_not_approved].
Qed.

Lemma verification_scope_post w :
  holds user active before ka_processing before w →
  wq (await _ := pt_of (channel_publish user active verification_started []) in
      pt_catch (verification_body run user active) (verification_handlers user active))
    verification_post w.
Proof.
  intros Hw. apply wq_bind, wq_of. eapply wp_publish; [done|].
  intros [id|e] w1 H1; [|by apply verification_not_approved]. apply wq_catch.
  eapply wq_mono; [|by apply verification_body_post]. intros [a|e] w2 H2; [done|].
  apply verification_handlers_post, H2.
Qed.
End verification.

Lemma verification_earned_app run user active log log' :
  verification_earned run user active log → verification_earned run user active (log ++ log').
Proof.
  intros (l1 & l2 & e & -> & Hconv & (c & s & Hin & Hc)).
  exists l1, (l2 ++ log'), e. split_and!; [by rewrite <- !app_assoc|done..|].
  exists c, s. split; [set_solver|done].
Qed.

Lemma request_verification_ended run user request w :
  idle w → ui_keepalive w = ka_processing →
  wq (request_verification run user request)
    (request_ended (verification_earned run user) request w) w.
Proof.
  intros Hi Hk. apply scope_ended; [done..|apply verification_earned_app|].
  intros active w1 _ H1. by apply verification_scope_post.
Qed.

(** ** Requests come to an end *)

Lemma wait_loop_ends {R} (poll : bool → bool → InteractionRegistry → option R * InteractionRegistry)
    deadline env :
  (∀ st reg, (poll st true reg).1 ≠ None) →
  Exists (λ t, deadline ≤ wt_now t) env → pt_ends (wait_loop poll deadline env).
Proof.
  intros Hpoll He. induction He as [t env Ht|t env _ IH]; intros w; simpl; unfold poll_turn.
  - rewrite (proj2 (Z.leb_le _ _) Ht). pose proof (Hpoll (wt_stop t) (sv_interactions (ui_service (bus_acts (wt_others t) w)))).
    destruct (poll _ _ _) as [[r|] reg]; [by eexists|done].
  - destruct (poll _ _ _) as [[r|] reg]; [by eexists|apply IH].
Qed.

Lemma wait_for_current_ends p :
  Exists (λ x, pv_start p + AGENT_STARTUP_GRACE ≤ x.1) (pv_wakeups p) →
  pt_ends (channel_wait_for_current p).
Proof.
  intros He w. unfold channel_wait_for_current.
  assert (is_Some (wait_for_current (λ w, sv_registry (ui_service w)) w
    (pv_start p + AGENT_STARTUP_GRACE) (woken w (pv_wakeups p)))) as [[o w'] ->]; [|by eexists].
  revert w. induction He as [[now ops] l Ht|[now ops] l _ IH]; intros w; simpl;
    destruct (ar_current _); [by eexists| |by eexists|].
  - simpl in Ht. rewrite (proj2 (Z.leb_le _ _) Ht). by eexists.
  - destruct (_ <=? now); [by eexists|apply IH].
Qed.

Lemma still_current_ends p user :
  Exists (λ x, pv_start p + AGENT_STARTUP_GRACE ≤ x.1) (pv_wakeups p) →
  pt_ends (context_is_still_current p user).
Proof.
  intros He. unfold context_is_still_current, provider_current_context.
  repeat (apply bind_ends; [|intros ?]); try apply of_ends; [by apply wait_for_current_ends|].
  case_match; [case_match|]; apply of_ends.
Qed.

(** The inputs reach past the deadlines: the wait for a context gets a turn after its grace
    period, a wait for the agent after its timeout. *)
Definition provider_suffices (p : ProviderRun) : Prop :=
  Exists (λ x, pv_start p + AGENT_STARTUP_GRACE ≤ x.1) (pv_wakeups p).

Definition presence_suffices (run : PresenceRun) : Prop :=
  Exists (λ t, pr_start run + USER_ACTION_TIMEOUT ≤ wt_now t) (pr_wait run) ∧
  provider_suffices (pr_provider run).

Definition verification_suffices (run : VerificationRun) : Prop :=
  Exists (λ x, cs_now (vr_start run) + USER_ACTION_TIMEOUT ≤ ct_now x.2) (vr_turns run) ∧
  Forall (λ x, let e := ct_callback x.2 in
     Exists (λ t, cr_start e + (vr_now run + USER_ACTION_TIMEOUT - cr_now e) ≤ wt_now t) (cr_wait e))
    (vr_turns run) ∧
  provider_suffices (vr_provider run).

Lemma scope_ends {A} user request (body : UserInteractionRequest → PT UIState A) :
  (∀ active, pt_ends (body active)) → pt_ends (interaction_scope user request body).
Proof.
  intros Hb. apply bind_ends; [apply of_ends|]. intros id.
  destruct (id =? 0); [apply of_ends|by apply finally_ends].
Qed.

Lemma guard_ends {A} (m : PT UIState A) : pt_ends m → pt_ends (keepalive_guard m).
Proof. intros Hm. apply bind_ends; [apply of_ends|]. intros _. by apply finally_ends. Qed.

Lemma request_presence_ends run user request :
  presence_suffices run → pt_ends (request_presence run user request).
Proof.
  intros [Hw Hp]. apply scope_ends. intros active. apply bind_ends; [apply of_ends|]. intros _.
  apply catch_ends, guard_ends, bind_ends.
  - apply bind_ends; [apply of_ends|]. intros _. case_match; [apply of_ends|].
    apply bind_ends; [|intros; apply of_ends]. apply wait_loop_ends; [|done].
    intros st reg. apply poll_presence_expires.
  - intros []; [|apply bind_ends; intros; apply of_ends|apply of_ends].
    apply bind_ends; [by apply still_current_ends|intros; apply of_ends].
Qed.

Lemma ask_secret_ends user active deadline e prompt :
  Exists (λ t, cr_start e + (deadline - cr_now e) ≤ wt_now t) (cr_wait e) →
  pt_ends (ask_secret user active deadline e prompt).
Proof.
  intros He. unfold ask_secret. case_match; [apply of_ends|].
  apply bind_ends; [apply of_ends|]. intros id. case_match; [apply of_ends|].
  apply bind_ends; [apply of_ends|]. intros _. case_match; [apply of_ends|].
  apply bind_ends; [|intros; apply of_ends]. apply wait_loop_ends; [|done].
  intros st reg. apply poll_secret_expires.
Qed.

Lemma authenticate_user_ends run user active :
  verification_suffices run → pt_ends (authenticate_user run user active).
Proof.
  intros (Ht & Hs & _). unfold authenticate_user. destruct (uc_session user) as [session|]; [|apply of_ends].
  apply guard_ends. intros w. unfold authenticate_client.
  pose proof (run_verifier_service_ends
    (verification_callbacks user active (vr_now run + USER_ACTION_TIMEOUT)) (uc_uid user)
    (ss_sessionId session) USER_ACTION_TIMEOUT (vr_start run) (with_bus <$> vr_turns run) w) as Hend.
  destruct (run_verifier_service _ _ _ _ _ _ w) as [o cl]. apply Hend.
  - apply Forall_fmap. eapply Forall_impl; [exact Hs|]. intros [ops t] He prompt w'. simpl in *.
    destruct (ask_secret_ends user active _ _ prompt He w') as [r Hr].
    destruct (ask_secret _ _ _ _ _ w') as [[]]; [by eexists|done].
  - apply Exists_fmap. eapply Exists_impl; [exact Ht|]. by intros [ops t].
Qed.

Lemma request_verification_ends run user request :
  verification_suffices run → pt_ends (request_verification run user request).
Proof.
  intros Hs. apply scope_ends. intros active. apply bind_ends; [apply of_ends|]. intros _.
  apply catch_ends, bind_ends; [by apply authenticate_user_ends|]. intros v.
  case_match; [|repeat case_match; apply of_ends].
  apply bind_ends; [apply still_current_ends, Hs|]. intros current. case_match; apply of_ends.
Qed.

(** ** Properties *)

(** C4: Presence is granted only by the user's agent.  When a presence request is approved,
    then during the call an answer of the agent was accepted that approves this very request
    -- the same identifier, operation and relying party -- from the bus name and the
    generation of the registration the user context names, in a session that logind reports
    as active and local; and after that answer the same registration was found current
    again.  This holds for every interleaving with the D-Bus thread. *)
Theorem presence_approval_earned run user request w w' :
  idle w → ui_keepalive w = ka_processing →
  request_presence run user request w = (Some (Ret ui_approved), w') →
  ∃ id l1 l2, id ≠ 0 ∧ ui_log w' = ui_log w ++ l1 ++ l2 ∧
    answered_by l1 user (mkUIRequest (uir_operation request) (uir_relyingPartyId request) id) true ∧
    confirmed user (pv_login (pr_provider run)) l2.
Proof.
  intros Hi Hk Hr.
  destruct (wq_run _ _ _ _ _ (request_presence_ended run user request w Hi Hk) Hr) as (_ & _ & He).
  destruct (He eq_refl) as (id & Hid & log & Hlog & l1 & l2 & -> & Ha & Hc). by exists id, l1, l2.
Qed.

(** An agent registered over the bus. *)
Definition example_world : UIState :=
  mkUIState (call_register_agent example_login example_accounts example_call service_initial).2
    ka_processing [] [].
Definition example_request : UserInteractionRequest := mkUIRequest get_assertion (lit "example.org") 0.
Definition example_provider : ProviderRun := mkProviderRun example_login 6 [(seconds 9, [])].
Definition example_presence_run : PresenceRun :=
  mkPresenceRun 0 [mkWaitTurn [BusRespond example_login example_call 1 1 true] false 5;
                   mkWaitTurn [] false (seconds 31)] example_provider.

Lemma presence_approval_earned_witness :
  ∃ id log, answered_by log example_user (mkUIRequest get_assertion (lit "example.org") id) true.
Proof.
  destruct (presence_approval_earned example_presence_run example_user example_request example_world
    (request_presence example_presence_run example_user example_request example_world).2)
    as (id & l1 & l2 & _ & _ & Ha & _).
  - vm_compute. reflexivity.
  - reflexivity.
  - vm_compute. reflexivity.
  - exists id, l1. exact Ha.
Defined.

(** C3: A verification is approved only on the agent's secrets and PAM's word.  When a
    verification request is approved, the daemon's client completed a conversation of the
    protocol with success; every secret it sent was submitted before by the agent of the
    user's registration for this very request; afterwards the same registration was found
    current, its session active and local.  And when the verifier service is at the other
    end of that client's socket with the PAM handler as its child, PAM authenticated the
    account of that user, whose session was active and local. *)
Theorem approved_verification_end_to_end run user request w w' :
  idle w → ui_keepalive w = ka_processing →
  request_verification run user request w = (Some (Ret ui_approved), w') →
  ∃ id l1 l2 e,
    id ≠ 0 ∧ ui_log w' = ui_log w ++ l1 ++ l2 ∧
    conversed user (mkUIRequest (uir_operation request) (uir_relyingPartyId request) id) l1 e ∧
    confirmed user (pv_login (vr_provider run)) l2.
Proof.
  intros Hi Hk Hr.
  destruct (wq_run _ _ _ _ _ (request_verification_ended run user request w Hi Hk) Hr) as (_ & _ & He).
  destruct (He eq_refl) as (id & Hid & log & Hlog & l1 & l2 & e & -> & Hconv & Hc). by exists id, l1, l2, e.
Qed.

Definition example_callback : CallbackRun :=
  mkCallbackRun 1 1 [mkWaitTurn [BusSubmit example_login example_call 1 1 1
    (mkPipe 7 true true true [ReadBytes (lit "hunter2")])] false 2; mkWaitTurn [] false (seconds 31)].
Definition example_bus_turn (now : Z) (p : poll_event) : list bus_op * ClientTurn UIState CallbackRun :=
  ([BusFlush], mkClientTurn (λ w, w) false example_callback now p example_callback
                 false example_callback (sent_whole example_secret)).
Definition example_verification_run : VerificationRun :=
  mkVerificationRun 0 (mkClientStart false example_callback 0 (Ret 9) (sent_whole example_start))
    [example_bus_turn 1 (poll_input (delivered example_prompt));
     example_bus_turn 3 (poll_input (delivered example_success));
     example_bus_turn (seconds 31) poll_nothing] example_provider.

Definition conversation_of (x : log_entry) : option Endpoint :=
  match x with Conversed _ e => Some e | _ => None end.
Definition example_verified : UIState :=
  (request_verification example_verification_run example_user example_request example_world).2.
Definition example_socket : Endpoint :=
  default (endpoint_new (-1)) (head (omap conversation_of (ui_log example_verified))).

Lemma example_conversation e : Conversed (Ret result_success) e ∈ ui_log example_verified → e = example_socket.
Proof.
  intros Hin. assert (e ∈ omap conversation_of (ui_log example_verified)) as Ho.
  { apply list_elem_of_omap. by eexists. }
  assert (omap conversation_of (ui_log example_verified) = [example_socket]) as Heq
    by (vm_compute; reflexivity).
  rewrite Heq in Ho. by apply list_elem_of_singleton in Ho.
Qed.

Lemma approved_verification_end_to_end_witness :
  ∃ d0, authenticated (example_pam (lit "alice") (lit "vauth") (lit "/etc/pam.d")) d0.
Proof.
  destruct (approved_verification_end_to_end example_verification_run example_user example_request
    example_world example_verified)
    as (id & l1 & l2 & e & _ & Hlog & (log & session & -> & Hses & _ & _ & _ & Hpam) & _).
  - vm_compute. reflexivity.
  - reflexivity.
  - vm_compute. reflexivity.
  - injection Hses as <-.
    destruct (Hpam 990 (seconds 30) example_connection (Ret 0) example_service_run.2 example_pam
      example_handler_events) as (username & props & d0 & Hu & _ & _ & Hauth).
    + change (example_service_run = (Some (Ret 0), example_service_run.2)).
      rewrite <- example_service_result. apply surjective_pairing.
    + rewrite (example_conversation e); [|rewrite Hlog; apply elem_of_app; right; apply elem_of_app; left;
        apply elem_of_app; right; apply list_elem_of_here].
      apply connected_decided; vm_compute; reflexivity.
    + intros p Hp. assert (p = example_child) as -> by (rewrite example_service_child in Hp; congruence).
      exists 3, 0, example_handled. split; [|apply connected_decided]; vm_compute; reflexivity.
    + exists d0. injection Hu as <-. exact Hauth.
Defined.

(** Every way out of a request ends it.  Whether a presence or verification request
    returns, is cancelled, times out, loses its agent or fails in any call, no interaction is
    left pending and the keepalive status is back to processing, so that the next request
    can begin. *)
Theorem requests_always_ended user request w r w' :
  idle w → ui_keepalive w = ka_processing →
  (∃ run, request_presence run user request w = (Some r, w')) ∨
  (∃ run, request_verification run user request w = (Some r, w')) →
  idle w' ∧ ui_keepalive w' = ka_processing.
Proof.
  intros Hi Hk [[run Hr]|[run Hr]].
  - by destruct (wq_run _ _ _ _ _ (request_presence_ended run user request w Hi Hk) Hr) as (? & ? & _).
  - by destruct (wq_run _ _ _ _ _ (request_verification_ended run user request w Hi Hk) Hr) as (? & ? & _).
Qed.

(** A presence request whose agent disconnects. *)
Definition example_lost_run : PresenceRun :=
  mkPresenceRun 0 [mkWaitTurn [BusDisconnected (lit ":1.42")] false 5] example_provider.

Lemma requests_always_ended_witness :
  idle (request_presence example_lost_run example_user example_request example_world).2.
Proof.
  apply (requests_always_ended example_user example_request example_world
    (Throw UserInteractionUnavailable)
    (request_presence example_lost_run example_user example_request example_world).2).
  - vm_compute. reflexivity.
  - reflexivity.
  - left. exists example_lost_run. vm_compute. reflexivity.
Defined.

(** C17: Requests come to an end.  Whatever the agent, the D-Bus thread and the verifier do or
    fail to do, a presence or verification request has returned or thrown once each of its
    waits has had a turn past its deadline: 30 seconds for the user, 2 seconds for a
    registered agent. *)
Theorem interactions_terminate user request w :
  (∀ run, presence_suffices run → is_Some (request_presence run user request w).1) ∧
  (∀ run, verification_suffices run → is_Some (request_verification run user request w).1).
Proof.
  split; intros run Hs; [by apply request_presence_ends|by apply request_verification_ends].
Qed.

Lemma interactions_terminate_witness :
  is_Some (request_presence example_presence_run example_user example_request example_world).1 ∧
  is_Some (request_verification example_verification_run example_user example_request example_world).1.
Proof.
  pose proof (interactions_terminate example_user example_request example_world) as [Hp Hv].
  assert (provider_suffices example_provider) as Hprov by (constructor; vm_compute; discriminate).
  split; [apply Hp|apply Hv]; split_and!; try done.
  - right; constructor. vm_compute. discriminate.
  - do 2 right; constructor. vm_compute. discriminate.
  - repeat constructor; vm_compute; discriminate.
Defined.
