(* ===== verification/StoreSecurity.v ===== *)
(** * The store's TPM objects (src/src/cryptography/store_security.cpp, store_security.hpp,
      tss2_error.hpp)

    The credential store's key is sealed in the TPM together with the origin of a monotonic
    counter; the counter's distance from that origin is the store's generation.  The TPM
    software stack (FAPI, ESYS) is a parameter: its calls with their documented effect on
    the objects under a path.  [FapiStoreSecurity] is shown to provision all or nothing and to
    be the generation counter that CredentialStore.v assumes. *)
From Stdlib Require Import ZArith Lia.
From stdpp Require Import base list strings.
From S2P Require Import Prelude VerifierProtocol CredentialStore CredentialStoreProofs.

(** ** The TPM software stack *)

(** What a path names: an NV counter (0 before its first increment) or sealed bytes. *)
Inductive FapiObject :=
  | NvCounter (value : Z)
  | Sealed (data : list Z).

Definition TSS2_RC_SUCCESS : Z := 0.
Definition TSS2_FAPI_RC_BAD_REFERENCE : Z := 393221.

(** The answer of [Esys_GetCapability], as far as [read_tpm_property] looks at it. *)
Record Capability := mkCapability {
  cap_kind : Z;
  cap_count : Z;
  cap_property : Z;
  cap_value : Z;
}.

(** The calls; a returned pointer is an [option].  A failed call to create or delete has no
    effect, a failed increment may have taken place. *)
Class Fapi := {
  Tpm : Type;
  object_at : Tpm → list Z → option FapiObject;
  Fapi_Initialize : Tpm → Z;
  Fapi_SetAuthCB : Tpm → Z;
  Fapi_GetTcti : Tpm → Z * bool;
  Esys_Initialize : Tpm → Z * bool;
  Esys_GetCapability : Z → Tpm → Z * option Capability;
  Fapi_CreateNv : list Z → Tpm → Z * Tpm;
  Fapi_NvIncrement : list Z → Tpm → Z * Tpm;
  Fapi_NvRead : list Z → Tpm → Z * option (list Z);
  Fapi_GetRandom : Z → Tpm → (Z * option (list Z)) * Tpm;
  Fapi_CreateSeal : list Z → list Z → Tpm → Z * Tpm;
  Fapi_Unseal : list Z → Tpm → Z * option (list Z);
  Fapi_Delete : list Z → Tpm → Z * Tpm;
  create_nv_effect path t q :
    let '(rc, t') := Fapi_CreateNv path t in
    (rc = TSS2_RC_SUCCESS → object_at t path = None) ∧
    object_at t' q = (if bool_decide (rc = TSS2_RC_SUCCESS ∧ q = path)
                      then Some (NvCounter 0) else object_at t q);
  increment_effect path t :
    let '(rc, t') := Fapi_NvIncrement path t in
    (∀ q, q ≠ path → object_at t' q = object_at t q) ∧
    (rc ≠ TSS2_RC_SUCCESS ∧ object_at t' path = object_at t path ∨
     ∃ n n', object_at t path = Some (NvCounter n) ∧ object_at t' path = Some (NvCounter n') ∧
       1 ≤ n' ≤ U64_MAX ∧ (1 ≤ n → n' = n + 1));
  read_effect path t data :
    Fapi_NvRead path t = (TSS2_RC_SUCCESS, Some data) →
    ∃ n, object_at t path = Some (NvCounter n) ∧ data = append_uint64_be n ∧ 0 ≤ n ≤ U64_MAX;
  random_effect n t q :
    let '((rc, data), t') := Fapi_GetRandom n t in
    object_at t' q = object_at t q ∧
    (∀ bytes, rc = TSS2_RC_SUCCESS → data = Some bytes → len bytes = n);
  seal_effect path data t q :
    let '(rc, t') := Fapi_CreateSeal path data t in
    (rc = TSS2_RC_SUCCESS → object_at t path = None) ∧
    object_at t' q = (if bool_decide (rc = TSS2_RC_SUCCESS ∧ q = path)
                      then Some (Sealed data) else object_at t q);
  unseal_effect path t data :
    Fapi_Unseal path t = (TSS2_RC_SUCCESS, Some data) → object_at t path = Some (Sealed data);
  delete_effect path t q :
    let '(rc, t') := Fapi_Delete path t in
    object_at t' q = (if bool_decide (rc = TSS2_RC_SUCCESS ∧ q = path) then None else object_at t q);
}.

(** ** Bytes *)

Definition KEY_SIZE : Z := 32.
Definition COUNTER_SIZE : Z := 8.
Definition SEALED_MATERIAL_SIZE : Z := KEY_SIZE + COUNTER_SIZE.

(** The loop [value = (value << 8) | data[index]] is [read_uint64_be]. *)
Definition decode_uint64 (data : list Z) : res Z :=
  throw_if negb (len data =? COUNTER_SIZE) as runtime_error ;;
  Ret (read_uint64_be data).

Definition encode_uint64 (value : Z) : list Z :=
  (λ index, u8 (Z.shiftr value ((COUNTER_SIZE - index - 1) * 8))) <$> [0; 1; 2; 3; 4; 5; 6; 7].

(** ** The object *)

Definition KEY_PATH : list Z := lit "/HS/SRK/vauth-database-key".
Definition COUNTER_PATH : list Z := lit "/nv/Owner/vauth-db-generation".

(** [tss_check] *)
Definition tss_check (result : Z) : res () :=
  throw_if negb (result =? TSS2_RC_SUCCESS) as runtime_error ;; Ret ().

Section security.
Context `{Fapi}.

(** The object's fields and the TPM behind [context_]. *)
Record Security := mkSecurity {
  sc_authorization : list Z;
  sc_counterOrigin : option Z;
  sc_tpm : Tpm;
}.

Definition on_tpm {A} (f : Tpm → A * Tpm) : ST Security A := λ s,
  let '(a, t) := f (sc_tpm s) in
  (Ret a, mkSecurity (sc_authorization s) (sc_counterOrigin s) t).
Definition ask_tpm {A} (f : Tpm → A) : ST Security A := λ s, (Ret (f (sc_tpm s)), s).
Definition set_origin (o : option Z) : ST Security () :=
  st_modify (λ s, mkSecurity (sc_authorization s) o (sc_tpm s)).

(** The constructor. *)
Definition FapiStoreSecurity_new (authorization : list Z) (t : Tpm) : res Security :=
  throw_if (len authorization =? 0) || (32 <? len authorization) as invalid_argument ;;
  throw_if contains_nul authorization as invalid_argument ;;
  _ ← tss_check (Fapi_Initialize t);
  _ ← tss_check (Fapi_SetAuthCB t);
  Ret (mkSecurity authorization None t).

(** [path.ends_with(suffix)] *)
Definition ends_with (path suffix : list Z) : bool :=
  bool_decide (drop (length path - length suffix) path = suffix).

(** The authorisation callback: its return code and what it hands to FAPI. *)
Definition authorize (object_path : option (list Z)) (no_reference : bool) (s : Security)
    : Z * option (list Z) :=
  if no_reference then (TSS2_FAPI_RC_BAD_REFERENCE, None) else
  let path := default [] object_path in
  if ends_with path KEY_PATH || ends_with path COUNTER_PATH
  then (TSS2_RC_SUCCESS, Some (sc_authorization s)) else (TSS2_RC_SUCCESS, None).

(** ** The owner hierarchy *)

Definition TPM2_CAP_TPM_PROPERTIES : Z := 6.
Definition TPM2_PT_PERMANENT : Z := 512.
Definition TPM2_PT_STARTUP_CLEAR : Z := 513.
Definition TPMA_STARTUP_CLEAR_SHENABLE : Z := 2.
Definition TPMA_PERMANENT_OWNERAUTHSET : Z := 1.

Definition read_tpm_property (property : Z) (t : Tpm) : res Z :=
  let '(result, capability) := Esys_GetCapability property t in
  _ ← tss_check result;
  match capability with
  | None => Throw runtime_error
  | Some c =>
      throw_if negb (cap_kind c =? TPM2_CAP_TPM_PROPERTIES) || negb (cap_count c =? 1) ||
               negb (cap_property c =? property) as runtime_error ;;
      Ret (cap_value c)
  end.

Definition tcti (t : Tpm) : res () :=
  let '(result, present) := Fapi_GetTcti t in
  _ ← tss_check result;
  throw_if negb present as runtime_error ;; Ret ().

Definition require_unprotected_owner_hierarchy (t : Tpm) : res () :=
  _ ← tcti t;
  let '(initialize_result, present) := Esys_Initialize t in
  _ ← tss_check initialize_result;
  throw_if negb present as runtime_error ;;
  startup_clear ← read_tpm_property TPM2_PT_STARTUP_CLEAR t;
  throw_if Z.land startup_clear TPMA_STARTUP_CLEAR_SHENABLE =? 0 as runtime_error ;;
  permanent ← read_tpm_property TPM2_PT_PERMANENT t;
  throw_if negb (Z.land permanent TPMA_PERMANENT_OWNERAUTHSET =? 0) as runtime_error ;;
  Ret ().

(** ** The counter and the key *)

Definition read_raw_counter : ST Security Z :=
  let! answer := ask_tpm (Fapi_NvRead COUNTER_PATH) in
  let! _ := st_lift (tss_check answer.1) in
  match answer.2 with
  | None => st_throw runtime_error
  | Some data =>
      let! value := st_lift (decode_uint64 data) in
      if value =? 0 then st_throw runtime_error else st_ret value
  end.

Definition unseal_key : ST Security (list Z) :=
  let! _ := set_origin None in
  let! answer := ask_tpm (Fapi_Unseal KEY_PATH) in
  let! _ := st_lift (tss_check answer.1) in
  match answer.2 with
  | None => st_throw runtime_error
  | Some data =>
      if negb (len data =? SEALED_MATERIAL_SIZE) then st_throw runtime_error else
      let! counter_origin := st_lift (decode_uint64 (drop (Z.to_nat KEY_SIZE) data)) in
      if counter_origin =? 0 then st_throw runtime_error else
      let! _ := set_origin (Some counter_origin) in
      st_ret (take (Z.to_nat KEY_SIZE) data)
  end.

(** [StoreGenerationCounter::read]; the subtraction cannot wrap after the check. *)
Definition security_read : ST Security Z :=
  let! s := st_get in
  let! _ := (match sc_counterOrigin s with
             | None => let! _ := unseal_key in st_ret ()
             | Some _ => st_ret ()
             end) in
  let! value := read_raw_counter in
  let! s := st_get in
  match sc_counterOrigin s with
  | None => st_throw logic_error
  | Some origin => if value <? origin then st_throw runtime_error else st_ret (value - origin)
  end.

(** [StoreGenerationCounter::increment] *)
Definition security_increment : ST Security () :=
  let! result := on_tpm (Fapi_NvIncrement COUNTER_PATH) in
  st_lift (tss_check result).

(** ** Provisioning *)

(** The [try] block: drawing the key and sealing it with the origin. *)
Definition seal_key (counter_origin : Z) : ST Security () :=
  let! random := on_tpm (Fapi_GetRandom KEY_SIZE) in
  let! _ := st_lift (tss_check random.1) in
  match random.2 with
  | None => st_throw runtime_error
  | Some random_key =>
      let material := take (Z.to_nat KEY_SIZE) random_key ++ encode_uint64 counter_origin in
      let! result := on_tpm (Fapi_CreateSeal KEY_PATH material) in
      st_lift (tss_check result)
  end.

(** The [try] block up to the seal. *)
Definition seal_material : ST Security () :=
  let! result := on_tpm (Fapi_NvIncrement COUNTER_PATH) in
  let! _ := st_lift (tss_check result) in
  let! counter_origin := read_raw_counter in
  if counter_origin =? 0 then st_throw runtime_error else seal_key counter_origin.

(** The [try] block after the seal. *)
Definition check_provisioned : ST Security () :=
  let! _ := unseal_key in
  let! generation := security_read in
  if negb (generation =? 0) then st_throw runtime_error else st_ret ().

(** The handler. *)
Definition undo_provisioning (key_created : bool) (e : exn) : ST Security () :=
  let! counter_cleanup := on_tpm (Fapi_Delete COUNTER_PATH) in
  let! key_cleanup := (if key_created then on_tpm (Fapi_Delete KEY_PATH) else st_ret TSS2_RC_SUCCESS) in
  let! _ := set_origin None in
  if negb (counter_cleanup =? TSS2_RC_SUCCESS) || negb (key_cleanup =? TSS2_RC_SUCCESS)
  then st_throw runtime_error else st_throw e.

Definition create_counter : ST Security () :=
  let! counter_result := on_tpm (Fapi_CreateNv COUNTER_PATH) in
  st_lift (tss_check counter_result).

Definition provision : ST Security () :=
  let! s := st_get in
  let! _ := st_lift (require_unprotected_owner_hierarchy (sc_tpm s)) in
  let! _ := set_origin None in
  let! _ := create_counter in
  let! sealed := st_catch (let! _ := seal_material in st_ret true)
                          (λ e, let! _ := undo_provisioning false e in st_ret false) in
  if (sealed : bool) then st_catch check_provisioned (undo_provisioning true) else st_ret ().
End security.
Arguments Security : clear implicits.
Arguments Security {_}.

(** ** Bytes *)

Lemma encode_uint64_be v : encode_uint64 v = append_uint64_be v.
Proof. reflexivity. Qed.

Lemma decode_encode v : is_u64 v → decode_uint64 (encode_uint64 v) = Ret v.
Proof.
  intros Hv. unfold decode_uint64. rewrite encode_uint64_be.
  assert ((len (append_uint64_be v) =? COUNTER_SIZE) = true) as ->
    by (rewrite length_append_uint64_be; reflexivity).
  cbn [negb]. by rewrite read_append_uint64_be.
Qed.

(** ** What the calls do *)

Section proofs.
Context `{Fapi}.

(** The objects of a provisioned store: counter [n], sealed with origin [o] and the key. *)
Record provisioned (t : Tpm) (n o : Z) (key : list Z) : Prop := {
  pv_counter : object_at t COUNTER_PATH = Some (NvCounter n);
  pv_sealed : object_at t KEY_PATH = Some (Sealed (key ++ encode_uint64 o));
  pv_key : len key = KEY_SIZE;
  pv_range : 1 ≤ o ≤ n ∧ n ≤ U64_MAX;
}.

(** Nothing but the origin changes. *)
Definition same_tpm (s s' : Security) : Prop :=
  sc_tpm s' = sc_tpm s ∧ sc_authorization s' = sc_authorization s.

Lemma wp_on_tpm {A} (f : Tpm → A * Tpm) (Q : res A → Security → Prop) s :
  (let '(a, t) := f (sc_tpm s) in Q (Ret a) (mkSecurity (sc_authorization s) (sc_counterOrigin s) t)) →
  wp (on_tpm f) Q s.
Proof. unfold wp, on_tpm. by destruct (f (sc_tpm s)). Qed.

Lemma tss_check_ret rc : tss_check rc = Ret () ↔ rc = TSS2_RC_SUCCESS.
Proof.
  unfold tss_check. destruct (rc =? TSS2_RC_SUCCESS) eqn:E; simpl; split; intros; try done.
  - by apply Z.eqb_eq.
  - by apply Z.eqb_neq in E.
Qed.

Lemma tss_check_cases rc :
  tss_check rc = Ret () ∧ rc = TSS2_RC_SUCCESS ∨
  tss_check rc = Throw runtime_error ∧ rc ≠ TSS2_RC_SUCCESS.
Proof.
  destruct (tss_check rc) as [[]|e] eqn:E; [left; by apply tss_check_ret in E|right].
  unfold tss_check in E. destruct (rc =? TSS2_RC_SUCCESS) eqn:Er; simpl in E; [done|].
  apply Z.eqb_neq in Er. by injection E as <-.
Qed.

Lemma unseal_key_spec s n o key :
  provisioned (sc_tpm s) n o key →
  wp unseal_key (λ r s', same_tpm s s' ∧
    (r = Ret key ∧ sc_counterOrigin s' = Some o ∨
     r = Throw runtime_error ∧ sc_counterOrigin s' = None)) s.
Proof.
  intros [Hc Hk Hl Hr]. apply wp_bind, wp_modify, wp_bind.
  unfold wp at 1, ask_tpm. cbn [fst snd sc_tpm]. apply wp_bind, wp_lift.
  destruct (Fapi_Unseal KEY_PATH (sc_tpm s)) as [rc data] eqn:Eu. cbn [fst snd].
  destruct (tss_check_cases rc) as [[-> ->]|[-> _]]; [|by split; [|right]].
  destruct data as [data|]; [|by split; [|right]].
  apply unseal_effect in Eu. rewrite Hk in Eu. injection Eu as <-.
  assert (length key = 32%nat) as Hl' by (unfold KEY_SIZE in Hl; lia).
  assert (len (key ++ encode_uint64 o) = SEALED_MATERIAL_SIZE) as ->.
  { rewrite length_app, encode_uint64_be, length_append_uint64_be, Hl'. done. }
  rewrite Z.eqb_refl. cbn [negb]. change (Z.to_nat KEY_SIZE) with 32%nat.
  rewrite (drop_app_length' key _ 32), (take_app_length' key _ 32) by done.
  apply wp_bind, wp_lift. rewrite decode_encode by (unfold U64_MAX in Hr; lia).
  rewrite (proj2 (Z.eqb_neq o 0)) by lia. apply wp_bind, wp_modify, wp_ret. by split; [|left].
Qed.

Lemma read_raw_counter_spec s n :
  object_at (sc_tpm s) COUNTER_PATH = Some (NvCounter n) →
  wp read_raw_counter (λ r s', s' = s ∧ (r = Ret n ∧ n ≠ 0 ∨ r = Throw runtime_error)) s.
Proof.
  intros Hc. apply wp_bind. unfold wp at 1, ask_tpm. cbn [fst snd]. apply wp_bind, wp_lift.
  destruct (Fapi_NvRead COUNTER_PATH (sc_tpm s)) as [rc data] eqn:Er. cbn [fst snd].
  destruct (tss_check_cases rc) as [[-> ->]|[-> _]]; [|by split; [|right]].
  destruct data as [data|]; [|by split; [|right]].
  apply read_effect in Er as (n' & Hn & -> & Hr). rewrite Hc in Hn. injection Hn as <-.
  apply wp_bind, wp_lift. rewrite <- encode_uint64_be, decode_encode by (unfold U64_MAX in Hr; lia).
  destruct (n =? 0) eqn:E0; [by split; [|right]|]. apply wp_ret. split; [done|left].
  by apply Z.eqb_neq in E0.
Qed.

(** ** The generation counter *)

(** The object counts what the store's counter counts: the distance from the origin.  The
    origin, once read, is the sealed one. *)
Definition counts (key : list Z) (s : Security) (w : World) : Prop :=
  ∃ n o, provisioned (sc_tpm s) n o key ∧ (sc_counterOrigin s = None ∨ sc_counterOrigin s = Some o) ∧
    w_counter w = n - o.

Lemma security_read_spec s n o key :
  provisioned (sc_tpm s) n o key → sc_counterOrigin s = None ∨ sc_counterOrigin s = Some o →
  wp security_read (λ r s', same_tpm s s' ∧
    (sc_counterOrigin s' = None ∨ sc_counterOrigin s' = Some o) ∧
    (r = Ret (n - o) ∧ sc_counterOrigin s' = Some o ∨ r = Throw runtime_error)) s.
Proof.
  intros Hp Ho. apply wp_bind, wp_get, wp_bind.
  assert (wp (match sc_counterOrigin s with
              | None => let! _ := unseal_key in st_ret ()
              | Some _ => st_ret ()
              end) (λ r s', same_tpm s s' ∧
    (r = Ret () ∧ sc_counterOrigin s' = Some o ∨
     r = Throw runtime_error ∧ sc_counterOrigin s' = None)) s) as Horigin.
  { destruct Ho as [Ho|Ho]; rewrite Ho.
    - apply wp_bind. eapply wp_mono; [|by eapply unseal_key_spec].
      intros r s' [Hs [[-> Hr]|[-> Hr]]]; [apply wp_ret|]; split; eauto.
    - apply wp_ret. split; [done|by left]. }
  eapply wp_mono; [|exact Horigin]. intros r s1 [[Ht Ha] [[-> Ho1]|[-> Ho1]]].
  2: { split_and!; [done|by left|by right]. }
  apply wp_bind. eapply wp_mono; [|apply (read_raw_counter_spec _ n); rewrite Ht; apply Hp].
  intros r s2 [-> [[-> Hn]|Hr]].
  - apply wp_bind, wp_get. rewrite Ho1. destruct Hp as [_ _ _ Hr].
    rewrite (proj2 (Z.ltb_ge _ _)) by lia. apply wp_ret. split_and!; [done|by right|by left].
  - subst. split_and!; [done|by right|by right].
Qed.

Lemma security_increment_spec s n o key :
  provisioned (sc_tpm s) n o key →
  wp security_increment (λ r s', sc_counterOrigin s' = sc_counterOrigin s ∧
    (provisioned (sc_tpm s') n o key ∧ r = Throw runtime_error ∨
     provisioned (sc_tpm s') (n + 1) o key ∧ (r = Ret () ∨ r = Throw runtime_error))) s.
Proof.
  intros [Hc Hk Hl Hr]. apply wp_bind, wp_on_tpm.
  pose proof (increment_effect COUNTER_PATH (sc_tpm s)) as Heff.
  destruct (Fapi_NvIncrement COUNTER_PATH (sc_tpm s)) as [rc t']. cbn [fst snd].
  destruct Heff as [Hother Hcase]. apply wp_lift. cbn [sc_counterOrigin sc_tpm]. split; [done|].
  assert (object_at t' KEY_PATH = Some (Sealed (key ++ encode_uint64 o))) as Hk'
    by (rewrite Hother; [done|discriminate]).
  destruct Hcase as [[Hrc Hsame]|(n0 & n' & Hn0 & Hn' & Hrange & Hstep)].
  - left. destruct (tss_check_cases rc) as [[_ ?]|[-> _]]; [done|].
    split; [|done]. split; [by rewrite Hsame|done..].
  - rewrite Hc in Hn0. injection Hn0 as <-. rewrite Hstep in Hn' by lia.
    right. split.
    + split; [done..|]. rewrite Hstep in Hrange by lia. lia.
    + destruct (tss_check_cases rc) as [[-> _]|[-> _]]; [by left|by right].
Qed.

(** ** Provisioning *)

(** Sealing leaves every object but the key alone, and the key too when it fails. *)
Lemma seal_key_spec s n :
  wp (seal_key n) (λ r s', sc_counterOrigin s' = sc_counterOrigin s ∧
    (∀ q, q ≠ KEY_PATH → object_at (sc_tpm s') q = object_at (sc_tpm s) q) ∧
    match r with
    | Ret _ => object_at (sc_tpm s) KEY_PATH = None ∧ ∃ key, len key = KEY_SIZE ∧
        object_at (sc_tpm s') KEY_PATH = Some (Sealed (key ++ encode_uint64 n))
    | Throw _ => object_at (sc_tpm s') KEY_PATH = object_at (sc_tpm s) KEY_PATH
    end) s.
Proof.
  apply wp_bind, wp_on_tpm.
  assert (∀ q, object_at (Fapi_GetRandom KEY_SIZE (sc_tpm s)).2 q = object_at (sc_tpm s) q) as Hrandom.
  { intros q. pose proof (random_effect KEY_SIZE (sc_tpm s) q) as Hq.
    destruct (Fapi_GetRandom KEY_SIZE (sc_tpm s)) as [[rc data] t2]. apply Hq. }
  pose proof (random_effect KEY_SIZE (sc_tpm s) KEY_PATH) as Hbytes.
  destruct (Fapi_GetRandom KEY_SIZE (sc_tpm s)) as [[rc data] t2]. destruct Hbytes as [_ Hbytes].
  cbn [fst snd] in *. apply wp_bind, wp_lift.
  destruct (tss_check_cases rc) as [[-> ->]|[-> _]]; [|by cbn beta iota; split_and!].
  destruct data as [bytes|]; [|by apply wp_throw; cbn beta iota; split_and!].
  specialize (Hbytes bytes eq_refl eq_refl). apply wp_bind, wp_on_tpm. cbn [sc_tpm].
  set (material := take (Z.to_nat KEY_SIZE) bytes ++ encode_uint64 n).
  assert (∀ q, (let '(rc, t3) := Fapi_CreateSeal KEY_PATH material t2 in
    (rc = TSS2_RC_SUCCESS → object_at t2 KEY_PATH = None) ∧
    object_at t3 q = (if bool_decide (rc = TSS2_RC_SUCCESS ∧ q = KEY_PATH)
                      then Some (Sealed material) else object_at t2 q))) as Hseal
    by (intros q; apply seal_effect).
  destruct (Fapi_CreateSeal KEY_PATH material t2) as [rc t3].
  apply wp_lift. cbn beta iota delta [sc_counterOrigin sc_tpm]. split_and!; [done| |].
  { intros q Hq. rewrite (proj2 (Hseal q)), bool_decide_eq_false_2 by naive_solver. apply Hrandom. }
  destruct (Hseal KEY_PATH) as [Hnone Hobj]. rewrite Hrandom in Hnone.
  destruct (tss_check_cases rc) as [[-> ->]|[-> Hrc]].
  - split; [by apply Hnone|]. exists bytes. rewrite bool_decide_eq_true_2 in Hobj by done.
    split; [done|]. rewrite Hobj. subst material. rewrite take_ge; [done|]. unfold KEY_SIZE in *. lia.
  - rewrite Hobj, bool_decide_eq_false_2 by naive_solver. apply Hrandom.
Qed.

Lemma seal_material_spec s :
  object_at (sc_tpm s) COUNTER_PATH = Some (NvCounter 0) →
  wp seal_material (λ r s', sc_counterOrigin s' = sc_counterOrigin s ∧
    (∀ q, q ≠ COUNTER_PATH → q ≠ KEY_PATH → object_at (sc_tpm s') q = object_at (sc_tpm s) q) ∧
    match r with
    | Ret _ => object_at (sc_tpm s) KEY_PATH = None ∧ ∃ n key, provisioned (sc_tpm s') n n key
    | Throw _ => object_at (sc_tpm s') KEY_PATH = object_at (sc_tpm s) KEY_PATH
    end) s.
Proof.
  intros Hc. apply wp_bind, wp_on_tpm. pose proof (increment_effect COUNTER_PATH (sc_tpm s)) as Heff.
  destruct (Fapi_NvIncrement COUNTER_PATH (sc_tpm s)) as [rc t1]. destruct Heff as [Hother Hcase].
  assert (object_at t1 KEY_PATH = object_at (sc_tpm s) KEY_PATH) as Hkey by (by apply Hother).
  apply wp_bind, wp_lift. destruct (tss_check_cases rc) as [[-> ->]|[-> Hrc]].
  2: { cbn beta iota. split_and!; [done|intros q Hq _; by apply Hother|done]. }
  destruct Hcase as [[? _]|(n0 & n & _ & Hn & Hrange & _)]; [done|].
  apply wp_bind. eapply wp_mono; [|by apply (read_raw_counter_spec _ n)].
  intros r s1 [-> [[-> Hn0]|Hr]].
  2: { subst. cbn beta iota. split_and!; [done|intros q Hq _; by apply Hother|done]. }
  rewrite (proj2 (Z.eqb_neq n 0)) by done. eapply wp_mono; [|apply seal_key_spec].
  cbn beta iota delta [sc_counterOrigin sc_tpm]. intros r s2 (Ho & Hsame & Hr).
  split_and!; [done|intros q Hq Hq'; rewrite Hsame by done; by apply Hother|].
  destruct r as [[]|e]; [|by rewrite Hr].
  destruct Hr as [Hnone (key & Hl & Hobj)]. split; [by rewrite <- Hkey|].
  exists n, key. split; [by rewrite Hsame|done|done|lia].
Qed.

(** The handler puts the objects back, when the TPM deletes what it is told to delete. *)
Definition deletes : Prop := ∀ path t, (Fapi_Delete path t).1 = TSS2_RC_SUCCESS.

Lemma undo_provisioning_spec key_created e s :
  deletes →
  wp (undo_provisioning key_created e) (λ r s', r = Throw e ∧ sc_counterOrigin s' = None ∧
    object_at (sc_tpm s') COUNTER_PATH = None ∧
    object_at (sc_tpm s') KEY_PATH = (if key_created then None else object_at (sc_tpm s) KEY_PATH) ∧
    ∀ q, q ≠ COUNTER_PATH → q ≠ KEY_PATH → object_at (sc_tpm s') q = object_at (sc_tpm s) q) s.
Proof.
  intros Hdel. assert (∀ path t, ∃ t', Fapi_Delete path t = (TSS2_RC_SUCCESS, t') ∧
    ∀ q, object_at t' q = if bool_decide (q = path) then None else object_at t q) as Hd.
  { intros path t. pose proof (Hdel path t) as Hrc. exists (Fapi_Delete path t).2.
    split; [by rewrite <- Hrc, <- surjective_pairing|]. intros q. pose proof (delete_effect path t q) as Hq.
    destruct (Fapi_Delete path t) as [rc t']. simpl in Hrc. subst rc. cbn [snd]. rewrite Hq.
    do 2 case_bool_decide; naive_solver. }
  apply wp_bind, wp_on_tpm. destruct (Hd COUNTER_PATH (sc_tpm s)) as (t1 & -> & H1).
  apply wp_bind. destruct key_created.
  - apply wp_on_tpm. cbn [sc_tpm]. destruct (Hd KEY_PATH t1) as (t2 & -> & H2).
    apply wp_bind, wp_modify, wp_throw. cbn [sc_counterOrigin sc_tpm].
    split_and!; [done|done|by rewrite H2, H1|by rewrite H2|].
    intros q Hq Hq'. by rewrite H2, H1, !bool_decide_eq_false_2.
  - apply wp_ret, wp_bind, wp_modify, wp_throw. cbn [sc_counterOrigin sc_tpm].
    split_and!; [done|done|by rewrite H1|by rewrite H1|].
    intros q Hq Hq'. by rewrite H1, bool_decide_eq_false_2.
Qed.

Lemma check_provisioned_spec s n key :
  provisioned (sc_tpm s) n n key →
  wp check_provisioned (λ r s', same_tpm s s' ∧ (r = Ret () → sc_counterOrigin s' = Some n)) s.
Proof.
  intros Hp. apply wp_bind. eapply wp_mono; [|by eapply unseal_key_spec].
  intros r s1 [[Ht Ha] [[-> Ho]|[-> Ho]]]; [|by split].
  apply wp_bind. eapply wp_mono; [|eapply (security_read_spec _ n n key); [by rewrite Ht|by right]].
  intros r s2 ([Ht2 Ha2] & _ & [[-> Ho2]| ->]).
  - rewrite Z.sub_diag. cbn [Z.eqb negb]. apply wp_ret. split; [split; congruence|done].
  - split; [split; congruence|done].
Qed.

Lemma wp_create_nv s Q :
  (∀ s', (∀ q, object_at (sc_tpm s') q = object_at (sc_tpm s) q) → Q (Throw runtime_error) s') →
  (∀ s', object_at (sc_tpm s) COUNTER_PATH = None → sc_counterOrigin s' = sc_counterOrigin s →
     object_at (sc_tpm s') COUNTER_PATH = Some (NvCounter 0) →
     (∀ q, q ≠ COUNTER_PATH → object_at (sc_tpm s') q = object_at (sc_tpm s) q) → Q (Ret ()) s') →
  wp create_counter Q s.
Proof.
  intros Hfail Hok. apply wp_bind, wp_on_tpm.
  assert (∀ q, let '(rc, t') := Fapi_CreateNv COUNTER_PATH (sc_tpm s) in
    (rc = TSS2_RC_SUCCESS → object_at (sc_tpm s) COUNTER_PATH = None) ∧
    object_at t' q = (if bool_decide (rc = TSS2_RC_SUCCESS ∧ q = COUNTER_PATH)
                      then Some (NvCounter 0) else object_at (sc_tpm s) q)) as Hc
    by (intros q; apply create_nv_effect).
  destruct (Fapi_CreateNv COUNTER_PATH (sc_tpm s)) as [rc t1]. apply wp_lift.
  destruct (tss_check_cases rc) as [[-> ->]|[-> Hrc]].
  - apply Hok; [by apply (Hc [])|done| |].
    + cbn [sc_tpm]. rewrite (proj2 (Hc COUNTER_PATH)). by rewrite bool_decide_eq_true_2.
    + intros q Hq. cbn [sc_tpm]. rewrite (proj2 (Hc q)), bool_decide_eq_false_2; [done|naive_solver].
  - apply Hfail. intros q. simpl. rewrite (proj2 (Hc q)), bool_decide_eq_false_2; [done|naive_solver].
Qed.

Definition provision_outcome (s : Security) (r : res ()) (s' : Security) : Prop :=
  match r with
  | Ret _ => object_at (sc_tpm s) COUNTER_PATH = None ∧ object_at (sc_tpm s) KEY_PATH = None ∧
      (∃ n key, provisioned (sc_tpm s') n n key ∧ sc_counterOrigin s' = Some n) ∧
      ∀ q, q ≠ COUNTER_PATH → q ≠ KEY_PATH → object_at (sc_tpm s') q = object_at (sc_tpm s) q
  | Throw _ => ∀ q, object_at (sc_tpm s') q = object_at (sc_tpm s) q
  end.

(** Every object but the key is as it was: the undoing of the counter. *)
Lemma undone s s' :
  object_at (sc_tpm s) COUNTER_PATH = None → object_at (sc_tpm s') COUNTER_PATH = None →
  object_at (sc_tpm s') KEY_PATH = object_at (sc_tpm s) KEY_PATH →
  (∀ q, q ≠ COUNTER_PATH → q ≠ KEY_PATH → object_at (sc_tpm s') q = object_at (sc_tpm s) q) →
  ∀ q, object_at (sc_tpm s') q = object_at (sc_tpm s) q.
Proof.
  intros Hc Hc' Hk Hq q. destruct (decide (q = COUNTER_PATH)) as [->|?]; [congruence|].
  destruct (decide (q = KEY_PATH)) as [->|?]; [done|by apply Hq].
Qed.

Lemma provision_spec s : deletes → wp provision (provision_outcome s) s.
Proof.
  intros Hdel. apply wp_bind, wp_get, wp_bind, wp_lift.
  destruct (require_unprotected_owner_hierarchy (sc_tpm s)); [|done].
  apply wp_bind, wp_modify, wp_bind, wp_create_nv; [done|].
  intros s1 Hnone _ Hc1 Ho1. cbn [sc_tpm] in *. apply wp_bind, wp_catch, wp_bind.
  eapply wp_mono; [|by apply seal_material_spec]. intros r s2 (_ & Ho2 & Hr).
  assert (∀ q, q ≠ COUNTER_PATH → q ≠ KEY_PATH → object_at (sc_tpm s2) q = object_at (sc_tpm s) q) as Hq2
    by (intros q Hq Hq'; rewrite Ho2, Ho1 by done; done).
  rewrite (Ho1 KEY_PATH) in Hr by done. destruct r as [[]|e].
  - destruct Hr as [Hk (n & key & Hp)]. apply wp_ret, wp_catch.
    eapply wp_mono; [|by eapply check_provisioned_spec]. intros r s3 [[Ht Ha] Hor].
    destruct r as [[]|e].
    + split_and!; [done..| |by rewrite Ht]. exists n, key. rewrite Ht. split; [done|by apply Hor].
    + eapply wp_mono; [|by apply undo_provisioning_spec]. intros r s4 (-> & _ & Hc & Hk' & Hq).
      intros q. apply (undone s s4); [done|done|by rewrite Hk'|intros q' ? ?; rewrite Hq, Ht by done; by apply Hq2].
  - apply wp_bind. eapply wp_mono; [|by apply undo_provisioning_spec].
    intros r s3 (-> & _ & Hc & Hk & Hq). intros q. apply (undone s s3); [done|done|by rewrite Hk|].
    intros q' ? ?. rewrite Hq by done. by apply Hq2.
Qed.
End proofs.

(** ** Properties *)

(** Provisioning is all or nothing.  When it returns, there was neither a counter nor a
    sealed key before, and now there is a fresh 32-byte key sealed with the counter's value as
    origin, so that the generation is 0.  When it throws -- the hierarchy is protected, an
    object already exists, or any call fails at any point -- every object of the TPM is as it
    was, given that the TPM deletes the objects provisioning has created: an existing store
    is never touched. *)
Theorem provision_all_or_nothing `{Fapi} s r s' :
  deletes → provision s = (r, s') →
  match r with
  | Ret _ => object_at (sc_tpm s) COUNTER_PATH = None ∧ object_at (sc_tpm s) KEY_PATH = None ∧
      (∃ n key, provisioned (sc_tpm s') n n key ∧ sc_counterOrigin s' = Some n) ∧
      ∀ q, q ≠ COUNTER_PATH → q ≠ KEY_PATH → object_at (sc_tpm s') q = object_at (sc_tpm s) q
  | Throw _ => ∀ q, object_at (sc_tpm s') q = object_at (sc_tpm s) q
  end.
Proof.
  intros Hdel E. exact (wp_run _ _ _ _ _ (provision_spec s Hdel) E).
Qed.

(** A TPM that never fails, as a function from paths to objects. *)
Definition toy_set (path : list Z) (o : option FapiObject) (t : list Z → option FapiObject)
    : list Z → option FapiObject := λ q, if bool_decide (q = path) then o else t q.

Definition toy_create (path : list Z) (o : FapiObject) (t : list Z → option FapiObject)
    : Z * (list Z → option FapiObject) :=
  match t path with None => (0, toy_set path (Some o) t) | Some _ => (1, t) end.

Definition toy_increment (path : list Z) (t : list Z → option FapiObject)
    : Z * (list Z → option FapiObject) :=
  match t path with
  | Some (NvCounter n) =>
      let n' := if n <? 1 then 1 else n + 1 in
      if n' <=? U64_MAX then (0, toy_set path (Some (NvCounter n')) t) else (1, t)
  | _ => (1, t)
  end.

Definition toy_read (path : list Z) (t : list Z → option FapiObject) : Z * option (list Z) :=
  match t path with
  | Some (NvCounter n) => if (0 <=? n) && (n <=? U64_MAX) then (0, Some (append_uint64_be n)) else (1, None)
  | _ => (1, None)
  end.

Lemma toy_create_effect path o t q :
  let '(rc, t') := toy_create path o t in
  (rc = TSS2_RC_SUCCESS → t path = None) ∧
  t' q = (if bool_decide (rc = TSS2_RC_SUCCESS ∧ q = path) then Some o else t q).
Proof.
  unfold toy_create, TSS2_RC_SUCCESS. destruct (t path) eqn:E.
  - split; [done|]. by rewrite bool_decide_eq_false_2 by naive_solver.
  - split; [done|]. unfold toy_set. do 2 case_bool_decide; naive_solver.
Qed.

Lemma toy_increment_effect path t :
  let '(rc, t') := toy_increment path t in
  (∀ q, q ≠ path → t' q = t q) ∧
  (rc ≠ TSS2_RC_SUCCESS ∧ t' path = t path ∨
   ∃ n n', t path = Some (NvCounter n) ∧ t' path = Some (NvCounter n') ∧
     1 ≤ n' ≤ U64_MAX ∧ (1 ≤ n → n' = n + 1)).
Proof.
  unfold toy_increment. destruct (t path) as [[n|]|] eqn:E; [|by split; [|left]..].
  destruct (_ <=? U64_MAX) eqn:El; [|by split; [|left]]. apply Z.leb_le in El. split.
  - intros q Hq. unfold toy_set. by rewrite bool_decide_eq_false_2.
  - right. exists n, (if n <? 1 then 1 else n + 1). split_and!; [done| | |lia|].
    + unfold toy_set. by rewrite bool_decide_eq_true_2.
    + destruct (Z.ltb_spec n 1); lia.
    + intros Hn. by rewrite (proj2 (Z.ltb_ge n 1)).
Qed.

Lemma toy_read_effect path t data :
  toy_read path t = (TSS2_RC_SUCCESS, Some data) →
  ∃ n, t path = Some (NvCounter n) ∧ data = append_uint64_be n ∧ 0 ≤ n ≤ U64_MAX.
Proof.
  unfold toy_read. destruct (t path) as [[n|]|]; [|done..].
  destruct (_ && _) eqn:E; [|done]. intros [= <-]. reflect_bools. by exists n.
Qed.

#[local] Instance toy_fapi : Fapi.
Proof.
  refine {|
    Tpm := list Z → option FapiObject;
    object_at t q := t q;
    Fapi_Initialize _ := 0;
    Fapi_SetAuthCB _ := 0;
    Fapi_GetTcti _ := (0, true);
    Esys_Initialize _ := (0, true);
    Esys_GetCapability property _ := (0, Some (mkCapability TPM2_CAP_TPM_PROPERTIES 1 property 2));
    Fapi_CreateNv path t := toy_create path (NvCounter 0) t;
    Fapi_NvIncrement := toy_increment;
    Fapi_NvRead := toy_read;
    Fapi_GetRandom n t := ((if n <? 0 then 1 else 0, Some (replicate (Z.to_nat n) 7)), t);
    Fapi_CreateSeal path data t := toy_create path (Sealed data) t;
    Fapi_Unseal path t := match t path with Some (Sealed data) => (0, Some data) | _ => (1, None) end;
    Fapi_Delete path t := (0, toy_set path None t);
    create_nv_effect path t q := toy_create_effect path (NvCounter 0) t q;
    increment_effect := toy_increment_effect;
    read_effect := toy_read_effect;
    seal_effect path data t q := toy_create_effect path (Sealed data) t q;
  |}.
  - intros n t q. split; [done|]. intros bytes Hrc [= <-]. rewrite length_replicate.
    destruct (Z.ltb_spec n 0); [done|]. by rewrite Z2Nat.id.
  - intros path t data. destruct (t path) as [[]|]; congruence.
  - intros path t q. unfold toy_set. do 2 case_bool_decide; naive_solver.
Defined.

Definition example_security : Security := mkSecurity (lit "secret") None (λ _, None).

Lemma provision_all_or_nothing_witness :
  deletes ∧ ∃ n key, provisioned (sc_tpm (provision example_security).2) n n key.
Proof.
  assert (deletes) as Hdel by (intros path t; reflexivity). split; [exact Hdel|].
  destruct (provision_all_or_nothing example_security (Ret ()) (provision example_security).2 Hdel)
    as (_ & _ & (n & key & Hp & _) & _).
  - rewrite (surjective_pairing (provision example_security)). f_equal; vm_compute; reflexivity.
  - exists n, key. exact Hp.
Defined.

(** C37: The TPM counter is the store's generation counter.  Over a provisioned store, [read] and
    [increment] of FapiStoreSecurity behave as the counter that the credential store is
    verified against, where the faults of the TPM are its faults: a read returns the number
    of increments since provisioning or throws and changes nothing; an increment counts by
    one, or throws, with or without having counted.  The sealed key stays the same. *)
Theorem security_refines_counter `{Fapi} key s w :
  counts key s w →
  (∃ f, let '(r, s') := security_read s in
        let '(r', w') := counter_read (set_faults [f] w) in r = r' ∧ counts key s' w') ∧
  (∃ f, let '(r, s') := security_increment s in
        let '(r', w') := counter_increment (set_faults [f] w) in r = r' ∧ counts key s' w') ∧
  wp unseal_key (λ r s', counts key s' w ∧ (r = Ret key ∨ r = Throw runtime_error)) s.
Proof.
  intros (n & o & Hp & Ho & Hw). split_and!.
  - pose proof (security_read_spec s n o key Hp Ho) as Hr. unfold wp in Hr.
    destruct (security_read s) as [r s']. destruct Hr as ([Ht Ha] & Ho' & Hr). simpl in *.
    assert (counts key s' w) as Hc by (exists n, o; rewrite Ht; done).
    destruct Hr as [[-> _]| ->]; [exists NoFault|exists FailBefore]; simpl; split; try done.
    by rewrite Hw.
  - pose proof (security_increment_spec s n o key Hp) as Hr. unfold wp in Hr.
    destruct (security_increment s) as [r s']. destruct Hr as [Ho' Hr]. simpl in *.
    destruct Hr as [[Hp' ->]|[Hp' [->| ->]]]; [exists FailBefore|exists NoFault|exists FailAfter];
      simpl; split; try done; [exists n, o|exists (n + 1), o|exists (n + 1), o]; rewrite Ho'; simpl;
      (split_and!; [done|done|lia]).
  - eapply wp_mono; [|by eapply unseal_key_spec]. intros r s' [[Ht Ha] Hr].
    split; [|naive_solver]. exists n, o. rewrite Ht. split_and!; [done|naive_solver|done].
Qed.

Definition example_provisioned : Security := (provision example_security).2.
Definition example_counter_world : World :=
  mkWorld ∅ 0 false [] true None None 0 0 [] [].

Lemma security_refines_counter_witness :
  ∃ f, let '(r, s') := security_increment example_provisioned in
       let '(r', w') := counter_increment (set_faults [f] example_counter_world) in
       r = r' ∧ counts (replicate 32 7) s' w'.
Proof.
  apply (security_refines_counter (replicate 32 7) example_provisioned example_counter_world).
  exists 1, 1. split_and!; [|right; vm_compute; reflexivity|vm_compute; reflexivity].
  split; [vm_compute; reflexivity..|unfold U64_MAX; lia].
Defined.
