(* ===== verification/Authorization.v ===== *)
(** * The authorisation of the store (src/src/storage/authorization.cpp, authorization.hpp,
      src/vauthctl/src/provisioning.cpp)

    The TPM objects of the store are guarded by a short text.  [StoreAuthorization] reads it
    from a credential file; vauthctl creates it once, shows it to the administrator and has
    systemd-creds encrypt it.  What the system calls answer is data. *)
From Stdlib Require Import ZArith Lia.
From stdpp Require Import base list strings.
From S2P Require Import Prelude VerifierProtocol AgentService StoreSecurity.

(** ** Reading the credential (authorization.cpp) *)

Inductive StoreAuthorizationOrigin := explicit_file | systemd_credential.

Record StoreAuthorizationInput := mkAuthInput {
  ai_path : list Z;
  ai_origin : StoreAuthorizationOrigin;
}.

(** [struct stat] as the code looks at it. *)
Record FileStat := mkStat {
  st_regular : bool;
  st_nlink : Z;
  st_uid : Z;
  st_mode : Z;
  st_size : Z;
}.

(** The answers of [open], [fstat] and each [read]. *)
Record AuthFile := mkAuthFile {
  af_open : bool;
  af_stat : option FileStat;
  af_reads : list read_result;
}.

(** [while(offset < size_)]: a [read] delivers at most what is missing; none left is end of
    file. *)
Fixpoint read_bytes (size : Z) (bytes : list Z) (reads : list read_result) : res (list Z) :=
  if size <=? len bytes then Ret bytes else
  match reads with
  | ReadBytes data :: reads =>
      let data := take (Z.to_nat (size - len bytes)) data in
      if len data =? 0 then Throw runtime_error else read_bytes size (bytes ++ data) reads
  | ReadEintr :: reads => read_bytes size bytes reads
  | _ => Throw runtime_error
  end.

Definition MODE_0400 : Z := 256.
Definition MODE_0440 : Z := 288.
Definition NEWLINE : Z := 10.
Definition RETURN : Z := 13.

Definition valid_mode (origin : StoreAuthorizationOrigin) (mode : Z) : bool :=
  (mode =? MODE_0400) ||
  (match origin with systemd_credential => true | explicit_file => false end && (mode =? MODE_0440)).

(** [if(size_ > 0 && bytes_[size_ - 1] == c) --size_;] *)
Definition strip_last (c : Z) (bytes : list Z) : list Z :=
  match last bytes with
  | Some b => if b =? c then take (length bytes - 1) bytes else bytes
  | None => bytes
  end.

Definition read_authorization (origin : StoreAuthorizationOrigin) (euid : Z) (file : AuthFile)
    : res (list Z) :=
  throw_if negb (af_open file) as system_error ;;
  match af_stat file with
  | None => Throw system_error
  | Some st =>
      throw_if negb (st_regular st) || negb (st_nlink st =? 1) as runtime_error ;;
      throw_if negb (st_uid st =? euid) && negb (st_uid st =? 0) as runtime_error ;;
      throw_if negb (valid_mode origin (Z.land (st_mode st) 511)) as runtime_error ;;
      throw_if (st_size st <? 1) || (34 <? st_size st) as runtime_error ;;
      bytes ← read_bytes (st_size st) [] (af_reads file);
      let view := strip_last RETURN (strip_last NEWLINE bytes) in
      throw_if (len view =? 0) || (32 <? len view) || contains_nul view as runtime_error ;;
      Ret view
  end.

Definition CREDENTIAL_NAME : list Z := lit "vauth-db-auth".

(** [std::filesystem::path::operator/] with a relative name: a separator unless there is one. *)
Definition path_append (directory name : list Z) : list Z :=
  match last directory with
  | Some b => if b =? 47 then directory ++ name else directory ++ lit "/" ++ name
  | None => name
  end.

Definition store_authorization_path (explicit_path : option (list Z))
    (credentials_directory : option (list Z)) : res StoreAuthorizationInput :=
  match explicit_path with
  | Some path => Ret (mkAuthInput path explicit_file)
  | None =>
      match credentials_directory with
      | None | Some [] => Throw runtime_error
      | Some directory =>
          Ret (mkAuthInput (path_append directory CREDENTIAL_NAME) systemd_credential)
      end
  end.

(** ** A new authorisation (provisioning.cpp) *)

Definition RANDOM_SIZE : Z := 24.
Definition ENCODED_SIZE : Z := 32.
Definition BASE64URL : list Z :=
  lit "ABCDEFGHIJKLMNOPQRSTUVWXYZabcdefghijklmnopqrstuvwxyz0123456789-_".

Definition base64_char (value shift : Z) : Z :=
  byte_at BASE64URL (Z.to_nat (Z.land (Z.shiftr value shift) 63)).

(** Three bytes become four characters. *)
Fixpoint base64url (random : list Z) : list Z :=
  match random with
  | b0 :: b1 :: b2 :: rest =>
      let value := Z.lor (Z.lor (Z.shiftl b0 16) (Z.shiftl b1 8)) b2 in
      [base64_char value 18; base64_char value 12; base64_char value 6; base64_char value 0]
        ++ base64url rest
  | _ => []
  end.

(** [RAND_bytes]: the bytes, or a failure. *)
Definition ProvisioningAuthorization_new (random : option (list Z)) : res (list Z) :=
  match random with
  | None => Throw runtime_error
  | Some bytes => Ret (base64url bytes)
  end.

(** ** Installing it *)

(** A file: its attributes and its contents. *)
Record CredFile := mkCredFile { cf_stat : FileStat; cf_contents : list Z }.

(** The directory of the encrypted credential: the credential, the temporary file, and what
    was shown to the administrator. *)
Record CredDir := mkCredDir {
  cd_credential : option CredFile;
  cd_temporary : option CredFile;
  cd_shown : list (list Z);
}.

Record DirectoryStat := mkDirStat { ds_isdir : bool; ds_uid : Z; ds_mode : Z }.
Inductive mkdir_result := mkdir_done | mkdir_exists | mkdir_failed.
Inductive lstat_result := lstat_found | lstat_enoent | lstat_failed.
Inductive link_result := link_done | link_exists | link_failed.

Definition MODE_0700 : Z := 448.
Definition MODE_0600 : Z := 384.

Definition ensure_credential_directory (made : mkdir_result) (inspected : option DirectoryStat)
    : res () :=
  match made with
  | mkdir_failed => Throw system_error
  | _ =>
      match inspected with
      | None => Throw system_error
      | Some st =>
          throw_if negb (ds_isdir st) || negb (ds_uid st =? 0) ||
                   negb (Z.land (ds_mode st) 511 =? MODE_0700) as runtime_error ;;
          Ret ()
      end
  end.

(** [lstat] of the credential; [ok] is whether the call itself works. *)
Definition credential_exists (ok : bool) : ST CredDir bool := λ d,
  if negb ok then (Throw system_error, d) else
  match cd_credential d with
  | Some f => if negb (st_regular (cf_stat f)) then (Throw runtime_error, d) else (Ret true, d)
  | None => (Ret false, d)
  end.

(** [mkstemp], then [unlink]: a path that does not exist. *)
Definition temporary_output_path (made unlinked : bool) : ST CredDir () :=
  if negb made then st_throw system_error else
  if negb unlinked then st_throw system_error else st_ret ().

(** One answer of [send]. *)
Inductive send_answer := sent (count : Z) | send_eintr | send_error.

Fixpoint send_all (value : list Z) (answers : list send_answer) : res () :=
  match value with
  | [] => Ret ()
  | _ :: _ =>
      match answers with
      | [] => Throw system_error
      | send_eintr :: answers => send_all value answers
      | send_error :: _ => Throw system_error
      | sent count :: answers =>
          if count <=? 0 then Throw runtime_error
          else send_all (drop (Z.to_nat count) value) answers
      end
  end.

(** What [waitpid] reports. *)
Inductive child_status := child_exited (code : Z) | child_signalled (signal : Z) | child_other | child_wait_error.

Definition wait_for (status : child_status) : res Z :=
  match status with
  | child_exited code => Ret code
  | child_signalled signal => Ret (128 + signal)
  | child_other => Throw runtime_error
  | child_wait_error => Throw system_error
  end.

(** systemd-creds: the socket pair, the codes of the spawn calls, the sends, how the child
    ends and the file it leaves under the output path for the text it was sent. *)
Record Creds := mkCreds {
  cr_socketpair : bool;
  cr_codes : list Z;
  cr_sends : list send_answer;
  cr_status : child_status;
  cr_output : option CredFile;
}.

Definition encrypt_authorization (authorization : list Z) (c : Creds) : ST CredDir () :=
  if negb (cr_socketpair c) then st_throw system_error else
  if existsb (λ rc, negb (rc =? 0)) (cr_codes c) then st_throw system_error else
  let sendError := send_all authorization (cr_sends c) in
  let! _ := st_modify (λ d, mkCredDir (cd_credential d) (cr_output c) (cd_shown d)) in
  let! result := st_lift (wait_for (cr_status c)) in
  let! _ := st_lift sendError in
  if negb (result =? 0) then st_throw runtime_error else st_ret ().

Record ProvisionInput := mkProvisionInput {
  pi_euid : Z;
  pi_mkdir : mkdir_result;
  pi_dir : option DirectoryStat;
  pi_lstat : bool;
  pi_interactive : bool;
  pi_random : option (list Z);
  pi_answer : option (list Z);     (** the line typed, up to a NUL; [None] when reading failed *)
  pi_mkstemp : bool;
  pi_unlink_first : bool;
  pi_creds : Creds;
  pi_lstat_temporary : bool;
  pi_chmod : bool;
  pi_appeared : option CredFile;   (** installed by someone else before [link] *)
  pi_link : link_result;
  pi_unlink : bool;
  pi_unlink_last : bool;           (** the destructor's *)
}.

Definition CONFIRMATION : list Z := lit "SAVED".

(** Someone else may install the credential at any time before the link. *)
Definition others_install (f : option CredFile) : ST CredDir () :=
  st_modify (λ d, match cd_credential d with
                  | Some _ => d
                  | None => mkCredDir f (cd_temporary d) (cd_shown d)
                  end).

(** [link]: a second name for the temporary file, unless the name is taken. *)
Definition link_credential (r : link_result) : ST CredDir () := λ d,
  match r, cd_credential d with
  | link_failed, _ => (Throw system_error, d)
  | _, Some _ => (Throw runtime_error, d)
  | link_exists, None => (Throw runtime_error, d)
  | link_done, None => (Ret (), mkCredDir (cd_temporary d) (cd_temporary d) (cd_shown d))
  end.

(** [unlink] of the temporary file. *)
Definition remove_temporary : ST CredDir () :=
  st_modify (λ d, mkCredDir (cd_credential d) None (cd_shown d)).

(** From the encryption to the final [unlink]. *)
Definition install_credential (i : ProvisionInput) (authorization : list Z) : ST CredDir () :=
  let! _ := encrypt_authorization authorization (pi_creds i) in
  let! d := st_get in
  match (if pi_lstat_temporary i then cd_temporary d else None) with
  | None => st_throw system_error
  | Some f =>
      let st := cf_stat f in
      if negb (st_regular st) || negb (st_uid st =? 0) || negb (st_nlink st =? 1) || (st_size st =? 0)
      then st_throw runtime_error else
      if negb (pi_chmod i) then st_throw system_error else
      let! _ := st_modify (λ d, mkCredDir (cd_credential d)
        (Some (mkCredFile (mkStat (st_regular st) (st_nlink st) (st_uid st) MODE_0600 (st_size st))
           (cf_contents f))) (cd_shown d)) in
      let! _ := others_install (pi_appeared i) in
      let! _ := link_credential (pi_link i) in
      if negb (pi_unlink i) then st_throw system_error else remove_temporary
  end.

(** [~TemporaryFile]: the file is removed however [m] ends, if [unlink] works. *)
Definition with_temporary (unlinked : bool) (m : ST CredDir ()) : ST CredDir () := λ d,
  let '(r, d') := m d in
  (r, if unlinked then (remove_temporary d').2 else d').

Definition ensure_provisioning_authorization (i : ProvisionInput) : ST CredDir () :=
  if negb (pi_euid i =? 0) then st_throw runtime_error else
  let! _ := st_lift (ensure_credential_directory (pi_mkdir i) (pi_dir i)) in
  let! exists_ := credential_exists (pi_lstat i) in
  if (exists_ : bool) then st_ret () else
  if negb (pi_interactive i) then st_throw runtime_error else
  let! authorization := st_lift (ProvisioningAuthorization_new (pi_random i)) in
  let! _ := st_modify (λ d, mkCredDir (cd_credential d) (cd_temporary d) (cd_shown d ++ [authorization])) in
  if negb (bool_decide (pi_answer i = Some CONFIRMATION)) then st_throw runtime_error else
  let! _ := temporary_output_path (pi_mkstemp i) (pi_unlink_first i) in
  with_temporary (pi_unlink_last i) (install_credential i authorization).

(** ** Reading what is there *)

(** The chunks in which [read] delivers some contents, with interruptions. *)
Fixpoint delivers (reads : list read_result) (contents : list Z) : Prop :=
  match reads with
  | [] => contents = []
  | ReadEintr :: reads => delivers reads contents
  | ReadBytes data :: reads => data ≠ [] ∧ ∃ rest, contents = data ++ rest ∧ delivers reads rest
  | _ => False
  end.

Lemma read_bytes_delivers reads size bytes contents :
  delivers reads contents → len bytes + len contents = size →
  read_bytes size bytes reads = Ret (bytes ++ contents).
Proof.
  revert bytes contents. induction reads as [|[data| | |] reads IH]; intros bytes contents Hd Hl; simpl in Hd |- *.
  - subst. rewrite (proj2 (Z.leb_le _ _)) by (simpl; lia). by rewrite app_nil_r.
  - destruct Hd as (Hne & rest & -> & Hd). rewrite length_app in Hl.
    assert (length data ≠ 0%nat) by (by destruct data).
    rewrite (proj2 (Z.leb_gt _ _)) by lia. rewrite take_ge by lia.
    rewrite (proj2 (Z.eqb_neq _ _)) by lia. rewrite (IH _ rest Hd) by (rewrite length_app; lia).
    by rewrite app_assoc.
  - destruct (Z.leb_spec size (len bytes)); [|by apply IH].
    assert (contents = []) as -> by (destruct contents; [done|simpl in Hl; lia]). by rewrite app_nil_r.
  - done.
  - done.
Qed.

(** What the checks on the file ask for. *)
Definition acceptable (origin : StoreAuthorizationOrigin) (euid : Z) (st : FileStat) : Prop :=
  st_regular st = true ∧ st_nlink st = 1 ∧ (st_uid st = euid ∨ st_uid st = 0) ∧
  (Z.land (st_mode st) 511 = MODE_0400 ∨
   origin = systemd_credential ∧ Z.land (st_mode st) 511 = MODE_0440).

Definition usable (authorization : list Z) : Prop :=
  1 ≤ len authorization ≤ 32 ∧ contains_nul authorization = false.

Lemma valid_mode_spec origin mode :
  valid_mode origin mode = true ↔
  mode = MODE_0400 ∨ origin = systemd_credential ∧ mode = MODE_0440.
Proof.
  unfold valid_mode. rewrite orb_true_iff, andb_true_iff, !Z.eqb_eq. destruct origin; naive_solver.
Qed.

(** An accepted credential. *)
Lemma read_authorization_ret origin euid file view :
  read_authorization origin euid file = Ret view →
  ∃ st, af_stat file = Some st ∧ acceptable origin euid st ∧ 1 ≤ st_size st ≤ 34 ∧ usable view.
Proof.
  unfold read_authorization. rewrite throw_if_ret. intros [_ E].
  destruct (af_stat file) as [st|]; [|done]. exists st. revert E. rewrite !throw_if_ret.
  intros (Hreg & Hu & Hm & Hs & E).
  destruct (read_bytes _ _ _) as [bytes|]; [|done]. simpl in E. apply throw_if_ret in E as [Hv [= <-]].
  reflect_bools. apply valid_mode_spec in Hm. unfold acceptable, usable.
  split_and!; try done; try lia.
Qed.

(** A credential whose bytes are delivered, in whatever pieces. *)
Lemma read_authorization_accepts origin euid st reads contents :
  acceptable origin euid st → st_size st = len contents → 1 ≤ len contents ≤ 34 →
  delivers reads contents → usable (strip_last RETURN (strip_last NEWLINE contents)) →
  read_authorization origin euid (mkAuthFile true (Some st) reads) =
    Ret (strip_last RETURN (strip_last NEWLINE contents)).
Proof.
  intros (Hreg & Hn & Hu & Hm) Hs Hl Hd [Hv Hnul]. unfold read_authorization. simpl.
  rewrite Hreg, Hn. cbn [negb orb]. rewrite Z.eqb_refl. cbn [negb].
  assert (negb (st_uid st =? euid) && negb (st_uid st =? 0) = false) as ->.
  { destruct Hu as [->| ->]; rewrite Z.eqb_refl; simpl; [done|]. by rewrite andb_false_r. }
  rewrite (proj2 (valid_mode_spec _ _) Hm). cbn [negb].
  assert ((st_size st <? 1) || (34 <? st_size st) = false) as ->.
  { apply orb_false_iff; split; apply Z.ltb_ge; lia. }
  rewrite (read_bytes_delivers reads _ [] contents Hd) by (simpl; lia). simpl.
  set (view := strip_last RETURN (strip_last NEWLINE contents)) in *.
  assert ((len view =? 0) || (32 <? len view) || contains_nul view = false) as ->; [|done].
  rewrite Hnul, orb_false_r. apply orb_false_iff; split; [apply Z.eqb_neq|apply Z.ltb_ge]; lia.
Qed.

(** ** The text of a new authorisation *)

(** Reading the characters back. *)
Definition base64_index (c : Z) : Z :=
  match list_find (λ x, x = c) BASE64URL with Some (i, _) => Z.of_nat i | None => 0 end.

Fixpoint base64url_decode (text : list Z) : list Z :=
  match text with
  | c0 :: c1 :: c2 :: c3 :: rest =>
      let v := ((base64_index c0 * 64 + base64_index c1) * 64 + base64_index c2) * 64 + base64_index c3 in
      [v / 65536; v / 256 mod 256; v mod 256] ++ base64url_decode rest
  | _ => []
  end.

Definition plain_char (c : Z) : bool := (33 <=? c) && (c <? 127).

Lemma base64_alphabet v :
  0 ≤ v < 64 → base64_index (byte_at BASE64URL (Z.to_nat v)) = v ∧
    plain_char (byte_at BASE64URL (Z.to_nat v)) = true.
Proof.
  intros Hv.
  assert (forallb (λ v, (base64_index (byte_at BASE64URL (Z.to_nat v)) =? v) &&
    plain_char (byte_at BASE64URL (Z.to_nat v))) (seqZ 0 64) = true) as Hall by (vm_compute; reflexivity).
  rewrite forallb_forall in Hall. specialize (Hall v).
  rewrite <- list_elem_of_In, elem_of_seqZ, andb_true_iff, Z.eqb_eq in Hall. apply Hall. lia.
Qed.

Lemma base64_char_spec value shift :
  0 ≤ shift → base64_index (base64_char value shift) = value / 2 ^ shift mod 64 ∧
    plain_char (base64_char value shift) = true.
Proof.
  intros Hs. unfold base64_char. change 63 with (Z.ones 6).
  rewrite Z.land_ones, Z.shiftr_div_pow2 by lia. change (2 ^ 6) with 64. apply base64_alphabet.
  apply Z.mod_pos_bound. lia.
Qed.

Lemma join24 b0 b1 b2 :
  is_u8 b0 → is_u8 b1 → is_u8 b2 →
  Z.lor (Z.lor (Z.shiftl b0 16) (Z.shiftl b1 8)) b2 = b0 * 65536 + b1 * 256 + b2.
Proof.
  intros ???. replace (Z.shiftl b0 16) with (Z.shiftl (Z.shiftl b0 8) 8) by (by rewrite Z.shiftl_shiftl).
  rewrite <- Z.shiftl_lor, !lor_shiftl_add by (change (2 ^ 8) with 256; lia). lia.
Qed.

Lemma base64url_spec k random :
  bytes_ok random → length random = (3 * k)%nat →
  base64url_decode (base64url random) = random ∧ length (base64url random) = (4 * k)%nat ∧
  forallb plain_char (base64url random) = true.
Proof.
  revert random. induction k as [|k IH]; intros random Hb Hl.
  { by destruct random. }
  destruct random as [|b0 [|b1 [|b2 random]]]; simpl in Hl; try lia.
  rewrite !bytes_ok_cons in Hb. destruct Hb as (H0 & H1 & H2 & Hb).
  destruct (IH random Hb) as (Hd & Hlen & Hp); [lia|]. cbn [base64url]. rewrite join24 by done.
  set (v := b0 * 65536 + b1 * 256 + b2). cbn [app base64url_decode forallb length].
  destruct (base64_char_spec v 18) as [-> ->]; [done|]. destruct (base64_char_spec v 12) as [-> ->]; [done|].
  destruct (base64_char_spec v 6) as [-> ->]; [done|]. destruct (base64_char_spec v 0) as [-> ->]; [done|].
  rewrite Hd, Hp. split_and!; [|lia|done].
  assert (((v / 2 ^ 18 mod 64 * 64 + v / 2 ^ 12 mod 64) * 64 + v / 2 ^ 6 mod 64) * 64 + v / 2 ^ 0 mod 64 = v) as ->.
  { assert (0 ≤ v < 16777216) by (subst v; lia).
    change (2 ^ 18) with 262144. change (2 ^ 12) with 4096. change (2 ^ 6) with 64. change (2 ^ 0) with 1.
    Z.to_euclidean_division_equations. lia. }
  subst v. f_equal; [|f_equal; [|f_equal]]; Z.to_euclidean_division_equations; lia.
Qed.

Lemma plain_usable text :
  forallb plain_char text = true → 1 ≤ len text ≤ 32 →
  usable text ∧ strip_last RETURN (strip_last NEWLINE text) = text ∧
  strip_last RETURN (strip_last NEWLINE (text ++ [NEWLINE])) = text ∧
  strip_last RETURN (strip_last NEWLINE (text ++ [RETURN; NEWLINE])) = text.
Proof.
  intros Hp Hl.
  assert (∀ c, c = NEWLINE ∨ c = RETURN → strip_last c text = text) as Hstrip.
  { intros c Hc. unfold strip_last. destruct (last text) as [b|] eqn:Eb; [|done].
    apply last_Some_elem_of in Eb. rewrite forallb_forall in Hp.
    specialize (Hp b (proj1 (list_elem_of_In _ _) Eb)). unfold plain_char in Hp. reflect_bools.
    rewrite (proj2 (Z.eqb_neq _ _)); [done|]. unfold NEWLINE, RETURN in Hc. lia. }
  assert (∀ c l, strip_last c (l ++ [c]) = l) as Hsnoc.
  { intros c l. unfold strip_last. rewrite last_snoc, Z.eqb_refl, length_app, take_app_length'; [done|simpl; lia]. }
  split_and!.
  - split; [done|]. unfold contains_nul. apply not_true_iff_false. rewrite existsb_exists.
    intros (b & Hin & Hb%Z.eqb_eq). rewrite forallb_forall in Hp. specialize (Hp b Hin).
    subst b. done.
  - rewrite !Hstrip by auto. done.
  - rewrite Hsnoc. by apply Hstrip; right.
  - change [RETURN; NEWLINE] with ([RETURN] ++ [NEWLINE]). by rewrite app_assoc, !Hsnoc.
Qed.

(** ** Properties *)

(** The authorisation that provisioning creates works.  From 24 random bytes it makes a
    text of 32 characters that determines the bytes; a credential file with that text, with or
    without an end of line, of a root-owned 0400 file, is read back as exactly that text
    however the reads are split and interrupted; and the TPM objects accept it as their
    authorisation. *)
Theorem authorization_roundtrip `{Fapi} random origin euid st reads ending t :
  bytes_ok random → len random = RANDOM_SIZE →
  ending = [] ∨ ending = [NEWLINE] ∨ ending = [RETURN; NEWLINE] →
  acceptable origin euid st → st_size st = ENCODED_SIZE + len ending →
  delivers reads (base64url random ++ ending) →
  Fapi_Initialize t = TSS2_RC_SUCCESS → Fapi_SetAuthCB t = TSS2_RC_SUCCESS →
  len (base64url random) = ENCODED_SIZE ∧ base64url_decode (base64url random) = random ∧
  read_authorization origin euid (mkAuthFile true (Some st) reads) = Ret (base64url random) ∧
  FapiStoreSecurity_new (base64url random) t = Ret (mkSecurity (base64url random) None t).
Proof.
  intros Hb Hl Hend Hacc Hsize Hdel Hi1 Hi2. unfold RANDOM_SIZE, ENCODED_SIZE in *.
  destruct (base64url_spec 8 random Hb) as (Hdec & Hlen & Hp); [lia|].
  destruct (plain_usable _ Hp) as (Hu & Hs0 & Hs1 & Hs2); [lia|].
  assert (strip_last RETURN (strip_last NEWLINE (base64url random ++ ending)) = base64url random) as Hstrip.
  { destruct Hend as [->|[->| ->]]; [by rewrite app_nil_r|done..]. }
  assert (len ending ≤ 2) by (destruct Hend as [->|[->| ->]]; simpl; lia).
  split_and!; [lia|done| |].
  - rewrite (read_authorization_accepts _ _ _ _ (base64url random ++ ending));
      rewrite ?length_app; rewrite ?Hstrip; try done; lia.
  - unfold FapiStoreSecurity_new. destruct Hu as [_ Hnul]. rewrite Hnul, Hi1, Hi2.
    rewrite (proj2 (Z.eqb_neq _ _)), (proj2 (Z.ltb_ge _ _)) by lia. done.
Qed.

Definition example_random : list Z := seqZ 100 24.
Definition example_stat : FileStat := mkStat true 1 0 MODE_0400 33.

Lemma authorization_roundtrip_witness :
  read_authorization explicit_file 990 (mkAuthFile true (Some example_stat)
    [ReadBytes (take 5 (base64url example_random)); ReadEintr;
     ReadBytes (drop 5 (base64url example_random) ++ [NEWLINE])]) = Ret (base64url example_random).
Proof.
  apply (authorization_roundtrip (H:=toy_fapi) example_random explicit_file 990 example_stat
    [ReadBytes (take 5 (base64url example_random)); ReadEintr;
     ReadBytes (drop 5 (base64url example_random) ++ [NEWLINE])] [NEWLINE] (λ _, None)).
  - apply bytes_okb_ok. vm_compute. reflexivity.
  - reflexivity.
  - right; left; reflexivity.
  - split_and!; [reflexivity..|right; reflexivity|left; reflexivity].
  - reflexivity.
  - vm_compute. split; [discriminate|]. eexists. split; [reflexivity|].
    split; [discriminate|]. exists []. split; reflexivity.
  - reflexivity.
  - reflexivity.
Defined.

(** ** Installing the credential *)

(** The file that [link] gives its final name: what systemd-creds made of the whole
    authorisation, checked, with mode 0600. *)
Definition complete_credential (i : ProvisionInput) (authorization : list Z) (f : CredFile) : Prop :=
  ∃ out, cr_output (pi_creds i) = Some out ∧ cf_contents f = cf_contents out ∧
    st_regular (cf_stat f) = true ∧ st_uid (cf_stat f) = 0 ∧ st_size (cf_stat f) ≠ 0 ∧
    st_mode (cf_stat f) = MODE_0600 ∧
    send_all authorization (cr_sends (pi_creds i)) = Ret () ∧ wait_for (cr_status (pi_creds i)) = Ret 0.

(** How an installation leaves the directory, from one without a credential. *)
Definition install_outcome (i : ProvisionInput) (authorization : list Z) (shown : list (list Z))
    (r : res ()) (d : CredDir) : Prop :=
  cd_shown d = shown ∧
  match r with
  | Ret _ => cd_temporary d = None ∧
      ∃ f, cd_credential d = Some f ∧ complete_credential i authorization f
  | Throw _ => cd_credential d = None ∨ cd_credential d = pi_appeared i ∨
      ∃ f, cd_credential d = Some f ∧ complete_credential i authorization f ∧ pi_unlink i = false
  end.

Lemma encrypt_authorization_spec a c d :
  wp (encrypt_authorization a c) (λ r d', cd_credential d' = cd_credential d ∧ cd_shown d' = cd_shown d ∧
    (r = Ret () → cd_temporary d' = cr_output c ∧ wait_for (cr_status c) = Ret 0 ∧
       send_all a (cr_sends c) = Ret ())) d.
Proof.
  unfold encrypt_authorization. destruct (cr_socketpair c); [|done].
  destruct (existsb _ (cr_codes c)); [done|]. apply wp_bind, wp_modify, wp_bind, wp_lift.
  destruct (wait_for (cr_status c)) as [code|]; [|done]. apply wp_bind, wp_lift.
  destruct (send_all a (cr_sends c)) as [[]|]; [|done].
  destruct (code =? 0) eqn:Ec; [|done]. apply Z.eqb_eq in Ec as ->. by apply wp_ret.
Qed.

Lemma install_spec i a d :
  cd_credential d = None →
  wp (install_credential i a) (install_outcome i a (cd_shown d)) d.
Proof.
  intros Hd. apply wp_bind. eapply wp_mono; [|apply encrypt_authorization_spec].
  intros [[]|e] d1 (Hc1 & Hs1 & H1); [|split; [done|left; congruence]].
  destruct (H1 eq_refl) as (Ht1 & Hw & Hsend). clear H1. apply wp_bind, wp_get.
  assert (∀ e, install_outcome i a (cd_shown d) (Throw e) d1) as Hfail
    by (intros e; split; [done|left; congruence]).
  destruct (pi_lstat_temporary i); [|by apply wp_throw].
  destruct (cd_temporary d1) as [f|] eqn:Et; [|by apply wp_throw].
  cbv zeta. destruct (_ || (st_size (cf_stat f) =? 0)) eqn:Eck; [by apply wp_throw|]. reflect_bools.
  destruct (pi_chmod i); [|by apply wp_throw]. cbn [negb].
  apply wp_bind, wp_modify, wp_bind, wp_modify, wp_bind. cbn [cd_credential cd_temporary cd_shown].
  rewrite Hc1, Hd. unfold wp at 1, link_credential. cbn [cd_credential cd_temporary cd_shown].
  set (f' := mkCredFile _ _).
  assert (complete_credential i a f') as Hcomplete by (exists f; split_and!; done).
  destruct (pi_link i), (pi_appeared i) as [g|] eqn:Ea; cbn [fst snd];
    try (split; [done|right; left; by rewrite Ea]); try (split; [done|by left]).
  destruct (pi_unlink i) eqn:Eu; cbn [negb].
  - apply wp_modify. split; [done|]. split; [done|]. by exists f'.
  - apply wp_throw. split; [done|]. right; right. by exists f'.
Qed.

Definition provision_result (i : ProvisionInput) (d : CredDir) (r : res ()) (d' : CredDir) : Prop :=
  match cd_credential d with
  | Some f => cd_credential d' = Some f ∧ cd_shown d' = cd_shown d
  | None =>
      (r = Ret () → ∃ random f, pi_random i = Some random ∧ pi_answer i = Some CONFIRMATION ∧
         cd_shown d' = cd_shown d ++ [base64url random] ∧ cd_temporary d' = None ∧
         cd_credential d' = Some f ∧ complete_credential i (base64url random) f) ∧
      (is_ret r = false → cd_credential d' = None ∨ cd_credential d' = pi_appeared i ∨
         pi_unlink i = false ∧ ∃ random f, pi_random i = Some random ∧
           cd_credential d' = Some f ∧ complete_credential i (base64url random) f)
  end.

Lemma provision_unchanged i d d' e :
  cd_credential d' = cd_credential d → cd_shown d' = cd_shown d → provision_result i d (Throw e) d'.
Proof.
  intros Hc Hs. unfold provision_result. rewrite Hc.
  destruct (cd_credential d); [done|]. split; [done|]. by left.
Qed.

Lemma ensure_spec i d : wp (ensure_provisioning_authorization i) (provision_result i d) d.
Proof.
  unfold ensure_provisioning_authorization.
  destruct (negb (pi_euid i =? 0)); [by apply wp_throw, provision_unchanged|].
  apply wp_bind, wp_lift. destruct (ensure_credential_directory _ _); [|by apply provision_unchanged].
  apply wp_bind. unfold wp at 1, credential_exists.
  destruct (negb (pi_lstat i)); [by apply provision_unchanged|].
  destruct (cd_credential d) as [f|] eqn:Hd.
  { destruct (negb _); cbn [fst snd]; [by apply provision_unchanged|]. apply wp_ret.
    unfold provision_result. by rewrite Hd. }
  cbn [fst snd]. destruct (negb (pi_interactive i)); [by apply wp_throw, provision_unchanged|].
  apply wp_bind, wp_lift. destruct (pi_random i) as [random|] eqn:Hr; [|by apply provision_unchanged].
  cbn [ProvisioningAuthorization_new]. apply wp_bind, wp_modify.
  set (d1 := mkCredDir _ _ _). assert (∀ e, provision_result i d (Throw e) d1) as Hfail.
  { intros e. unfold provision_result. rewrite Hd. split; [done|]. by left. }
  case_bool_decide as Ha; [|by apply wp_throw]. cbn [negb].
  apply wp_bind. unfold temporary_output_path.
  destruct (negb (pi_mkstemp i)); [by apply wp_throw|].
  destruct (negb (pi_unlink_first i)); [by apply wp_throw|]. apply wp_ret.
  pose proof (install_spec i (base64url random) d1 Hd) as Hi. unfold wp, with_temporary in *.
  destruct (install_credential i (base64url random) d1) as [r d2]. cbn [fst snd] in *.
  destruct Hi as [Hs Hi]. unfold provision_result. rewrite Hd.
  destruct r as [[]|e]; split; try done.
  - intros _. destruct Hi as [Ht (f & Hf & Hc)]. exists random, f.
    by destruct (pi_unlink_last i); split_and!.
  - intros _. destruct Hi as [Hi|[Hi|(f & Hf & Hc & Hu)]];
      [left|right; left|right; right]; destruct (pi_unlink_last i); try done; (split; [done|by exists random, f]).
Qed.

(** Provisioning never replaces a credential and never installs half of one.  An
    existing credential stays as it is.  Where there was none, a call that returns has shown
    the new authorisation to the administrator, who confirmed that it is saved, and has
    installed exactly what systemd-creds made of that whole text, owned by root with mode
    0600, and removed the temporary file; a call that throws has installed nothing -- unless
    it could only not remove the temporary file afterwards -- and a credential that someone
    else installed in the meantime is kept. *)
Theorem credential_installed_once i d r d' :
  ensure_provisioning_authorization i d = (r, d') →
  match cd_credential d with
  | Some f => cd_credential d' = Some f ∧ cd_shown d' = cd_shown d
  | None =>
      (r = Ret () → ∃ random f, pi_random i = Some random ∧ pi_answer i = Some CONFIRMATION ∧
         cd_shown d' = cd_shown d ++ [base64url random] ∧ cd_temporary d' = None ∧
         cd_credential d' = Some f ∧ complete_credential i (base64url random) f) ∧
      (is_ret r = false → cd_credential d' = None ∨ cd_credential d' = pi_appeared i ∨
         pi_unlink i = false ∧ ∃ random f, pi_random i = Some random ∧
           cd_credential d' = Some f ∧ complete_credential i (base64url random) f)
  end.
Proof.
  intros E. exact (wp_run _ _ _ _ _ (ensure_spec i d) E).
Qed.

Definition example_output : CredFile := mkCredFile (mkStat true 1 0 420 64) (lit "ciphertext").
Definition example_provisioning : ProvisionInput :=
  mkProvisionInput 0 mkdir_exists (Some (mkDirStat true 0 MODE_0700)) true true (Some example_random)
    (Some CONFIRMATION) true true
    (mkCreds true [0; 0; 0; 0] [sent 20; send_eintr; sent 12] (child_exited 0) (Some example_output))
    true true None link_done true true.

Lemma credential_installed_once_witness :
  ∃ f, cd_credential (ensure_provisioning_authorization example_provisioning (mkCredDir None None [])).2 = Some f ∧
    complete_credential example_provisioning (base64url example_random) f.
Proof.
  destruct (credential_installed_once example_provisioning (mkCredDir None None []) (Ret ())
    (ensure_provisioning_authorization example_provisioning (mkCredDir None None [])).2) as [Hok _].
  - vm_compute. reflexivity.
  - destruct (Hok eq_refl) as (random & f & Hr & _ & _ & _ & Hf & Hc).
    injection Hr as <-. exists f. exact (conj Hf Hc).
Defined.
