(* ===== verification/Listing.v ===== *)
(** * What vauthctl prints (src/vauthctl/src/commands.cpp, credential_id.hpp, options.cpp and
      src/src/log.cpp)

    The status report, the list of credentials and the hexadecimal identifiers the list shows
    and the [delete] command takes.  The state is the output stream, as the bytes written. *)
From Stdlib Require Import ZArith Lia.
From stdpp Require Import base list strings.
From S2P Require Import Prelude Hex CredentialStore.

(** ** Streams *)

Definition emit (text : list Z) : ST (list Z) () := st_modify (λ output, output ++ text).

(** [std::left << std::setw(width)]: padded on the right, never cut. *)
Definition setw_left (width : Z) (text : list Z) : list Z :=
  text ++ replicate (Z.to_nat width - length text) 32.

(** Decimal digits; [fuel] bounds their number. *)
Fixpoint decimal (fuel : nat) (n : Z) : list Z :=
  match fuel with
  | O => []
  | S fuel => if n <? 10 then [48 + n] else decimal fuel (n / 10) ++ [48 + n mod 10]
  end.

(** [std::to_string], and [<<], of an unsigned integer of at most 64 bits. *)
Definition to_string (n : Z) : list Z := decimal 20 n.

(** ** Colours (log.cpp) *)

Inductive Color :=
  | default_color | black | red | green | yellow | blue | magenta | cyan | white
  | bright_black | bright_red | bright_green | bright_yellow | bright_blue | bright_magenta
  | bright_cyan | bright_white.

Definition ESC : Z := 27.
Definition ansi (code : string) : list Z := ESC :: lit code.

Definition ANSI_RESET : list Z := ansi "[0m".

Definition color_code (color : Color) : list Z :=
  match color with
  | default_color => ansi "[39m"
  | black => ansi "[30m"
  | red => ansi "[31m"
  | green => ansi "[32m"
  | yellow => ansi "[33m"
  | blue => ansi "[34m"
  | magenta => ansi "[35m"
  | cyan => ansi "[36m"
  | white => ansi "[37m"
  | bright_black => ansi "[90m"
  | bright_red => ansi "[91m"
  | bright_green => ansi "[92m"
  | bright_yellow => ansi "[93m"
  | bright_blue => ansi "[94m"
  | bright_magenta => ansi "[95m"
  | bright_cyan => ansi "[96m"
  | bright_white => ansi "[97m"
  end.

Definition colorize (color : Color) (text : list Z) : list Z := color_code color ++ text ++ ANSI_RESET.

(** ** The status report *)

Record SystemdServiceState := mkServiceState { sv_status : list Z; sv_sub : list Z }.

Record StatusReport := mkReport {
  sr_daemonRunning : bool;
  sr_systemdService : option SystemdServiceState;
  sr_agentAvailable : option bool;
}.

(** The three queries; a D-Bus error that is not expected is thrown. *)
Record StatusQueries := mkQueries {
  sq_daemonRunning : res bool;
  sq_systemdService : res (option SystemdServiceState);
  sq_agentAvailable : res (option bool);
}.

(** The answer of one D-Bus call: a value, or the name of an error. *)
Inductive bus_answer (A : Type) := bus_value (a : A) | bus_error (name : list Z).
Arguments bus_value {A} a.
Arguments bus_error {A} name.

Definition service_disappeared (name : list Z) : bool :=
  bool_decide (name = lit "org.freedesktop.DBus.Error.ServiceUnknown") ||
  bool_decide (name = lit "org.freedesktop.DBus.Error.NameHasNoOwner").

(** An [sdbus::Error] is a [std::runtime_error]. *)
Definition bus_result {A} (answer : bus_answer A) : res A :=
  match answer with bus_value a => Ret a | bus_error _ => Throw runtime_error end.

Definition query_systemd_status (unit_path : bus_answer ()) (active_state sub_state : bus_answer (list Z))
    : res (option SystemdServiceState) :=
  match unit_path with
  | bus_error name =>
      if bool_decide (name = lit "org.freedesktop.systemd1.NoSuchUnit") then Ret None
      else Throw runtime_error
  | bus_value _ =>
      status ← bus_result active_state;
      sub ← bus_result sub_state;
      Ret (Some (mkServiceState status sub))
  end.

Definition query_daemon_status (name_has_owner : bus_answer bool) : res bool :=
  bus_result name_has_owner.

Definition query_agent_status (has_available_agent : bus_answer bool) : res (option bool) :=
  match has_available_agent with
  | bus_value agent_connected => Ret (Some agent_connected)
  | bus_error name => if service_disappeared name then Ret None else Throw runtime_error
  end.

Definition systemd_status_color (status : option SystemdServiceState) : Color :=
  match status with
  | None => bright_black
  | Some s =>
      if bool_decide (sv_status s = lit "inactive") then bright_black else
      if bool_decide (sv_status s = lit "failed") then red else
      if bool_decide (sv_status s = lit "active") && bool_decide (sv_sub s = lit "running") then green
      else yellow
  end.

Definition collect_status (queries : StatusQueries) : res StatusReport :=
  daemonRunning ← sq_daemonRunning queries;
  systemdService ← sq_systemdService queries;
  if negb daemonRunning then Ret (mkReport daemonRunning systemdService None) else
  agent_available ← sq_agentAvailable queries;
  match agent_available with
  | None => Ret (mkReport false systemdService None)
  | Some available => Ret (mkReport daemonRunning systemdService (Some available))
  end.

(** The bullet U+25CF and a space, in UTF-8. *)
Definition bullet (text : list Z) : list Z := [226; 151; 143; 32] ++ text.

Definition print_status (report : StatusReport) : ST (list Z) Z :=
  let running := sr_daemonRunning report in
  let! _ := emit (lit "Daemon status:" ++ [10] ++
    colorize (if running then green else red) (bullet (if running then lit "running" else lit "not running"))
    ++ [10] ++ lit "Systemd service status:" ++ [10]) in
  let! _ := emit (match sr_systemdService report with
    | Some state => colorize (systemd_status_color (sr_systemdService report))
        (bullet (sv_status state ++ lit " (" ++ sv_sub state ++ lit ")"))
    | None => colorize bright_black (bullet (lit "unit not loaded"))
    end) in
  let! _ := emit ([10] ++ lit "UI agent status:" ++ [10]) in
  let! _ := emit (if negb running then colorize red (bullet (lit "unavailable (daemon not running)"))
    else match sr_agentAvailable report with
         | None => colorize red (bullet (lit "status unavailable"))
         | Some available => colorize (if (available : bool) then green else red)
             (bullet (if available then lit "agent connected" else lit "agent not connected"))
         end) in
  let! _ := emit [10] in
  st_ret (if running then 0 else 1).

Definition get_status (queries : StatusQueries) : ST (list Z) Z :=
  let! report := st_lift (collect_status queries) in print_status report.

(** ** Credential identifiers *)

Definition MIN_CREDENTIAL_ID_SIZE : Z := 16.
Definition MAX_CREDENTIAL_ID_SIZE : Z := 1024.

Definition valid_credential_id_hex_length (length : Z) : bool :=
  (MIN_CREDENTIAL_ID_SIZE * 2 <=? length) && (length <=? MAX_CREDENTIAL_ID_SIZE * 2) &&
  (length mod 2 =? 0).

Definition is_hex_digit (digit : Z) : bool :=
  ((48 <=? digit) && (digit <=? 57)) || ((97 <=? digit) && (digit <=? 102)) ||
  ((65 <=? digit) && (digit <=? 70)).

(** The check of the [--id] option: whether the message is empty. *)
Definition credential_id_validator (value : list Z) : bool :=
  if negb (valid_credential_id_hex_length (len value)) then false else forallb is_hex_digit value.

Definition decode_credential_id (credentialId : list Z) : res (list Z) :=
  throw_if negb (valid_credential_id_hex_length (len credentialId)) as invalid_argument ;;
  hex_decode credentialId.

(** ** The list of credentials *)

Definition OWNER_WIDTH : Z := 8.
Definition RP_WIDTH : Z := 32.
Definition USER_WIDTH : Z := 24.
Definition TYPE_WIDTH : Z := 18.

Definition terminal_safe (input : list Z) : list Z :=
  (λ byte, if (byte <? 32) || (byte =? 127) then 63 else byte) <$> input.

Definition fit (text : list Z) (width : Z) : list Z :=
  if len text <=? width then text else
  if width <=? 3 then take (Z.to_nat width) text else
  take (Z.to_nat (width - 3)) text ++ lit "...".

(** [std::string(width - 1, '-') << ' '] *)
Definition rule (width : Z) : list Z := replicate (Z.to_nat (width - 1)) 45 ++ [32].

Definition print_header : ST (list Z) () :=
  let! _ := emit (setw_left OWNER_WIDTH (lit "OWNER") ++ setw_left RP_WIDTH (lit "RP ID") ++
    setw_left USER_WIDTH (lit "USER") ++ setw_left TYPE_WIDTH (lit "TYPE") ++
    lit "CREDENTIAL ID" ++ [10]) in
  emit (rule OWNER_WIDTH ++ rule RP_WIDTH ++ rule USER_WIDTH ++ rule TYPE_WIDTH ++
    lit "-------------" ++ [10]).

(** The two [continue]s of the loop. *)
Definition listed (ownerUid : option Z) (rp : option (list Z)) (credential : CredentialSummary) : bool :=
  match rp with Some rp => bool_decide (sm_rpId credential = rp) | None => true end &&
  match ownerUid with Some owner => sm_ownerUid credential =? owner | None => true end.

(** One row, up to the identifier. *)
Definition row_cells (credential : CredentialSummary) : list Z :=
  let user := if len (sm_userDisplayName credential) =? 0
              then sm_userName credential else sm_userDisplayName credential in
  setw_left OWNER_WIDTH (to_string (sm_ownerUid credential)) ++
  setw_left RP_WIDTH (fit (terminal_safe (sm_rpId credential)) (RP_WIDTH - 1)) ++
  setw_left USER_WIDTH (fit (terminal_safe user) (USER_WIDTH - 1)) ++
  setw_left TYPE_WIDTH (if sm_discoverable credential then lit "discoverable" else lit "non-discoverable").

(** The loop; the cells of a row are written before [hex_encode] can throw. *)
Fixpoint print_rows (credentials : list CredentialSummary) (ownerUid : option Z) (rp : option (list Z))
    (count : Z) : ST (list Z) Z :=
  match credentials with
  | [] => st_ret count
  | credential :: credentials =>
      if negb (listed ownerUid rp credential) then print_rows credentials ownerUid rp count else
      let! _ := (if count =? 0 then print_header else st_ret ()) in
      let! _ := emit (row_cells credential) in
      let! id := st_lift (hex_encode (sm_id credential)) in
      let! _ := emit (id ++ [10]) in
      print_rows credentials ownerUid rp (count + 1)
  end.

(** The filters in force, one line each. *)
Definition filter_lines (ownerUid : option Z) (rp : option (list Z)) : list (list Z) :=
  match ownerUid with
  | Some owner => [lit "Filtering by owner UID = " ++ to_string owner]
  | None => []
  end ++
  match rp with
  | Some rp => [lit "Filtering by Relying Party ID = " ++ terminal_safe rp]
  | None => []
  end.

Definition no_credentials_message (ownerUid : option Z) (rp : option (list Z)) : list Z :=
  lit "No credentials" ++
  match rp with Some rp => lit " with Relying Party ID: " ++ terminal_safe rp | None => [] end ++
  match ownerUid, rp with Some _, Some _ => lit " and" | _, _ => [] end ++
  match ownerUid with Some owner => lit " with Owner UID: " ++ to_string owner | None => [] end ++
  lit " available" ++ [10].

Definition print_credentials (credentials : list CredentialSummary) (ownerUid : option Z)
    (rp : option (list Z)) : ST (list Z) () :=
  let! _ := emit (filter_lines ownerUid rp ≫= λ line, line ++ [10]) in
  let! count := print_rows credentials ownerUid rp 0 in
  if negb (count =? 0) then st_ret ()
  else emit (colorize red (no_credentials_message ownerUid rp)).

(** ** Decimal numbers *)

Lemma decimal_digits fuel n : 0 ≤ n → Forall (λ d, 48 ≤ d ≤ 57) (decimal fuel n).
Proof.
  revert n. induction fuel as [|fuel IH]; intros n Hn; simpl; [constructor|].
  case_match eqn:E; reflect_bools; [repeat constructor; lia|].
  apply Forall_app. split; [apply IH, Z.div_pos; lia|].
  pose proof (Z.mod_pos_bound n 10). repeat constructor; lia.
Qed.

Lemma length_decimal k fuel n : (0 < k)%nat → n < 10 ^ Z.of_nat k → (length (decimal fuel n) ≤ k)%nat.
Proof.
  revert k n. induction fuel as [|fuel IH]; intros k n Hk Hn; simpl; [lia|].
  case_match eqn:E; reflect_bools; [simpl; lia|].
  destruct k as [|[|k]]; [lia|simpl in Hn; lia|]. rewrite length_app. simpl.
  assert (length (decimal fuel (n / 10)) ≤ S k)%nat; [|lia].
  apply IH; [lia|]. apply Z.div_lt_upper_bound; [lia|].
  replace (Z.of_nat (S (S k))) with (1 + Z.of_nat (S k)) in Hn by lia.
  by rewrite Z.pow_add_r in Hn by lia.
Qed.

Definition of_decimal (text : list Z) : Z := foldl (λ n d, 10 * n + (d - 48)) 0 text.

Lemma of_decimal_snoc text d : of_decimal (text ++ [d]) = 10 * of_decimal text + (d - 48).
Proof. unfold of_decimal. by rewrite foldl_app. Qed.

(** Enough fuel gives the number back. *)
Lemma of_decimal_decimal fuel n : 0 ≤ n < 10 ^ Z.of_nat fuel → of_decimal (decimal fuel n) = n.
Proof.
  revert n. induction fuel as [|fuel IH]; intros n Hn.
  { change (10 ^ Z.of_nat 0) with 1 in Hn. unfold of_decimal. simpl. lia. }
  cbn [decimal]. destruct (n <? 10) eqn:E; reflect_bools; [unfold of_decimal; simpl; lia|].
  assert (0 ≤ n / 10 < 10 ^ Z.of_nat fuel) as Hd.
  { split; [apply Z.div_pos; lia|]. apply Z.div_lt_upper_bound; [lia|].
    replace (Z.of_nat (S fuel)) with (1 + Z.of_nat fuel) in Hn by lia.
    rewrite Z.pow_add_r in Hn by lia. lia. }
  rewrite of_decimal_snoc, IH by exact Hd. pose proof (Z.div_mod n 10). lia.
Qed.

Lemma to_string_inj n n' : is_u64 n → is_u64 n' → to_string n = to_string n' → n = n'.
Proof.
  intros Hn Hn' E. rewrite <- (of_decimal_decimal 20 n), <- (of_decimal_decimal 20 n') by (simpl; lia).
  unfold to_string in E. by rewrite E.
Qed.

(** ** Printable text *)

Definition printable (b : Z) : Prop := 32 ≤ b ∧ b ≠ 127.

Lemma printable_text (l : list Z) :
  forallb (λ b, (32 <=? b) && negb (b =? 127)) l = true → Forall printable l.
Proof.
  intros Hl. apply Forall_forall. intros b Hb. rewrite forallb_forall in Hl.
  apply list_elem_of_In in Hb. specialize (Hl b Hb). reflect_bools. split; lia.
Qed.

Lemma to_string_printable n : 0 ≤ n → Forall printable (to_string n).
Proof.
  intros Hn. eapply Forall_impl; [by apply decimal_digits|]. intros d Hd. simpl in Hd. split; lia.
Qed.

Lemma terminal_safe_printable l : Forall printable (terminal_safe l).
Proof.
  unfold terminal_safe. induction l as [|b l IH]; simpl; constructor; [|exact IH].
  destruct ((b <? 32) || (b =? 127)) eqn:E; reflect_bools; split; lia.
Qed.

Lemma setw_printable w l : Forall printable l → Forall printable (setw_left w l).
Proof.
  intros Hl. apply Forall_app. split; [done|]. apply Forall_replicate. split; lia.
Qed.

Lemma fit_printable l w : Forall printable l → Forall printable (fit l w).
Proof.
  intros Hl. unfold fit. repeat case_match; [done|by apply Forall_take|].
  apply Forall_app. split; [by apply Forall_take|]. by apply printable_text.
Qed.

Lemma hex_printable id : bytes_ok id → Forall printable (hex_string id).
Proof.
  induction 1 as [|b id Hb Hid IH]; [constructor|]. rewrite hex_string_cons.
  apply Forall_app. split; [|exact IH].
  assert (∀ n, 0 ≤ n < 16 → printable (hex_digit n)) as Hd.
  { intros n Hn. unfold hex_digit. split; case_match; reflect_bools; lia. }
  pose proof (Z.div_pos b 16). pose proof (Z.div_lt_upper_bound b 16 16).
  pose proof (Z.mod_pos_bound b 16). repeat constructor; apply Hd; lia.
Qed.

#[export] Hint Resolve to_string_printable terminal_safe_printable setw_printable fit_printable
  hex_printable : vauth.

Lemma length_fit l w : 3 < w → len (fit l w) ≤ w.
Proof.
  intros Hw. unfold fit. repeat case_match; reflect_bools; [lia|lia|].
  rewrite length_app, length_take. change (length (lit "...")) with 3%nat. lia.
Qed.

Lemma length_setw w l : len l ≤ w → len (setw_left w l) = w.
Proof. intros Hl. unfold setw_left. rewrite length_app, length_replicate. lia. Qed.

(** ** The printed list *)

Definition unlines (lines : list (list Z)) : list Z := lines ≫= λ line, line ++ [10].

Lemma unlines_app l k : unlines (l ++ k) = unlines l ++ unlines k.
Proof. unfold unlines. apply bind_app. Qed.

Definition header_lines : list (list Z) :=
  [setw_left OWNER_WIDTH (lit "OWNER") ++ setw_left RP_WIDTH (lit "RP ID") ++
     setw_left USER_WIDTH (lit "USER") ++ setw_left TYPE_WIDTH (lit "TYPE") ++ lit "CREDENTIAL ID";
   rule OWNER_WIDTH ++ rule RP_WIDTH ++ rule USER_WIDTH ++ rule TYPE_WIDTH ++ lit "-------------"].

(** The line of one credential. *)
Definition row (credential : CredentialSummary) : list Z :=
  row_cells credential ++ hex_string (sm_id credential).

Definition id_ok (credential : CredentialSummary) : Prop :=
  bytes_ok (sm_id credential) ∧ 16 ≤ len (sm_id credential) ≤ 1024.

Definition shown (ownerUid : option Z) (rp : option (list Z)) (credentials : list CredentialSummary)
    : list CredentialSummary := filter (λ c, listed ownerUid rp c = true) credentials.

Lemma print_header_spec out : print_header out = (Ret (), out ++ unlines header_lines).
Proof.
  unfold print_header, st_bind, emit, st_modify. f_equal. by rewrite <- app_assoc.
Qed.

Lemma print_rows_spec creds owner rp count out :
  0 ≤ count → Forall id_ok creds →
  print_rows creds owner rp count out =
    (Ret (count + len (shown owner rp creds)),
     out ++ unlines ((if bool_decide (count = 0 ∧ shown owner rp creds ≠ []) then header_lines else [])
                     ++ (row <$> shown owner rp creds))).
Proof.
  revert count out. induction creds as [|c creds IH]; intros count out Hc Hok; cbn [print_rows].
  { unfold st_ret. rewrite bool_decide_eq_false_2 by naive_solver. simpl. by rewrite Z.add_0_r, app_nil_r. }
  apply Forall_cons in Hok as [[Hid Hlen] Hok]. unfold shown in *. rewrite filter_cons.
  destruct (listed owner rp c) eqn:El.
  2:{ rewrite decide_False by done. by apply IH. }
  rewrite decide_True by done.
  assert (∀ o, ((let! _ := emit (row_cells c) in let! id := st_lift (hex_encode (sm_id c)) in
                 let! _ := emit (id ++ [10]) in print_rows creds owner rp (count + 1)) o) =
               (Ret (count + len (c :: shown owner rp creds)),
                o ++ unlines (row <$> (c :: shown owner rp creds)))) as Hrest.
  { intros o. unfold st_bind, emit, st_modify, st_lift. rewrite hex_encode_bounded by lia.
    rewrite IH by (done || lia). rewrite bool_decide_eq_false_2 by lia.
    cbn [fmap list_fmap length]. unfold shown. f_equal; [f_equal; lia|].
    rewrite <- !app_assoc. cbn [app unlines mbind list_bind]. unfold row at 2.
    by rewrite <- !app_assoc. }
  cbn [negb]. destruct (count =? 0) eqn:E0; reflect_bools.
  - unfold st_bind at 1. rewrite print_header_spec, Hrest.
    rewrite bool_decide_eq_true_2 by done. rewrite unlines_app. by rewrite <- app_assoc.
  - unfold st_bind at 1, st_ret. rewrite Hrest. rewrite bool_decide_eq_false_2 by lia. done.
Qed.

(** The whole output. *)
Definition printed (ownerUid : option Z) (rp : option (list Z)) (lines : list (list Z)) : list Z :=
  unlines (filter_lines ownerUid rp ++ match lines with [] => [] | _ => header_lines ++ lines end) ++
  match lines with [] => colorize red (no_credentials_message ownerUid rp) | _ => [] end.

Lemma print_credentials_spec creds owner rp out :
  Forall id_ok creds →
  print_credentials creds owner rp out = (Ret (), out ++ printed owner rp (row <$> shown owner rp creds)).
Proof.
  intros Hok. unfold print_credentials, st_bind, emit, st_modify. rewrite print_rows_spec by done.
  rewrite Z.add_0_l. unfold printed. destruct (shown owner rp creds) as [|c l].
  - rewrite bool_decide_eq_false_2 by naive_solver. simpl negb. cbv iota. f_equal.
    cbn [fmap list_fmap app]. rewrite !app_nil_r. by rewrite ?app_assoc.
  - rewrite bool_decide_eq_true_2 by done. rewrite (proj2 (Z.eqb_neq _ _)) by (simpl; lia).
    simpl negb. cbv iota. unfold st_ret. f_equal. cbn [fmap list_fmap].
    by rewrite !unlines_app, app_nil_r, <- !app_assoc.
Qed.

Lemma decode_listed_id c : id_ok c →
  decode_credential_id (hex_string (sm_id c)) = Ret (sm_id c) ∧
  credential_id_validator (hex_string (sm_id c)) = true.
Proof.
  intros [Hid Hlen].
  assert (valid_credential_id_hex_length (len (hex_string (sm_id c))) = true) as Hv.
  { rewrite length_hex_string. unfold valid_credential_id_hex_length, MIN_CREDENTIAL_ID_SIZE, MAX_CREDENTIAL_ID_SIZE.
    replace (Z.of_nat (2 * length (sm_id c))) with (len (sm_id c) * 2) by lia. rewrite Z.mod_mul by lia.
    rewrite !(proj2 (Z.leb_le _ _)) by lia. done. }
  unfold decode_credential_id, credential_id_validator. rewrite Hv. simpl negb. cbv iota.
  split; [by apply hex_decode_string|]. apply forallb_forall. intros d Hd%list_elem_of_In.
  apply list_elem_of_bind in Hd as (b & Hd & Hb).
  pose proof (proj1 (Forall_forall _ _) Hid b Hb) as Hr. simpl in Hr.
  assert (∀ n, 0 ≤ n < 16 → is_hex_digit (hex_digit n) = true) as Hdig.
  { intros n Hn. unfold is_hex_digit, hex_digit.
    destruct (n <? 10) eqn:E; reflect_bools;
      [rewrite !(proj2 (Z.leb_le 48 _)), !(proj2 (Z.leb_le _ 57)) by lia; done|].
    rewrite !(proj2 (Z.leb_le 65 _)), !(proj2 (Z.leb_le _ 70)) by lia. apply orb_true_r. }
  pose proof (Z.div_pos b 16). pose proof (Z.div_lt_upper_bound b 16 16).
  pose proof (Z.mod_pos_bound b 16). unfold hex_byte in Hd.
  apply list_elem_of_In in Hd as [<-|[<-|[]]]; apply Hdig; lia.
Qed.

Lemma filter_lines_printable owner rp :
  match owner with Some o => is_u32 o | None => True end →
  Forall (Forall printable) (filter_lines owner rp).
Proof.
  intros Ho. unfold filter_lines. apply Forall_app.
  split; [destruct owner as [o|]|destruct rp as [rp|]]; try (by constructor);
    apply Forall_singleton, Forall_app; (split; [by apply printable_text|]); auto with vauth.
  apply to_string_printable. lia.
Qed.

Lemma row_printable c : is_u32 (sm_ownerUid c) → id_ok c → Forall printable (row c).
Proof.
  intros Ho [Hid _]. unfold row, row_cells. rewrite !Forall_app.
  split_and!; auto with vauth; [apply setw_printable, to_string_printable; lia|].
  apply setw_printable. destruct (sm_discoverable c); by apply printable_text.
Qed.

(** The columns of a row end where the heading says, when the owner fits its column. *)
Lemma row_cells_width c : 0 ≤ sm_ownerUid c < 10 ^ 8 → len (row_cells c) = 82.
Proof.
  intros Ho. unfold row_cells. rewrite !length_app, !Nat2Z.inj_add.
  rewrite !length_setw; [done| | | |].
  - destruct (sm_discoverable c); vm_compute; done.
  - etrans; [apply length_fit|]; unfold USER_WIDTH; lia.
  - etrans; [apply length_fit|]; unfold RP_WIDTH; lia.
  - pose proof (length_decimal 8 20 (sm_ownerUid c) ltac:(lia) ltac:(lia)) as Hl.
    unfold to_string, OWNER_WIDTH. lia.
Qed.

(** ** Properties *)

(** The list of credentials shows exactly the credentials that pass the filters, in the
    store's order, one line each under a heading, or says that there are none.  Whatever the
    relying parties and users are called, no byte below 0x20 and no DEL reaches the terminal,
    so a stored name can neither end a line nor start an escape sequence of its own.  Each
    line ends with the identifier, in the column of the heading, in a form that the [delete]
    command accepts and decodes to the same identifier. *)
Theorem listing_exact creds owner rp out :
  Forall (λ c, id_ok c ∧ is_u32 (sm_ownerUid c)) creds →
  match owner with Some o => is_u32 o | None => True end →
  ∃ lines,
    print_credentials creds owner rp out =
      (Ret (), out ++ unlines (filter_lines owner rp ++ lines) ++
         (if bool_decide (shown owner rp creds = [])
          then colorize red (no_credentials_message owner rp) else [])) ∧
    lines = (if bool_decide (shown owner rp creds = []) then []
             else header_lines ++ (row <$> shown owner rp creds)) ∧
    Forall (Forall printable) (filter_lines owner rp ++ lines) ∧
    Forall (λ c, ∃ cells text, row c = cells ++ text ∧
      (sm_ownerUid c < 10 ^ 8 → len cells = 82) ∧
      credential_id_validator text = true ∧ decode_credential_id text = Ret (sm_id c))
      (shown owner rp creds).
Proof.
  intros Hok Ho. set (lines := if bool_decide (shown owner rp creds = []) then []
    else header_lines ++ (row <$> shown owner rp creds)).
  assert (Forall (λ c, id_ok c ∧ is_u32 (sm_ownerUid c)) (shown owner rp creds)) as Hsh
    by (apply Forall_forall; intros c [_ Hin]%list_elem_of_filter; by apply (proj1 (Forall_forall _ _) Hok)).
  exists lines. split_and!; [|done| |].
  - rewrite print_credentials_spec by (eapply Forall_impl; [exact Hok|naive_solver]).
    subst lines. unfold printed. by destruct (shown owner rp creds).
  - apply Forall_app. split; [by apply filter_lines_printable|]. subst lines.
    case_bool_decide; [constructor|]. apply Forall_app. split.
    + unfold header_lines; apply Forall_cons; split; [|apply Forall_singleton]; by apply printable_text.
    + apply Forall_fmap. eapply Forall_impl; [exact Hsh|]. intros c [Hc Hu]. by apply row_printable.
  - eapply Forall_impl; [exact Hsh|]. intros c [Hc Hu]. simpl. exists (row_cells c), (hex_string (sm_id c)).
    destruct (decode_listed_id c Hc). split_and!; try done. intros. apply row_cells_width. lia.
Qed.

Definition example_summary : CredentialSummary :=
  mkSummary (replicate 16 171) 1000 (lit "example.org") (lit "ada") [27; 91; 50; 74] 1 true 1.

Lemma listing_exact_witness :
  ∃ lines, (print_credentials [example_summary] (Some 1000) None []).2 =
      unlines (filter_lines (Some 1000) None ++ lines) ∧ length lines = 3%nat ∧
    Forall (Forall printable) (filter_lines (Some 1000) None ++ lines).
Proof.
  destruct (listing_exact [example_summary] (Some 1000) None []) as (lines & E & Hl & Hp & _).
  - repeat constructor; simpl; try lia; by apply bytes_okb_ok.
  - simpl. lia.
  - exists lines. rewrite E. split_and!; [|rewrite Hl; reflexivity|exact Hp].
    cbn [snd]. rewrite bool_decide_eq_false_2; [by rewrite app_nil_r|].
    intros Hs. by apply (f_equal length) in Hs.
Defined.

(** [terminal_safe] works byte by byte: the control characters U+0080 to U+009F, which UTF-8
    writes with two bytes above 0x7f, pass through, among them the control sequence
    introducer U+009B. *)
Example c1_controls_pass : terminal_safe [194; 155; 50; 74] = [194; 155; 50; 74].
Proof. reflexivity. Qed.
