(* ===== verification/Administration.v ===== *)
(** * The administration tool (src/vauthctl/src)

    vauthctl runs each command twice: the process of the administrator starts itself again
    under systemd-run, as the vauth user and with the decrypted authorisation, and that
    managed process works on the store.  [execute_command] (application.cpp) decides which
    operation a command is, managed_execution.cpp builds the second command line and checks
    the context, commands.cpp works on the store and main.cpp puts them together.  The
    [Options] come from the command line (CommandLine.v).

    The TPM's counter is the counter of the store's world, which StoreSecurity.v shows it
    implements; the key comes out of the TPM. *)
From Stdlib Require Import ZArith Lia.
From stdpp Require Import base list gmap strings sorting.
From S2P Require Import Prelude VerifierProtocol Hex CredentialStore CredentialStoreProofs CredentialQueries AgentService StoreSecurity Authorization Listing.

(** ** Options (options.hpp) *)

Inductive Command := cmd_status | cmd_provision | cmd_credentialsList | cmd_credentialsDelete | cmd_credentialsClear.

#[global] Instance Command_eq_dec : EqDecision Command.
Proof. solve_decision. Defined.

Record Options := mkOptions {
  o_command : Command;
  o_managed : bool;
  o_ownerUid : option Z;
  o_rpId : option (list Z);
  o_credentialId : option (list Z);
  o_confirmedDestroyAll : bool;
}.

Record ParseResult := mkParse { ps_options : option Options; ps_exitCode : Z }.

Definition is_some {A} (o : option A) : bool := match o with Some _ => true | None => false end.

(** ** Dispatch (application.cpp) *)

Record CommandOperations (S : Type) := mkOperations {
  op_status : ST S Z;
  op_managed : Options → ST S Z;
  op_provision : ST S ();
  op_clear : ST S ();
  op_list : option Z → option (list Z) → ST S ();
  op_erase : Z → list Z → ST S ();
}.
Arguments mkOperations {S}.
Arguments op_status {S}.
Arguments op_managed {S}.
Arguments op_provision {S}.
Arguments op_clear {S}.
Arguments op_list {S}.
Arguments op_erase {S}.

Definition execute_command {S} (options : Options) (operations : CommandOperations S) : ST S Z :=
  if bool_decide (o_command options = cmd_credentialsClear) && negb (o_confirmedDestroyAll options)
  then st_throw invalid_argument else
  if bool_decide (o_command options = cmd_credentialsDelete) &&
     (negb (is_some (o_ownerUid options)) || negb (is_some (o_credentialId options)))
  then st_throw invalid_argument else
  if bool_decide (o_command options = cmd_status) then
    if o_managed options then st_throw invalid_argument else op_status operations
  else if negb (o_managed options) then op_managed operations options else
  match o_command options with
  | cmd_provision => let! _ := op_provision operations in st_ret 0
  | cmd_credentialsClear => let! _ := op_clear operations in st_ret 0
  | cmd_credentialsList => let! _ := op_list operations (o_ownerUid options) (o_rpId options) in st_ret 0
  | cmd_credentialsDelete =>
      match o_ownerUid options, o_credentialId options with
      | Some ownerUid, Some credentialId => let! _ := op_erase operations ownerUid credentialId in st_ret 0
      | _, _ => st_throw logic_error
      end
  | cmd_status => st_throw invalid_argument
  end.

(** ** The managed process (managed_execution.cpp) *)

Record ManagedExecutionConfig := mkManagedConfig {
  mc_systemdRunPath : list Z;
  mc_executablePath : list Z;
  mc_fapiSystemDirectory : list Z;
}.

Definition command_arguments (options : Options) : res (list (list Z)) :=
  match o_command options with
  | cmd_provision => Ret [lit "--managed"; lit "provision"]
  | cmd_credentialsList =>
      Ret ([lit "--managed"; lit "credentials"; lit "list"] ++
           match o_ownerUid options with Some owner => [lit "--owner"; to_string owner] | None => [] end ++
           match o_rpId options with Some rp => [lit "--rp"; rp] | None => [] end)
  | cmd_credentialsDelete =>
      match o_ownerUid options, o_credentialId options with
      | Some owner, Some id =>
          Ret [lit "--managed"; lit "credentials"; lit "delete"; lit "--owner"; to_string owner; lit "--id"; id]
      | _, _ => Throw invalid_argument
      end
  | cmd_credentialsClear =>
      throw_if negb (o_confirmedDestroyAll options) as invalid_argument ;;
      Ret [lit "--managed"; lit "credentials"; lit "clear"; lit "--confirm-destroy-all"]
  | cmd_status => Throw invalid_argument
  end.

(** [arguments] is the vector before the call. *)
Definition append_command_arguments (arguments : list (list Z)) (options : Options) : res (list (list Z)) :=
  appended ← command_arguments options; Ret (arguments ++ appended).

Definition is_absolute (path : list Z) : bool := match path with c :: _ => c =? 47 | [] => false end.

Definition systemd_run_arguments (config : ManagedExecutionConfig) : list (list Z) :=
  mc_systemdRunPath config ::
  (lit <$> ["--wait"; "--pipe"; "--collect"; "--quiet"; "--service-type=oneshot";
    "--uid=vauth"; "--gid=vauth";
    "--property=SupplementaryGroups=tss";
    "--property=StateDirectory=vauth";
    "--property=StateDirectoryMode=0700";
    "--property=LoadCredentialEncrypted=vauth-db-auth:/etc/credstore.encrypted/vauth-db-auth";
    "--property=UMask=0077";
    "--property=NoNewPrivileges=yes";
    "--property=CapabilityBoundingSet=";
    "--property=AmbientCapabilities=";
    "--property=PrivateTmp=yes";
    "--property=PrivateNetwork=yes";
    "--property=PrivateIPC=yes";
    "--property=ProtectHome=yes";
    "--property=ProtectSystem=strict"]%string) ++
  [lit "--property=ReadWritePaths=" ++ mc_fapiSystemDirectory config] ++
  (lit <$> ["--property=InaccessiblePaths=/etc/credstore.encrypted";
    "--property=ProtectClock=yes";
    "--property=ProtectControlGroups=yes";
    "--property=ProtectHostname=yes";
    "--property=ProtectKernelLogs=yes";
    "--property=ProtectKernelModules=yes";
    "--property=ProtectKernelTunables=yes";
    "--property=ProtectProc=invisible";
    "--property=ProcSubset=pid";
    "--property=DevicePolicy=closed";
    "--property=DeviceAllow=/dev/tpmrm0 rw";
    "--property=RestrictAddressFamilies=AF_UNIX";
    "--property=RestrictNamespaces=yes";
    "--property=RestrictRealtime=yes";
    "--property=RestrictSUIDSGID=yes";
    "--property=LockPersonality=yes";
    "--property=MemoryDenyWriteExecute=yes";
    "--property=SystemCallArchitectures=native";
    "--property=SystemCallFilter=~@clock @cpu-emulation @debug @module @mount @obsolete @raw-io @reboot @swap";
    "--property=SystemCallErrorNumber=EPERM";
    "--property=KeyringMode=private";
    "--property=RemoveIPC=yes";
    "--property=LimitCORE=0"]%string) ++
  [mc_executablePath config].

Definition build_managed_arguments (options : Options) (config : ManagedExecutionConfig)
    : res (list (list Z)) :=
  throw_if (len (mc_systemdRunPath config) =? 0) || (len (mc_executablePath config) =? 0) ||
           (len (mc_fapiSystemDirectory config) =? 0) as invalid_argument ;;
  throw_if negb (is_absolute (mc_systemdRunPath config)) || negb (is_absolute (mc_executablePath config)) ||
           negb (is_absolute (mc_fapiSystemDirectory config)) as invalid_argument ;;
  append_command_arguments (systemd_run_arguments config) options.

(** What the second process must not run without. *)
Definition required_restrictions : list string :=
  ["--uid=vauth"; "--gid=vauth";
   "--property=LoadCredentialEncrypted=vauth-db-auth:/etc/credstore.encrypted/vauth-db-auth";
   "--property=StateDirectoryMode=0700"; "--property=UMask=0077"; "--property=NoNewPrivileges=yes";
   "--property=CapabilityBoundingSet="; "--property=ProtectSystem=strict"; "--property=LimitCORE=0"]%string.

Lemma restrictions_present config :
  Forall (λ r, lit r ∈ systemd_run_arguments config) required_restrictions.
Proof.
  unfold systemd_run_arguments, required_restrictions.
  repeat (apply Forall_cons; split); [..|apply Forall_nil, I]; apply list_elem_of_further, elem_of_app;
    first [left; by apply list_elem_of_fmap_2, (bool_decide_unpack _)|
           right; apply elem_of_app; right; apply elem_of_app; left; by apply list_elem_of_fmap_2, (bool_decide_unpack _)].
Qed.

(** What [sysconf] suggests and [getpwnam_r("vauth")] answers. *)
Inductive passwd_answer := passwd_entry (uid : Z) | passwd_missing | passwd_error.

Definition vauth_uid (suggested_size : Z) (answer : passwd_answer) : res Z :=
  let suggested_size := if suggested_size <? 0 then 16 * 1024 else suggested_size in
  throw_if U64_MAX <? suggested_size as runtime_error ;;
  match answer with
  | passwd_error => Throw system_error
  | passwd_missing => Throw runtime_error
  | passwd_entry uid => Ret uid
  end.

Definition validate_managed_context (effectiveUid vauthUid : Z) (credentialsDirectory : list Z) : res () :=
  throw_if negb (effectiveUid =? vauthUid) as runtime_error ;;
  throw_if len credentialsDirectory =? 0 as runtime_error ;;
  throw_if negb (is_absolute credentialsDirectory) as runtime_error ;;
  Ret ().

(** What the options of a command line ask for. *)
Definition request (o : Options) : Command * option Z * option (list Z) :=
  (o_command o,
   match o_command o with cmd_credentialsList | cmd_credentialsDelete => o_ownerUid o | _ => None end,
   match o_command o with
   | cmd_credentialsList => o_rpId o
   | cmd_credentialsDelete => o_credentialId o
   | _ => None
   end).

Definition owner_ok (o : Options) : Prop := match o_ownerUid o with Some owner => is_u32 owner | None => True end.

(** A reader of the managed command line, independent of the writer. *)
Definition read_rp (args : list (list Z)) : option (option (list Z)) :=
  match args with
  | [] => Some None
  | [name; rp] => if bool_decide (name = lit "--rp") then Some (Some rp) else None
  | _ => None
  end.

Definition read_filters (args : list (list Z)) : option (option Z * option (list Z)) :=
  match args with
  | name :: text :: rest =>
      if bool_decide (name = lit "--owner") then pair (Some (of_decimal text)) <$> read_rp rest
      else pair None <$> read_rp args
  | _ => pair None <$> read_rp args
  end.

Definition read_request (args : list (list Z)) : option (Command * option Z * option (list Z)) :=
  if bool_decide (args = lit <$> ["--managed"; "provision"]%string) then Some (cmd_provision, None, None) else
  if bool_decide (args = lit <$> ["--managed"; "credentials"; "clear"; "--confirm-destroy-all"]%string)
  then Some (cmd_credentialsClear, None, None) else
  if bool_decide (take 3 args = lit <$> ["--managed"; "credentials"; "list"]%string)
  then (λ f, (cmd_credentialsList, f.1, f.2)) <$> read_filters (drop 3 args) else
  if bool_decide (take 3 args = lit <$> ["--managed"; "credentials"; "delete"]%string) then
    match drop 3 args with
    | [owner; text; name; id] =>
        if bool_decide (owner = lit "--owner" ∧ name = lit "--id")
        then Some (cmd_credentialsDelete, Some (of_decimal text), Some id) else None
    | _ => None
    end
  else None.

Lemma of_decimal_u32 n : is_u32 n → of_decimal (to_string n) = n.
Proof. intros Hn. apply of_decimal_decimal. simpl. lia. Qed.

(** The managed command line says exactly what was asked for. *)
Lemma command_arguments_read o rest :
  owner_ok o → command_arguments o = Ret rest → read_request rest = Some (request o).
Proof.
  unfold owner_ok, command_arguments, request. destruct (o_command o); intros Ho E.
  - done.
  - by injection E as <-.
  - destruct (o_ownerUid o) as [n|]; [apply of_decimal_u32 in Ho; revert Ho E; generalize (to_string n); intros text Ho E|];
      injection E as <-; destruct (o_rpId o); cbv -[of_decimal]; by rewrite ?Ho.
  - destruct (o_ownerUid o) as [n|], (o_credentialId o) as [id|]; try done.
    apply of_decimal_u32 in Ho. revert Ho E. generalize (to_string n). intros text Ho [= <-].
    cbv -[of_decimal]. by rewrite Ho.
  - apply throw_if_ret in E as [_ E]. by injection E as <-.
Qed.

(** ** The machine *)

Inductive lock_answer := flock_done | flock_eintr | flock_busy | flock_error.

(** What the system answers to one process. *)
Record Process := mkProcess {
  pr_credentialsDirectory : option (list Z);  (** [CREDENTIALS_DIRECTORY] *)
  pr_files : list Z → AuthFile;               (** what opening a path finds *)
  pr_pw_size : Z;
  pr_passwd : passwd_answer;
  pr_flock : list lock_answer;
  pr_config : ManagedExecutionConfig;
  pr_spawn : Z;                               (** the result of [posix_spawn] *)
  pr_wait : child_status;
  pr_bus : bool;                              (** whether the system bus can be reached *)
  pr_status : StatusQueries;
  pr_provisioning : ProvisionInput;
}.

Section admin.
Context `{StoreEnv, Fapi}.

(** The store and the TPM, the directory of the encrypted credential, the output, and the
    command lines started. *)
Record Admin := mkAdmin {
  ad_world : World;
  ad_tpm : Tpm;
  ad_dir : CredDir;
  ad_output : list Z;
  ad_spawned : list (list (list Z));
}.

Definition on_world {A} (m : ST World A) : ST Admin A := λ a,
  let '(r, w) := m (ad_world a) in
  (r, mkAdmin w (ad_tpm a) (ad_dir a) (ad_output a) (ad_spawned a)).
Definition on_dir {A} (m : ST CredDir A) : ST Admin A := λ a,
  let '(r, d) := m (ad_dir a) in
  (r, mkAdmin (ad_world a) (ad_tpm a) d (ad_output a) (ad_spawned a)).
Definition on_output {A} (m : ST (list Z) A) : ST Admin A := λ a,
  let '(r, o) := m (ad_output a) in
  (r, mkAdmin (ad_world a) (ad_tpm a) (ad_dir a) o (ad_spawned a)).

(** A method of the FAPI object, whose TPM is the machine's. *)
Definition on_security {A} (security : Security) (m : ST Security A) : ST Admin A := λ a,
  let '(r, s) := m (mkSecurity (sc_authorization security) (sc_counterOrigin security) (ad_tpm a)) in
  (r, mkAdmin (ad_world a) (sc_tpm s) (ad_dir a) (ad_output a) (ad_spawned a)).

(** ** Opening the store *)

(** [do { result = flock(...) } while(result == -1 && errno == EINTR)] *)
Fixpoint flock_loop (answers : list lock_answer) : res () :=
  match answers with
  | flock_eintr :: answers => flock_loop answers
  | flock_done :: _ => Ret ()
  | flock_busy :: _ => Throw runtime_error
  | flock_error :: _ | [] => Throw system_error
  end.

Definition CredentialStoreLock_new (answers : list lock_answer) : ST World () :=
  let! _ := prepare_store_directory in
  let! _ := open_store_directory in
  st_lift (flock_loop answers).

(** The constructor, with a generation counter. *)
Definition CredentialStore_new (key : list Z) : ST World () := λ w,
  if negb (len key =? 32) then (Throw invalid_argument, w)
  else (Ret (), mkWorld ∅ 0 false key true (w_dir w) (w_file w) (w_euid w) (w_counter w)
                  (w_faults w) (w_nonce w)).

(** [StoreAuthorization authorization(store_authorization_path(authorizationPath))] *)
Definition open_authorization (authorizationPath : option (list Z)) (p : Process) : ST Admin (list Z) :=
  let! input := st_lift (store_authorization_path authorizationPath (pr_credentialsDirectory p)) in
  λ a, (read_authorization (ai_origin input) (w_euid (ad_world a)) (pr_files p (ai_path input)), a).

Definition open_security (authorization : list Z) : ST Admin Security := λ a,
  (FapiStoreSecurity_new authorization (ad_tpm a), a).

(** The first lines of [store_clear], [credential_list] and [erase_credential]: up to the
    key, and with it the store. *)
Definition unseal_store (authorizationPath : option (list Z)) (p : Process) : ST Admin (list Z) :=
  let! authorization := open_authorization authorizationPath p in
  let! security := open_security authorization in
  let! _ := on_world (CredentialStoreLock_new (pr_flock p)) in
  on_security security unseal_key.

Definition load_store (database_key : list Z) : ST Admin () :=
  let! _ := on_world (CredentialStore_new database_key) in
  on_world load.

Definition open_store (authorizationPath : option (list Z)) (p : Process) : ST Admin () :=
  let! database_key := unseal_store authorizationPath p in
  load_store database_key.

(** ** The commands (commands.cpp) *)

Definition print (text : list Z) : ST Admin () := on_output (emit text).

Definition provision_store (authorizationPath : option (list Z)) (p : Process) : ST Admin () :=
  let! authorization := open_authorization authorizationPath p in
  let! _ := on_world (CredentialStoreLock_new (pr_flock p)) in
  let! security := open_security authorization in
  let! _ := on_security security provision in
  print (lit "Database key and rollback counter provisioned" ++ [10]).

Definition store_clear (authorizationPath : option (list Z)) (p : Process) : ST Admin () :=
  let! _ := open_store authorizationPath p in
  let! _ := on_world clear in
  print (lit "Credential store cleared; TPM security objects preserved" ++ [10]).

Definition credential_list (authorizationPath : option (list Z)) (ownerUid : option Z)
    (rp : option (list Z)) (p : Process) : ST Admin () :=
  let! _ := open_store authorizationPath p in
  let! credentials := on_world list_credentials in
  on_output (print_credentials credentials ownerUid rp).

Definition erase_credential (authorizationPath : option (list Z)) (ownerUid : Z)
    (credentialId : list Z) (p : Process) : ST Admin () :=
  let! credId := st_lift (decode_credential_id credentialId) in
  let! _ := open_store authorizationPath p in
  let! _ := on_world (erase credId ownerUid) in
  print (lit "Credential " ++ credentialId ++ lit " for user id " ++ to_string ownerUid ++
         lit " erased" ++ [10]).

(** ** The whole program (main.cpp) *)

Definition require_managed_execution_context (p : Process) : ST Admin () := λ a,
  ((uid ← vauth_uid (pr_pw_size p) (pr_passwd p);
    validate_managed_context (w_euid (ad_world a)) uid (default [] (pr_credentialsDirectory p))), a).

Definition run_managed_command (options : Options) (p : Process) : ST Admin Z :=
  let! arguments := st_lift (build_managed_arguments options (pr_config p)) in
  if negb (pr_spawn p =? 0) then st_throw system_error else
  let! _ := st_modify (λ a, mkAdmin (ad_world a) (ad_tpm a) (ad_dir a) (ad_output a)
                              (ad_spawned a ++ [arguments])) in
  st_lift (wait_for (pr_wait p)).

Definition operations (p : Process) : CommandOperations Admin := mkOperations
  (if negb (pr_bus p) then st_throw runtime_error else on_output (get_status (pr_status p)))
  (λ options,
    let! _ := (if bool_decide (o_command options = cmd_provision)
               then on_dir (ensure_provisioning_authorization (pr_provisioning p)) else st_ret ()) in
    run_managed_command options p)
  (let! _ := require_managed_execution_context p in provision_store None p)
  (let! _ := require_managed_execution_context p in store_clear None p)
  (λ owner_uid rp_id,
    let! _ := require_managed_execution_context p in credential_list None owner_uid rp_id p)
  (λ owner_uid credential_id,
    let! _ := require_managed_execution_context p in erase_credential None owner_uid credential_id p).

(** The exit code; every exception is a [std::exception]. *)
Definition vauthctl_main (parsed : ParseResult) (p : Process) (a : Admin) : Z * Admin :=
  match ps_options parsed with
  | None => (ps_exitCode parsed, a)
  | Some options =>
      match execute_command options (operations p) a with
      | (Ret code, a') => (code, a')
      | (Throw _, a') => (1, a')
      end
  end.

(** ** What a command may touch *)

Lemma wp_store_world {A} (m : ST World A) Q a :
  wp m (λ r w, Q r (mkAdmin w (ad_tpm a) (ad_dir a) (ad_output a) (ad_spawned a))) (ad_world a) →
  wp (on_world m) Q a.
Proof. unfold wp, on_world. by destruct (m (ad_world a)). Qed.

Lemma wp_on_output {A} (m : ST (list Z) A) Q a :
  wp m (λ r o, Q r (mkAdmin (ad_world a) (ad_tpm a) (ad_dir a) o (ad_spawned a))) (ad_output a) →
  wp (on_output m) Q a.
Proof. unfold wp, on_output. by destruct (m (ad_output a)). Qed.

Lemma wp_on_dir {A} (m : ST CredDir A) Q a :
  wp m (λ r d, Q r (mkAdmin (ad_world a) (ad_tpm a) d (ad_output a) (ad_spawned a))) (ad_dir a) →
  wp (on_dir m) Q a.
Proof. unfold wp, on_dir. by destruct (m (ad_dir a)). Qed.

Lemma wp_on_security {A} s (m : ST Security A) Q a :
  wp m (λ r s', Q r (mkAdmin (ad_world a) (sc_tpm s') (ad_dir a) (ad_output a) (ad_spawned a)))
    (mkSecurity (sc_authorization s) (sc_counterOrigin s) (ad_tpm a)) →
  wp (on_security s m) Q a.
Proof. unfold wp, on_security. by destruct (m _). Qed.

(** Neither the credential directory nor another process is involved. *)
Definition in_process (a a' : Admin) : Prop := ad_dir a' = ad_dir a ∧ ad_spawned a' = ad_spawned a.

Definition stays_in {A} (m : ST Admin A) : Prop := ∀ a, wp m (λ _ a', in_process a a') a.

Lemma stays_bind {A B} (m : ST Admin A) (k : A → ST Admin B) :
  stays_in m → (∀ x, stays_in (k x)) → stays_in (st_bind m k).
Proof.
  intros Hm Hk a. apply wp_bind. eapply wp_mono; [|apply Hm]. intros [x|e] a1 H1; [|done].
  eapply wp_mono; [|apply Hk]. intros r a2 [H2 H3]. destruct H1 as [H4 H5].
  split; congruence.
Qed.

Lemma stays_world {A} (m : ST World A) : stays_in (on_world m).
Proof. intros a. by apply wp_store_world. Qed.
Lemma stays_output {A} (m : ST (list Z) A) : stays_in (on_output m).
Proof. intros a. by apply wp_on_output. Qed.
Lemma stays_security {A} s (m : ST Security A) : stays_in (on_security s m).
Proof. intros a. by apply wp_on_security. Qed.
Lemma stays_lift {A} (r : res A) : stays_in (st_lift r).
Proof. by intros a. Qed.

Lemma stays_authorization path p : stays_in (open_authorization path p).
Proof. apply stays_bind; [apply stays_lift|]. by intros x a. Qed.
Lemma stays_open_security l : stays_in (open_security l).
Proof. by intros a. Qed.

#[local] Hint Resolve stays_bind stays_world stays_output stays_security stays_lift
  stays_authorization stays_open_security : stays.

Lemma stays_open_store path p : stays_in (open_store path p).
Proof. unfold open_store, unseal_store, load_store. repeat (apply stays_bind; [auto with stays|intros ?]). auto with stays. Qed.
#[local] Hint Resolve stays_open_store : stays.

Ltac stays := repeat (apply stays_bind; [auto with stays|intros ?]); auto with stays.

Lemma stays_commands path p :
  stays_in (provision_store path p) ∧ stays_in (store_clear path p) ∧
  (∀ owner rp, stays_in (credential_list path owner rp p)) ∧
  (∀ owner id, stays_in (erase_credential path owner id p)).
Proof.
  unfold provision_store, store_clear, credential_list, erase_credential, print.
  split_and!; intros; stays.
Qed.

(** The process runs as the vauth user with credentials from systemd. *)
Definition managed_context (p : Process) (a : Admin) : Prop :=
  ∃ uid dir, pr_passwd p = passwd_entry uid ∧ w_euid (ad_world a) = uid ∧
    pr_credentialsDirectory p = Some dir ∧ is_absolute dir = true.

Lemma require_context_spec p a :
  (require_managed_execution_context p a).2 = a ∧
  ((require_managed_execution_context p a).1 = Ret () → managed_context p a).
Proof.
  split; [done|]. unfold require_managed_execution_context, vauth_uid, validate_managed_context. cbn [fst].
  destruct (U64_MAX <? _); [done|]. destruct (pr_passwd p) as [uid| |] eqn:Ep; [|done..].
  cbn [mbind res_bind]. intros [E1 [E2 [E3 _]%throw_if_ret]%throw_if_ret]%throw_if_ret. reflect_bools.
  destruct (pr_credentialsDirectory p) as [dir|] eqn:Ed; [|done]. by exists uid, dir.
Qed.

(** A managed operation does nothing outside the managed context. *)
Definition guarded_op {A} (p : Process) (m : ST Admin A) : Prop :=
  ∀ a, wp m (λ _ a', in_process a a' ∧ (a' ≠ a → managed_context p a)) a.

Lemma guarded_require {A} p (m : ST Admin A) :
  stays_in m → guarded_op p (let! _ := require_managed_execution_context p in m).
Proof.
  intros Hm a. apply wp_bind. unfold wp at 1. destruct (require_context_spec p a) as [Ea Hc].
  destruct (require_managed_execution_context p a) as [[[]|e] a1]; cbn [fst snd] in *; subst a1.
  - eapply wp_mono; [|apply Hm]. intros r a' H1. auto.
  - split; [done|]. by intros Hne.
Qed.

Lemma guarded_then {A B} p (m : ST Admin A) (x : B) :
  guarded_op p m → guarded_op p (let! _ := m in st_ret x).
Proof.
  intros Hm a. apply wp_bind. eapply wp_mono; [|apply Hm]. by intros [y|e] a' H1.
Qed.

(** The command says everything it has to. *)
Definition complete (o : Options) : Prop :=
  match o_command o with
  | cmd_status => False
  | cmd_credentialsClear => o_confirmedDestroyAll o = true
  | cmd_credentialsDelete => is_some (o_ownerUid o) = true ∧ is_some (o_credentialId o) = true
  | cmd_provision | cmd_credentialsList => True
  end.

(** What the administrator's own process does. *)
Definition launches (p : Process) (o : Options) (a a' : Admin) : Prop :=
  ad_world a' = ad_world a ∧ ad_tpm a' = ad_tpm a ∧
  (ad_dir a' ≠ ad_dir a → o_command o = cmd_provision) ∧
  (ad_spawned a' = ad_spawned a ∨
   ∃ rest, command_arguments o = Ret rest ∧
     ad_spawned a' = ad_spawned a ++ [systemd_run_arguments (pr_config p) ++ rest]).

Lemma launches_refl p o a : launches p o a a.
Proof. split_and!; try done. by left. Qed.

Lemma build_managed_spec o config arguments :
  build_managed_arguments o config = Ret arguments →
  ∃ rest, command_arguments o = Ret rest ∧ arguments = systemd_run_arguments config ++ rest.
Proof.
  intros [_ [_ E]%throw_if_ret]%throw_if_ret. unfold append_command_arguments in E.
  destruct (command_arguments o) as [rest|e]; [|done]. injection E as <-. by exists rest.
Qed.

Lemma run_managed_spec o p a :
  wp (run_managed_command o p) (λ _ a', ad_dir a' = ad_dir a ∧ launches p o a a') a.
Proof.
  apply wp_bind, wp_lift. destruct (build_managed_arguments o (pr_config p)) as [arguments|e] eqn:E;
    [|split; [done|apply launches_refl]].
  destruct (negb _); [split; [done|apply launches_refl]|].
  apply wp_bind, wp_modify, wp_lift. apply build_managed_spec in E as (rest & Er & ->).
  split; [done|]. split_and!; try done. right. by exists rest.
Qed.

Lemma op_managed_spec o p a : wp (op_managed (operations p) o) (λ _ a', launches p o a a') a.
Proof.
  cbn [op_managed operations]. apply wp_bind. case_bool_decide as Ec.
  - apply wp_on_dir. unfold wp at 1.
    destruct (ensure_provisioning_authorization (pr_provisioning p) (ad_dir a)) as [[[]|e] d]; cbn [fst snd].
    + eapply wp_mono; [|apply run_managed_spec]. intros r a' (_ & Hw & Ht & _ & Hs). by split_and!.
    + split_and!; try done. by left.
  - apply wp_ret. eapply wp_mono; [|apply run_managed_spec]. by intros r a' [_ H1].
Qed.

Definition main_outcome (p : Process) (o : Options) (a a' : Admin) : Prop :=
  if o_managed o then in_process a a' ∧ (a' ≠ a → managed_context p a ∧ complete o)
  else launches p o a a' ∧ (ad_spawned a' ≠ ad_spawned a → complete o).

Lemma main_refl p o a : main_outcome p o a a.
Proof. unfold main_outcome. destruct (o_managed o); by split; auto using launches_refl. Qed.

Lemma execute_spec o p a : wp (execute_command o (operations p)) (λ _ a', main_outcome p o a a') a.
Proof.
  unfold execute_command.
  destruct (bool_decide (o_command o = cmd_credentialsClear) && _) eqn:E1; [apply main_refl|].
  destruct (bool_decide (o_command o = cmd_credentialsDelete) && _) eqn:E2; [apply main_refl|].
  assert (o_command o ≠ cmd_status → complete o) as Hcomp.
  { unfold complete. destruct (o_command o); intros; try done; simpl in E1, E2.
    - reflect_bools. done.
    - by apply negb_false_iff in E1. }
  destruct (bool_decide (o_command o = cmd_status)) eqn:Es; reflect_bools.
  { destruct (o_managed o) eqn:Em; [apply main_refl|]. unfold main_outcome. rewrite Em.
    cbn [op_status operations]. destruct (pr_bus p); cbn [negb]; [|by split; [apply launches_refl|]].
    apply wp_on_output. split; [split_and!; try done; by left|done]. }
  destruct (o_managed o) eqn:Em; cbn [negb].
  2:{ eapply wp_mono; [|apply op_managed_spec]. intros r a' Hl. unfold main_outcome. rewrite Em. auto. }
  destruct (stays_commands None p) as (H1 & H2 & H3 & H4).
  assert (∀ m : ST Admin Z, guarded_op p m → wp m (λ _ a', main_outcome p o a a') a) as Hg.
  { intros m Hm. eapply wp_mono; [|apply Hm]. intros r a' [? ?]. unfold main_outcome. rewrite Em. naive_solver. }
  destruct (o_command o); [done| | | |]; cbn [op_provision op_clear op_list op_erase operations].
  1,2,4: apply Hg, guarded_then, guarded_require; auto.
  destruct (o_ownerUid o), (o_credentialId o); try (by apply Hg; intros a1; split; [done|]).
  apply Hg, guarded_then, guarded_require; auto.
Qed.

(** ** Commands on a provisioned store *)

(** The TPM holds the key under which the disk holds [m]. *)
Definition sealed_store (key : list Z) (m : Storage) (a : Admin) : Prop :=
  ∃ n o g, StoreSecurity.provisioned (ad_tpm a) n o key ∧
    w_key (ad_world a) = key ∧ w_has_counter (ad_world a) = true ∧
    length (w_nonce (ad_world a)) = 12%nat ∧
    disk (ad_world a) m g ∧ counter_near (ad_world a) g ∧ storage_ok m ∧ is_u64 g.

(** As [sealed_store], for the disk's generation [g], and the fields that stay. *)
Definition store_kept (m : Storage) (g : Z) (w w' : World) : Prop :=
  w_key w' = w_key w ∧ w_has_counter w' = true ∧ w_nonce w' = w_nonce w ∧
  disk w' m g ∧ counter_near w' g.

Lemma lock_spec answers m g w :
  disk w m g → counter_near w g → w_has_counter w = true →
  wp (CredentialStoreLock_new answers) (λ r w', store_kept m g w w' ∧ w_file w' = w_file w ∧
    (r = Ret () → flock_loop answers = Ret ())) w.
Proof.
  intros Hd Hc Hh. pose proof (disk_ready _ _ _ Hd) as Hr. unfold dir_ready in Hr.
  assert (∀ w', w' = w ∨ (∃ d, check_directory (w_euid w) d = Ret () ∧ w' = set_disk (Some d) (w_file w) w) →
    store_kept m g w w' ∧ w_file w' = w_file w) as Hk.
  { intros w' [->|(d & Hcd & ->)]; [done|]. split; [|done]. split_and!; try done. by apply disk_set_dir. }
  apply wp_bind, wp_modify, wp_bind. unfold wp at 1, open_store_directory.
  destruct (w_dir w) as [d|] eqn:Ed.
  - rewrite Ed. cbn [fst snd]. destruct (check_directory (w_euid w) d) as [[]|e]; [|done].
    apply wp_lift. destruct (Hk w) as [? ?]; [by left|]. by split_and!.
  - cbn [w_dir set_disk w_euid fst snd]. rewrite check_directory_new. apply wp_lift.
    destruct (Hk (set_disk (Some (mkDir true (w_euid w) DIR_MODE)) (w_file w) w)) as [? ?].
    { right. eexists. split; [apply check_directory_new|done]. }
    by split_and!.
Qed.

(** A new store object on the same key. *)
Lemma store_new_spec m g w :
  disk w m g → counter_near w g → w_has_counter w = true → len (w_key w) = 32 →
  wp (CredentialStore_new (w_key w)) (λ r w', r = Ret () ∧ store_kept m g w w' ∧ w_stored w' = ∅ ∧
    w_generation w' = 0 ∧ w_file w' = w_file w) w.
Proof.
  intros Hd Hc Hh Hk. unfold wp, CredentialStore_new. rewrite Hk. cbn [negb Z.eqb Pos.eqb fst snd].
  split_and!; try done. split_and!; try done. intros _. by apply Hc.
Qed.

Lemma load_kept m g w :
  disk w m g → counter_near w g → is_u64 g → w_has_counter w = true →
  wp load (λ r w', store_kept m g w w' ∧
    (r = Ret () → w_stored w' = m ∧ w_generation w' = g ∧ w_requiresReload w' = false)) w.
Proof.
  intros Hd Hc Hg Hh. unfold wp. destruct (load w) as [r w'] eqn:E.
  destruct (load_spec m g w r w' Hd Hc ltac:(unfold U64_MAX; lia) E) as ((_ & Hk & Hh' & _ & Hn) & Ho & _).
  cbn [fst snd]. simpl in Hk, Hh', Hn.
  destruct Ho as [w' H1 H2 H3 H4 H5|e w' H1 H2 H3 H4 H5].
  - split; [|done]. split_and!; try congruence. intros _. rewrite H4 by done. lia.
  - split; [|done]. split_and!; try congruence; done.
Qed.

(** Up to the key: nothing but the lock's directory is touched. *)
Lemma unseal_store_spec path p key m a :
  sealed_store key m a →
  wp (unseal_store path p) (λ r a', sealed_store key m a' ∧ ad_tpm a' = ad_tpm a ∧
    ad_output a' = ad_output a ∧ in_process a a' ∧ w_file (ad_world a') = w_file (ad_world a) ∧
    (is_ret r → flock_loop (pr_flock p) = Ret () ∧ r = Ret key)) a.
Proof.
  intros Hs. pose proof Hs as (n & o & g & Hp & Hk & Hh & Hn & Hd & Hc & Hm & Hg).
  apply wp_bind. unfold open_authorization. apply wp_bind, wp_lift.
  destruct (store_authorization_path _ _) as [input|e]; [|by split_and!]. unfold wp at 1. cbn [fst snd].
  destruct (read_authorization _ _ _) as [authorization|e]; [|by split_and!].
  apply wp_bind. unfold open_security, wp at 1. cbn [fst snd].
  destruct (FapiStoreSecurity_new authorization (ad_tpm a)) as [security|e] eqn:Esec; [|by split_and!].
  apply wp_bind, wp_store_world. eapply wp_mono; [|apply (lock_spec _ m g); [done|done|done]].
  intros r w1 ((Hk1 & Hh1 & Hn1 & Hd1 & Hc1) & Hf1 & Hlock).
  assert (∀ t, t = ad_tpm a →
    sealed_store key m (mkAdmin w1 t (ad_dir a) (ad_output a) (ad_spawned a))) as Hseal.
  { intros t ->. exists n, o, g. cbn [ad_world ad_tpm]. split_and!; try done; (congruence || lia). }
  destruct r as [[]|e]; [|split_and!; try done; by apply Hseal].
  specialize (Hlock eq_refl). apply wp_on_security.
  eapply wp_mono; [|by eapply (unseal_key_spec _ n o key)].
  intros r s' ([Ht _] & Hr). cbn [sc_tpm ad_tpm] in Ht. rewrite Ht.
  destruct Hr as [[-> _]|[-> _]]; split_and!; try done; by apply Hseal.
Qed.

(** With the key: the store is the one on the disk. *)
Lemma load_store_spec key m a :
  sealed_store key m a →
  wp (load_store key) (λ r a', sealed_store key m a' ∧ ad_tpm a' = ad_tpm a ∧
    ad_output a' = ad_output a ∧ in_process a a' ∧
    (r = Ret () → w_stored (ad_world a') = m ∧ is_u64 (w_generation (ad_world a')) ∧
       disk (ad_world a') m (w_generation (ad_world a')) ∧
       counter_near (ad_world a') (w_generation (ad_world a')) ∧ w_requiresReload (ad_world a') = false)) a.
Proof.
  intros (n & o & g & Hp & Hk & Hh & Hn & Hd & Hc & Hm & Hg).
  apply wp_bind, wp_store_world. rewrite <- Hk.
  eapply wp_mono; [|apply (store_new_spec m g); [done|done|done|by rewrite Hk; destruct Hp]].
  intros r w2 (-> & (Hk2 & Hh2 & Hn2 & Hd2 & Hc2) & Hst2 & Hgen2 & Hf2).
  apply wp_store_world. cbn [ad_world ad_tpm]. eapply wp_mono; [|by apply (load_kept m g)].
  intros r w3 ((Hk3 & Hh3 & Hn3 & Hd3 & Hc3) & Hret). cbn [ad_world ad_tpm ad_output ad_dir ad_spawned].
  split_and!; try done.
  - rewrite Hk. exists n, o, g. cbn [ad_world ad_tpm]. split_and!; try done; (congruence || lia).
  - intros Hr. destruct (Hret Hr) as (H1 & -> & H3). done.
Qed.

Lemma open_store_spec path p key m a :
  sealed_store key m a →
  wp (open_store path p) (λ r a', sealed_store key m a' ∧ ad_tpm a' = ad_tpm a ∧
    ad_output a' = ad_output a ∧ in_process a a' ∧
    (flock_loop (pr_flock p) ≠ Ret () → is_ret r = false ∧ w_file (ad_world a') = w_file (ad_world a)) ∧
    (r = Ret () → w_stored (ad_world a') = m ∧ is_u64 (w_generation (ad_world a')) ∧
       disk (ad_world a') m (w_generation (ad_world a')) ∧
       counter_near (ad_world a') (w_generation (ad_world a')) ∧ w_requiresReload (ad_world a') = false)) a.
Proof.
  intros Hs. apply wp_bind. eapply wp_mono; [|by apply (unseal_store_spec path p key m)].
  intros r a1 (Hs1 & Ht1 & Ho1 & [Hi1 Hi1'] & Hf1 & Hr1). destruct r as [key'|e]; [|by split_and!].
  destruct (Hr1 I) as [Hl [= ->]]. eapply wp_mono; [|by apply (load_store_spec key m)].
  intros r a2 (Hs2 & Ht2 & Ho2 & [Hi2 Hi2'] & Hr2). split_and!; try done; try congruence.
  split; congruence.
Qed.

(** The commands that open the store. *)
Inductive store_command :=
  | ClearAll
  | EraseOne (ownerUid : Z) (credentialId : list Z)
  | ListAll (ownerUid : option Z) (rp : option (list Z)).

Definition run_store_command (cmd : store_command) (path : option (list Z)) (p : Process) : ST Admin () :=
  match cmd with
  | ClearAll => store_clear path p
  | EraseOne ownerUid credentialId => erase_credential path ownerUid credentialId p
  | ListAll ownerUid rp => credential_list path ownerUid rp p
  end.

(** The storage after a command, and when it may succeed. *)
Definition command_target (cmd : store_command) (m : Storage) : Storage :=
  match cmd with
  | ClearAll => ∅
  | EraseOne _ credentialId => delete (hex_upper <$> credentialId) m
  | ListAll _ _ => m
  end.

Definition command_allowed (cmd : store_command) (m : Storage) : Prop :=
  match cmd with
  | EraseOne ownerUid credentialId =>
      ∃ c, m !! (hex_upper <$> credentialId) = Some c ∧ c_ownerUid c = ownerUid
  | _ => True
  end.

(** One mutation of an open store. *)
Lemma mutate_spec op key m a :
  sealed_store key m a → w_stored (ad_world a) = m → is_u64 (w_generation (ad_world a)) →
  disk (ad_world a) m (w_generation (ad_world a)) →
  counter_near (ad_world a) (w_generation (ad_world a)) → op_ok op → fits (target op (ad_world a)) →
  wp (on_world (run_op op)) (λ r a', ad_tpm a' = ad_tpm a ∧ ad_output a' = ad_output a ∧ in_process a a' ∧
    match r with
    | Ret _ => accepted op (ad_world a) ∧ sealed_store key (target op (ad_world a)) a'
    | Throw _ => sealed_store key m a' ∨ sealed_store key (target op (ad_world a)) a'
    end) a.
Proof.
  intros (n & o & g & Hp & Hk & Hh & Hn & _ & _ & Hm & _) Hst Hg Hd Hc Hop Hfit.
  apply wp_store_world. unfold wp. destruct (run_op op (ad_world a)) as [r w'] eqn:E. cbn [fst snd ad_tpm ad_output].
  assert (storage_ok (w_stored (ad_world a))) as Hso by (by rewrite Hst).
  destruct (run_op_spec op m _ _ r w' Hd Hc Hso Hg Hn Hop Hfit E) as (Hk' & Hh' & Hn' & Hout).
  assert (∀ m' g', storage_ok m' → is_u64 g' → disk w' m' g' → counter_near w' g' →
    sealed_store key m' (mkAdmin w' (ad_tpm a) (ad_dir a) (ad_output a) (ad_spawned a))) as Hseal.
  { intros m' g' ????. exists n, o, g'. cbn [ad_world ad_tpm]. split_and!; try done; (congruence || lia). }
  split_and!; try done.
  destruct Hout as [(-> & Hacc & _ & _ & _ & Hg1 & Hd1 & Hc1)|([e ->] & _ & _ & [[Hd1 Hc1]|(Hacc & Hg1 & Hd1 & Hc1)])].
  - split; [done|]. eapply Hseal; [|done..]. by apply target_ok.
  - left. by eapply Hseal.
  - right. eapply Hseal; [|done..]. by apply target_ok.
Qed.

Lemma decode_credential_id_spec text id :
  decode_credential_id text = Ret id → hex_string id = hex_upper <$> text.
Proof.
  intros [_ [Hev Hd]%throw_if_ret]%throw_if_ret. apply negb_false_iff, Z.eqb_eq in Hev.
  by apply (hex_decode_loop_inv (length text)) in Hd as [_ ?].
Qed.

(** The filters of the list. *)
Definition passes (ownerUid : option Z) (rp : option (list Z)) (c : StoredCredential) : Prop :=
  match ownerUid with Some owner => c_ownerUid c = owner | None => True end ∧
  match rp with Some rp => c_rpId c = rp | None => True end.

#[global] Instance passes_dec ownerUid rp c : Decision (passes ownerUid rp c).
Proof. unfold passes. destruct ownerUid, rp; apply _. Defined.

(** The order of the list: owner, relying party, age, identifier. *)
Definition listed_before (c c' : StoredCredential) : Prop :=
  c_ownerUid c < c_ownerUid c' ∨ c_ownerUid c = c_ownerUid c' ∧
  (lex_ltb (c_rpId c) (c_rpId c') = true ∨ c_rpId c = c_rpId c' ∧
   (c_creationOrder c < c_creationOrder c' ∨ c_creationOrder c = c_creationOrder c' ∧
    lex_ltb (c_id c') (c_id c) = false)).

(** The line of one credential: owner, relying party, the user's display name or else the
    account name, the type, and the identifier. *)
Definition credential_line (c : StoredCredential) : list Z :=
  let user := match c_userDisplayName c with [] => c_userName c | name => name end in
  setw_left 8 (to_string (c_ownerUid c)) ++
  setw_left 32 (fit (terminal_safe (c_rpId c)) 31) ++
  setw_left 24 (fit (terminal_safe user) 23) ++
  setw_left 18 (lit (if c_discoverable c then "discoverable" else "non-discoverable")) ++
  hex_string (c_id c).

Lemma credential_line_row c : row (summary_of c) = credential_line c.
Proof.
  unfold row, row_cells, credential_line. cbn. rewrite <- !app_assoc.
  by destruct (c_userDisplayName c), (c_discoverable c).
Qed.

Lemma summary_order c c' : not_before summary_before (summary_of c) (summary_of c') → listed_before c c'.
Proof.
  unfold not_before, summary_before, listed_before. cbn.
  destruct (Z.eqb_spec (c_ownerUid c') (c_ownerUid c)); cbn [negb]; [|rewrite Z.ltb_ge; intros; left; lia].
  case_bool_decide as Hr; cbn [negb].
  - destruct (Z.eqb_spec (c_creationOrder c') (c_creationOrder c)); cbn [negb].
    2:{ rewrite Z.ltb_ge. intros Hl. right. split; [done|]. right. split; [done|]. left. lia. }
    intros Hl. right. split; [done|]. right. split; [done|]. by right.
  - intros Hl. right. split; [done|]. left. destruct (lex_ltb (c_rpId c) (c_rpId c')) eqn:E; [done|].
    by destruct Hr; apply lex_ltb_total.
Qed.

(** The credentials shown for a store. *)
Definition listing (m : Storage) (ownerUid : option Z) (rp : option (list Z)) (l : list StoredCredential) : Prop :=
  l ≡ₚ filter (passes ownerUid rp) (map_to_list m).*2 ∧ StronglySorted listed_before l.

Lemma shown_summaries ownerUid rp l :
  shown ownerUid rp (summary_of <$> l) = summary_of <$> filter (passes ownerUid rp) l.
Proof.
  unfold shown. induction l as [|c l IH]; [done|]. rewrite fmap_cons, !filter_cons.
  assert (listed ownerUid rp (summary_of c) = true ↔ passes ownerUid rp c) as Hc.
  { unfold listed, passes. cbn. destruct ownerUid, rp; rewrite andb_true_iff, ?bool_decide_eq_true, ?Z.eqb_eq; tauto. }
  destruct (decide (passes ownerUid rp c)) as [Hp|Hp].
  - rewrite decide_True by tauto. by rewrite fmap_cons, IH.
  - rewrite decide_False by tauto. exact IH.
Qed.

Lemma StronglySorted_filter {A} (R : A → A → Prop) P `{∀ x, Decision (P x)} (l : list A) :
  StronglySorted R l → StronglySorted R (filter P l).
Proof.
  induction 1 as [|x l Hl IH Hx]; [constructor|]. rewrite filter_cons. case_decide; [|done].
  constructor; [done|]. apply Forall_forall. intros y [_ Hy]%list_elem_of_filter.
  by apply (proj1 (Forall_forall _ _) Hx).
Qed.

Lemma StronglySorted_summaries l :
  StronglySorted (not_before summary_before) (summary_of <$> l) → StronglySorted listed_before l.
Proof.
  induction l as [|c l IH]; [constructor|]. rewrite fmap_cons. inversion_clear 1 as [|? ? Hl Hc].
  constructor; [by apply IH|]. rewrite Forall_fmap in Hc. eapply Forall_impl; [exact Hc|]. intros c'. apply summary_order.
Qed.

(** What the list prints for the summaries of a store. *)
Lemma print_store_spec m credentials ownerUid rp out :
  storage_ok m → credentials ≡ₚ summary_of <$> (map_to_list m).*2 →
  StronglySorted (not_before summary_before) credentials →
  ∃ l, listing m ownerUid rp l ∧
    print_credentials credentials ownerUid rp out = (Ret (), out ++ printed ownerUid rp (credential_line <$> l)).
Proof.
  intros [Hm _] (l & -> & Hl)%Permutation_map_inv Hs. exists (filter (passes ownerUid rp) l). split; [split|].
  - by rewrite Hl.
  - by apply StronglySorted_filter, StronglySorted_summaries.
  - rewrite print_credentials_spec.
    + f_equal. f_equal. f_equal. rewrite shown_summaries, <- list_fmap_compose. apply list_fmap_ext.
      intros i c _. apply credential_line_row.
    + apply Forall_fmap, Forall_forall. intros c Hc. rewrite <- Hl in Hc.
      apply list_elem_of_fmap in Hc as ([k c'] & -> & Hk%elem_of_map_to_list).
      destruct (Hm _ _ Hk) as (_ & Hv%validate_credential_ok & Hb & _). split; [done|]. cbn. lia.
Qed.

(** What a command that returns has printed. *)
Definition command_printed (cmd : store_command) (m : Storage) (text : list Z) : Prop :=
  match cmd with
  | ClearAll => text = lit "Credential store cleared; TPM security objects preserved" ++ [10]
  | EraseOne ownerUid credentialId =>
      text = lit "Credential " ++ credentialId ++ lit " for user id " ++ to_string ownerUid ++ lit " erased" ++ [10]
  | ListAll ownerUid rp => ∃ l, listing m ownerUid rp l ∧ text = printed ownerUid rp (credential_line <$> l)
  end.

(** The commands that write need room for what they write. *)
Definition command_fits (cmd : store_command) (m : Storage) : Prop :=
  match cmd with ListAll _ _ => True | _ => fits (command_target cmd m) end.

(** How a command ends. *)
Definition command_outcome (cmd : store_command) (key : list Z) (m : Storage) (p : Process) (a : Admin)
    (r : res ()) (a' : Admin) : Prop :=
  in_process a a' ∧
  match r with
  | Ret _ => command_allowed cmd m ∧ sealed_store key (command_target cmd m) a' ∧
      ∃ text, ad_output a' = ad_output a ++ text ∧ command_printed cmd m text
  | Throw _ => sealed_store key m a' ∨ sealed_store key (command_target cmd m) a'
  end ∧
  (flock_loop (pr_flock p) ≠ Ret () →
     is_ret r = false ∧ sealed_store key m a' ∧ w_file (ad_world a') = w_file (ad_world a)).

(** The common prefix, followed by what is done with the open store. *)
Lemma opened_outcome cmd key m path p (k : ST Admin ()) a :
  sealed_store key m a →
  (∀ a1, sealed_store key m a1 → w_stored (ad_world a1) = m → is_u64 (w_generation (ad_world a1)) →
     disk (ad_world a1) m (w_generation (ad_world a1)) →
     counter_near (ad_world a1) (w_generation (ad_world a1)) → w_requiresReload (ad_world a1) = false →
     flock_loop (pr_flock p) = Ret () → wp k (command_outcome cmd key m p a1) a1) →
  wp (let! _ := open_store path p in k) (command_outcome cmd key m p a) a.
Proof.
  intros Hs Hk. apply wp_bind. eapply wp_mono; [|by apply open_store_spec].
  intros [[]|e] a1 (Hs1 & Ht & Ho & [Hd Hsp] & Hlock & Hret).
  - destruct (Hret eq_refl) as (H1 & H2 & H3 & H4 & H5).
    assert (flock_loop (pr_flock p) = Ret ()) as Hfl.
    { destruct (flock_loop (pr_flock p)) as [[]|e]; [done|]. by destruct Hlock. }
    eapply wp_mono; [|by apply Hk]. intros r a2 ([Hd2 Hsp2] & Hr & _).
    split; [split; congruence|]. split; [|done]. rewrite <- Ho. exact Hr.
  - split; [done|]. split; [by left|]. intros Hfl. by destruct (Hlock Hfl).
Qed.

Lemma print_outcome cmd key m p text a0 a :
  command_printed cmd m text → flock_loop (pr_flock p) = Ret () → ad_output a = ad_output a0 →
  in_process a0 a → command_allowed cmd m → sealed_store key (command_target cmd m) a →
  wp (print text) (command_outcome cmd key m p a0) a.
Proof.
  intros Hp Hfl Hout Hin Hal Hs. apply wp_on_output. split; [done|]. split; [|done].
  split; [done|]. split; [done|]. exists text. cbn. by rewrite Hout.
Qed.

Lemma run_store_command_spec cmd key m path p a :
  sealed_store key m a → command_fits cmd m →
  wp (run_store_command cmd path p) (command_outcome cmd key m p a) a.
Proof.
  intros Hs Hfit. destruct cmd as [|owner text|owner rp]; cbn [run_store_command].
  - apply (opened_outcome ClearAll); [done|]. intros a1 Hs1 Hst Hg Hd Hc _ Hfl.
    apply wp_bind. eapply wp_mono; [|by apply (mutate_spec DoClear key m)].
    intros [[]|e] a2 (_ & Hout & Hin & Hr); [|by split_and!].
    destruct Hr as [_ Hr]. by apply print_outcome.
  - unfold erase_credential. apply wp_bind, wp_lift.
    destruct (decode_credential_id text) as [id|e] eqn:Ed; [|by split_and!; [| left|]].
    apply decode_credential_id_spec in Ed.
    apply (opened_outcome (EraseOne owner text)); [done|]. intros a1 Hs1 Hst Hg Hd Hc _ Hfl.
    assert (target (DoErase id owner) (ad_world a1) = command_target (EraseOne owner text) m) as Et.
    { cbn [target command_target]. by rewrite Ed, Hst. }
    apply wp_bind. eapply wp_mono; [|apply (mutate_spec (DoErase id owner) key m); try done; by rewrite Et].
    rewrite Et. intros [[]|e] a2 (_ & Hout & Hin & Hr); [|by split_and!].
    destruct Hr as [(c & _ & Hl & Ho) Hr]. apply print_outcome; try done.
    exists c. by rewrite <- Ed, <- Hst.
  - apply (opened_outcome (ListAll owner rp)); [done|]. intros a1 Hs1 Hst Hg Hd Hc Hrl Hfl.
    destruct (list_credentials_complete (ad_world a1) Hrl) as (l & El & Hperm & Hsort).
    apply wp_bind, wp_store_world. unfold wp at 1. rewrite El. cbn [fst snd]. apply wp_on_output.
    cbn [ad_output]. unfold wp. rewrite Hst in Hperm.
    destruct Hs1 as (n & o & g & Hs1).
    destruct (print_store_spec m l owner rp (ad_output a1)) as (shown_ & Hsh & ->); [apply Hs1|done..|].
    split; [done|]. split; [|done]. split; [done|]. split; [by exists n, o, g|].
    eexists. split; [reflexivity|]. by exists shown_.
Qed.
End admin.

(** ** Properties *)

(** C38: vauthctl works on the store only where and when it should.  The administrator's own
    process never touches the store or the TPM: it starts at most one process, whose command
    line is the fixed list of systemd-run's restrictions (among them the vauth user and the
    decrypted authorisation) followed by the arguments of its own complete request, from which
    [read_request] reads back exactly the command, owner, relying party and identifier that
    were asked for, and it creates the authorisation only for [provision].  A managed process starts nothing, and
    changes or prints anything only as the vauth user with credentials from systemd, for a
    command that is complete: clearing needs its explicit confirmation, deleting an owner and
    an identifier.  Without options nothing happens. *)
Theorem vauthctl_guarded `{StoreEnv, Fapi} parsed p a code a' :
  vauthctl_main parsed p a = (code, a') →
  match ps_options parsed with
  | None => a' = a ∧ code = ps_exitCode parsed
  | Some o =>
      if o_managed o then
        ad_dir a' = ad_dir a ∧ ad_spawned a' = ad_spawned a ∧
        (a' ≠ a → managed_context p a ∧ complete o)
      else
        ad_world a' = ad_world a ∧ ad_tpm a' = ad_tpm a ∧
        (ad_dir a' ≠ ad_dir a → o_command o = cmd_provision) ∧
        (ad_spawned a' = ad_spawned a ∨
         complete o ∧ ∃ rest, command_arguments o = Ret rest ∧
           ad_spawned a' = ad_spawned a ++ [systemd_run_arguments (pr_config p) ++ rest] ∧
           Forall (λ r, lit r ∈ systemd_run_arguments (pr_config p)) required_restrictions ∧
           (owner_ok o → read_request rest = Some (request o)))
  end.
Proof.
  unfold vauthctl_main. destruct (ps_options parsed) as [o|]; [|by intros [= <- <-]].
  pose proof (execute_spec o p a) as Hw. unfold wp in Hw.
  destruct (execute_command o (operations p) a) as [r a1]. cbn [snd] in Hw. intros E.
  assert (a1 = a') as -> by (by destruct r; injection E). clear E. unfold main_outcome in Hw.
  destruct (o_managed o); [by destruct Hw as [[? ?] ?]|].
  destruct Hw as [(Hworld & Ht & Hdir & Hs) Hc]. split_and!; try done.
  destruct Hs as [Hs|(rest & Er & Hs)]; [by left|right]. split.
  - apply Hc. rewrite Hs. intros Habs%(f_equal length). rewrite length_app in Habs. simpl in Habs. lia.
  - exists rest. split; [done|]. split; [done|].
    split; [apply restrictions_present|]. intros Ho. by apply command_arguments_read.
Qed.

Definition example_config : ManagedExecutionConfig :=
  mkManagedConfig (lit "/usr/bin/systemd-run") (lit "/usr/bin/vauthctl") (lit "/var/lib/tpm2-tss").

(** The process of the vauth user, and the machine with one stored credential. *)
Definition example_process : Process :=
  mkProcess (Some (lit "/run/credentials/vauthctl"))
    (λ path, if bool_decide (path = lit "/run/credentials/vauthctl/vauth-db-auth")
             then mkAuthFile true (Some example_stat) [ReadBytes (base64url example_random ++ [NEWLINE])]
             else mkAuthFile false None [])
    1024 (passwd_entry 993) [flock_eintr; flock_done] example_config 0 (child_exited 0) true
    (mkQueries (Ret false) (Ret None) (Ret None)) example_provisioning.

Definition example_admin : Admin :=
  mkAdmin example_stored (sc_tpm StoreSecurity.example_provisioned) (mkCredDir None None []) [] [].

Definition clear_options (managed : bool) : Options :=
  mkOptions cmd_credentialsClear managed None None None true.

Lemma vauthctl_guarded_witness :
  let a' := (vauthctl_main (mkParse (Some (clear_options false)) 0) example_process example_admin).2 in
  ad_world a' = example_stored ∧
  ad_spawned a' = [systemd_run_arguments example_config ++
    (lit <$> ["--managed"; "credentials"; "clear"; "--confirm-destroy-all"]%string)].
Proof.
  destruct (vauthctl_guarded (mkParse (Some (clear_options false)) 0) example_process example_admin 0
    (vauthctl_main (mkParse (Some (clear_options false)) 0) example_process example_admin).2)
    as (Hw & _ & _ & [Hs|(_ & rest & Hr & Hs & _)]).
  - reflexivity.
  - exfalso. by apply (f_equal length) in Hs.
  - split; [exact Hw|]. injection Hr as <-. exact Hs.
Defined.

(** C40: The commands on the store do exactly what they say, whatever fails on the way.
    From a store that holds [m] under the key sealed in the TPM, and provided that what a
    [delete] or [clear] leaves fits the reader's size limit: a [delete] that returns has
    removed the one credential with that identifier, which belonged to that owner, and
    nothing else; a [clear] that returns has removed all; both say so.  A [list] changes
    nothing and prints, after the filters and under a heading, one line for each credential
    of [m] that passes the filters, ordered by owner, relying party, age and identifier, each
    with its owner, relying party, user, type and identifier, or that there is none.  A
    command that throws leaves the store at [m] or has taken effect completely.  When the
    store is locked by the daemon, the command fails and the file is untouched.  The result
    is again a store that the next command can open. *)
Theorem store_commands_exact `{StoreEnv, Fapi} cmd key m path p a r a' :
  sealed_store key m a → command_fits cmd m → run_store_command cmd path p a = (r, a') →
  ad_dir a' = ad_dir a ∧ ad_spawned a' = ad_spawned a ∧
  match r with
  | Ret _ => command_allowed cmd m ∧ sealed_store key (command_target cmd m) a' ∧
      ∃ text, ad_output a' = ad_output a ++ text ∧ command_printed cmd m text
  | Throw _ => sealed_store key m a' ∨ sealed_store key (command_target cmd m) a'
  end ∧
  (flock_loop (pr_flock p) ≠ Ret () →
     is_ret r = false ∧ sealed_store key m a' ∧ w_file (ad_world a') = w_file (ad_world a)).
Proof.
  intros Hs Hfit E.
  destruct (wp_run _ _ _ _ _ (run_store_command_spec cmd key m path p a Hs Hfit) E) as ([Hd Hsp] & Hr & Hl).
  by split_and!.
Qed.

Lemma example_sealed : sealed_store (replicate 32 7) (target example_put example_world) example_admin.
Proof.
  destruct (run_op_spec example_put ∅ 0 example_world (Ret ()) example_stored) as (_ & _ & _ & Hout).
  - left. by split_and!.
  - intros _. simpl. lia.
  - apply storage_ok_empty.
  - done.
  - done.
  - exact example_op_ok.
  - exact example_fits.
  - apply injective_projections; [vm_compute; reflexivity|reflexivity].
  - destruct Hout as [(_ & Hacc & _ & _ & _ & Hg & Hd & Hc)|([e He] & _)]; [|done].
    exists 1, 1, 1. split; [split; [vm_compute; reflexivity..|unfold U64_MAX; lia]|].
    split; [vm_compute; reflexivity|]. split; [vm_compute; reflexivity|]. split; [vm_compute; reflexivity|].
    split; [exact Hd|]. split; [exact Hc|]. split; [|lia].
    apply target_ok; [apply storage_ok_empty|exact example_op_ok|exact Hacc|done].
Qed.

Definition example_erase : store_command := EraseOne 1000 (hex_string (c_id example_cred)).

Lemma store_commands_exact_witness :
  let '(r, a') := run_store_command example_erase None example_process example_admin in
  let '(r2, a2) := run_store_command (ListAll (Some 1000) None) None example_process example_admin in
  r = Ret () ∧ sealed_store (replicate 32 7)
    (command_target example_erase (target example_put example_world)) a' ∧
  r2 = Ret () ∧ ∃ l, l ≡ₚ (map_to_list (target example_put example_world)).*2 ∧
    ad_output a2 = printed (Some 1000) None (credential_line <$> l).
Proof.
  assert ((run_store_command example_erase None example_process example_admin).1 = Ret ()) as Er
    by (vm_compute; reflexivity).
  assert ((run_store_command (ListAll (Some 1000) None) None example_process example_admin).1 = Ret ()) as Er2
    by (vm_compute; reflexivity).
  destruct (run_store_command example_erase None example_process example_admin) as [r a'] eqn:E.
  destruct (run_store_command (ListAll (Some 1000) None) None example_process example_admin) as [r2 a2] eqn:E2.
  cbn [fst] in Er, Er2. subst r r2. split; [reflexivity|]. split; [|split; [reflexivity|]].
  - destruct (store_commands_exact example_erase (replicate 32 7) (target example_put example_world) None
      example_process example_admin (Ret ()) a' example_sealed) as (_ & _ & (_ & Hs & _) & _).
    + intros q Eq. vm_compute in Eq. injection Eq as <-. vm_compute. congruence.
    + exact E.
    + exact Hs.
  - destruct (store_commands_exact (ListAll (Some 1000) None) (replicate 32 7) (target example_put example_world) None
      example_process example_admin (Ret ()) a2 example_sealed I E2) as (_ & _ & (_ & _ & text & Ht & l & [Hl _] & ->) & _).
    exists l. split; [|exact Ht]. rewrite Hl. apply (bool_decide_unpack _). vm_compute. exact I.
Defined.
