(* ===== verification/TpmKeys.v ===== *)
(** * Credential keys in the TPM (src/src/cryptography/tpm.cpp, tpm.hpp, crypto.cpp)

    Every credential has its own key, created under a parent that the TPM derives anew for
    each process and usable only with an authorisation derived from the store's key and the
    credential's identifier.  The TPM software stack (ESYS and its marshalling) and OpenSSL
    are the class [KeyStack]; its laws say what the TPM does to loaded objects. *)
From Stdlib Require Import ZArith Lia.
From stdpp Require Import base list strings.
From S2P Require Import Prelude CredentialStore StoreSecurity Ceremony.

(** ** Public areas *)

Definition TPM2_ALG_AES : Z := 6.
Definition TPM2_ALG_SHA256 : Z := 11.
Definition TPM2_ALG_NULL : Z := 16.
Definition TPM2_ALG_ECDSA : Z := 24.
Definition TPM2_ALG_ECC : Z := 35.
Definition TPM2_ALG_CFB : Z := 67.
Definition TPM2_ECC_NIST_P256 : Z := 3.

Definition TPMA_OBJECT_FIXEDTPM : Z := 2.
Definition TPMA_OBJECT_FIXEDPARENT : Z := 16.
Definition TPMA_OBJECT_SENSITIVEDATAORIGIN : Z := 32.
Definition TPMA_OBJECT_USERWITHAUTH : Z := 64.
Definition TPMA_OBJECT_NODA : Z := 1024.
Definition TPMA_OBJECT_RESTRICTED : Z := 65536.
Definition TPMA_OBJECT_DECRYPT : Z := 131072.
Definition TPMA_OBJECT_SIGN_ENCRYPT : Z := 262144.

Definition AUTHORIZATION_SIZE : Z := 32.
Definition CREDENTIAL_ID_MIN_SIZE : Z := 16.
Definition CREDENTIAL_ID_MAX_SIZE : Z := 1024.
Definition SHA256_SIZE : Z := 32.
Definition PARENT_AUTH_LABEL : list Z := lit "vauth transient parent authorization v1".
Definition CREDENTIAL_MASTER_LABEL : list Z := lit "vauth credential authorization master v1".
Definition CREDENTIAL_AUTH_LABEL : list Z := lit "vauth credential authorization v1".

Definition PARENT_ATTRIBUTES : Z :=
  foldl Z.lor 0 [TPMA_OBJECT_FIXEDTPM; TPMA_OBJECT_FIXEDPARENT; TPMA_OBJECT_SENSITIVEDATAORIGIN;
    TPMA_OBJECT_USERWITHAUTH; TPMA_OBJECT_NODA; TPMA_OBJECT_RESTRICTED; TPMA_OBJECT_DECRYPT].
Definition CREDENTIAL_ATTRIBUTES : Z :=
  foldl Z.lor 0 [TPMA_OBJECT_SIGN_ENCRYPT; TPMA_OBJECT_FIXEDTPM; TPMA_OBJECT_FIXEDPARENT;
    TPMA_OBJECT_SENSITIVEDATAORIGIN; TPMA_OBJECT_USERWITHAUTH; TPMA_OBJECT_NODA].

(** [TPMT_PUBLIC], as far as the code looks at it; a sized buffer is its contents. *)
Record PublicArea := mkPublicArea {
  pa_type : Z;
  pa_nameAlg : Z;
  pa_objectAttributes : Z;
  pa_authPolicy : list Z;
  pa_symmetric : Z;
  pa_keyBits : Z;
  pa_mode : Z;
  pa_scheme : Z;
  pa_hashAlg : Z;
  pa_curveID : Z;
  pa_kdf : Z;
  pa_x : list Z;
  pa_y : list Z;
}.

#[global] Instance PublicArea_eq_dec : EqDecision PublicArea.
Proof. solve_decision. Defined.

(** [TPM2B_PUBLIC] with its size field, and [TPM2B_PRIVATE]. *)
Record TPM2B_PUBLIC := mkPublic { pub_size : Z; pub_area : PublicArea }.
Record TPM2B_PRIVATE := mkPrivate { prv_size : Z; prv_buffer : list Z }.

(** [TPMT_SIGNATURE] *)
Record Signature := mkSignature {
  sig_alg : Z;
  sig_hash : Z;
  sig_r : list Z;
  sig_s : list Z;
}.

Definition parent_template : PublicArea :=
  mkPublicArea TPM2_ALG_ECC TPM2_ALG_SHA256 PARENT_ATTRIBUTES [] TPM2_ALG_AES 128 TPM2_ALG_CFB
    TPM2_ALG_NULL 0 TPM2_ECC_NIST_P256 TPM2_ALG_NULL [] [].

Definition credential_template : PublicArea :=
  mkPublicArea TPM2_ALG_ECC TPM2_ALG_SHA256 CREDENTIAL_ATTRIBUTES [] TPM2_ALG_NULL 0 0
    TPM2_ALG_ECDSA TPM2_ALG_SHA256 TPM2_ECC_NIST_P256 TPM2_ALG_NULL [] [].

(** [point.x.size == 0 || point.x.size > SHA256_SIZE], negated *)
Definition coordinate_ok (c : list Z) : bool := negb (len c =? 0) && (len c <=? SHA256_SIZE).

Definition validate_parent_public (public_blob : TPM2B_PUBLIC) : res () :=
  let a := pub_area public_blob in
  throw_if negb (pa_type a =? TPM2_ALG_ECC) || negb (pa_nameAlg a =? TPM2_ALG_SHA256) ||
           negb (pa_objectAttributes a =? PARENT_ATTRIBUTES) || negb (len (pa_authPolicy a) =? 0) ||
           negb (pa_symmetric a =? TPM2_ALG_AES) || negb (pa_keyBits a =? 128) ||
           negb (pa_mode a =? TPM2_ALG_CFB) || negb (pa_scheme a =? TPM2_ALG_NULL) ||
           negb (pa_curveID a =? TPM2_ECC_NIST_P256) || negb (pa_kdf a =? TPM2_ALG_NULL) ||
           negb (coordinate_ok (pa_x a)) || negb (coordinate_ok (pa_y a)) as runtime_error ;;
  Ret ().

Definition validate_public_key (public_blob : TPM2B_PUBLIC) : res () :=
  let a := pub_area public_blob in
  throw_if negb (pa_type a =? TPM2_ALG_ECC) || negb (pa_nameAlg a =? TPM2_ALG_SHA256) ||
           negb (pa_objectAttributes a =? CREDENTIAL_ATTRIBUTES) || negb (len (pa_authPolicy a) =? 0) ||
           negb (pa_symmetric a =? TPM2_ALG_NULL) || negb (pa_scheme a =? TPM2_ALG_ECDSA) ||
           negb (pa_hashAlg a =? TPM2_ALG_SHA256) || negb (pa_curveID a =? TPM2_ECC_NIST_P256) ||
           negb (pa_kdf a =? TPM2_ALG_NULL) ||
           negb (coordinate_ok (pa_x a)) || negb (coordinate_ok (pa_y a)) as runtime_error ;;
  Ret ().

Definition validate_credential_id (credential_id : list Z) : res () :=
  throw_if (len credential_id <? CREDENTIAL_ID_MIN_SIZE) || (CREDENTIAL_ID_MAX_SIZE <? len credential_id)
    as invalid_argument ;;
  Ret ().

(** ** The stack *)

Definition ESYS_TR_NONE : Z := 4095.

(** An object in the TPM: its authorisation and its public area. *)
Record TpmObject := mkObject { ob_auth : list Z; ob_area : PublicArea }.

(** The OpenSSL calls whose return code is checked, and the objects it allocates. *)
Inductive ssl_call :=
  | derive_init | set_hkdf_md | set1_hkdf_key | add1_hkdf_label | add1_hkdf_context | pkey_derive
  | digest_init | digest_update | digest_final | ecdsa_set0.
Inductive ssl_object := pkey_ctx | md_ctx | ecdsa_sig.

(** The calls, with what a pointer returns as an [option].  [object_at_handle] and
    [handle_auth] are what the TPM has loaded and which password ESYS sends for it;
    [unwraps parent private] is the object a private blob holds under a parent;
    [verifies] is ECDSA verification by the key of a public area. *)
Class KeyStack := {
  Kst : Type;
  object_at_handle : Kst → Z → option TpmObject;
  handle_auth : Kst → Z → list Z;
  unwraps : TpmObject → list Z → option TpmObject;
  verifies : PublicArea → list Z → Signature → Prop;
  (** OpenSSL *)
  ssl_new : ssl_object → Kst → bool;
  ssl_rc : ssl_call → Kst → Z;
  hkdf_sha256 : list Z → list Z → list Z;
  evp_sha256 : list Z → list Z;
  rand_bytes : Z → Kst → (Z * list Z) * Kst;
  bn_bin2bn : list Z → Kst → option Z;
  i2d_size : Z → Z → Kst → Z;
  i2d_encode : Z → Z → Kst → Z * list Z;
  (** marshalling: a return code, the offset reached and the value *)
  mu_public_marshal : TPM2B_PUBLIC → Z → Z * Z * list Z;
  mu_public_unmarshal : list Z → Z * Z * TPM2B_PUBLIC;
  mu_private_marshal : TPM2B_PRIVATE → Z → Z * Z * list Z;
  mu_private_unmarshal : list Z → Z * Z * TPM2B_PRIVATE;
  (** ESYS *)
  esys_initialize : Kst → Z;
  esys_create_primary : list Z → PublicArea → Kst → (Z * Z * option TPM2B_PUBLIC) * Kst;
  esys_set_auth : Z → list Z → Kst → Z * Kst;
  esys_create : Z → list Z → PublicArea → Kst →
    (Z * option TPM2B_PRIVATE * option TPM2B_PUBLIC) * Kst;
  esys_load : Z → TPM2B_PRIVATE → TPM2B_PUBLIC → Kst → (Z * Z) * Kst;
  esys_sign : Z → list Z → Kst → (Z * option Signature) * Kst;
  esys_flush : Z → Kst → Z * Kst;
  (** Laws. *)
  hkdf_length key info : len (hkdf_sha256 key info) = AUTHORIZATION_SIZE;
  rand_bytes_ok n t b t' : rand_bytes n t = ((1, b), t') → bytes_ok b ∧ len b = n;
  rand_bytes_quiet n t h : object_at_handle (rand_bytes n t).2 h = object_at_handle t h;
  public_marshal_ok v capacity offset b :
    mu_public_marshal v capacity = (TSS2_RC_SUCCESS, offset, b) →
    offset = len b ∧ bytes_ok b ∧ mu_public_unmarshal b = (TSS2_RC_SUCCESS, len b, v);
  private_marshal_ok v capacity offset b :
    mu_private_marshal v capacity = (TSS2_RC_SUCCESS, offset, b) →
    offset = len b ∧ bytes_ok b ∧ mu_private_unmarshal b = (TSS2_RC_SUCCESS, len b, v);
  create_primary_effect auth template t :
    let '((rc, h, public), t') := esys_create_primary auth template t in
    if bool_decide (rc = TSS2_RC_SUCCESS) then
      h ≠ ESYS_TR_NONE ∧ object_at_handle t h = None ∧
      (∀ v, public = Some v → object_at_handle t' h = Some (mkObject auth (pub_area v))) ∧
      (∀ q, q ≠ h → object_at_handle t' q = object_at_handle t q ∧ handle_auth t' q = handle_auth t q)
    else h = ESYS_TR_NONE ∧
      ∀ q, object_at_handle t' q = object_at_handle t q ∧ handle_auth t' q = handle_auth t q;
  set_auth_effect h auth t :
    let '(rc, t') := esys_set_auth h auth t in
    (∀ q, object_at_handle t' q = object_at_handle t q) ∧
    (∀ q, q ≠ h → handle_auth t' q = handle_auth t q) ∧
    (rc = TSS2_RC_SUCCESS → handle_auth t' h = auth);
  create_effect parent auth template t :
    let '((rc, private, public), t') := esys_create parent auth template t in
    (∀ q, object_at_handle t' q = object_at_handle t q ∧ handle_auth t' q = handle_auth t q) ∧
    (∀ b v, rc = TSS2_RC_SUCCESS → private = Some b → public = Some v →
       ∃ p, object_at_handle t parent = Some p ∧ handle_auth t parent = ob_auth p ∧
         unwraps p (prv_buffer b) = Some (mkObject auth (pub_area v)));
  load_effect parent private public t :
    let '((rc, h), t') := esys_load parent private public t in
    if bool_decide (rc = TSS2_RC_SUCCESS) then
      h ≠ ESYS_TR_NONE ∧ object_at_handle t h = None ∧
      (∃ p o, object_at_handle t parent = Some p ∧ handle_auth t parent = ob_auth p ∧
         unwraps p (prv_buffer private) = Some o ∧ ob_area o = pub_area public ∧
         object_at_handle t' h = Some o) ∧
      (∀ q, q ≠ h → object_at_handle t' q = object_at_handle t q ∧ handle_auth t' q = handle_auth t q)
    else h = ESYS_TR_NONE ∧
      ∀ q, object_at_handle t' q = object_at_handle t q ∧ handle_auth t' q = handle_auth t q;
  sign_effect h digest t :
    let '((rc, signature), t') := esys_sign h digest t in
    (∀ q, object_at_handle t' q = object_at_handle t q ∧ handle_auth t' q = handle_auth t q) ∧
    (∀ sg, rc = TSS2_RC_SUCCESS → signature = Some sg →
       ∃ o, object_at_handle t h = Some o ∧ handle_auth t h = ob_auth o ∧
         verifies (ob_area o) digest sg);
  flush_effect h t :
    let '(rc, t') := esys_flush h t in
    (∀ q, q ≠ h → object_at_handle t' q = object_at_handle t q ∧ handle_auth t' q = handle_auth t q) ∧
    (rc = TSS2_RC_SUCCESS → object_at_handle t' h = None) ∧
    (rc ≠ TSS2_RC_SUCCESS → object_at_handle t' h = object_at_handle t h);
}.

(** ** OpenSSL helpers (crypto.cpp) *)

Definition openssl_check (result : Z) : res () :=
  throw_if negb (result =? 1) as runtime_error ;; Ret ().

Definition openssl_check_positive (result : Z) : res () :=
  throw_if negb (0 <? result) as runtime_error ;; Ret ().

Section keys.
Context `{KeyStack}.

(** A call whose answer depends on the machine and does not change it. *)
Definition ask {A} (f : Kst → A) : ST Kst A := λ t, (Ret (f t), t).
Definition call {A} (f : Kst → A * Kst) : ST Kst A := λ t, let '(a, t') := f t in (Ret a, t').
Definition reads {A} (f : Kst → res A) : ST Kst A := λ t, (f t, t).

(** [openssl_make_digest_context] and its siblings. *)
Definition openssl_make (object : ssl_object) (t : Kst) : res () :=
  throw_if negb (ssl_new object t) as runtime_error ;; Ret ().

Definition openssl_make_big_number (bytes : list Z) (t : Kst) : res Z :=
  _ ← openssl_checked_size (len bytes);
  match bn_bin2bn bytes t with None => Throw runtime_error | Some n => Ret n end.

Definition random_bytes (size : Z) : ST Kst (list Z) :=
  let! _ := st_lift (openssl_checked_size size) in
  let! answer := call (rand_bytes size) in
  let! _ := st_lift (openssl_check answer.1) in
  st_ret answer.2.

Definition sha256_bytes (bytes : list Z) (t : Kst) : res (list Z) :=
  _ ← openssl_make md_ctx t;
  _ ← openssl_check (ssl_rc digest_init t);
  _ ← openssl_check (ssl_rc digest_update t);
  _ ← openssl_check (ssl_rc digest_final t);
  Ret (evp_sha256 bytes).

(** ** Authorisations *)

Definition derive_key (input_key label context : list Z) (t : Kst) : res (list Z) :=
  throw_if len input_key =? 0 as invalid_argument ;;
  _ ← openssl_make pkey_ctx t;
  _ ← openssl_check (ssl_rc derive_init t);
  _ ← openssl_check (ssl_rc set_hkdf_md t);
  _ ← openssl_checked_size (len input_key);
  _ ← openssl_check (ssl_rc set1_hkdf_key t);
  _ ← openssl_checked_size (len label);
  _ ← openssl_check (ssl_rc add1_hkdf_label t);
  _ ← (if len context =? 0 then Ret () else
       _ ← openssl_checked_size (len context);
       openssl_check (ssl_rc add1_hkdf_context t));
  _ ← openssl_check (ssl_rc pkey_derive t);
  let output := hkdf_sha256 input_key (label ++ context) in
  throw_if negb (len output =? AUTHORIZATION_SIZE) as runtime_error ;;
  Ret output.

Definition set_auth (handle : Z) (authorization : list Z) : ST Kst () :=
  let! result := call (esys_set_auth handle authorization) in
  st_lift (tss_check result).

(** ** Blobs *)

Definition unmarshal_public (blob : list Z) : res TPM2B_PUBLIC :=
  let '(result, offset, value) := mu_public_unmarshal blob in
  _ ← tss_check result;
  throw_if negb (offset =? len blob) as runtime_error ;; Ret value.

Definition unmarshal_private (blob : list Z) : res TPM2B_PRIVATE :=
  let '(result, offset, value) := mu_private_unmarshal blob in
  _ ← tss_check result;
  throw_if negb (offset =? len blob) as runtime_error ;; Ret value.

(** The output buffer has room for the 16-bit size field and what it announces. *)
Definition marshal_public (value : TPM2B_PUBLIC) : res (list Z) :=
  let capacity := 2 + pub_size value in
  let '(result, offset, output) := mu_public_marshal value capacity in
  _ ← tss_check result;
  throw_if negb (offset =? capacity) as runtime_error ;; Ret output.

Definition marshal_private (value : TPM2B_PRIVATE) : res (list Z) :=
  let capacity := 2 + prv_size value in
  let '(result, offset, output) := mu_private_marshal value capacity in
  _ ← tss_check result;
  throw_if negb (offset =? capacity) as runtime_error ;; Ret output.

(** ** Handles (class TpmTransientHandle) *)

(** [reset], which is also the destructor. *)
Definition flush_handle (handle : Z) (t : Kst) : Kst :=
  if negb (handle =? ESYS_TR_NONE) then (esys_flush handle t).2 else t.

(** A handle that lives to the end of the block. *)
Definition scoped {A} (handle : Z) (m : ST Kst A) : ST Kst A := λ t,
  let '(r, t') := m t in (r, flush_handle handle t').

(** A member's handle: it is flushed when the constructor throws. *)
Definition member_handle {A} (handle : Z) (m : ST Kst A) : ST Kst A := λ t,
  match m t with
  | (Ret a, t') => (Ret a, t')
  | (Throw e, t') => (Throw e, flush_handle handle t')
  end.

(** ** Class CredentialKeyProvider *)

Record CredentialKeyProvider := mkProvider {
  kp_parent : Z;
  kp_parentAuthorization : list Z;
  kp_credentialAuthorizationMaster : list Z;
}.

Definition CredentialKeyProvider_new (master_key : list Z) : ST Kst CredentialKeyProvider :=
  let! initialized := ask esys_initialize in
  let! _ := st_lift (tss_check initialized) in
  if negb (len master_key =? AUTHORIZATION_SIZE) then st_throw invalid_argument else
  let! parentAuthorization := reads (derive_key master_key PARENT_AUTH_LABEL []) in
  let! credentialAuthorizationMaster := reads (derive_key master_key CREDENTIAL_MASTER_LABEL []) in
  let! answer := call (esys_create_primary parentAuthorization parent_template) in
  let '(result, handle, out_public) := answer in
  member_handle handle
    (let! _ := st_lift (tss_check result) in
     match out_public with
     | None => st_throw runtime_error
     | Some public_area =>
         let! _ := st_lift (validate_parent_public public_area) in
         let! _ := set_auth handle parentAuthorization in
         st_ret (mkProvider handle parentAuthorization credentialAuthorizationMaster)
     end).

Definition credential_authorization (kp : CredentialKeyProvider) (credential_id : list Z) (t : Kst)
    : res (list Z) :=
  _ ← validate_credential_id credential_id;
  derive_key (kp_credentialAuthorizationMaster kp) CREDENTIAL_AUTH_LABEL credential_id t.

Definition key_create (kp : CredentialKeyProvider) (credential_id : list Z) : ST Kst CredentialKey :=
  let! authorization := reads (credential_authorization kp credential_id) in
  let! answer := call (esys_create (kp_parent kp) authorization credential_template) in
  let '(result, private_blob, public_blob) := answer in
  let! _ := st_lift (tss_check result) in
  match private_blob, public_blob with
  | Some private_blob, Some public_blob =>
      let! _ := st_lift (validate_public_key public_blob) in
      let! publicBlob := st_lift (marshal_public public_blob) in
      let! privateBlob := st_lift (marshal_private private_blob) in
      st_ret (mkKey privateBlob publicBlob)
  | _, _ => st_throw runtime_error
  end.

(** The checks on what the TPM signed. *)
Definition signature_ok (signature : Signature) : bool :=
  (sig_alg signature =? TPM2_ALG_ECDSA) && (sig_hash signature =? TPM2_ALG_SHA256) &&
  coordinate_ok (sig_r signature) && coordinate_ok (sig_s signature).

(** The DER encoding of a checked signature. *)
Definition der_encode (signature : Signature) (t : Kst) : res (list Z) :=
  _ ← openssl_make ecdsa_sig t;
  r ← openssl_make_big_number (sig_r signature) t;
  s ← openssl_make_big_number (sig_s signature) t;
  _ ← openssl_check (ssl_rc ecdsa_set0 t);
  let der_size := i2d_size r s t in
  _ ← openssl_check_positive der_size;
  let '(encoded_size, der_signature) := i2d_encode r s t in
  _ ← openssl_check_positive encoded_size;
  throw_if negb (encoded_size =? der_size) as runtime_error ;;
  Ret der_signature.

Definition key_sign (kp : CredentialKeyProvider)
    (credential_id digest public_blob_bytes private_blob_bytes : list Z) : ST Kst (list Z) :=
  if negb (len digest =? SHA256_SIZE) then st_throw invalid_argument else
  let! authorization := reads (credential_authorization kp credential_id) in
  let! public_blob := st_lift (unmarshal_public public_blob_bytes) in
  let! _ := st_lift (validate_public_key public_blob) in
  let! private_blob := st_lift (unmarshal_private private_blob_bytes) in
  let! loaded := call (esys_load (kp_parent kp) private_blob public_blob) in
  let '(load_result, key_handle) := loaded in
  scoped key_handle
    (let! _ := st_lift (tss_check load_result) in
     let! _ := set_auth key_handle authorization in
     let! signed := call (esys_sign key_handle digest) in
     let! _ := st_lift (tss_check signed.1) in
     match signed.2 with
     | None => st_throw runtime_error
     | Some signature =>
         if negb (signature_ok signature) then st_throw runtime_error
         else reads (der_encode signature)
     end).

Definition extract_public (public_blob_bytes : list Z) : res (list Z * list Z) :=
  public_blob ← unmarshal_public public_blob_bytes;
  _ ← validate_public_key public_blob;
  Ret (pa_x (pub_area public_blob), pa_y (pub_area public_blob)).
End keys.

(** ** What the stack guarantees *)

Section key_proofs.
Context `{KeyStack}.

Lemma wp_call {A} (f : Kst → A * Kst) (Q : res A → Kst → Prop) t :
  (let '(a, t') := f t in Q (Ret a) t') → wp (call f) Q t.
Proof. unfold wp, call. by destruct (f t). Qed.

Lemma wp_reads {A} (f : Kst → res A) (Q : res A → Kst → Prop) t : Q (f t) t → wp (reads f) Q t.
Proof. done. Qed.

Lemma wp_scoped {A} h (m : ST Kst A) Q t :
  wp m (λ r t', Q r (flush_handle h t')) t → wp (scoped h m) Q t.
Proof. unfold wp, scoped. by destruct (m t). Qed.

Lemma wp_member {A} h (m : ST Kst A) Q t :
  wp m (λ r t', match r with Ret a => Q (Ret a) t' | Throw e => Q (Throw e) (flush_handle h t') end) t →
  wp (member_handle h m) Q t.
Proof. unfold wp, member_handle. by destruct (m t) as [[]]. Qed.

(** The loaded objects and their passwords are the same. *)
Definition same_objects (t t' : Kst) : Prop :=
  ∀ q, object_at_handle t' q = object_at_handle t q ∧ handle_auth t' q = handle_auth t q.

(** The same but for one handle, which was free. *)
Definition one_more (h : Z) (t t' : Kst) : Prop :=
  object_at_handle t h = None ∧
  ∀ q, q ≠ h → object_at_handle t' q = object_at_handle t q ∧ handle_auth t' q = handle_auth t q.

Lemma derive_key_spec key label context t out :
  derive_key key label context t = Ret out → out = hkdf_sha256 key (label ++ context).
Proof.
  unfold derive_key. intros E. apply throw_if_ret in E as [_ E].
  repeat match type of E with (?m ≫= _) = Ret _ => destruct m; [cbn [mbind res_bind] in E|done] end.
  apply throw_if_ret in E as [_ [= <-]]. done.
Qed.

Lemma credential_authorization_spec kp id t out :
  credential_authorization kp id t = Ret out →
  16 ≤ len id ≤ 1024 ∧
  out = hkdf_sha256 (kp_credentialAuthorizationMaster kp) (CREDENTIAL_AUTH_LABEL ++ id).
Proof.
  unfold credential_authorization, validate_credential_id. intros E.
  destruct ((len id <? CREDENTIAL_ID_MIN_SIZE) || _) eqn:El; [done|]. simpl in E. reflect_bools.
  unfold CREDENTIAL_ID_MIN_SIZE, CREDENTIAL_ID_MAX_SIZE in *. split; [lia|]. by eapply derive_key_spec.
Qed.

Lemma coordinate_ok_spec c : coordinate_ok c = true → 1 ≤ len c ≤ 32.
Proof. unfold coordinate_ok, SHA256_SIZE. intros E. reflect_bools. lia. Qed.

(** The public area of a P-256 signing key for credentials. *)
Definition credential_area (a : PublicArea) : Prop :=
  pa_type a = TPM2_ALG_ECC ∧ pa_objectAttributes a = CREDENTIAL_ATTRIBUTES ∧
  pa_scheme a = TPM2_ALG_ECDSA ∧ pa_hashAlg a = TPM2_ALG_SHA256 ∧ pa_curveID a = TPM2_ECC_NIST_P256 ∧
  1 ≤ len (pa_x a) ≤ 32 ∧ 1 ≤ len (pa_y a) ≤ 32.

Lemma validate_public_key_spec v : validate_public_key v = Ret () → credential_area (pub_area v).
Proof.
  unfold validate_public_key. intros [E _]%throw_if_ret. reflect_bools.
  split_and!; try done; by apply coordinate_ok_spec.
Qed.

Lemma set_auth_spec h auth t :
  wp (set_auth h auth) (λ r t',
    (∀ q, object_at_handle t' q = object_at_handle t q) ∧
    (∀ q, q ≠ h → handle_auth t' q = handle_auth t q) ∧
    (r = Ret () → handle_auth t' h = auth)) t.
Proof.
  apply wp_bind, wp_call. pose proof (set_auth_effect h auth t) as He.
  destruct (esys_set_auth h auth t) as [rc t1]. destruct He as (H1 & H2 & H3). apply wp_lift.
  split_and!; [done|done|]. intros Hr. apply H3. by apply tss_check_ret.
Qed.

Definition flushes : Prop := ∀ h t, (esys_flush h t).1 = TSS2_RC_SUCCESS.

(** Flushing the handle that was added restores what was loaded. *)
Lemma flush_one_more h t t' :
  flushes → h ≠ ESYS_TR_NONE → one_more h t t' →
  ∀ q, object_at_handle (flush_handle h t') q = object_at_handle t q ∧
       (q ≠ h → handle_auth (flush_handle h t') q = handle_auth t q).
Proof.
  intros Hf Hh [Hn Ho] q. unfold flush_handle. apply Z.eqb_neq in Hh. rewrite Hh. cbn [negb].
  pose proof (flush_effect h t') as He. specialize (Hf h t'). destruct (esys_flush h t') as [rc t2].
  cbn [fst snd] in *. destruct He as (H1 & H2 & _). specialize (H2 Hf).
  destruct (decide (q = h)) as [->|Hq]; [by rewrite H2, Hn|].
  destruct (H1 q Hq) as [-> ->]. destruct (Ho q Hq) as [-> ->]. done.
Qed.

(** ** Signing *)

(** What a signature rests on. *)
Definition signed_by (kp : CredentialKeyProvider) (id digest public_blob private_blob : list Z) (t : Kst)
    (der : list Z) : Prop :=
  ∃ parent v b o sg t1,
    object_at_handle t (kp_parent kp) = Some parent ∧ handle_auth t (kp_parent kp) = ob_auth parent ∧
    unmarshal_public public_blob = Ret v ∧ unmarshal_private private_blob = Ret b ∧
    unwraps parent (prv_buffer b) = Some o ∧ ob_area o = pub_area v ∧ credential_area (ob_area o) ∧
    16 ≤ len id ≤ 1024 ∧ len digest = SHA256_SIZE ∧
    ob_auth o = hkdf_sha256 (kp_credentialAuthorizationMaster kp) (CREDENTIAL_AUTH_LABEL ++ id) ∧
    verifies (ob_area o) digest sg ∧ signature_ok sg = true ∧ der_encode sg t1 = Ret der.

(** The block that holds the loaded key. *)
Lemma sign_block_spec h authorization digest o t :
  object_at_handle t h = Some o →
  wp (let! _ := set_auth h authorization in
      let! signed := call (esys_sign h digest) in
      let! _ := st_lift (tss_check signed.1) in
      match signed.2 with
      | None => st_throw runtime_error
      | Some signature =>
          if negb (signature_ok signature) then st_throw runtime_error
          else reads (der_encode signature)
      end)
     (λ r t', (∀ q, object_at_handle t' q = object_at_handle t q) ∧
        (∀ q, q ≠ h → handle_auth t' q = handle_auth t q) ∧
        (∀ der, r = Ret der → ob_auth o = authorization ∧
           ∃ sg t1, verifies (ob_area o) digest sg ∧ signature_ok sg = true ∧ der_encode sg t1 = Ret der)) t.
Proof.
  intros Ho. apply wp_bind. eapply wp_mono; [|apply set_auth_spec].
  intros [[]|e] t1 (H1 & H2 & H3); [|by split_and!]. specialize (H3 eq_refl).
  apply wp_bind, wp_call. pose proof (sign_effect h digest t1) as He.
  destruct (esys_sign h digest t1) as [[rc sg] t2]. destruct He as [Hsame Hsig].
  assert ((∀ q, object_at_handle t2 q = object_at_handle t q) ∧
          ∀ q, q ≠ h → handle_auth t2 q = handle_auth t q) as [H4 H5].
  { split; intros q; destruct (Hsame q) as [E1 E2]; rewrite ?E1, ?E2; auto. }
  apply wp_bind, wp_lift. cbn [fst snd]. destruct (tss_check_cases rc) as [[-> ->]|[-> _]]; [|by split_and!].
  destruct sg as [sg|]; [|by split_and!].
  destruct (signature_ok sg) eqn:Es; cbn [negb]; [|by split_and!].
  apply wp_reads. split_and!; try done. intros der Hder.
  destruct (Hsig sg eq_refl eq_refl) as (o' & Ho' & Ha & Hv). rewrite H1, Ho in Ho'. injection Ho' as <-.
  split; [congruence|]. by exists sg, t2.
Qed.

Lemma key_sign_spec kp id digest public_blob private_blob t :
  wp (key_sign kp id digest public_blob private_blob) (λ r t',
    (flushes → ∀ q, object_at_handle t' q = object_at_handle t q ∧
       (object_at_handle t q ≠ None → handle_auth t' q = handle_auth t q)) ∧
    (∀ der, r = Ret der → signed_by kp id digest public_blob private_blob t der)) t.
Proof.
  unfold key_sign. destruct (len digest =? SHA256_SIZE) eqn:Ed; cbn [negb]; [|by split]. reflect_bools.
  apply wp_bind, wp_reads. destruct (credential_authorization kp id t) as [authorization|e] eqn:Ea; [|by split].
  apply credential_authorization_spec in Ea as [Hid Hauth].
  apply wp_bind, wp_lift. destruct (unmarshal_public public_blob) as [v|e] eqn:Ev; [|by split].
  apply wp_bind, wp_lift. destruct (validate_public_key v) as [[]|e] eqn:Evk; [|by split].
  apply validate_public_key_spec in Evk.
  apply wp_bind, wp_lift. destruct (unmarshal_private private_blob) as [b|e] eqn:Eb; [|by split].
  apply wp_bind, wp_call. pose proof (load_effect (kp_parent kp) b v t) as He.
  destruct (esys_load (kp_parent kp) b v t) as [[rc h] t1]. apply wp_scoped, wp_bind, wp_lift.
  destruct (tss_check_cases rc) as [[-> ->]|[-> Hne]].
  - rewrite bool_decide_eq_true_2 in He by done.
    destruct He as (Hh & Hnone & (parent & o & Hp & Hpa & Hun & Har & Ho) & Hrest).
    eapply wp_mono; [|by apply sign_block_spec]. intros r t2 (H1 & H2 & H3). split.
    + intros Hfl q. destruct (flush_one_more h t t2 Hfl Hh) with (q := q) as [H4 H5].
      { split; [done|]. intros q' Hq'. destruct (Hrest q' Hq') as [<- <-]. auto. }
      split; [done|]. intros Hq. apply H5. congruence.
    + intros der Hr. destruct (H3 der Hr) as (Hao & sg & t3 & Hv & Hs & Hder).
      exists parent, v, b, o, sg, t3. split_and!; try done; (lia || congruence).
  - rewrite bool_decide_eq_false_2 in He by done. destruct He as [-> He].
    split; [|done]. intros _ q. destruct (He q) as [Hq1 Hq2]. by split.
Qed.

(** ** Creating *)

Lemma marshal_public_spec v b : marshal_public v = Ret b → bytes_ok b ∧ unmarshal_public b = Ret v.
Proof.
  unfold marshal_public, unmarshal_public.
  destruct (mu_public_marshal v (2 + pub_size v)) as [[rc offset] out] eqn:E.
  destruct (tss_check_cases rc) as [[-> ->]|[-> _]]; [|done]. cbn [mbind res_bind].
  intros [_ [= <-]]%throw_if_ret. apply public_marshal_ok in E as (-> & Hb & ->). cbn [mbind res_bind].
  by rewrite Z.eqb_refl.
Qed.

Lemma marshal_private_spec v b : marshal_private v = Ret b → bytes_ok b ∧ unmarshal_private b = Ret v.
Proof.
  unfold marshal_private, unmarshal_private.
  destruct (mu_private_marshal v (2 + prv_size v)) as [[rc offset] out] eqn:E.
  destruct (tss_check_cases rc) as [[-> ->]|[-> _]]; [|done]. cbn [mbind res_bind].
  intros [_ [= <-]]%throw_if_ret. apply private_marshal_ok in E as (-> & Hb & ->). cbn [mbind res_bind].
  by rewrite Z.eqb_refl.
Qed.

(** The key behind stored blobs. *)
Definition holds_key (parent : TpmObject) (key : CredentialKey) (o : TpmObject) : Prop :=
  ∃ v b, unmarshal_public (key_publicBlob key) = Ret v ∧ unmarshal_private (key_privateBlob key) = Ret b ∧
    unwraps parent (prv_buffer b) = Some o ∧ ob_area o = pub_area v ∧ validate_public_key v = Ret ().

Lemma key_create_spec kp id t :
  wp (key_create kp id) (λ r t', same_objects t t' ∧
    ∀ key, r = Ret key → bytes_ok (key_privateBlob key) ∧ bytes_ok (key_publicBlob key) ∧
      16 ≤ len id ≤ 1024 ∧
      ∃ parent o, object_at_handle t (kp_parent kp) = Some parent ∧ holds_key parent key o ∧
        ob_auth o = hkdf_sha256 (kp_credentialAuthorizationMaster kp) (CREDENTIAL_AUTH_LABEL ++ id)) t.
Proof.
  unfold key_create. apply wp_bind, wp_reads.
  destruct (credential_authorization kp id t) as [authorization|e] eqn:Ea; [|by split].
  apply credential_authorization_spec in Ea as [Hid ->].
  apply wp_bind, wp_call.
  pose proof (create_effect (kp_parent kp) (hkdf_sha256 (kp_credentialAuthorizationMaster kp)
    (CREDENTIAL_AUTH_LABEL ++ id)) credential_template t) as He.
  destruct (esys_create _ _ _ _) as [[[rc private] public] t1]. destruct He as [Hsame Hkey].
  apply wp_bind, wp_lift. destruct (tss_check_cases rc) as [[-> ->]|[-> _]]; [|by split].
  destruct private as [b|], public as [v|]; try (by split).
  destruct (Hkey b v eq_refl eq_refl eq_refl) as (parent & Hp & _ & Hun).
  apply wp_bind, wp_lift. destruct (validate_public_key v) as [[]|e] eqn:Ev; [|by split].
  apply wp_bind, wp_lift. destruct (marshal_public v) as [pb|e] eqn:Epb; [|by split].
  apply wp_bind, wp_lift. destruct (marshal_private b) as [qb|e] eqn:Eqb; [|by split].
  apply marshal_public_spec in Epb as [Hpb Epb]. apply marshal_private_spec in Eqb as [Hqb Eqb].
  apply wp_ret. split; [done|]. intros key [= <-]. split; [done|]. split; [done|]. split; [done|].
  exists parent, (mkObject (hkdf_sha256 (kp_credentialAuthorizationMaster kp) (CREDENTIAL_AUTH_LABEL ++ id)) (pub_area v)).
  split; [done|]. split; [|done]. exists v, b. by split_and!.
Qed.

(** ** The provider *)

Definition parent_ready (kp : CredentialKeyProvider) (master_key : list Z) (t : Kst) : Prop :=
  kp_parentAuthorization kp = hkdf_sha256 master_key PARENT_AUTH_LABEL ∧
  kp_credentialAuthorizationMaster kp = hkdf_sha256 master_key CREDENTIAL_MASTER_LABEL ∧
  ∃ v, validate_parent_public v = Ret () ∧
    object_at_handle t (kp_parent kp) = Some (mkObject (kp_parentAuthorization kp) (pub_area v)) ∧
    handle_auth t (kp_parent kp) = kp_parentAuthorization kp.

Lemma provider_new_spec master_key t :
  wp (CredentialKeyProvider_new master_key) (λ r t',
    match r with
    | Ret kp => len master_key = AUTHORIZATION_SIZE ∧ one_more (kp_parent kp) t t' ∧
        kp_parent kp ≠ ESYS_TR_NONE ∧ parent_ready kp master_key t'
    | Throw _ => flushes → ∀ q, object_at_handle t' q = object_at_handle t q
    end) t.
Proof.
  apply wp_bind. unfold wp at 1, ask. cbn [fst snd]. apply wp_bind, wp_lift.
  destruct (tss_check (esys_initialize t)) as [[]|e]; [|done].
  destruct (len master_key =? AUTHORIZATION_SIZE) eqn:El; cbn [negb]; [|done]. reflect_bools.
  apply wp_bind, wp_reads. destruct (derive_key _ PARENT_AUTH_LABEL _ _) as [pa|e] eqn:E1; [|done].
  apply derive_key_spec in E1. rewrite app_nil_r in E1.
  apply wp_bind, wp_reads. destruct (derive_key _ CREDENTIAL_MASTER_LABEL _ _) as [ca|e] eqn:E2; [|done].
  apply derive_key_spec in E2. rewrite app_nil_r in E2.
  apply wp_bind, wp_call. pose proof (create_primary_effect pa parent_template t) as He.
  destruct (esys_create_primary pa parent_template t) as [[[rc h] public] t1].
  apply wp_member, wp_bind, wp_lift. destruct (tss_check_cases rc) as [[-> ->]|[-> Hne]].
  2:{ rewrite bool_decide_eq_false_2 in He by done. destruct He as [-> He]. intros _ q. apply He. }
  rewrite bool_decide_eq_true_2 in He by done. destruct He as (Hh & Hnone & Hobj & Hrest).
  assert (∀ t2, (∀ q, object_at_handle t2 q = object_at_handle t1 q) →
    (∀ q, q ≠ h → handle_auth t2 q = handle_auth t1 q) → one_more h t t2) as Hmore.
  { intros t2 Ha Hb. split; [done|]. intros q Hq. destruct (Hrest q Hq) as [<- <-]. auto. }
  destruct public as [v|].
  2:{ intros Hf q. by apply (flush_one_more h t t1); [|done|apply Hmore]. }
  apply wp_bind, wp_lift. destruct (validate_parent_public v) as [[]|e] eqn:Ev.
  2:{ intros Hf q. by apply (flush_one_more h t t1); [|done|apply Hmore]. }
  apply wp_bind. eapply wp_mono; [|apply set_auth_spec]. intros [[]|e] t2 (H1 & H2 & H3).
  - apply wp_ret. split; [done|]. split; [by apply Hmore|]. split; [done|]. split_and!; [done|done|].
    exists v. cbn [kp_parent kp_parentAuthorization]. rewrite H1, (Hobj v) by done. auto.
  - intros Hf q. by apply (flush_one_more h t t2); [|done|apply Hmore].
Qed.
End key_proofs.

(** ** The provider as the ceremonies' key provider *)

(** The environment of Ceremony.v with its keys, its random bytes and its key parser taken
    from this file; the rest is that of [base]. *)
#[refine] Definition provider_env `{KeyStack} (base : CeremonyEnv) (kp : CredentialKeyProvider) : CeremonyEnv := {|
  Env := @Env base * Kst;
  poll_stop e := let '(b, e0) := poll_stop e.1 in (b, (e0, e.2));
  clock_now e := let '(n, e0) := clock_now e.1 in (n, (e0, e.2));
  ui_current_context e := let '(r, e0) := ui_current_context e.1 in (r, (e0, e.2));
  ui_request_presence u q e := let '(r, e0) := ui_request_presence u q e.1 in (r, (e0, e.2));
  ui_request_verification u q e := let '(r, e0) := ui_request_verification u q e.1 in (r, (e0, e.2));
  provider_create id e := let '(r, t) := key_create kp id e.2 in (r, (e.1, t));
  provider_sign id digest pb qb e := let '(r, t) := key_sign kp id digest pb qb e.2 in (r, (e.1, t));
  openssl_random_bytes n e := let '(r, t) := random_bytes n e.2 in (r, (e.1, t));
  sha256 := sha256;
  extractPublic := extract_public;
  option_order := option_order;
|}.
Proof.
  - apply sha256_length.
  - apply option_order_perm.
  - intros e u e' E. destruct (ui_current_context e.1) as [r e0] eqn:Eu. injection E as -> _.
    by eapply current_context_uid.
  - intros n e b e' E. destruct (random_bytes n e.2) as [r t] eqn:Er. injection E as -> _.
    unfold random_bytes, st_bind, st_lift, call, st_ret in Er.
    destruct (openssl_checked_size n); [|done]. destruct (rand_bytes n e.2) as [[rc b'] t1] eqn:Eb.
    cbn [fst snd] in Er. unfold openssl_check in Er. destruct (rc =? 1) eqn:Erc; [|done]. reflect_bools.
    injection Er as -> _. subst rc. by eapply rand_bytes_ok.
  - intros id e k e' E. destruct (key_create kp id e.2) as [r t] eqn:Ek. injection E as -> _.
    pose proof (wp_run _ _ _ _ _ (key_create_spec kp id e.2) Ek) as [_ Hk].
    by destruct (Hk k eq_refl) as (? & ? & _).
Defined.

(** ** Properties *)

(** C12: A credential's key works for that credential only.  A key that [create] returns is
    a P-256 signing key that the TPM wrapped under the provider's parent with the
    authorisation derived from the store's key and the credential's identifier; its public
    point is what [extractPublic] reads from the stored blob.  Whenever these blobs are used
    to sign later, under whatever identifier, in whatever state of the TPM: a signature that
    is returned was made by that very key over that 32-byte digest, and the identifier
    derives the same authorisation. *)
Theorem credential_keys_bound `{KeyStack} kp id t key t' :
  key_create kp id t = (Ret key, t') →
  let auth id := hkdf_sha256 (kp_credentialAuthorizationMaster kp) (CREDENTIAL_AUTH_LABEL ++ id) in
  ∃ parent o, object_at_handle t (kp_parent kp) = Some parent ∧ holds_key parent key o ∧
    ob_auth o = auth id ∧ credential_area (ob_area o) ∧
    extract_public (key_publicBlob key) = Ret (pa_x (ob_area o), pa_y (ob_area o)) ∧
    ∀ id' digest t1 der t2, object_at_handle t1 (kp_parent kp) = Some parent →
      key_sign kp id' digest (key_publicBlob key) (key_privateBlob key) t1 = (Ret der, t2) →
      len digest = SHA256_SIZE ∧ auth id' = auth id ∧
      ∃ sg t3, verifies (ob_area o) digest sg ∧ signature_ok sg = true ∧ der_encode sg t3 = Ret der.
Proof.
  intros E auth. pose proof (wp_run _ _ _ _ _ (key_create_spec kp id t) E) as [_ Hk].
  destruct (Hk key eq_refl) as (_ & _ & _ & parent & o & Hp & Hh & Ha). exists parent, o.
  pose proof Hh as (v & b & Hv & Hb & Hun & Har & Hca). split_and!; try done.
  - rewrite Har. by apply validate_public_key_spec.
  - unfold extract_public. rewrite Hv. cbn [mbind res_bind]. rewrite Hca. cbn [mbind res_bind]. by rewrite Har.
  - intros id' digest t1 der t2 Hp1 Es.
    pose proof (wp_run _ _ _ _ _ (key_sign_spec _ _ _ _ _ _) Es) as [_ Hs].
    destruct (Hs der eq_refl) as (p' & v' & b' & o' & sg & t3 & Hp' & _ & _ & Hb' & Hun' & _ & _ & _ & Hd & Ha' & Hver & Hok & Hder).
    rewrite Hp1 in Hp'. injection Hp' as <-. rewrite Hb in Hb'. injection Hb' as <-.
    rewrite Hun in Hun'. injection Hun' as <-. split; [done|]. split; [unfold auth; congruence|]. by exists sg, t3.
Qed.

(** The provider leaves nothing behind in the TPM.  Given that flushing works: a
    constructor that throws has unloaded what it loaded; one that returns has added exactly
    the parent, which carries the authorisation derived for it.  From then on, creating and
    signing, whether they return or throw, leave the loaded objects and the parent's password
    as they found them, so the provider stays usable. *)
Theorem tpm_handles_balanced `{KeyStack} master_key t :
  flushes →
  (∀ r t', CredentialKeyProvider_new master_key t = (r, t') →
     match r with
     | Ret kp => len master_key = AUTHORIZATION_SIZE ∧ parent_ready kp master_key t' ∧
         object_at_handle t (kp_parent kp) = None ∧
         ∀ q, q ≠ kp_parent kp → object_at_handle t' q = object_at_handle t q
     | Throw _ => ∀ q, object_at_handle t' q = object_at_handle t q
     end) ∧
  (∀ kp, parent_ready kp master_key t →
     (∀ id r t', key_create kp id t = (r, t') →
        parent_ready kp master_key t' ∧ ∀ q, object_at_handle t' q = object_at_handle t q) ∧
     (∀ id digest pb qb r t', key_sign kp id digest pb qb t = (r, t') →
        parent_ready kp master_key t' ∧ ∀ q, object_at_handle t' q = object_at_handle t q)).
Proof.
  intros Hf. split.
  - intros r t' E. pose proof (wp_run _ _ _ _ _ (provider_new_spec master_key t) E) as Hn.
    destruct r as [kp|e]; [|by apply Hn]. destruct Hn as (Hl & [Hnone Hrest] & _ & Hp).
    split_and!; try done. intros q Hq. by apply Hrest.
  - intros kp (H1 & H2 & v & Hv & Ho & Ha). split.
    + intros id r t' E. pose proof (wp_run _ _ _ _ _ (key_create_spec kp id t) E) as [Hs _].
      split; [|intros q; apply Hs]. split_and!; try done. exists v. destruct (Hs (kp_parent kp)) as [-> ->]. done.
    + intros id digest pb qb r t' E. pose proof (wp_run _ _ _ _ _ (key_sign_spec _ _ _ _ _ _) E) as [Hs _].
      specialize (Hs Hf). split; [|intros q; apply Hs]. split_and!; try done. exists v.
      destruct (Hs (kp_parent kp)) as [-> Hauth]. split_and!; try done. rewrite Hauth; [done|]. by rewrite Ho.
Qed.

(** ** An instance of the stack

    A TPM whose private blobs are the authorisation in clear and whose keys are all alike. *)

Record toy_tpm := mkToy { ty_objects : Z → option TpmObject; ty_auths : Z → list Z; ty_next : Z }.

Definition toy_credential_area : PublicArea :=
  mkPublicArea TPM2_ALG_ECC TPM2_ALG_SHA256 CREDENTIAL_ATTRIBUTES [] TPM2_ALG_NULL 0 0
    TPM2_ALG_ECDSA TPM2_ALG_SHA256 TPM2_ECC_NIST_P256 TPM2_ALG_NULL [1] [2].
Definition toy_parent_area : PublicArea :=
  mkPublicArea TPM2_ALG_ECC TPM2_ALG_SHA256 PARENT_ATTRIBUTES [] TPM2_ALG_AES 128 TPM2_ALG_CFB
    TPM2_ALG_NULL 0 TPM2_ECC_NIST_P256 TPM2_ALG_NULL [3] [4].
Definition toy_signature : Signature := mkSignature TPM2_ALG_ECDSA TPM2_ALG_SHA256 [5] [6].

(** A new object, if the next handle is free. *)
Definition toy_add (o : TpmObject) (t : toy_tpm) : option (Z * toy_tpm) :=
  if bool_decide (ty_objects t (ty_next t) = None ∧ ty_next t ≠ ESYS_TR_NONE)
  then Some (ty_next t, mkToy (λ q, if q =? ty_next t then Some o else ty_objects t q) (ty_auths t) (ty_next t + 1))
  else None.

Definition toy_primary (auth : list Z) (_ : PublicArea) (t : toy_tpm)
    : (Z * Z * option TPM2B_PUBLIC) * toy_tpm :=
  match toy_add (mkObject auth toy_parent_area) t with
  | Some (h, t') => ((TSS2_RC_SUCCESS, h, Some (mkPublic 1 toy_parent_area)), t')
  | None => ((1, ESYS_TR_NONE, None), t)
  end.

(** The parent, if its password is right. *)
Definition toy_opened (parent : Z) (t : toy_tpm) : option TpmObject :=
  match ty_objects t parent with
  | Some p => if bool_decide (ty_auths t parent = ob_auth p) then Some p else None
  | None => None
  end.

Definition toy_create (parent : Z) (auth : list Z) (_ : PublicArea) (t : toy_tpm)
    : (Z * option TPM2B_PRIVATE * option TPM2B_PUBLIC) * toy_tpm :=
  match toy_opened parent t with
  | Some _ => ((TSS2_RC_SUCCESS, Some (mkPrivate (len auth) auth), Some (mkPublic 1 toy_credential_area)), t)
  | None => ((1, None, None), t)
  end.

Definition toy_load (parent : Z) (private : TPM2B_PRIVATE) (public : TPM2B_PUBLIC) (t : toy_tpm)
    : (Z * Z) * toy_tpm :=
  match toy_opened parent t with
  | Some _ =>
      if bool_decide (pub_area public = toy_credential_area) then
        match toy_add (mkObject (prv_buffer private) toy_credential_area) t with
        | Some (h, t') => ((TSS2_RC_SUCCESS, h), t')
        | None => ((1, ESYS_TR_NONE), t)
        end
      else ((1, ESYS_TR_NONE), t)
  | None => ((1, ESYS_TR_NONE), t)
  end.

Definition toy_sign (h : Z) (_ : list Z) (t : toy_tpm) : (Z * option Signature) * toy_tpm :=
  match toy_opened h t with
  | Some _ => ((TSS2_RC_SUCCESS, Some toy_signature), t)
  | None => ((1, None), t)
  end.

Definition toy_private_marshal (v : TPM2B_PRIVATE) (_ : Z) : Z * Z * list Z :=
  if bytes_okb (prv_buffer v) && bool_decide (prv_size v = len (prv_buffer v))
  then (TSS2_RC_SUCCESS, 2 + len (prv_buffer v), [0; 0] ++ prv_buffer v) else (1, 0, []).

Definition toy_public_marshal (v : TPM2B_PUBLIC) (_ : Z) : Z * Z * list Z :=
  if bool_decide (pub_size v = 1 ∧ pub_area v = toy_credential_area)
  then (TSS2_RC_SUCCESS, 3, [0; 1; 7]) else (1, 0, []).

Lemma toy_opened_spec parent t p :
  toy_opened parent t = Some p → ty_objects t parent = Some p ∧ ty_auths t parent = ob_auth p.
Proof.
  unfold toy_opened. destruct (ty_objects t parent) as [q|]; [|done].
  case_bool_decide; [|done]. by intros [= ->].
Qed.

Lemma toy_add_spec o t h t' :
  toy_add o t = Some (h, t') →
  h ≠ ESYS_TR_NONE ∧ ty_objects t h = None ∧ ty_objects t' h = Some o ∧
  ∀ q, q ≠ h → ty_objects t' q = ty_objects t q ∧ ty_auths t' q = ty_auths t q.
Proof.
  unfold toy_add. case_bool_decide as E; [|done]. intros [= <- <-]. destruct E as [E1 E2].
  split_and!; try done; cbn [ty_objects ty_auths]; [by rewrite Z.eqb_refl|].
  intros q Hq. apply Z.eqb_neq in Hq. by rewrite Hq.
Qed.

#[global] Instance toy_stack : KeyStack.
Proof.
  refine {|
    Kst := toy_tpm;
    object_at_handle := ty_objects;
    handle_auth := ty_auths;
    unwraps _ private := Some (mkObject private toy_credential_area);
    verifies _ _ sg := sg = toy_signature;
    ssl_new _ _ := true;
    ssl_rc _ _ := 1;
    hkdf_sha256 key info := take 32 (reverse info ++ replicate 32 0);
    evp_sha256 bytes := take 32 (bytes ++ replicate 32 0);
    rand_bytes n t := ((if n <? 0 then 0 else 1, replicate (Z.to_nat n) 4), t);
    bn_bin2bn bytes _ := Some (foldl (λ n b, n * 256 + b) 0 bytes);
    i2d_size _ _ _ := 2;
    i2d_encode r s _ := (2, [r; s]);
    mu_public_marshal := toy_public_marshal;
    mu_public_unmarshal b := (TSS2_RC_SUCCESS, len b, mkPublic 1 toy_credential_area);
    mu_private_marshal := toy_private_marshal;
    mu_private_unmarshal b := (TSS2_RC_SUCCESS, len b, mkPrivate (len (drop 2 b)) (drop 2 b));
    esys_initialize _ := TSS2_RC_SUCCESS;
    esys_create_primary := toy_primary;
    esys_set_auth h auth t :=
      (TSS2_RC_SUCCESS, mkToy (ty_objects t) (λ q, if q =? h then auth else ty_auths t q) (ty_next t));
    esys_create := toy_create;
    esys_load := toy_load;
    esys_sign := toy_sign;
    esys_flush h t :=
      (TSS2_RC_SUCCESS, mkToy (λ q, if q =? h then None else ty_objects t q) (ty_auths t) (ty_next t));
  |}; try done.
  - intros key info. cbn beta. rewrite length_take, length_app, length_replicate. unfold AUTHORIZATION_SIZE. lia.
  - intros n t b t' E. destruct (n <? 0) eqn:En; [done|]. injection E as <- _. reflect_bools. split.
    + apply Forall_replicate. lia.
    + rewrite length_replicate. lia.
  - intros v capacity offset b E. unfold toy_public_marshal in E. case_bool_decide as Ev; [|done].
    injection E as <- <-. destruct v as [sz a], Ev as [Hs Ha]. simpl in Hs, Ha. subst.
    split_and!; try done. by apply bytes_okb_ok.
  - intros v capacity offset b E. unfold toy_private_marshal in E.
    destruct (bytes_okb (prv_buffer v) && _) eqn:Ev; [|done]. reflect_bools. injection E as <- <-.
    destruct v as [sz buf]. cbn [prv_buffer prv_size] in *. subst sz.
    split_and!; [simpl; lia| |done]. by apply bytes_okb_ok.
  - intros auth template t. unfold toy_primary.
    destruct (toy_add (mkObject auth toy_parent_area) t) as [[h t']|] eqn:E.
    + apply toy_add_spec in E as (H1 & H2 & H3 & H4). rewrite bool_decide_eq_true_2 by done.
      split_and!; try done. by intros v [= <-].
    + by rewrite bool_decide_eq_false_2.
  - intros h auth t. cbn beta iota. cbn [ty_objects ty_auths]. split_and!; [done| |].
    + intros q Hq. apply Z.eqb_neq in Hq. by rewrite Hq.
    + by rewrite Z.eqb_refl.
  - intros parent auth template t. unfold toy_create.
    destruct (toy_opened parent t) as [p|] eqn:E; [|split; [done|by intros]].
    apply toy_opened_spec in E as [H1 H2]. split; [done|]. intros b v _ [= <-] [= <-]. by exists p.
  - intros parent private public t. unfold toy_load.
    destruct (toy_opened parent t) as [p|] eqn:E; [|by rewrite bool_decide_eq_false_2].
    apply toy_opened_spec in E as [H1 H2].
    case_bool_decide as Ep; [|by rewrite bool_decide_eq_false_2].
    destruct (toy_add _ t) as [[h t']|] eqn:Ea; [|by rewrite bool_decide_eq_false_2].
    apply toy_add_spec in Ea as (H3 & H4 & H5 & H6). rewrite bool_decide_eq_true_2 by done.
    split_and!; try done. exists p. eexists. by split_and!.
  - intros h digest t. unfold toy_sign. destruct (toy_opened h t) as [p|] eqn:E; [|split; [done|by intros]].
    apply toy_opened_spec in E as [H1 H2]. split; [done|]. intros sg _ [= <-]. by exists p.
  - intros h t. cbn beta iota. cbn [ty_objects ty_auths]. split_and!; [| |done].
    + intros q Hq. apply Z.eqb_neq in Hq. by rewrite Hq.
    + by rewrite Z.eqb_refl.
Defined.

Definition example_tpm : toy_tpm := mkToy (λ _, None) (λ _, []) 128.
Definition example_master : list Z := replicate 32 7.
Definition example_new : res CredentialKeyProvider * toy_tpm := CredentialKeyProvider_new example_master example_tpm.
Definition example_provider : CredentialKeyProvider :=
  mkProvider 128 (hkdf_sha256 example_master PARENT_AUTH_LABEL) (hkdf_sha256 example_master CREDENTIAL_MASTER_LABEL).
Definition example_key : CredentialKey :=
  mkKey ([0; 0] ++ hkdf_sha256 example_master (CREDENTIAL_AUTH_LABEL ++ seqZ 1 16)) [0; 1; 7].

Lemma credential_keys_bound_witness :
  (key_create example_provider (seqZ 1 16) example_new.2).1 = Ret example_key ∧
  (key_sign example_provider (seqZ 1 16) (replicate 32 9) (key_publicBlob example_key)
     (key_privateBlob example_key) example_new.2).1 = Ret [5; 6] ∧
  extract_public (key_publicBlob example_key) = Ret ([1], [2]).
Proof.
  assert (key_create example_provider (seqZ 1 16) example_new.2 = (Ret example_key, example_new.2)) as E
    by (vm_compute; reflexivity).
  destruct (credential_keys_bound (H:=toy_stack) example_provider (seqZ 1 16) example_new.2 example_key example_new.2 E)
    as (parent & o & _ & Hh & _ & _ & He & _).
  split; [rewrite E; reflexivity|]. split; [vm_compute; reflexivity|]. rewrite He.
  destruct Hh as (v & b & Hv & _ & Hun & _). injection Hun as <-. reflexivity.
Defined.

Lemma tpm_handles_balanced_witness :
  flushes ∧ parent_ready example_provider example_master example_new.2.
Proof.
  assert (flushes) as Hf by (intros h t; reflexivity). split; [exact Hf|].
  destruct (tpm_handles_balanced (H:=toy_stack) example_master example_tpm Hf) as [Hn _].
  destruct (Hn (Ret example_provider) example_new.2) as (_ & Hp & _); [|exact Hp].
  apply injective_projections; [vm_compute; reflexivity|reflexivity].
Defined.
