(* ===== verification/AgentLoop.v ===== *)
(** * The thread of the D-Bus service (src/src/dbus/agent_service.cpp, [event_loop])

    The service's thread polls the bus and an eventfd, handles bus messages and sends the
    queued state events.  The authenticator's worker queues events and then wakes the thread,
    in two steps; so does the destructor that stops it.  The model interleaves the thread,
    one action at a time, with these other threads; AgentService.v says what each message
    and each call of the channel does. *)
From Stdlib Require Import ZArith Lia.
From stdpp Require Import base list strings relations.
From S2P Require Import Prelude AgentRegistry InteractionRegistry AgentService VerifierService UserInteraction.

(** ** Account names ([username_for_uid] of agent_service.cpp) *)

(** The same loop as the verifier service's, with its own exception for an absent account. *)
Definition agent_username_for_uid (requested_size : Z) (getpwuid : Z → account_answer (list Z))
    : option (res (list Z)) :=
  account_loop ACCOUNT_FUEL getpwuid runtime_error (first_buffer_size requested_size).

(** ** The state *)

(** Where the thread is: at the loop's condition, in [poll], after it with the readiness of
    the eventfd, at the second test of the stop token, handling messages, about to swap the
    queue, sending the swapped-out events, or at its end. *)
Inductive loop_pc :=
  | pc_check
  | pc_poll
  | pc_polled (readable : bool)
  | pc_stop_check
  | pc_process
  | pc_swap
  | pc_sending (events : list StateEvent)
  | pc_ended.

(** [at_wakers]: threads that have made a change and not yet written to the eventfd. *)
Record AgentThread := mkAgentThread {
  at_service : Service;
  at_wake : Z;
  at_stop : bool;
  at_wakers : nat;
  at_pc : loop_pc;
  at_sent : list Signal;
}.

Definition agent_thread_initial : AgentThread :=
  mkAgentThread service_initial 0 false 0 pc_check [].

Definition goto (pc : loop_pc) (t : AgentThread) : AgentThread :=
  mkAgentThread (at_service t) (at_wake t) (at_stop t) (at_wakers t) pc (at_sent t).
Definition with_service (s : Service) (t : AgentThread) : AgentThread :=
  mkAgentThread s (at_wake t) (at_stop t) (at_wakers t) (at_pc t) (at_sent t).

(** [wake]: the eventfd's counter does not pass 2^64 - 2; a write beyond is dropped. *)
Definition wake (t : AgentThread) : AgentThread :=
  mkAgentThread (at_service t) (if at_wake t <? U64_MAX - 1 then at_wake t + 1 else at_wake t)
    (at_stop t) (at_wakers t) (at_pc t) (at_sent t).

(** [drain_wake_fd]: reading resets the counter. *)
Definition drain_wake_fd (t : AgentThread) : AgentThread :=
  mkAgentThread (at_service t) 0 (at_stop t) (at_wakers t) (at_pc t) (at_sent t).

(** ** The thread *)

(** What the environment does to the next action: [poll] fails, or returns (because of the
    bus or its timeout, or not), a message is pending, or the call into the bus throws. *)
Inductive loop_input :=
  | NextPollError
  | NextPoll (bus_ready : bool)
  | NextMessage (message : bus_op)
  | NextThrow
  | NextQuiet.

(** The messages that the registered handlers answer; the rest of [bus_op] is the thread's own. *)
Definition is_message (o : bus_op) : bool :=
  match o with BusFailure | BusFlush => false | _ => true end.

(** The [catch] clauses of [event_loop]. *)
Definition fail_loop (t : AgentThread) : AgentThread :=
  goto pc_ended (with_service (record_failure (at_service t)) t).

(** One action of [event_loop]; [None] is blocked. *)
Definition event_loop_step (i : loop_input) (t : AgentThread) : option AgentThread :=
  match at_pc t with
  | pc_check => Some (goto (if at_stop t then pc_ended else pc_poll) t)
  | pc_poll =>
      match i with
      | NextPollError => Some (fail_loop t)
      | NextPoll bus_ready =>
          if bus_ready || (0 <? at_wake t) then Some (goto (pc_polled (0 <? at_wake t)) t) else None
      | _ => if 0 <? at_wake t then Some (goto (pc_polled true) t) else None
      end
  | pc_polled readable => Some (goto pc_stop_check (if (readable : bool) then drain_wake_fd t else t))
  | pc_stop_check => Some (goto (if at_stop t then pc_ended else pc_process) t)
  | pc_process =>
      match i with
      | NextMessage m =>
          if is_message m then Some (with_service (bus_step m (at_service t)).2 t) else None
      | NextThrow => Some (fail_loop t)
      | _ => Some (goto pc_swap t)
      end
  | pc_swap =>
      let s := at_service t in
      Some (goto (pc_sending (sv_events s))
        (with_service (mkService (sv_registry s) (sv_interactions s) [] (sv_failed s)) t))
  | pc_sending [] => Some (goto pc_check t)
  | pc_sending (event :: events) =>
      match i with
      | NextThrow => Some (fail_loop t)
      | _ => Some (mkAgentThread (at_service t) (at_wake t) (at_stop t) (at_wakers t) (pc_sending events)
                     (at_sent t ++ deliver (sv_registry (at_service t)) [event]))
      end
  | pc_ended => None
  end.

(** ** The other threads *)

(** A call of the channel that may queue an event: a wake-up follows when it did. *)
Definition published (user : UserContext) (request : UserInteractionRequest)
    (state : UserInteractionState) (message : list Z) (t : AgentThread) : AgentThread :=
  let s := (publish_state user request state message (at_service t)).2 in
  mkAgentThread s (at_wake t) (at_stop t)
    (if (length (sv_events s) =? length (sv_events (at_service t)))%nat then at_wakers t else S (at_wakers t))
    (at_pc t) (at_sent t).

(** The other calls of the channel leave the queue, do not register anyone, and cannot clear
    a failure. *)
Definition channel_effect (s s' : Service) : Prop :=
  sv_events s' = sv_events s ∧ sv_failed s' = sv_failed s ∧
  (ar_current (sv_registry s') = ar_current (sv_registry s) ∨ ar_current (sv_registry s') = None).

(** [~Impl]: the stop callback and the destructor each wake the thread. *)
Definition stop_requested (t : AgentThread) : AgentThread :=
  mkAgentThread (at_service t) (at_wake t) true (S (at_wakers t)) (at_pc t) (at_sent t).

Definition waker_done (t : AgentThread) : AgentThread :=
  mkAgentThread (at_service t) (at_wake t) (at_stop t) (Nat.pred (at_wakers t)) (at_pc t) (at_sent t).

Inductive agent_step (t : AgentThread) : AgentThread → Prop :=
  | step_loop i t' : event_loop_step i t = Some t' → agent_step t t'
  | step_publish user request state message : agent_step t (published user request state message t)
  | step_channel s' : channel_effect (at_service t) s' → agent_step t (with_service s' t)
  | step_wake : (0 < at_wakers t)%nat → agent_step t (waker_done (wake t))
  | step_stop : agent_step t (stop_requested t).

(** ** What the other threads may do *)

Lemma interactions_effect {A} (m : ST InteractionRegistry A) s : channel_effect s (on_interactions m s).2.
Proof. unfold on_interactions. destruct (m _). split_and!; try done. by left. Qed.

Lemma discard_effect context name s : channel_effect s (discard_agent context name s).
Proof.
  unfold discard_agent, unregister_agent. split_and!; try done. cbn [sv_registry].
  destruct (agent_has_bus_name _ _); [by right|by left].
Qed.

Lemma effect_refl s : channel_effect s s.
Proof. split_and!; try done. by left. Qed.

(** The calls of the channel, other than publishing, are such steps. *)
Lemma channel_calls user request login context s :
  channel_effect s (begin_interaction user request s).2 ∧
  channel_effect s (end_interaction user request s) ∧
  channel_effect s (current_context_after_wait login context s).2.
Proof.
  split_and!.
  - unfold begin_interaction, st_bind, throw_if_failed, st_get. destruct (sv_failed s); [apply effect_refl|].
    destruct (negb _); [apply effect_refl|]. destruct (_ || _); [apply effect_refl|]. apply interactions_effect.
  - unfold end_interaction. split_and!; try done. by left.
  - unfold current_context_after_wait, st_bind, throw_if_failed.
    destruct (sv_failed s); [apply effect_refl|]. destruct context as [c|]; [|apply effect_refl].
    destruct (session_is_still_active login c); [apply effect_refl|apply discard_effect].
Qed.

(** Publishing queues at most one event, and none once the service has failed. *)
Lemma publish_effect user request state message s :
  let s' := (publish_state user request state message s).2 in
  sv_failed s' = sv_failed s ∧ ar_current (sv_registry s') = ar_current (sv_registry s) ∧
  (sv_events s' = sv_events s ∨ sv_failed s = false ∧ ∃ e, sv_events s' = sv_events s ++ [e]).
Proof.
  cbn zeta. unfold publish_state, st_bind, throw_if_failed, st_get, st_ret, st_modify.
  destruct (sv_failed s) eqn:Ef; [by split_and!; auto|].
  destruct (_ || _); [by split_and!; auto|]. unfold on_interactions.
  destruct (transition _ _ _ _ (sv_interactions s)) as [[tr|e] reg]; [|by split_and!; auto].
  destruct (negb (shouldPublish tr)); [by split_and!; auto|]. cbn [snd sv_events sv_failed sv_registry set_interactions].
  split_and!; [done|done|]. right. split; [done|]. by eexists.
Qed.

(** Whoever is registered afterwards was so before, or has a session. *)
Definition registry_effect (reg reg' : AgentRegistry) : Prop :=
  ∀ c, ar_current reg' = Some c → ar_current reg = Some c ∨ is_Some (uc_session c).

(** A handler that leaves the queue and the failure alone. *)
Definition quiet {A} (m : ST Service A) : Prop := ∀ s,
  sv_events (m s).2 = sv_events s ∧ sv_failed (m s).2 = sv_failed s ∧
  registry_effect (sv_registry s) (sv_registry (m s).2).

Lemma registry_effect_refl reg : registry_effect reg reg.
Proof. by left. Qed.

Lemma registry_effect_unregister name reg : registry_effect reg (unregister_agent name reg).2.
Proof. unfold unregister_agent. case_match; [by left|done]. Qed.

Lemma quiet_bind {A B} (m : ST Service A) (k : A → ST Service B) :
  quiet m → (∀ x, quiet (k x)) → quiet (st_bind m k).
Proof.
  intros Hm Hk s. unfold st_bind. destruct (Hm s) as (H1 & H2 & H3). destruct (m s) as [[x|e] s1]; [|done].
  cbn [snd] in *. destruct (Hk x s1) as (H4 & H5 & H6). split_and!; [congruence..|].
  intros c Hc. destruct (H6 c Hc); auto.
Qed.

Lemma quiet_interactions {A} (m : ST InteractionRegistry A) : quiet (on_interactions m).
Proof. intros s. unfold on_interactions. destruct (m _). split_and!; try done. apply registry_effect_refl. Qed.

Lemma quiet_caller login call generation : quiet (registered_caller login call generation).
Proof.
  intros s. unfold registered_caller.
  repeat case_match; split_and!; try done; try apply registry_effect_refl.
  apply registry_effect_unregister.
Qed.

Lemma quiet_lift {A} (r : res A) : quiet (st_lift r).
Proof. intros s. split_and!; try done. apply registry_effect_refl. Qed.

#[local] Hint Resolve quiet_interactions quiet_caller quiet_lift : quiet.

Lemma quiet_register login accounts call : quiet (call_register_agent login accounts call).
Proof.
  unfold call_register_agent. apply quiet_bind; [auto with quiet|intros peer]. apply quiet_bind; [|intros _].
  { intros s. unfold st_modify. cbn [snd].
    repeat case_match; split_and!; try done; try apply registry_effect_refl. apply registry_effect_unregister. }
  apply quiet_bind; [|intros c; apply (quiet_lift (Ret _))]. intros s. unfold on_registry, register_agent.
  repeat case_match; simplify_eq; split_and!; try done; try apply registry_effect_refl.
  intros c [= <-]. right. by eexists.
Qed.

Lemma quiet_unregister call : quiet (call_unregister_agent call).
Proof.
  intros s. unfold call_unregister_agent. cbn zeta.
  destruct (not_unique_name _); [apply (quiet_lift (Throw runtime_error))|].
  destruct (ar_current (sv_registry s)) as [c|] eqn:Ec; [|apply (quiet_lift (Throw runtime_error))].
  destruct (negb _); [apply (quiet_lift (Throw runtime_error))|].
  pose proof (registry_effect_unregister (default [] (call_sender call)) (sv_registry s)) as He.
  cbn [set_interactions sv_registry]. destruct (unregister_agent _ (sv_registry s)) as [found reg].
  destruct found; by split_and!.
Qed.

(** A bus message leaves the queue and the failure alone. *)
Lemma message_effect m s :
  is_message m = true →
  sv_events (bus_step m s).2 = sv_events s ∧ sv_failed (bus_step m s).2 = sv_failed s ∧
  registry_effect (sv_registry s) (sv_registry (bus_step m s).2).
Proof.
  assert (∀ A (h : ST Service A), quiet h →
    let s' := (let '(r, s') := h s in (is_ret r, s')).2 in
    sv_events s' = sv_events s ∧ sv_failed s' = sv_failed s ∧
    registry_effect (sv_registry s) (sv_registry s')) as Hh.
  { intros A h Hq. destruct (Hq s) as (H1 & H2 & H3). by destruct (h s). }
  intros Hm. destruct m; try done; cbn [bus_step]; try apply Hh.
  - apply quiet_register.
  - apply quiet_unregister.
  - apply quiet_bind; auto with quiet.
  - apply quiet_bind; [auto with quiet|intros u]. apply quiet_bind; auto with quiet.
  - apply quiet_bind; auto with quiet.
  - unfold unregister_disconnected_agent. cbn [snd].
    split_and!; try (repeat case_match; done).
    intros c Hc. apply (registry_effect_unregister bus_name). by repeat case_match.
Qed.

(** ** The invariant *)

(** The thread will come by the queue again without being woken. *)
Definition will_swap (pc : loop_pc) : bool :=
  match pc with pc_polled _ | pc_stop_check | pc_process | pc_swap => true | _ => false end.

(** The thread will test the stop token before it can block. *)
Definition will_check (pc : loop_pc) : bool :=
  match pc with pc_check | pc_polled _ | pc_stop_check | pc_ended => true | _ => false end.

(** Someone has woken the thread, or is about to. *)
Definition woken (t : AgentThread) : Prop := 0 < at_wake t ∨ (0 < at_wakers t)%nat.

(** The service has failed and has no agent. *)
Definition shut_down (s : Service) : Prop := sv_failed s = true ∧ ar_current (sv_registry s) = None.

Definition sessions_known (s : Service) : Prop := registry_effect agents_initial (sv_registry s).

Record loop_inv (t : AgentThread) : Prop := {
  li_wake : 0 ≤ at_wake t;
  li_sessions : sessions_known (at_service t);
  li_events : at_pc t ≠ pc_ended → sv_events (at_service t) ≠ [] → will_swap (at_pc t) = true ∨ woken t;
  li_stop : at_stop t = true → will_check (at_pc t) = true ∨ woken t;
  li_ended : at_pc t = pc_ended → at_stop t = true ∨ shut_down (at_service t);
  li_running : at_pc t ≠ pc_ended → sv_failed (at_service t) = false;
}.

Lemma loop_inv_start : loop_inv agent_thread_initial.
Proof. by split. Qed.

Lemma record_failure_spec s : sessions_known s → shut_down (record_failure s) ∧ sessions_known (record_failure s).
Proof.
  intros Hs. unfold record_failure, shut_down, sessions_known. cbn [sv_registry].
  destruct (ar_current (sv_registry s)) as [c|] eqn:E.
  2:{ split; [done|]. intros c Hc. cbn [sv_registry] in Hc. congruence. }
  destruct (Hs c E) as [|[ses Hses]]; [done|].
  unfold discard_agent, unregister_agent. cbn [sv_registry sv_failed]. rewrite E.
  unfold agent_has_bus_name, agent_bus_name. rewrite Hses, bool_decide_eq_true_2 by done. cbn [negb snd].
  split; done.
Qed.

Lemma fail_loop_inv t : loop_inv t → loop_inv (fail_loop t).
Proof.
  intros Hi. destruct (record_failure_spec (at_service t) (li_sessions _ Hi)) as [Hd Hs].
  split; cbn [fail_loop goto with_service at_pc at_wake at_service at_stop]; try done; [apply Hi|auto..].
Qed.

(** The thread moves on without touching the service. *)
Lemma goto_inv pc t :
  loop_inv t → at_pc t ≠ pc_ended →
  (pc ≠ pc_ended → will_swap (at_pc t) = true → will_swap pc = true ∨ woken t ∨ sv_events (at_service t) = []) →
  (at_stop t = true → will_check (at_pc t) = true → will_check pc = true ∨ woken t) →
  (pc = pc_ended → at_stop t = true) →
  loop_inv (goto pc t).
Proof.
  intros [H1 H2 H3 H4 H5 H6] Hne Hsw Hck Hend.
  split; cbn [goto at_pc at_wake at_service at_stop]; try done; unfold woken in *; cbn [goto at_wake at_wakers].
  - intros Hp He. destruct (H3 Hne He) as [Hw|Hw]; [|by right]. destruct (Hsw Hp Hw) as [?|[?|?]]; auto.
  - intros Hs. destruct (H4 Hs) as [Hw|Hw]; [|by right]. by apply Hck.
  - intros Hp. left. by apply Hend.
  - intros _. by apply H6.
Qed.

Lemma event_loop_step_inv i t t' : loop_inv t → event_loop_step i t = Some t' → loop_inv t'.
Proof.
  intros Hi. pose proof Hi as [H1 H2 H3 H4 H5 H6]. unfold event_loop_step.
  destruct (at_pc t) as [| |readable| | | |events|] eqn:Ep.
  - intros [= <-]. apply goto_inv; rewrite ?Ep; try done; destruct (at_stop t) eqn:Es; try done; auto.
  - assert (loop_inv (goto (pc_polled true) t) ∧ loop_inv (goto (pc_polled false) t)) as [Ht Hf].
    { split; (apply goto_inv; rewrite ?Ep; try done; auto). }
    destruct i as [|bus_ready| | |]; try (intros [= <-]; by apply fail_loop_inv).
    + destruct (_ || _); [|done]. intros [= <-]. by destruct (0 <? at_wake t).
    + destruct (0 <? at_wake t); [|done]. by intros [= <-].
    + destruct (0 <? at_wake t); [|done]. by intros [= <-].
    + destruct (0 <? at_wake t); [|done]. by intros [= <-].
  - intros [= <-]. destruct readable; [|apply goto_inv; rewrite ?Ep; try done; auto].
    split; cbn [goto drain_wake_fd at_pc at_wake at_service at_stop]; try done; auto.
  - intros [= <-]. apply goto_inv; rewrite ?Ep; try done; destruct (at_stop t) eqn:Es; try done; auto.
  - destruct i as [|bus_ready|m| |].
    3:{ destruct (is_message m) eqn:Em; [|done]. intros [= <-].
        destruct (message_effect m (at_service t) Em) as (E1 & E2 & E3).
        split; cbn [with_service at_pc at_wake at_service at_stop]; rewrite ?Ep; try done; auto.
        - intros c Hc. destruct (E3 c Hc) as [Hc'|]; [by apply H2|by right].
        - by rewrite E2. }
    3:{ intros [= <-]. by apply fail_loop_inv. }
    all: intros [= <-]; apply goto_inv; rewrite ?Ep; try done; auto.
  - intros [= <-].
    split; cbn [goto with_service at_pc at_wake at_service at_stop sv_events sv_failed sv_registry]; try done; auto.
  - destruct events as [|event events].
    + intros [= <-]. apply goto_inv; rewrite ?Ep; try done; auto.
    + destruct i; try (intros [= <-]; by apply fail_loop_inv).
      all: intros [= <-]; split; cbn [at_pc at_wake at_service at_stop]; try done; auto.
  - done.
Qed.

Lemma agent_step_inv t t' : loop_inv t → agent_step t t' → loop_inv t'.
Proof.
  intros Hi Hstep. destruct Hstep as [i t' E|user request state message|s' (E1 & E2 & E3)|Hw|].
  - by eapply event_loop_step_inv.
  - destruct (publish_effect user request state message (at_service t)) as (E1 & E2 & E3). cbn zeta in *.
    destruct Hi as [H1 H2 H3 H4 H5 H6]. unfold published. cbn zeta.
    set (s' := (publish_state user request state message (at_service t)).2) in *.
    assert (sessions_known s') as Hs' by (intros c Hc; rewrite E2 in Hc; by apply H2).
    destruct E3 as [E3|[Ef [e E3]]]; rewrite E3.
    + rewrite Nat.eqb_refl. split; cbn [at_pc at_wake at_service at_stop]; try done; rewrite ?E3, ?E1; auto.
      intros Hp. destruct (H5 Hp) as [|[? ?]]; [by left|right]. split; congruence.
    + rewrite length_app. rewrite (proj2 (Nat.eqb_neq _ _)) by (simpl; lia).
      split; cbn [at_pc at_wake at_service at_stop]; try done; try rewrite E1; auto;
        try (intros; right; right; cbn [at_wakers]; lia).
      intros Hp. destruct (H5 Hp) as [|[? ?]]; [by left|congruence].
  - destruct Hi as [H1 H2 H3 H4 H5 H6].
    split; cbn [with_service at_pc at_wake at_service at_stop]; rewrite ?E1, ?E2; try done; auto.
    + intros c Hc. destruct E3 as [E3|E3]; rewrite E3 in Hc; [by apply H2|done].
    + intros Hp. destruct (H5 Hp) as [|[? ?]]; [by left|right]. split; [congruence|]. destruct E3; congruence.
  - destruct Hi as [H1 H2 H3 H4 H5 H6].
    assert (0 < at_wake (wake t)) as Hwake.
    { unfold wake. cbn [at_wake]. unfold U64_MAX. case_match eqn:E; reflect_bools; lia. }
    split; cbn [waker_done at_pc at_wake at_service at_stop]; try done; try lia; auto; intros; right; left; done.
  - destruct Hi as [H1 H2 H3 H4 H5 H6].
    split; cbn [stop_requested at_pc at_wake at_service at_stop]; try done; auto; intros; try (right; right; cbn; lia).
Qed.

Lemma reachable_loop_inv t : rtc agent_step agent_thread_initial t → loop_inv t.
Proof.
  intros Hr. assert (loop_inv agent_thread_initial) as Hi by apply loop_inv_start.
  induction Hr as [|t1 t2 t3 Hs _ IH]; [done|]. apply IH. by eapply agent_step_inv.
Qed.

(** ** Coming to an end *)

(** An action of the thread that handles a message of the bus. *)
Definition handles_message (i : loop_input) (t : AgentThread) : bool :=
  match at_pc t, i with pc_process, NextMessage _ => true | _, _ => false end.

(** Runs of all threads, in any interleaving: [actions] counts those of the service's thread
    other than handling a message of the bus, [queued] the events that were queued. *)
Inductive run (t : AgentThread) : nat → nat → AgentThread → Prop :=
  | run_start : run t 0 0 t
  | run_loop actions queued t1 i t2 :
      run t actions queued t1 → event_loop_step i t1 = Some t2 →
      run t (if handles_message i t1 then actions else S actions) queued t2
  | run_publish actions queued t1 user request state message :
      run t actions queued t1 →
      let t2 := published user request state message t1 in
      run t actions
        (queued + (length (sv_events (at_service t2)) - length (sv_events (at_service t1)))) t2
  | run_channel actions queued t1 s' :
      run t actions queued t1 → channel_effect (at_service t1) s' →
      run t actions queued (with_service s' t1)
  | run_wake actions queued t1 :
      run t actions queued t1 → (0 < at_wakers t1)%nat →
      run t actions queued (waker_done (wake t1))
  | run_stop actions queued t1 :
      run t actions queued t1 → run t actions queued (stop_requested t1).

Lemma run_steps t actions queued t' : run t actions queued t' → rtc agent_step t t'.
Proof.
  induction 1; [done|..]; eapply rtc_r; try done.
  - by eapply step_loop.
  - apply step_publish.
  - by apply step_channel.
  - by apply step_wake.
  - apply step_stop.
Qed.

(** The events the thread has swapped out, or will before it tests the stop token. *)
Definition to_send (t : AgentThread) : nat :=
  match at_pc t with
  | pc_sending events => length events
  | pc_process | pc_swap => length (sv_events (at_service t))
  | _ => 0
  end.

(** The actions that a stopped thread has left, besides handling messages. *)
Definition actions_left (t : AgentThread) : nat :=
  match at_pc t with
  | pc_ended => 0
  | pc_check | pc_stop_check => 1
  | pc_polled _ => 2
  | pc_poll => 3
  | pc_sending events => length events + 2
  | pc_swap => length (sv_events (at_service t)) + 3
  | pc_process => length (sv_events (at_service t)) + 4
  end.

Lemma actions_left_bound t : (actions_left t ≤ to_send t + 4)%nat.
Proof. unfold actions_left, to_send. destruct (at_pc t); lia. Qed.

(** Every action of a stopped thread uses one up; handling a message does not add any. *)
Lemma event_loop_step_left i t t' :
  at_stop t = true → event_loop_step i t = Some t' →
  at_stop t' = true ∧
  ((if handles_message i t then 0 else 1) + actions_left t' ≤ actions_left t)%nat.
Proof.
  intros Hs. unfold event_loop_step, handles_message, actions_left.
  destruct (at_pc t) as [| |readable| | | |[|event events]|] eqn:Ep; rewrite ?Hs.
  - intros [= <-]. simpl. rewrite ?Hs. split; [done|lia].
  - destruct i as [|bus_ready| | |]; [|destruct (bus_ready || _); [|done]|
      destruct (0 <? at_wake t); [|done]..]; intros [= <-]; simpl; (split; [done|lia]).
  - intros [= <-]. destruct readable; simpl; (split; [done|lia]).
  - intros [= <-]. simpl. split; [done|lia].
  - destruct i as [|bus_ready|m| |]; try (intros [= <-]; simpl; split; [done|lia]).
    destruct (is_message m) eqn:Em; [|done]. intros [= <-].
    destruct (message_effect m (at_service t) Em) as (E1 & _ & _).
    cbn [with_service at_pc at_service at_stop]. rewrite Ep, E1. split; [done|lia].
  - intros [= <-]. simpl. split; [done|lia].
  - intros [= <-]. simpl. split; [done|lia].
  - destruct i; intros [= <-]; simpl; (split; [done|lia]).
  - done.
Qed.

Lemma run_bounded t actions queued t' :
  at_stop t = true → run t actions queued t' →
  at_stop t' = true ∧ (actions + actions_left t' ≤ actions_left t + queued)%nat.
Proof.
  intros Hs Hr. induction Hr as [|a q t1 i t2 _ [Hs1 IH] E|a q t1 user request state message _ [Hs1 IH]|
    a q t1 s' _ [Hs1 IH] (E1 & _ & _)|a q t1 _ [Hs1 IH] _|a q t1 _ [Hs1 IH]].
  - split; [done|lia].
  - destruct (event_loop_step_left i t1 t2 Hs1 E) as [Hs2 Hm]. split; [done|].
    destruct (handles_message i t1); lia.
  - subst t2. split; [done|].
    destruct (publish_effect user request state message (at_service t1)) as (_ & _ & E).
    unfold actions_left in *. cbn [published at_pc at_service]. cbn zeta in *.
    destruct E as [->|[_ [e ->]]]; rewrite ?length_app; simpl length; destruct (at_pc t1); lia.
  - split; [done|]. unfold actions_left in *. cbn [with_service at_pc at_service]. by rewrite E1.
  - split; [done|exact IH].
  - split; [done|exact IH].
Qed.

(** A stopped thread that has not ended can act, unless the wake-up is still to be written. *)
Lemma stopped_moves t :
  loop_inv t → at_stop t = true → at_wakers t = 0%nat → at_pc t ≠ pc_ended →
  is_Some (event_loop_step NextQuiet t).
Proof.
  intros Hi Hs Hw Hp. pose proof (li_stop _ Hi Hs) as Hc. unfold event_loop_step.
  destruct (at_pc t) as [| |readable| | | |[|event events]|] eqn:Ep; try done; try by eexists.
  destruct Hc as [|[Hk|Hk]]; [done| |lia]. apply Z.ltb_lt in Hk. rewrite Hk. by eexists.
Qed.

(** A message can be handled at any time while the thread is at it: the stop token is not
    tested in between. *)
Lemma messages_hold_up_stop m t n :
  is_message m = true → at_pc t = pc_process →
  ∃ t', run t 0 0 t' ∧ at_pc t' = pc_process ∧ nsteps (λ t1 t2, event_loop_step (NextMessage m) t1 = Some t2) n t t'.
Proof.
  intros Hm. revert t. induction n as [|n IH]; intros t Hp.
  { exists t. split; [constructor|]. split; [done|constructor]. }
  destruct (IH t Hp) as (t1 & Hr & Hp1 & Hn).
  assert (event_loop_step (NextMessage m) t1 =
    Some (with_service (bus_step m (at_service t1)).2 t1)) as E
    by (unfold event_loop_step; by rewrite Hp1, Hm).
  eexists. split; [|split; [|eapply nsteps_r; [exact Hn|exact E]]]; [|done].
  pose proof (run_loop _ _ _ _ _ _ Hr E) as H. unfold handles_message in H. by rewrite Hp1 in H.
Qed.

(** ** Properties *)

(** C19: The service's thread misses nothing, in every interleaving with the threads that
    queue events and that stop it.  When it is blocked in [poll] and nobody is about to wake
    it, the queue is empty and no stop was requested: a queued event or a stop request always
    reaches it.  After a stop request, in every continuation, it takes at most four actions
    besides sending the events that were queued and handling the messages that arrive on the
    bus; and as long as it has not ended it can act, unless the wake-up is still to be
    written.  So it ends as soon as the bus is quiet; messages that keep arriving can hold it
    up, since the loop over them does not test the stop token.  It ends only for a stop
    request or with the service marked as failed and without an agent, so that the
    authenticator's next call throws instead of waiting for answers that cannot come. *)
Theorem agent_thread_wakes t :
  rtc agent_step agent_thread_initial t →
  (at_pc t = pc_poll → at_wake t = 0 → at_wakers t = 0%nat →
     sv_events (at_service t) = [] ∧ at_stop t = false) ∧
  (at_stop t = true → ∀ actions queued t', run t actions queued t' →
     (actions ≤ to_send t + queued + 4)%nat ∧
     (at_pc t' = pc_ended ∨ (0 < at_wakers t')%nat ∨ is_Some (event_loop_step NextQuiet t'))) ∧
  (at_pc t = pc_ended → at_stop t = true ∨
     shut_down (at_service t) ∧
     ∀ user request, (begin_interaction user request (at_service t)).1 = Throw runtime_error).
Proof.
  intros Hr. pose proof (reachable_loop_inv t Hr) as Hi. split_and!.
  - intros Hp Hk Hw. assert (¬ woken t) as Hn by (intros [?|?]; lia). split.
    + destruct (sv_events (at_service t)) eqn:E; [done|]. exfalso.
      destruct (li_events _ Hi) as [H1|]; rewrite ?Hp, ?E in *; done.
    + destruct (at_stop t) eqn:E; [|done]. exfalso.
      destruct (li_stop _ Hi E) as [H1|]; rewrite ?Hp in *; done.
  - intros Hs actions queued t' Hrun. destruct (run_bounded _ _ _ _ Hs Hrun) as [Hs' Hb].
    pose proof (actions_left_bound t). split; [lia|].
    assert (loop_inv t') as Hi' by (eapply reachable_loop_inv; etrans; [exact Hr|by eapply run_steps]).
    destruct (at_wakers t') eqn:Ew; [|right; left; lia].
    destruct (at_pc t') eqn:Ep; (by left) || (right; right; apply stopped_moves; by rewrite ?Ep).
  - intros Hp. destruct (li_ended _ Hi Hp) as [|[Hf Hc]]; [by left|right]. split; [done|].
    intros user request. unfold begin_interaction, st_bind, throw_if_failed. by rewrite Hf.
Qed.

(** Stopped while it waits: the wake-up has been written, and it has three actions to go. *)
Lemma agent_thread_wakes_witness :
  ∃ t t', rtc agent_step agent_thread_initial t ∧ at_stop t = true ∧ run t 3 0 t' ∧
    (3 ≤ to_send t + 0 + 4)%nat ∧ at_pc t' = pc_ended.
Proof.
  set (t1 := goto pc_poll agent_thread_initial).
  set (t3 := waker_done (wake (stop_requested t1))).
  assert (rtc agent_step agent_thread_initial t3) as Hr.
  { eapply rtc_l; [eapply (step_loop _ NextQuiet); reflexivity|].
    eapply rtc_l; [apply step_stop|]. eapply rtc_l; [apply step_wake; cbn; lia|]. apply rtc_refl. }
  set (t4 := goto pc_ended (goto pc_stop_check (drain_wake_fd t3))).
  assert (run t3 3 0 t4) as Hrun.
  { eapply (run_loop _ 2 0 (goto pc_stop_check (drain_wake_fd t3)) NextQuiet); [|reflexivity].
    eapply (run_loop _ 1 0 (goto (pc_polled true) t3) NextQuiet); [|reflexivity].
    eapply (run_loop _ 0 0 t3 NextQuiet); [constructor|reflexivity]. }
  exists t3, t4. split; [exact Hr|]. split; [reflexivity|]. split; [exact Hrun|].
  split; [|reflexivity].
  apply (proj1 (proj2 (agent_thread_wakes t3 Hr)) eq_refl 3%nat 0%nat t4 Hrun).
Defined.
