(* ===== verification/Daemon.v ===== *)
(** * The three programs of the daemon's executable (src/src/vauth.cpp, device.cpp and
      [run_pam_verifier_service] of uv/src/pam_verifier_service.cpp)

    One executable is the daemon, the PAM verifier service and the verifier's child.  [main]
    chooses by the command line; the daemon opens the store, the TPM and the device before
    it enters the event loop of EventLoop.v. *)
From Stdlib Require Import ZArith Lia.
From stdpp Require Import base list gmap strings.
From S2P Require Import Prelude CredentialStore CredentialStoreProofs StoreSecurity Authorization Listing.
From S2P Require Import AgentService VerifierProtocol VerifierConversation VerifierSocket VerifierService.
From S2P Require Import VerifierServiceProofs AuthHandler Verification.
From S2P Require Import TpmKeys Administration.

(** ** The device (device.cpp) *)

Definition fido_report_desc : list Z :=
  [6; 208; 241;      (* Usage Page (FIDO 0xF1D0) *)
   9; 1;             (* Usage (U2F HID Authenticator Device) *)
   161; 1;           (* Collection (Application) *)
   9; 32;            (* Usage (Input Report Data) *)
   21; 0; 38; 255; 0; 117; 8; 149; 64; 129; 2;
   9; 33;            (* Usage (Output Report Data) *)
   21; 0; 38; 255; 0; 117; 8; 149; 64; 145; 2;
   192].             (* End Collection *)

(** [struct uhid_event] of type UHID_CREATE2, as far as it is filled in. *)
Record CreateEvent := mkCreateEvent {
  ce_name : list Z;
  ce_rd_data : list Z;
  ce_rd_size : Z;
  ce_bus : Z;
  ce_vendor : Z;
  ce_product : Z;
}.

Definition BUS_USB : Z := 3.

(** [opened]: the descriptor of /dev/uhid; [written]: the result of [write]. *)
Definition FIDODevice_init (opened written : Z) : res (Z * CreateEvent) :=
  throw_if opened <? 0 as runtime_error ;;
  let ev := mkCreateEvent (lit "vAuth-Keyring") fido_report_desc (len fido_report_desc) BUS_USB 4660 22136 in
  throw_if written <? 0 as system_error ;;
  Ret (opened, ev).

(** ** The PAM verifier service *)

(** The connection of the service: the socket, its own executable as the child's program,
    the PAM service and the configuration directory. *)
Definition service_connection (socket_fd : Z) (pam_service pam_configuration_directory : list Z)
    (c : Connection) : Connection :=
  let i := cn_program c in
  mkConnection socket_fd (cn_peer c) (cn_start c) (cn_query c) (cn_username c) (cn_error_send c)
    pam_service pam_configuration_directory (cn_pid c)
    (mkProgramStart (lit "/proc/self/exe") (ps_arguments i) (ps_stop i) (ps_cancel i) (ps_now i)
       (ps_sockets i) (ps_duplicates i) (ps_descriptor i) (ps_spawn i) (ps_send i))
    (cn_turns c) (cn_graces c) (cn_query_again c) (cn_result_send c).

(** [d] is what the kernel says of the socket, [lookup] the account database on the name
    VAUTH_DAEMON_ACCOUNT, [c] what the connection meets. *)
Definition run_pam_verifier_service (socket_fd : Z) (pam_service pam_configuration_directory : list Z)
    (timeout : Z) (d : Descriptor) (suggested_size : Z) (lookup : Z → account_answer Z) (c : Connection)
    : option (res Z) * ServiceState :=
  match VerifierSocket_new socket_fd d with
  | Throw e => (Some (Throw e), mkServiceState (endpoint_new socket_fd) None)
  | Ret fd =>
      match uid_for_username suggested_size lookup with
      | None => (None, mkServiceState (endpoint_new fd) None)
      | Some (Throw e) => (Some (Throw e), mkServiceState (endpoint_new fd) None)
      | Some (Ret uid) =>
          run_pam_verifier_connection uid timeout
            (service_connection fd pam_service pam_configuration_directory c)
      end
  end.

(** ** Start-up (vauth.cpp) *)

Definition PAM_VERIFIER_COMMAND : list Z := lit "pam-verifier".
Definition SD_LISTEN_FDS_START : Z := 3.

(** The answers to [sigemptyset]/[sigaddset], [sigprocmask] and [signalfd]. *)
Definition ShutdownSignal_new (prepared blocked : bool) (descriptor : Z) : res Z :=
  throw_if negb prepared as system_error ;;
  throw_if negb blocked as system_error ;;
  throw_if descriptor <? 0 as system_error ;;
  Ret descriptor.

(** [argv] without the program's name; an argument's first character decides. *)
Definition parse_options (arguments : list (list Z)) : res () :=
  let rest :=
    match arguments with
    | first :: rest =>
        if negb (byte_at first 0 =? 45)
        then (throw_if negb (bool_decide (first = lit "run")) as invalid_argument ;; Ret rest)
        else Ret arguments
    | [] => Ret []
    end in
  rest ← rest;
  throw_if negb (len (rest : list (list Z)) =? 0) as invalid_argument ;;
  Ret ().

Definition activated_verifier_socket (count : Z) : res Z :=
  throw_if count <? 0 as system_error ;;
  throw_if negb (count =? 1) as runtime_error ;;
  Ret SD_LISTEN_FDS_START.

(** What [main] does with its command line: the child of the verifier, the verifier service
    on its socket, or the daemon. *)
Inductive program :=
  | HandlerProgram (arguments : list (list Z))
  | VerifierProgram (socket_fd : Z)
  | DaemonProgram.

Definition select_program (arguments : list (list Z)) (euid listen_fds : Z) : res program :=
  match arguments with
  | first :: rest =>
      if bool_decide (first = VAUTH_AUTH_HANDLER_COMMAND) then Ret (HandlerProgram rest) else
      if (len rest =? 0) && bool_decide (first = PAM_VERIFIER_COMMAND) then
        throw_if negb (euid =? 0) as runtime_error ;;
        fd ← activated_verifier_socket listen_fds;
        Ret (VerifierProgram fd)
      else (_ ← parse_options arguments; Ret DaemonProgram)
  | [] => _ ← parse_options arguments; Ret DaemonProgram
  end.

Section start.
Context `{HS : StoreEnv, HF : Fapi, HK : KeyStack}.

(** What the daemon holds when it starts serving: the machine of Administration.v, the TPM's
    loaded objects and the device it created. *)
Record DaemonState := mkDaemon {
  dm_admin : Admin;
  dm_keys : Kst;
  dm_device : option (Z * CreateEvent);
}.

Definition on_admin {A} (m : ST Admin A) : ST DaemonState A := λ d,
  let '(r, a) := m (dm_admin d) in (r, mkDaemon a (dm_keys d) (dm_device d)).
Definition on_keys {A} (m : ST Kst A) : ST DaemonState A := λ d,
  let '(r, k) := m (dm_keys d) in (r, mkDaemon (dm_admin d) k (dm_device d)).

(** The answers of the system at start-up, besides those of [Process]. *)
Record StartInput := mkStart {
  st_signals : bool * bool * Z;
  st_service : res ();     (** the constructor of AgentService, which connects to the bus *)
  st_device : Z * Z;
}.

(** [security.tcti()] *)
Definition ask_tcti : ST Admin () := λ a, (tcti (ad_tpm a), a).

(** An exception that leaves the scope of the key provider destroys it. *)
Definition with_provider {A} (key_provider : CredentialKeyProvider) (m : ST DaemonState A)
    : ST DaemonState A := λ d,
  let '(r, d) := m d in
  match r with
  | Ret a => (Ret a, d)
  | Throw e =>
      (Throw e, mkDaemon (dm_admin d) (flush_handle (kp_parent key_provider) (dm_keys d)) (dm_device d))
  end.

(** [main] from the shutdown signal to the call of [run]: the key provider it serves with. *)
Definition daemon_start (p : Process) (i : StartInput) : ST DaemonState CredentialKeyProvider :=
  let '(prepared, blocked, descriptor) := st_signals i in
  let! _ := st_lift (ShutdownSignal_new prepared blocked descriptor) in
  let! database_key := on_admin (unseal_store None p) in
  let! _ := on_admin ask_tcti in
  let! key_provider := on_keys (CredentialKeyProvider_new database_key) in
  with_provider key_provider
    (let! _ := on_admin (load_store database_key) in
     let! _ := st_lift (st_service i) in
     let! device := st_lift (FIDODevice_init (st_device i).1 (st_device i).2) in
     let! _ := st_modify (λ d, mkDaemon (dm_admin d) (dm_keys d) (Some device)) in
     let! _ := on_admin (print (lit "UHID device created" ++ [10])) in
     st_ret key_provider).
End start.

(** [catch(const std::exception&) { ... return 1; }] *)
Definition exit_code (r : res Z) : Z := match r with Ret code => code | Throw _ => 1 end.

(** ** Start-up *)

Section start_proofs.
Context `{HS : StoreEnv, HF : Fapi, HK : KeyStack}.

Lemma wp_on_admin {A} (m : ST Admin A) Q d :
  wp m (λ r a, Q r (mkDaemon a (dm_keys d) (dm_device d))) (dm_admin d) → wp (on_admin m) Q d.
Proof. unfold wp, on_admin. by destruct (m (dm_admin d)). Qed.

Lemma wp_on_keys {A} (m : ST Kst A) Q d :
  wp m (λ r k, Q r (mkDaemon (dm_admin d) k (dm_device d))) (dm_keys d) → wp (on_keys m) Q d.
Proof. unfold wp, on_keys. by destruct (m (dm_keys d)). Qed.

Lemma wp_with_provider {A} kp (m : ST DaemonState A) (Q : res A → DaemonState → Prop) d :
  wp m (λ r d', match r with
    | Ret a => Q (Ret a) d'
    | Throw e => Q (Throw e) (mkDaemon (dm_admin d') (flush_handle (kp_parent kp) (dm_keys d')) (dm_device d'))
    end) d →
  wp (with_provider kp m) Q d.
Proof. unfold wp, with_provider. by destruct (m d) as [[]]. Qed.

(** What the daemon serves: the store [m], loaded. *)
Definition serving (m : Storage) (w : World) : Prop :=
  w_stored w = m ∧ w_requiresReload w = false ∧ is_u64 (w_generation w) ∧
  disk w m (w_generation w) ∧ counter_near w (w_generation w).

(** The loaded objects are those of [k], but for those that a flush could not unload. *)
Definition keys_released (k k' : Kst) : Prop :=
  flushes → ∀ q, object_at_handle k' q = object_at_handle k q.

Definition start_outcome (key : list Z) (m : Storage) (p : Process) (d : DaemonState)
    (r : res CredentialKeyProvider) (d' : DaemonState) : Prop :=
  sealed_store key m (dm_admin d') ∧ in_process (dm_admin d) (dm_admin d') ∧
  ad_tpm (dm_admin d') = ad_tpm (dm_admin d) ∧
  match r with
  | Ret kp =>
      flock_loop (pr_flock p) = Ret () ∧ serving m (ad_world (dm_admin d')) ∧
      parent_ready kp key (dm_keys d') ∧
      ∃ fd ev, dm_device d' = Some (fd, ev) ∧ 0 ≤ fd ∧ ce_rd_data ev = fido_report_desc
  | Throw _ => dm_device d' = dm_device d ∧ keys_released (dm_keys d) (dm_keys d')
  end.

Lemma device_init_spec opened written :
  match FIDODevice_init opened written with
  | Ret (fd, ev) => 0 ≤ fd ∧ ce_rd_data ev = fido_report_desc
  | Throw _ => True
  end.
Proof.
  unfold FIDODevice_init. destruct (opened <? 0) eqn:E1; cbn [mbind res_bind]; [done|].
  destruct (written <? 0); cbn [mbind res_bind]; [done|]. reflect_bools. done.
Qed.

(** From the provider on. *)
Lemma serve_spec key m p kp i a0 a k k0 v0 :
  sealed_store key m a → in_process a0 a → ad_tpm a = ad_tpm a0 → flock_loop (pr_flock p) = Ret () →
  one_more (kp_parent kp) k0 k → kp_parent kp ≠ ESYS_TR_NONE → parent_ready kp key k →
  wp (with_provider kp
    (let! _ := on_admin (load_store key) in
     let! _ := st_lift (st_service i) in
     let! device := st_lift (FIDODevice_init (st_device i).1 (st_device i).2) in
     let! _ := st_modify (λ d, mkDaemon (dm_admin d) (dm_keys d) (Some device)) in
     let! _ := on_admin (print (lit "UHID device created" ++ [10])) in
     st_ret kp)) (start_outcome key m p (mkDaemon a0 k0 v0)) (mkDaemon a k v0).
Proof.
  intros Hs [Hi1 Hi2] Ht Hl Hone Hne Hready.
  assert (keys_released k0 (flush_handle (kp_parent kp) k)) as Hrel.
  { intros Hf q. by apply flush_one_more. }
  apply wp_with_provider, wp_bind, wp_on_admin. eapply wp_mono; [|by apply (load_store_spec key m)].
  intros r a2 (Hs2 & Ht2 & Ho2 & [Hi3 Hi4] & Hr2). cbn [dm_admin dm_keys dm_device] in *.
  assert (in_process a0 a2 ∧ ad_tpm a2 = ad_tpm a0) as [Hi Ht'] by (split; [split|]; congruence).
  destruct r as [[]|e]; [|by split_and!; try apply Hi]. destruct (Hr2 eq_refl) as (H1 & H2 & H3 & H4 & H5).
  apply wp_bind, wp_lift. destruct (st_service i) as [[]|e]; [|by split_and!; try apply Hi].
  apply wp_bind, wp_lift. pose proof (device_init_spec (st_device i).1 (st_device i).2) as Hdev.
  destruct (FIDODevice_init _ _) as [[fd ev]|e]; [|by split_and!; try apply Hi].
  apply wp_bind, wp_modify, wp_bind, wp_on_admin, wp_on_output. cbn [dm_admin dm_keys dm_device].
  unfold emit. apply wp_modify, wp_ret.
  split_and!; try done; try apply Hi.
  exists fd, ev. by destruct Hdev.
Qed.

Lemma daemon_start_spec key m p i d :
  sealed_store key m (dm_admin d) → wp (daemon_start p i) (start_outcome key m p d) d.
Proof.
  intros Hs. unfold daemon_start. destruct (st_signals i) as [[prepared blocked] descriptor].
  apply wp_bind, wp_lift. destruct (ShutdownSignal_new _ _ _) as [fd|e]; [|by split_and!].
  apply wp_bind, wp_on_admin. eapply wp_mono; [|by apply (unseal_store_spec None p key m)].
  intros r a1 (Hs1 & Ht1 & _ & Hi1 & _ & Hr). destruct r as [key'|e]; [|by split_and!; try apply Hi1].
  destruct (Hr I) as [Hl [= ->]]. apply wp_bind, wp_on_admin. unfold ask_tcti, wp at 1. cbn [fst snd dm_admin dm_keys dm_device].
  destruct (tcti (ad_tpm a1)) as [[]|e]; [|by split_and!; try apply Hi1].
  apply wp_bind, wp_on_keys. eapply wp_mono; [|apply provider_new_spec].
  cbn [dm_admin dm_keys dm_device]. intros [kp|e] k Hk; [|by split_and!; try apply Hi1].
  destruct Hk as (_ & Hone & Hne & Hready). destruct d as [a0 k0 v0]. by apply serve_spec.
Qed.
End start_proofs.

(** ** Properties *)

(** C18: The daemon serves the provisioned store and nothing else.  On a machine whose TPM holds
    the key of a store [m]: a start that reaches the event loop holds the lock, has [m] in
    memory, at the generation that is on the disk and with the counter at or just behind it,
    has a TPM parent whose authorisation is derived from that very key, and has created a
    device with the FIDO report descriptor.  A start that fails, at whatever step, has created
    no device, has left nothing loaded in the TPM (when flushing works), and the store is
    still [m] for the next start. *)
Theorem daemon_serves_loaded_store `{StoreEnv, Fapi, KeyStack} key m p i d r d' :
  sealed_store key m (dm_admin d) → daemon_start p i d = (r, d') →
  sealed_store key m (dm_admin d') ∧ ad_tpm (dm_admin d') = ad_tpm (dm_admin d) ∧
  match r with
  | Ret kp =>
      flock_loop (pr_flock p) = Ret () ∧ serving m (ad_world (dm_admin d')) ∧
      parent_ready kp key (dm_keys d') ∧
      ∃ fd ev, dm_device d' = Some (fd, ev) ∧ 0 ≤ fd ∧ ce_rd_data ev = fido_report_desc
  | Throw _ => dm_device d' = dm_device d ∧ keys_released (dm_keys d) (dm_keys d')
  end.
Proof.
  intros Hs E. destruct (wp_run _ _ _ _ _ (daemon_start_spec key m p i d Hs) E) as (Hs' & _ & Ht & Hr). done.
Qed.

Definition example_start_input : StartInput := mkStart (true, true, 6) (Ret ()) (7, 4380).
Definition example_daemon : DaemonState := mkDaemon example_admin example_tpm None.

Lemma daemon_serves_loaded_store_witness :
  let '(r, d') := daemon_start example_process example_start_input example_daemon in
  is_ret r = true ∧ w_stored (ad_world (dm_admin d')) = target example_put example_world ∧
  fst <$> dm_device d' = Some 7.
Proof.
  assert (is_ret (daemon_start example_process example_start_input example_daemon).1 = true ∧
    fst <$> dm_device (daemon_start example_process example_start_input example_daemon).2 = Some 7) as [Er Ev]
    by (split; vm_compute; reflexivity).
  destruct (daemon_start example_process example_start_input example_daemon) as [r d'] eqn:E.
  cbn [fst snd] in Er, Ev.
  destruct (daemon_serves_loaded_store (replicate 32 7) (target example_put example_world) example_process
    example_start_input example_daemon r d' example_sealed E) as (_ & _ & Hr).
  destruct r as [kp|e]; [|discriminate]. destruct Hr as (_ & (Hst & _) & _). split_and!; [reflexivity|exact Hst|exact Ev].
Defined.

Lemma select_verifier arguments euid listen_fds fd :
  select_program arguments euid listen_fds = Ret (VerifierProgram fd) →
  arguments = [PAM_VERIFIER_COMMAND] ∧ euid = 0 ∧ listen_fds = 1 ∧ fd = SD_LISTEN_FDS_START.
Proof.
  destruct arguments as [|first rest]; simpl select_program.
  { by destruct (parse_options []). }
  case_bool_decide; [done|]. destruct ((len rest =? 0) && _) eqn:E.
  - destruct (euid =? 0) eqn:Eu; cbn [negb mbind res_bind]; [|done].
    unfold activated_verifier_socket. destruct (listen_fds <? 0); cbn [mbind res_bind]; [done|].
    destruct (listen_fds =? 1) eqn:El; cbn [negb mbind res_bind]; [|done]. intros [= <-].
    reflect_bools. destruct rest; [|simpl in *; lia]. by subst.
  - by destruct (parse_options _).
Qed.

(** C7: The three programs of the executable fit together.  The verifier service is entered
    only by root, from the one command line, on the one socket that systemd passes.  Whatever
    it then meets, a success on that socket was sent to the account [vauth] for the owner of
    an active local session; and it rests on a child that is the same executable, started
    with a command line on which [main] enters the PAM handler, for the account of the target
    user and the PAM service vauth, and which ended with success.  In every case the
    conversation with the daemon is left in order and no child is left behind. *)
Theorem verifier_program_dispatch arguments euid listen_fds fd configuration d suggested lookup c r st :
  select_program arguments euid listen_fds = Ret (VerifierProgram fd) →
  run_pam_verifier_service fd (lit "vauth") configuration (seconds 30) d suggested lookup c = (Some r, st) →
  arguments = [PAM_VERIFIER_COMMAND] ∧ euid = 0 ∧ listen_fds = 1 ∧
  left_by daemon r (vs_daemon st) ∧ (∀ p, vs_program st = Some p → ch_pid (pg_child p) ≤ 0) ∧
  ((pam_verifier, VerificationComplete result_success) ∈ ep_trace (vs_daemon st) →
   ∃ daemon_uid uid sessionId username session p command,
     uid_for_username suggested lookup = Some (Ret daemon_uid) ∧
     admitted daemon_uid (service_connection fd (lit "vauth") configuration c) uid sessionId username ∧
     cn_query_again c sessionId = Ret session ∧ active_local session uid ∧
     vs_program st = Some p ∧ ch_argv (pg_child p) = lit "/proc/self/exe" :: command ∧
     (∀ euid' fds', select_program command euid' fds' =
        Ret (HandlerProgram [username; lit "vauth"; configuration; cn_pid c])) ∧
     ep_state (pg_socket p) = VerifierCompleted result_success ∧
     Exists (λ t, pt_wait t = w_exited 0) (cn_turns c)).
Proof.
  intros Hsel Hrun. destruct (select_verifier _ _ _ _ Hsel) as (-> & -> & -> & ->).
  split; [done|]. split; [done|]. split; [done|].
  unfold run_pam_verifier_service in Hrun.
  assert (∀ (e : exn) fd, left_by daemon (Throw e : res Z) (endpoint_new fd)) as Hnew by (intros; by left).
  destruct (VerifierSocket_new _ d) as [fd|e] eqn:Ef;
    [|injection Hrun as <- <-; split_and!; [apply Hnew|done|intros []%elem_of_nil]].
  assert (fd = SD_LISTEN_FDS_START) as ->.
  { unfold VerifierSocket_new in Ef. apply throw_if_ret in Ef as [_ Ef].
    destruct (validate_socket d); [|done]. by injection Ef. }
  destruct (uid_for_username suggested lookup) as [[uid|e]|] eqn:Eu;
    [|injection Hrun as <- <-; split_and!; [apply Hnew|done|intros []%elem_of_nil]|done].
  pose proof (run_connection_outcome uid (seconds 30)
    (service_connection SD_LISTEN_FDS_START (lit "vauth") configuration c)) as Ho.
  rewrite Hrun in Ho. destruct Ho as (Hleft & Hpid & Hearned). split; [done|]. split; [done|]. intros Hin.
  destruct (Hearned Hin) as (u & sid & name & session & p & Ha & _ & Hq & Hal & Hp & Hargv & _ & Hs & Hex).
  exists uid, u, sid, name, session, p. eexists. split_and!; try done; apply Hal.
Qed.

Definition example_main_service : option (res Z) * ServiceState :=
  run_pam_verifier_service SD_LISTEN_FDS_START (lit "vauth") (lit "/etc/pam.d") (seconds 30) good_descriptor 1024
    (λ _, ac_found 990) example_connection.

Lemma verifier_program_dispatch_witness :
  ∃ p command, vs_program example_main_service.2 = Some p ∧
    ch_argv (pg_child p) = lit "/proc/self/exe" :: command ∧
    select_program command 0 0 = Ret (HandlerProgram [lit "alice"; lit "vauth"; lit "/etc/pam.d"; lit "77"]).
Proof.
  assert (example_main_service = (Some (Ret 0), example_main_service.2)) as E.
  { apply injective_projections; [vm_compute; reflexivity|reflexivity]. }
  destruct (verifier_program_dispatch [PAM_VERIFIER_COMMAND] 0 1 SD_LISTEN_FDS_START (lit "/etc/pam.d")
    good_descriptor 1024 (λ _, ac_found 990) example_connection (Ret 0) example_main_service.2)
    as (_ & _ & _ & _ & _ & Hs).
  - vm_compute. reflexivity.
  - exact E.
  - destruct Hs as (duid & uid & sid & name & session & p & command & _ & Ha & _ & _ & Hp & Hargv & Hsel & _).
    + apply elem_decided. vm_compute. reflexivity.
    + exists p, command. split_and!; [exact Hp|exact Hargv|]. rewrite Hsel.
      destruct Ha as [_ _ Hname]. injection Hname as <-. reflexivity.
Defined.
