(* ===== verification/AgentClient.v ===== *)
(** * The agent's end of the D-Bus connection (src/client/agent_client.cpp)

    The graphical agent registers with the daemon, filters the daemon's signals through its
    tracker (ClientTracker.v) and hands what is left to the user interface; answers are sent
    for the active request only.  A secret travels through a pipe. *)
From Stdlib Require Import ZArith Lia.
From stdpp Require Import base list strings.
From S2P Require Import Prelude VerifierProtocol AgentRegistry InteractionRegistry AgentService Authorization.
From S2P Require Import ClientTracker.

Definition MAX_EARLY_EVENTS : Z := 32.

(** ** The pipe *)

(** The answers of [write]; the end of the list is a failing call. *)
Inductive write_answer := wrote (count : Z) | write_eintr | write_error.

(** [write_all]: the contents of the pipe, of which [pipe] has been written. *)
Fixpoint write_all (pipe bytes : list Z) (answers : list write_answer) : res (list Z) :=
  match bytes with
  | [] => Ret pipe
  | _ :: _ =>
      match answers with
      | wrote count :: answers =>
          if 0 <? count
          then write_all (pipe ++ take (Z.to_nat count) bytes) (drop (Z.to_nat count) bytes) answers
          else Throw system_error
      | write_eintr :: answers => write_all pipe bytes answers
      | write_error :: _ | [] => Throw system_error
      end
  end.

(** ** Calls to the daemon *)

(** The method calls, with the contents of the pipe whose read end is passed. *)
Inductive daemon_call :=
  | CallRespond (generation request_id : Z) (approved : bool)
  | CallSubmit (generation request_id prompt_id : Z) (pipe : list Z)
  | CallCancel (generation request_id : Z).

(** The calls that were made so far are the state; [answer] is how this one ends. *)
Definition callMethod (call : daemon_call) (answer : res ()) : ST (list daemon_call) () :=
  let! _ := st_modify (λ calls, calls ++ [call]) in
  st_lift answer.

(** ** The client *)

Record AgentClient := mkClient {
  cl_generation : Z;
  cl_tracker : option InteractionTracker;
  cl_earlyEvents : list InteractionEvent;
  cl_earlyEventsOverflowed : bool;
}.

Definition client_initial : AgentClient := mkClient 0 None [] false.

(** The event that is handed to the handler, if any. *)
Definition receive_event (event : InteractionEvent) (c : AgentClient)
    : option InteractionEvent * AgentClient :=
  match cl_tracker c with
  | None =>
      if len (cl_earlyEvents c) =? MAX_EARLY_EVENTS
      then (None, mkClient (cl_generation c) None (cl_earlyEvents c) true)
      else (None, mkClient (cl_generation c) None (cl_earlyEvents c ++ [event]) (cl_earlyEventsOverflowed c))
  | Some tk =>
      let '(accepted, tk) := accept tk event in
      (if accepted then Some event else None,
       mkClient (cl_generation c) (Some tk) (cl_earlyEvents c) (cl_earlyEventsOverflowed c))
  end.

Definition event_of_signal (s : Signal) : option InteractionEvent :=
  match parse_interaction_state (sg_state s) with
  | Some state => Some (mkEvent (sg_generation s) (sg_requestId s) (sg_promptId s) state
                          (sg_operation s) (sg_relyingPartyId s) (sg_message s))
  | None => None
  end.

(** The signal handler of the constructor. *)
Definition on_signal (s : Signal) (c : AgentClient) : option InteractionEvent * AgentClient :=
  match event_of_signal s with
  | Some event => receive_event event c
  | None => (None, c)
  end.

(** Signals or events one after the other, with what the handler gets. *)
Fixpoint receive_each {A} (f : A → AgentClient → option InteractionEvent * AgentClient) (l : list A)
    (c : AgentClient) : list InteractionEvent * AgentClient :=
  match l with
  | [] => ([], c)
  | x :: l =>
      let '(o, c) := f x c in
      let '(handled, c) := receive_each f l c in
      (option_list o ++ handled, c)
  end.

(** The constructor: [early] are the signals that arrive until the registration answers,
    [registered] is its answer.  The result has the events the handler got on the way. *)
Definition AgentClient_new (early : list Signal) (registered : res Z)
    : res (list InteractionEvent * AgentClient) :=
  let '(_, c) := receive_each on_signal early client_initial in
  generation ← registered;
  throw_if generation =? 0 as runtime_error ;;
  throw_if cl_earlyEventsOverflowed c as runtime_error ;;
  let c' := mkClient generation (Some (tracker_new generation)) [] (cl_earlyEventsOverflowed c) in
  Ret (receive_each receive_event (cl_earlyEvents c) c').

Definition client_is_active (c : AgentClient) (request_id : Z) : bool :=
  match cl_tracker c with Some tk => is_active tk request_id | None => false end.

Definition require_active (c : AgentClient) (request_id : Z) : res () :=
  throw_if (request_id =? 0) || negb (client_is_active c request_id) as runtime_error ;; Ret ().

Definition client_respond_to_presence (c : AgentClient) (request_id : Z) (approved : bool)
    (answer : res ()) : ST (list daemon_call) () :=
  let! _ := st_lift (require_active c request_id) in
  callMethod (CallRespond (cl_generation c) request_id approved) answer.

(** [opened]: whether [pipe2] succeeds; [writes]: the answers of [write]. *)
Definition client_submit_secret (c : AgentClient) (request_id prompt_id : Z) (secret : list Z)
    (opened : bool) (writes : list write_answer) (answer : res ()) : ST (list daemon_call) () :=
  let! _ := st_lift (require_active c request_id) in
  if (prompt_id =? 0) || (MAX_SECRET_SIZE <? len secret) || contains_nul secret
  then st_throw invalid_argument else
  if negb opened then st_throw system_error else
  let! pipe := st_lift (write_all [] secret writes) in
  callMethod (CallSubmit (cl_generation c) request_id prompt_id pipe) answer.

Definition client_cancel (c : AgentClient) (request_id : Z) (answer : res ())
    : ST (list daemon_call) () :=
  let! _ := st_lift (require_active c request_id) in
  callMethod (CallCancel (cl_generation c) request_id) answer.

(** ** Events *)

(** What a tracker accepts of a sequence of events, and where it ends up. *)
Fixpoint accepted_events (tk : InteractionTracker) (events : list InteractionEvent)
    : list InteractionEvent * InteractionTracker :=
  match events with
  | [] => ([], tk)
  | e :: events =>
      let '(b, tk) := accept tk e in
      let '(l, tk) := accepted_events tk events in
      (if b then e :: l else l, tk)
  end.

Lemma accepted_app tk l l' :
  accepted_events tk (l ++ l') =
  let '(a, tk1) := accepted_events tk l in let '(b, tk2) := accepted_events tk1 l' in (a ++ b, tk2).
Proof.
  revert tk. induction l as [|e l IH]; intros tk; simpl.
  - by destruct (accepted_events tk l').
  - destruct (accept tk e) as [b tk1]. rewrite IH. destruct (accepted_events tk1 l) as [a tk2].
    destruct (accepted_events tk2 l') as [a' tk3]. by destruct b.
Qed.

(** With its tracker, the client hands over what the tracker accepts. *)
Lemma receive_events_accepted g tk o l early :
  receive_each receive_event l (mkClient g (Some tk) early o) =
  let '(a, tk') := accepted_events tk l in (a, mkClient g (Some tk') early o).
Proof.
  revert tk. induction l as [|e l IH]; intros tk; simpl; [done|]. unfold receive_event at 1. simpl.
  destruct (accept tk e) as [b tk1]. rewrite IH. destruct (accepted_events tk1 l) as [a tk2]. by destruct b.
Qed.

Lemma receive_signals_events (l : list Signal) c :
  receive_each on_signal l c = receive_each receive_event (omap event_of_signal l) c.
Proof.
  revert c. induction l as [|s l IH]; intros c; [done|]. cbn. unfold on_signal at 1.
  destruct (event_of_signal s) as [e|]; cbn.
  - destruct (receive_event e c) as [o c1]. by rewrite IH.
  - rewrite IH. by destruct (receive_each receive_event (omap event_of_signal l) c).
Qed.

(** Without it, the client keeps up to MAX_EARLY_EVENTS events. *)
Lemma receive_early l early o :
  len early ≤ MAX_EARLY_EVENTS →
  receive_each receive_event l (mkClient 0 None early o) =
  ([], mkClient 0 None (take (Z.to_nat MAX_EARLY_EVENTS) (early ++ l))
         (o || (MAX_EARLY_EVENTS <? len (early ++ l)))).
Proof.
  unfold MAX_EARLY_EVENTS. revert early o. induction l as [|e l IH]; intros early o Hl; simpl.
  - rewrite app_nil_r, take_ge by lia. rewrite (proj2 (Z.ltb_ge _ _)) by lia. by rewrite orb_false_r.
  - unfold receive_event at 1. cbn [cl_tracker cl_earlyEvents cl_generation cl_earlyEventsOverflowed].
    unfold MAX_EARLY_EVENTS. destruct (Z.eqb_spec (len early) 32) as [E|E].
    + rewrite IH by lia. simpl. rewrite !take_app_le by lia. do 2 f_equal.
      rewrite !length_app. simpl. rewrite (proj2 (Z.ltb_lt 32 (Z.of_nat (length early + S (length l))))) by lia.
      by rewrite orb_true_r.
    + rewrite IH by (rewrite length_app; simpl; lia). by rewrite <- app_assoc.
Qed.

(** What the daemon sends is read back as it was queued. *)
Lemma event_of_signal_of session event :
  event_of_signal (signal_of session event) =
  Some (mkEvent (ss_generation session) (se_requestId event) (se_promptId event) (se_state event)
          (user_interaction_operation_name (se_operation event)) (se_relyingPartyId event) (se_message event)).
Proof. unfold event_of_signal, signal_of. cbn [sg_state]. by rewrite parse_state_name. Qed.

(** ** The secret *)

Lemma write_all_ret pipe bytes answers contents :
  write_all pipe bytes answers = Ret contents → contents = pipe ++ bytes.
Proof.
  revert pipe bytes. induction answers as [|[count| |] answers IH]; intros pipe [|b bytes] E; simpl in E;
    try done; try (injection E as <-; by rewrite app_nil_r).
  - destruct (0 <? count); [|done]. apply IH in E as ->. rewrite <- app_assoc. f_equal.
    by rewrite take_drop.
  - by apply IH in E.
Qed.

Lemma read_pipe_delivers reads used contents :
  delivers reads contents → len used + len contents ≤ MAX_SECRET_SIZE →
  read_pipe_loop used reads = Ret (used ++ contents).
Proof.
  unfold MAX_SECRET_SIZE. revert used contents.
  induction reads as [|[data| | |] reads IH]; intros used contents Hd Hl; simpl in Hd |- *; try done.
  - subst. by rewrite app_nil_r.
  - destruct Hd as (Hne & rest & -> & Hd). rewrite length_app in Hl. unfold MAX_SECRET_SIZE.
    assert (length data ≠ 0%nat) by (by destruct data). rewrite take_ge by lia.
    rewrite (proj2 (Z.ltb_lt _ _)) by lia. rewrite (proj2 (Z.ltb_ge _ _)) by (rewrite length_app; lia).
    rewrite (IH _ rest Hd) by (rewrite length_app; lia). by rewrite app_assoc.
  - by apply IH.
Qed.

Lemma read_secret_delivers fd reads secret :
  0 ≤ fd → delivers reads secret → len secret ≤ MAX_SECRET_SIZE → contains_nul secret = false →
  read_secret_pipe (mkPipe fd true true true reads) = Ret secret.
Proof.
  intros Hfd Hd Hl Hn. unfold read_secret_pipe. cbn [sp_fd sp_stat_ok sp_is_fifo sp_fcntl_ok sp_reads negb].
  rewrite (proj2 (Z.ltb_ge fd 0)) by lia. rewrite (read_pipe_delivers _ _ secret Hd) by (simpl; lia).
  cbn [mbind res_bind app]. by rewrite Hn.
Qed.

Lemma submit_secret_calls c id prompt secret opened writes answer calls :
  wp (client_submit_secret c id prompt secret opened writes answer) (λ r calls',
    (calls' = calls ∧ is_ret r = false) ∨
    calls' = calls ++ [CallSubmit (cl_generation c) id prompt secret] ∧ r = answer ∧
    client_is_active c id = true ∧ id ≠ 0 ∧ prompt ≠ 0 ∧ len secret ≤ MAX_SECRET_SIZE ∧
    contains_nul secret = false) calls.
Proof.
  apply wp_bind, wp_lift. unfold require_active.
  destruct ((id =? 0) || negb (client_is_active c id)) eqn:E1; [by left|].
  destruct ((prompt =? 0) || _ || _) eqn:E2; [by left|].
  destruct opened; simpl negb; [|by left]. apply wp_bind, wp_lift.
  destruct (write_all [] secret writes) as [pipe|e] eqn:E3; [|by left].
  apply write_all_ret in E3 as ->. unfold callMethod. apply wp_bind, wp_modify, wp_lift.
  reflect_bools. right. split_and!; try done.
Qed.

(** The constructor: what it keeps of the early signals. *)
Lemma client_new_spec early registered :
  match AgentClient_new early registered with
  | Ret (handled, c) => ∃ g, registered = Ret g ∧ g ≠ 0 ∧ cl_generation c = g ∧
      ∃ tk, cl_tracker c = Some tk ∧
        accepted_events (tracker_new g) (omap event_of_signal early) = (handled, tk)
  | Throw e => registered = Throw e ∨
      e = runtime_error ∧ (registered = Ret 0 ∨ MAX_EARLY_EVENTS < len (omap event_of_signal early))
  end.
Proof.
  unfold AgentClient_new. rewrite receive_signals_events. unfold client_initial.
  rewrite receive_early by (unfold MAX_EARLY_EVENTS; simpl; lia). rewrite app_nil_l.
  cbn [cl_earlyEvents cl_earlyEventsOverflowed orb].
  destruct registered as [g|e]; cbn [mbind res_bind]; [|by left].
  destruct (Z.eqb_spec g 0) as [->|Hg]; [right; by auto|].
  destruct (MAX_EARLY_EVENTS <? _) eqn:Eo; reflect_bools; [right; by auto|].
  rewrite take_ge by (unfold MAX_EARLY_EVENTS in *; lia). rewrite receive_events_accepted.
  destruct (accepted_events (tracker_new g) (omap event_of_signal early)) as [a tk] eqn:Ea.
  exists g. split_and!; try done. by exists tk.
Qed.

(** ** Properties *)

(** C72: The agent misses no event of the daemon, and takes none twice or out of order.  The
    signals that arrive while the agent registers are kept until its generation is known;
    with them and all that follow, the handler gets exactly the events that a tracker of
    that generation accepts of the whole sequence.  The constructor fails only when the
    registration does, when the daemon answers with the generation 0, or when more than 32
    events arrive before the answer. *)
Theorem agent_sees_every_event early registered :
  match AgentClient_new early registered with
  | Ret (handled, c) => ∃ g, registered = Ret g ∧ g ≠ 0 ∧ cl_generation c = g ∧
      ∀ later, let '(handled', c') := receive_each on_signal later c in
        ∃ tk, cl_tracker c' = Some tk ∧
          accepted_events (tracker_new g) (omap event_of_signal (early ++ later)) = (handled ++ handled', tk)
  | Throw e => registered = Throw e ∨
      e = runtime_error ∧ (registered = Ret 0 ∨ MAX_EARLY_EVENTS < len (omap event_of_signal early))
  end.
Proof.
  pose proof (client_new_spec early registered) as Hn.
  destruct (AgentClient_new early registered) as [[handled c]|e]; [|done].
  destruct Hn as (g & Hr & Hg & Hc & tk & Ht & Ea). exists g. split_and!; try done. intros later.
  destruct c as [g' tracker early' o]. simpl in Ht. subst tracker.
  rewrite receive_signals_events, receive_events_accepted.
  destruct (accepted_events tk (omap event_of_signal later)) as [b tk'] eqn:Eb.
  exists tk'. split; [done|]. by rewrite omap_app, accepted_app, Ea, Eb.
Qed.

(** C31: A secret that the agent submits arrives in the daemon as it was typed.  The agent
    makes at most the one call, for the active request and the prompt it was given, and the
    pipe holds the secret whatever [write] delivers at a time; it does make the call when the
    secret has at most 1024 bytes, none of them NUL, and the pipe works.  In whatever portions
    the daemon then reads the pipe, it accepts its contents: submitting to the interaction is
    all that is left of the daemon's method for a registered caller. *)
Theorem secret_reaches_daemon c id prompt secret opened writes answer calls r calls' :
  client_submit_secret c id prompt secret opened writes answer calls = (r, calls') →
  (calls' = calls ∧ is_ret r = false ∨
   calls' = calls ++ [CallSubmit (cl_generation c) id prompt secret] ∧ r = answer ∧
   client_is_active c id = true ∧ prompt ≠ 0 ∧
   ∀ login call user s fd reads,
     registered_caller login call (cl_generation c) s = (Ret user, s) → 0 ≤ fd → delivers reads secret →
     call_submit_secret login call (cl_generation c) id prompt (mkPipe fd true true true reads) s =
     on_interactions (submit_secret user id prompt secret) s) ∧
  (client_is_active c id = true → id ≠ 0 → prompt ≠ 0 → len secret ≤ MAX_SECRET_SIZE →
   contains_nul secret = false → opened = true → write_all [] secret writes = Ret secret →
   r = answer ∧ calls' = calls ++ [CallSubmit (cl_generation c) id prompt secret]).
Proof.
  intros E. split.
  - destruct (wp_run _ _ _ _ _ (submit_secret_calls _ _ _ _ _ _ _ _) E)
      as [?|(-> & -> & Ha & _ & Hp & Hl & Hn)]; [by left|right].
    split_and!; try done. intros login call user s fd reads Hr Hfd Hd.
    unfold call_submit_secret, st_bind. rewrite Hr. unfold st_lift. by rewrite (read_secret_delivers _ _ secret).
  - intros Ha Hi Hp Hl Hn -> Hw. unfold client_submit_secret, st_bind, st_lift, require_active in E.
    rewrite Ha, (proj2 (Z.eqb_neq id 0)), (proj2 (Z.eqb_neq prompt 0)), (proj2 (Z.ltb_ge _ _)), Hn, Hw in E by done.
    cbn [orb negb] in E. by injection E.
Qed.

Definition example_asking : AgentClient := mkClient 1 (Some (mkTracker 1 (Some 7) 3)) [] false.

Lemma secret_reaches_daemon_witness :
  client_submit_secret example_asking 7 3 (lit "pass") true [wrote 1; write_eintr; wrote 3] (Ret ()) [] =
    (Ret (), [CallSubmit 1 7 3 (lit "pass")]).
Proof.
  destruct (client_submit_secret example_asking 7 3 (lit "pass") true [wrote 1; write_eintr; wrote 3] (Ret ()) [])
    as [r calls] eqn:E.
  destruct (secret_reaches_daemon _ _ _ _ _ _ _ _ _ _ E) as [_ H].
  destruct H as [-> ->]; try reflexivity; try discriminate; vm_compute; congruence.
Defined.
