(* ===== verification/AgentUi.v ===== *)
(** * The graphical agent (src/client/main.cpp, with the conditions of ui/appwindow.slint)

    Two threads: the D-Bus thread of AgentClient.v hands accepted events to the user
    interface, first into a start-up queue and then into the event loop of the toolkit; the
    main thread shows them and runs the callbacks of the window.  One input is one action of
    one of them.  The window is the properties that the code sets; when a button can be
    pressed is taken from appwindow.slint.  Animations are drawn by libraries and left out. *)
From Stdlib Require Import ZArith Lia.
From stdpp Require Import base list strings.
From S2P Require Import Prelude VerifierProtocol AgentRegistry InteractionRegistry AgentService.
From S2P Require Import ClientTracker AgentClient.

Definition MAX_STARTUP_EVENTS : Z := 32.

Definition view_name (view : ViewKind) : list Z :=
  match view with
  | view_presence => lit "presence"
  | view_verification => lit "verification"
  | view_secret => lit "secret"
  | view_status => lit "status"
  end.

Definition animation_name (animation : AnimationKind) : list Z :=
  match animation with
  | anim_none => lit "none"
  | anim_waiting => lit "waiting"
  | anim_success => lit "success"
  | anim_failure => lit "failure"
  end.

(** ** The window *)

Record AppWindow := mkWindow {
  aw_view : list Z;
  aw_heading : list Z;
  aw_message : list Z;
  aw_relying_party_id : list Z;
  aw_secret_text : list Z;
  aw_interaction_active : bool;
  aw_animation_kind : list Z;
  aw_animation_revision : Z;
  aw_remap_constraint_toggle : bool;
  aw_visible : bool;
}.

Definition window_initial : AppWindow :=
  mkWindow (lit "status") (lit "vAuth") (lit "Waiting for an authentication request.") [] [] false
    (lit "waiting") 0 false false.

Definition set_interaction_active (b : bool) (w : AppWindow) : AppWindow :=
  mkWindow (aw_view w) (aw_heading w) (aw_message w) (aw_relying_party_id w) (aw_secret_text w) b
    (aw_animation_kind w) (aw_animation_revision w) (aw_remap_constraint_toggle w) (aw_visible w).
Definition set_secret_text (text : list Z) (w : AppWindow) : AppWindow :=
  mkWindow (aw_view w) (aw_heading w) (aw_message w) (aw_relying_party_id w) text (aw_interaction_active w)
    (aw_animation_kind w) (aw_animation_revision w) (aw_remap_constraint_toggle w) (aw_visible w).
Definition set_visible (b : bool) (w : AppWindow) : AppWindow :=
  mkWindow (aw_view w) (aw_heading w) (aw_message w) (aw_relying_party_id w) (aw_secret_text w)
    (aw_interaction_active w) (aw_animation_kind w) (aw_animation_revision w)
    (aw_remap_constraint_toggle w) b.

(** The calls of [show_event] on the window, for a presentation. *)
Definition present (p : UiPresentation) (w : AppWindow) : AppWindow :=
  let toggle := if negb (aw_visible w) then negb (aw_remap_constraint_toggle w)
                else aw_remap_constraint_toggle w in
  let animates := negb (match up_animation p with anim_none => true | _ => false end) in
  mkWindow (view_name (up_view p)) (up_title p) (up_message p) (up_relyingPartyId p) (aw_secret_text w)
    (negb (up_terminal p))
    (if animates then animation_name (up_animation p) else aw_animation_kind w)
    (if animates then aw_animation_revision w + 1 else aw_animation_revision w)
    toggle true.

(** ** The runtime *)

(** A running timer: its interval and the revision its callback captured. *)
Record UiRuntime := mkRuntime {
  rt_ui : AppWindow;
  rt_terminalTimer : option (Z * Z);
  rt_renderTimer : bool;
  rt_activeRequestId : Z;
  rt_activePromptId : Z;
  rt_presentationRevision : Z;
}.

Definition runtime_initial : UiRuntime := mkRuntime window_initial None false 0 0 0.

Definition on_window (f : AppWindow → AppWindow) (rt : UiRuntime) : UiRuntime :=
  mkRuntime (f (rt_ui rt)) (rt_terminalTimer rt) (rt_renderTimer rt) (rt_activeRequestId rt)
    (rt_activePromptId rt) (rt_presentationRevision rt).

Definition show_event (event : InteractionEvent) (rt : UiRuntime) : UiRuntime :=
  let presentation := ui_apply event in
  let revision := u64 (rt_presentationRevision rt + 1) in
  let display_time := match up_animation presentation with
                      | anim_none => milliseconds 1800 | _ => milliseconds 2200 end in
  mkRuntime (present presentation (rt_ui rt))
    (if up_terminal presentation then Some (display_time, revision) else None)
    (match up_view presentation with view_verification => true | _ => false end)
    (if up_terminal presentation then 0 else ev_requestId event)
    (if up_terminal presentation then 0 else ev_promptId event)
    revision.

Definition report_ui_error (message : list Z) (rt : UiRuntime) : UiRuntime :=
  let revision := u64 (rt_presentationRevision rt + 1) in
  let w := rt_ui rt in
  mkRuntime
    (mkWindow (lit "status") (lit "Interaction failed") message (aw_relying_party_id w) (aw_secret_text w) false
       (aw_animation_kind w) (aw_animation_revision w) (aw_remap_constraint_toggle w) (aw_visible w))
    (Some (milliseconds 1800, revision)) (rt_renderTimer rt) 0 0 revision.

(** The callback of the terminal timer, a single-shot timer. *)
Definition terminal_timeout (revision : Z) (rt : UiRuntime) : UiRuntime :=
  let hide := rt_presentationRevision rt =? revision in
  mkRuntime (if hide then set_visible false (rt_ui rt) else rt_ui rt) None
    (if hide then false else rt_renderTimer rt) (rt_activeRequestId rt) (rt_activePromptId rt)
    (rt_presentationRevision rt).

(** [try { agent.cancel(id); } catch(...) {}] *)
Definition try_cancel (agent : AgentClient) (request_id : Z) (answer : res ()) : ST (list daemon_call) () :=
  st_catch (client_cancel agent request_id answer) (λ _, st_ret ()).

Definition cancel_and_report (rt : UiRuntime) (agent : AgentClient) (message : list Z) (answer : res ())
    (calls : list daemon_call) : UiRuntime * list daemon_call :=
  let request_id := rt_activeRequestId rt in
  let calls := if negb (request_id =? 0) then (try_cancel agent request_id answer calls).2 else calls in
  (report_ui_error message rt, calls).

(** ** The start-up queue *)

Record UiStartup := mkStartup {
  us_events : list InteractionEvent;
  us_eventLoopStarted : bool;
  us_overflowed : bool;
}.

Definition startup_initial : UiStartup := mkStartup [] false false.

(** The handler given to the agent: into the start-up queue, or to the toolkit's loop. *)
Definition handle_event (event : InteractionEvent) (st : UiStartup) (posted : list InteractionEvent)
    : UiStartup * list InteractionEvent :=
  if negb (us_eventLoopStarted st) then
    if len (us_events st) =? MAX_STARTUP_EVENTS
    then (mkStartup (us_events st) false true, posted)
    else (mkStartup (us_events st ++ [event]) false (us_overflowed st), posted)
  else (st, posted ++ [event]).

(** The handler while the constructor of the agent runs, before the event loop. *)
Definition handle_early (st : UiStartup) (e : InteractionEvent) : UiStartup := (handle_event e st []).1.

(** ** The process *)

(** Where the main thread is: waiting for the first event, showing the queued ones, in the
    event loop, in the [catch] clause of a callback, or at the end of [main]. *)
Inductive ui_pc :=
  | ui_waiting
  | ui_starting (events : list InteractionEvent)
  | ui_running
  | ui_catching (what : list Z)
  | ui_ended.

(** [ua_handing]: an accepted event that the D-Bus thread has not handed over yet;
    [ua_posted]: the queue of [invoke_from_event_loop].  The signals received, the events
    shown and the calls made so far are a record of the run. *)
Record UiAgent := mkUiAgent {
  ua_client : AgentClient;
  ua_handing : option InteractionEvent;
  ua_startup : UiStartup;
  ua_posted : list InteractionEvent;
  ua_runtime : UiRuntime;
  ua_pc : ui_pc;
  ua_signals : list Signal;
  ua_shown : list InteractionEvent;
  ua_calls : list daemon_call;
}.

Definition at_pc (pc : ui_pc) (a : UiAgent) : UiAgent :=
  mkUiAgent (ua_client a) (ua_handing a) (ua_startup a) (ua_posted a) (ua_runtime a) pc (ua_signals a)
    (ua_shown a) (ua_calls a).
Definition with_runtime (rt : UiRuntime) (calls : list daemon_call) (a : UiAgent) : UiAgent :=
  mkUiAgent (ua_client a) (ua_handing a) (ua_startup a) (ua_posted a) rt (ua_pc a) (ua_signals a)
    (ua_shown a) calls.
Definition shows_next (e : InteractionEvent) (a : UiAgent) : UiAgent :=
  mkUiAgent (ua_client a) (ua_handing a) (ua_startup a) (ua_posted a) (show_event e (ua_runtime a))
    (ua_pc a) (ua_signals a) (ua_shown a ++ [e]) (ua_calls a).

(** When [main] reaches the wait: the agent is registered, and its early events are queued. *)
Definition ui_agent_initial (early : list Signal) (registered : res Z) : res UiAgent :=
  new ← AgentClient_new early registered;
  let '(handled, client) := (new : list InteractionEvent * AgentClient) in
  let startup := foldl handle_early startup_initial handled in
  Ret (mkUiAgent client None startup [] runtime_initial ui_waiting early [] []).

(** ** Callbacks *)

(** A callback: with the result of its [try] block, on to the event loop or to the [catch]. *)
Definition finish_callback (what : list Z) (r : res ()) (ok : UiRuntime → UiRuntime) (calls : list daemon_call)
    (a : UiAgent) : UiAgent :=
  match r with
  | Ret _ => with_runtime (ok (ua_runtime a)) calls a
  | Throw _ => at_pc (ui_catching what) (with_runtime (ua_runtime a) calls a)
  end.

Definition on_respond_presence (approved : bool) (answer : res ()) (what : list Z) (a : UiAgent) : UiAgent :=
  let '(r, calls) := client_respond_to_presence (ua_client a) (rt_activeRequestId (ua_runtime a)) approved
                       answer (ua_calls a) in
  finish_callback what r (on_window (set_interaction_active false)) calls a.

(** Its [catch] clause reports without cancelling. *)
Definition on_cancel_interaction (answer : res ()) (what : list Z) (a : UiAgent) : UiAgent :=
  let '(r, calls) := client_cancel (ua_client a) (rt_activeRequestId (ua_runtime a)) answer (ua_calls a) in
  match r with
  | Ret _ => with_runtime (on_window (set_interaction_active false) (ua_runtime a)) calls a
  | Throw _ => with_runtime (report_ui_error what (ua_runtime a)) calls a
  end.

(** What the secret's way to the daemon meets: the pipe, its writes and the call. *)
Record SubmitInput := mkSubmitInput { si_opened : bool; si_writes : list write_answer; si_answer : res () }.

(** The window empties its text field after the callback, too. *)
Definition on_submit_secret (i : SubmitInput) (what : list Z) (a : UiAgent) : UiAgent :=
  let rt := on_window (set_secret_text []) (ua_runtime a) in
  let text := c_string (aw_secret_text (rt_ui (ua_runtime a))) in
  let '(r, calls) :=
    if MAX_SECRET_SIZE <? len text then (Throw runtime_error, ua_calls a)
    else client_submit_secret (ua_client a) (rt_activeRequestId rt) (rt_activePromptId rt) text
           (si_opened i) (si_writes i) (si_answer i) (ua_calls a) in
  finish_callback what r (λ rt, on_window (set_interaction_active false)
    (mkRuntime (rt_ui rt) (rt_terminalTimer rt) (rt_renderTimer rt) (rt_activeRequestId rt) 0
       (rt_presentationRevision rt))) calls (with_runtime rt (ua_calls a) a).

(** The window is hidden whatever the callback does. *)
Definition on_close_requested (answer : res ()) (a : UiAgent) : UiAgent :=
  let rt := ua_runtime a in
  let '(rt, calls) :=
    if negb (rt_activeRequestId rt =? 0) then
      (mkRuntime (set_interaction_active false (rt_ui rt)) (rt_terminalTimer rt) (rt_renderTimer rt) 0 0
         (rt_presentationRevision rt),
       (try_cancel (ua_client a) (rt_activeRequestId rt) answer (ua_calls a)).2)
    else (rt, ua_calls a) in
  with_runtime (on_window (set_visible false) rt) calls a.

(** ** Actions *)

Inductive ui_input :=
  | InSignal (s : Signal)
  | InHandOver
  | InMain
  | InApprove (approved : bool) (answer : res ()) (what : list Z)
  | InCancel (answer : res ()) (what : list Z)
  | InSubmit (enter : bool) (i : SubmitInput) (what : list Z)
  | InType (text : list Z)
  | InClose (answer : res ())
  | InTimer
  | InCatch (answer : res ()).

(** Which controls the window offers (appwindow.slint). *)
Definition offers (w : AppWindow) (i : ui_input) : bool :=
  let view name := bool_decide (aw_view w = name) in
  aw_visible w &&
  match i with
  | InApprove _ _ _ => view (lit "presence") && aw_interaction_active w
  | InCancel _ _ => (view (lit "verification") || view (lit "secret")) && aw_interaction_active w
  | InSubmit enter _ _ => view (lit "secret") && (enter || aw_interaction_active w)
  | InType _ => view (lit "secret")
  | InClose _ => true
  | _ => false
  end.

(** The main thread's own actions: the wait, the queued events, the event loop. *)
Definition main_step (a : UiAgent) : option UiAgent :=
  match ua_pc a with
  | ui_waiting =>
      let st := ua_startup a in
      if us_overflowed st then Some (at_pc ui_ended a) else
      match us_events st with
      | [] => None
      | events => Some (mkUiAgent (ua_client a) (ua_handing a) (mkStartup [] true false) (ua_posted a)
                          (ua_runtime a) (ui_starting events) (ua_signals a) (ua_shown a) (ua_calls a))
      end
  | ui_starting (e :: events) => Some (at_pc (ui_starting events) (shows_next e a))
  | ui_starting [] => Some (at_pc ui_running a)
  | ui_running =>
      match ua_posted a with
      | [] => None
      | e :: posted => Some (shows_next e
          (mkUiAgent (ua_client a) (ua_handing a) (ua_startup a) posted (ua_runtime a) (ua_pc a)
             (ua_signals a) (ua_shown a) (ua_calls a)))
      end
  | ui_catching _ | ui_ended => None
  end.

Definition user_step (i : ui_input) (a : UiAgent) : UiAgent :=
  match i with
  | InApprove approved answer what => on_respond_presence approved answer what a
  | InCancel answer what => on_cancel_interaction answer what a
  | InSubmit _ input what => on_submit_secret input what a
  | InType text => with_runtime (on_window (set_secret_text text) (ua_runtime a)) (ua_calls a) a
  | InClose answer => on_close_requested answer a
  | _ => a
  end.

(** One action; [None] is one that cannot happen now. *)
Definition ui_step (i : ui_input) (a : UiAgent) : option UiAgent :=
  match i with
  | InSignal s =>
      match ua_handing a with
      | Some _ => None
      | None =>
          let '(o, client) := on_signal s (ua_client a) in
          Some (mkUiAgent client o (ua_startup a) (ua_posted a) (ua_runtime a) (ua_pc a)
                  (ua_signals a ++ [s]) (ua_shown a) (ua_calls a))
      end
  | InHandOver =>
      match ua_handing a with
      | None => None
      | Some e =>
          let '(st, posted) := handle_event e (ua_startup a) (ua_posted a) in
          Some (mkUiAgent (ua_client a) None st posted (ua_runtime a) (ua_pc a) (ua_signals a)
                  (ua_shown a) (ua_calls a))
      end
  | InMain => main_step a
  | InTimer =>
      match ua_pc a, rt_terminalTimer (ua_runtime a) with
      | ui_running, Some (_, revision) =>
          Some (with_runtime (terminal_timeout revision (ua_runtime a)) (ua_calls a) a)
      | _, _ => None
      end
  | InCatch answer =>
      match ua_pc a with
      | ui_catching what =>
          let '(rt, calls) := cancel_and_report (ua_runtime a) (ua_client a) what answer (ua_calls a) in
          Some (at_pc ui_running (with_runtime rt calls a))
      | _ => None
      end
  | _ =>
      match ua_pc a with
      | ui_running => if offers (rt_ui (ua_runtime a)) i then Some (user_step i a) else None
      | _ => None
      end
  end.

Fixpoint ui_run (inputs : list ui_input) (a : UiAgent) : option UiAgent :=
  match inputs with
  | [] => Some a
  | i :: inputs => match ui_step i a with Some a' => ui_run inputs a' | None => None end
  end.

(** ** What the window shows *)

Definition displays (e : InteractionEvent) (w : AppWindow) : Prop :=
  let p := ui_apply e in
  aw_view w = view_name (up_view p) ∧ aw_heading w = up_title p ∧ aw_message w = up_message p ∧
  aw_relying_party_id w = up_relyingPartyId p.

(** Setting a property that is not part of the presentation. *)
Definition same_display (w w' : AppWindow) : Prop :=
  aw_view w' = aw_view w ∧ aw_heading w' = aw_heading w ∧ aw_message w' = aw_message w ∧
  aw_relying_party_id w' = aw_relying_party_id w.

Lemma displays_same e w w' : same_display w w' → displays e w → displays e w'.
Proof. unfold displays. intros (-> & -> & -> & ->). done. Qed.

(** An active request is the one on display; a running timer belongs to the last
    presentation, which has no active request. *)
Record display_ok (shown : list InteractionEvent) (rt : UiRuntime) : Prop := {
  do_active : rt_activeRequestId rt ≠ 0 → ∃ e, last shown = Some e ∧ displays e (rt_ui rt) ∧
    client_is_terminal (ev_state e) = false ∧ rt_activeRequestId rt = ev_requestId e ∧
    (rt_activePromptId rt = 0 ∨ rt_activePromptId rt = ev_promptId e);
  do_timer : ∀ d r, rt_terminalTimer rt = Some (d, r) →
    r = rt_presentationRevision rt ∧ rt_activeRequestId rt = 0;
}.

Lemma apply_terminal e : up_terminal (ui_apply e) = client_is_terminal (ev_state e).
Proof. unfold ui_apply. by destruct (ev_state e). Qed.

Lemma display_show e shown rt : display_ok (shown ++ [e]) (show_event e rt).
Proof.
  split; unfold show_event; cbn [rt_activeRequestId rt_terminalTimer rt_presentationRevision rt_activePromptId rt_ui];
    rewrite apply_terminal; destruct (client_is_terminal (ev_state e)) eqn:E; try done.
  - intros _. exists e. rewrite last_snoc. split_and!; try done. by right.
  - by intros d r [= _ <-].
Qed.

Lemma display_report what shown rt : display_ok shown (report_ui_error what rt).
Proof. split; [done|]. by intros d r [= _ <-]. Qed.

(** The runtime changes, but neither the request nor what is shown. *)
Lemma display_keeps shown rt rt' :
  display_ok shown rt → same_display (rt_ui rt) (rt_ui rt') →
  rt_activeRequestId rt' = rt_activeRequestId rt →
  (rt_activePromptId rt' = rt_activePromptId rt ∨ rt_activePromptId rt' = 0) →
  (rt_terminalTimer rt' = rt_terminalTimer rt ∧ rt_presentationRevision rt' = rt_presentationRevision rt ∨
   rt_terminalTimer rt' = None) →
  display_ok shown rt'.
Proof.
  intros [Ha Ht] Hs Hi Hp Hr. split.
  - rewrite Hi. intros Hne. destruct (Ha Hne) as (e & H1 & H2 & H3 & H4 & H5). exists e.
    split_and!; try done; [by eapply displays_same|]. destruct Hp as [-> | ->]; auto.
  - intros d r E. destruct Hr as [[Et ->]|Et]; rewrite Et in E; [|done]. rewrite Hi. by eapply Ht.
Qed.

Lemma display_closed shown rt w : display_ok shown rt →
  display_ok shown (mkRuntime w (rt_terminalTimer rt) (rt_renderTimer rt) 0 0 (rt_presentationRevision rt)).
Proof. intros [_ Ht]. split; [done|]. intros d r E. by destruct (Ht d r E). Qed.

(** ** Calls *)

Lemma require_active_spec c id :
  match require_active c id with
  | Ret _ => id ≠ 0 ∧ client_is_active c id = true
  | Throw _ => True
  end.
Proof.
  unfold require_active. destruct (_ || _) eqn:E; [done|]. reflect_bools. split; [done|].
  by destruct (client_is_active c id).
Qed.

(** At most one call, for an active request. *)
Definition called (c : AgentClient) (id : Z) (call : daemon_call) (calls calls' : list daemon_call) : Prop :=
  calls' = calls ∨ calls' = calls ++ [call] ∧ id ≠ 0 ∧ client_is_active c id = true.

Lemma active_call_spec c id call answer calls :
  wp (let! _ := st_lift (require_active c id) in callMethod call answer) (λ _ calls', called c id call calls calls') calls.
Proof.
  apply wp_bind, wp_lift. pose proof (require_active_spec c id) as H.
  destruct (require_active c id) as [[]|e]; [|by left]. unfold callMethod. apply wp_bind, wp_modify, wp_lift. by right.
Qed.

Lemma try_cancel_spec c id answer calls :
  called c id (CallCancel (cl_generation c) id) calls (try_cancel c id answer calls).2.
Proof.
  assert (wp (try_cancel c id answer) (λ _ calls', called c id (CallCancel (cl_generation c) id) calls calls') calls) as H.
  { apply wp_catch. eapply wp_mono; [|apply active_call_spec]. intros [[]|e] calls' Hc; [done|]. by apply wp_ret. }
  exact H.
Qed.

(** ** The pipeline *)

(** The accepted events that are not shown yet, oldest first. *)
Definition in_flight (a : UiAgent) : list InteractionEvent :=
  match ua_pc a with ui_starting l => l | _ => [] end ++
  us_events (ua_startup a) ++ ua_posted a ++ option_list (ua_handing a).

Definition event_ok (g : Z) (e : InteractionEvent) : Prop :=
  ev_generation e = g ∧ ev_requestId e ≠ 0.

Record ui_inv (g : Z) (a : UiAgent) : Prop := {
  ui_generation : cl_generation (ua_client a) = g;
  ui_tracker : cl_tracker (ua_client a) =
    Some (accepted_events (tracker_new g) (omap event_of_signal (ua_signals a))).2;
  ui_pipeline : us_overflowed (ua_startup a) = false →
    (accepted_events (tracker_new g) (omap event_of_signal (ua_signals a))).1 = ua_shown a ++ in_flight a;
  ui_events : Forall (event_ok g) (ua_shown a ++ in_flight a);
  ui_started : if us_eventLoopStarted (ua_startup a)
    then us_events (ua_startup a) = [] ∧ us_overflowed (ua_startup a) = false ∧ ua_pc a ≠ ui_waiting
    else ua_posted a = [] ∧ ua_shown a = [] ∧ (ua_pc a = ui_waiting ∨ ua_pc a = ui_ended);
  ui_display : display_ok (ua_shown a) (ua_runtime a);
}.

Lemma accept_ok tk e tk' : accept tk e = (true, tk') → event_ok (tk_generation tk) e.
Proof.
  unfold accept. destruct (negb _ || _) eqn:E; [done|]. intros _. reflect_bools. done.
Qed.

Lemma accept_generation tk e : tk_generation (accept tk e).2 = tk_generation tk.
Proof.
  unfold accept, accept_prompt. destruct (negb _ || _); [done|]. destruct (negb _); [done|].
  destruct (starts_interaction _); [destruct (_ && _)|destruct (negb (tracks _ _))]; try done;
    destruct (_ && _); try done; by destruct (client_is_terminal _).
Qed.

Lemma accepted_ok tk l :
  Forall (event_ok (tk_generation tk)) (accepted_events tk l).1 ∧
  tk_generation (accepted_events tk l).2 = tk_generation tk.
Proof.
  revert tk. induction l as [|e l IH]; intros tk; simpl; [done|].
  pose proof (accept_generation tk e) as Hg. destruct (accept tk e) as [b tk1] eqn:Ea. simpl in Hg.
  specialize (IH tk1). rewrite Hg in IH. destruct (accepted_events tk1 l) as [a tk2]. simpl in *.
  destruct IH as [IH1 IH2]. destruct b; [|done]. split; [|done]. constructor; [by eapply accept_ok|done].
Qed.

(** One more signal. *)
Lemma accepted_snoc g l s :
  accepted_events (tracker_new g) (omap event_of_signal (l ++ [s])) =
  let '(a, tk) := accepted_events (tracker_new g) (omap event_of_signal l) in
  match event_of_signal s with
  | None => (a, tk)
  | Some e => let '(b, tk) := accept tk e in (a ++ (if b then [e] else []), tk)
  end.
Proof.
  rewrite omap_app, accepted_app. destruct (accepted_events _ _) as [a tk]. cbn.
  destruct (event_of_signal s) as [e|]; cbn; [|by rewrite app_nil_r]. by destruct (accept tk e) as [[] tk'].
Qed.

Lemma inv_runtime g a rt calls :
  ui_inv g a → display_ok (ua_shown a) rt → ui_inv g (with_runtime rt calls a).
Proof. by intros [] ?. Qed.

(** Between the event loop and a [catch] clause. *)
Definition serving_pc (pc : ui_pc) : Prop := match pc with ui_running | ui_catching _ => True | _ => False end.

Lemma inv_pc g a pc : ui_inv g a → serving_pc (ua_pc a) → serving_pc pc → ui_inv g (at_pc pc a).
Proof.
  intros [H1 H2 H3 H4 H5 H6] Hs Hs'.
  assert (in_flight (at_pc pc a) = in_flight a) as Hf.
  { unfold in_flight, at_pc. simpl. destruct pc, (ua_pc a); done. }
  split; try done; rewrite ?Hf; try done. simpl.
  destruct (us_eventLoopStarted _); destruct pc, (ua_pc a); try done; naive_solver.
Qed.

Lemma inv_signal g s a a' : ui_inv g a → ui_step (InSignal s) a = Some a' → ui_inv g a'.
Proof.
  intros [H1 H2 H3 H4 H5 H6]. simpl. destruct (ua_handing a) eqn:Eh; [done|].
  pose proof (accepted_snoc g (ua_signals a) s) as Hs.
  pose proof (accepted_ok (tracker_new g) (omap event_of_signal (ua_signals a))) as [_ Hg].
  destruct (accepted_events (tracker_new g) (omap event_of_signal (ua_signals a))) as [l tk] eqn:Ea.
  simpl in H2, H3, Hg. unfold on_signal, receive_event. rewrite H2.
  assert (∀ c o tk', cl_tracker c = Some tk' → cl_generation c = g →
    accepted_events (tracker_new g) (omap event_of_signal (ua_signals a ++ [s])) = (l ++ option_list o, tk') →
    Forall (event_ok g) (option_list o) →
    ui_inv g (mkUiAgent c o (ua_startup a) (ua_posted a) (ua_runtime a) (ua_pc a) (ua_signals a ++ [s])
                (ua_shown a) (ua_calls a))) as Hnew.
  { intros c o tk' Hc1 Hc2 Hacc Ho.
    assert (ua_shown a ++ in_flight (mkUiAgent c o (ua_startup a) (ua_posted a) (ua_runtime a) (ua_pc a)
        (ua_signals a ++ [s]) (ua_shown a) (ua_calls a)) = (ua_shown a ++ in_flight a) ++ option_list o) as Hf.
    { unfold in_flight. rewrite Eh. simpl. rewrite app_nil_r. by rewrite !app_assoc. }
    split; simpl; rewrite ?Hacc; try done.
    - rewrite Hf. simpl. intros Hov. by rewrite <- H3.
    - rewrite Hf. by apply Forall_app. }
  destruct (event_of_signal s) as [e|] eqn:Ee.
  - destruct (accept tk e) as [b tk'] eqn:Et. intros [= <-]. apply (Hnew _ _ tk'); simpl; try done.
    + rewrite Hs. by destruct b.
    + destruct b; [|done]. constructor; [|done]. apply accept_ok in Et. by rewrite Hg in Et.
  - intros [= <-]. apply (Hnew _ None tk); simpl; try done. by rewrite Hs, app_nil_r.
Qed.

Lemma inv_hand_over g a a' : ui_inv g a → ui_step InHandOver a = Some a' → ui_inv g a'.
Proof.
  intros [H1 H2 H3 H4 H5 H6]. simpl. destruct (ua_handing a) as [e|] eqn:Eh; [|done].
  unfold handle_event. unfold in_flight in H3, H4. rewrite Eh in H3, H4. simpl in H3, H4.
  destruct (us_eventLoopStarted (ua_startup a)) eqn:Es; simpl.
  - intros [= <-]. destruct H5 as (Hev & Hov & Hpc). rewrite Hev in H3, H4. simpl in H3, H4.
    split; simpl; try done; unfold in_flight; simpl; rewrite ?Hev, ?app_nil_r; try done. by rewrite Es.
  - destruct H5 as (Hpo & Hsh & Hpc). rewrite Hpo in *.
    assert (match ua_pc a with ui_starting l => l | _ => [] end = []) as Hst by (by destruct Hpc as [-> | ->]).
    rewrite Hst in H3, H4. simpl in H3, H4.
    assert (Forall (event_ok g) (ua_shown a ++ us_events (ua_startup a))) as H4'.
    { rewrite app_assoc in H4. by apply Forall_app in H4 as [? _]. }
    destruct (_ =? _); simpl; intros [= <-]; split; simpl; try done;
      unfold in_flight; simpl; rewrite ?Hst, ?app_nil_r; simpl; done.
Qed.

Lemma inv_main g a a' : ui_inv g a → ui_step InMain a = Some a' → ui_inv g a'.
Proof.
  intros Hi. pose proof Hi as [H1 H2 H3 H4 H5 H6]. simpl. unfold main_step, in_flight in *.
  destruct (ua_pc a) as [|[|e l]| |what|] eqn:Ep; try done.
  - destruct (us_overflowed (ua_startup a)) eqn:Eo.
    + intros [= <-]. split; simpl; rewrite ?Eo; try done. destruct (us_eventLoopStarted _); [naive_solver|].
      destruct H5 as (? & ? & _). by auto.
    + destruct (us_events (ua_startup a)) as [|e l] eqn:Ee; [done|]. intros [= <-].
      split; simpl; try done; unfold in_flight; simpl; naive_solver.
  - intros [= <-]. split; simpl; try done. destruct (us_eventLoopStarted _); naive_solver.
  - intros [= <-]. split; simpl; try done; unfold in_flight; simpl.
    + intros Ho. rewrite <- app_assoc. by apply H3.
    + by rewrite <- app_assoc.
    + destruct (us_eventLoopStarted _); naive_solver.
    + apply display_show.
  - destruct (ua_posted a) as [|e l] eqn:Epo; [done|]. intros [= <-].
    destruct (us_eventLoopStarted (ua_startup a)) eqn:Es; [|naive_solver]. destruct H5 as (Hev & Ho & _).
    rewrite Hev in *. simpl in *.
    split; simpl; try done; unfold in_flight; simpl; rewrite ?Ep, ?Hev; simpl; try done.
    + intros _. rewrite <- app_assoc. by apply H3.
    + by rewrite <- app_assoc.
    + by rewrite Es.
    + apply display_show.
Qed.

Lemma ui_inv_finish g what r ok calls a :
  ui_inv g a → ua_pc a = ui_running → display_ok (ua_shown a) (ok (ua_runtime a)) →
  ui_inv g (finish_callback what r ok calls a).
Proof.
  intros Hi Hp Hd. destruct r; simpl; [by apply inv_runtime|].
  apply inv_pc; simpl; [|by rewrite Hp|done]. apply inv_runtime; [done|apply Hi].
Qed.

Lemma same_display_refl w : same_display w w.
Proof. done. Qed.

Lemma display_window f shown rt :
  (∀ w, same_display w (f w)) → display_ok shown rt → display_ok shown (on_window f rt).
Proof. intros Hf Hd. eapply display_keeps; [done| |done|by left|by left]. apply Hf. Qed.

Lemma inv_user g i a : ui_inv g a → ua_pc a = ui_running → ui_inv g (user_step i a).
Proof.
  intros Hi Hp. pose proof (ui_display _ _ Hi) as Hd. destruct i; simpl; try done.
  - unfold on_respond_presence. destruct (client_respond_to_presence _ _ _ _ _) as [r calls].
    apply ui_inv_finish; [done|done|]. by apply display_window.
  - unfold on_cancel_interaction. destruct (client_cancel _ _ _ _) as [[[]|e] calls]; apply inv_runtime; try done;
      [by apply display_window|apply display_report].
  - unfold on_submit_secret. destruct (if _ <? _ then _ else _) as [r calls].
    apply ui_inv_finish; [apply inv_runtime; [done|by apply display_window]|done|].
    eapply display_keeps; [exact Hd|done|done|by right|by left].
  - apply inv_runtime; [done|]. by apply display_window.
  - unfold on_close_requested. destruct (negb _); apply inv_runtime; try done; apply display_window; try done.
    by apply display_closed.
Qed.

Lemma ui_step_inv g i a a' : ui_inv g a → ui_step i a = Some a' → ui_inv g a'.
Proof.
  intros Hi. destruct i; [by apply inv_signal|by apply inv_hand_over|by apply inv_main|..];
    cbn [ui_step]; destruct (ua_pc a) eqn:Ep; try done;
    try (destruct (offers _ _); [|done]; intros <-%(inj Some); by apply inv_user).
  - destruct (rt_terminalTimer (ua_runtime a)) as [[d r]|] eqn:Et; [|done]. intros [= <-].
    apply inv_runtime; [done|]. unfold terminal_timeout.
    eapply display_keeps; [apply Hi| |done|by left|by right]. simpl. by destruct (_ =? _).
  - destruct (cancel_and_report _ _ _ _ _) as [rt calls] eqn:Ec. intros [= <-].
    injection Ec as <- _. apply inv_pc; simpl; [|by rewrite Ep|done].
    apply inv_runtime; [done|]. apply display_report.
Qed.

(** An overflow stays; without one all is kept. *)
Lemma startup_handled l st :
  us_eventLoopStarted st = false →
  let st' := foldl handle_early st l in
  us_eventLoopStarted st' = false ∧ (us_overflowed st' = false → us_events st' = us_events st ++ l) ∧
  (us_overflowed st = true → us_overflowed st' = true) ∧ us_events st' ⊆ us_events st ++ l.
Proof.
  cbn zeta. revert st. induction l as [|e l IH]; intros st Hs; [simpl; by rewrite app_nil_r|].
  assert (handle_early st e = if len (us_events st) =? MAX_STARTUP_EVENTS
    then mkStartup (us_events st) false true
    else mkStartup (us_events st ++ [e]) false (us_overflowed st)) as He.
  { unfold handle_early, handle_event. rewrite Hs. cbn [negb]. by destruct (_ =? _). }
  cbn [foldl]. rewrite He. destruct (_ =? _).
  - destruct (IH (mkStartup (us_events st) false true) eq_refl) as (H1 & H2 & H3 & H4).
    specialize (H3 eq_refl). split_and!; [done|by rewrite H3|done|].
    intros x [Hx|Hx]%H4%elem_of_app; apply elem_of_app; [by left|right; by constructor].
  - destruct (IH (mkStartup (us_events st ++ [e]) false (us_overflowed st)) eq_refl) as (H1 & H2 & H3 & H4).
    cbn [us_events us_overflowed] in H2, H3, H4. rewrite <- app_assoc in H2, H4. done.
Qed.

Lemma initial_inv early registered a :
  ui_agent_initial early registered = Ret a → ∃ g, registered = Ret g ∧ g ≠ 0 ∧ ui_inv g a.
Proof.
  unfold ui_agent_initial. pose proof (client_new_spec early registered) as Hn.
  destruct (AgentClient_new early registered) as [[handled c]|e]; [|done].
  destruct Hn as (g & -> & Hg & Hc & tk & Ht & Ha). cbn [mbind res_bind]. intros [= <-].
  destruct (startup_handled handled startup_initial eq_refl) as (H1 & H2 & _ & H4). simpl in H2, H4.
  pose proof (accepted_ok (tracker_new g) (omap event_of_signal early)) as [Hok _]. rewrite Ha in Hok. simpl in Hok.
  exists g. split_and!; try done. split; simpl; rewrite ?Ha; try done.
  - intros Ho. unfold in_flight. simpl. rewrite app_nil_r. symmetry. by apply H2.
  - unfold in_flight. simpl. rewrite app_nil_r. apply Forall_forall. intros e He%H4.
    by eapply Forall_forall in Hok.
  - rewrite H1. by auto.
Qed.

Lemma ui_run_inv g inputs a a' : ui_inv g a → ui_run inputs a = Some a' → ui_inv g a'.
Proof.
  revert a. induction inputs as [|i inputs IH]; intros a Hi E; simpl in E; [by injection E as <-|].
  destruct (ui_step i a) as [a1|] eqn:Es; [|done]. by eapply IH, E; eapply ui_step_inv.
Qed.

(** ** Answers *)

(** What a call answers: the event on display. *)
Definition answers (e : InteractionEvent) (w : AppWindow) (i : ui_input) (call : daemon_call) : Prop :=
  match call with
  | CallRespond g id approved => g = ev_generation e ∧ id = ev_requestId e ∧ ev_state e = presence_required ∧
      ∃ answer what, i = InApprove approved answer what
  | CallSubmit g id prompt pipe => g = ev_generation e ∧ id = ev_requestId e ∧ ev_state e = secret_required ∧
      prompt = ev_promptId e ∧ prompt ≠ 0 ∧ pipe = c_string (aw_secret_text w)
  | CallCancel g id => g = ev_generation e ∧ id = ev_requestId e ∧ client_is_terminal (ev_state e) = false
  end.

Definition answered (i : ui_input) (a : UiAgent) (calls' : list daemon_call) : Prop :=
  calls' = ua_calls a ∨
  ∃ call e, calls' = ua_calls a ++ [call] ∧ last (ua_shown a) = Some e ∧
    displays e (rt_ui (ua_runtime a)) ∧ client_is_active (ua_client a) (ev_requestId e) = true ∧
    answers e (rt_ui (ua_runtime a)) i call.

Lemma view_presence_state e w :
  displays e w → aw_view w = lit "presence" → ev_state e = presence_required.
Proof. intros (Hv & _) E. rewrite E in Hv. unfold ui_apply in Hv. by destruct (ev_state e). Qed.

Lemma view_secret_state e w :
  displays e w → aw_view w = lit "secret" → ev_state e = secret_required.
Proof. intros (Hv & _) E. rewrite E in Hv. unfold ui_apply in Hv. by destruct (ev_state e). Qed.

(** The active request is on display, under the agent's generation. *)
Lemma active_displayed g a :
  ui_inv g a → rt_activeRequestId (ua_runtime a) ≠ 0 →
  ∃ e, last (ua_shown a) = Some e ∧ displays e (rt_ui (ua_runtime a)) ∧
    client_is_terminal (ev_state e) = false ∧ ev_generation e = g ∧
    rt_activeRequestId (ua_runtime a) = ev_requestId e ∧
    (rt_activePromptId (ua_runtime a) = 0 ∨ rt_activePromptId (ua_runtime a) = ev_promptId e).
Proof.
  intros Hi Hne. destruct (do_active _ _ (ui_display _ _ Hi) Hne) as (e & H1 & H2 & H3 & H4 & H5).
  exists e. split_and!; try done. pose proof (ui_events _ _ Hi) as Hev. apply Forall_app in Hev as [Hev _].
  apply last_Some_elem_of in H1. by eapply Forall_forall in Hev as [? _].
Qed.

(** A call that was made for the active request, whose arguments are right. *)
Lemma called_answered g i a call calls' :
  ui_inv g a → called (ua_client a) (rt_activeRequestId (ua_runtime a)) call (ua_calls a) calls' →
  (∀ e, displays e (rt_ui (ua_runtime a)) → client_is_terminal (ev_state e) = false → ev_generation e = g →
     rt_activeRequestId (ua_runtime a) = ev_requestId e →
     (rt_activePromptId (ua_runtime a) = 0 ∨ rt_activePromptId (ua_runtime a) = ev_promptId e) →
     answers e (rt_ui (ua_runtime a)) i call) →
  answered i a calls'.
Proof.
  intros Hi [-> |(-> & Hne & Ha)] Hans; [by left|right].
  destruct (active_displayed g a Hi Hne) as (e & H1 & H2 & H3 & H4 & H5 & H6).
  exists call, e. split_and!; try done; [by rewrite <- H5|]. by apply Hans.
Qed.

Lemma cancel_answered g i a calls' :
  ui_inv g a →
  called (ua_client a) (rt_activeRequestId (ua_runtime a))
    (CallCancel (cl_generation (ua_client a)) (rt_activeRequestId (ua_runtime a))) (ua_calls a) calls' →
  answered i a calls'.
Proof.
  intros Hi Hc. pose proof (ui_generation _ _ Hi). eapply called_answered; [done|exact Hc|].
  intros e Hd Ht He Hid _. split_and!; [congruence|done|done].
Qed.

Lemma user_calls g i a :
  ui_inv g a → offers (rt_ui (ua_runtime a)) i = true → answered i a (ua_calls (user_step i a)).
Proof.
  intros Hi Ho. pose proof (ui_generation _ _ Hi) as Hg. unfold offers in Ho. apply andb_true_iff in Ho as [_ Ho].
  destruct i as [s| | |approved answer what|answer what|enter inp what|text|answer| |answer]; simpl; try (by left).
  - unfold on_respond_presence. pose proof (active_call_spec (ua_client a) (rt_activeRequestId (ua_runtime a))
      (CallRespond (cl_generation (ua_client a)) (rt_activeRequestId (ua_runtime a)) approved) answer (ua_calls a)) as Hc.
    unfold wp in Hc. fold (client_respond_to_presence (ua_client a) (rt_activeRequestId (ua_runtime a)) approved answer) in Hc.
    destruct (client_respond_to_presence _ _ _ _ _) as [r calls]. cbn [snd] in Hc.
    replace (ua_calls _) with calls by (by destruct r).
    apply andb_true_iff in Ho as [Hv%bool_decide_eq_true _].
    eapply called_answered; [done|exact Hc|]. intros e Hd _ He Hid _. split_and!; [congruence|done| |by eauto].
    by eapply view_presence_state.
  - unfold on_cancel_interaction. pose proof (active_call_spec (ua_client a) (rt_activeRequestId (ua_runtime a))
      (CallCancel (cl_generation (ua_client a)) (rt_activeRequestId (ua_runtime a))) answer (ua_calls a)) as Hc.
    unfold wp in Hc. fold (client_cancel (ua_client a) (rt_activeRequestId (ua_runtime a)) answer) in Hc.
    destruct (client_cancel _ _ _ _) as [r calls]. cbn [snd] in Hc.
    replace (ua_calls _) with calls by (by destruct r). by eapply cancel_answered.
  - apply andb_true_iff in Ho as [Hv%bool_decide_eq_true _]. unfold on_submit_secret.
    cbn [on_window rt_activeRequestId rt_activePromptId rt_ui].
    destruct (MAX_SECRET_SIZE <? _); [by left|].
    pose proof (submit_secret_calls (ua_client a) (rt_activeRequestId (ua_runtime a)) (rt_activePromptId (ua_runtime a))
      (c_string (aw_secret_text (rt_ui (ua_runtime a)))) (si_opened inp) (si_writes inp) (si_answer inp) (ua_calls a)) as Hc.
    unfold wp in Hc. destruct (client_submit_secret _ _ _ _ _ _ _ _) as [r calls]. cbn [fst snd] in Hc.
    replace (ua_calls _) with calls by (by destruct r).
    destruct Hc as [[-> _]|(-> & _ & Ha & Hne & Hp & _)]; [by left|].
    eapply called_answered; [done|by right|]. intros e Hd _ He Hid Hpr.
    split_and!; [congruence|done|by eapply view_secret_state|by destruct Hpr|done|done].
  - unfold on_close_requested. destruct (negb _); [|by left]. eapply cancel_answered, try_cancel_spec; done.
Qed.

Lemma step_answers g i a a' : ui_inv g a → ui_step i a = Some a' → answered i a (ua_calls a').
Proof.
  intros Hi. destruct i as [s| | |approved answer what|answer what|enter inp what|text|answer| |answer];
    cbn [ui_step]; try (destruct (ua_pc a); try done; destruct (offers _ _) eqn:Ho; [|done];
      intros <-%(inj Some); by eapply user_calls).
  - destruct (ua_handing a); [done|]. destruct (on_signal s (ua_client a)). intros [= <-]. by left.
  - destruct (ua_handing a); [|done]. destruct (handle_event _ _ _). intros [= <-]. by left.
  - unfold main_step. destruct (ua_pc a) as [|[|]| | |]; try done.
    + destruct (us_overflowed _); [intros [= <-]; by left|]. destruct (us_events _); [done|]. intros [= <-]. by left.
    + intros [= <-]. by left.
    + intros [= <-]. by left.
    + destruct (ua_posted a); [done|]. intros [= <-]. by left.
  - destruct (ua_pc a); try done. destruct (rt_terminalTimer _) as [[]|]; [|done]. intros [= <-]. by left.
  - destruct (ua_pc a); try done. unfold cancel_and_report. intros [= <-]. simpl.
    destruct (negb _); [|by left]. eapply cancel_answered, try_cancel_spec; done.
Qed.

(** The window goes away only when it is closed or when nothing is asked. *)
Lemma step_hides g i a a' :
  ui_inv g a → ui_step i a = Some a' → aw_visible (rt_ui (ua_runtime a)) = true →
  aw_visible (rt_ui (ua_runtime a')) = false →
  (∃ answer, i = InClose answer) ∨ rt_activeRequestId (ua_runtime a) = 0.
Proof.
  intros Hi Hs Hv Hv'. destruct i as [s| | |approved answer what|answer what|enter inp what|text|answer| |answer];
    cbn [ui_step] in Hs; try (destruct (ua_pc a); try done; destruct (offers _ _); [|done]; apply (inj Some) in Hs as <-).
  - destruct (ua_handing a); [done|]. destruct (on_signal s (ua_client a)). injection Hs as <-. simpl in Hv'. congruence.
  - destruct (ua_handing a); [|done]. destruct (handle_event _ _ _). injection Hs as <-. simpl in Hv'. congruence.
  - unfold main_step in Hs. destruct (ua_pc a) as [|[|]| | |]; try done.
    + destruct (us_overflowed _); [|destruct (us_events _); [done|]]; injection Hs as <-; simpl in Hv'; congruence.
    + injection Hs as <-. simpl in Hv'. congruence.
    + by injection Hs as <-.
    + destruct (ua_posted a); [done|]. by injection Hs as <-.
  - simpl in Hv'. unfold on_respond_presence in Hv'. destruct (client_respond_to_presence _ _ _ _ _) as [[] ?];
      simpl in Hv'; congruence.
  - simpl in Hv'. unfold on_cancel_interaction in Hv'. destruct (client_cancel _ _ _ _) as [[] ?]; simpl in Hv'; congruence.
  - simpl in Hv'. unfold on_submit_secret in Hv'. destruct (if _ <? _ then _ else _) as [[] ?]; simpl in Hv'; congruence.
  - simpl in Hv'. congruence.
  - left. by eexists.
  - destruct (ua_pc a); try done. destruct (rt_terminalTimer _) as [[d r]|] eqn:Et; [|done].
    right. by destruct (do_timer _ _ (ui_display _ _ Hi) d r Et).
  - destruct (ua_pc a); try done. injection Hs as <-. simpl in Hv'. congruence.
Qed.

(** Nothing stays in flight without a next action, unless the main thread is busy in a
    [catch] clause or has ended. *)
Lemma in_flight_moves g a :
  ui_inv g a → in_flight a ≠ [] → ua_pc a ≠ ui_ended → (∀ what, ua_pc a ≠ ui_catching what) →
  is_Some (ui_step InMain a) ∨ is_Some (ui_step InHandOver a).
Proof.
  intros Hi Hf He Hc. pose proof (ui_started _ _ Hi) as Hst. unfold in_flight in Hf. cbn [ui_step].
  destruct (ua_handing a) as [e|]; [right; destruct (handle_event _ _ _); by eauto|left].
  unfold main_step. destruct (ua_pc a) as [|[|]| |what|]; try done; try (by eauto).
  - destruct (us_overflowed _); [eauto|]. destruct (us_events (ua_startup a)) eqn:Ee; [|eauto].
    destruct (us_eventLoopStarted _); [naive_solver|]. destruct Hst as (Hp & _). by rewrite Hp in Hf.
  - destruct (us_eventLoopStarted _); [|naive_solver]. destruct Hst as (Hev & _). rewrite Hev in Hf.
    destruct (ua_posted a); [done|eauto].
  - by destruct (Hc what).
Qed.

(** ** Together with the daemon *)

(** The events that the daemon publishes in a history, oldest first. *)
Definition published_in (g : Z) (h : list event) : list InteractionEvent :=
  omap (λ x, published g x.1 x.2) (reverse h).

(** What the model of the daemon's registry keeps of an event. *)
Definition registry_part (e : InteractionEvent) : InteractionEvent :=
  mkEvent (ev_generation e) (ev_requestId e) (ev_promptId e) (ev_state e) [] [] (ev_message e).

Lemma accepted_registry_part tk l :
  accepted_events tk (registry_part <$> l) =
  let '(a, tk') := accepted_events tk l in (registry_part <$> a, tk').
Proof.
  revert tk. induction l as [|e l IH]; intros tk; [done|]. cbn.
  change (accept tk (registry_part e)) with (accept tk e). destruct (accept tk e) as [b tk1].
  rewrite IH. destruct (accepted_events tk1 l) as [a tk2]. by destruct b.
Qed.

Lemma accepted_sub tk l : sublist (accepted_events tk l).1 l.
Proof.
  revert tk. induction l as [|e l IH]; intros tk; cbn; [constructor|]. destruct (accept tk e) as [b tk1].
  specialize (IH tk1). destruct (accepted_events tk1 l) as [a tk2]. by destruct b; constructor.
Qed.

Lemma sublist_length_eq {A} (l k : list A) : sublist l k → length l = length k → l = k.
Proof.
  induction 1 as [|x l k Hs IH|x l k Hs IH]; intros Hl; [done|f_equal; apply IH; by injection Hl|].
  apply sublist_length in Hs. simpl in Hl. lia.
Qed.

Lemma dialogue_accepted g h reg tk :
  dialogue g h reg tk → accepted_events (tracker_new g) (published_in g h) = (published_in g h, tk).
Proof.
  unfold published_in. induction 1 as [|h reg tk o out reg' Hd IH E Hk Hp|h reg tk o out reg' e Hd IH E Hp]; [done| |];
    rewrite reverse_cons, omap_app; cbn; rewrite Hp; [by rewrite app_nil_r|].
  destruct (dialogue_in_step _ _ _ _ Hd) as [Hi Hg]. apply dialogue_execution, execution_ok in Hd.
  destruct (published_accepted g h reg tk o out reg' e Hd Hi Hg E Hp) as (tk' & Ha & _).
  rewrite accepted_app, IH. cbn. by rewrite Ha.
Qed.

(** ** Properties *)

(** C22: What the user answers is what the user sees.  Whatever the D-Bus thread does in the
    meantime, a step of the agent makes at most one call to the daemon, and the call answers
    the event on display: an approval or denial is made from the presence dialogue of that
    very request, a secret is the text typed into the dialogue of that very prompt, a
    cancellation is for the request shown, and each carries the generation of the agent and
    is for the request the daemon last announced.  The window is never taken away by a timer
    while it asks for something. *)
Theorem agent_answers_what_it_shows early registered a0 inputs a i a' :
  ui_agent_initial early registered = Ret a0 → ui_run inputs a0 = Some a → ui_step i a = Some a' →
  (ua_calls a' = ua_calls a ∨
   ∃ call e, ua_calls a' = ua_calls a ++ [call] ∧ last (ua_shown a) = Some e ∧
     displays e (rt_ui (ua_runtime a)) ∧ client_is_active (ua_client a) (ev_requestId e) = true ∧
     registered = Ret (ev_generation e) ∧ answers e (rt_ui (ua_runtime a)) i call) ∧
  (aw_visible (rt_ui (ua_runtime a)) = true → aw_visible (rt_ui (ua_runtime a')) = false →
   (∃ answer, i = InClose answer) ∨ rt_activeRequestId (ua_runtime a) = 0).
Proof.
  intros H0 Hrun Hs. destruct (initial_inv _ _ _ H0) as (g & Hr & _ & Hi0).
  pose proof (ui_run_inv _ _ _ _ Hi0 Hrun) as Hi. split; [|by eapply step_hides].
  destruct (step_answers _ _ _ _ Hi Hs) as [?|(call & e & H1 & H2 & H3 & H4 & H5)]; [by left|right].
  exists call, e. split_and!; try done. rewrite Hr. f_equal. symmetry.
  pose proof (ui_events _ _ Hi) as Hev. apply Forall_app in Hev as [Hev _].
  apply last_Some_elem_of in H2. by eapply Forall_forall in Hev as [? _].
Qed.

(** The window shows every event of the daemon, in order.  In every interleaving of the
    two threads, the events shown so far, followed by those on their way -- in the start-up
    queue, in the toolkit's queue and with the D-Bus thread -- are exactly the events that the
    agent's tracker accepts of all signals since before the registration, and an event on its
    way always has a next step.  Only when more than 32 events arrive before the first one is
    shown is one dropped, and then the agent shows nothing and ends. *)
Theorem agent_shows_every_event early registered a0 inputs a :
  ui_agent_initial early registered = Ret a0 → ui_run inputs a0 = Some a →
  ∃ g, registered = Ret g ∧
    (us_overflowed (ua_startup a) = false →
     ∃ tk, accepted_events (tracker_new g) (omap event_of_signal (ua_signals a)) = (ua_shown a ++ in_flight a, tk) ∧
       cl_tracker (ua_client a) = Some tk) ∧
    (us_overflowed (ua_startup a) = true → ua_shown a = [] ∧ (ua_pc a = ui_waiting ∨ ua_pc a = ui_ended)) ∧
    (in_flight a ≠ [] → ua_pc a ≠ ui_ended → (∀ what, ua_pc a ≠ ui_catching what) →
     is_Some (ui_step InMain a) ∨ is_Some (ui_step InHandOver a)).
Proof.
  intros H0 Hrun. destruct (initial_inv _ _ _ H0) as (g & Hr & _ & Hi0).
  pose proof (ui_run_inv _ _ _ _ Hi0 Hrun) as Hi. exists g. split_and!; [done| | |by eapply in_flight_moves].
  - intros Ho. eexists. split; [|apply Hi]. rewrite <- (ui_pipeline _ _ Hi Ho). apply surjective_pairing.
  - intros Ho. pose proof (ui_started _ _ Hi) as Hst. destruct (us_eventLoopStarted _).
    + destruct Hst as (_ & Hn & _). congruence.
    + by destruct Hst as (_ & ? & ?).
Qed.

(** C23: The agent shows what the daemon publishes.  When the agent's signals are those of a
    run of the daemon's registry that drops no announced interaction silently, and its queue
    for events before the window is ready has not overflowed, none of them is refused: the events shown, followed by those on their way, are all that was
    published, and the agent's tracker is active on exactly the request that is pending in
    the daemon, with the same outstanding prompt. *)
Theorem agent_in_step_with_daemon early g a0 inputs a h reg tk :
  ui_agent_initial early (Ret g) = Ret a0 → ui_run inputs a0 = Some a →
  us_overflowed (ua_startup a) = false → dialogue g h reg tk →
  registry_part <$> omap event_of_signal (ua_signals a) = published_in g h →
  ua_shown a ++ in_flight a = omap event_of_signal (ua_signals a) ∧
  cl_tracker (ua_client a) = Some tk ∧ in_step reg tk.
Proof.
  intros H0 Hrun Ho Hd Hs. destruct (initial_inv _ _ _ H0) as (g' & [= <-] & _ & Hi0).
  pose proof (ui_run_inv _ _ _ _ Hi0 Hrun) as Hi. pose proof (dialogue_accepted _ _ _ _ Hd) as Ha.
  pose proof (ui_pipeline _ _ Hi Ho) as Hp. pose proof (ui_tracker _ _ Hi) as Ht.
  pose proof (accepted_sub (tracker_new g) (omap event_of_signal (ua_signals a))) as Hsub.
  rewrite <- Hs, accepted_registry_part in Ha.
  destruct (accepted_events _ _) as [l tk'] eqn:E. injection Ha as Hl ->. cbn [fst snd] in *.
  split_and!; [|done|by destruct (dialogue_in_step _ _ _ _ Hd)]. rewrite <- Hp.
  apply sublist_length_eq; [done|]. by rewrite <- (length_fmap registry_part l), Hl, length_fmap.
Qed.

(** A verification of request 7 that asks for a secret, with the prompt 3. *)
Definition example_signal (prompt : Z) (state : UserInteractionState) : Signal :=
  mkSignal (lit ":1.5") 1 7 prompt (user_interaction_state_name state) (lit "get_assertion") (lit "example.org")
    (lit "Password:").

Definition example_submission : SubmitInput := mkSubmitInput true [wrote 4] (Ret ()).

(** The first signal arrives during the registration; the user types and presses Enter. *)
Definition example_answered : list ui_input :=
  [InMain; InSignal (example_signal 3 secret_required); InMain; InHandOver; InMain; InMain;
   InType (lit "pass"); InSubmit true example_submission []].

Definition example_ui (inputs : list ui_input) : option UiAgent :=
  match ui_agent_initial [example_signal 0 verification_started] (Ret 1) with
  | Ret a => ui_run inputs a
  | Throw _ => None
  end.

Lemma example_ui_run inputs a :
  example_ui inputs = Some a →
  ∃ a0, ui_agent_initial [example_signal 0 verification_started] (Ret 1) = Ret a0 ∧ ui_run inputs a0 = Some a.
Proof. unfold example_ui. destruct (ui_agent_initial _ _) as [a0|e]; [|done]. by exists a0. Qed.

Lemma agent_answers_what_it_shows_witness :
  ∃ a a', example_ui (take 7 example_answered) = Some a ∧
    ui_step (InSubmit true example_submission []) a = Some a' ∧
    ∃ call e, ua_calls a' = ua_calls a ++ [call] ∧ last (ua_shown a) = Some e ∧ ev_state e = secret_required.
Proof.
  destruct (example_ui (take 7 example_answered)) as [a|] eqn:E; [|vm_compute in E; discriminate].
  destruct (ui_step (InSubmit true example_submission []) a) as [a'|] eqn:Es.
  - exists a, a'. split; [reflexivity|]. split; [exact Es|].
    destruct (example_ui_run _ _ E) as (a0 & H0 & Hr).
    destruct (agent_answers_what_it_shows _ _ _ _ _ _ _ H0 Hr Es) as [[Hn|(call & e & H1 & H2 & _ & _ & _ & Ha)] _].
    + vm_compute in E. injection E as <-. vm_compute in Es. injection Es as <-. discriminate Hn.
    + exists call, e. split; [exact H1|]. split; [exact H2|].
      vm_compute in E. injection E as <-. injection H2 as <-. reflexivity.
  - vm_compute in E. injection E as <-. vm_compute in Es. discriminate.
Defined.

Lemma agent_shows_every_event_witness :
  ∃ a, example_ui example_answered = Some a ∧
    (accepted_events (tracker_new 1) (omap event_of_signal (ua_signals a))).1 = ua_shown a ∧
    length (ua_shown a) = 2%nat.
Proof.
  destruct (example_ui example_answered) as [a|] eqn:E; [|vm_compute in E; discriminate].
  exists a. split; [reflexivity|]. destruct (example_ui_run _ _ E) as (a0 & H0 & Hr).
  destruct (agent_shows_every_event _ _ _ _ _ H0 Hr) as (g & Hg & Hp & _). injection Hg as <-.
  assert (us_overflowed (ua_startup a) = false ∧ in_flight a = [] ∧ length (ua_shown a) = 2%nat) as (Ho & Hf & Hl).
  { vm_compute in E. injection E as <-. split; [reflexivity|]. split; reflexivity. }
  destruct (Hp Ho) as (tk & Ha & _). rewrite Ha, Hf, app_nil_r. split; [reflexivity|exact Hl].
Defined.

(** Once a secret was sent, the prompt is forgotten, and what the text field submits next is
    refused before any call. *)
Lemma submit_sent i what a :
  ua_pc (on_submit_secret i what a) = ui_running → ua_pc a = ui_running →
  let rt := ua_runtime a in
  let text := c_string (aw_secret_text (rt_ui rt)) in
  client_is_active (ua_client a) (rt_activeRequestId rt) = true ∧ rt_activeRequestId rt ≠ 0 ∧
  on_submit_secret i what a =
    with_runtime (on_window (set_interaction_active false) (mkRuntime (set_secret_text [] (rt_ui rt))
      (rt_terminalTimer rt) (rt_renderTimer rt) (rt_activeRequestId rt) 0 (rt_presentationRevision rt)))
      (ua_calls a ++ [CallSubmit (cl_generation (ua_client a)) (rt_activeRequestId rt)
         (rt_activePromptId rt) text]) a.
Proof.
  unfold on_submit_secret. cbv zeta. cbn [on_window rt_activeRequestId rt_activePromptId].
  destruct (MAX_SECRET_SIZE <? _); [by simpl|].
  pose proof (submit_secret_calls (ua_client a) (rt_activeRequestId (ua_runtime a))
    (rt_activePromptId (ua_runtime a)) (c_string (aw_secret_text (rt_ui (ua_runtime a)))) (si_opened i)
    (si_writes i) (si_answer i) (ua_calls a)) as Hw.
  unfold wp in Hw. destruct (client_submit_secret _ _ _ _ _ _ _ _) as [[[]|e] calls]; [|done].
  cbn [fst snd] in Hw. intros _ _. destruct Hw as [[_ ?]|(-> & _ & Hact & Hid & _)]; [done|].
  by split_and!.
Qed.

Lemma submit_forgotten i what a :
  rt_activePromptId (ua_runtime a) = 0 →
  on_submit_secret i what a =
    at_pc (ui_catching what) (with_runtime (on_window (set_secret_text []) (ua_runtime a)) (ua_calls a) a).
Proof.
  intros Hp. unfold on_submit_secret. cbv zeta. cbn [on_window rt_activeRequestId rt_activePromptId].
  rewrite Hp. destruct (MAX_SECRET_SIZE <? _); [done|].
  unfold client_submit_secret, st_bind, st_lift. destruct (require_active _ _); done.
Qed.

(** The request is the pending one of a registry built from it. *)
Ltac pending_found := lazymatch goal with
  Hpend : ∀ x r n q, _ → _ → _ ∧ _
  |- context [mkInteractions (Some ?x) ?r ?n ?q] =>
    first [rewrite (proj1 (Hpend x r n q eq_refl eq_refl)) | rewrite (proj2 (Hpend x r n q eq_refl eq_refl))]
end.

Lemma submit_then_cancel u id p s reg reg1 :
  submit_secret u id p s reg = (Ret (), reg1) →
  (∀ c, ir_current reg = Some c → pi_responseClosed c = false) →
  ∃ reg2, request_cancel u id reg1 = (Ret (), reg2) ∧ cancellation_requested u id reg2 = true ∧
    ∀ expired, (poll_secret u id p false expired reg2).1 = Some (mkSecretWait sw_client_cancelled []).
Proof.
  unfold submit_secret. intros E Hopen. destruct (pending_nonzero reg u id) as [c|] eqn:Ep; [|done].
  destruct (_ || pi_cancelRequested c) eqn:Eg; [done|]. injection E as <-. reflect_bools.
  apply pending_nonzero_Some in Ep as [Hnz Hp].
  pose proof Hp as (Hc & <- & Hu)%pending_request_Some. specialize (Hopen c Hc).
  assert (∀ x r n q, pi_requestId x = pi_requestId c → pi_user x = pi_user c →
    pending_nonzero (mkInteractions (Some x) r n q) u (pi_requestId c) = Some x ∧
    pending_request (mkInteractions (Some x) r n q) u (pi_requestId c) = Some x) as Hpend.
  { intros x r n q Ex Eu.
    assert (pending_request (mkInteractions (Some x) r n q) u (pi_requestId c) = Some x) as E.
    { unfold pending_request. simpl. rewrite Ex, Z.eqb_refl, Eu.
      by rewrite (proj2 (same_user_binding _ _) Hu). }
    split; [|done]. unfold pending_nonzero. by rewrite (proj2 (Z.eqb_neq _ _) Hnz). }
  eexists. split_and!.
  - unfold request_cancel. pending_found. simpl.
    match goal with Hs : pi_state c = Some _ |- _ => rewrite Hs end. by rewrite Hopen.
  - unfold cancellation_requested, set_current. simpl. by pending_found.
  - intros expired. unfold poll_secret, set_current. simpl.
    pending_found. simpl.
    rewrite (proj2 (Z.eqb_neq p 0)) by done. by rewrite (proj2 (Z.eqb_eq _ _)) by done.
Qed.

(** C34: Pressing Enter twice gives up the verification.  In every run of the agent: after a
    secret was sent, and whatever the text field holds then, the window still takes Enter;
    the second submission is refused by the agent itself, whose error handling makes one
    more call, the cancellation of that request.  And a daemon that has accepted the secret,
    and has not closed the request for answers, accepts this cancellation: a wait for the
    secret then reports that the client has cancelled instead of the secret. *)
Theorem second_enter_cancels early g a0 inputs a enter i what a1 :
  ui_agent_initial early (Ret g) = Ret a0 → ui_run inputs a0 = Some a →
  ui_step (InSubmit enter i what) a = Some a1 → ua_pc a1 = ui_running →
  ∃ id p s, ua_calls a1 = ua_calls a ++ [CallSubmit g id p s] ∧
    (∀ i2 what2 answer, ∃ a2 a3, ui_step (InSubmit true i2 what2) a1 = Some a2 ∧
       ui_step (InCatch answer) a2 = Some a3 ∧ ua_calls a3 = ua_calls a1 ++ [CallCancel g id]) ∧
    (∀ u reg reg1, submit_secret u id p s reg = (Ret (), reg1) →
       (∀ c, ir_current reg = Some c → pi_responseClosed c = false) →
       ∃ reg2, request_cancel u id reg1 = (Ret (), reg2) ∧ cancellation_requested u id reg2 = true ∧
         ∀ expired, (poll_secret u id p false expired reg2).1 = Some (mkSecretWait sw_client_cancelled [])).
Proof.
  intros H0 Hrun Hstep Hpc. destruct (initial_inv _ _ _ H0) as (g' & [= <-] & _ & Hi0).
  pose proof (ui_generation _ _ (ui_run_inv _ _ _ _ Hi0 Hrun)) as Hg.
  cbn [ui_step] in Hstep. destruct (ua_pc a) eqn:Ep; try done.
  destruct (offers _ _) eqn:Eo; [|done]. injection Hstep as <-. cbn [user_step] in *.
  destruct (submit_sent i what a Hpc Ep) as (Hact & Hid & E). rewrite E. rewrite Hg.
  eexists _, _, _. split; [done|]. split; [|intros u reg reg1; apply submit_then_cancel].
  intros i2 what2 answer. set (a1 := with_runtime _ _ _).
  assert (ui_step (InSubmit true i2 what2) a1 = Some (on_submit_secret i2 what2 a1)) as Es.
  { cbn [ui_step]. change (ua_pc a1) with (ua_pc a). rewrite Ep.
    unfold offers in Eo |- *. simpl in Eo |- *.
    apply andb_true_iff in Eo as [-> Eo]. apply andb_true_iff in Eo as [-> _]. done. }
  rewrite (submit_forgotten i2 what2 a1 eq_refl) in Es. eexists _, _. split; [exact Es|].
  cbn [ui_step at_pc ua_pc]. unfold cancel_and_report.
  assert (try_cancel (ua_client a) (rt_activeRequestId (ua_runtime a)) answer (ua_calls a1) =
    (Ret (), ua_calls a1 ++ [CallCancel g (rt_activeRequestId (ua_runtime a))])) as Ec.
  { unfold try_cancel, client_cancel, callMethod, st_catch, st_bind, st_lift, st_modify, require_active.
    rewrite (proj2 (Z.eqb_neq _ _) Hid), Hact, Hg. simpl. by destruct answer as [[]|]. }
  simpl. rewrite (proj2 (Z.eqb_neq _ _) Hid). cbn [negb]. split; [done|].
  change (ua_calls a1) with (ua_calls a ++ [CallSubmit g (rt_activeRequestId (ua_runtime a))
    (rt_activePromptId (ua_runtime a)) (c_string (aw_secret_text (rt_ui (ua_runtime a))))]) in Ec.
  by rewrite Ec.
Qed.

Lemma second_enter_cancels_witness :
  ∃ a a1 id p s, example_ui (take 7 example_answered) = Some a ∧
    ui_step (InSubmit true example_submission []) a = Some a1 ∧
    ua_calls a1 = ua_calls a ++ [CallSubmit 1 id p s] ∧
    ∃ a2 a3, ui_step (InSubmit true example_submission []) a1 = Some a2 ∧
      ui_step (InCatch (Ret ())) a2 = Some a3 ∧ ua_calls a3 = ua_calls a1 ++ [CallCancel 1 id].
Proof.
  destruct (example_ui (take 7 example_answered)) as [a|] eqn:E; [|vm_compute in E; discriminate].
  destruct (ui_step (InSubmit true example_submission []) a) as [a1|] eqn:Es.
  - destruct (example_ui_run _ _ E) as (a0 & H0 & Hr).
    assert (ua_pc a1 = ui_running) as Hp.
    { vm_compute in E. injection E as <-. vm_compute in Es. injection Es as <-. reflexivity. }
    destruct (second_enter_cancels _ _ _ _ _ _ _ _ _ H0 Hr Es Hp) as (id & p & s & H1 & H2 & _).
    exists a, a1, id, p, s. split; [reflexivity|]. split; [exact Es|]. split; [exact H1|]. apply H2.
  - vm_compute in E. injection E as <-. vm_compute in Es. discriminate.
Defined.

(** The daemon begins a verification and announces it, the agent shows it. *)
Definition example_first : Signal :=
  mkSignal (lit ":1.5") 1 1 0 (lit "verification_started") (lit "get_assertion") (lit "example.org") [].
Definition example_started : res UiAgent := ui_agent_initial [example_first] (Ret 1).
Definition example_ops : list registry_op :=
  [OpBegin example_user get_assertion []; OpTransition example_user 1 verification_started []].
Definition example_history : list event :=
  reverse (zip example_ops (fst <$> run_ops example_ops interactions_initial)).
Definition example_begun : InteractionRegistry :=
  (exec_op (OpBegin example_user get_assertion []) interactions_initial).2.
Definition example_announced : InteractionRegistry :=
  (exec_op (OpTransition example_user 1 verification_started []) example_begun).2.
Definition example_tracker : InteractionTracker := mkTracker 1 (Some 1) 0.

Lemma example_dialogue : dialogue 1 example_history example_announced example_tracker.
Proof.
  change example_tracker with (accept (tracker_new 1) (mkEvent 1 1 0 verification_started [] [] [])).2.
  eapply (dl_event _ _ example_begun); [eapply dl_quiet; [constructor|reflexivity|exact I|reflexivity]|reflexivity|reflexivity].
Qed.

Lemma agent_in_step_with_daemon_witness :
  ∃ a0 a, example_started = Ret a0 ∧ ui_run [InMain; InMain] a0 = Some a ∧
    cl_tracker (ua_client a) = Some example_tracker ∧ in_step example_announced example_tracker ∧
    ua_shown a = omap event_of_signal [example_first].
Proof.
  destruct example_started as [a0|e] eqn:E0; [|vm_compute in E0; discriminate].
  destruct (ui_run [InMain; InMain] a0) as [a|] eqn:Er.
  - assert (us_overflowed (ua_startup a) = false ∧ ua_signals a = [example_first] ∧ in_flight a = []) as (Ho & Hs & Hf).
    { vm_compute in E0. injection E0 as <-. vm_compute in Er. injection Er as <-. repeat split; reflexivity. }
    destruct (agent_in_step_with_daemon [example_first] 1 a0 [InMain; InMain] a example_history example_announced
      example_tracker E0 Er Ho example_dialogue) as (Hsh & Ht & Hi).
    + rewrite Hs. vm_compute. reflexivity.
    + exists a0, a. rewrite Hf, app_nil_r, Hs in Hsh. repeat split; [exact Er|exact Ht|exact Hi..|exact Hsh].
  - vm_compute in E0. injection E0 as <-. vm_compute in Er. discriminate.
Defined.
