(* ===== verification/StoreFiles.v ===== *)
(** * The store's file at the level of system calls (src/src/credentials/credential.cpp)

    CredentialStore.v takes reading and replacing the store file as one step each, with a
    fault before or after.  This file models the calls behind them -- the temporary file, its
    writes, the rename, the two syncs, the descriptors and their clean-up -- on a file system
    with a page cache, and shows that they implement those steps: on every path, whatever
    each call answers, and at every point where the machine may stop. *)
From Stdlib Require Import ZArith Lia.
From stdpp Require Import base list gmap strings.
From S2P Require Import Prelude CredentialStore CredentialStoreProofs.

(** ** The file system *)

(** A file: its contents in the cache, and whether they are on the disk. *)
Record Inode := mkInode { in_file : StoreFile; in_synced : bool }.

(** One directory: what each name refers to, now and in the states since the directory was
    last synced, the newest first; and whether the directory's own name is on the disk, which
    only a sync of its parent directory makes certain. *)
Record Disk := mkDisk {
  dk_inodes : gmap Z Inode;
  dk_now : gmap (list Z) Z;
  dk_since : list (gmap (list Z) Z);
  dk_durable : bool;
}.

Inductive descriptor := DirectoryFd | FileFd (inode : Z).

(** What one system call meets; a call after the last answer works. *)
Inductive answer := Works | Interrupted | Fails | Partial (count : Z).

(** The local variables of [atomic_write_file] that have destructors: the two descriptors,
    -1 when released, and the active temporary file. *)
Record Locals := mkLocals { lo_directory : Z; lo_output : Z; lo_temporary : option (list Z) }.

(** [fs_random]: what the random number generator delivers, [None] for a failure.  [fs_past]:
    the disk before each change, a record of the run. *)
Record Fs := mkFs {
  fs_disk : Disk;
  fs_dir : option DirStatus;
  fs_euid : Z;
  fs_fds : gmap Z descriptor;
  fs_next : Z;
  fs_locals : Locals;
  fs_answers : list answer;
  fs_random : list (option (list Z));
  fs_past : list Disk;
}.

Definition set_dir (d : option DirStatus) (f : Fs) : Fs :=
  mkFs (fs_disk f) d (fs_euid f) (fs_fds f) (fs_next f) (fs_locals f) (fs_answers f) (fs_random f) (fs_past f).
Definition set_disk_state (d : Disk) (f : Fs) : Fs :=
  mkFs d (fs_dir f) (fs_euid f) (fs_fds f) (fs_next f) (fs_locals f) (fs_answers f) (fs_random f)
    (fs_disk f :: fs_past f).
Definition set_fds (m : gmap Z descriptor) (f : Fs) : Fs :=
  mkFs (fs_disk f) (fs_dir f) (fs_euid f) m (fs_next f) (fs_locals f) (fs_answers f) (fs_random f) (fs_past f).
Definition set_next (n : Z) (f : Fs) : Fs :=
  mkFs (fs_disk f) (fs_dir f) (fs_euid f) (fs_fds f) n (fs_locals f) (fs_answers f) (fs_random f) (fs_past f).
Definition set_locals (l : Locals) (f : Fs) : Fs :=
  mkFs (fs_disk f) (fs_dir f) (fs_euid f) (fs_fds f) (fs_next f) l (fs_answers f) (fs_random f) (fs_past f).
Definition set_answers (l : list answer) (f : Fs) : Fs :=
  mkFs (fs_disk f) (fs_dir f) (fs_euid f) (fs_fds f) (fs_next f) (fs_locals f) l (fs_random f) (fs_past f).
Definition set_random (l : list (option (list Z))) (f : Fs) : Fs :=
  mkFs (fs_disk f) (fs_dir f) (fs_euid f) (fs_fds f) (fs_next f) (fs_locals f) (fs_answers f) l (fs_past f).

(** The changes of a directory. *)
Definition relink (m : gmap (list Z) Z) (d : Disk) : Disk :=
  mkDisk (dk_inodes d) m (dk_now d :: dk_since d) (dk_durable d).

(** The directory was made just now. *)
Definition not_durable (d : Disk) : Disk := mkDisk (dk_inodes d) (dk_now d) (dk_since d) false.

(** The contents a name can have after a crash: any state of the directory since it was
    synced may be the one on the disk, and a file that was not synced may hold anything.  With
    a directory whose own name did not reach the disk, everything in it is gone. *)
Definition survives (d : Disk) (name : list Z) (contents : option (list Z)) : Prop :=
  dk_durable d = false ∧ contents = None ∨
  ∃ m, m ∈ dk_now d :: dk_since d ∧
    match m !! name with
    | None => contents = None
    | Some i => ∃ inode bytes, dk_inodes d !! i = Some inode ∧ contents = Some bytes ∧
        (in_synced inode = true → bytes = f_contents (in_file inode))
    end.

(** ** System calls *)

Definition next_answer : ST Fs answer := λ f,
  match fs_answers f with [] => (Ret Works, f) | a :: l => (Ret a, set_answers l f) end.

(** [while(call() == -1 && errno == EINTR)] *)
Fixpoint after_eintr (answers : list answer) : list answer :=
  match answers with Interrupted :: answers => after_eintr answers | _ => answers end.

Definition next_retried : ST Fs answer := λ f,
  match after_eintr (fs_answers f) with
  | [] => (Ret Works, set_answers [] f)
  | a :: l => (Ret a, set_answers l f)
  end.

Definition failed (a : answer) : bool := match a with Works => false | _ => true end.

(** A new descriptor. *)
Definition new_fd (d : descriptor) : ST Fs Z := λ f,
  (Ret (fs_next f), set_next (fs_next f + 1) (set_fds (<[fs_next f := d]> (fs_fds f)) f)).

(** Closing gives the descriptor back whatever it answers. *)
Definition close (fd : Z) : ST Fs answer :=
  let! a := next_answer in
  let! _ := st_modify (λ f, set_fds (delete fd (fs_fds f)) f) in
  st_ret a.

(** The file behind a descriptor. *)
Definition update_inode (fd : Z) (g : Inode → Inode) (f : Fs) : Fs :=
  match fs_fds f !! fd with
  | Some (FileFd i) =>
      let d := fs_disk f in
      match dk_inodes d !! i with
      | Some inode => set_disk_state (mkDisk (<[i := g inode]> (dk_inodes d)) (dk_now d) (dk_since d) (dk_durable d)) f
      | None => f
      end
  | _ => f
  end.

Definition append_bytes (bytes : list Z) (i : Inode) : Inode :=
  let file := in_file i in
  mkInode (mkFile (f_contents file ++ bytes) (f_regular file) (f_nlink file) (f_uid file) (f_mode file)) false.

Definition sync_inode (i : Inode) : Inode := mkInode (in_file i) true.

(** Whether the directory and the file were synced is known to the disk only. *)
Definition sync_fd (fd : Z) (f : Fs) : Fs :=
  match fs_fds f !! fd with
  | Some DirectoryFd => let d := fs_disk f in set_disk_state (mkDisk (dk_inodes d) (dk_now d) [] (dk_durable d)) f
  | _ => update_inode fd sync_inode f
  end.

(** ** The helpers *)

Definition close_checked (fd : Z) : ST Fs () :=
  if fd <? 0 then st_throw logic_error else
  let! a := close fd in
  if failed a then st_throw system_error else st_ret ().

Definition fsync_checked (fd : Z) : ST Fs () :=
  let! a := next_retried in
  if failed a then st_throw system_error else st_modify (sync_fd fd).

(** The loop of [write_all], on the answers of [write]. *)
Fixpoint write_loop (fd : Z) (bytes : list Z) (answers : list answer) : ST Fs () :=
  match bytes with
  | [] => st_modify (set_answers answers)
  | _ :: _ =>
      match answers with
      | [] => st_modify (λ f, set_answers [] (update_inode fd (append_bytes bytes) f))
      | Interrupted :: answers => write_loop fd bytes answers
      | Fails :: answers => let! _ := st_modify (set_answers answers) in st_throw system_error
      | Works :: answers =>
          st_modify (λ f, set_answers answers (update_inode fd (append_bytes bytes) f))
      | Partial count :: answers =>
          if count <=? 0 then let! _ := st_modify (set_answers answers) in st_throw runtime_error
          else
            let! _ := st_modify (update_inode fd (append_bytes (take (Z.to_nat count) bytes))) in
            write_loop fd (drop (Z.to_nat count) bytes) answers
      end
  end.

Definition store_write_all (fd : Z) (bytes : list Z) : ST Fs () := λ f,
  write_loop fd bytes (fs_answers f) f.

Definition hex_digit_lower (n : Z) : Z := byte_at (lit "0123456789abcdef") (Z.to_nat n).

Definition temporary_name (random_bytes : list Z) : list Z :=
  lit ".vauth.tmp." ++
  concat ((λ byte, [hex_digit_lower (Z.shiftr byte 4); hex_digit_lower (Z.land byte 15)]) <$> random_bytes).

Definition random_temporary_name : ST Fs (list Z) := λ f,
  match fs_random f with
  | Some bytes :: l => (Ret (temporary_name (take 16 bytes)), set_random l f)
  | None :: l => (Throw runtime_error, set_random l f)
  | [] => (Throw runtime_error, f)
  end.

(** [openat] with O_CREAT and O_EXCL: a new, empty file, unless the name is taken. *)
Inductive created := Created (fd : Z) | NameExists | CreateFailed.

Definition open_new (name : list Z) : ST Fs created :=
  let! a := next_answer in
  if failed a then st_ret CreateFailed else
  let! f := st_get in
  let d := fs_disk f in
  match dk_now d !! name with
  | Some _ => st_ret NameExists
  | None =>
      let i := fs_next f in
      let inode := mkInode (mkFile [] true 1 (fs_euid f) FILE_MODE) false in
      let! _ := st_modify (λ f, set_next (i + 1)
        (set_disk_state (relink (<[name := i]> (dk_now d)) (mkDisk (<[i := inode]> (dk_inodes d)) (dk_now d) (dk_since d) (dk_durable d))) f)) in
      let! fd := new_fd (FileFd i) in
      st_ret (Created fd)
  end.

Definition maximum_attempts : nat := 16.

Fixpoint create_loop (attempts : nat) : ST Fs (Z * list Z) :=
  match attempts with
  | O => st_throw runtime_error
  | S attempts =>
      let! name := random_temporary_name in
      let! r := open_new name in
      match r with
      | Created fd => st_ret (fd, name)
      | NameExists => create_loop attempts
      | CreateFailed => st_throw system_error
      end
  end.

Definition create_temporary_file : ST Fs (Z * list Z) := create_loop maximum_attempts.

(** [mkdir], for which an existing directory is fine.  The parent directory is not synced. *)
Definition fs_prepare_directory : ST Fs () :=
  let! a := next_answer in
  if failed a then st_throw system_error else
  st_modify (λ f, match fs_dir f with
                  | Some _ => f
                  | None => set_dir (Some (mkDir true (fs_euid f) DIR_MODE))
                              (set_disk_state (not_durable (fs_disk f)) f)
                  end).

(** [open] with O_DIRECTORY and O_NOFOLLOW, [fstat] and the checks; the descriptor is closed
    by hand when they fail. *)
Definition fs_open_directory : ST Fs Z :=
  let! a := next_answer in
  let! f := st_get in
  match fs_dir f with
  | None => st_throw system_error
  | Some d =>
      if failed a || negb (dir_isdir d) then st_throw system_error else
      let! fd := new_fd DirectoryFd in
      let! inspected := next_answer in
      match (if failed inspected then Throw system_error else check_directory (fs_euid f) d) with
      | Throw e => let! _ := close fd in st_throw e
      | Ret _ => st_ret fd
      end
  end.

(** ** [atomic_write_file] *)

Section write.
(** The file name of the store path, which passed the check for an empty name and dots. *)
Context (filename : list Z).

Definition rename_temporary (name : list Z) : ST Fs () :=
  let! a := next_retried in
  if failed a then st_throw system_error else
  st_modify (λ f,
    let d := fs_disk f in
    match dk_now d !! name with
    | Some i => set_disk_state (relink (<[filename := i]> (delete name (dk_now d))) d) f
    | None => f
    end).

Definition set_directory (fd : Z) (f : Fs) : Fs :=
  set_locals (mkLocals fd (lo_output (fs_locals f)) (lo_temporary (fs_locals f))) f.
Definition set_output (fd : Z) (f : Fs) : Fs :=
  set_locals (mkLocals (lo_directory (fs_locals f)) fd (lo_temporary (fs_locals f))) f.
Definition set_temporary (t : option (list Z)) (f : Fs) : Fs :=
  set_locals (mkLocals (lo_directory (fs_locals f)) (lo_output (fs_locals f)) t) f.

Definition write_body (contents : list Z) : ST Fs () :=
  let! _ := fs_prepare_directory in
  let! directory := fs_open_directory in
  let! _ := st_modify (set_directory directory) in
  let! made := create_temporary_file in
  let '(output, name) := made in
  let! _ := st_modify (λ f, set_temporary (Some name) (set_output output f)) in
  let! _ := store_write_all output contents in
  let! _ := fsync_checked output in
  let! _ := st_modify (set_output (-1)) in
  let! _ := close_checked output in
  let! _ := rename_temporary name in
  let! _ := st_modify (set_temporary None) in
  let! _ := fsync_checked directory in
  let! _ := st_modify (set_directory (-1)) in
  close_checked directory.

(** The destructor of the temporary file: it is unlinked, or stays behind when that fails. *)
Definition unlink_temporary (name : option (list Z)) : ST Fs () :=
  match name with
  | None => st_ret ()
  | Some name =>
      let! a := next_answer in
      if failed a then st_ret () else
      st_modify (λ f, let d := fs_disk f in
        match dk_now d !! name with
        | Some _ => set_disk_state (relink (delete name (dk_now d)) d) f
        | None => f
        end)
  end.

(** The destructor of a descriptor. *)
Definition close_unique (fd : Z) : ST Fs () :=
  if 0 <=? fd then let! _ := close fd in st_ret () else st_ret ().

(** In the order of destruction: the temporary file, its descriptor, the directory's. *)
Definition destroy_locals : ST Fs () :=
  let! f := st_get in
  let! _ := unlink_temporary (lo_temporary (fs_locals f)) in
  let! _ := close_unique (lo_output (fs_locals f)) in
  close_unique (lo_directory (fs_locals f)).

Definition fs_atomic_write_file (contents : list Z) : ST Fs () := λ f,
  let '(r, f) := write_body contents (set_locals (mkLocals (-1) (-1) None) f) in
  (r, (destroy_locals f).2).

(** ** [read_store_file] *)

(** The loop of [read_all], [left] bytes from the end; [bytes] is what the file still holds. *)
Fixpoint read_loop (read bytes : list Z) (left : Z) (answers : list answer) : res (list Z) * list answer :=
  if left <=? 0 then (Ret read, answers) else
  match answers with
  | [] => if len bytes <? left then (Throw runtime_error, []) else (Ret (read ++ take (Z.to_nat left) bytes), [])
  | Interrupted :: answers => read_loop read bytes left answers
  | Fails :: answers => (Throw system_error, answers)
  | Works :: answers =>
      let got := take (Z.to_nat left) bytes in
      if len got =? 0 then (Throw runtime_error, answers)
      else read_loop (read ++ got) (drop (Z.to_nat left) bytes) (left - len got) answers
  | Partial count :: answers =>
      let got := take (Z.to_nat (Z.min count left)) bytes in
      if len got =? 0 then (Throw runtime_error, answers)
      else read_loop (read ++ got) (drop (Z.to_nat (Z.min count left)) bytes) (left - len got) answers
  end.

Definition read_all (contents : list Z) (size : Z) : ST Fs (list Z) := λ f,
  let '(r, answers) := read_loop [] contents size (fs_answers f) in (r, set_answers answers f).

(** A descriptor that is closed at the end of its scope. *)
Definition unique_fd {A} (fd : Z) (m : ST Fs A) : ST Fs A := λ f,
  let '(r, f) := m f in (r, (close fd f).2).

Definition read_open_file (euid : Z) (i : Z) : ST Fs (list Z) :=
  let! inspected := next_answer in
  if failed inspected then st_throw system_error else
  let! f := st_get in
  match dk_inodes (fs_disk f) !! i with
  | None => st_throw system_error
  | Some inode =>
      let! _ := st_lift (check_file euid (in_file inode)) in
      read_all (f_contents (in_file inode)) (len (f_contents (in_file inode)))
  end.

Definition read_in_directory (d : DirStatus) : ST Fs (option (list Z)) :=
  let! inspected := next_answer in
  if failed inspected then st_throw system_error else
  let! f := st_get in
  let! _ := st_lift (check_directory (fs_euid f) d) in
  let! a := next_answer in
  let! f := st_get in
  match dk_now (fs_disk f) !! filename with
  | None => if failed a then st_throw system_error else st_ret None
  | Some i =>
      if failed a then st_throw system_error else
      let! fd := new_fd (FileFd i) in
      let! bytes := unique_fd fd (read_open_file (fs_euid f) i) in
      st_ret (Some bytes)
  end.

Definition fs_read_store_file : ST Fs (option (list Z)) :=
  let! a := next_answer in
  let! f := st_get in
  match fs_dir f with
  | None => if failed a then st_throw system_error else st_ret None
  | Some d =>
      if failed a || negb (dir_isdir d) then st_throw system_error else
      let! fd := new_fd DirectoryFd in
      unique_fd fd (read_in_directory d)
  end.
End write.

(** The file name of STORE_PATH. *)
Definition STORE_FILENAME : list Z := lit "credentials.v1".

(** ** Stages of a replacement *)

Section replace.
Context (filename contents : list Z) (f0 : Fs).
Hypothesis filename_ok : byte_at filename 0 ≠ 46.

Definition disk0 : Disk := fs_disk f0.

(** What a name refers to in the states of the directory. *)
Definition states (d : Disk) : list (gmap (list Z) Z) := dk_now d :: dk_since d.

Definition new_file : StoreFile := mkFile contents true 1 (fs_euid f0) FILE_MODE.

(** The files that were there are as they were. *)
Definition files_kept (d : Disk) : Prop :=
  ∀ i inode, dk_inodes disk0 !! i = Some inode → dk_inodes d !! i = Some inode.

Definition as_before (m : gmap (list Z) Z) : Prop :=
  ∃ m0, m0 ∈ states disk0 ∧ m !! filename = m0 !! filename.

(** Before the rename the store is untouched; after it, the new file is complete and synced. *)
Record untouched (d : Disk) : Prop := {
  un_files : files_kept d;
  un_now : dk_now d !! filename = dk_now disk0 !! filename;
  un_states : Forall as_before (states d);
}.

Record replaced (d : Disk) : Prop := {
  re_files : files_kept d;
  re_file : ∃ i, dk_now d !! filename = Some i ∧ dk_inodes d !! i = Some (mkInode new_file true) ∧
    Forall (λ m, as_before m ∨ m !! filename = Some i) (states d);
}.

Definition stage (d : Disk) : Prop := untouched d ∨ replaced d.

(** The directory can be lost only where it was new, or could be lost before. *)
Definition directory_kept (d : Disk) : Prop :=
  dk_durable d = false → dk_durable disk0 = false ∨ fs_dir f0 = None.

Definition entries_ok (d : Disk) : Prop :=
  ∀ m n i, m ∈ states d → m !! n = Some i → is_Some (dk_inodes d !! i).

(** A crash at any stage leaves the old contents or the new ones. *)
Lemma stage_crash d c :
  entries_ok disk0 → stage d → directory_kept d → survives d filename c →
  (fs_dir f0 = None ∧ c = None) ∨ survives disk0 filename c ∨ c = Some contents.
Proof.
  intros Hw Hd Hk [[Hnd ->]|(m & Hm & Hc)]; [destruct (Hk Hnd); [right; left; by left|by left]|right]. clear Hk.
  assert (∀ m', files_kept d → as_before m' → m' !! filename = m !! filename → survives disk0 filename c) as Hold.
  { intros m' Hk (m0 & Hm0 & E) E'. right. exists m0. split; [done|]. rewrite <- E, E'.
    destruct (m !! filename) as [i|] eqn:Ei; [|done]. destruct Hc as (inode & bytes & Hi & -> & Hs).
    destruct (Hw m0 filename i) as [inode0 H0]; [done|congruence|].
    pose proof (Hk _ _ H0) as Hi'. rewrite Hi in Hi'. injection Hi' as <-. by exists inode, bytes. }
  destruct Hd as [[Hk _ Hs]|[Hk (i & Hn & Hi & Hs)]]; eapply Forall_forall in Hs; try exact Hm.
  - left. by eapply Hold.
  - destruct Hs as [Hb|Hb]; [left; by eapply Hold|]. right. rewrite Hb in Hc.
    destruct Hc as (inode & bytes & Hi' & -> & Hsync). rewrite Hi in Hi'. injection Hi' as <-.
    by rewrite Hsync.
Qed.

(** ** The invariant of [atomic_write_file] *)

Record inv (f : Fs) : Prop := {
  iv_euid : fs_euid f = fs_euid f0;
  iv_next : 0 ≤ fs_next f;
  iv_fds : ∀ fd, is_Some (fs_fds f !! fd) → 0 ≤ fd < fs_next f;
  iv_inodes : ∀ i, is_Some (dk_inodes (fs_disk f) !! i) → i < fs_next f;
  iv_entries : entries_ok (fs_disk f);
  iv_base : delete (lo_output (fs_locals f)) (delete (lo_directory (fs_locals f)) (fs_fds f)) = fs_fds f0;
  iv_stage : stage (fs_disk f);
  iv_names : ∀ n, n ≠ filename → lo_temporary (fs_locals f) ≠ Some n →
    dk_now (fs_disk f) !! n = dk_now disk0 !! n;
  iv_temporary : ∀ n, lo_temporary (fs_locals f) = Some n → n ≠ filename ∧ dk_now disk0 !! n = None;
  iv_past : ∃ new, fs_past f = new ++ fs_past f0 ∧ Forall (λ d, stage d ∧ directory_kept d) new;
  iv_kept : directory_kept (fs_disk f);
  iv_lost : fs_dir f0 = None → is_Some (fs_dir f) → dk_durable (fs_disk f) = false;
}.

Lemma inv_answers f l : inv f → inv (set_answers l f).
Proof. by intros []. Qed.

Lemma inv_random f l : inv f → inv (set_random l f).
Proof. by intros []. Qed.

Lemma next_answer_eq f : ∃ a l, next_answer f = (Ret a, set_answers l f).
Proof.
  unfold next_answer. destruct f as [? ? ? ? ? ? [|a l] ? ?]; simpl; [by exists Works, []|by exists a, l].
Qed.

Lemma next_retried_eq f : ∃ a l, next_retried f = (Ret a, set_answers l f).
Proof. unfold next_retried. destruct (after_eintr _) as [|a l]; [by exists Works, []|by exists a, l]. Qed.

Lemma wp_next_answer Q f : (∀ a l, Q (Ret a) (set_answers l f)) → wp next_answer Q f.
Proof. intros HQ. destruct (next_answer_eq f) as (a & l & E). unfold wp. rewrite E. apply HQ. Qed.

Lemma wp_next_retried Q f : (∀ a l, Q (Ret a) (set_answers l f)) → wp next_retried Q f.
Proof. intros HQ. destruct (next_retried_eq f) as (a & l & E). unfold wp. rewrite E. apply HQ. Qed.

Lemma wp_close fd Q f : (∀ a l, Q (Ret a) (set_fds (delete fd (fs_fds f)) (set_answers l f))) → wp (close fd) Q f.
Proof.
  intros HQ. apply wp_bind, wp_next_answer. intros a l. apply wp_bind, wp_modify, wp_ret. apply HQ.
Qed.

(** *** Changes of the disk *)

Lemma stage_relink m d :
  m !! filename = dk_now d !! filename → (untouched d → untouched (relink m d)) ∧ (replaced d → replaced (relink m d)).
Proof.
  intros E. split.
  - intros [Hk Hn Hs]. split; [done|simpl; congruence|]. constructor; [|done].
    inversion Hs as [|? ? (m0 & ? & ?) _]; subst. exists m0. simpl. split; [done|congruence].
  - intros [Hk (i & Hn & Hi & Hs)]. split; [done|]. exists i. split_and!; [simpl; congruence|done|].
    constructor; [|done]. right. simpl. congruence.
Qed.

Lemma stage_relink' m d : m !! filename = dk_now d !! filename → stage d → stage (relink m d).
Proof. intros E. destruct (stage_relink m d E). intros [?|?]; [left|right]; auto. Qed.

Lemma untouched_inode i x d :
  untouched d → dk_inodes disk0 !! i = None →
  untouched (mkDisk (<[i := x]> (dk_inodes d)) (dk_now d) (dk_since d) (dk_durable d)).
Proof.
  intros [Hk Hn Hs] Hi. split; [|done|done]. intros j inode Hj. simpl.
  rewrite lookup_insert_ne by congruence. by apply Hk.
Qed.

(** A change that keeps the stage and the names. *)
Lemma inv_disk f d :
  inv f → stage d → dk_durable d = dk_durable (fs_disk f) → entries_ok d → (∀ i, is_Some (dk_inodes d !! i) → i < fs_next f) →
  (∀ n, n ≠ filename → lo_temporary (fs_locals f) ≠ Some n → dk_now d !! n = dk_now disk0 !! n) →
  inv (set_disk_state d f).
Proof.
  intros [H1 H2 H3 H4 H5 H6 H7 H8 H9 (new & H10 & H11) H12 H13] Hs Hdu He Hi Hn. split; try done.
  - exists (fs_disk f :: new). simpl. rewrite H10. split; [done|]. by constructor.
  - unfold directory_kept. simpl. by rewrite Hdu.
  - simpl. by rewrite Hdu.
Qed.

(** The directory is made. *)
Lemma inv_make_dir f d :
  inv f → fs_dir f0 = None → inv (set_dir d (set_disk_state (not_durable (fs_disk f)) f)).
Proof.
  intros [H1 H2 H3 H4 H5 H6 H7 H8 H9 (new & H10 & H11) H12 H13] Hnone. split; try done.
  - destruct H7 as [[]|[]]; [left|right]; by split.
  - exists (fs_disk f :: new). simpl. rewrite H10. split; [done|]. by constructor.
  - by right.
Qed.

(** *** The directory's descriptor *)

Definition no_locals (f : Fs) : Prop := fs_locals f = mkLocals (-1) (-1) None.

Lemma inv_no_fd f fd : inv f → fd < 0 ∨ fs_next f ≤ fd → fs_fds f !! fd = None.
Proof.
  intros Hi Hfd. destruct (fs_fds f !! fd) eqn:E; [|done]. pose proof (iv_fds _ Hi fd (mk_is_Some _ _ E)). lia.
Qed.

Lemma prepare_directory_spec f :
  inv f → no_locals f → fs_dir f = fs_dir f0 → untouched (fs_disk f) →
  wp fs_prepare_directory (λ r f', inv f' ∧ no_locals f' ∧ untouched (fs_disk f') ∧
    match r with
    | Ret _ => fs_dir f' = Some (default (mkDir true (fs_euid f) DIR_MODE) (fs_dir f))
    | Throw _ => fs_dir f' = fs_dir f
    end) f.
Proof.
  intros Hi Hl Hd Hu. apply wp_bind, wp_next_answer. intros a l. destruct (failed a).
  - apply wp_throw. split_and!; try done. by apply inv_answers.
  - apply wp_modify. simpl. destruct (fs_dir f) eqn:E; split_and!; try done; try (by apply inv_answers).
    + apply (inv_make_dir (set_answers l f)); [by apply inv_answers|done].
    + by destruct Hu.
Qed.

Lemma inv_open_fd f k :
  inv f → lo_directory (fs_locals f) = -1 → lo_output (fs_locals f) = -1 →
  let f1 := set_next (fs_next f + 1) (set_fds (<[fs_next f := k]> (fs_fds f)) f) in
  inv (set_directory (fs_next f) f1).
Proof.
  intros Hi Hd Ho. pose proof Hi as [H1 H2 H3 H4 H5 H6 H7 H8 H9 H10 H11 H12]. cbn zeta. split; simpl; try done; try lia.
  - intros fd Hfd. destruct (decide (fd = fs_next f)) as [->|Hne]; [lia|].
    rewrite lookup_insert_ne in Hfd by done. specialize (H3 _ Hfd). lia.
  - intros i Hii. specialize (H4 _ Hii). lia.
  - rewrite Ho in *. rewrite Hd in H6. rewrite delete_insert_id by (apply inv_no_fd; [done|lia]).
    rewrite <- H6. by rewrite delete_delete_eq.
Qed.

(** Nothing that matters changed, but perhaps the next number. *)
Lemma inv_frame f f' :
  inv f → fs_euid f' = fs_euid f → fs_dir f' = fs_dir f → fs_fds f' = fs_fds f → fs_disk f' = fs_disk f →
  fs_locals f' = fs_locals f → fs_past f' = fs_past f → fs_next f ≤ fs_next f' → inv f'.
Proof.
  intros [H1 H2 H3 H4 H5 H6 H7 H8 H9 H10 H11 H12] E1 E0 E2 E3 E4 E5 Hle.
  split; rewrite ?E0, ?E1, ?E2, ?E3, ?E4, ?E5; try done; try lia.
  - intros fd Hfd. specialize (H3 _ Hfd). lia.
  - intros i Hi. specialize (H4 _ Hi). lia.
Qed.

Lemma open_directory_spec f :
  inv f → no_locals f → wp fs_open_directory (λ r f', fs_dir f' = fs_dir f ∧ fs_disk f' = fs_disk f ∧ no_locals f' ∧
    match r with
    | Ret fd => inv (set_directory fd f') ∧ fs_fds f' !! fd = Some DirectoryFd ∧ 0 ≤ fd ∧
        ∃ d, fs_dir f = Some d ∧ check_directory (fs_euid f) d = Ret ()
    | Throw _ => inv f'
    end) f.
Proof.
  intros Hi Hl. apply wp_bind, wp_next_answer. intros a l. apply wp_bind, wp_get. simpl.
  destruct (fs_dir f) as [d|] eqn:Ed; [|apply wp_throw; split_and!; try done; by apply inv_answers].
  destruct (failed a || _); [apply wp_throw; split_and!; try done; by apply inv_answers|].
  apply wp_bind. unfold new_fd, wp at 1. cbn [fst snd].
  pose proof (inv_open_fd f DirectoryFd Hi) as Ho. rewrite Hl in Ho. specialize (Ho eq_refl eq_refl).
  apply wp_bind, wp_next_answer. intros a' l'.
  destruct (if failed a' then _ else _) as [[]|e] eqn:Ec.
  - apply wp_ret. split_and!; try done.
    + eapply inv_frame; [exact Ho|done..]. 
    + apply lookup_insert_eq.
    + apply Hi.
    + destruct (failed a'); [done|]. by exists d.
  - apply wp_bind, wp_close. intros a'' l''. apply wp_throw. split_and!; try done.
    eapply inv_frame; [exact Hi|done|done| |done..|]; simpl; [|lia].
    by rewrite delete_insert_id by (apply inv_no_fd; [done|lia]).
Qed.

(** *** The temporary file *)

Lemma temporary_name_ok bytes : temporary_name bytes ≠ filename.
Proof. intros E. apply filename_ok. by rewrite <- E. Qed.

(** The temporary file [name] with the inode [i] is open as [fd] and holds [data]. *)
Record writing (dir fd : Z) (name : list Z) (i : Z) (data : list Z) (synced : bool) (f : Fs) : Prop := {
  wr_locals : fs_locals f = mkLocals dir fd (Some name);
  wr_directory : fs_fds f !! dir = Some DirectoryFd;
  wr_output : fs_fds f !! fd = Some (FileFd i);
  wr_inode : dk_inodes (fs_disk f) !! i = Some (mkInode (mkFile data true 1 (fs_euid f0) FILE_MODE) synced);
  wr_name : dk_now (fs_disk f) !! name = Some i;
  wr_new : dk_inodes disk0 !! i = None;
  wr_untouched : untouched (fs_disk f);
}.

Lemma writing_answers dir fd name i data synced f l :
  writing dir fd name i data synced f → writing dir fd name i data synced (set_answers l f).
Proof. by intros []. Qed.

Lemma open_new_spec dir name f :
  inv f → fs_locals f = mkLocals dir (-1) None → fs_fds f !! dir = Some DirectoryFd → untouched (fs_disk f) →
  name ≠ filename →
  wp (open_new name) (λ r f', fs_dir f' = fs_dir f ∧
    match r with
    | Ret (Created fd) => ∃ i, let f2 := set_temporary (Some name) (set_output fd f') in
        inv f2 ∧ writing dir fd name i [] false f2 ∧ 0 ≤ fd ∧ fd ≠ dir
    | _ => inv f' ∧ fs_locals f' = fs_locals f ∧ fs_fds f' = fs_fds f ∧ fs_disk f' = fs_disk f
    end) f.
Proof.
  intros Hi Hl Hdir Hu Hne. apply wp_bind, wp_next_answer. intros a l.
  destruct (failed a); [apply wp_ret; split_and!; try done; by apply inv_answers|].
  apply wp_bind, wp_get. simpl.
  destruct (dk_now (fs_disk f) !! name) as [j|] eqn:Ej; [apply wp_ret; split_and!; try done; by apply inv_answers|].
  apply wp_bind, wp_modify, wp_bind. unfold new_fd, wp at 1. cbn [fst snd]. apply wp_ret. split; [done|].
  set (i := fs_next f). pose proof Hi as [H1 H2 H3 H4 H5 H6 H7 H8 H9 (new & H10 & H11) H12 H13].
  assert (dk_inodes (fs_disk f) !! i = None) as Hfree.
  { destruct (dk_inodes (fs_disk f) !! i) eqn:E; [|done]. specialize (H4 i (mk_is_Some _ _ E)). lia. }
  assert (dk_inodes disk0 !! i = None) as Hfree0.
  { destruct (dk_inodes disk0 !! i) eqn:E; [|done]. apply (un_files _ Hu) in E. congruence. }
  assert (dk_now disk0 !! name = None) as Hnow0.
  { rewrite <- H8 by (rewrite ?Hl; done). done. }
  set (x := mkInode (mkFile [] true 1 (fs_euid f) FILE_MODE) false).
  set (d1 := mkDisk (<[i := x]> (dk_inodes (fs_disk f))) (dk_now (fs_disk f)) (dk_since (fs_disk f)) (dk_durable (fs_disk f))).
  assert (untouched (relink (<[name := i]> (dk_now (fs_disk f))) d1)) as Hu'.
  { apply stage_relink; [by rewrite lookup_insert_ne|]. by apply untouched_inode. }
  assert (fs_fds f !! (i + 1) = None) as Hnofd by (apply inv_no_fd; [done|lia]).
  pose proof (H3 dir (mk_is_Some _ _ Hdir)) as Hdr.
  exists i. cbn zeta. split; [|split; [|subst i; simpl; lia]].
  - split; simpl; rewrite ?Hl; simpl; try done; try lia.
    + intros fd Hfd. destruct (decide (fd = i + 1)) as [->|Hn]; [lia|].
      rewrite lookup_insert_ne in Hfd by done. specialize (H3 _ Hfd). lia.
    + intros j Hj. destruct (decide (j = i)) as [->|Hn]; [lia|].
      rewrite lookup_insert_ne in Hj by done. specialize (H4 _ Hj). lia.
    + intros m n j Hm Hn. unfold states in Hm. simpl in Hm, Hn |- *. destruct (decide (j = i)) as [->|Hji]; [by rewrite lookup_insert_eq|].
      rewrite lookup_insert_ne by done. apply elem_of_cons in Hm as [->|Hm].
      * destruct (decide (n = name)) as [->|Hnn]; [rewrite lookup_insert_eq in Hn; congruence|].
        rewrite lookup_insert_ne in Hn by done. eapply H5; [by left|exact Hn].
      * by eapply H5.
    + rewrite Hl in H6. simpl in H6. rewrite delete_insert_ne by lia.
      rewrite delete_insert_id by (rewrite lookup_delete_ne by lia; done).
      rewrite <- H6. symmetry. apply delete_id. rewrite lookup_delete_ne by lia. apply inv_no_fd; [done|lia].
    + by left.
    + intros n Hn Ht. rewrite lookup_insert_ne by congruence. apply H8; [done|by rewrite Hl].
    + intros n [= <-]. done.
    + exists (fs_disk f :: new). rewrite H10. split; [done|]. by constructor.
  - split; simpl; rewrite ?Hl; simpl; try done.
    + rewrite lookup_insert_ne by lia. done.
    + apply lookup_insert_eq.
    + rewrite lookup_insert_eq. subst x. by rewrite H1.
    + apply lookup_insert_eq.
Qed.

Definition opened_directory (dir : Z) (f : Fs) : Prop :=
  inv f ∧ fs_locals f = mkLocals dir (-1) None ∧ fs_fds f !! dir = Some DirectoryFd ∧ untouched (fs_disk f).

Lemma create_loop_spec dir attempts f :
  opened_directory dir f →
  wp (create_loop attempts) (λ r f', fs_dir f' = fs_dir f ∧
    match r with
    | Ret (fd, name) => ∃ i, let f2 := set_temporary (Some name) (set_output fd f') in
        inv f2 ∧ writing dir fd name i [] false f2 ∧ 0 ≤ fd ∧ fd ≠ dir
    | Throw _ => opened_directory dir f'
    end) f.
Proof.
  revert f. induction attempts as [|attempts IH]; intros f Ho; [by apply wp_throw|].
  destruct Ho as (Hi & Hl & Hd & Hu). apply wp_bind. unfold random_temporary_name, wp at 1.
  destruct (fs_random f) as [|[bytes|] rest]; cbn [fst snd]; [done| |].
  2:{ split; [done|]. split_and!; try done. by apply inv_random. }
  set (f1 := set_random rest f). assert (inv f1) as Hi1 by (by apply inv_random).
  apply wp_bind. eapply wp_mono; [|by apply (open_new_spec dir _ f1 Hi1 Hl Hd Hu), temporary_name_ok].
  intros [[fd| |]|e] f2 (Hdir & Hr).
  - apply wp_ret. split; [done|]. exact Hr.
  - destruct Hr as (H1 & H2 & H3 & H4). eapply wp_mono; [|apply IH].
    + intros r f3 [-> H]. done.
    + split_and!; [done|by rewrite H2|by rewrite H3|by rewrite H4].
  - apply wp_throw. destruct Hr as (H1 & H2 & H3 & H4). split; [done|].
    split_and!; [done|by rewrite H2|by rewrite H3|by rewrite H4].
  - destruct Hr as (H1 & H2 & H3 & H4). split; [done|]. split_and!; [done|by rewrite H2|by rewrite H3|by rewrite H4].
Qed.

(** Writing to the temporary file. *)
Lemma update_writing dir fd name i data synced g data' synced' f :
  inv f → writing dir fd name i data synced f →
  g (mkInode (mkFile data true 1 (fs_euid f0) FILE_MODE) synced) =
    mkInode (mkFile data' true 1 (fs_euid f0) FILE_MODE) synced' →
  inv (update_inode fd g f) ∧ writing dir fd name i data' synced' (update_inode fd g f) ∧
  fs_dir (update_inode fd g f) = fs_dir f.
Proof.
  intros Hi [W1 W2 W3 W4 W5 W6 W7] Hg. unfold update_inode. rewrite W3, W4, Hg.
  pose proof (untouched_inode i (mkInode (mkFile data' true 1 (fs_euid f0) FILE_MODE) synced') _ W7 W6) as Hu.
  split_and!; [|split; simpl; try done; apply lookup_insert_eq|done].
  apply inv_disk; [done|by left|done| | |].
  - intros m n j Hm Hn. simpl. destruct (decide (j = i)) as [->|Hji]; [by rewrite lookup_insert_eq|].
    rewrite lookup_insert_ne by done. by eapply (iv_entries _ Hi).
  - simpl. intros j Hj. destruct (decide (j = i)) as [->|Hji]; [apply (iv_inodes _ Hi); by rewrite W4|].
    rewrite lookup_insert_ne in Hj by done. by apply (iv_inodes _ Hi).
  - apply (iv_names _ Hi).
Qed.

Definition wrote_some (dir fd : Z) (name : list Z) (i : Z) (f : Fs) : Prop :=
  inv f ∧ ∃ data synced, writing dir fd name i data synced f.

Lemma write_loop_spec dir fd name i bytes answers data synced f :
  inv f → writing dir fd name i data synced f →
  wp (write_loop fd bytes answers) (λ r f', fs_dir f' = fs_dir f ∧
    match r with
    | Ret _ => inv f' ∧ ∃ synced', writing dir fd name i (data ++ bytes) synced' f'
    | Throw _ => wrote_some dir fd name i f'
    end) f.
Proof.
  revert bytes data synced f. induction answers as [|a answers IH]; intros bytes data synced f Hi Hw.
  - destruct bytes as [|b bytes]; simpl.
    + apply wp_modify. rewrite app_nil_r. split_and!; [done|by apply inv_answers|].
      exists synced. by apply writing_answers.
    + apply wp_modify. destruct (update_writing _ _ _ _ _ _ (append_bytes (b :: bytes)) (data ++ b :: bytes) false _ Hi Hw eq_refl)
        as (Hi' & Hw' & Hd). split_and!; [done|by apply inv_answers|]. exists false. by apply writing_answers.
  - destruct bytes as [|b bytes]; simpl.
    { apply wp_modify. rewrite app_nil_r. split_and!; [done|by apply inv_answers|].
      exists synced. by apply writing_answers. }
    destruct a as [| | |count].
    + apply wp_modify. destruct (update_writing _ _ _ _ _ _ (append_bytes (b :: bytes)) (data ++ b :: bytes) false _ Hi Hw eq_refl)
        as (Hi' & Hw' & Hd). split_and!; [done|by apply inv_answers|]. exists false. by apply writing_answers.
    + by eapply IH.
    + apply wp_bind, wp_modify, wp_throw. split; [done|]. split; [by apply inv_answers|].
      exists data, synced. by apply writing_answers.
    + destruct (count <=? 0).
      * apply wp_bind, wp_modify, wp_throw. split; [done|]. split; [by apply inv_answers|].
        exists data, synced. by apply writing_answers.
      * apply wp_bind, wp_modify.
        set (part := take (Z.to_nat count) (b :: bytes)).
        destruct (update_writing _ _ _ _ _ _ (append_bytes part) (data ++ part) false _ Hi Hw eq_refl)
          as (Hi' & Hw' & Hd). eapply wp_mono; [|by apply (IH (drop (Z.to_nat count) (b :: bytes)) _ _ _ Hi' Hw')].
        intros r f' [-> H]. split; [done|]. destruct r; [|done]. unfold part in H. by rewrite <- app_assoc, take_drop in H.
Qed.

Lemma sync_output_spec dir fd name i data synced f :
  inv f → writing dir fd name i data synced f →
  wp (fsync_checked fd) (λ r f', fs_dir f' = fs_dir f ∧ inv f' ∧
    match r with
    | Ret _ => writing dir fd name i data true f'
    | Throw _ => writing dir fd name i data synced f'
    end) f.
Proof.
  intros Hi Hw. apply wp_bind, wp_next_retried. intros a l. destruct (failed a).
  - apply wp_throw. split_and!; [done|by apply inv_answers|by apply writing_answers].
  - apply wp_modify. pose proof (writing_answers _ _ _ _ _ _ _ l Hw) as Hw'. pose proof (inv_answers _ l Hi) as Hi'.
    unfold sync_fd. rewrite (wr_output _ _ _ _ _ _ _ Hw').
    destruct (update_writing _ _ _ _ _ _ sync_inode data true _ Hi' Hw' eq_refl) as (? & ? & ?). done.
Qed.

(** Giving a descriptor back. *)
Lemma inv_release_output f fd dir t l :
  inv f → fs_locals f = mkLocals dir fd t → fd ≠ dir →
  inv (set_fds (delete fd (fs_fds f)) (set_answers l (set_output (-1) f))).
Proof.
  intros Hi Hl Hne. pose proof Hi as [H1 H2 H3 H4 H5 H6 H7 H8 H9 H10 H11 H12]. rewrite Hl in *. simpl in *.
  split; simpl; rewrite ?Hl; simpl; try done.
  - intros n [Hn Hs]%lookup_delete_is_Some. by apply H3.
  - rewrite (delete_delete (fs_fds f) fd dir) in H6. rewrite <- H6. apply delete_id.
    rewrite !lookup_delete_None. right. right. apply inv_no_fd; [done|lia].
Qed.

Lemma inv_release_directory f dir t l :
  inv f → fs_locals f = mkLocals dir (-1) t →
  inv (set_fds (delete dir (fs_fds f)) (set_answers l (set_directory (-1) f))).
Proof.
  intros Hi Hl. pose proof Hi as [H1 H2 H3 H4 H5 H6 H7 H8 H9 H10 H11 H12]. rewrite Hl in *. simpl in *.
  split; simpl; rewrite ?Hl; simpl; try done.
  - intros n [Hn Hs]%lookup_delete_is_Some. by apply H3.
  - by rewrite delete_delete_eq.
Qed.

(** The temporary file is complete, synced and closed. *)
Record finished (dir : Z) (name : list Z) (i : Z) (data : list Z) (f : Fs) : Prop := {
  fi_locals : fs_locals f = mkLocals dir (-1) (Some name);
  fi_directory : fs_fds f !! dir = Some DirectoryFd;
  fi_inode : dk_inodes (fs_disk f) !! i = Some (mkInode (mkFile data true 1 (fs_euid f0) FILE_MODE) true);
  fi_name : dk_now (fs_disk f) !! name = Some i;
  fi_untouched : untouched (fs_disk f);
}.

Lemma close_output_spec dir fd name i data f :
  inv f → writing dir fd name i data true f → 0 ≤ fd → fd ≠ dir →
  wp (close_checked fd) (λ _ f', fs_dir f' = fs_dir f ∧ inv f' ∧ finished dir name i data f') (set_output (-1) f).
Proof.
  intros Hi [W1 W2 W3 W4 W5 W6 W7] H0 Hne. unfold close_checked. rewrite (proj2 (Z.ltb_ge _ _)) by lia.
  apply wp_bind, wp_close. intros a l.
  assert (∀ r : res (), fs_dir f = fs_dir f ∧ inv (set_fds (delete fd (fs_fds f)) (set_answers l (set_output (-1) f))) ∧
    finished dir name i data (set_fds (delete fd (fs_fds f)) (set_answers l (set_output (-1) f)))) as H.
  { intros _. split_and!; [done|by eapply inv_release_output|]. split; simpl; rewrite ?W1; try done.
    by rewrite lookup_delete_ne. }
  destruct (failed a); [apply wp_throw; apply (H (Throw system_error))|apply wp_ret; apply (H (Ret ()))].
Qed.

(** The rename makes the finished file the store. *)
Lemma rename_spec dir name i f :
  inv f → finished dir name i contents f →
  wp (rename_temporary filename name) (λ r f', fs_dir f' = fs_dir f ∧ inv f' ∧
    match r with
    | Ret _ => replaced (fs_disk f') ∧ fs_locals f' = fs_locals f ∧ fs_fds f' = fs_fds f ∧
        dk_now (fs_disk f') !! name = None
    | Throw _ => finished dir name i contents f'
    end) f.
Proof.
  intros Hi [F1 F2 F3 F4 F5]. pose proof (iv_temporary _ Hi name) as Ht. rewrite F1 in Ht.
  destruct (Ht eq_refl) as [Hne Hnone]. apply wp_bind, wp_next_retried. intros a l. destruct (failed a).
  { apply wp_throw. split_and!; [done|by apply inv_answers|done]. }
  apply wp_modify. cbn [set_answers fs_disk]. rewrite F4.
  set (m := <[filename := i]> (delete name (dk_now (fs_disk f)))). destruct F5 as [Hk Hn Hs].
  assert (replaced (relink m (fs_disk f))) as Hr.
  { split; [done|]. exists i. split_and!; [apply lookup_insert_eq|done|].
    constructor; [right; apply lookup_insert_eq|]. eapply Forall_impl; [exact Hs|]. by left. }
  split_and!; [done| |done|done|done|simpl; unfold m; by rewrite lookup_insert_ne, lookup_delete_eq].
  apply inv_disk; [by apply inv_answers|by right|done| |apply (iv_inodes _ Hi)|].
  - intros m' n j [->|Hm']%elem_of_cons Hj; [|by eapply (iv_entries _ Hi)]. simpl in Hj |- *.
    destruct (decide (n = filename)) as [->|Hnf].
    + unfold m in Hj. rewrite lookup_insert_eq in Hj. injection Hj as <-. by rewrite F3.
    + unfold m in Hj. rewrite lookup_insert_ne in Hj by done. apply lookup_delete_Some in Hj as [_ Hj].
      eapply (iv_entries _ Hi); [by left|exact Hj].
  - simpl. rewrite F1. intros n Hnf Htn. simpl in Htn. unfold m. rewrite lookup_insert_ne by done.
    rewrite lookup_delete_ne by congruence. apply (iv_names _ Hi); [done|by rewrite F1].
Qed.

Lemma inv_dismiss f name :
  inv f → lo_temporary (fs_locals f) = Some name → dk_now (fs_disk f) !! name = None → inv (set_temporary None f).
Proof.
  intros Hi Hl Hn. pose proof Hi as [H1 H2 H3 H4 H5 H6 H7 H8 H9 H10 H11 H12]. split; simpl; try done.
  intros n Hnf _. destruct (decide (n = name)) as [->|Hne].
  - rewrite Hn. destruct (H9 _ Hl) as [_ H]. by rewrite H.
  - apply H8; [done|congruence].
Qed.

Lemma replaced_synced d : replaced d → replaced (mkDisk (dk_inodes d) (dk_now d) [] (dk_durable d)).
Proof.
  intros [Hk (i & Hn & Hi & Hs)]. split; [done|]. exists i. split_and!; try done. constructor; [by right|constructor].
Qed.

(** The end of the function: the directory is synced and closed. *)
Lemma finish_directory_spec dir f :
  inv f → fs_locals f = mkLocals dir (-1) None → fs_fds f !! dir = Some DirectoryFd → 0 ≤ dir → replaced (fs_disk f) →
  wp (let! _ := fsync_checked dir in
      let! _ := st_modify (set_directory (-1)) in
      close_checked dir)
    (λ r f', fs_dir f' = fs_dir f ∧ inv f' ∧ replaced (fs_disk f') ∧ lo_temporary (fs_locals f') = None ∧
      (r = Ret () → dk_since (fs_disk f') = [])) f.
Proof.
  intros Hi Hl Hd H0 Hr. apply wp_bind, wp_bind, wp_next_retried. intros a l. destruct (failed a).
  { apply wp_throw. split_and!; try done; [by apply inv_answers|simpl; by rewrite Hl]. }
  apply wp_modify. unfold sync_fd. cbn [set_answers fs_fds]. rewrite Hd.
  set (d := mkDisk (dk_inodes (fs_disk f)) (dk_now (fs_disk f)) [] (dk_durable (fs_disk f))).
  assert (inv (set_disk_state d (set_answers l f))) as Hi1.
  { apply inv_disk; [by apply inv_answers|right; by apply replaced_synced|done| |apply (iv_inodes _ Hi)|apply (iv_names _ Hi)].
    intros m n j Hm Hj. eapply (iv_entries _ Hi); [|exact Hj]. apply elem_of_cons in Hm as [->|[]%elem_of_nil]. by left. }
  apply wp_bind, wp_modify. unfold close_checked. rewrite (proj2 (Z.ltb_ge _ _)) by lia.
  apply wp_bind, wp_close. intros a' l'.
  pose proof (inv_release_directory (set_disk_state d (set_answers l f)) dir None l' Hi1 Hl) as Hi2.
  pose proof (replaced_synced _ Hr) as Hr'.
  destruct (failed a'); [apply wp_throw|apply wp_ret]; (split_and!; [done|exact Hi2|exact Hr'|simpl; by rewrite Hl|done]).
Qed.

(** From the open temporary file to the end. *)
Lemma fill_spec dir fd name i f :
  inv f → writing dir fd name i [] false f → 0 ≤ fd → fd ≠ dir → 0 ≤ dir →
  wp (let! _ := store_write_all fd contents in
      let! _ := fsync_checked fd in
      let! _ := st_modify (set_output (-1)) in
      let! _ := close_checked fd in
      let! _ := rename_temporary filename name in
      let! _ := st_modify (set_temporary None) in
      let! _ := fsync_checked dir in
      let! _ := st_modify (set_directory (-1)) in
      close_checked dir)
    (λ r f', inv f' ∧ fs_dir f' = fs_dir f ∧ stage (fs_disk f') ∧
      (r = Ret () → replaced (fs_disk f') ∧ dk_since (fs_disk f') = [] ∧ lo_temporary (fs_locals f') = None)) f.
Proof.
  intros Hi Hw Hfd Hne Hge. apply wp_bind.
  assert (wp (store_write_all fd contents) (λ r f', fs_dir f' = fs_dir f ∧
    match r with
    | Ret _ => inv f' ∧ ∃ synced', writing dir fd name i contents synced' f'
    | Throw _ => wrote_some dir fd name i f'
    end) f) as Hwrite by exact (write_loop_spec dir fd name i contents (fs_answers f) [] false f Hi Hw).
  eapply wp_mono; [|exact Hwrite]. intros [[]|e] f1 (Hd1 & H1).
  2:{ destruct H1 as (Hi1 & data & synced & Hw1). split_and!; try done. left. apply Hw1. }
  destruct H1 as (Hi1 & synced & Hw1). apply wp_bind. eapply wp_mono; [|by eapply sync_output_spec].
  intros [[]|e] f2 (Hd2 & Hi2 & Hw2); [|split_and!; try done; [congruence|left; apply Hw2]].
  apply wp_bind, wp_modify, wp_bind. eapply wp_mono; [|by eapply close_output_spec].
  intros [[]|e] f3 (Hd3 & Hi3 & Hf3); [|split_and!; try done; [congruence|left; apply Hf3]].
  apply wp_bind. eapply wp_mono; [|by eapply rename_spec]. intros [[]|e] f4 (Hd4 & Hi4 & H4).
  2:{ split_and!; try done; [congruence|left; apply H4]. }
  destruct H4 as (Hr4 & Hl4 & Hf4 & Hn4). rewrite (fi_locals _ _ _ _ _ Hf3) in Hl4.
  apply wp_bind, wp_modify. eapply wp_mono; [|eapply (finish_directory_spec dir)].
  - intros r f5 (Hd5 & Hi5 & Hr5 & Hl5 & Hs5). split_and!; [done|simpl in Hd5; congruence|by right|].
    intros Hr. split_and!; [done|by apply Hs5|done].
  - eapply inv_dismiss; [done|by rewrite Hl4|done].
  - simpl. by rewrite Hl4.
  - simpl. rewrite Hf4. apply Hf3.
  - done.
  - done.
Qed.

(** The directory that the store is written to: the one there is, or a new one. *)
Definition directory_for (f : Fs) : DirStatus := default (mkDir true (fs_euid f) DIR_MODE) (fs_dir f).

Lemma write_body_spec f :
  inv f → no_locals f → fs_disk f = disk0 → fs_dir f = fs_dir f0 →
  wp (write_body filename contents) (λ r f', inv f' ∧
    (r = Ret () → replaced (fs_disk f') ∧ dk_since (fs_disk f') = [] ∧ lo_temporary (fs_locals f') = None) ∧
    (untouched (fs_disk f') ∧ is_ret r = false ∧ (fs_dir f' = fs_dir f ∨ fs_dir f' = Some (directory_for f)) ∨
     replaced (fs_disk f') ∧ fs_dir f' = Some (directory_for f) ∧ check_directory (fs_euid f) (directory_for f) = Ret ())) f.
Proof.
  intros Hi Hl Hd0 Hdir0.
  assert (untouched (fs_disk f)) as Hu0.
  { rewrite Hd0. split; [by intros i inode|done|]. apply Forall_forall. intros m Hm. by exists m. }
  apply wp_bind. eapply wp_mono; [|by apply prepare_directory_spec]. intros [[]|e] f1 (Hi1 & Hl1 & Hu1 & Hdir1).
  2:{ split_and!; try done. left. split_and!; [done|done|by left]. }
  apply wp_bind. eapply wp_mono; [|by apply open_directory_spec]. intros [dir|e] f2 (Hdir2 & Hd2 & Hl2 & Hr2).
  2:{ split_and!; try done. left. rewrite Hd2, Hdir2, Hdir1. split_and!; [done|done|by right]. }
  destruct Hr2 as (Hi2 & Hfd2 & Hge & d & Hd & Hcheck). rewrite Hdir1 in Hd. injection Hd as <-.
  rewrite (iv_euid _ Hi1), <- (iv_euid _ Hi) in Hcheck. fold (directory_for f) in Hdir1, Hcheck.
  apply wp_bind, wp_modify, wp_bind. eapply wp_mono; [|apply (create_loop_spec dir)].
  2:{ split_and!; [done|by simpl; rewrite Hl2|done|simpl; by rewrite Hd2]. }
  intros [[fd name]|e] f3 (Hdir3 & Hr3); simpl in Hdir3; rewrite Hdir2, Hdir1 in Hdir3.
  2:{ destruct Hr3 as (Hi3 & _ & _ & Hu3). split_and!; try done. left. split_and!; [done|done|by right]. }
  destruct Hr3 as (i & Hi3 & Hw3 & Hfd3 & Hne3). apply wp_bind, wp_modify.
  eapply wp_mono; [|by eapply fill_spec]. intros r f4 (Hi4 & Hdir4 & Hs4 & Hr4). simpl in Hdir4. rewrite Hdir3 in Hdir4.
  split_and!; [done|done|]. destruct Hs4 as [Hs4|Hs4]; [|by right].
  destruct r as [[]|e]; [right; by destruct (Hr4 eq_refl)|left]. split_and!; [done|done|by right].
Qed.

(** The temporary file is gone or stays behind; the store's stage is the same. *)
Definition unlinked (f f' : Fs) : Prop :=
  inv f' ∧ fs_dir f' = fs_dir f ∧ fs_locals f' = fs_locals f ∧
  (untouched (fs_disk f) → untouched (fs_disk f')) ∧ (replaced (fs_disk f) → replaced (fs_disk f')) ∧
  (lo_temporary (fs_locals f) = None → fs_disk f' = fs_disk f).

Lemma unlink_spec f :
  inv f → wp (unlink_temporary (lo_temporary (fs_locals f))) (λ r f', r = Ret () ∧ unlinked f f') f.
Proof.
  intros Hi. destruct (lo_temporary (fs_locals f)) as [name|] eqn:El; [|by apply wp_ret; split].
  destruct (iv_temporary _ Hi name El) as [Hne Hnone]. apply wp_bind, wp_next_answer. intros a l.
  destruct (failed a); [apply wp_ret; split; [done|]; split_and!; try done; by apply inv_answers|].
  apply wp_modify. cbn [set_answers fs_disk].
  destruct (dk_now (fs_disk f) !! name) as [i|] eqn:Ei; [|split; [done|]; split_and!; try done; by apply inv_answers].
  assert (delete name (dk_now (fs_disk f)) !! filename = dk_now (fs_disk f) !! filename) as E
    by (by rewrite lookup_delete_ne).
  destruct (stage_relink _ (fs_disk f) E) as [Hu Hr]. split; [done|]. split_and!; try done; [|by rewrite El].
  apply inv_disk; [by apply inv_answers|apply stage_relink'; [done|apply Hi]|done| |apply (iv_inodes _ Hi)|].
  - intros m n j [->|Hm]%elem_of_cons Hj; [|by eapply (iv_entries _ Hi)]. simpl in Hj.
    apply lookup_delete_Some in Hj as [_ Hj]. eapply (iv_entries _ Hi); [by left|exact Hj].
  - simpl. rewrite El. intros n Hn Ht. rewrite lookup_delete_ne by congruence. apply (iv_names _ Hi); congruence.
Qed.

Lemma wp_close_unique fd Q f :
  (∀ l fds, fds = (if 0 <=? fd then delete fd (fs_fds f) else fs_fds f) → Q (Ret ()) (set_fds fds (set_answers l f))) →
  wp (close_unique fd) Q f.
Proof.
  intros HQ. unfold close_unique. destruct (0 <=? fd) eqn:E.
  - apply wp_bind, wp_close. intros a l. apply wp_ret. by apply HQ.
  - apply wp_ret. specialize (HQ (fs_answers f) _ eq_refl). by destruct f.
Qed.

Lemma close_unique_negative fd (m : gmap Z descriptor) :
  (∀ k, k < 0 → m !! k = None) → (if 0 <=? fd then delete fd m else m) = delete fd m.
Proof. intros Hm. destruct (Z.leb_spec 0 fd); [done|]. by rewrite delete_id by (apply Hm; lia). Qed.

(** The destructors give the descriptors back and keep the stage. *)
Lemma destroy_spec f :
  inv f → wp destroy_locals (λ _ f', fs_fds f' = fs_fds f0 ∧
    ∃ f1, unlinked f f1 ∧ fs_dir f' = fs_dir f1 ∧ fs_disk f' = fs_disk f1 ∧ fs_past f' = fs_past f1 ∧
      fs_next f' = fs_next f1 ∧ fs_euid f' = fs_euid f1) f.
Proof.
  intros Hi. apply wp_bind, wp_get, wp_bind. eapply wp_mono; [|by apply unlink_spec].
  intros r f1 (-> & Hun). pose proof Hun as (Hi1 & _ & Hl1 & _).
  apply wp_bind, wp_close_unique. intros l1 fds1 E1. apply wp_close_unique. intros l2 fds2 E2. split.
  - simpl in E2 |- *. subst fds1 fds2. rewrite <- (iv_base _ Hi1), Hl1.
    assert (∀ k, k < 0 → fs_fds f1 !! k = None) as Hneg by (intros k Hk; apply inv_no_fd; [done|by left]).
    rewrite !close_unique_negative; [apply delete_delete|done|]. intros k Hk. rewrite close_unique_negative by done.
    apply lookup_delete_None. right. by apply Hneg.
  - by exists f1.
Qed.

(** Descriptors and files are numbered, and names refer to files. *)
Record fs_ok (f : Fs) : Prop := {
  ok_next : 0 ≤ fs_next f;
  ok_fds : ∀ fd, is_Some (fs_fds f !! fd) → 0 ≤ fd < fs_next f;
  ok_inodes : ∀ i, is_Some (dk_inodes (fs_disk f) !! i) → i < fs_next f;
  ok_entries : entries_ok (fs_disk f);
}.

Lemma start_inv : fs_ok f0 → inv (set_locals (mkLocals (-1) (-1) None) f0).
Proof.
  intros [H1 H2 H3 H4].
  assert (fs_fds f0 !! (-1) = None) as Hn.
  { destruct (fs_fds f0 !! (-1)) eqn:E; [|done]. specialize (H2 _ (mk_is_Some _ _ E)). lia. }
  split; simpl; try done.
  - by rewrite !delete_id by (rewrite ?delete_id; done).
  - left. split; [by intros i inode|done|]. apply Forall_forall. intros m Hm. by exists m.
  - by exists [].
  - unfold directory_kept. simpl. auto.
  - intros -> [? ?]. done.
Qed.

(** The whole function, on every path. *)
Definition write_outcome (r : res ()) (f' : Fs) : Prop :=
  fs_ok f' ∧ fs_euid f' = fs_euid f0 ∧ fs_fds f' = fs_fds f0 ∧
  (∃ new, fs_past f' = new ++ fs_past f0 ∧ Forall (λ d, stage d ∧ directory_kept d) (fs_disk f' :: new)) ∧
  (fs_dir f0 = None → is_Some (fs_dir f') → dk_durable (fs_disk f') = false) ∧
  (∃ left : option (list Z), (r = Ret () → left = None) ∧
     ∀ n, n ≠ filename → left ≠ Some n → dk_now (fs_disk f') !! n = dk_now disk0 !! n) ∧
  (r = Ret () → replaced (fs_disk f') ∧ dk_since (fs_disk f') = []) ∧
  (untouched (fs_disk f') ∧ is_ret r = false ∧ (fs_dir f' = fs_dir f0 ∨ fs_dir f' = Some (directory_for f0)) ∨
   replaced (fs_disk f') ∧ fs_dir f' = Some (directory_for f0) ∧
     check_directory (fs_euid f0) (directory_for f0) = Ret ()).

Lemma atomic_write_outcome : fs_ok f0 → wp (fs_atomic_write_file filename contents) write_outcome f0.
Proof.
  intros Hok. pose proof (start_inv Hok) as Hi. unfold wp, fs_atomic_write_file.
  pose proof (write_body_spec _ Hi eq_refl eq_refl eq_refl) as Hb. unfold wp in Hb.
  destruct (write_body _ _ _) as [r f1]. cbn [fst snd] in Hb |- *. destruct Hb as (Hi1 & Hret & Hcase).
  pose proof (destroy_spec f1 Hi1) as Hd. unfold wp in Hd. destruct (destroy_locals f1) as [r' f'].
  cbn [fst snd] in Hd |- *. destruct Hd as (Hfds & f2 & (Hi2 & Hdir2 & Hl2 & Hu & Hr & Hn) & Ed & Ek & Ep & En & Ee).
  rewrite <- Ek in Hu, Hr, Hn.
  split_and!.
  - split; rewrite ?En, ?Ek, ?Hfds; try apply Hi2. intros fd Hfd. apply (iv_fds _ Hi2).
    rewrite <- (iv_base _ Hi2) in Hfd. by apply lookup_delete_is_Some in Hfd as [_ [_ ?]%lookup_delete_is_Some].
  - rewrite Ee. apply Hi2.
  - done.
  - destruct (iv_past _ Hi2) as (new & Hp & Hs). exists new. rewrite Ep. split; [done|]. constructor; [|done].
    rewrite Ek. split; apply Hi2.
  - rewrite Ek, Ed. apply Hi2.
  - exists (lo_temporary (fs_locals f2)). rewrite Hl2. split; [naive_solver|]. rewrite Ek, <- Hl2. apply Hi2.
  - intros E. destruct (Hret E) as (H1 & H2 & H3). rewrite (Hn H3). done.
  - rewrite Ed, Hdir2. destruct Hcase as [(? & ? & ?)|(? & ? & ?)]; [left|right]; naive_solver.
Qed.
End replace.

(** ** The store's view *)

(** The file that the store's name refers to. *)
Definition store_file (filename : list Z) (d : Disk) : option StoreFile :=
  i ← dk_now d !! filename; inode ← dk_inodes d !! i; Some (in_file inode).

(** The disk of CredentialStore.v, for which a missing directory is an empty one. *)
Record represents (filename : list Z) (f : Fs) (w : World) : Prop := {
  rp_euid : fs_euid f = w_euid w;
  rp_file : store_file filename (fs_disk f) = w_file w;
  rp_none : fs_dir f = None → w_file w = None;
  rp_dir : fs_dir f = w_dir w ∨ fs_dir f = None ∧ w_dir w = Some (mkDir true (w_euid w) DIR_MODE);
}.

(** One write of the store, by its fate. *)
Lemma abstract_write contents w flt d :
  d = default (mkDir true (w_euid w) DIR_MODE) (w_dir w) →
  check_directory (w_euid w) d = Ret () →
  ∃ r, atomic_write_file contents (set_faults [flt] w) =
    (r, set_disk (Some d) (if bool_decide (flt = FailBefore) then w_file w
                           else Some (mkFile contents true 1 (w_euid w) FILE_MODE)) (set_faults [] w)) ∧
    (is_ret r = bool_decide (flt = NoFault)).
Proof.
  intros -> Hc. unfold atomic_write_file, prepare_store_directory, open_store_directory, next_fault, st_bind, st_modify.
  destruct w as [? ? ? ? ? [dir|] ? ? ? ? ?]; simpl in *; rewrite Hc; destruct flt; simpl; eexists; split; reflexivity.
Qed.

Lemma abstract_write_refused contents w d :
  d = default (mkDir true (w_euid w) DIR_MODE) (w_dir w) →
  ∃ r l, atomic_write_file contents (set_faults [FailBefore] w) =
    (r, set_disk (Some d) (w_file w) (set_faults l w)) ∧ is_ret r = false.
Proof.
  intros ->. unfold atomic_write_file, prepare_store_directory, open_store_directory, next_fault, st_bind, st_modify.
  destruct w as [? ? ? ? ? [dir|] ? ? ? ? ?]; simpl;
    (destruct (check_directory _ _); simpl; [exists (Throw system_error), []|eexists _, [FailBefore]]; split; reflexivity).
Qed.

Lemma files_kept_store filename f0 d :
  entries_ok (fs_disk f0) → files_kept f0 d → dk_now d !! filename = dk_now (fs_disk f0) !! filename →
  store_file filename d = store_file filename (fs_disk f0).
Proof.
  intros He Hk En. unfold store_file. rewrite En. destruct (dk_now (fs_disk f0) !! filename) as [i|] eqn:Ei; [|done].
  cbn. destruct (He (dk_now (fs_disk f0)) filename i) as [inode Hi]; [by left|done|].
  rewrite (Hk _ _ Hi). by rewrite Hi.
Qed.

(** ** Reading *)

Lemma read_loop_spec read bytes left answers :
  0 ≤ left → len bytes = left →
  let '(r, _) := read_loop read bytes left answers in
  match r with Ret l => l = read ++ bytes | Throw _ => answers ≠ [] end.
Proof.
  assert (∀ answers read bytes left, 0 ≤ left → len bytes = left →
    let '(r, _) := read_loop read bytes left answers in
    match r with Ret l => l = read ++ bytes | Throw _ => answers ≠ [] end) as H; [|by apply H].
  clear. induction answers as [|a answers IH]; intros read bytes left H0 Hl; simpl;
    (destruct (Z.leb_spec left 0); [destruct bytes; [by rewrite app_nil_r|simpl in Hl; lia]|]).
  - rewrite (proj2 (Z.ltb_ge _ _)) by lia. by rewrite take_ge by lia.
  - assert (∀ n, match read_loop (read ++ take n bytes) (drop n bytes) (left - len (take n bytes)) answers with
      | (Ret l, _) => l = read ++ bytes | (Throw _, _) => a :: answers ≠ [] end) as Hstep.
    { intros n. pose proof (IH (read ++ take n bytes) (drop n bytes) (left - len (take n bytes))) as Hn.
      rewrite length_take, length_drop in Hn. rewrite length_take. specialize (Hn ltac:(lia) ltac:(lia)).
      destruct (read_loop _ _ _ _) as [[l|e] ?]; [|done]. by rewrite <- app_assoc, take_drop in Hn. }
    destruct a as [| | |count]; [|specialize (IH read bytes left H0 Hl); by destruct (read_loop _ _ _ _) as [[]]|done|];
      (destruct (len (take _ bytes) =? 0); [done|apply Hstep]).
Qed.

Lemma wp_next_answer_quiet Q f :
  (∀ a l, (fs_answers f = [] → a = Works ∧ l = []) → Q (Ret a) (set_answers l f)) → wp next_answer Q f.
Proof.
  intros HQ. unfold wp, next_answer. destruct f as [? ? ? ? ? ? [|a l] ? ?]; simpl in *; [by apply (HQ Works [])|by apply HQ].
Qed.

(** Nothing but the descriptors, the numbering and the answers change; without answers left,
    every call works. *)
Definition reads_from (f f' : Fs) : Prop :=
  fs_disk f' = fs_disk f ∧ fs_dir f' = fs_dir f ∧ fs_euid f' = fs_euid f ∧ fs_past f' = fs_past f ∧
  (fs_answers f = [] → fs_answers f' = []).

(** [r] is the expected result, or a failure that some call's answer explains. *)
Definition agrees {A} (expected : res A) (f : Fs) (r : res A) : Prop :=
  match r with Ret v => expected = Ret v | Throw _ => fs_answers f = [] → is_ret expected = false end.

Definition fds_fresh (f : Fs) : Prop := ∀ fd, is_Some (fs_fds f !! fd) → fd < fs_next f.

Lemma wp_unique_fd {A} fd (m : ST Fs A) (Q : res A → Fs → Prop) f :
  wp m (λ r f', ∀ l, (fs_answers f' = [] → l = []) → Q r (set_fds (delete fd (fs_fds f')) (set_answers l f'))) f →
  wp (unique_fd fd m) Q f.
Proof.
  unfold wp, unique_fd. destruct (m f) as [r f']. cbn [fst snd]. intros HQ.
  unfold close, st_bind, next_answer, st_modify, st_ret. destruct (fs_answers f') as [|a l] eqn:E; cbn [fst snd].
  - specialize (HQ [] (λ _, eq_refl)). destruct f'. simpl in *. by subst.
  - apply HQ. by intros.
Qed.

(** What the store's view says of the file and the directory. *)
Definition expected_file (euid : Z) (o : option StoreFile) : res (option (list Z)) :=
  match o with
  | None => Ret None
  | Some file => _ ← check_file euid file; Ret (Some (f_contents file))
  end.

Definition expected_read (filename : list Z) (f : Fs) : res (option (list Z)) :=
  match fs_dir f with
  | None => Ret None
  | Some d => _ ← check_directory (fs_euid f) d; expected_file (fs_euid f) (store_file filename (fs_disk f))
  end.

Ltac frame := unfold reads_from, agrees; split_and!; try done.

Lemma read_open_file_spec euid i inode f :
  dk_inodes (fs_disk f) !! i = Some inode →
  wp (read_open_file euid i) (λ r f', reads_from f f' ∧ fs_fds f' = fs_fds f ∧
    agrees (_ ← check_file euid (in_file inode); Ret (f_contents (in_file inode))) f r) f.
Proof.
  intros Hi. apply wp_bind, wp_next_answer_quiet. intros a l Hq. destruct (failed a) eqn:Ea.
  { apply wp_throw. frame; intros E; destruct (Hq E) as [-> ->]; done. }
  apply wp_bind, wp_get. cbn [set_answers fs_disk]. rewrite Hi. apply wp_bind, wp_lift.
  destruct (check_file euid (in_file inode)) as [[]|e]; cbn [mbind res_bind].
  2:{ frame. intros E. by destruct (Hq E). }
  unfold read_all, wp. pose proof (read_loop_spec [] (f_contents (in_file inode)) (len (f_contents (in_file inode))) l
    ltac:(lia) eq_refl) as Hr. cbn [set_answers fs_answers].
  assert (l = [] → (read_loop [] (f_contents (in_file inode)) (len (f_contents (in_file inode))) l).2 = []) as Hnil.
  { intros ->. cbn. destruct (_ <=? 0); [done|]. by destruct (_ <? _). }
  destruct (read_loop _ _ _ l) as [[bytes|e] l']; cbn [fst snd] in *.
  - frame; [|by simpl in Hr; subst]. intros E. simpl. apply Hnil. by destruct (Hq E).
  - frame; intros E; destruct (Hq E) as [_ ->]; [by apply Hnil|done].
Qed.

Lemma read_in_directory_spec filename d f :
  entries_ok (fs_disk f) → fds_fresh f →
  wp (read_in_directory filename d) (λ r f', reads_from f f' ∧ fs_fds f' = fs_fds f ∧
    agrees (_ ← check_directory (fs_euid f) d; expected_file (fs_euid f) (store_file filename (fs_disk f))) f r) f.
Proof.
  intros He Hfr. apply wp_bind, wp_next_answer_quiet. intros a l Hq. destruct (failed a) eqn:Ea.
  { apply wp_throw. frame; intros E; destruct (Hq E) as [-> ->]; done. }
  apply wp_bind, wp_get, wp_bind, wp_lift. cbn [set_answers fs_euid].
  destruct (check_directory (fs_euid f) d) as [[]|e]; cbn [mbind res_bind].
  2:{ frame. intros E. by destruct (Hq E). }
  apply wp_bind, wp_next_answer_quiet. intros a2 l2 Hq2. apply wp_bind, wp_get. cbn [set_answers fs_disk fs_answers] in *.
  assert (fs_answers f = [] → a2 = Works ∧ l2 = []) as Hq' by (intros E; destruct (Hq E) as [_ ->]; by apply Hq2).
  unfold store_file. destruct (dk_now (fs_disk f) !! filename) as [i|] eqn:Ei; cbn [mbind option_bind].
  2:{ destruct (failed a2) eqn:Ea2; [apply wp_throw|apply wp_ret]; frame;
        intros E; destruct (Hq' E) as [-> ->]; done. }
  destruct (failed a2) eqn:Ea2.
  { apply wp_throw. frame; intros E; destruct (Hq' E) as [-> ->]; done. }
  destruct (He (dk_now (fs_disk f)) filename i) as [inode Hin]; [by left|done|].
  rewrite Hin. cbn [mbind option_bind expected_file].
  apply wp_bind. unfold new_fd, wp at 1. cbn [fst snd]. apply wp_bind, wp_unique_fd.
  eapply wp_mono; [|by apply (read_open_file_spec _ i inode)].
  intros r f1 ((H1 & H2 & H3 & H4 & H5) & Hfd & Hag) l3 Hl3. cbn [fs_disk fs_dir fs_euid fs_past fs_answers fs_fds fs_next
    set_next set_fds set_answers] in *.
  assert (delete (fs_next f) (fs_fds f1) = fs_fds f) as Hdel.
  { rewrite Hfd. apply delete_insert_id. destruct (fs_fds f !! fs_next f) eqn:E; [|done].
    specialize (Hfr _ (mk_is_Some _ _ E)). lia. }
  assert (fs_answers f = [] → l3 = []) as Hl by (intros E; apply Hl3, H5; by destruct (Hq' E)).
  destruct r as [bytes|e]; [apply wp_ret|]; frame.
  - unfold agrees in *. destruct (check_file _ _); [|done]. by injection Hag as ->.
  - simpl. intros E. assert (is_ret (_ ← check_file (fs_euid f) (in_file inode); Ret (f_contents (in_file inode))) = false) as Hf.
    { apply Hag. by destruct (Hq' E). }
    by destruct (check_file _ _).
Qed.

Lemma fs_read_spec filename f :
  entries_ok (fs_disk f) → fds_fresh f →
  wp (fs_read_store_file filename) (λ r f', reads_from f f' ∧ fs_fds f' = fs_fds f ∧ agrees (expected_read filename f) f r) f.
Proof.
  intros He Hfr. apply wp_bind, wp_next_answer_quiet. intros a l Hq. apply wp_bind, wp_get.
  unfold expected_read. cbn [set_answers fs_dir]. destruct (fs_dir f) as [d|] eqn:Ed.
  2:{ destruct (failed a) eqn:Ea; [apply wp_throw|apply wp_ret]; frame;
        intros E; destruct (Hq E) as [-> ->]; done. }
  destruct (failed a || negb (dir_isdir d)) eqn:Ea.
  { apply wp_throw. frame; intros E; destruct (Hq E) as [-> ->]; try done.
    simpl in Ea. unfold check_directory. by rewrite Ea. }
  apply wp_bind. unfold new_fd, wp at 1. cbn [fst snd]. apply wp_unique_fd.
  eapply wp_mono; [|apply read_in_directory_spec; [done|]].
  - intros r f1 ((H1 & H2 & H3 & H4 & H5) & Hfd & Hag) l3 Hl3. cbn [fs_disk fs_dir fs_euid fs_past fs_answers fs_fds fs_next
      set_next set_fds set_answers] in *.
    assert (fs_answers f = [] → l3 = []) as Hl by (intros E; apply Hl3, H5; by destruct (Hq E)).
    split_and!; [split_and!; congruence || done| |].
    + rewrite Hfd. apply delete_insert_id. destruct (fs_fds f !! fs_next f) eqn:E; [|done].
      specialize (Hfr _ (mk_is_Some _ _ E)). lia.
    + unfold agrees in *. destruct r; [done|]. intros E. apply Hag. by destruct (Hq E).
  - intros fd Hfd. cbn [fs_fds fs_next set_next set_fds set_answers] in *.
    destruct (decide (fd = fs_next f)) as [->|Hne]; [lia|]. rewrite lookup_insert_ne in Hfd by done.
    specialize (Hfr _ Hfd). lia.
Qed.

(** The reader of CredentialStore.v, without a fault. *)
Lemma abstract_read filename f w :
  represents filename f w →
  let r := (read_store_file (set_faults [] w)).1 in
  is_ret r = is_ret (expected_read filename f) ∧ (∀ v, expected_read filename f = Ret v → r = Ret v).
Proof.
  intros [He Hf Hn Hd]. unfold read_store_file, next_fault, st_bind, expected_read, expected_file. cbn [set_faults w_faults w_dir w_euid w_file].
  rewrite Hf, He. destruct Hd as [<-|[Hnone ->]].
  - destruct (fs_dir f) as [d|]; [|done]. destruct (check_directory _ d); cbn [mbind res_bind]; [|done].
    destruct (w_file w) as [file|]; [|done]. by destruct (check_file _ file).
  - rewrite Hnone, (Hn Hnone). by rewrite check_directory_new.
Qed.

Lemma represents_reads filename f f' w : reads_from f f' → represents filename f w → represents filename f' w.
Proof. intros (E1 & E2 & E3 & _) [H1 H2 H3 H4]. split; congruence || (rewrite ?E1, ?E2; done). Qed.

(** Every outcome of the write is one of the store's. *)
Lemma represents_write filename contents f w r f' :
  fs_ok f → represents filename f w → write_outcome filename contents f r f' →
  ∃ flt r' w', atomic_write_file contents (set_faults [flt] w) = (r', w') ∧ is_ret r' = is_ret r ∧
    represents filename f' w'.
Proof.
  intros Hok [He Hf Hn Hd] (_ & He' & _ & _ & _ & _ & Hret & Hcase).
  set (d := default (mkDir true (w_euid w) DIR_MODE) (w_dir w)).
  assert (directory_for f = d) as Hdf.
  { unfold directory_for, d. rewrite He. destruct Hd as [->|[-> ->]]; done. }
  destruct Hcase as [(Hu & Hthrow & Hdir)|([Hk (i & Hnow & Hin & _)] & Hdir & Hc)].
  - assert (store_file filename (fs_disk f') = w_file w) as Hfile.
    { rewrite <- Hf. apply (files_kept_store filename f); [apply Hok|apply Hu|apply Hu]. }
    destruct (abstract_write_refused contents w d eq_refl) as (r' & l & Hw & Hr').
    eexists FailBefore, r', _. split; [exact Hw|]. split; [congruence|]. split; simpl; [congruence|done|intros E|].
    + destruct Hdir as [E'|E']; rewrite E' in E; [by apply Hn|done].
    + rewrite <- Hdf. destruct Hdir as [-> | ->]; [|by left]. unfold directory_for.
      destruct (fs_dir f); [by left|right]. split; [done|]. simpl. by rewrite He.
  - rewrite Hdf, He in Hc.
    destruct (abstract_write contents w (if is_ret r then NoFault else FailAfter) d eq_refl Hc) as (r' & Hw & Hr').
    eexists _, r', _. split; [exact Hw|]. split; [rewrite Hr'; by destruct (is_ret r)|].
    split; simpl; [congruence| |by rewrite Hdir|left; by rewrite Hdir, Hdf].
    unfold store_file. rewrite Hnow. cbn. rewrite Hin. cbn. unfold new_file. rewrite He. by destruct (is_ret r).
Qed.

(** ** Properties *)

(** C27: Replacing the store survives a crash at any point.  Whatever the calls answer: if the
    machine stops before, after or between any two changes of the disk, then what is found
    under the store's name is what could have been found there before (nothing, where there
    was no directory), or the complete new contents.  After a successful return it is the new
    contents, for certain, provided that the directory itself was on the disk before; when the
    call had to make the directory, nothing puts its name on the disk, and the store can be
    lost with it.  All descriptors are closed on every path; other names in the directory
    refer to what they did, but for at most one temporary file that could not be removed, and
    none after a success. *)
Theorem store_write_crash_safe filename contents f r f' :
  byte_at filename 0 ≠ 46 → fs_ok f → fs_atomic_write_file filename contents f = (r, f') →
  (∃ new, fs_past f' = new ++ fs_past f ∧
     ∀ d c, d ∈ fs_disk f' :: new → survives d filename c →
       (fs_dir f = None ∧ c = None) ∨ survives (fs_disk f) filename c ∨ c = Some contents) ∧
  (r = Ret () → ∀ c, survives (fs_disk f') filename c →
     c = Some contents ∨ c = None ∧ (fs_dir f = None ∨ dk_durable (fs_disk f) = false)) ∧
  (r = Ret () → fs_dir f = None → survives (fs_disk f') filename None) ∧
  fs_fds f' = fs_fds f ∧
  (∃ left : option (list Z), (r = Ret () → left = None) ∧
     ∀ n, n ≠ filename → left ≠ Some n → dk_now (fs_disk f') !! n = dk_now (fs_disk f) !! n).
Proof.
  intros Hn Hok E. pose proof (ok_entries _ Hok) as Hent.
  destruct (wp_run _ _ _ _ _ (atomic_write_outcome filename contents f Hn Hok) E)
    as (_ & _ & Hfds & (new & Hp & Hs) & Hlost & Hleft & Hret & Hcase).
  split_and!; try done.
  - exists new. split; [done|]. intros d c Hd. eapply Forall_forall in Hs as [Hst Hk]; [|exact Hd].
    by apply (stage_crash _ _ f).
  - apply Forall_cons in Hs as [[_ Hk] _]. intros Hr c [[Hnd ->]|(m & Hm & Hc)].
    { right. split; [done|]. destruct (Hk Hnd); auto. }
    left. destruct (Hret Hr) as [[_ (i & H1 & H2 & _)] Hnil]. rewrite Hnil in Hm.
    apply elem_of_cons in Hm as [->|[]%elem_of_nil]. rewrite H1 in Hc. destruct Hc as (inode & bytes & Hi & -> & Hb).
    rewrite H2 in Hi. injection Hi as <-. by rewrite Hb.
  - intros -> Hnone. left. split; [|done]. apply Hlost; [done|].
    destruct Hcase as [(_ & ? & _)|(_ & -> & _)]; [done|by eexists].
Qed.

(** C28: The store's file operations implement the steps that the store was verified with.
    Over a file system that represents the store's disk, every outcome of writing the file is
    an outcome of [atomic_write_file] of CredentialStore.v under some fault, and leads to a
    file system that represents its disk again.  Reading returns what [read_store_file]
    returns there or fails, and fails only where that does when every call works; it changes
    nothing and closes its descriptors. *)
Theorem store_files_refine filename contents f w :
  byte_at filename 0 ≠ 46 → fs_ok f → represents filename f w →
  (∀ r f', fs_atomic_write_file filename contents f = (r, f') →
     fs_ok f' ∧ ∃ flt r' w', atomic_write_file contents (set_faults [flt] w) = (r', w') ∧ is_ret r' = is_ret r ∧
       represents filename f' w') ∧
  (∀ r f', fs_read_store_file filename f = (r, f') →
     represents filename f' w ∧ fs_fds f' = fs_fds f ∧ fs_disk f' = fs_disk f ∧
     (is_ret r → r = (read_store_file (set_faults [] w)).1) ∧
     (fs_answers f = [] → is_ret r = is_ret (read_store_file (set_faults [] w)).1)).
Proof.
  intros Hn Hok Hr. split; intros r f' E.
  - pose proof (wp_run _ _ _ _ _ (atomic_write_outcome filename contents f Hn Hok) E) as Ho.
    split; [apply Ho|]. by eapply represents_write.
  - assert (fds_fresh f) as Hfr by (intros fd Hfd; by apply (ok_fds _ Hok)).
    destruct (wp_run _ _ _ _ _ (fs_read_spec filename f (ok_entries _ Hok) Hfr) E) as (Hf & Hfds & Hag).
    destruct (abstract_read filename f w Hr) as [Ha Hv]. split_and!; try done; [by eapply represents_reads|apply Hf|..].
    + intros Hret. destruct r as [v|]; [|done]. simpl in Hag. by rewrite (Hv _ Hag).
    + intros Hnil. rewrite Ha. destruct r as [v|e]; simpl in Hag; [by rewrite Hag|by rewrite (Hag Hnil)].
Qed.

(** An empty directory, and a write whose calls are interrupted and partial. *)
Definition example_fs : Fs :=
  mkFs (mkDisk ∅ ∅ [] true) (Some (mkDir true 993 DIR_MODE)) 993 ∅ 3 (mkLocals (-1) (-1) None)
    [Works; Works; Works; Works; Interrupted; Partial 2; Works; Interrupted; Works] [Some (seqZ 1 16)] [].
Definition example_fs_world : World :=
  mkWorld ∅ 0 false [] true (Some (mkDir true 993 DIR_MODE)) None 993 0 [] [].

Lemma example_fs_ok : fs_ok example_fs.
Proof.
  split; simpl; [lia|..].
  - intros fd [? H]. by rewrite lookup_empty in H.
  - intros i [? H]. by rewrite lookup_empty in H.
  - intros m n i [->|[]%elem_of_nil]%elem_of_cons H. by apply (lookup_empty_Some (M:=gmap (list Z)) n i) in H.
Qed.

Lemma store_write_crash_safe_witness :
  let '(r, f') := fs_atomic_write_file STORE_FILENAME (lit "store") example_fs in
  r = Ret () ∧ ∀ c, survives (fs_disk f') STORE_FILENAME c → c = Some (lit "store").
Proof.
  assert ((fs_atomic_write_file STORE_FILENAME (lit "store") example_fs).1 = Ret ()) as Er by (vm_compute; reflexivity).
  destruct (fs_atomic_write_file STORE_FILENAME (lit "store") example_fs) as [r f'] eqn:E. cbn [fst] in Er.
  split; [exact Er|].
  destruct (store_write_crash_safe STORE_FILENAME (lit "store") example_fs r f') as (_ & H & _);
    [vm_compute; discriminate|exact example_fs_ok|exact E|].
  intros c Hc. destruct (H Er c Hc) as [->|[_ [?|?]]]; [reflexivity|discriminate..].
Defined.

Lemma store_files_refine_witness :
  represents STORE_FILENAME example_fs example_fs_world ∧
  let '(_, f') := fs_atomic_write_file STORE_FILENAME (lit "store") example_fs in
  let '(r, _) := fs_read_store_file STORE_FILENAME example_fs in
  (∃ w', represents STORE_FILENAME f' w') ∧ r = (read_store_file (set_faults [] example_fs_world)).1.
Proof.
  assert (represents STORE_FILENAME example_fs example_fs_world) as Hr.
  { split; [reflexivity|reflexivity|reflexivity|left; reflexivity]. }
  split; [exact Hr|].
  destruct (store_files_refine STORE_FILENAME (lit "store") example_fs example_fs_world) as [Hw Hrd];
    [vm_compute; discriminate|exact example_fs_ok|exact Hr|].
  assert (is_ret (fs_read_store_file STORE_FILENAME example_fs).1) as Er by (vm_compute; exact I).
  destruct (fs_atomic_write_file STORE_FILENAME (lit "store") example_fs) as [r f'] eqn:E.
  destruct (fs_read_store_file STORE_FILENAME example_fs) as [r2 f2] eqn:E2. cbn [fst] in Er.
  destruct (Hw r f' eq_refl) as (_ & flt & r' & w' & _ & _ & Hrep).
  destruct (Hrd r2 f2 eq_refl) as (_ & _ & _ & H & _).
  split; [exists w'; exact Hrep|exact (H Er)].
Defined.
