(* ===== verification/DebugAgent.v ===== *)
(** * The debug agent (src/client/debug_agent.cpp)

    A second agent, which asks on a terminal: presence by a typed line, a secret by a line
    that is typed while the terminal does not echo.  The file models the standard input with
    its flags, the terminal's settings, and the agent from its registration to its answers. *)
From Stdlib Require Import ZArith Lia.
From stdpp Require Import base list strings.
From S2P Require Import Prelude VerifierProtocol InteractionRegistry AgentService Authorization.
From S2P Require Import ClientTracker Listing AgentClient.

(** ** Standard input *)

(** What will be typed, and the flags of the stream; the end of the list is the end of the
    input. *)
Record Cin := mkCin { ci_chars : list Z; ci_eof : bool; ci_fail : bool }.

Inductive line_end := AtNewline | AtEof | AtLimit.

(** Extraction up to a newline, the end of the input, or [room] characters; the newline is
    extracted, but not stored. *)
Fixpoint extract_line (room : nat) (chars : list Z) {struct chars} : list Z * list Z * line_end :=
  match chars with
  | [] => ([], [], AtEof)
  | c :: rest =>
      if c =? 10 then ([], rest, AtNewline) else
      match room with
      | O => ([], chars, AtLimit)
      | S room =>
          let '(line, rest, how) := extract_line room rest in
          (c :: line, rest, how)
      end
  end.

(** [istream::getline]: the stored characters and [gcount].  A stream that is not good
    extracts nothing; extracting nothing, or not the whole line, is a failure. *)
Definition cin_getline (room : nat) (c : Cin) : list Z * Z * Cin :=
  if ci_eof c || ci_fail c then ([], 0, mkCin (ci_chars c) (ci_eof c) true) else
  let '(line, rest, how) := extract_line room (ci_chars c) in
  let gcount := len line + match how with AtNewline => 1 | _ => 0 end in
  (line, gcount, mkCin rest (match how with AtEof => true | _ => false end)
                   (match how with AtLimit => true | _ => gcount =? 0 end)).

(** [std::getline] on a string has no limit. *)
Definition std_getline (c : Cin) : list Z * Cin :=
  let '(line, _, c') := cin_getline (length (ci_chars c)) c in (line, c').

(** ** The terminal *)

Record termios := mkTermios { c_iflag : Z; c_oflag : Z; c_cflag : Z; c_lflag : Z }.

Definition ECHO : Z := 8.

Definition echoes (t : termios) : bool := Z.testbit (c_lflag t) 3.

(** The answers of [tcgetattr] and [tcsetattr]; with TCSAFLUSH the latter discards what was
    typed and not read. *)
Inductive attr_answer := attr_done (discarded : nat) | attr_failed.

(** What the agent prints, and whether the terminal echoed while a secret was read. *)
Inductive output := Print (text : list Z) | ReadSecret (echo : bool).

(** [db_input] is the [HiddenInput] of the call of [submit_secret], its [original_] and
    [active_].  [db_pipes] has, for each pipe, the answers of [write], [None] when it cannot
    be made; [db_answers] how each method call ends. *)
Record Debug := mkDebug {
  db_generation : Z;
  db_cin : Cin;
  db_termios : termios;
  db_input : option (termios * bool);
  db_attrs : list attr_answer;
  db_pipes : list (option (list write_answer));
  db_answers : list (res ());
  db_calls : list daemon_call;
  db_log : list output;
}.

Definition set_generation (g : Z) (d : Debug) : Debug :=
  mkDebug g (db_cin d) (db_termios d) (db_input d) (db_attrs d) (db_pipes d) (db_answers d) (db_calls d) (db_log d).
Definition set_cin (c : Cin) (d : Debug) : Debug :=
  mkDebug (db_generation d) c (db_termios d) (db_input d) (db_attrs d) (db_pipes d) (db_answers d) (db_calls d) (db_log d).
Definition set_termios (t : termios) (d : Debug) : Debug :=
  mkDebug (db_generation d) (db_cin d) t (db_input d) (db_attrs d) (db_pipes d) (db_answers d) (db_calls d) (db_log d).
Definition set_input (i : option (termios * bool)) (d : Debug) : Debug :=
  mkDebug (db_generation d) (db_cin d) (db_termios d) i (db_attrs d) (db_pipes d) (db_answers d) (db_calls d) (db_log d).
Definition set_attrs (l : list attr_answer) (d : Debug) : Debug :=
  mkDebug (db_generation d) (db_cin d) (db_termios d) (db_input d) l (db_pipes d) (db_answers d) (db_calls d) (db_log d).
Definition set_pipes (l : list (option (list write_answer))) (d : Debug) : Debug :=
  mkDebug (db_generation d) (db_cin d) (db_termios d) (db_input d) (db_attrs d) l (db_answers d) (db_calls d) (db_log d).
Definition record_call (call : daemon_call) (answers : list (res ())) (d : Debug) : Debug :=
  mkDebug (db_generation d) (db_cin d) (db_termios d) (db_input d) (db_attrs d) (db_pipes d) answers
    (db_calls d ++ [call]) (db_log d).
Definition log (o : output) (d : Debug) : Debug :=
  mkDebug (db_generation d) (db_cin d) (db_termios d) (db_input d) (db_attrs d) (db_pipes d) (db_answers d)
    (db_calls d) (db_log d ++ [o]).

Definition print (text : string) : ST Debug () := st_modify (log (Print (lit text))).

Definition next_attr : ST Debug attr_answer := λ d,
  match db_attrs d with [] => (Ret (attr_done 0), d) | a :: l => (Ret a, set_attrs l d) end.

(** [tcsetattr] with TCSAFLUSH: whether it worked. *)
Definition tcsetattr (t : termios) : ST Debug bool :=
  let! a := next_attr in
  match a with
  | attr_failed => st_ret false
  | attr_done discarded =>
      let! _ := st_modify (λ d, let c := db_cin d in
        set_termios t (set_cin (mkCin (drop discarded (ci_chars c)) (ci_eof c) (ci_fail c)) d)) in
      st_ret true
  end.

(** A method call; one without an answer in the list succeeds. *)
Definition call_daemon (call : daemon_call) : ST Debug () := λ d,
  match db_answers d with
  | [] => (Ret (), record_call call [] d)
  | a :: l => (a, record_call call l d)
  end.

(** ** [HiddenInput] *)

Definition HiddenInput_new : ST Debug () :=
  let! a := next_attr in
  match a with
  | attr_failed => st_throw system_error
  | attr_done _ =>
      let! d := st_get in
      let original := db_termios d in
      let hidden := mkTermios (c_iflag original) (c_oflag original) (c_cflag original)
                      (Z.land (c_lflag original) (u32 (Z.lnot ECHO))) in
      let! ok := tcsetattr hidden in
      if ok then st_modify (set_input (Some (original, true))) else st_throw system_error
  end.

Definition restore : ST Debug bool :=
  let! d := st_get in
  match db_input d with
  | Some (original, true) =>
      let! ok := tcsetattr original in
      if ok then let! _ := st_modify (set_input (Some (original, false))) in st_ret true
      else st_ret false
  | _ => st_ret true
  end.

(** The buffer holds MAX_SECRET_SIZE + 2 characters, the last one for the terminator. *)
Definition secret_room : nat := Z.to_nat (MAX_SECRET_SIZE + 1).

Definition hidden_read : ST Debug (list Z) :=
  let! d := st_get in
  let '(stored, count, c) := cin_getline secret_room (db_cin d) in
  let! _ := st_modify (λ d, log (ReadSecret (echoes (db_termios d))) (set_cin c d)) in
  if ci_fail c then st_throw runtime_error else
  if count <=? 0 then st_throw runtime_error else
  let size := count - 1 in
  if MAX_SECRET_SIZE <? size then st_throw runtime_error else
  let! restored := restore in
  if negb restored then st_throw runtime_error else
  let! _ := st_modify (log (Print [10])) in
  st_ret (take (Z.to_nat size) stored).

(** The scope of a [HiddenInput]: its destructor restores the terminal. *)
Definition with_hidden_input {A} (m : ST Debug A) : ST Debug A :=
  let! _ := HiddenInput_new in
  λ d, let '(r, d) := m d in
       (r, set_input None (restore d).2).

(** ** Answers *)

Definition debug_cancel (generation request_id : Z) : ST Debug () :=
  call_daemon (CallCancel generation request_id).

Definition display_message (state operation relying_party_id : list Z) : list Z :=
  let target := match relying_party_id with [] => [] | _ => lit " for " ++ relying_party_id end in
  if decide (state = lit "presence_required") then lit "User presence required" ++ target else
  if decide (state = lit "presence_approved") then lit "User presence approved" ++ target else
  if decide (state = lit "presence_denied") then lit "User presence denied" ++ target else
  if decide (state = lit "verification_started") then lit "User verification started" ++ target else
  if decide (state = lit "verification_information") then lit "User verification information" ++ target else
  if decide (state = lit "verification_error") then lit "User verification needs attention" ++ target else
  if decide (state = lit "secret_required") then lit "A verification secret is required" ++ target else
  if decide (state = lit "verification_succeeded") then lit "User verification succeeded" ++ target else
  if decide (state = lit "verification_failed") then lit "User verification failed" ++ target else
  if decide (state = lit "cancelled") then lit "Operation was cancelled" ++ target else
  if decide (state = lit "timed_out") then lit "Operation timed out" ++ target else
  lit "State " ++ state ++ lit " during " ++ operation ++ target.

(** What a response line asks for. *)
Definition says (words : list string) (line : list Z) : bool :=
  existsb (λ w, bool_decide (line = lit w)) words.

Definition debug_respond_to_presence (generation request_id : Z) : ST Debug () :=
  let! _ := print "Allow this operation? [y/N/cancel] " in
  let! d := st_get in
  let '(line, c) := std_getline (db_cin d) in
  let! _ := st_modify (set_cin c) in
  let response := if ci_fail c then [] else line in
  if says ["c"; "cancel"] response then debug_cancel generation request_id else
  let approved := says ["y"; "yes"] response in
  call_daemon (CallRespond generation request_id approved).

(** [pipe2] and the loop that fills the pipe: its contents. *)
Definition fill_pipe (secret : list Z) : ST Debug (list Z) :=
  let! d := st_get in
  match db_pipes d with
  | Some answers :: pipes =>
      let! _ := st_modify (set_pipes pipes) in
      st_lift (write_all [] secret answers)
  | None :: pipes => let! _ := st_modify (set_pipes pipes) in st_throw system_error
  | [] => st_throw system_error
  end.

Definition debug_submit_secret (generation request_id prompt_id : Z) : ST Debug () :=
  let! _ := print "Secret: " in
  with_hidden_input (
    let! secret := hidden_read in
    let! pipe := fill_pipe secret in
    call_daemon (CallSubmit generation request_id prompt_id pipe)).

(** ** [main] *)

(** The signal handler: exceptions of the two answers end in it.  Of an error's description
    only the prefix is kept in what is printed. *)
Definition on_state_signal (s : Signal) : ST Debug () :=
  let! d := st_get in
  let generation := db_generation d in
  if negb (sg_generation s =? generation) then st_ret () else
  let! _ := st_modify (log (Print (lit "D-Bus state: " ++ sg_state s ++ lit " [request " ++
    to_string (sg_requestId s) ++ lit "] (" ++ sg_operation s ++ lit ")" ++ [10] ++
    display_message (sg_state s) (sg_operation s) (sg_relyingPartyId s) ++ [10]))) in
  let! _ := match sg_message s with [] => st_ret () | m => st_modify (log (Print (m ++ [10]))) end in
  if decide (sg_state s = lit "presence_required") then
    st_catch (debug_respond_to_presence generation (sg_requestId s))
      (λ _, print "Presence response failed: ")
  else if decide (sg_state s = lit "secret_required") then
    st_catch (debug_submit_secret generation (sg_requestId s) (sg_promptId s))
      (λ _, let! _ := print "Password submission failed: " in
            st_catch (debug_cancel generation (sg_requestId s)) (λ _, st_ret ()))
  else st_ret ().

Fixpoint handle_signals (signals : list Signal) : ST Debug () :=
  match signals with
  | [] => st_ret ()
  | s :: signals => let! _ := on_state_signal s in handle_signals signals
  end.

(** [connected]: the connection and the proxy; [registered]: the answer of RegisterAgent;
    [signals]: what arrives until the event loop ends, and how it ends.  A signal that arrives
    during the registration is handled in the loop, there is only one thread. *)
Definition debug_main (connected : res ()) (registered : res Z) (signals : list Signal) (ended : res ())
    : ST Debug Z :=
  st_catch (
    let! _ := st_lift connected in
    let! generation := st_lift registered in
    let! _ := st_modify (set_generation generation) in
    if generation =? 0 then st_throw runtime_error else
    let! _ := st_modify (log (Print (lit "Registered vAuth UI agent generation " ++ to_string generation))) in
    let! _ := handle_signals signals in
    let! _ := st_lift ended in
    st_ret 0)
  (λ _, let! _ := print "vauth-agent-debug: " in st_ret 1).

(** ** Lines *)

Lemma extract_line_spec room chars line rest how :
  extract_line room chars = (line, rest, how) →
  10 ∉ line ∧ (length line ≤ room)%nat ∧
  match how with
  | AtNewline => chars = line ++ 10 :: rest
  | AtEof => chars = line ∧ rest = []
  | AtLimit => chars = line ++ rest ∧ length line = room
  end.
Proof.
  revert room line rest how. induction chars as [|c chars IH]; intros room line rest how E; simpl in E.
  - injection E as <- <- <-. split_and!; [apply not_elem_of_nil|simpl; lia|done|done].
  - destruct (Z.eqb_spec c 10) as [->|Hc].
    { injection E as <- <- <-. split_and!; [apply not_elem_of_nil|simpl; lia|done]. }
    destruct room as [|room].
    { injection E as <- <- <-. split_and!; [apply not_elem_of_nil|done|done|done]. }
    destruct (extract_line room chars) as [[l rest'] how'] eqn:El. injection E as <- <- <-.
    destruct (IH _ _ _ _ El) as (Hn & Hl & H). rewrite elem_of_cons. split_and!; [naive_solver|simpl; lia|].
    destruct how'; simpl; [by rewrite H|destruct H as [-> ->]; done|destruct H as [-> <-]; done].
Qed.

Lemma extract_line_newline room line rest :
  10 ∉ line → (length line ≤ room)%nat → extract_line room (line ++ 10 :: rest) = (line, rest, AtNewline).
Proof.
  revert room. induction line as [|c line IH]; intros room Hn Hl; simpl; [done|].
  apply not_elem_of_cons in Hn as [Hc Hn]. rewrite (proj2 (Z.eqb_neq c 10)) by done.
  simpl in Hl. destruct room as [|room]; [lia|]. by rewrite IH by (done || lia).
Qed.

Lemma extract_line_eof room line :
  10 ∉ line → (length line ≤ room)%nat → extract_line room line = (line, [], AtEof).
Proof.
  revert room. induction line as [|c line IH]; intros room Hn Hl; simpl; [done|].
  apply not_elem_of_cons in Hn as [Hc Hn]. rewrite (proj2 (Z.eqb_neq c 10)) by done.
  simpl in Hl. destruct room as [|room]; [lia|]. by rewrite IH by (done || lia).
Qed.

Definition good (c : Cin) : Prop := ci_eof c = false ∧ ci_fail c = false.

(** [line] is what was typed up to the first newline or the end of the input. *)
Definition line_typed (c : Cin) (line : list Z) : Prop :=
  good c ∧ 10 ∉ line ∧ (ci_chars c = line ∨ ∃ rest, ci_chars c = line ++ 10 :: rest).

Lemma first_line_unique (l l' : list Z) chars :
  10 ∉ l → 10 ∉ l' → (chars = l ∨ ∃ rest, chars = l ++ 10 :: rest) →
  (chars = l' ∨ ∃ rest, chars = l' ++ 10 :: rest) → l = l'.
Proof.
  intros Hl Hl' H H'.
  assert (∀ l : list Z, 10 ∉ l → (chars = l ∨ ∃ rest, chars = l ++ 10 :: rest) →
    (extract_line (length chars) chars).1.1 = l) as Hx.
  { intros x Hx [->|[rest ->]].
    - by rewrite extract_line_eof by done.
    - by rewrite extract_line_newline by (done || rewrite length_app; lia). }
  by rewrite <- (Hx l), <- (Hx l').
Qed.

(** A response that is not empty is the line that was typed. *)
Lemma std_getline_spec c :
  let '(line, c') := std_getline c in
  ∀ w, w ≠ [] → 10 ∉ w → (if ci_fail c' then [] else line) = w ↔ line_typed c w.
Proof.
  unfold std_getline, cin_getline, line_typed, good.
  destruct (ci_eof c || ci_fail c) eqn:Eg.
  { intros w Hw Hn. simpl. split; [done|]. intros [[H1 H2] _]. by rewrite H1, H2 in Eg. }
  apply orb_false_iff in Eg as [He Hf].
  destruct (extract_line _ (ci_chars c)) as [[line rest] how] eqn:El.
  destruct (extract_line_spec _ _ _ _ _ El) as (Hn & Hl & H).
  destruct how; cbn [ci_fail]; intros w Hw Hnw.
  - rewrite (proj2 (Z.eqb_neq _ 0)) by lia. split.
    + intros <-. split_and!; try done. right. by exists rest.
    + intros (_ & _ & Hc). eapply first_line_unique; eauto.
  - destruct H as [Hc ->]. split.
    + destruct (len line + 0 =? 0); [by intros <-|]. intros <-. split_and!; try done. by left.
    + intros (_ & _ & Hw'). assert (line = w) as ->.
      { apply (first_line_unique line w (ci_chars c)); try done. by left. }
      rewrite (proj2 (Z.eqb_neq _ 0)); [done|]. destruct w; simpl; [done|lia].
  - destruct H as [Hc Hlen]. rewrite Hc, length_app in Hlen. assert (rest = []) as -> by (destruct rest; [done|simpl in Hlen; lia]).
    rewrite app_nil_r in Hc. rewrite Hc, extract_line_eof in El by done. by injection El.
Qed.

Lemma std_getline_line c : 10 ∉ (std_getline c).1.
Proof.
  unfold std_getline, cin_getline. destruct (ci_eof c || ci_fail c); [apply not_elem_of_nil|].
  destruct (extract_line _ _) as [[line rest] how] eqn:E. apply extract_line_spec in E as [Hn _]. exact Hn.
Qed.

(** ** The terminal's settings *)

Definition is_done (a : attr_answer) : Prop := a ≠ attr_failed.

(** A step that reads and writes the settings only; it may discard what was typed. *)
Record terminal_only (d d' : Debug) : Prop := {
  to_generation : db_generation d' = db_generation d;
  to_pipes : db_pipes d' = db_pipes d;
  to_answers : db_answers d' = db_answers d;
  to_calls : db_calls d' = db_calls d;
  to_log : db_log d' = db_log d;
  to_flags : ci_eof (db_cin d') = ci_eof (db_cin d) ∧ ci_fail (db_cin d') = ci_fail (db_cin d);
  to_chars : ∃ k, ci_chars (db_cin d') = drop k (ci_chars (db_cin d));
  to_attrs : Forall is_done (db_attrs d) → Forall is_done (db_attrs d');
  to_default : db_attrs d = [] → db_attrs d' = [] ∧ ci_chars (db_cin d') = ci_chars (db_cin d);
}.

#[global] Instance terminal_only_preorder : PreOrder terminal_only.
Proof.
  split.
  - intros d. split; try done. by exists 0%nat.
  - intros d1 d2 d3 [? ? ? ? ? [? ?] [k Hk] Ha Hd] [? ? ? ? ? [? ?] [k' Hk'] Ha' Hd']. split; try congruence.
    + split; congruence.
    + exists (k + k')%nat. by rewrite Hk', Hk, drop_drop.
    + auto.
    + intros [? ?]%Hd. destruct Hd' as [? ?]; [done|]. split; congruence.
Qed.

Lemma next_attr_spec d :
  wp next_attr (λ r d', terminal_only d d' ∧ db_termios d' = db_termios d ∧ db_input d' = db_input d ∧
    ∃ a, r = Ret a ∧ (Forall is_done (db_attrs d) → is_done a) ∧ (db_attrs d = [] → a = attr_done 0)) d.
Proof.
  unfold wp, next_attr. destruct (db_attrs d) as [|a l] eqn:E; simpl; rewrite ?E.
  - split_and!; [reflexivity|done|done|]. eexists. by split_and!.
  - split_and!; [|done|done|].
    + split; simpl; rewrite ?E; try done; [by exists 0%nat|]. by intros [? ?]%Forall_cons.
    + exists a. split_and!; [done| |done]. by intros [? ?]%Forall_cons.
Qed.

Lemma tcsetattr_spec t d :
  wp (tcsetattr t) (λ r d', terminal_only d d' ∧ db_input d' = db_input d ∧ ∃ b, r = Ret b ∧
    db_termios d' = (if b then t else db_termios d) ∧ (Forall is_done (db_attrs d) → b = true)) d.
Proof.
  unfold tcsetattr. apply wp_bind. eapply wp_mono, next_attr_spec. simpl.
  intros r d1 (Ho & Ht & Hi & a & -> & Ha & H0). destruct a as [k|].
  - apply wp_bind, wp_modify, wp_ret. split_and!; [|done|].
    + destruct Ho as [? ? ? ? ? ? [j Hj] ? Hd]. split; simpl; try done.
      * exists (j + k)%nat. by rewrite Hj, drop_drop.
      * intros E. destruct (Hd E) as [? ->]. specialize (H0 E). injection H0 as ->. by rewrite drop_0.
    + exists true. by split_and!.
  - apply wp_ret. split_and!; try done. exists false. split_and!; try done. intros H. by destruct (Ha H).
Qed.

Lemma echo_off lflag : Z.testbit (Z.land lflag (u32 (Z.lnot ECHO))) 3 = false.
Proof. rewrite Z.land_spec. change (Z.testbit (u32 (Z.lnot ECHO)) 3) with false. apply andb_false_r. Qed.

Lemma HiddenInput_spec d :
  wp HiddenInput_new (λ r d', terminal_only d d' ∧
    match r with
    | Ret _ => db_input d' = Some (db_termios d, true) ∧ echoes (db_termios d') = false
    | Throw _ => db_termios d' = db_termios d ∧ db_input d' = db_input d ∧ ¬ Forall is_done (db_attrs d)
    end) d.
Proof.
  unfold HiddenInput_new. apply wp_bind. eapply wp_mono, next_attr_spec. simpl.
  intros r d1 (Ho & Ht & Hi & a & -> & Ha & _). destruct a as [k|]; [|apply wp_throw; split_and!; try done].
  - apply wp_bind, wp_get, wp_bind. eapply wp_mono, tcsetattr_spec. simpl.
    intros r d2 (Ho2 & Hi2 & b & -> & Ht2 & Hb). assert (terminal_only d d2) as Ho' by (by etrans).
    destruct b; [apply wp_modify|apply wp_throw; split_and!; [done|congruence|congruence|]].
    + split_and!; simpl; [|by rewrite Ht|rewrite Ht2; apply echo_off].
      etrans; [exact Ho'|]. split; try done. by exists 0%nat.
    + intros H. by apply (to_attrs _ _ Ho), Hb in H.
  - intros H. by destruct (Ha H).
Qed.

(** The terminal is set back, or the last attempt to do so failed. *)
Definition input_ok (original : termios) (d : Debug) : Prop :=
  ∃ active, db_input d = Some (original, active) ∧ (active = false → db_termios d = original).

Lemma restore_spec original d :
  input_ok original d →
  wp restore (λ r d', terminal_only d d' ∧ input_ok original d' ∧ ∃ b, r = Ret b ∧
    (b = true → db_termios d' = original ∧ db_input d' = Some (original, false)) ∧
    (Forall is_done (db_attrs d) → b = true)) d.
Proof.
  intros (active & Hi & Ht). unfold restore. apply wp_bind, wp_get. rewrite Hi. destruct active.
  - apply wp_bind. eapply wp_mono, tcsetattr_spec. simpl. intros r d1 (Ho & Hi1 & b & -> & Ht1 & Hb).
    destruct b; [apply wp_bind, wp_modify|]; apply wp_ret; split_and!.
    + etrans; [exact Ho|]. split; try done. by exists 0%nat.
    + by exists false.
    + by exists true.
    + done.
    + exists true. split; [congruence|done].
    + exists false. by split_and!.
  - apply wp_ret. split_and!; [reflexivity|by exists false|]. exists true. split_and!; try done. intros _. by split; [apply Ht|].
Qed.

(** ** Answers on the terminal *)

(** Once the end of the input was met or a read failed, nothing is read any more. *)
Definition stuck (c : Cin) : Prop := ci_eof c = true ∨ ci_fail c = true.

Lemma stuck_good c : stuck c → good c → False.
Proof. intros [?|?] [? ?]; congruence. Qed.

(** What every step of the agent keeps. *)
Record keeps (d d' : Debug) : Prop := {
  k_generation : db_generation d' = db_generation d;
  k_attrs : Forall is_done (db_attrs d) → Forall is_done (db_attrs d');
  k_stuck : stuck (db_cin d) → stuck (db_cin d');
  k_log : ReadSecret true ∉ db_log d → ReadSecret true ∉ db_log d';
}.

#[global] Instance keeps_preorder : PreOrder keeps.
Proof.
  split; [by intros d; split|]. intros d1 d2 d3 [? ? ? ?] [? ? ? ?]. split; auto. congruence.
Qed.

Lemma terminal_keeps d d' : terminal_only d d' → keeps d d'.
Proof.
  intros [? ? ? ? Hl [He Hf] ? ? ?]. split; [done|done| |by rewrite Hl]. unfold stuck. by rewrite He, Hf.
Qed.

Lemma log_keeps o d : o ≠ ReadSecret true → keeps d (log o d).
Proof. intros Ho. split; try done. simpl. rewrite elem_of_app, list_elem_of_singleton. naive_solver. Qed.

Lemma cin_getline_stuck room c : let '(_, _, c') := cin_getline room c in stuck c → stuck c' ∧ ci_fail c' = true.
Proof.
  unfold cin_getline. destruct (ci_eof c || ci_fail c) eqn:E; [simpl; by intros; split; [right|]|].
  apply orb_false_iff in E as [He Hf]. destruct (extract_line _ _) as [[? ?] ?]. intros [?|?]; congruence.
Qed.

(** A secret as it is understood: the line without its newline -- or, when the input ends
    instead, without its last character. *)
Definition secret_line (c : Cin) (secret : list Z) : Prop :=
  good c ∧ 10 ∉ secret ∧ len secret ≤ MAX_SECRET_SIZE ∧
  ((∃ rest, ci_chars c = secret ++ 10 :: rest) ∨ ∃ last, ci_chars c = secret ++ [last]).

Lemma getline_secret room c :
  let '(stored, count, c') := cin_getline room c in
  ci_fail c' = false → 0 < count → count - 1 ≤ MAX_SECRET_SIZE →
  secret_line c (take (Z.to_nat (count - 1)) stored).
Proof.
  unfold cin_getline. destruct (ci_eof c || ci_fail c) eqn:E; [done|]. apply orb_false_iff in E.
  destruct (extract_line room (ci_chars c)) as [[line rest] how] eqn:El.
  destruct (extract_line_spec _ _ _ _ _ El) as (Hn & _ & H). destruct how; cbn [ci_fail]; intros Hf Hc Hs; [..|done].
  - rewrite take_ge by lia. split_and!; [done|done|lia|]. left. by exists rest.
  - destruct H as [Hch ->]. destruct line as [|x line _] using rev_ind; [simpl in Hc; lia|].
    rewrite length_app in Hs |- *. simpl in Hs |- *.
    replace (Z.to_nat (Z.of_nat (length line + 1) + 0 - 1)) with (length line) by lia. rewrite take_app_length.
    rewrite not_elem_of_app in Hn. split_and!; [done|apply Hn|lia|]. right. by exists x.
Qed.

Lemma hidden_read_spec original d :
  input_ok original d → echoes (db_termios d) = false →
  wp hidden_read (λ r d', keeps d d' ∧ input_ok original d' ∧ db_calls d' = db_calls d ∧
    match r with Ret secret => secret_line (db_cin d) secret | Throw _ => True end) d.
Proof.
  intros Hi He. unfold hidden_read. apply wp_bind, wp_get.
  pose proof (cin_getline_stuck secret_room (db_cin d)) as Hst.
  pose proof (getline_secret secret_room (db_cin d)) as Hsec.
  destruct (cin_getline _ (db_cin d)) as [[stored count] c]. apply wp_bind, wp_modify.
  set (d1 := log _ _). assert (keeps d d1) as Hk.
  { split; simpl; [done|done|naive_solver|]. rewrite He, elem_of_app, list_elem_of_singleton. naive_solver. }
  assert (input_ok original d1) as Hi1 by done.
  destruct (ci_fail c) eqn:Ef; [by apply wp_throw|]. destruct (Z.leb_spec count 0); [by apply wp_throw|].
  destruct (Z.ltb_spec MAX_SECRET_SIZE (count - 1)); [by apply wp_throw|].
  apply wp_bind. eapply wp_mono, (restore_spec original); [|done].
  intros r d2 (Ho & Hi2 & b & -> & Hb & _). assert (keeps d d2) by (etrans; [exact Hk|by apply terminal_keeps]).
  assert (db_calls d2 = db_calls d) by (apply Ho). destruct b; simpl; [|by apply wp_throw].
  apply wp_bind, wp_modify, wp_ret. split_and!; [|done|done|by apply Hsec].
  etrans; [done|]. by apply log_keeps.
Qed.

Lemma call_daemon_spec call d :
  wp (call_daemon call) (λ _ d', keeps d d' ∧ db_termios d' = db_termios d ∧ db_input d' = db_input d ∧
    db_calls d' = db_calls d ++ [call]) d.
Proof. unfold wp, call_daemon. by destruct (db_answers d). Qed.

Lemma fill_pipe_spec secret d :
  wp (fill_pipe secret) (λ r d', keeps d d' ∧ db_termios d' = db_termios d ∧ db_input d' = db_input d ∧
    db_calls d' = db_calls d ∧ match r with Ret pipe => pipe = secret | Throw _ => True end) d.
Proof.
  unfold fill_pipe. apply wp_bind, wp_get. destruct (db_pipes d) as [|[answers|] l]; [by apply wp_throw|..];
    apply wp_bind, wp_modify; [apply wp_lift|by apply wp_throw].
  split_and!; try done. destruct (write_all [] secret answers) eqn:E; [|done]. by apply write_all_ret in E.
Qed.

Lemma wp_hidden_input {A} (m : ST Debug A) Q d :
  wp HiddenInput_new (λ r d1, match r with
    | Ret _ => wp m (λ r d2, Q r (set_input None (restore d2).2)) d1
    | Throw e => Q (Throw e) d1
    end) d → wp (with_hidden_input m) Q d.
Proof.
  intros H. apply wp_bind. eapply wp_mono, H. intros [u|e] d1 H1; [|done].
  unfold wp in *. by destruct (m d1) as [r d2].
Qed.

Lemma hidden_input_scope original d d2 :
  input_ok original d2 → keeps d d2 →
  let d' := set_input None (restore d2).2 in
  keeps d d' ∧ db_input d' = None ∧ db_calls d' = db_calls d2 ∧
  (Forall is_done (db_attrs d) → db_termios d' = original).
Proof.
  intros Hi Hk. destruct (restore_spec original d2 Hi) as (Ho & _ & b & _ & Hb & Hd). simpl.
  apply terminal_keeps in Ho as Hk2. split_and!; [|done|apply Ho|].
  - etrans; [exact Hk|]. etrans; [exact Hk2|]. by split.
  - intros H. by apply Hb, Hd, Hk.
Qed.

(** The characters from the [k]-th on. *)
Definition after (k : nat) (c : Cin) : Cin := mkCin (drop k (ci_chars c)) (ci_eof c) (ci_fail c).

(** What submitting a secret comes to: no call, or one with the secret that was typed. *)
Definition submitted (g id prompt : Z) (d : Debug) (r : res ()) (d' : Debug) : Prop :=
  is_ret r = false ∧ db_calls d' = db_calls d ∨
  ∃ secret k, db_calls d' = db_calls d ++ [CallSubmit g id prompt secret] ∧
    secret_line (after k (db_cin d)) secret.

Definition submit_outcome (g id prompt : Z) (d : Debug) (r : res ()) (d' : Debug) : Prop :=
  keeps d d' ∧ db_input d' = None ∧ (Forall is_done (db_attrs d) → db_termios d' = db_termios d) ∧
  submitted g id prompt d r d'.

Lemma submit_end g id prompt d d2 r :
  keeps d d2 → input_ok (db_termios d) d2 → submitted g id prompt d r d2 →
  submit_outcome g id prompt d r (set_input None (restore d2).2).
Proof.
  intros Hk Hi Hs. destruct (hidden_input_scope (db_termios d) d d2 Hi Hk) as (? & ? & Hc & ?).
  unfold submit_outcome, submitted. rewrite Hc. by split_and!.
Qed.

Lemma submit_spec g id prompt d :
  db_input d = None → wp (debug_submit_secret g id prompt) (submit_outcome g id prompt d) d.
Proof.
  intros Hn. unfold debug_submit_secret, print. apply wp_bind, wp_modify.
  set (d0 := log _ d). assert (keeps d d0) as Hk0 by by apply log_keeps.
  apply wp_hidden_input. eapply wp_mono, HiddenInput_spec. intros [u|e] d1 [Ho H1].
  2: { destruct H1 as (Ht & Hi & Hd). apply terminal_keeps in Ho as Hk. split_and!; [by etrans|by rewrite Hi|done|].
       left. split; [done|]. apply Ho. }
  destruct H1 as [Hi He]. assert (keeps d d1) as Hk by (etrans; [exact Hk0|by apply terminal_keeps]).
  assert (input_ok (db_termios d) d1) as Hi1 by (by exists true).
  assert (db_calls d1 = db_calls d) as Hc by apply Ho.
  apply wp_bind. eapply wp_mono, (hidden_read_spec (db_termios d)); [|done..].
  intros [secret|e] d2 (Hk2 & Hi2 & Hc2 & Hs);
    [|apply submit_end; [by etrans|done|left; split; [done|congruence]]].
  apply wp_bind. eapply wp_mono, fill_pipe_spec. intros [pipe|e] d3 (Hk3 & Ht3 & Hi3 & Hc3 & Hp).
  2: { apply submit_end; [etrans; [done|by etrans]|unfold input_ok; by rewrite Ht3, Hi3|left; split; [done|congruence]]. }
  subst pipe. eapply wp_mono, call_daemon_spec. intros r d4 (Hk4 & Ht4 & Hi4 & Hc4). apply submit_end.
  - etrans; [done|]. etrans; [exact Hk2|]. by etrans.
  - unfold input_ok. by rewrite Ht4, Hi4, Ht3, Hi3.
  - right. destruct Ho as [_ _ _ _ _ [He1 Hf1] [k Hch] _ _]. exists secret, k. split; [congruence|].
    unfold secret_line, good, after in *. cbn [ci_eof ci_fail ci_chars]. simpl in He1, Hf1, Hch.
    by rewrite <- He1, <- Hf1, <- Hch.
Qed.

Definition typed (c : Cin) (words : list string) : Prop := ∃ w, w ∈ words ∧ line_typed c (lit w).

Lemma says_typed c words :
  (∀ w, w ∈ words → lit w ≠ [] ∧ 10 ∉ lit w) →
  let '(line, c') := std_getline c in
  says words (if ci_fail c' then [] else line) = true ↔ typed c words.
Proof.
  intros Hw. pose proof (std_getline_spec c) as H. destruct (std_getline c) as [line c'].
  unfold says, typed. rewrite existsb_exists. apply exist_proper. intros w. rewrite list_elem_of_In.
  rewrite bool_decide_eq_true. split; intros [Hin E]; (split; [done|]);
    destruct (Hw w) as [? ?]; try (by apply list_elem_of_In); by apply H.
Qed.

Lemma word_ok (words : list string) :
  forallb (λ w, negb (bool_decide (lit w = [])) && negb (bool_decide (10 ∈ lit w))) words = true →
  ∀ w, w ∈ words → lit w ≠ [] ∧ 10 ∉ lit w.
Proof.
  rewrite forallb_forall. intros H w Hw%list_elem_of_In. apply H in Hw.
  apply andb_true_iff in Hw as [H1 H2]. rewrite negb_true_iff, bool_decide_eq_false in H1, H2. done.
Qed.

Lemma presence_spec g id d :
  wp (debug_respond_to_presence g id) (λ _ d', keeps d d' ∧ db_termios d' = db_termios d ∧
    db_input d' = db_input d ∧
    ((typed (db_cin d) ["c"; "cancel"] ∧ db_calls d' = db_calls d ++ [CallCancel g id]) ∨
     ¬ typed (db_cin d) ["c"; "cancel"] ∧ ∃ approved, db_calls d' = db_calls d ++ [CallRespond g id approved] ∧
       (approved = true ↔ typed (db_cin d) ["y"; "yes"]))) d.
Proof.
  unfold debug_respond_to_presence, print. apply wp_bind, wp_modify, wp_bind, wp_get. cbn [db_cin log].
  assert (∀ words, (∀ w, w ∈ words → lit w ≠ [] ∧ 10 ∉ lit w) → let '(line, c') := std_getline (db_cin d) in
    says words (if ci_fail c' then [] else line) = true ↔ typed (db_cin d) words) as Hs by (intros; by apply says_typed).
  assert (let '(_, c') := std_getline (db_cin d) in stuck (db_cin d) → stuck c') as Hst.
  { unfold std_getline. pose proof (cin_getline_stuck (length (ci_chars (db_cin d))) (db_cin d)) as H.
    destruct (cin_getline _ _) as [[? ?] ?]. naive_solver. }
  pose proof (Hs ["c"; "cancel"] (word_ok ["c"; "cancel"] eq_refl)) as H1. pose proof (Hs ["y"; "yes"] (word_ok ["y"; "yes"] eq_refl)) as H2.
  destruct (std_getline (db_cin d)) as [line c]. apply wp_bind, wp_modify.
  set (d1 := set_cin c _). assert (keeps d d1) as Hk.
  { split; try done. simpl. rewrite elem_of_app, list_elem_of_singleton. naive_solver. }
  destruct (says ["c"; "cancel"] _) eqn:E.
  - eapply wp_mono, call_daemon_spec. intros r d2 (? & ? & ? & ?). split_and!; [by etrans|done|done|].
    left. split; [by apply H1|done].
  - eapply wp_mono, call_daemon_spec. intros r d2 (? & ? & ? & ?). split_and!; [by etrans|done|done|].
    right. split; [by intros ?%H1|]. eexists. by split.
Qed.

(** ** Signals *)

(** What an agent may answer to a signal, with what was typed from the state [d] on. *)
Definition answers_asked (s : Signal) (d : Debug) (calls : list daemon_call) : Prop :=
  let g := db_generation d in let id := sg_requestId s in
  if decide (sg_state s = lit "presence_required") then
    typed (db_cin d) ["c"; "cancel"] ∧ calls = [CallCancel g id] ∨
    ¬ typed (db_cin d) ["c"; "cancel"] ∧ ∃ approved, calls = [CallRespond g id approved] ∧
      (approved = true ↔ typed (db_cin d) ["y"; "yes"])
  else if decide (sg_state s = lit "secret_required") then
    calls = [CallCancel g id] ∨
    ∃ secret k, secret_line (after k (db_cin d)) secret ∧
      (calls = [CallSubmit g id (sg_promptId s) secret] ∨
       calls = [CallSubmit g id (sg_promptId s) secret; CallCancel g id])
  else calls = [].

Definition signal_outcome (s : Signal) (d : Debug) (r : res ()) (d' : Debug) : Prop :=
  r = Ret () ∧ db_input d' = None ∧ keeps d d' ∧
  (Forall is_done (db_attrs d) → db_termios d' = db_termios d) ∧
  ∃ calls, db_calls d' = db_calls d ++ calls ∧
    if sg_generation s =? db_generation d then answers_asked s d calls else d' = d ∧ calls = [].

Lemma asking_spec s d d1 :
  db_input d = None → keeps d d1 → db_cin d1 = db_cin d → db_termios d1 = db_termios d → db_input d1 = None →
  db_calls d1 = db_calls d →
  wp (if decide (sg_state s = lit "presence_required") then
        st_catch (debug_respond_to_presence (db_generation d) (sg_requestId s)) (λ _, print "Presence response failed: ")
      else if decide (sg_state s = lit "secret_required") then
        st_catch (debug_submit_secret (db_generation d) (sg_requestId s) (sg_promptId s))
          (λ _, let! _ := print "Password submission failed: " in
                st_catch (debug_cancel (db_generation d) (sg_requestId s)) (λ _, st_ret ()))
      else st_ret ())
    (λ r d', r = Ret () ∧ db_input d' = None ∧ keeps d d' ∧
       (Forall is_done (db_attrs d) → db_termios d' = db_termios d) ∧
       ∃ calls, db_calls d' = db_calls d ++ calls ∧ answers_asked s d calls) d1.
Proof.
  intros Hn Hk Hc Ht Hi Hcs. unfold answers_asked, print. repeat case_decide.
  - apply wp_catch. eapply wp_mono, presence_spec. rewrite Hc, Ht, Hi, Hcs.
    intros r d2 (Hk2 & Ht2 & Hi2 & Hcase). assert (keeps d d2) by by etrans.
    destruct r as [[]|]; [|apply wp_modify; cbn [db_input db_termios db_calls log]];
      (split_and!; [done|done|try done; by etrans; [|apply log_keeps]|done|]); destruct Hcase as [[Hty E]|(Hty & approved & E & Hap)]; eexists; (split; [exact E|]); naive_solver.
  - apply wp_catch. eapply wp_mono, submit_spec; [|done]. unfold submit_outcome, submitted. rewrite Hc, Ht, Hcs.
    intros r d2 (Hk2 & Hi2 & Ht2 & Hcase). assert (keeps d d2) by by etrans.
    assert (Forall is_done (db_attrs d) → db_termios d2 = db_termios d) by (intros; apply Ht2; by apply Hk).
    destruct r as [[]|e].
    + split_and!; try done. destruct Hcase as [[? _]|(secret & k & E & Hs)]; [done|]. eexists. split; [exact E|]. eauto 6.
    + apply wp_bind, wp_modify, wp_catch. eapply wp_mono, call_daemon_spec. simpl.
      intros r d3 (Hk3 & Ht3 & Hi3 & Hc3).
      assert (keeps d d3) by (etrans; [|exact Hk3]; etrans; [done|by apply log_keeps]).
      destruct r as [[]|?]; [|apply wp_ret]; (split_and!; [done|congruence|done|by rewrite Ht3|]);
        rewrite Hc3; destruct Hcase as [[_ ->]|(secret & k & -> & Hs)]; rewrite <- ?app_assoc; eexists; (split; [done|]); eauto 7.
  - apply wp_ret. split_and!; try done. exists []. by rewrite app_nil_r.
Qed.

Lemma signal_spec s d : db_input d = None → wp (on_state_signal s) (signal_outcome s d) d.
Proof.
  intros Hn. unfold on_state_signal, signal_outcome. apply wp_bind, wp_get.
  destruct (sg_generation s =? db_generation d); simpl negb.
  - apply wp_bind, wp_modify, wp_bind. set (d1 := log _ d). assert (keeps d d1) by by apply log_keeps.
    destruct (sg_message s); [apply wp_ret|apply wp_modify]; apply asking_spec; try done.
    etrans; [done|]. by apply log_keeps.
  - apply wp_ret. split_and!; try done. exists []. by rewrite app_nil_r.
Qed.

(** Several signals: the terminal and the flags. *)
Definition refuses (call : daemon_call) : Prop :=
  match call with CallRespond _ _ approved => approved = false | CallSubmit _ _ _ _ => False | CallCancel _ _ => True end.

Lemma stuck_refuses s d calls : stuck (db_cin d) → answers_asked s d calls → Forall refuses calls.
Proof.
  intros Hst. unfold answers_asked. assert (∀ words, ¬ typed (db_cin d) words) as Hno.
  { intros words (w & _ & Hg & _). by eapply stuck_good. }
  repeat case_decide; [intros [[? _]|(_ & approved & -> & Hap)]|intros [->|(secret & k & [Hg _] & _)]|intros ->].
  - by destruct (Hno ["c"; "cancel"]).
  - constructor; [|constructor]. destruct approved; [|done]. exfalso. by eapply Hno, Hap.
  - by repeat constructor.
  - destruct Hst, Hg; simpl in *; congruence.
  - constructor.
Qed.

Lemma handle_signals_spec signals d :
  db_input d = None →
  wp (handle_signals signals) (λ r d', r = Ret () ∧ db_input d' = None ∧ keeps d d' ∧
    (Forall is_done (db_attrs d) → db_termios d' = db_termios d) ∧
    ∃ calls, db_calls d' = db_calls d ++ calls ∧ (stuck (db_cin d) → Forall refuses calls)) d.
Proof.
  revert d. induction signals as [|s signals IH]; intros d Hn; simpl.
  - apply wp_ret. split_and!; try done. exists []. by rewrite app_nil_r.
  - apply wp_bind. eapply wp_mono, signal_spec; [|done]. intros r d1 (-> & Hn1 & Hk & Ht & calls & Hc & Ha).
    eapply wp_mono, IH; [|done]. intros r d2 (-> & Hn2 & Hk2 & Ht2 & calls2 & Hc2 & Hr).
    split_and!; try done; [by etrans|intros H; rewrite Ht2 by (by apply Hk); by apply Ht|].
    exists (calls ++ calls2). split; [by rewrite Hc2, Hc, app_assoc|]. intros Hst. apply Forall_app_2.
    + destruct (sg_generation s =? db_generation d); [by eapply stuck_refuses|]. by destruct Ha as [_ ->].
    + by apply Hr, Hk.
Qed.

Lemma terminal_same_cin d d' : terminal_only d d' → db_attrs d = [] → db_attrs d' = [] ∧ db_cin d' = db_cin d.
Proof.
  intros [_ _ _ _ _ [He Hf] _ _ Hd] Ha. destruct (Hd Ha) as [? Hc]. split; [done|].
  destruct (db_cin d), (db_cin d'). simpl in *. congruence.
Qed.

(** With a terminal that works, the secret of a line is submitted. *)
Lemma submit_exact g id prompt d stored count c w pipes secret :
  db_attrs d = [] → cin_getline secret_room (db_cin d) = (stored, count, c) →
  ci_fail c = false → 0 < count → count - 1 ≤ MAX_SECRET_SIZE → take (Z.to_nat (count - 1)) stored = secret →
  db_pipes d = Some w :: pipes → write_all [] secret w = Ret secret → db_answers d = [] →
  wp (debug_submit_secret g id prompt) (λ r d', r = Ret () ∧ db_cin d' = c ∧
    db_calls d' = db_calls d ++ [CallSubmit g id prompt secret]) d.
Proof.
  intros Ha Hg Hf Hc Hs Ht Hp Hw Han. unfold debug_submit_secret, print. apply wp_bind, wp_modify, wp_hidden_input.
  eapply wp_mono, HiddenInput_spec. intros r d1 [Ho Hr]. destruct r as [u|e]; [|simpl in Hr; rewrite Ha in Hr; by destruct Hr as (_ & _ & [])].
  destruct Hr as [Hi _]. destruct (terminal_same_cin _ _ Ho Ha) as [Ha1 Hc1]. simpl in Hc1.
  apply wp_bind. unfold hidden_read. apply wp_bind, wp_get. rewrite Hc1, Hg. apply wp_bind, wp_modify.
  rewrite Hf, (proj2 (Z.leb_gt count 0)), (proj2 (Z.ltb_ge MAX_SECRET_SIZE (count - 1))) by done.
  apply wp_bind. eapply wp_mono, (restore_spec (db_termios d)); [|by exists true].
  intros r d2 (Ho2 & Hi2 & b & -> & _ & Hb). simpl in Hb. rewrite Ha1 in Hb. rewrite Hb by done. simpl negb.
  destruct (terminal_same_cin _ _ Ho2 Ha1) as [Ha2 Hc2]. simpl in Hc2.
  apply wp_bind, wp_modify, wp_ret, wp_bind. unfold fill_pipe. apply wp_bind, wp_get. cbn [db_pipes log].
  rewrite (to_pipes _ _ Ho2). cbn [db_pipes log set_cin]. rewrite (to_pipes _ _ Ho). cbn [db_pipes log]. rewrite Hp.
  apply wp_bind, wp_modify, wp_lift. rewrite Ht, Hw. unfold wp, call_daemon. cbn [db_answers set_pipes log].
  rewrite (to_answers _ _ Ho2). cbn [db_answers log set_cin]. rewrite (to_answers _ _ Ho). cbn [db_answers log].
  rewrite Han. cbn [fst snd]. set (d3 := record_call _ _ _).
  destruct (restore_spec (db_termios d) d3 Hi2) as (Ho3 & _).
  destruct (terminal_same_cin _ _ Ho3 Ha2) as [_ Hc3]. split_and!; [done|simpl; rewrite Hc3; by rewrite <- Hc2|].
  simpl. rewrite (to_calls _ _ Ho3). subst d3. simpl. rewrite (to_calls _ _ Ho2). simpl. by rewrite (to_calls _ _ Ho).
Qed.

Lemma getline_newline c secret rest :
  good c → ci_chars c = secret ++ 10 :: rest → 10 ∉ secret → len secret ≤ MAX_SECRET_SIZE →
  cin_getline secret_room c = (secret, len secret + 1, mkCin rest false false).
Proof.
  intros [He Hf] Hc Hn Hl. unfold cin_getline. rewrite He, Hf, Hc, extract_line_newline; [|done|unfold secret_room; lia].
  cbn [orb]. by rewrite (proj2 (Z.eqb_neq _ 0)) by lia.
Qed.

Lemma getline_eof c line :
  good c → ci_chars c = line → 10 ∉ line → line ≠ [] → len line ≤ MAX_SECRET_SIZE + 1 →
  cin_getline secret_room c = (line, len line, mkCin [] true false).
Proof.
  intros [He Hf] Hc Hn Hne Hl. unfold cin_getline. rewrite He, Hf, Hc, extract_line_eof; [|done|unfold secret_room; lia].
  cbn [orb]. rewrite Z.add_0_r. destruct line; [done|]. by rewrite (proj2 (Z.eqb_neq _ 0)) by (simpl; lia).
Qed.

Lemma getline_limit c line rest :
  good c → ci_chars c = line ++ rest → 10 ∉ line → MAX_SECRET_SIZE + 1 < len line →
  ∃ stored count c', cin_getline secret_room c = (stored, count, c') ∧ ci_fail c' = true.
Proof.
  intros [He Hf] Hc Hn Hl. unfold cin_getline. rewrite He, Hf. cbn [orb].
  destruct (extract_line secret_room (ci_chars c)) as [[stored rest'] how] eqn:E. do 3 eexists. split; [done|].
  destruct (extract_line_spec _ _ _ _ _ E) as (_ & Hs & H). rewrite Hc in H. cbn [ci_fail].
  unfold secret_room, MAX_SECRET_SIZE in Hs, Hl.
  assert (∀ tail, line ++ rest = stored ++ tail → (length stored < length line)%nat →
    ∃ y tail', tail = y :: tail' ∧ y ≠ 10) as Hnext.
  { intros tail Happ Hlt. apply (f_equal (.!! length stored)) in Happ.
    destruct (lookup_lt_is_Some_2 line (length stored) Hlt) as [y Hy]. rewrite lookup_app_l, Hy in Happ by done.
    rewrite lookup_app_r, Nat.sub_diag in Happ by lia.
    destruct tail as [|z tail]; [done|]. injection Happ as <-. eexists _, _. split; [done|].
    intros ->. by apply Hn, list_elem_of_lookup_2 with (length stored). }
  destruct how; [|by destruct H; destruct (Hnext []) as (? & ? & [=] & _); [by rewrite app_nil_r|lia]|done].
  destruct (Hnext _ H) as (y & tail & [= -> ->] & Hy); [lia|done].
Qed.

Definition asks_secret (s : Signal) (d : Debug) : Prop :=
  sg_generation s = db_generation d ∧ sg_state s = lit "secret_required".

Lemma secret_signal s d :
  asks_secret s d →
  ∃ d0, keeps d d0 ∧ db_cin d0 = db_cin d ∧ db_attrs d0 = db_attrs d ∧ db_pipes d0 = db_pipes d ∧
    db_answers d0 = db_answers d ∧ db_calls d0 = db_calls d ∧ db_input d0 = db_input d ∧
    on_state_signal s d = st_catch (debug_submit_secret (db_generation d) (sg_requestId s) (sg_promptId s))
      (λ _, let! _ := print "Password submission failed: " in
            st_catch (debug_cancel (db_generation d) (sg_requestId s)) (λ _, st_ret ())) d0.
Proof.
  intros [Hg Hs]. unfold on_state_signal, st_bind at 1 2, st_get, st_modify at 1. rewrite Hg, Z.eqb_refl. cbn [negb].
  rewrite decide_False, decide_True by (rewrite Hs; done). unfold st_bind at 1.
  destruct (sg_message s); [unfold st_ret at 1|unfold st_modify at 1]; eexists; (split_and!; [..|reflexivity]); try done.
  - by apply log_keeps.
  - etrans; by apply log_keeps.
Qed.

(** A secret whose line ends with a newline, on a terminal, a pipe and a bus that work. *)
Lemma secret_submitted s d secret rest w pipes :
  asks_secret s d → good (db_cin d) → db_attrs d = [] → db_answers d = [] →
  ci_chars (db_cin d) = secret ++ 10 :: rest → 10 ∉ secret → len secret ≤ MAX_SECRET_SIZE →
  db_pipes d = Some w :: pipes → write_all [] secret w = Ret secret →
  db_calls (on_state_signal s d).2 =
    db_calls d ++ [CallSubmit (db_generation d) (sg_requestId s) (sg_promptId s) secret].
Proof.
  intros Ha Hg Hat Han Hc Hn Hl Hp Hw.
  destruct (secret_signal s d Ha) as (d0 & _ & Ec & Ea & Ep & En & Ecs & _ & ->).
  rewrite <- Ec in Hg, Hc. rewrite <- Ea in Hat. rewrite <- Ep in Hp. rewrite <- En in Han. rewrite <- Ecs.
  pose proof (submit_exact (db_generation d) (sg_requestId s) (sg_promptId s) d0 _ _ _ w pipes secret Hat
    (getline_newline _ _ _ Hg Hc Hn Hl) eq_refl ltac:(lia) ltac:(lia) ltac:(by rewrite take_ge by lia) Hp Hw Han) as (E & _ & Hcs).
  unfold st_catch. destruct (debug_submit_secret _ _ _ d0) as [r d1]. simpl in E, Hcs. by subst r.
Qed.

(** A line that does not fit is an error, and the stream stays in its failed state. *)
Lemma submit_overlong g id prompt d stored count c :
  db_attrs d = [] → cin_getline secret_room (db_cin d) = (stored, count, c) → ci_fail c = true →
  wp (debug_submit_secret g id prompt) (λ r d', is_ret r = false ∧ stuck (db_cin d') ∧ db_calls d' = db_calls d) d.
Proof.
  intros Ha Hg Hf. unfold debug_submit_secret, print. apply wp_bind, wp_modify, wp_hidden_input.
  eapply wp_mono, HiddenInput_spec. intros r d1 [Ho Hr].
  destruct r as [u|e]; [|simpl in Hr; rewrite Ha in Hr; by destruct Hr as (_ & _ & [])].
  destruct Hr as [Hi _]. destruct (terminal_same_cin _ _ Ho Ha) as [Ha1 Hc1]. simpl in Hc1.
  apply wp_bind. unfold hidden_read. apply wp_bind, wp_get. rewrite Hc1, Hg. apply wp_bind, wp_modify. rewrite Hf.
  apply wp_throw. set (d2 := log _ _).
  destruct (restore_spec (db_termios d) d2) as (Ho2 & _); [by exists true|].
  destruct (terminal_same_cin _ _ Ho2 Ha1) as [_ Hc2]. split_and!; [done|..]; simpl.
  - rewrite Hc2. by right.
  - rewrite (to_calls _ _ Ho2). apply (to_calls _ _ Ho).
Qed.

(** [main]: the code it exits with, and the terminal. *)
Lemma debug_main_spec connected registered signals ended d :
  db_input d = None →
  wp (debug_main connected registered signals ended) (λ r d', ∃ code, r = Ret code ∧
    (code = 0 ↔ connected = Ret () ∧ (∃ g, registered = Ret g ∧ g ≠ 0) ∧ ended = Ret ()) ∧
    (Forall is_done (db_attrs d) → db_termios d' = db_termios d) ∧
    (code = 1 → db_calls d' = db_calls d ∨ is_ret ended = false)) d.
Proof.
  intros Hn. unfold debug_main, print. apply wp_catch, wp_bind, wp_lift.
  destruct connected as [[]|e]; [|apply wp_bind, wp_modify, wp_ret; exists 1; split_and!; naive_solver].
  apply wp_bind, wp_lift. destruct registered as [g|e]; [|apply wp_bind, wp_modify, wp_ret; exists 1; split_and!; naive_solver].
  apply wp_bind, wp_modify. destruct (Z.eqb_spec g 0) as [->|Hg].
  { apply wp_throw, wp_bind, wp_modify, wp_ret. exists 1. split_and!; naive_solver. }
  apply wp_bind, wp_modify, wp_bind. eapply wp_mono, handle_signals_spec; [|done].
  intros r d1 (-> & _ & _ & Ht & _). apply wp_bind, wp_lift.
  destruct ended as [[]|e]; [apply wp_ret; exists 0|apply wp_bind, wp_modify, wp_ret; exists 1]; split_and!; naive_solver.
Qed.

(** ** Properties *)

(** The debug agent answers what was asked with what was typed.  Handling one signal never
    throws and makes at most two calls to the daemon: none for a signal of another registration
    or one that does not ask; for a presence request one call for that request, a cancellation
    when the line typed is c or cancel, and otherwise an answer that approves exactly when it
    is y or yes; for a secret a cancellation, or that prompt's submission of what was typed,
    with a cancellation when the submission fails.  A line of up to 1024 characters is
    submitted as it was typed, when terminal, pipe and bus work.  Secrets are read only while
    the terminal does not echo, and its settings are as before afterwards, unless setting them
    failed. *)
Theorem debug_agent_answers s d r d' :
  db_input d = None → on_state_signal s d = (r, d') →
  r = Ret () ∧ db_input d' = None ∧ db_generation d' = db_generation d ∧
  (Forall is_done (db_attrs d) → Forall is_done (db_attrs d') ∧ db_termios d' = db_termios d) ∧
  (ReadSecret true ∉ db_log d → ReadSecret true ∉ db_log d') ∧
  (∃ calls, db_calls d' = db_calls d ++ calls ∧
     if sg_generation s =? db_generation d then answers_asked s d calls else d' = d ∧ calls = []) ∧
  (∀ secret rest w pipes, asks_secret s d → good (db_cin d) → db_attrs d = [] → db_answers d = [] →
     ci_chars (db_cin d) = secret ++ 10 :: rest → 10 ∉ secret → len secret ≤ MAX_SECRET_SIZE →
     db_pipes d = Some w :: pipes → write_all [] secret w = Ret secret →
     db_calls d' = db_calls d ++ [CallSubmit (db_generation d) (sg_requestId s) (sg_promptId s) secret]).
Proof.
  intros Hn E. destruct (wp_run _ _ _ _ _ (signal_spec s d Hn) E) as (-> & Hn' & [Hg Ha _ Hl] & Ht & Hc).
  split_and!; try done; [by auto|]. intros secret rest w pipes ? ? ? ? ? ? ? ? ?.
  by rewrite <- (secret_submitted s d secret rest w pipes), E.
Qed.

(** One secret that is not ended by a newline spoils the debug agent's input.  When the
    input ends after the secret, the agent submits it without its last character; when more
    than 1025 characters precede the newline, it cancels.  Either way the stream keeps the
    flag, and from then on every request is refused or cancelled, whatever is typed: no
    presence request is approved and no secret is submitted any more. *)
Theorem debug_input_sticks s d :
  asks_secret s d → db_input d = None → good (db_cin d) → db_attrs d = [] → db_answers d = [] →
  let '(_, d1) := on_state_signal s d in
  (∀ secret last w pipes, ci_chars (db_cin d) = secret ++ [last] → 10 ∉ secret ++ [last] →
     len secret ≤ MAX_SECRET_SIZE → db_pipes d = Some w :: pipes → write_all [] secret w = Ret secret →
     stuck (db_cin d1) ∧
     db_calls d1 = db_calls d ++ [CallSubmit (db_generation d) (sg_requestId s) (sg_promptId s) secret]) ∧
  (∀ line rest, ci_chars (db_cin d) = line ++ rest → 10 ∉ line → MAX_SECRET_SIZE + 1 < len line →
     stuck (db_cin d1) ∧ db_calls d1 = db_calls d ++ [CallCancel (db_generation d) (sg_requestId s)]) ∧
  ∀ signals, stuck (db_cin d1) →
    ∃ calls, db_calls (handle_signals signals d1).2 = db_calls d1 ++ calls ∧ Forall refuses calls.
Proof.
  intros Ha Hn Hg Hat Han. destruct (on_state_signal s d) as [r d1] eqn:E.
  pose proof (wp_run _ _ _ _ _ (signal_spec s d Hn) E) as (_ & Hn1 & _).
  destruct (secret_signal s d Ha) as (d0 & _ & Ec & Ea & Ep & En & Ecs & _ & Es). rewrite E in Es.
  rewrite <- Ec in Hg. rewrite <- Ea in Hat. rewrite <- En in Han. rewrite <- Ec, <- Ep, <- Ecs. split_and!.
  - intros secret last w pipes Hc Hnl Hl Hp Hw.
    pose proof (getline_eof (db_cin d0) (secret ++ [last]) Hg Hc Hnl) as Hget. rewrite length_app in Hget. simpl in Hget.
    pose proof (submit_exact (db_generation d) (sg_requestId s) (sg_promptId s) d0 _ _ _ w pipes secret Hat
      (Hget ltac:(by destruct secret) ltac:(lia)) eq_refl ltac:(lia) ltac:(lia)) as (Er & Hcin & Hcs); [|done..|].
    { by replace (Z.to_nat _) with (length secret) by lia; rewrite take_app_length. }
    unfold st_catch in Es. destruct (debug_submit_secret _ _ _ d0) as [r0 d2]. simpl in *. subst r0.
    injection Es as _ ->. split; [rewrite Hcin; by left|done].
  - intros line rest Hc Hnl Hl. destruct (getline_limit _ _ _ Hg Hc Hnl Hl) as (stored & count & c & Hget & Hf).
    pose proof (submit_overlong (db_generation d) (sg_requestId s) (sg_promptId s) d0 _ _ _ Hat Hget Hf) as (Er & Hst & Hcs).
    unfold st_catch at 1 in Es. destruct (debug_submit_secret _ _ _ d0) as [[u|e] d2]; [done|]. simpl in Hst, Hcs.
    unfold st_bind, print, st_modify, st_catch, debug_cancel, call_daemon in Es. cbn [db_answers log] in Es.
    destruct (db_answers d2) as [|[u|] l]; injection Es as _ ->; simpl; by rewrite Hcs.
  - intros signals Hst. destruct (handle_signals_spec signals d1 Hn1) as (_ & _ & _ & _ & calls & Hc & Hr).
    exists calls. by split; [|apply Hr].
Qed.

Definition example_secret_signal : Signal :=
  mkSignal (lit ":1.5") 1 7 3 (lit "secret_required") (lit "get_assertion") (lit "example.org") (lit "Password:").

Definition example_debug (chars : list Z) : Debug :=
  mkDebug 1 (mkCin chars false false) (mkTermios 0 0 0 (ECHO + 2)) None [] [Some [wrote 3; write_eintr; wrote 5]] [] [] [].

Lemma debug_agent_answers_witness :
  let '(r, d') := on_state_signal example_secret_signal (example_debug (lit "pass" ++ [10])) in
  db_calls d' = [CallSubmit 1 7 3 (lit "pass")] ∧ db_termios d' = mkTermios 0 0 0 10.
Proof.
  destruct (on_state_signal example_secret_signal (example_debug (lit "pass" ++ [10]))) as [r d'] eqn:E.
  destruct (debug_agent_answers example_secret_signal (example_debug (lit "pass" ++ [10])) r d')
    as (_ & _ & _ & Ht & _ & _ & H); [reflexivity|exact E|]. split.
  - apply (H (lit "pass") [] [wrote 3; write_eintr; wrote 5] []); try reflexivity.
    + split; reflexivity.
    + split; reflexivity.
    + apply (bool_decide_unpack _). vm_compute. exact I.
    + vm_compute. discriminate.
  - apply Ht. constructor.
Defined.

Lemma debug_input_sticks_witness :
  let '(_, d1) := on_state_signal example_secret_signal (example_debug (lit "pass")) in
  db_calls d1 = [CallSubmit 1 7 3 (lit "pas")] ∧ stuck (db_cin d1).
Proof.
  pose proof (debug_input_sticks example_secret_signal (example_debug (lit "pass"))) as H.
  destruct (on_state_signal example_secret_signal (example_debug (lit "pass"))) as [r d1].
  destruct H as (H & _); [split; reflexivity|reflexivity|split; reflexivity|reflexivity|reflexivity|].
  destruct (H (lit "pas") 115 [wrote 3; write_eintr; wrote 5] []) as [Hs Hc]; try reflexivity.
  - apply (bool_decide_unpack _). vm_compute. exact I.
  - vm_compute. discriminate.
  - split; [exact Hc|exact Hs].
Defined.
