(* ===== verification/ExampleAgent.v ===== *)
(** * The example agent (src/examples/agents/cpp/agent.cpp)

    The agent that the documentation offers as a starting point: it follows the daemon's
    events with a test of its own, asks for presence on the standard input and cancels every
    request for a secret.  Its test is compared with the tracker of the graphical agent.  What
    it prints is left out. *)
From Stdlib Require Import ZArith Lia.
From stdpp Require Import base list strings.
From S2P Require Import Prelude VerifierProtocol InteractionRegistry AgentService Authorization.
From S2P Require Import ClientTracker AgentClient DebugAgent.

(** ** States *)

Definition ex_is_start (state : list Z) : bool :=
  bool_decide (state = lit "presence_required") || bool_decide (state = lit "verification_started").

Definition ex_is_terminal (state : list Z) : bool :=
  bool_decide (state = lit "presence_approved") || bool_decide (state = lit "presence_denied") ||
  bool_decide (state = lit "verification_succeeded") || bool_decide (state = lit "verification_failed") ||
  bool_decide (state = lit "cancelled") || bool_decide (state = lit "timed_out").

Definition ex_is_known (state : list Z) : bool :=
  ex_is_start state || ex_is_terminal state || bool_decide (state = lit "verification_information") ||
  bool_decide (state = lit "verification_error") || bool_decide (state = lit "secret_required").

(** ** The agent *)

Record Example := mkExample {
  ex_generation : Z;
  ex_activeRequest : Z;
  ex_events : list Signal;
  ex_cin : Cin;
  ex_answers : list (res ());
  ex_calls : list daemon_call;
}.

Definition ex_set_active (id : Z) (a : Example) : Example :=
  mkExample (ex_generation a) id (ex_events a) (ex_cin a) (ex_answers a) (ex_calls a).
Definition ex_set_events (l : list Signal) (a : Example) : Example :=
  mkExample (ex_generation a) (ex_activeRequest a) l (ex_cin a) (ex_answers a) (ex_calls a).
Definition ex_set_cin (c : Cin) (a : Example) : Example :=
  mkExample (ex_generation a) (ex_activeRequest a) (ex_events a) c (ex_answers a) (ex_calls a).

(** A call without an answer in the list succeeds. *)
Definition ex_call (call : daemon_call) : ST Example () := λ a,
  (default (Ret ()) (head (ex_answers a)),
   mkExample (ex_generation a) (ex_activeRequest a) (ex_events a) (ex_cin a) (tail (ex_answers a))
     (ex_calls a ++ [call])).

Definition ex_respond_to_presence (request_id : Z) (approved : bool) : ST Example () :=
  let! a := st_get in ex_call (CallRespond (ex_generation a) request_id approved).

Definition ex_cancel (request_id : Z) : ST Example () :=
  let! a := st_get in ex_call (CallCancel (ex_generation a) request_id).

(** [answer.front() == c], for an answer that is not empty. *)
Definition begins_with (c : Z) (answer : list Z) : bool :=
  match answer with x :: _ => x =? c | [] => false end.

Definition ex_ask_presence (request_id : Z) : ST Example () :=
  let! a := st_get in
  let '(answer, c) := std_getline (ex_cin a) in
  let! _ := st_modify (ex_set_cin c) in
  if ci_fail c || begins_with 99 answer then ex_cancel request_id
  else ex_respond_to_presence request_id (begins_with 121 answer).

(** The part of [run] that decides whether an event is for this agent: the active request
    afterwards, [None] for [continue]. *)
Definition ex_accepts (generation active : Z) (event : Signal) : option Z :=
  if negb (sg_generation event =? generation) || (sg_requestId event =? 0) || negb (ex_is_known (sg_state event))
  then None else
  if negb (Bool.eqb (bool_decide (sg_state event = lit "secret_required")) (negb (sg_promptId event =? 0)))
  then None else
  if ex_is_start (sg_state event) then
    if negb (active =? 0) && negb (active =? sg_requestId event) then None else Some (sg_requestId event)
  else if negb (active =? sg_requestId event) then None else Some active.

(** One turn of the loop, for the event that [next_event] took. *)
Definition ex_handle (event : Signal) : ST Example () :=
  let! a := st_get in
  match ex_accepts (ex_generation a) (ex_activeRequest a) event with
  | None => st_ret ()
  | Some active =>
      let! _ := st_modify (ex_set_active active) in
      let! _ := if bool_decide (sg_state event = lit "presence_required") then ex_ask_presence (sg_requestId event)
                else if bool_decide (sg_state event = lit "secret_required") then ex_cancel (sg_requestId event)
                else st_ret () in
      if ex_is_terminal (sg_state event) then st_modify (ex_set_active 0) else st_ret ()
  end.

(** The two threads: the connection's appends to the queue, [run] takes from it, or waits. *)
Definition ex_push (event : Signal) (a : Example) : Example := ex_set_events (ex_events a ++ [event]) a.

Definition ex_turn : ST Example () :=
  let! a := st_get in
  match ex_events a with
  | [] => st_ret ()
  | event :: events => let! _ := st_modify (ex_set_events events) in ex_handle event
  end.

(** The threads' actions in the order they happen: an event arrives, or [run] takes a turn. *)
Fixpoint ex_run (schedule : list (option Signal)) : ST Example () :=
  match schedule with
  | [] => st_ret ()
  | Some event :: schedule => let! _ := st_modify (ex_push event) in ex_run schedule
  | None :: schedule => let! _ := ex_turn in ex_run schedule
  end.

(** The constructor and [main]: the loop ends only by an exception. *)
Definition ex_new (registered : res Z) (c : Cin) (answers : list (res ())) : res Example :=
  generation ← registered;
  throw_if generation =? 0 as runtime_error ;;
  Ret (mkExample generation 0 [] c answers []).

(** [submit_secret], which the example offers to user interfaces. *)
Definition ex_submit_secret (request_id prompt_id : Z) (secret : list Z) (opened : bool)
    (writes : list write_answer) : ST Example () :=
  let! a := st_get in
  if (request_id =? 0) || (prompt_id =? 0) || negb (request_id =? ex_activeRequest a) then st_throw runtime_error else
  if (1024 <? len secret) || contains_nul secret then st_throw invalid_argument else
  if negb opened then st_throw system_error else
  let! pipe := st_lift (write_all [] secret writes) in
  ex_call (CallSubmit (ex_generation a) request_id prompt_id pipe).

(** ** The example's test and the tracker *)

(** The active request is the tracker's, with 0 for none. *)
Definition follows (active : Z) (tk : InteractionTracker) : Prop :=
  tk_activeRequestId tk ≠ Some 0 ∧ default 0 (tk_activeRequestId tk) = active.

(** The active request after a turn. *)
Definition ex_next (generation active : Z) (event : Signal) : Z :=
  match ex_accepts generation active event with
  | Some id => if ex_is_terminal (sg_state event) then 0 else id
  | None => active
  end.

Lemma ex_state_names st :
  ex_is_start (user_interaction_state_name st) = starts_interaction st ∧
  ex_is_terminal (user_interaction_state_name st) = client_is_terminal st ∧
  ex_is_known (user_interaction_state_name st) = true ∧
  bool_decide (user_interaction_state_name st = lit "secret_required") = bool_decide (st = secret_required).
Proof. by destruct st. Qed.

Lemma ex_unknown_state state : parse_interaction_state state = None → ex_is_known state = false.
Proof.
  unfold parse_interaction_state, ex_is_known, ex_is_start, ex_is_terminal.
  repeat (destruct (bool_decide (state = _)); [done|]). done.
Qed.

(** One event: the tracker accepts what the example does, but for a prompt that is asked
    again; the active request is the same afterwards. *)
Lemma example_step g active tk event :
  follows active tk → tk_generation tk = g →
  match event_of_signal event with
  | None => ex_accepts g active event = None
  | Some e =>
      let '(accepted, tk') := accept tk e in
      follows (ex_next g active event) tk' ∧ tk_generation tk' = g ∧
      (accepted = true → is_Some (ex_accepts g active event)) ∧
      (is_Some (ex_accepts g active event) → accepted = true ∨
         ev_state e = secret_required ∧ ev_promptId e = tk_activePromptId tk ∧ tk' = tk)
  end.
Proof.
  intros [H0 Hact] Hg. unfold event_of_signal.
  destruct (parse_interaction_state (sg_state event)) as [st|] eqn:Ep.
  2: { unfold ex_accepts. rewrite (ex_unknown_state _ Ep). by rewrite !orb_true_r. }
  apply state_name_roundtrip in Ep. destruct (ex_state_names st) as (E1 & E2 & E3 & E4).
  unfold ex_next, ex_accepts, accept. rewrite Ep, E1, E2, E3, E4, Hg. clear Ep E1 E2 E3 E4.
  cbn [ev_generation ev_requestId ev_promptId ev_state negb]. rewrite orb_false_r.
  assert (follows active tk ∧ tk_generation tk = g ∧ (false = true → is_Some (@None Z)) ∧
    (is_Some (@None Z) → false = true ∨ st = secret_required ∧ sg_promptId event = tk_activePromptId tk ∧ tk = tk))
    as Hskip by (split_and!; [done..|by intros [? ?]]).
  destruct (negb _ || _) eqn:Eid; [exact Hskip|]. destruct (negb (Bool.eqb _ _)); [exact Hskip|].
  apply orb_false_iff in Eid as [_ Eid%Z.eqb_neq].
  destruct tk as [g' [id|] prompt]; simpl in Hg, Hact, H0; subst g' active;
    unfold tracks, accept_prompt, follows; simpl.
  - assert (id ≠ 0) by congruence. rewrite (proj2 (Z.eqb_neq id 0)) by done. simpl.
    destruct (Z.eqb_spec id (sg_requestId event)) as [->|]; [|destruct (starts_interaction st); exact Hskip].
    destruct st; cbn; try (by split_and!; first [done|congruence|intros _; by left]).
    destruct (Z.eqb_spec (sg_promptId event) prompt); cbn; split_and!; try done;
      try congruence; intros _; first [by left|by right].
  - destruct (starts_interaction st) eqn:Est.
    + clear Hskip. destruct st; try done; cbn; split_and!; first [done|simpl; congruence|intros _; by left|by eexists].
    + destruct (sg_requestId event); [done|exact Hskip..].
Qed.

(** ** Properties *)

(** The agent after a run of events, with the tracker beside it. *)
Fixpoint ex_active_after (g active : Z) (events : list Signal) : Z :=
  match events with [] => active | e :: events => ex_active_after g (ex_next g active e) events end.

(** The example agent's own test of events is the tracker's: over any events since the
    registration both have the same active request, and the next event is accepted by both
    or by none, but for a prompt that is asked again, which only the example takes. *)
Theorem example_follows_tracker g events event :
  let '(_, tk) := accepted_events (tracker_new g) (omap event_of_signal events) in
  let active := ex_active_after g 0 events in
  default 0 (tk_activeRequestId tk) = active ∧
  match event_of_signal event with
  | None => ex_accepts g active event = None
  | Some e =>
      ((accept tk e).1 = true → is_Some (ex_accepts g active event)) ∧
      (is_Some (ex_accepts g active event) → (accept tk e).1 = true ∨
         ev_state e = secret_required ∧ ev_promptId e = tk_activePromptId tk)
  end.
Proof.
  assert (∀ tk active, follows active tk → tk_generation tk = g →
    let '(_, tk') := accepted_events tk (omap event_of_signal events) in
    follows (ex_active_after g active events) tk' ∧ tk_generation tk' = g) as Hrun.
  { induction events as [|e events IH]; intros tk active Hf Hg; cbn; [done|].
    pose proof (example_step g active tk e Hf Hg) as Hs. unfold ex_next at 1.
    destruct (event_of_signal e) as [ev|]; cbn; [|rewrite Hs; by apply IH].
    destruct (accept tk ev) as [b tk1]. destruct Hs as (Hf1 & Hg1 & _). specialize (IH tk1 _ Hf1 Hg1).
    unfold ex_next in IH. by destruct (accepted_events tk1 _) as [l tk2]. }
  specialize (Hrun (tracker_new g) 0 ltac:(done) eq_refl).
  destruct (accepted_events _ _) as [l tk]. destruct Hrun as [Hf Hg]. split; [apply Hf|].
  pose proof (example_step g _ tk event Hf Hg) as Hs. destruct (event_of_signal event) as [e|]; [|done].
  destruct (accept tk e) as [b tk']. destruct Hs as (_ & _ & H1 & H2). split; [done|]. naive_solver.
Qed.

(** Events one after the other. *)
Fixpoint ex_handle_all (events : list Signal) : ST Example () :=
  match events with [] => st_ret () | e :: events => let! _ := ex_handle e in ex_handle_all events end.

(** The queue is for the two threads only. *)
Lemma ex_handle_queue e l a :
  ex_handle e (ex_set_events l a) = let '(r, a') := ex_handle e a in (r, ex_set_events l a').
Proof.
  destruct a as [g active q c answers calls].
  unfold ex_handle, ex_ask_presence, ex_cancel, ex_respond_to_presence, ex_call, st_bind, st_get, st_modify, st_ret.
  cbn -[std_getline ex_accepts ex_is_terminal lit begins_with].
  destruct (ex_accepts g active e) as [id|]; [|done]. generalize (ex_is_terminal (sg_state e)). intros terminal.
  destruct (bool_decide _); [|destruct (bool_decide _)]; cbn -[std_getline lit begins_with]; [| |by destruct terminal].
  - destruct (std_getline c) as [answer c']. destruct (ci_fail c' || begins_with 99 answer);
      cbn -[lit begins_with]; by destruct answers as [|[[]|] ?], terminal.
  - by destruct answers as [|[[]|] ?], terminal.
Qed.

Lemma ex_set_same a : ex_set_events (ex_events a) a = a.
Proof. by destruct a. Qed.

Lemma ex_handle_all_queue events l a :
  ex_handle_all events (ex_set_events l a) = let '(r, a') := ex_handle_all events a in (r, ex_set_events l a').
Proof.
  revert a. induction events as [|e events IH]; intros a; cbn; [done|]. unfold st_bind. rewrite ex_handle_queue.
  destruct (ex_handle e a) as [[]  a1]; [apply IH|done].
Qed.

(** A run with another queue, given back the old one. *)
Lemma ex_handle_all_back events l a a' :
  ex_handle_all events (ex_set_events l a) = (Ret (), ex_set_events l a') →
  ex_handle_all events a = (Ret (), ex_set_events (ex_events a) a').
Proof.
  intros E. assert (ex_set_events (ex_events a) (ex_set_events l a) = a) as Ha by (by destruct a).
  rewrite <- Ha at 1. by rewrite ex_handle_all_queue, E.
Qed.


(** However the threads take turns, the events are handled in the order of their arrival; those
    not handled yet are in the queue. *)
Theorem example_in_order schedule a a' :
  ex_run schedule a = (Ret (), a') →
  ∃ handled, ex_events a ++ omap id schedule = handled ++ ex_events a' ∧
    ex_handle_all handled a = (Ret (), ex_set_events (ex_events a) a').
Proof.
  revert a. induction schedule as [|[s|] schedule IH]; intros a E; cbn in E.
  - injection E as ->. exists []. cbn. rewrite app_nil_r, ex_set_same. done.
  - apply IH in E as (handled & Hq & Hh). cbn in Hq. exists handled. rewrite <- app_assoc in Hq. split; [done|].
    by eapply ex_handle_all_back.
  - unfold st_bind, ex_turn in E. destruct (st_bind _ _ a) as [[[]|] a1] eqn:Et; [|done].
    unfold st_bind, st_get in Et. destruct (ex_events a) as [|e q] eqn:Eq.
    { injection Et as ->. rewrite <- Eq. by apply IH. }
    unfold st_modify in Et. rewrite ex_handle_queue in Et. destruct (ex_handle e a) as [r a2] eqn:Eh.
    injection Et as -> <-. apply IH in E as (handled & Hq & Hh). exists (e :: handled). split; [cbn in Hq |- *; by rewrite Hq|].
    cbn. unfold st_bind. rewrite Eh. apply ex_handle_all_back in Hh. rewrite Hh. do 2 f_equal.
    rewrite <- (ex_set_same a), ex_handle_queue in Eh. destruct (ex_handle e a) as [r' a3]. injection Eh as _ <-. by rewrite <- Eq.
Qed.

(** What a turn of [run] calls: one answer for a presence request -- approved exactly when
    the line typed begins with y, cancelled when it begins with c or nothing can be read --,
    a cancellation for a secret, and nothing for what it does not accept. *)
Theorem example_answers event a :
  wp (ex_handle event) (λ r a', ∃ calls, ex_calls a' = ex_calls a ++ calls ∧ ex_generation a' = ex_generation a ∧
    (is_ret r = true → ex_activeRequest a' = ex_next (ex_generation a) (ex_activeRequest a) event) ∧
    let g := ex_generation a in let id := sg_requestId event in
    calls = [] ∨ calls = [CallCancel g id] ∨
    sg_state event = lit "presence_required" ∧ is_Some (ex_accepts g (ex_activeRequest a) event) ∧
      ∃ approved, calls = [CallRespond g id approved] ∧
        (approved = true → ∃ line, line_typed (ex_cin a) (121 :: line))) a.
Proof.
  unfold ex_handle, ex_next. apply wp_bind, wp_get.
  destruct (ex_accepts _ _ event) as [id|] eqn:Ea.
  2: { apply wp_ret. exists []. rewrite app_nil_r. naive_solver. }
  apply wp_bind, wp_modify, wp_bind.
  pose proof (std_getline_spec (ex_cin a)) as Hline. pose proof (std_getline_line (ex_cin a)) as Hnl.
  destruct (bool_decide_reflect (sg_state event = lit "presence_required")) as [Ep|Ep].
  - unfold ex_ask_presence, ex_cancel, ex_respond_to_presence. apply wp_bind, wp_get. cbn [ex_cin ex_set_active].
    destruct (std_getline (ex_cin a)) as [answer c]. apply wp_bind, wp_modify.
    assert (ex_is_terminal (sg_state event) = false) as Et by (rewrite Ep; reflexivity). rewrite Et.
    destruct (ci_fail c || begins_with 99 answer) eqn:Ec; apply wp_bind, wp_get; unfold wp, ex_call; cbn -[head tail].
    + destruct (default _ _) as [[]|e]; cbn; (eexists; split_and!; [done..|by eauto]).
    + apply orb_false_iff in Ec as [Ec _]. rewrite Ec in Hline.
      assert (begins_with 121 answer = true → ∃ line, line_typed (ex_cin a) (121 :: line)) as Hy.
      { destruct answer as [|x line]; [done|]. simpl. intros ->%Z.eqb_eq. exists line. by apply Hline. }
      destruct (default _ _) as [[]|e]; cbn; (eexists; split_and!; [done..|]); right; right; eauto 6.
  - unfold ex_cancel. assert (∀ a1 : Example, ex_generation a1 = ex_generation a → ex_activeRequest a1 = id →
      wp (if ex_is_terminal (sg_state event) then st_modify (ex_set_active 0) else st_ret ()) (λ r a',
        ex_calls a' = ex_calls a1 ∧ ex_generation a' = ex_generation a ∧
        ex_activeRequest a' = (if ex_is_terminal (sg_state event) then 0 else id)) a1) as Hend.
    { intros a1 Hg Hid. by destruct (ex_is_terminal _). }
    destruct (bool_decide (sg_state event = lit "secret_required")).
    + apply wp_bind, wp_get. unfold wp at 1, ex_call. cbn -[head tail].
      destruct (default _ _) as [[]|e]; [|eexists; split_and!; [done..|by eauto]].
      eapply wp_mono, Hend; [|done..]. intros r a' (? & ? & ?). eexists. split_and!; [done..|by eauto].
    + apply wp_ret. eapply wp_mono, Hend; [|done..]. intros r a' (? & ? & ?). exists [].
      rewrite app_nil_r. split_and!; [done..|by left].
Qed.

(** A secret is submitted the way the graphical agent does it, for a prompt and with the same
    active request. *)
Theorem example_submits_like_client c a request_id prompt_id secret opened writes :
  cl_generation c = ex_generation a → (∀ id, client_is_active c id = (id =? ex_activeRequest a) && negb (id =? 0)) →
  prompt_id ≠ 0 →
  client_submit_secret c request_id prompt_id secret opened writes (default (Ret ()) (head (ex_answers a))) (ex_calls a) =
  let '(r, a') := ex_submit_secret request_id prompt_id secret opened writes a in (r, ex_calls a').
Proof.
  intros Hg Hact Hp. unfold client_submit_secret, ex_submit_secret, require_active, st_bind, st_lift, st_get.
  rewrite Hact, (proj2 (Z.eqb_neq prompt_id 0)), Hg by done. change MAX_SECRET_SIZE with 1024.
  destruct (request_id =? 0), (request_id =? ex_activeRequest a); cbn [andb orb negb]; try done.
  destruct ((1024 <? len secret) || contains_nul secret); [done|]. destruct opened; [|done]. cbn [negb].
  by destruct (write_all [] secret writes).
Qed.
