(* ===== verification/BusInterface.v ===== *)
(** * The D-Bus interface of the daemon (src/src/dbus/constants.hpp, agent_service.cpp)

    The constructor of [AgentService::Impl] declares the methods and the signal on the bus;
    sd-bus finds the handler for a message, and the handler reads its arguments, works
    (AgentService.v) and replies.  This file models the declarations, the arguments and the
    replies, and shows that what arrives on the bus comes down to the operations on the
    service with which the rest is proved. *)
From Stdlib Require Import ZArith Lia.
From stdpp Require Import base list strings.
From S2P Require Import Prelude AgentRegistry InteractionRegistry AgentService UserInteraction AgentLoop.
From S2P Require Import Authorization ClientTracker AgentClient.

(** ** Names *)

Definition INTERFACE_NAME : list Z := lit "org.lamellix.vAuth.UserInteraction1".
Definition STATUS_INTERFACE_NAME : list Z := lit "org.lamellix.vAuth.Status1".
Definition HAS_AVAILABLE_AGENT_METHOD : list Z := lit "HasAvailableAgent".
Definition REGISTER_METHOD : list Z := lit "RegisterAgent".
Definition UNREGISTER_METHOD : list Z := lit "UnregisterAgent".
Definition RESPOND_TO_PRESENCE_METHOD : list Z := lit "RespondToPresence".
Definition SUBMIT_SECRET_METHOD : list Z := lit "SubmitSecret".
Definition CANCEL_INTERACTION_METHOD : list Z := lit "CancelInteraction".
Definition STATE_SIGNAL : list Z := lit "StateChanged".

(** ** Values *)

(** The types t, b, s and h; a descriptor is given by what can be read from it. *)
Inductive value := V_t (n : Z) | V_b (b : bool) | V_s (s : list Z) | V_h (pipe : SecretPipe).

Definition type_code (v : value) : Z :=
  match v with V_t _ => 116 | V_b _ => 98 | V_s _ => 115 | V_h _ => 104 end.

Definition signature (values : list value) : list Z := type_code <$> values.

(** A method call; the bus's policy lets calls with an interface through only. *)
Record MethodCall := mkMethodCall {
  mc_interface : list Z;
  mc_member : list Z;
  mc_args : list value;
  mc_peer : BusCall;
}.

Inductive reply := Reply (values : list value) | ErrorReply (name : list Z).

(** ** Declarations *)

Inductive handler := on_register | on_unregister | on_presence | on_secret | on_cancel | on_status.

Record MethodVTableItem := mkMethod {
  mv_name : list Z;
  mv_inputSignature : list Z;
  mv_inputParamNames : list (list Z);
  mv_outputSignature : list Z;
  mv_outputParamNames : list (list Z);
  mv_callbackHandler : handler;
}.

Record SignalVTableItem := mkSignalItem {
  sv_name : list Z;
  sv_signature : list Z;
  sv_paramNames : list (list Z);
}.

(** [sdbus::registerMethod], before the fields are set. *)
Definition registerMethod (name : list Z) (h : handler) : MethodVTableItem := mkMethod name [] [] [] [] h.

Definition register_method : MethodVTableItem :=
  mkMethod REGISTER_METHOD [] [] (lit "t") [lit "generation"] on_register.
Definition unregister_method : MethodVTableItem := registerMethod UNREGISTER_METHOD on_unregister.
Definition presence_method : MethodVTableItem :=
  mkMethod RESPOND_TO_PRESENCE_METHOD (lit "ttb") [lit "generation"; lit "requestId"; lit "approved"] [] []
    on_presence.
Definition secret_method : MethodVTableItem :=
  mkMethod SUBMIT_SECRET_METHOD (lit "ttth") [lit "generation"; lit "requestId"; lit "promptId"; lit "secretPipe"]
    [] [] on_secret.
Definition cancel_method : MethodVTableItem :=
  mkMethod CANCEL_INTERACTION_METHOD (lit "tt") [lit "generation"; lit "requestId"] [] [] on_cancel.
Definition has_available_agent_method : MethodVTableItem :=
  mkMethod HAS_AVAILABLE_AGENT_METHOD [] [] (lit "b") [lit "available"] on_status.
Definition state_signal : SignalVTableItem :=
  mkSignalItem STATE_SIGNAL (lit "tttssss")
    [lit "generation"; lit "requestId"; lit "promptId"; lit "state"; lit "operation"; lit "relyingPartyId"; lit "message"].

(** The methods of the two interfaces. *)
Definition vtables : list (list Z * list MethodVTableItem) :=
  [(INTERFACE_NAME, [register_method; unregister_method; presence_method; secret_method; cancel_method]);
   (STATUS_INTERFACE_NAME, [has_available_agent_method])].

(** ** Handlers *)

(** [call >> ...]: an argument that is missing or of another type throws. *)
Definition read_t (args : list value) : res (Z * list value) :=
  match args with V_t n :: args => Ret (n, args) | _ => Throw runtime_error end.
Definition read_b (args : list value) : res (bool * list value) :=
  match args with V_b b :: args => Ret (b, args) | _ => Throw runtime_error end.
Definition read_h (args : list value) : res (SecretPipe * list value) :=
  match args with V_h p :: args => Ret (p, args) | _ => Throw runtime_error end.

(** The reply of a handler whose body returned these values, or threw. *)
Definition replying (error : string) (r : res (list value)) : reply :=
  match r with Ret values => Reply values | Throw _ => ErrorReply (lit error) end.

Section handlers.
Context (login : Login) (accounts : Accounts).

Definition handle_presence (call : MethodCall) : ST Service (list value) :=
  let! arguments := st_lift (
    '(generation, args) ← read_t (mc_args call);
    '(request_id, args) ← read_t args;
    '(approved, _) ← read_b args;
    Ret (generation, request_id, approved)) in
  let '(generation, request_id, approved) := arguments in
  let! _ := call_respond_to_presence login (mc_peer call) generation request_id approved in
  st_ret [].

Definition handle_secret (call : MethodCall) : ST Service (list value) :=
  let! arguments := st_lift (
    '(generation, args) ← read_t (mc_args call);
    '(request_id, args) ← read_t args;
    '(prompt_id, args) ← read_t args;
    '(secret_pipe, _) ← read_h args;
    Ret (generation, request_id, prompt_id, secret_pipe)) in
  let '(generation, request_id, prompt_id, secret_pipe) := arguments in
  let! _ := call_submit_secret login (mc_peer call) generation request_id prompt_id secret_pipe in
  st_ret [].

Definition handle_cancel (call : MethodCall) : ST Service (list value) :=
  let! arguments := st_lift (
    '(generation, args) ← read_t (mc_args call);
    '(request_id, _) ← read_t args;
    Ret (generation, request_id)) in
  let '(generation, request_id) := arguments in
  let! _ := call_cancel_interaction login (mc_peer call) generation request_id in
  st_ret [].

Definition handle_register (call : MethodCall) : ST Service (list value) :=
  let! generation := call_register_agent login accounts (mc_peer call) in
  st_ret [V_t generation].

Definition handle_unregister (call : MethodCall) : ST Service (list value) :=
  let! _ := call_unregister_agent (mc_peer call) in
  st_ret [].

Definition handle_status : ST Service (list value) :=
  let! s := st_get in
  st_ret [V_b (has_available_agent login s)].

(** The handlers catch everything and reply with their error. *)
Definition run_handler (h : handler) (call : MethodCall) (s : Service) : reply * Service :=
  let answer error m := let '(r, s') := m s in (replying error r, s') in
  match h with
  | on_register => answer "org.lamellix.vAuth.Error.RegistrationFailed" (handle_register call)
  | on_unregister => answer "org.lamellix.vAuth.Error.NotRegistered" (handle_unregister call)
  | on_presence => answer "org.lamellix.vAuth.Error.InvalidInteraction" (handle_presence call)
  | on_secret => answer "org.lamellix.vAuth.Error.InvalidInteraction" (handle_secret call)
  | on_cancel => answer "org.lamellix.vAuth.Error.InvalidInteraction" (handle_cancel call)
  | on_status => answer "org.lamellix.vAuth.Error.StatusUnavailable" handle_status
  end.

(** ** Messages *)

(** What sd-bus documents about the declared methods: a call reaches the handler of the item
    with its interface, member and signature, and no other. *)
Class ObjectBus := {
  find_method : list (list Z * list MethodVTableItem) → MethodCall → option handler;
  find_method_declared : ∀ tables call h, find_method tables call = Some h →
    ∃ items item, (mc_interface call, items) ∈ tables ∧ item ∈ items ∧ mv_name item = mc_member call ∧
      mv_inputSignature item = signature (mc_args call) ∧ mv_callbackHandler item = h;
  find_method_reached : ∀ tables call items item, (mc_interface call, items) ∈ tables → item ∈ items →
    mv_name item = mc_member call → mv_inputSignature item = signature (mc_args call) →
    is_Some (find_method tables call);
}.

(** The messages that reach the connection; the match of the constructor is for the last. *)
Inductive bus_message :=
  | Call (call : MethodCall)
  | NameOwnerChanged (name old_owner new_owner : list Z).

(** The service after a message, and the handler's reply. *)
Definition process_message `{ObjectBus} (m : bus_message) (s : Service) : option reply * Service :=
  match m with
  | Call call =>
      match find_method vtables call with
      | Some h => let '(r, s') := run_handler h call s in (Some r, s')
      | None => (None, s)
      end
  | NameOwnerChanged name old_owner new_owner =>
      if negb (bool_decide (old_owner = [])) && bool_decide (new_owner = [])
      then (None, unregister_disconnected_agent name s) else (None, s)
  end.

(** ** The agents' calls *)

(** [callMethod], [onInterface] and [withArguments] of the agents: [pipe] stands for the read
    end of the pipe they pass. *)
Definition message_of_call (peer : BusCall) (pipe : SecretPipe) (c : daemon_call) : MethodCall :=
  match c with
  | CallRespond generation request_id approved =>
      mkMethodCall INTERFACE_NAME RESPOND_TO_PRESENCE_METHOD [V_t generation; V_t request_id; V_b approved] peer
  | CallSubmit generation request_id prompt_id _ =>
      mkMethodCall INTERFACE_NAME SUBMIT_SECRET_METHOD [V_t generation; V_t request_id; V_t prompt_id; V_h pipe] peer
  | CallCancel generation request_id =>
      mkMethodCall INTERFACE_NAME CANCEL_INTERACTION_METHOD [V_t generation; V_t request_id] peer
  end.

Definition message_of_register (peer : BusCall) : MethodCall := mkMethodCall INTERFACE_NAME REGISTER_METHOD [] peer.
Definition message_of_unregister (peer : BusCall) : MethodCall := mkMethodCall INTERFACE_NAME UNREGISTER_METHOD [] peer.
(** [query_agent_status] of vauthctl. *)
Definition message_of_status (peer : BusCall) : MethodCall :=
  mkMethodCall (lit "org.lamellix.vAuth.Status1") (lit "HasAvailableAgent") [] peer.
End handlers.

(** The values of a state signal, as they are appended to it. *)
Definition signal_values (s : Signal) : list value :=
  [V_t (sg_generation s); V_t (sg_requestId s); V_t (sg_promptId s); V_s (sg_state s); V_s (sg_operation s);
   V_s (sg_relyingPartyId s); V_s (sg_message s)].

(** ** Construction *)

Definition UniqueFd_new (fd : Z) : res Z := throw_if fd <? 0 as system_error ;; Ret fd.

(** The constructor of [AgentService::Impl]: the name on the bus, the object, the eventfd, the
    declarations, and the thread. *)
Definition AgentService_new (connected created : res ()) (eventfd : Z) (declares : res ()) : res AgentThread :=
  _ ← connected;
  _ ← created;
  _ ← UniqueFd_new eventfd;
  _ ← declares;
  Ret agent_thread_initial.

(** ** What a message means *)

Section refinement.
Context (login : Login) (accounts : Accounts) `{ObjectBus}.

(** The operation on the service, said without the declarations. *)
Definition meaning (m : bus_message) : option bus_op :=
  match m with
  | Call call =>
      if negb (bool_decide (mc_interface call = INTERFACE_NAME)) then None else
      let peer := mc_peer call in
      match mc_args call with
      | [] => if bool_decide (mc_member call = REGISTER_METHOD) then Some (BusRegister login accounts peer) else
              if bool_decide (mc_member call = UNREGISTER_METHOD) then Some (BusUnregister peer) else None
      | [V_t generation; V_t request_id] =>
          if bool_decide (mc_member call = CANCEL_INTERACTION_METHOD)
          then Some (BusCancel login peer generation request_id) else None
      | [V_t generation; V_t request_id; V_b approved] =>
          if bool_decide (mc_member call = RESPOND_TO_PRESENCE_METHOD)
          then Some (BusRespond login peer generation request_id approved) else None
      | [V_t generation; V_t request_id; V_t prompt_id; V_h pipe] =>
          if bool_decide (mc_member call = SUBMIT_SECRET_METHOD)
          then Some (BusSubmit login peer generation request_id prompt_id pipe) else None
      | _ => None
      end
  | NameOwnerChanged name (_ :: _) [] => Some (BusDisconnected name)
  | NameOwnerChanged _ _ _ => None
  end.

(** The item of the declarations that a call is for. *)
Definition declared (call : MethodCall) (item : MethodVTableItem) : Prop :=
  ∃ items, (mc_interface call, items) ∈ vtables ∧ item ∈ items ∧ mv_name item = mc_member call ∧
    mv_inputSignature item = signature (mc_args call).

Lemma declared_cases call item :
  declared call item →
  mc_interface call = INTERFACE_NAME ∧
    item ∈ [register_method; unregister_method; presence_method; secret_method; cancel_method] ∨
  mc_interface call = STATUS_INTERFACE_NAME ∧ item = has_available_agent_method.
Proof.
  intros (items & Hin & Hi & _). apply elem_of_cons in Hin as [[= -> ->]|Hin]; [by left|].
  apply list_elem_of_singleton in Hin as [= -> ->]. right. split; [done|]. by apply list_elem_of_singleton.
Qed.

Lemma find_declared call :
  match find_method vtables call with
  | Some h => ∃ item, declared call item ∧ mv_callbackHandler item = h
  | None => ∀ item, ¬ declared call item
  end.
Proof.
  destruct (find_method vtables call) as [h|] eqn:E.
  - apply find_method_declared in E as (items & item & ? & ? & ? & ? & ?). exists item. split; [by exists items|done].
  - intros item (items & Hin & Hi & Hn & Hs). destruct (find_method_reached vtables call items item) as [h Hh]; congruence.
Qed.

(** Arguments of a signature. *)
Lemma signature_nil args : [] = signature args → args = [].
Proof. by destruct args. Qed.
Lemma signature_tt args : lit "tt" = signature args → ∃ g id, args = [V_t g; V_t id].
Proof. destruct args as [|[] [|[] [|]]]; try done. eauto. Qed.
Lemma signature_ttb args : lit "ttb" = signature args → ∃ g id b, args = [V_t g; V_t id; V_b b].
Proof. destruct args as [|[] [|[] [|[] [|]]]]; try done. eauto. Qed.
Lemma signature_ttth args : lit "ttth" = signature args → ∃ g id p pipe, args = [V_t g; V_t id; V_t p; V_h pipe].
Proof. destruct args as [|[] [|[] [|[] [|[] [|]]]]]; try done. eauto 6. Qed.

Ltac reduce_handler :=
  cbn -[call_register_agent call_unregister_agent call_respond_to_presence call_submit_secret call_cancel_interaction lit].

(** The reply of a handler and what the operation says of it. *)
Definition agrees (o : bus_op) (out : list Z) (s : Service) (p : reply * Service) : Prop :=
  p.2 = (bus_step o s).2 ∧
  match p.1 with Reply values => (bus_step o s).1 = true ∧ signature values = out | ErrorReply _ => (bus_step o s).1 = false end.

Lemma run_declared call item s :
  declared call item → mc_interface call = INTERFACE_NAME →
  ∃ o, meaning (Call call) = Some o ∧
    agrees o (mv_outputSignature item) s (run_handler login accounts (mv_callbackHandler item) call s).
Proof.
  intros Hd Hi. pose proof (declared_cases call item Hd) as [[_ Hin]|[E _]]; [|by rewrite Hi in E].
  destruct Hd as (_ & _ & _ & Hn & Hs). unfold meaning. rewrite bool_decide_true by done. simpl negb. cbn iota.
  rewrite <- Hn. clear Hn.
  repeat (apply elem_of_cons in Hin as [->|Hin]); [| | | | |by apply elem_of_nil in Hin]; cbn in Hs.
  - rewrite (signature_nil _ Hs). eexists. split; [done|]. unfold agrees, bus_step. reduce_handler. unfold handle_register, st_bind.
    destruct (call_register_agent _ _ _ s) as [[] ?]; by split_and!.
  - rewrite (signature_nil _ Hs). eexists. split; [done|]. unfold agrees, bus_step. reduce_handler. unfold handle_unregister, st_bind.
    destruct (call_unregister_agent _ s) as [[] ?]; by split_and!.
  - destruct (signature_ttb _ Hs) as (g & id & b & E). rewrite E. eexists. split; [done|]. unfold agrees, bus_step. reduce_handler.
    unfold handle_presence, st_bind. rewrite E. reduce_handler. destruct (call_respond_to_presence _ _ _ _ _ s) as [[] ?]; by split_and!.
  - destruct (signature_ttth _ Hs) as (g & id & p & pipe & E). rewrite E. eexists. split; [done|]. unfold agrees, bus_step.
    reduce_handler. unfold handle_secret, st_bind. rewrite E. reduce_handler. destruct (call_submit_secret _ _ _ _ _ _ s) as [[] ?]; by split_and!.
  - destruct (signature_tt _ Hs) as (g & id & E). rewrite E. eexists. split; [done|]. unfold agrees, bus_step. reduce_handler.
    unfold handle_cancel, st_bind. rewrite E. reduce_handler. destruct (call_cancel_interaction _ _ _ _ s) as [[] ?]; by split_and!.
Qed.

Lemma meaning_declared call o : meaning (Call call) = Some o → ∃ item, declared call item.
Proof.
  unfold meaning, declared. case_bool_decide as Hi; [|done]. simpl negb. cbn iota. rewrite Hi.
  assert (∀ item, item ∈ [register_method; unregister_method; presence_method; secret_method; cancel_method] →
    mv_name item = mc_member call → mv_inputSignature item = signature (mc_args call) →
    ∃ item items, (INTERFACE_NAME, items) ∈ vtables ∧ item ∈ items ∧ mv_name item = mc_member call ∧
      mv_inputSignature item = signature (mc_args call)) as Hitem.
  { intros item Hin Hn Hs. eexists item, _. split; [apply list_elem_of_here|]. done. }
  destruct (mc_args call) as [|[] [|[] [|[] [|[] [|]]]]] eqn:Ea; try done; repeat case_bool_decide; try done; intros _.
  - apply (Hitem register_method); [rewrite !elem_of_cons; by auto 7|done|done].
  - apply (Hitem unregister_method); [rewrite !elem_of_cons; by auto 7|done|done].
  - apply (Hitem cancel_method); [rewrite !elem_of_cons; by auto 7|done|done].
  - apply (Hitem secret_method); [rewrite !elem_of_cons; by auto 7|done|done].
  - apply (Hitem presence_method); [rewrite !elem_of_cons; by auto 7|done|done].
Qed.

Lemma meaning_is_message m o : meaning m = Some o → is_message o = true.
Proof.
  destruct m as [call|name [|x old] [|y new]]; simpl; try done; [|by intros [= <-]].
  destruct (negb _); [done|]. repeat case_match; naive_solver.
Qed.

(** The status query is declared on its own interface. *)
Lemma status_query call item s :
  declared call item → mc_interface call ≠ INTERFACE_NAME →
  meaning (Call call) = None ∧
  run_handler login accounts (mv_callbackHandler item) call s = (Reply [V_b (has_available_agent login s)], s).
Proof.
  intros Hd Hi. split; [unfold meaning; by rewrite bool_decide_false|].
  by destruct (declared_cases call item Hd) as [[? _]|[_ ->]].
Qed.

Lemma call_refines call s :
  let '(r, s') := process_message login accounts (Call call) s in
  match meaning (Call call) with
  | Some o => s' = (bus_step o s).2 ∧ ∃ item, declared call item ∧
      match r with
      | Some (Reply values) => (bus_step o s).1 = true ∧ signature values = mv_outputSignature item
      | Some (ErrorReply _) => (bus_step o s).1 = false
      | None => False
      end
  | None => s' = s
  end.
Proof.
  unfold process_message. pose proof (find_declared call) as Hf. destruct (find_method vtables call) as [h|].
  - destruct Hf as (item & Hd & <-). destruct (decide (mc_interface call = INTERFACE_NAME)) as [Hi|Hi].
    + destruct (run_declared call item s Hd Hi) as (o & -> & Hs & Hr).
      destruct (run_handler _ _ _ call s) as [r s']. simpl in Hs, Hr. split; [done|]. exists item. split; [done|]. by destruct r.
    + destruct (status_query call item s Hd Hi) as [-> ->]. done.
  - destruct (meaning (Call call)) as [o|] eqn:E; [|done]. apply meaning_declared in E as [item Hd]. by destruct (Hf item).
Qed.
End refinement.

(** ** Properties *)

(** C21: What arrives on the bus is what the service was verified with.  A method call leaves
    the service as one of the operations of the D-Bus thread does -- the one its interface,
    member and argument types stand for, on its arguments -- and is answered with success,
    in the declared output types, exactly when that operation is accepted; every other call,
    with unknown names or other types, leaves it unchanged, and so does the status query.  A
    lost bus name is the disconnection of that name, and nothing else is.  The calls that the
    agents make stand for the operations with the same arguments. *)
Theorem bus_messages_refine (login : Login) (accounts : Accounts) `{ObjectBus} (m : bus_message) (s : Service) :
  let '(r, s') := process_message login accounts m s in
  (match meaning login accounts m with
   | Some o => is_message o = true ∧ s' = (bus_step o s).2 ∧
       ∀ call, m = Call call → ∃ item, declared call item ∧
         match r with
         | Some (Reply values) => (bus_step o s).1 = true ∧ signature values = mv_outputSignature item
         | Some (ErrorReply _) => (bus_step o s).1 = false
         | None => False
         end
   | None => s' = s
   end) ∧
  (∀ peer pipe c, m = Call (message_of_call peer pipe c) →
     meaning login accounts m = Some (match c with
       | CallRespond g id approved => BusRespond login peer g id approved
       | CallSubmit g id prompt _ => BusSubmit login peer g id prompt pipe
       | CallCancel g id => BusCancel login peer g id
       end)) ∧
  (∀ peer, m = Call (message_of_register peer) → meaning login accounts m = Some (BusRegister login accounts peer)) ∧
  (∀ peer, m = Call (message_of_unregister peer) → meaning login accounts m = Some (BusUnregister peer)) ∧
  (∀ peer, m = Call (message_of_status peer) → r = Some (Reply [V_b (has_available_agent login s)])).
Proof.
  destruct (process_message login accounts m s) as [r s'] eqn:E. split_and!.
  - destruct (meaning login accounts m) as [o|] eqn:Em.
    + split; [by eapply meaning_is_message|]. destruct m as [call|name [|x old] [|y new]]; try done.
      * pose proof (call_refines login accounts call s) as Hc. rewrite E, Em in Hc. destruct Hc as [? ?].
        split; [done|]. intros call' [= <-]. done.
      * injection Em as <-. injection E as _ <-. done.
    + destruct m as [call|name [|x old] [|y new]]; try (by injection E); try done.
      pose proof (call_refines login accounts call s) as Hc. by rewrite E, Em in Hc.
  - intros peer pipe c ->. by destruct c.
  - by intros peer ->.
  - by intros peer ->.
  - intros peer ->. unfold process_message in E. pose proof (find_declared (message_of_status peer)) as Hf.
    destruct (find_method vtables (message_of_status peer)) as [h|].
    + destruct Hf as (item & Hd & <-). destruct (status_query login accounts _ _ s Hd) as [_ Hr]; [done|].
      rewrite Hr in E. by injection E as <-.
    + destruct (Hf has_available_agent_method). eexists. split; [apply list_elem_of_further, list_elem_of_here|].
      split; [apply list_elem_of_here|done].
Qed.

(** sd-bus's lookup as a search through the declarations. *)
Definition matching_handlers (tables : list (list Z * list MethodVTableItem)) (call : MethodCall) : list handler :=
  tables ≫= λ table,
    if bool_decide (table.1 = mc_interface call) then
      omap (λ item, if bool_decide (mv_name item = mc_member call ∧ mv_inputSignature item = signature (mc_args call))
                    then Some (mv_callbackHandler item) else None) table.2
    else [].

Lemma matching_handlers_spec tables call h :
  h ∈ matching_handlers tables call ↔
  ∃ items item, (mc_interface call, items) ∈ tables ∧ item ∈ items ∧ mv_name item = mc_member call ∧
    mv_inputSignature item = signature (mc_args call) ∧ mv_callbackHandler item = h.
Proof.
  unfold matching_handlers. rewrite list_elem_of_bind. split.
  - intros ([interface items] & Hh & Hin). simpl in Hh. case_bool_decide; [|by apply not_elem_of_nil in Hh]. subst interface.
    apply list_elem_of_omap in Hh as (item & Hi & Hm). case_bool_decide as Hc; [|done]. injection Hm as Hm.
    exists items, item. naive_solver.
  - intros (items & item & Hin & Hi & Hn & Hs & <-). exists (mc_interface call, items). split; [|done]. simpl.
    rewrite bool_decide_true by done. apply list_elem_of_omap. exists item. split; [done|]. by rewrite bool_decide_true.
Qed.

#[local] Program Instance example_bus : ObjectBus := {| find_method := λ tables call, head (matching_handlers tables call) |}.
Next Obligation.
  intros tables call h Hh. apply matching_handlers_spec. simpl in Hh. destruct (matching_handlers tables call) as [|h' l]; [done|].
  injection Hh as ->. apply list_elem_of_here.
Qed.
Next Obligation.
  intros tables call items item Hin Hi Hn Hs.
  assert (mv_callbackHandler item ∈ matching_handlers tables call) as H
    by (apply matching_handlers_spec; by exists items, item).
  simpl. destruct (matching_handlers tables call); [by apply not_elem_of_nil in H|]. by eexists.
Qed.

Lemma bus_messages_refine_witness :
  (process_message example_login example_accounts
     (Call (message_of_call example_call (mkPipe 3 true true true []) (CallCancel 1 1))) example_service).2 =
  (bus_step (BusCancel example_login example_call 1 1) example_service).2.
Proof.
  pose proof (bus_messages_refine example_login example_accounts
    (Call (message_of_call example_call (mkPipe 3 true true true []) (CallCancel 1 1))) example_service) as H.
  destruct (process_message _ _ _ _) as [r s'] eqn:E. destruct H as (H & Hm & _).
  rewrite (Hm _ _ _ eq_refl) in H. destruct H as (_ & H & _). exact H.
Defined.

(** The published description of the interfaces (docs/org.lamellix.vAuth.UserInteraction1.xml
    and Status1.xml): a method's name with its inputs and outputs, each with its type. *)
Definition documented : list (list Z * list (list Z * list (list Z * Z) * list (list Z * Z))) :=
  let arg name type := (lit name, type) in
  [(lit "org.lamellix.vAuth.UserInteraction1",
    [(lit "RegisterAgent", [], [arg "generation" 116]);
     (lit "UnregisterAgent", [], []);
     (lit "RespondToPresence", [arg "generation" 116; arg "requestId" 116; arg "approved" 98], []);
     (lit "SubmitSecret", [arg "generation" 116; arg "requestId" 116; arg "promptId" 116; arg "secretPipe" 104], []);
     (lit "CancelInteraction", [arg "generation" 116; arg "requestId" 116], [])]);
   (lit "org.lamellix.vAuth.Status1", [(lit "HasAvailableAgent", [], [arg "available" 98])])].

(** The declarations are the documented ones, and every state signal has its declared types. *)
Lemma declarations_documented :
  ((λ table : list Z * list MethodVTableItem, (table.1,
     (λ m, (mv_name m, zip (mv_inputParamNames m) (mv_inputSignature m), zip (mv_outputParamNames m) (mv_outputSignature m)))
       <$> table.2)) <$> vtables) = documented ∧
  ∀ s, signature (signal_values s) = sv_signature state_signal.
Proof. done. Qed.
