(* ===== verification/CommandLine.v ===== *)
(** * The command line of vauthctl (src/vauthctl/src/options.cpp)

    [parse_options] declares subcommands and options to the CLI11 library and fills [Options]
    from what it matched.  The declarations are data here; the library is a class with the
    documented meaning of such declarations.  Administration.v takes the [Options] from there:
    this file shows that they are complete, and that the command line which vauthctl builds
    for its second process is read back as the same request. *)
From Stdlib Require Import ZArith Lia.
From stdpp Require Import base list strings.
From S2P Require Import Prelude Listing Administration.

(** ** Declarations *)

Inductive opt_type := FlagOpt | UIntOpt | TextOpt.

(** [os_fixed]: [disable_flag_override]; [os_check]: the validator. *)
Record OptSpec := mkOpt {
  os_name : list Z;
  os_type : opt_type;
  os_required : bool;
  os_fixed : bool;
  os_check : list Z → bool;
}.

(** [required_sub]: [require_subcommand(1)]. *)
Inductive AppSpec := AppNode (name : list Z) (options : list OptSpec) (required_sub : bool) (subs : list AppSpec).

Definition app_name (a : AppSpec) : list Z := let 'AppNode name _ _ _ := a in name.

Definition no_check (_ : list Z) : bool := true.

Definition MANAGED : list Z := lit "--managed".
Definition OWNER : list Z := lit "--owner".
Definition RP : list Z := lit "--rp".
Definition ID : list Z := lit "--id".
Definition CONFIRM : list Z := lit "--confirm-destroy-all".

Definition list_owner : OptSpec := mkOpt OWNER UIntOpt false false no_check.
Definition list_rp : OptSpec := mkOpt RP TextOpt false false no_check.
Definition delete_owner : OptSpec := mkOpt OWNER UIntOpt true false no_check.
Definition delete_id : OptSpec := mkOpt ID TextOpt true false credential_id_validator.
Definition clear_confirm : OptSpec := mkOpt CONFIRM FlagOpt true true no_check.
Definition managed_flag : OptSpec := mkOpt MANAGED FlagOpt false false no_check.

Definition status_app : AppSpec := AppNode (lit "status") [] false [].
Definition provision_app : AppSpec := AppNode (lit "provision") [] false [].
Definition list_app : AppSpec := AppNode (lit "list") [list_owner; list_rp] false [].
Definition delete_app : AppSpec := AppNode (lit "delete") [delete_owner; delete_id] false [].
Definition clear_app : AppSpec := AppNode (lit "clear") [clear_confirm] false [].
Definition credentials_app : AppSpec := AppNode (lit "credentials") [] true [list_app; delete_app; clear_app].

(** With [fallthrough] an option of the tool may follow the subcommand; it is matched where it
    is declared. *)
Definition app : AppSpec :=
  AppNode [] [managed_flag] true [status_app; provision_app; credentials_app].

(** ** The library *)

(** What was given for an option, by level of subcommands. *)
Inductive given := GivenFlag (b : bool) | GivenText (text : list Z).

Inductive Parsed :=
  | Leaf (values : list (list Z * given))
  | Sub (values : list (list Z * given)) (name : list Z) (p : Parsed).

(** The conversion of a number that is not empty. *)
Class CliNumbers := {
  cli_uint32 : list Z → option Z;
  cli_uint32_range : ∀ text n, cli_uint32 text = Some n → is_u32 n;
  cli_uint32_decimal : ∀ n, is_u32 n → cli_uint32 (to_string n) = Some n;
}.

Section library.
Context `{CliNumbers}.

Definition value_ok (o : OptSpec) (g : given) : Prop :=
  match os_type o, g with
  | FlagOpt, GivenFlag b => os_fixed o = true → b = true
  | UIntOpt, GivenText text => (text = [] ∨ is_Some (cli_uint32 text)) ∧ os_check o text = true
  | TextOpt, GivenText text => os_check o text = true
  | _, _ => False
  end.

(** No option twice, only declared ones with good values, all required ones. *)
Definition values_ok (options : list OptSpec) (values : list (list Z * given)) : Prop :=
  NoDup (fst <$> values) ∧
  Forall (λ v, ∃ o, o ∈ options ∧ os_name o = v.1 ∧ value_ok o v.2) values ∧
  Forall (λ o, os_required o = true → ∃ g, (os_name o, g) ∈ values) options.

(** A line that the declarations describe. *)
Inductive matches : AppSpec → Parsed → Prop :=
  | matches_leaf name options subs values :
      values_ok options values → matches (AppNode name options false subs) (Leaf values)
  | matches_sub name options required subs values sub p :
      values_ok options values → sub ∈ subs → matches sub p →
      matches (AppNode name options required subs) (Sub values (app_name sub) p).

(** The line as arguments: an option before its value, a subcommand before its own options. *)
Definition render_value (v : list Z * given) : list (list Z) :=
  match v.2 with GivenFlag _ => [v.1] | GivenText text => [v.1; text] end.

Fixpoint render (p : Parsed) : list (list Z) :=
  match p with
  | Leaf values => concat (render_value <$> values)
  | Sub values name p => concat (render_value <$> values) ++ name :: render p
  end.

(** Values without a special meaning on a command line: a flag that is set, or a text that
    begins with a letter or a digit. *)
Definition alphanumeric (c : Z) : bool :=
  ((48 <=? c) && (c <=? 57)) || ((97 <=? c) && (c <=? 122)) || ((65 <=? c) && (c <=? 90)).

Definition plain_text (text : list Z) : bool := match text with c :: _ => alphanumeric c | [] => false end.

Definition plain_value (v : list Z * given) : Prop :=
  match v.2 with GivenFlag b => b = true | GivenText text => plain_text text = true end.

Fixpoint plain (p : Parsed) : Prop :=
  match p with
  | Leaf values => Forall plain_value values
  | Sub values _ p => Forall plain_value values ∧ plain p
  end.

(** [App::parse]: what matched, or the exit code for an error or a request for help. *)
Class CliLibrary := {
  cli_parse : AppSpec → list (list Z) → Parsed + Z;
  cli_parse_sound : ∀ args p, cli_parse app args = inl p → matches app p;
  cli_parse_complete : ∀ p, matches app p → plain p → cli_parse app (render p) = inl p;
}.

(** ** [parse_options] *)

(** The conversion to a [std::optional]: an empty text is accepted and gives [std::nullopt]. *)
Definition optional_value {A} (convert : list Z → option A) (text : list Z) : option A :=
  match text with [] => None | _ => convert text end.

Definition USAGE_ERROR_EXIT_CODE : Z := 2.

(** The variables that the declarations bind. *)
Definition bind_value (o : Options) (v : list Z * given) : Options :=
  match v with
  | (name, GivenFlag b) =>
      if bool_decide (name = MANAGED) then
        mkOptions (o_command o) b (o_ownerUid o) (o_rpId o) (o_credentialId o) (o_confirmedDestroyAll o)
      else if bool_decide (name = CONFIRM) then
        mkOptions (o_command o) (o_managed o) (o_ownerUid o) (o_rpId o) (o_credentialId o) b
      else o
  | (name, GivenText text) =>
      if bool_decide (name = OWNER) then
        mkOptions (o_command o) (o_managed o) (optional_value cli_uint32 text) (o_rpId o) (o_credentialId o) (o_confirmedDestroyAll o)
      else if bool_decide (name = RP) then
        mkOptions (o_command o) (o_managed o) (o_ownerUid o) (optional_value Some text) (o_credentialId o) (o_confirmedDestroyAll o)
      else if bool_decide (name = ID) then
        mkOptions (o_command o) (o_managed o) (o_ownerUid o) (o_rpId o) (optional_value Some text) (o_confirmedDestroyAll o)
      else o
  end.

Fixpoint bind_values (o : Options) (p : Parsed) : Options :=
  match p with
  | Leaf values => foldl bind_value o values
  | Sub values _ p => bind_values (foldl bind_value o values) p
  end.

(** The subcommands that were given. *)
Fixpoint path (p : Parsed) : list (list Z) :=
  match p with Leaf _ => [] | Sub _ name p => name :: path p end.

Definition given_sub (p : Parsed) (a : AppSpec) : bool := bool_decide (app_name a ∈ path p).

Definition set_command (c : Command) (o : Options) : Options :=
  mkOptions c (o_managed o) (o_ownerUid o) (o_rpId o) (o_credentialId o) (o_confirmedDestroyAll o).

(** The options of a line that matched. *)
Definition options_of (p : Parsed) : Options :=
  let options := bind_values (mkOptions cmd_status false None None None false) p in
  if given_sub p status_app then set_command cmd_status options
  else if given_sub p provision_app then set_command cmd_provision options
  else if given_sub p list_app then set_command cmd_credentialsList options
  else if given_sub p delete_app then set_command cmd_credentialsDelete options
  else if given_sub p clear_app then set_command cmd_credentialsClear options
  else options.

Definition parse_options `{CliLibrary} (args : list (list Z)) : ParseResult :=
  match cli_parse app args with
  | inr code => mkParse None (if code =? 0 then 0 else USAGE_ERROR_EXIT_CODE)
  | inl p => mkParse (Some (options_of p)) 0
  end.

(** ** The lines that match *)

Lemma values_none values : values_ok [] values → values = [].
Proof. intros (_ & H1 & _). destruct values as [|v values]; [done|]. apply Forall_cons in H1 as [(o & Ho & _) _]. by apply elem_of_nil in Ho. Qed.

Lemma values_one o values :
  values_ok [o] values → (values = [] ∧ os_required o = false) ∨ ∃ g, values = [(os_name o, g)] ∧ value_ok o g.
Proof.
  intros (Hnd & Hall & Hreq). rewrite Forall_singleton in Hreq.
  assert (∀ v, v ∈ values → v.1 = os_name o ∧ value_ok o v.2) as Hv.
  { intros v Hin. rewrite Forall_forall in Hall. destruct (Hall v Hin) as (o' & Ho' & <- & Hok).
    by apply list_elem_of_singleton in Ho' as ->. }
  destruct values as [|[n1 g1] [|[n2 g2] values]].
  - left. split; [done|]. destruct (os_required o); [|done]. destruct (Hreq eq_refl) as [g Hg]. by apply elem_of_nil in Hg.
  - right. destruct (Hv (n1, g1)) as [E Hok]; [apply list_elem_of_here|]. simpl in E. subst n1. by exists g1.
  - exfalso. destruct (Hv (n1, g1)) as [E1 _]; [apply list_elem_of_here|].
    destruct (Hv (n2, g2)) as [E2 _]; [apply list_elem_of_further, list_elem_of_here|]. simpl in E1, E2. subst.
    apply NoDup_cons in Hnd as [Hn _]. apply Hn, list_elem_of_here.
Qed.

(** Two options, in either order. *)
Lemma values_two o1 o2 values :
  os_name o1 ≠ os_name o2 → values_ok [o1; o2] values →
  (values = [] ∧ os_required o1 = false ∧ os_required o2 = false) ∨
  (∃ g, values = [(os_name o1, g)] ∧ value_ok o1 g ∧ os_required o2 = false) ∨
  (∃ g, values = [(os_name o2, g)] ∧ value_ok o2 g ∧ os_required o1 = false) ∨
  ∃ g1 g2, value_ok o1 g1 ∧ value_ok o2 g2 ∧
    (values = [(os_name o1, g1); (os_name o2, g2)] ∨ values = [(os_name o2, g2); (os_name o1, g1)]).
Proof.
  intros Hne (Hnd & Hall & Hreq). rewrite Forall_forall in Hall. rewrite !Forall_cons in Hreq. destruct Hreq as (R1 & R2 & _).
  assert (∀ v, v ∈ values → v.1 = os_name o1 ∧ value_ok o1 v.2 ∨ v.1 = os_name o2 ∧ value_ok o2 v.2) as Hv.
  { intros v Hin. destruct (Hall v Hin) as (o' & Ho' & <- & Hok).
    apply elem_of_cons in Ho' as [-> | ->%list_elem_of_singleton]; auto. }
  assert (∀ o : OptSpec, (os_required o = true → ∃ g, (os_name o, g) ∈ values) →
    (∀ v, v ∈ values → v.1 ≠ os_name o) → os_required o = false) as Hnr.
  { intros o Hr Hno. destruct (os_required o); [|done]. destruct (Hr eq_refl) as [g Hg]. by destruct (Hno _ Hg). }
  clear Hall. destruct values as [|[n1 g1] [|[n2 g2] [|[n3 g3] values]]].
  - left. split_and!; [done|apply Hnr..]; try done; intros v Hin; by apply elem_of_nil in Hin.
  - right. destruct (Hv (n1, g1)) as [[E Hok]|[E Hok]]; [apply list_elem_of_here|left|right; left]; simpl in E; subst n1;
      exists g1; (split_and!; [done|done|apply Hnr; [done|]]); intros v ->%list_elem_of_singleton; simpl; congruence.
  - do 3 right. apply NoDup_cons in Hnd as [Hn _]. cbn in Hn. rewrite list_elem_of_singleton in Hn.
    destruct (Hv (n1, g1)) as [[E1 H1]|[E1 H1]]; [apply list_elem_of_here| |];
      (destruct (Hv (n2, g2)) as [[E2 H2]|[E2 H2]]; [apply list_elem_of_further, list_elem_of_here| |]);
      simpl in E1, E2; subst; try done; [exists g1, g2|exists g2, g1]; auto.
  - exfalso. assert (n1 ≠ n2 ∧ n1 ≠ n3 ∧ n2 ≠ n3) as (? & ? & ?).
    { cbn in Hnd. apply NoDup_cons in Hnd as [Hn [Hn2 _]%NoDup_cons].
      rewrite !not_elem_of_cons in Hn. rewrite !not_elem_of_cons in Hn2. naive_solver. }
    destruct (Hv (n1, g1)) as [[E1 _]|[E1 _]]; [apply list_elem_of_here| |];
      (destruct (Hv (n2, g2)) as [[E2 _]|[E2 _]]; [apply list_elem_of_further, list_elem_of_here| |]);
      (destruct (Hv (n3, g3)) as [[E3 _]|[E3 _]]; [apply list_elem_of_further, list_elem_of_further, list_elem_of_here| |]);
      simpl in *; congruence.
Qed.

Lemma matches_inv name options required subs p :
  matches (AppNode name options required subs) p →
  ∃ values, values_ok options values ∧
    (required = false ∧ p = Leaf values ∨
     ∃ sub p', sub ∈ subs ∧ matches sub p' ∧ p = Sub values (app_name sub) p').
Proof. inversion 1; subst; eauto 8. Qed.

(** Options that belong to their command: numbers in range, a valid identifier, the
    confirmation, and nothing of another command.  Only the owner of a deletion may be
    missing, after an empty [--owner]. *)
Definition well_formed (o : Options) : Prop :=
  match o_command o with
  | cmd_status | cmd_provision =>
      o_ownerUid o = None ∧ o_rpId o = None ∧ o_credentialId o = None ∧ o_confirmedDestroyAll o = false
  | cmd_credentialsList => owner_ok o ∧ o_rpId o ≠ Some [] ∧ o_credentialId o = None ∧ o_confirmedDestroyAll o = false
  | cmd_credentialsDelete =>
      owner_ok o ∧
      (∃ id, o_credentialId o = Some id ∧ credential_id_validator id = true) ∧
      o_rpId o = None ∧ o_confirmedDestroyAll o = false
  | cmd_credentialsClear =>
      o_confirmedDestroyAll o = true ∧ o_ownerUid o = None ∧ o_rpId o = None ∧ o_credentialId o = None
  end.

(** The options of a line whose names are known. *)
Ltac compute_options :=
  match goal with |- well_formed ?o => let o' := eval cbv -[cli_uint32 optional_value] in o in change (well_formed o') end;
  unfold well_formed, owner_ok; simpl.

Lemma owner_value required g :
  value_ok (mkOpt OWNER UIntOpt required false no_check) g →
  ∃ text, g = GivenText text ∧
    match optional_value cli_uint32 text with Some n => is_u32 n | None => text = [] end.
Proof.
  destruct g as [|text]; [done|]. intros [Ht _]. exists text. split; [done|].
  destruct text as [|c text]; [done|]. destruct Ht as [?|[n Hn]]; [done|]. simpl. rewrite Hn. by eapply cli_uint32_range.
Qed.

Lemma text_value name required check g :
  value_ok (mkOpt name TextOpt required false check) g → ∃ text, g = GivenText text ∧ check text = true.
Proof. destruct g as [|text]; [done|]. intros Hc. by exists text. Qed.

Lemma text_not_empty text : optional_value Some text ≠ Some [].
Proof. by destruct text. Qed.

(** The validator refuses the empty identifier. *)
Lemma id_value id : credential_id_validator id = true → optional_value Some id = Some id.
Proof. by destruct id. Qed.

(** The options in front of the subcommand. *)
Definition root_values (m : list (list Z * given)) : Prop := m = [] ∨ ∃ b, m = [(MANAGED, GivenFlag b)].

Lemma list_well_formed m sub p :
  root_values m → sub ∈ [list_app; delete_app; clear_app] → matches sub p →
  well_formed (options_of (Sub m (lit "credentials") (Sub [] (app_name sub) p))).
Proof.
  intros Hm Hsub Hp. repeat (apply elem_of_cons in Hsub as [->|Hsub]); [| | |by apply elem_of_nil in Hsub];
    apply matches_inv in Hp as (vs & Hvs & [[_ ->]|(sub & p3 & Hsub & _)]); try (by apply elem_of_nil in Hsub).
  - apply values_two in Hvs as [(-> & _)|[(g & -> & (t & -> & Hn)%owner_value & _)|[(g & -> & (t & -> & _)%text_value & _)|
      (g1 & g2 & (t & -> & Hn)%owner_value & (t2 & -> & _)%text_value & [-> | ->])]]]; [..|done];
      destruct Hm as [->|[b ->]]; compute_options; (split_and!; try done; try apply text_not_empty);
      by destruct (optional_value cli_uint32 t).
  - apply values_two in Hvs as [(_ & ? & _)|[(g & _ & _ & ?)|[(g & _ & _ & ?)|
      (g1 & g2 & (t & -> & Hn)%owner_value & (t2 & -> & Hc)%text_value & [-> | ->])]]]; try done;
      destruct Hm as [->|[b ->]]; compute_options; rewrite (id_value t2) by done;
      (split_and!; [by destruct (optional_value cli_uint32 t)|by exists t2|done|done]).
  - apply values_one in Hvs as [[_ ?]|([b0|] & -> & Hg)]; [done| |done]. simpl in Hg. rewrite (Hg eq_refl).
    destruct Hm as [->|[b ->]]; by compute_options.
Qed.

Lemma app_well_formed p : matches app p → well_formed (options_of p).
Proof.
  intros (m & Hm & [[? _]|(sub & p1 & Hsub & H1 & ->)])%matches_inv; [done|].
  assert (root_values m) as Hroot.
  { apply values_one in Hm as [[-> _]|([b|] & -> & Hg)]; [by left|right; by exists b|done]. }
  repeat (apply elem_of_cons in Hsub as [->|Hsub]); [| | |by apply elem_of_nil in Hsub];
    apply matches_inv in H1 as (vs & ->%values_none & [[? ->]|(sub & p2 & Hsub & H2 & ->)]);
    try (by apply elem_of_nil in Hsub); try done.
  - destruct Hroot as [->|[b ->]]; by compute_options.
  - destruct Hroot as [->|[b ->]]; by compute_options.
  - by apply list_well_formed.
Qed.

(** ** The managed command line *)

Definition given_value (o : OptSpec) (g : option given) : list (list Z * given) :=
  match g with Some g => [(os_name o, g)] | None => [] end.

(** The line that [command_arguments] writes out. *)
Definition managed_line (o : Options) : Parsed :=
  let line := Sub [(MANAGED, GivenFlag true)] in
  let credentials name values := line (lit "credentials") (Sub [] name (Leaf values)) in
  let owner := GivenText ∘ to_string <$> o_ownerUid o in
  match o_command o with
  | cmd_status => line (lit "status") (Leaf [])
  | cmd_provision => line (lit "provision") (Leaf [])
  | cmd_credentialsList =>
      credentials (lit "list") (given_value list_owner owner ++ given_value list_rp (GivenText <$> o_rpId o))
  | cmd_credentialsDelete =>
      credentials (lit "delete")
        (given_value delete_owner owner ++ given_value delete_id (GivenText <$> o_credentialId o))
  | cmd_credentialsClear => credentials (lit "clear") [(CONFIRM, GivenFlag true)]
  end.

Definition rp_plain (o : Options) : Prop := match o_rpId o with Some rp => plain_text rp = true | None => True end.

Lemma managed_line_render o args : command_arguments o = Ret args → render (managed_line o) = args.
Proof.
  unfold command_arguments, managed_line. destruct (o_command o); [done|by intros [= <-]|..].
  - intros [= <-]. by destruct (o_ownerUid o), (o_rpId o).
  - destruct (o_ownerUid o), (o_credentialId o); try done. by intros [= <-].
  - intros [_ [= <-]]%throw_if_ret. done.
Qed.

Lemma decimal_not_nil fuel n : (0 < fuel)%nat → decimal fuel n ≠ [].
Proof.
  destruct fuel as [|fuel]; [lia|]. intros _. simpl. destruct (n <? 10); [done|]. by intros [_ ?]%app_eq_nil.
Qed.

Lemma to_string_plain n : is_u32 n → plain_text (to_string n) = true.
Proof.
  intros [Hn _]. pose proof (decimal_digits 20 n Hn) as Hd. unfold plain_text, to_string, alphanumeric in *.
  destruct (decimal 20 n) as [|c l] eqn:E.
  - by apply (decimal_not_nil 20) in E; [|lia].
  - apply Forall_cons in Hd as [Hc _]. rewrite (proj2 (Z.leb_le 48 c)), (proj2 (Z.leb_le c 57)) by lia. done.
Qed.

Lemma credential_id_plain id : credential_id_validator id = true → plain_text id = true.
Proof.
  unfold credential_id_validator. destruct (valid_credential_id_hex_length _) eqn:Ev; [|done]. simpl negb. cbv iota.
  destruct id as [|c id]; [done|]. simpl. intros [Hc _]%andb_true_iff. unfold is_hex_digit in Hc. unfold alphanumeric.
  rewrite !orb_true_iff, !andb_true_iff, !Z.leb_le in Hc. rewrite !orb_true_iff, !andb_true_iff, !Z.leb_le. lia.
Qed.

Lemma owner_given required n : is_u32 n → value_ok (mkOpt OWNER UIntOpt required false no_check) (GivenText (to_string n)).
Proof. intros Hn. split; [|done]. right. rewrite cli_uint32_decimal by done. by eexists. Qed.

Lemma owner_text n : is_u32 n → optional_value cli_uint32 (to_string n) = Some n.
Proof.
  intros Hn. unfold optional_value. destruct (to_string n) eqn:E; [by apply decimal_not_nil in E; [|lia]|].
  rewrite <- E. by apply cli_uint32_decimal.
Qed.

(** Values in the order of their declarations. *)
Definition given_ok (o : OptSpec) (g : option given) : Prop :=
  match g with Some g => value_ok o g | None => os_required o = false end.

Lemma values_pair o1 o2 g1 g2 :
  os_name o1 ≠ os_name o2 → given_ok o1 g1 → given_ok o2 g2 →
  values_ok [o1; o2] (given_value o1 g1 ++ given_value o2 g2).
Proof.
  intros Hne H1 H2.
  assert (∀ g, value_ok o1 g → ∃ o, o ∈ [o1; o2] ∧ os_name o = os_name o1 ∧ value_ok o g) as V1
    by (intros g Hg; exists o1; split; [apply list_elem_of_here|done]).
  assert (∀ g, value_ok o2 g → ∃ o, o ∈ [o1; o2] ∧ os_name o = os_name o2 ∧ value_ok o g) as V2
    by (intros g Hg; exists o2; split; [apply list_elem_of_further, list_elem_of_here|done]).
  destruct g1 as [g1|], g2 as [g2|]; simpl in *; split_and!; try apply NoDup_singleton; try apply NoDup_nil_2; try (by repeat constructor; auto);
    try (rewrite !Forall_cons, Forall_nil; split_and!; try done; intros E; try congruence; eexists;
         by first [apply list_elem_of_here|apply list_elem_of_further, list_elem_of_here]).
  apply NoDup_cons. rewrite list_elem_of_singleton. split; [done|apply NoDup_singleton].
Qed.

Lemma values_single o g : value_ok o g → values_ok [o] [(os_name o, g)].
Proof.
  intros Hg. split_and!; [apply NoDup_singleton|apply Forall_singleton|apply Forall_singleton].
  - exists o. split; [apply list_elem_of_here|done].
  - intros _. exists g. apply list_elem_of_here.
Qed.

Lemma values_nothing : values_ok [] [].
Proof. split_and!; constructor. Qed.

Lemma credentials_matches sub values :
  sub ∈ [list_app; delete_app; clear_app] → matches sub (Leaf values) →
  matches app (Sub [(MANAGED, GivenFlag true)] (lit "credentials") (Sub [] (app_name sub) (Leaf values))).
Proof.
  intros Hin Hm. eapply (matches_sub _ _ _ _ _ credentials_app).
  - by apply (values_single (mkOpt MANAGED FlagOpt false false no_check)).
  - do 2 apply list_elem_of_further. apply list_elem_of_here.
  - eapply matches_sub; [apply values_nothing|done|done].
Qed.

Lemma owner_plain o n :
  match n with Some n => is_u32 n | None => True end → Forall plain_value (given_value o (GivenText ∘ to_string <$> n)).
Proof. destruct n as [n|]; simpl; intros Hn; repeat constructor. by apply to_string_plain. Qed.

Lemma text_plain o t :
  match t with Some t => plain_text t = true | None => True end → Forall plain_value (given_value o (GivenText <$> t)).
Proof. destruct t as [t|]; simpl; intros Ht; by repeat constructor. Qed.

Lemma managed_line_matches o :
  well_formed o → complete o ∨ o_command o = cmd_status → rp_plain o → matches app (managed_line o) ∧ plain (managed_line o).
Proof.
  unfold well_formed, complete, owner_ok, rp_plain, managed_line.
  assert (∀ sub, sub ∈ [status_app; provision_app; credentials_app] → matches sub (Leaf []) →
    matches app (Sub [(MANAGED, GivenFlag true)] (app_name sub) (Leaf []))) as Hleaf.
  { intros sub Hin Hm. eapply (matches_sub _ _ _ _ _ sub); [by apply (values_single managed_flag)|done|done]. }
  assert (Forall plain_value [(MANAGED, GivenFlag true)]) as Hmp by by repeat constructor.
  destruct (o_command o); intros Hw Hcomp Hrp.
  - split.
    + apply (Hleaf status_app); [apply list_elem_of_here|apply matches_leaf, values_nothing].
    + split; [done|constructor].
  - split.
    + apply (Hleaf provision_app); [apply list_elem_of_further, list_elem_of_here|apply matches_leaf, values_nothing].
    + split; [done|constructor].
  - destruct Hw as (Ho & _). split.
    + apply (credentials_matches list_app); [apply list_elem_of_here|]. apply matches_leaf, values_pair; [done|..].
      * destruct (o_ownerUid o); [by apply owner_given|done].
      * by destruct (o_rpId o).
    + split; [done|]. split; [constructor|]. apply Forall_app_2; [by apply owner_plain|by apply text_plain].
  - destruct Hcomp as [[Hs _]|?]; [|done]. destruct (o_ownerUid o) as [n|]; [|done].
    destruct Hw as (Hn & (id & -> & Hid) & _). split.
    + apply (credentials_matches delete_app); [apply list_elem_of_further, list_elem_of_here|].
      apply matches_leaf, values_pair; [done|by apply owner_given|done].
    + split; [done|]. split; [constructor|]. apply Forall_app_2.
      * by apply (owner_plain delete_owner (Some n)).
      * by apply (text_plain delete_id (Some id)), credential_id_plain.
  - split.
    + apply (credentials_matches clear_app); [by do 2 apply list_elem_of_further; apply list_elem_of_here|].
      by apply matches_leaf, (values_single clear_confirm).
    + split; [done|]. split; [constructor|]. by repeat constructor.
Qed.

Lemma managed_line_options o :
  well_formed o → complete o →
  o_managed (options_of (managed_line o)) = true ∧ request (options_of (managed_line o)) = request o.
Proof.
  unfold well_formed, complete, owner_ok, managed_line, request. destruct o as [c m owner rp id confirm].
  cbn [o_command o_ownerUid o_rpId o_credentialId]. destruct c; [done|..]; intros Hw Hc.
  - done.
  - destruct Hw as (Ho & Hrp & _). destruct owner as [n|], rp as [[|c rp]|];
      cbn [fmap option_fmap option_map compose]; try (by split);
      cbv -[cli_uint32 to_string optional_value]; by rewrite ?(owner_text n Ho).
  - destruct owner as [n|]; [|by destruct Hc]. destruct Hw as (Hn & (i & -> & Hi) & _). cbn [fmap option_fmap option_map compose].
    cbv -[cli_uint32 to_string optional_value]; by rewrite (owner_text n Hn), (id_value i Hi).
  - done.
Qed.

(** A complete command has its second command line. *)
Lemma complete_arguments o : complete o → ∃ rest, command_arguments o = Ret rest.
Proof.
  unfold complete, command_arguments. destruct (o_command o); [done|by eexists|by eexists|..].
  - intros [H1 H2]. destruct (o_ownerUid o), (o_credentialId o); try done. by eexists.
  - intros ->. by eexists.
Qed.

(** An incomplete one does nothing. *)
Lemma incomplete_refused o : well_formed o → ¬ complete o → o_command o ≠ cmd_status →
  o_command o = cmd_credentialsDelete ∧ o_ownerUid o = None ∧
  ∀ S (operations : CommandOperations S) s, execute_command o operations s = (Throw invalid_argument, s).
Proof.
  unfold well_formed, complete, execute_command. destruct (o_command o); intros Hw Hn Hs; [done|done|done| |].
  - destruct Hw as (_ & (id & Hid & _) & _). rewrite Hid in *. destruct (o_ownerUid o); [by destruct Hn|done].
  - by destruct Hw.
Qed.
End library.

(** ** Properties *)

(** C39: The command line of vauthctl gives well-formed requests, and they survive the way
    through the second process.  Options are the result only of a line that belongs to its
    command: an owner is a 32-bit number, a deletion has a valid identifier, clearing is
    confirmed, and nothing of another command is set; any other line ends with exit code 0
    (for help) or 2.  A request that is complete has a second command line, and the second
    process parses it to a managed request for the same command, owner, relying party and
    identifier, provided that the relying party begins with a letter or a digit.  The
    parser does not guarantee completeness: [credentials delete] with an empty [--owner]
    passes as a deletion without an owner; it is the only such line, and [execute_command]
    refuses it before any operation. *)
Theorem vauthctl_request_roundtrip `{CliNumbers, !CliLibrary} args :
  match parse_options args with
  | mkParse (Some o) code => code = 0 ∧ well_formed o ∧
      (complete o → ∃ rest, command_arguments o = Ret rest ∧
        (rp_plain o →
         ∃ o', parse_options rest = mkParse (Some o') 0 ∧ o_managed o' = true ∧ well_formed o' ∧ request o' = request o)) ∧
      (¬ complete o → o_command o ≠ cmd_status →
        o_command o = cmd_credentialsDelete ∧ o_ownerUid o = None ∧
        ∀ S (operations : CommandOperations S) s, execute_command o operations s = (Throw invalid_argument, s))
  | mkParse None code => code = 0 ∨ code = USAGE_ERROR_EXIT_CODE
  end.
Proof.
  unfold parse_options at 1. destruct (cli_parse app args) as [p|code] eqn:E.
  - pose proof (app_well_formed p (cli_parse_sound _ _ E)) as Hw. split_and!; [done|done| |by apply incomplete_refused].
    intros Hc. destruct (complete_arguments _ Hc) as [rest Hr]. exists rest. split; [done|].
    intros Hrp. destruct (managed_line_matches _ Hw (or_introl Hc) Hrp) as [Hm Hp].
    exists (options_of (managed_line (options_of p))). unfold parse_options.
    rewrite <- (managed_line_render _ _ Hr), (cli_parse_complete _ Hm Hp).
    destruct (managed_line_options _ Hw Hc) as [? ?]. by auto using app_well_formed.
  - destruct (code =? 0); auto.
Qed.

(** ** A parser with these laws *)

Definition example_uint32 (text : list Z) : option Z :=
  if (0 <=? of_decimal text) && (of_decimal text <? 2 ^ 32) then Some (of_decimal text) else None.

#[local] Program Instance example_numbers : CliNumbers := {| cli_uint32 := example_uint32 |}.
Next Obligation.
  intros text n. unfold example_uint32. destruct (_ && _) eqn:E; [|done]. intros [= <-]. reflect_bools. lia.
Qed.
Next Obligation.
  intros n Hn. unfold example_uint32, to_string. rewrite of_decimal_decimal by (simpl; lia).
  rewrite (proj2 (Z.leb_le 0 n)), (proj2 (Z.ltb_lt n (2 ^ 32))) by lia. done.
Qed.

Definition find_option (options : list OptSpec) (name : list Z) : option OptSpec :=
  find (λ o, bool_decide (os_name o = name)) options.

(** Options up to the first argument that is none. *)
Fixpoint take_values (options : list OptSpec) (args : list (list Z)) : list (list Z * given) * list (list Z) :=
  match args with
  | name :: rest =>
      match find_option options name with
      | Some o =>
          match os_type o, rest with
          | FlagOpt, _ => let '(vs, tail) := take_values options rest in ((name, GivenFlag true) :: vs, tail)
          | _, text :: rest => let '(vs, tail) := take_values options rest in ((name, GivenText text) :: vs, tail)
          | _, [] => ([], args)
          end
      | None => ([], args)
      end
  | [] => ([], [])
  end.

Fixpoint take_line (fuel : nat) (a : AppSpec) (args : list (list Z)) : option Parsed :=
  match fuel with
  | O => None
  | S fuel =>
      let 'AppNode _ options _ subs := a in
      let '(values, tail) := take_values options args in
      match tail with
      | [] => Some (Leaf values)
      | name :: tail =>
          match find (λ s, bool_decide (app_name s = name)) subs with
          | Some s => Sub values name <$> take_line fuel s tail
          | None => None
          end
      end
  end.

(** Options of distinct names, none of them a subcommand, at every level. *)
Fixpoint names_ok (fuel : nat) (a : AppSpec) : bool :=
  match fuel with
  | O => false
  | S fuel =>
      let 'AppNode _ options _ subs := a in
      bool_decide (NoDup (os_name <$> options)) && bool_decide (NoDup (app_name <$> subs)) &&
      forallb (λ s, match find_option options (app_name s) with Some _ => false | None => names_ok fuel s end) subs
  end.

Lemma find_named {A} (f : A → list Z) (l : list A) x :
  NoDup (f <$> l) → x ∈ l → find (λ y, bool_decide (f y = f x)) l = Some x.
Proof.
  induction l as [|y l IH]; intros Hnd Hin; [by apply elem_of_nil in Hin|]. cbn in Hnd |- *. apply NoDup_cons in Hnd as [Hn Hnd].
  apply elem_of_cons in Hin as [->|Hin]; [by rewrite bool_decide_true|].
  rewrite bool_decide_false; [by apply IH|]. intros E. apply Hn. rewrite E. by apply list_elem_of_fmap_2.
Qed.

Lemma take_values_render options values tail :
  NoDup (os_name <$> options) → Forall plain_value values →
  Forall (λ v, ∃ o, o ∈ options ∧ os_name o = v.1 ∧ value_ok o v.2) values →
  match tail with [] => True | name :: _ => find_option options name = None end →
  take_values options (concat (render_value <$> values) ++ tail) = (values, tail).
Proof.
  intros Hnd Hp Hv Htail. induction values as [|[name g] values IH]; cbn.
  - destruct tail as [|n tail]; [done|]. simpl. by rewrite Htail.
  - apply Forall_cons in Hp as [Hg Hp]. apply Forall_cons in Hv as [(o & Ho & Hname & Hok) Hv].
    simpl in Hname, Hok. subst name.
    specialize (IH Hp Hv). assert (find_option options (os_name o) = Some o) as Hf by by apply find_named.
    unfold value_ok in Hok. destruct (os_type o) eqn:Et, g as [b|text]; try done; cbn; rewrite Hf, Et, IH; [|done..].
    unfold plain_value in Hg. simpl in Hg. by subst b.
Qed.

Lemma take_line_render fuel a p :
  names_ok fuel a = true → matches a p → plain p → take_line fuel a (render p) = Some p.
Proof.
  revert a p. induction fuel as [|fuel IH]; intros a p Hn Hm Hp; [done|].
  destruct Hm as [name options subs values Hv|name options required subs values sub p Hv Hsub Hm]; cbn in Hn, Hp |- *.
  - apply andb_true_iff in Hn as [[Hn _]%andb_true_iff _]. apply bool_decide_eq_true in Hn.
    rewrite <- (app_nil_r (concat _)), (take_values_render options values []); [done|done|done|apply Hv|done].
  - apply andb_true_iff in Hn as [[Hn Hns]%andb_true_iff Hall]. apply bool_decide_eq_true in Hn, Hns. destruct Hp as [Hpv Hp].
    rewrite forallb_forall in Hall. specialize (Hall sub (proj1 (list_elem_of_In _ _) Hsub)).
    destruct (find_option options (app_name sub)) eqn:Ef; [done|].
    rewrite (take_values_render options values (app_name sub :: render p)); [|done|done|apply Hv|done].
    rewrite find_named by done. by rewrite (IH sub p).
Qed.

(** Whether a line is one that the declarations describe. *)
#[local] Instance value_ok_dec o g : Decision (value_ok o g).
Proof. unfold value_ok. destruct (os_type o), g; apply _. Defined.

Definition check_values (options : list OptSpec) (values : list (list Z * given)) : bool :=
  bool_decide (NoDup values.*1) &&
  forallb (λ v, existsb (λ o, bool_decide (os_name o = v.1 ∧ value_ok o v.2)) options) values &&
  forallb (λ o, negb (os_required o) || bool_decide (os_name o ∈ values.*1)) options.

Fixpoint check_line (p : Parsed) (a : AppSpec) : bool :=
  let 'AppNode _ options required subs := a in
  match p with
  | Leaf values => negb required && check_values options values
  | Sub values name p => check_values options values &&
      existsb (λ s, bool_decide (app_name s = name) && check_line p s) subs
  end.

Lemma check_values_spec options values : check_values options values = true ↔ values_ok options values.
Proof.
  unfold check_values, values_ok. rewrite !andb_true_iff, bool_decide_eq_true, !forallb_forall, !Forall_forall, Logic.and_assoc.
  apply and_iff_compat_l. split; intros [H1 H2]; split.
  - intros v Hv%list_elem_of_In. apply H1, existsb_exists in Hv as (o & Ho & Hd). apply bool_decide_eq_true in Hd.
    exists o. split; [by apply list_elem_of_In|done].
  - intros o Ho%list_elem_of_In Hr. specialize (H2 o Ho). rewrite Hr in H2. simpl in H2. apply bool_decide_eq_true in H2.
    apply list_elem_of_fmap in H2 as ([n g] & -> & Hg). by exists g.
  - intros v Hv%list_elem_of_In. destruct (H1 v Hv) as (o & Ho & Hd). apply existsb_exists. exists o.
    split; [by apply list_elem_of_In|by apply bool_decide_eq_true].
  - intros o Ho%list_elem_of_In. destruct (os_required o) eqn:Hr; [|done]. destruct (H2 o Ho Hr) as [g Hg].
    apply bool_decide_eq_true, list_elem_of_fmap. by exists (os_name o, g).
Qed.

Lemma check_line_matches p a : check_line p a = true → matches a p.
Proof.
  revert a. induction p as [values|values name p IH]; intros [n options required subs]; simpl.
  - intros [Hr Hv%check_values_spec]%andb_true_iff. destruct required; [done|]. by constructor.
  - intros [Hv%check_values_spec (s & Hs & Hc)%existsb_exists]%andb_true_iff. apply andb_true_iff in Hc as [Hn Hc].
    apply bool_decide_eq_true in Hn as <-. constructor; [done|by apply list_elem_of_In|by apply IH].
Qed.

Lemma matches_check_line p a : matches a p → check_line p a = true.
Proof.
  induction 1 as [n options subs values Hv|n options required subs values s p Hv Hs Hm IH]; simpl.
  - by apply check_values_spec.
  - apply andb_true_iff. split; [by apply check_values_spec|]. apply existsb_exists. exists s.
    split; [by apply list_elem_of_In|]. by rewrite bool_decide_true.
Qed.

Definition example_parse (a : AppSpec) (args : list (list Z)) : Parsed + Z :=
  match take_line 3 a args with Some p => if check_line p a then inl p else inr 106 | None => inr 109 end.

#[local] Program Instance example_cli : CliLibrary := {| cli_parse := example_parse |}.
Next Obligation.
  intros args p. unfold example_parse. destruct (take_line 3 app args) as [q|]; [|done].
  destruct (check_line q app) eqn:E; [|done]. intros [= <-]. by apply check_line_matches.
Qed.
Next Obligation.
  intros p Hm Hp. unfold example_parse. rewrite (take_line_render 3 app p) by done. by rewrite matches_check_line.
Qed.

(** A deletion, as the administrator types it and as the second process gets it. *)
Definition example_arguments (owner : list Z) : list (list Z) :=
  [lit "credentials"; lit "delete"; lit "--id"; replicate 32 97; lit "--owner"; owner].

Definition example_deletion (owner : option Z) : Options :=
  mkOptions cmd_credentialsDelete false owner None (Some (replicate 32 97)) false.

(** The deletion with an owner comes back; with an empty one it is refused. *)
Lemma vauthctl_request_roundtrip_witness :
  (parse_options (example_arguments (lit "1000")) = mkParse (Some (example_deletion (Some 1000))) 0 ∧
   ∃ rest o', command_arguments (example_deletion (Some 1000)) = Ret rest ∧
     parse_options rest = mkParse (Some o') 0 ∧ o_managed o' = true ∧
     request o' = (cmd_credentialsDelete, Some 1000, Some (replicate 32 97))) ∧
  (parse_options (example_arguments []) = mkParse (Some (example_deletion None)) 0 ∧
   ∀ p : CommandOperations (), execute_command (example_deletion None) p () = (Throw invalid_argument, ())).
Proof.
  pose proof (vauthctl_request_roundtrip (example_arguments (lit "1000"))) as H1.
  pose proof (vauthctl_request_roundtrip (example_arguments [])) as H2.
  assert (parse_options (example_arguments (lit "1000")) = mkParse (Some (example_deletion (Some 1000))) 0) as E1
    by (vm_compute; reflexivity).
  assert (parse_options (example_arguments []) = mkParse (Some (example_deletion None)) 0) as E2
    by (vm_compute; reflexivity).
  rewrite E1 in H1. rewrite E2 in H2. split; (split; [done|]).
  - destruct H1 as (_ & _ & H1 & _). destruct H1 as (rest & Hr & H1); [by split|].
    destruct (H1 I) as (o' & ? & ? & _ & ?). by exists rest, o'.
  - destruct H2 as (_ & _ & _ & H2). destruct H2 as (_ & _ & H2); [by intros [? _]|done|]. intros p. apply H2.
Defined.
