(* ===== verification/VerifierProcess.v ===== *)
(** * The descriptors and processes of the PAM verifier (src/src/uv/src/cancellable_process.cpp)

    VerifierService.v takes the calls that make the sockets and start the child by their
    results.  This file models the calls themselves on a process with a descriptor table: the
    objects that own descriptors and spawn settings, their destructors on every way out, and
    what [posix_spawn] makes of the settings.  Its theorems: the child is confined to the
    standard streams and its socket, in a process group of its own; nothing is left behind in
    the parent, whichever call fails; and the calls implement the steps VerifierService.v is
    verified with. *)
From Stdlib Require Import ZArith Lia.
From stdpp Require Import base list gmap functions strings.
From S2P Require Import Prelude VerifierProtocol VerifierConversation VerifierSocket.
From S2P Require Import VerifierClient VerifierService VerifierServiceProofs.

(** ** The process *)

(** An entry of a descriptor table: the open file and the close-on-exec flag. *)
Record OpenFd := mkOpenFd { of_file : Z; of_cloexec : bool }.

#[global] Instance OpenFd_eq_dec : EqDecision OpenFd.
Proof. solve_decision. Defined.

(** A [posix_spawnattr_t]. *)
Record Attributes := mkAttributes {
  at_pgroup : Z;
  at_sigmask : list Z;
  at_sigdefault : list Z;
  at_flags : Z;
}.

(** A started program: what it inherits and what the attributes give it. *)
Record Image := mkImage {
  im_pid : Z;
  im_path : list Z;
  im_argv : list (list Z);
  im_fds : gmap Z Z;
  im_group : Z;
  im_mask : list Z;
  im_ignored : list Z;
}.

(** The variables that own a descriptor: the two members of [sockets] and the member of
    [socket]; -1 when they own none. *)
Inductive var := v_daemon | v_verifier | v_socket.
#[global] Instance var_eq_dec : EqDecision var.
Proof. solve_decision. Defined.

(** [sy_attributes], [sy_actions]: the spawn objects that were initialised and not yet
    destroyed.  [sy_codes]: what the calls to come answer, zero for success and after the
    last.  [sy_group], [sy_mask], [sy_ignored]: the process's own group and signals. *)
Record Sys := mkSys {
  sy_fds : gmap Z OpenFd;
  sy_vars : var → Z;
  sy_attributes : list Attributes;
  sy_actions : list (list file_action);
  sy_codes : list Z;
  sy_next_file : Z;
  sy_next_pid : Z;
  sy_group : Z;
  sy_mask : list Z;
  sy_ignored : list Z;
  sy_children : list Image;
}.

Definition map_fds (g : gmap Z OpenFd → gmap Z OpenFd) (s : Sys) : Sys :=
  mkSys (g (sy_fds s)) (sy_vars s) (sy_attributes s) (sy_actions s) (sy_codes s) (sy_next_file s)
    (sy_next_pid s) (sy_group s) (sy_mask s) (sy_ignored s) (sy_children s).
Definition set_var (x : var) (fd : Z) (s : Sys) : Sys :=
  mkSys (sy_fds s) (<[x := fd]> (sy_vars s)) (sy_attributes s) (sy_actions s) (sy_codes s) (sy_next_file s)
    (sy_next_pid s) (sy_group s) (sy_mask s) (sy_ignored s) (sy_children s).
Definition set_attributes (l : list Attributes) (s : Sys) : Sys :=
  mkSys (sy_fds s) (sy_vars s) l (sy_actions s) (sy_codes s) (sy_next_file s)
    (sy_next_pid s) (sy_group s) (sy_mask s) (sy_ignored s) (sy_children s).
Definition set_actions (l : list (list file_action)) (s : Sys) : Sys :=
  mkSys (sy_fds s) (sy_vars s) (sy_attributes s) l (sy_codes s) (sy_next_file s)
    (sy_next_pid s) (sy_group s) (sy_mask s) (sy_ignored s) (sy_children s).
Definition set_codes (l : list Z) (s : Sys) : Sys :=
  mkSys (sy_fds s) (sy_vars s) (sy_attributes s) (sy_actions s) l (sy_next_file s)
    (sy_next_pid s) (sy_group s) (sy_mask s) (sy_ignored s) (sy_children s).
Definition set_next_file (n : Z) (s : Sys) : Sys :=
  mkSys (sy_fds s) (sy_vars s) (sy_attributes s) (sy_actions s) (sy_codes s) n
    (sy_next_pid s) (sy_group s) (sy_mask s) (sy_ignored s) (sy_children s).
Definition add_child (c : Image) (s : Sys) : Sys :=
  mkSys (sy_fds s) (sy_vars s) (sy_attributes s) (sy_actions s) (sy_codes s) (sy_next_file s)
    (sy_next_pid s + 1) (sy_group s) (sy_mask s) (sy_ignored s) (sy_children s ++ [c]).

(** ** Calls *)

Definition next_code : ST Sys Z := λ s,
  match sy_codes s with [] => (Ret 0, s) | rc :: l => (Ret rc, set_codes l s) end.

(** [rc = call(...); if(rc != 0) throw std::system_error(...);] where a call that succeeds
    has the effect [g]. *)
Definition checked (g : Sys → Sys) : ST Sys () :=
  let! rc := next_code in
  if negb (rc =? 0) then st_throw system_error else st_modify g.

(** The lowest number from [n] on that is free, looking at [fuel] of them. *)
Fixpoint lowest_free (fuel : nat) (n : Z) (fds : gmap Z OpenFd) : Z :=
  match fuel with
  | O => n
  | Datatypes.S fuel => match fds !! n with None => n | Some _ => lowest_free fuel (n + 1) fds end
  end.

(** A new descriptor is the lowest free one from [minimum] on; one of [size fds + 1] numbers
    is free. *)
Definition install (minimum : Z) (f : OpenFd) : ST Sys Z := λ s,
  let fd := lowest_free (Datatypes.S (size (sy_fds s))) minimum (sy_fds s) in
  (Ret fd, map_fds <[fd := f]> s).

(** [close]: it gives the descriptor back whatever it answers, and the answer is ignored. *)
Definition sys_close (fd : Z) (s : Sys) : Sys := map_fds (delete fd) s.

(** [socketpair] with SOCK_CLOEXEC: two new files. *)
Definition socketpair : ST Sys (option (Z * Z)) :=
  let! rc := next_code in
  if negb (rc =? 0) then st_ret None else
  let! s := st_get in
  let file := sy_next_file s in
  let! _ := st_modify (set_next_file (file + 2)) in
  let! a := install 0 (mkOpenFd file true) in
  let! b := install 0 (mkOpenFd (file + 1) true) in
  st_ret (Some (a, b)).

(** [fcntl(fd, F_DUPFD_CLOEXEC, minimum)] *)
Definition fcntl_dupfd (fd minimum : Z) : ST Sys Z :=
  let! rc := next_code in
  if negb (rc =? 0) then st_ret (-1) else
  let! s := st_get in
  match sy_fds s !! fd with
  | None => st_ret (-1)
  | Some f => install minimum (mkOpenFd (of_file f) true)
  end.

(** ** Owners of descriptors (class UniqueFd) *)

(** [~UniqueFd()] *)
Definition destroy_fd (x : var) (s : Sys) : Sys :=
  if 0 <=? sy_vars s x then sys_close (sy_vars s x) s else s.

(** [operator=(UniqueFd&&)], from a temporary that holds [fd] and is left with -1; this is
    all there is to [reset]. *)
Definition reset_fd (x : var) (fd : Z) (s : Sys) : Sys := set_var x fd (destroy_fd x s).

Definition release_fd (x : var) : ST Sys Z := λ s, (Ret (sy_vars s x), set_var x (-1) s).

(** The two ends become [sockets.daemon] and [sockets.verifier]. *)
Definition make_sockets : ST Sys () :=
  let! descriptors := socketpair in
  match descriptors with
  | None => st_throw system_error
  | Some (a, b) => st_modify (λ s, set_var v_verifier b (set_var v_daemon a s))
  end.

Definition move_above (x : var) : ST Sys () :=
  let! s := st_get in
  let fd := sy_vars s x in
  if (fd =? VERIFIER_SOCKET_FD) || (fd =? VERIFIER_SOCKET_FD + 1) then
    let! duplicate := fcntl_dupfd fd (VERIFIER_SOCKET_FD + 2) in
    if duplicate <? 0 then st_throw system_error else st_modify (reset_fd x duplicate)
  else st_ret ().

(** [VerifierSocket socket(fd)]: a descriptor that does not pass validation is closed. *)
Definition open_socket (fd : Z) (d : Descriptor) : ST Sys () := λ s,
  match VerifierSocket_new fd d with
  | Throw e => (Throw e, if 0 <=? fd then sys_close fd s else s)
  | Ret fd => (Ret (), set_var v_socket fd s)
  end.

(** ** Spawning (classes SpawnAttributes and SpawnFileActions, spawn_program) *)

Definition POSIX_SPAWN_SETPGROUP : Z := 2.
Definition POSIX_SPAWN_SETSIGDEF : Z := 4.
Definition POSIX_SPAWN_SETSIGMASK : Z := 8.

(** The current object is the first of its list. *)
Definition push_attributes (s : Sys) : Sys := set_attributes (mkAttributes 0 [] [] 0 :: sy_attributes s) s.
Definition update_attributes (g : Attributes → Attributes) (s : Sys) : Sys :=
  match sy_attributes s with [] => s | a :: l => set_attributes (g a :: l) s end.
Definition pop_attributes (s : Sys) : Sys := set_attributes (tail (sy_attributes s)) s.

Definition setpgroup (pgroup : Z) : Sys → Sys :=
  update_attributes (λ a, mkAttributes pgroup (at_sigmask a) (at_sigdefault a) (at_flags a)).
Definition setsigmask (mask : list Z) : Sys → Sys :=
  update_attributes (λ a, mkAttributes (at_pgroup a) mask (at_sigdefault a) (at_flags a)).
Definition setsigdefault (signals : list Z) : Sys → Sys :=
  update_attributes (λ a, mkAttributes (at_pgroup a) (at_sigmask a) signals (at_flags a)).
Definition setflags (flags : Z) : Sys → Sys :=
  update_attributes (λ a, mkAttributes (at_pgroup a) (at_sigmask a) (at_sigdefault a) flags).

Definition push_actions (s : Sys) : Sys := set_actions ([] :: sy_actions s) s.
Definition add_action (a : file_action) (s : Sys) : Sys :=
  match sy_actions s with [] => s | l :: rest => set_actions ((l ++ [a]) :: rest) s end.
Definition pop_actions (s : Sys) : Sys := set_actions (tail (sy_actions s)) s.

(** A call in a constructor that destroys the object again before it throws. *)
Definition checked_or_destroy (g destroy : Sys → Sys) : ST Sys () := λ s,
  match checked g s with
  | (Throw e, s) => (Throw e, destroy s)
  | other => other
  end.

(** The body of a scope with a spawn object: constructed, used, destroyed. *)
Definition with_object {A} (construct : ST Sys ()) (destroy : Sys → Sys) (body : ST Sys A) : ST Sys A := λ s,
  match construct s with
  | (Throw e, s) => (Throw e, s)
  | (Ret _, s) => let '(r, s) := body s in (r, destroy s)
  end.

Definition new_attributes : ST Sys () := checked push_attributes.

Definition new_file_actions (verifier_fd : Z) : ST Sys () :=
  let! _ := checked push_actions in
  let! _ := (if 0 <=? verifier_fd
             then checked_or_destroy (add_action (fa_dup2 verifier_fd VERIFIER_SOCKET_FD)) pop_actions
             else st_ret ()) in
  let close_from := if 0 <=? verifier_fd then VERIFIER_SOCKET_FD + 1 else STDERR_FILENO + 1 in
  checked_or_destroy (add_action (fa_closefrom close_from)) pop_actions.

(** What one file action does to the child's table; [None] when it fails. *)
Definition child_action (fds : gmap Z OpenFd) (a : file_action) : option (gmap Z OpenFd) :=
  match a with
  | fa_dup2 fd target => f ← fds !! fd; Some (<[target := mkOpenFd (of_file f) false]> fds)
  | fa_closefrom fd => Some (filter (λ entry, entry.1 < fd) fds)
  end.

Fixpoint child_actions (l : list file_action) (fds : gmap Z OpenFd) : option (gmap Z OpenFd) :=
  match l with
  | [] => Some fds
  | a :: l => fds ← child_action fds a; child_actions l fds
  end.

(** The descriptors with the flag are closed when the program is executed. *)
Definition after_exec (fds : gmap Z OpenFd) : gmap Z Z :=
  omap (λ f, if of_cloexec f then None else Some (of_file f)) fds.

Definition has_flag (a : Attributes) (flag : Z) : bool := negb (Z.land (at_flags a) flag =? 0).

Definition image (s : Sys) (a : Attributes) (fds : gmap Z OpenFd) (path : list Z) (argv : list (list Z)) : Image :=
  let pid := sy_next_pid s in
  mkImage pid (c_string path) (c_string <$> argv) (after_exec fds)
    (if has_flag a POSIX_SPAWN_SETPGROUP then (if at_pgroup a =? 0 then pid else at_pgroup a) else sy_group s)
    (if has_flag a POSIX_SPAWN_SETSIGMASK then at_sigmask a else sy_mask s)
    (if has_flag a POSIX_SPAWN_SETSIGDEF then filter (λ signal, signal ∉ at_sigdefault a) (sy_ignored s)
     else sy_ignored s).

(** [posix_spawn], checked; a failing file action makes it fail, too. *)
Definition posix_spawn (path : list Z) (argv : list (list Z)) : ST Sys Z :=
  let! rc := next_code in
  if negb (rc =? 0) then st_throw system_error else
  let! s := st_get in
  match sy_attributes s, sy_actions s with
  | a :: _, actions :: _ =>
      match child_actions actions (sy_fds s) with
      | None => st_throw system_error
      | Some fds =>
          let! _ := st_modify (add_child (image s a fds path argv)) in
          st_ret (sy_next_pid s)
      end
  | _, _ => st_throw system_error
  end.

(** The body of [spawn_program] after the two objects were constructed.  A signal set is the
    list of its signals. *)
Definition spawn_body (path : list Z) (arguments : list (list Z)) : ST Sys Z :=
  let argv := path :: arguments in
  let! _ := checked (setpgroup 0) in
  let! _ := checked id in
  let child_mask := [] in
  let! _ := checked (setsigmask child_mask) in
  let! _ := checked id in
  let! _ := checked id in
  let! _ := checked id in
  let child_defaults := [SIGINT; SIGTERM] in
  let! _ := checked (setsigdefault child_defaults) in
  let spawn_flags := Z.lor (Z.lor POSIX_SPAWN_SETPGROUP POSIX_SPAWN_SETSIGMASK) POSIX_SPAWN_SETSIGDEF in
  let! _ := checked (setflags spawn_flags) in
  posix_spawn path argv.

Definition spawn (path : list Z) (arguments : list (list Z)) (verifier_fd : Z) : ST Sys Z :=
  with_object new_attributes pop_attributes
    (with_object (new_file_actions verifier_fd) pop_actions (spawn_body path arguments)).

(** ** Starting and leaving the supervised program *)

(** From the sockets to the child, the body of [run_cancellable_verifier_program] before its
    conversation: the socket's descriptor and the child's pid. *)
Definition acquire (path : list Z) (arguments : list (list Z)) (d : Descriptor) : ST Sys (Z * Z) :=
  let! _ := make_sockets in
  let! _ := move_above v_daemon in
  let! _ := move_above v_verifier in
  let! fd := release_fd v_daemon in
  let! _ := open_socket fd d in
  let! s := st_get in
  let! pid := spawn path arguments (sy_vars s v_verifier) in
  let! _ := st_modify (reset_fd v_verifier (-1)) in
  let! s := st_get in
  st_ret (sy_vars s v_socket, pid).

(** The destructors of [socket] and of [sockets], whose members go in reverse order. *)
Definition leave (s : Sys) : Sys := destroy_fd v_daemon (destroy_fd v_verifier (destroy_fd v_socket s)).

Section run.
Context {S E : Type} (cb : Callbacks S E).

(** What the run meets apart from the calls of [Sys]. *)
Record SysStart := mkSysStart {
  ss_path : list Z;
  ss_arguments : list (list Z);
  ss_stop : bool;
  ss_cancel : E;
  ss_now : Z;
  ss_descriptor : Descriptor;
  ss_send : send_result;
}.

Record Running := mkRunning { rn_sys : Sys; rn_program : Program S }.

Definition on_sys {A} (m : ST Sys A) : ST Running A := λ r,
  let '(o, s) := m (rn_sys r) in (o, mkRunning s (rn_program r)).
Definition on_program {A} (m : ST (Program S) A) : ST Running A := λ r,
  let '(o, p) := m (rn_program r) in (o, mkRunning (rn_sys r) p).

Definition sys_start (timeout : Z) (i : SysStart) : ST Running () :=
  if ss_stop i then st_throw OperationCancelled else
  let! cancelled := on_program (on_owner (cancellation_requested cb (ss_cancel i))) in
  if (cancelled : bool) then st_throw UserInteractionCancelled else
  if len (ss_path i) =? 0 then st_throw invalid_argument else
  if timeout <=? 0 then st_throw invalid_argument else
  let! started := on_sys (acquire (ss_path i) (ss_arguments i) (ss_descriptor i)) in
  let '(fd, pid) := started in
  on_program (st_modify (λ p, mkProgram (endpoint_new fd)
    (mkChild pid [] (ss_path i :: ss_arguments i)) None (pg_world p))).

(** The variables of a call start empty; whichever way it ends, the child is reaped, then the
    descriptors are closed.  [None]: it has not ended. *)
Definition sys_run (uid : Z) (session : list Z) (timeout : Z) (i : SysStart)
    (env : list (ProgramTurn E)) (graces : Graces) (s : Sys) (w : S)
    : option (res VerificationResult) * Running :=
  let s := set_var v_daemon (-1) (set_var v_verifier (-1) (set_var v_socket (-1) s)) in
  match sys_start timeout i (mkRunning s (mkProgram (endpoint_new (-1)) no_child None w)) with
  | (Throw e, r) => (Some (Throw e), mkRunning (leave (rn_sys r)) (rn_program r))
  | (Ret _, r) =>
      let '(o, p) :=
        match on_endpoint (send_message daemon (StartVerification uid session) (ss_send i)) (rn_program r) with
        | (Throw e, p) => (Some (Throw e), p)
        | (Ret _, p) => program_loop cb (ss_now i + timeout) env p
        end in
      match o with
      | None => (None, mkRunning (rn_sys r) p)
      | Some o => (Some o, mkRunning (leave (rn_sys r)) (snd (reap graces p)))
      end
  end.

(** [run_cancellable_program]: the child has no socket, and there is none to close. *)
Definition sys_run_program (timeout : Z) (i : SysStart) (env : list (PlainTurn E)) (graces : Graces)
    (s : Sys) (w : S) : option (res Z) * Running :=
  let p := mkProgram (endpoint_new (-1)) no_child None w in
  if ss_stop i then (Some (Throw OperationCancelled), mkRunning s p) else
  match on_owner (cancellation_requested cb (ss_cancel i)) p with
  | (Throw e, p) => (Some (Throw e), mkRunning s p)
  | (Ret true, p) => (Some (Throw UserInteractionCancelled), mkRunning s p)
  | (Ret false, p) =>
      if len (ss_path i) =? 0 then (Some (Throw invalid_argument), mkRunning s p) else
      if timeout <=? 0 then (Some (Throw invalid_argument), mkRunning s p) else
      match spawn (ss_path i) (ss_arguments i) (-1) s with
      | (Throw e, s) => (Some (Throw e), mkRunning s p)
      | (Ret pid, s) =>
          let '(o, p) := plain_loop cb (ss_now i + timeout) env
            (mkProgram (pg_socket p) (mkChild pid [] (ss_path i :: ss_arguments i)) None (pg_world p)) in
          match o with
          | None => (None, mkRunning s p)
          | Some r => (Some r, mkRunning s (snd (reap graces p)))
          end
      end
  end.
End run.
Arguments SysStart : clear implicits.
Arguments Running : clear implicits.

(** ** New descriptors *)

Lemma lowest_free_spec fuel n fds :
  n ≤ lowest_free fuel n fds ∧
  (fds !! lowest_free fuel n fds = None ∨ ∀ k, n ≤ k < n + Z.of_nat fuel → is_Some (fds !! k)).
Proof.
  revert n. induction fuel as [|fuel IH]; intros n; simpl; [split; [lia|right; lia]|].
  destruct (fds !! n) as [f|] eqn:E; [|by auto with lia].
  destruct (IH (n + 1)) as [Hn Hf]. split; [lia|]. destruct Hf as [Hf|Hf]; [by left|right].
  intros k Hk. destruct (decide (k = n)) as [->|Hne]; [by exists f|]. apply Hf. lia.
Qed.

(** A table cannot hold more consecutive numbers than it has entries. *)
Lemma run_of_descriptors (fds : gmap Z OpenFd) n k :
  (∀ m, n ≤ m < n + Z.of_nat k → is_Some (fds !! m)) → (k ≤ size fds)%nat.
Proof.
  intros H. assert ((list_to_set (seqZ n (Z.of_nat k)) : gset Z) ⊆ dom fds) as Hs.
  { intros m. rewrite elem_of_list_to_set, elem_of_seqZ, elem_of_dom. auto. }
  apply subseteq_size in Hs. rewrite size_list_to_set, size_dom, length_seqZ in Hs by apply NoDup_seqZ. lia.
Qed.

Lemma install_free minimum f s :
  ∃ fd, install minimum f s = (Ret fd, map_fds <[fd := f]> s) ∧ minimum ≤ fd ∧ sy_fds s !! fd = None.
Proof.
  eexists. split; [done|].
  destruct (lowest_free_spec (Datatypes.S (size (sy_fds s))) minimum (sy_fds s)) as [Hn [Hf|Hf]]; [done|].
  apply run_of_descriptors in Hf. lia.
Qed.

Lemma wp_next_code Q s : (∀ rc l, Q (Ret rc) (set_codes l s)) → wp next_code Q s.
Proof.
  intros HQ. unfold wp, next_code. destruct (sy_codes s) as [|rc l] eqn:E; [|apply HQ].
  specialize (HQ 0 []). simpl. by destruct s; simpl in *; subst.
Qed.

Lemma wp_checked g Q s :
  (∀ l, Q (Throw system_error) (set_codes l s)) → (∀ l, Q (Ret ()) (g (set_codes l s))) → wp (checked g) Q s.
Proof.
  intros H1 H2. apply wp_bind, wp_next_code. intros rc l.
  destruct (negb (rc =? 0)); [by apply wp_throw|by apply wp_modify].
Qed.

Lemma wp_install minimum f Q s :
  (∀ fd, minimum ≤ fd → sy_fds s !! fd = None → Q (Ret fd) (map_fds <[fd := f]> s)) → wp (install minimum f) Q s.
Proof. intros HQ. destruct (install_free minimum f s) as (fd & E & Hfd & Hf). unfold wp. rewrite E. by apply HQ. Qed.

(** ** Ownership

    The table is the one before the call, plus the descriptors the variables own; those are
    closed when a program is executed. *)

Definition owned (s : Sys) (fd : Z) : Prop := ∃ x, sy_vars s x = fd ∧ 0 ≤ fd.

Record owns (base : gmap Z OpenFd) (s : Sys) : Prop := {
  owns_entry : ∀ x, 0 ≤ sy_vars s x →
    base !! sy_vars s x = None ∧ ∃ file, sy_fds s !! sy_vars s x = Some (mkOpenFd file true);
  owns_once : ∀ x y, 0 ≤ sy_vars s x → sy_vars s x = sy_vars s y → x = y;
  owns_frame : ∀ fd, ¬ owned s fd → sy_fds s !! fd = base !! fd;
}.

Lemma owns_same base s s' :
  sy_fds s' = sy_fds s → (∀ x, sy_vars s' x = sy_vars s x) → owns base s → owns base s'.
Proof.
  intros E1 E2 [H1 H2 H3]. split.
  - intros x. rewrite E1, E2. apply H1.
  - intros x y. rewrite !E2. apply H2.
  - intros fd Hn. rewrite E1. apply H3. intros (x & Hx). apply Hn. exists x. by rewrite E2.
Qed.

Lemma owns_free base s fd :
  owns base s → sy_fds s !! fd = None → base !! fd = None ∧ ∀ x, sy_vars s x = fd → fd < 0.
Proof.
  intros Ho Hf. assert (¬ owned s fd) as Hn.
  { intros (x & <- & Hx). destruct (owns_entry _ _ Ho x Hx) as (_ & file & E). congruence. }
  split; [by rewrite <- (owns_frame _ _ Ho)|]. intros x Hx. apply Z.nle_gt. intros H0. apply Hn. by exists x.
Qed.

(** A new descriptor goes to a variable that owns none. *)
Lemma owns_new base s x fd file :
  owns base s → sy_vars s x < 0 → 0 ≤ fd → sy_fds s !! fd = None →
  owns base (set_var x fd (map_fds <[fd := mkOpenFd file true]> s)).
Proof.
  intros Ho Hx Hfd Hf. destruct (owns_free _ _ _ Ho Hf) as [Hb Hv]. split; simpl.
  - intros y Hy. destruct (decide (y = x)) as [->|Hne].
    + rewrite fn_lookup_insert in *. split; [done|]. exists file. apply lookup_insert_eq.
    + rewrite fn_lookup_insert_ne in * by done. destruct (owns_entry _ _ Ho y Hy) as (H1 & file' & H2).
      split; [done|]. exists file'. rewrite lookup_insert_ne; [done|]. congruence.
  - intros y z. destruct (decide (y = x)) as [->|Hy], (decide (z = x)) as [->|Hz];
      rewrite ?fn_lookup_insert, ?fn_lookup_insert_ne by done; intros H0 E; [done| | |by apply (owns_once _ _ Ho)].
    + specialize (Hv z). lia.
    + specialize (Hv y). lia.
  - intros fd' Hn. destruct (decide (fd' = fd)) as [->|Hne].
    { exfalso. apply Hn. exists x. simpl. by rewrite fn_lookup_insert. }
    rewrite lookup_insert_ne by done. apply (owns_frame _ _ Ho). intros (y & Hy & H0). apply Hn. exists y. simpl.
    rewrite fn_lookup_insert_ne; [done|]. intros ->. lia.
Qed.

(** A descriptor goes back with its variable. *)
Lemma owns_destroy base s x : owns base s → owns base (set_var x (-1) (destroy_fd x s)).
Proof.
  intros Ho. unfold destroy_fd. destruct (Z.leb_spec 0 (sy_vars s x)) as [Hx|Hx].
  - split; simpl.
    + intros y Hy. destruct (decide (y = x)) as [->|Hne]; [rewrite fn_lookup_insert in Hy; lia|].
      rewrite fn_lookup_insert_ne in * by done. destruct (owns_entry _ _ Ho y Hy) as (H1 & file & H2).
      split; [done|]. exists file. rewrite lookup_delete_ne; [done|]. intros E. by apply Hne, (owns_once _ _ Ho).
    + intros y z. destruct (decide (y = x)) as [->|Hy], (decide (z = x)) as [->|Hz];
        rewrite ?fn_lookup_insert, ?fn_lookup_insert_ne by done; intros H0 E; [done|lia|lia|by apply (owns_once _ _ Ho)].
    + intros fd Hn. destruct (decide (fd = sy_vars s x)) as [->|Hne].
      { rewrite lookup_delete_eq. by destruct (owns_entry _ _ Ho x Hx) as [-> _]. }
      rewrite lookup_delete_ne by done. apply (owns_frame _ _ Ho). intros (y & Hy & H0). apply Hn. exists y. simpl.
      rewrite fn_lookup_insert_ne; [done|]. congruence.
  - split; simpl.
    + intros y Hy. destruct (decide (y = x)) as [->|Hne]; [rewrite fn_lookup_insert in Hy; lia|].
      rewrite fn_lookup_insert_ne in * by done. by apply (owns_entry _ _ Ho).
    + intros y z. destruct (decide (y = x)) as [->|Hy], (decide (z = x)) as [->|Hz];
        rewrite ?fn_lookup_insert, ?fn_lookup_insert_ne by done; intros H0 E; [done|lia|lia|by apply (owns_once _ _ Ho)].
    + intros fd Hn. apply (owns_frame _ _ Ho). intros (y & Hy & H0). apply Hn. exists y. simpl.
      rewrite fn_lookup_insert_ne; [done|]. intros ->. lia.
Qed.

(** The variable owns a descriptor of the file. *)
Definition holds (s : Sys) (x : var) (file : Z) : Prop :=
  0 ≤ sy_vars s x ∧ sy_fds s !! sy_vars s x = Some (mkOpenFd file true).

(** What is not about descriptors stays as it was. *)
Record same_process (s s' : Sys) : Prop := {
  same_attributes : sy_attributes s' = sy_attributes s;
  same_actions : sy_actions s' = sy_actions s;
  same_children : sy_children s' = sy_children s;
  same_next_pid : sy_next_pid s' = sy_next_pid s;
  same_ignored : sy_ignored s' = sy_ignored s;
}.

#[global] Instance same_process_trans : Transitive same_process.
Proof. intros s1 s2 s3 [] []. split; congruence. Qed.

Lemma destroy_same x s : same_process s (destroy_fd x s).
Proof. unfold destroy_fd. by destruct (0 <=? _). Qed.

Lemma reset_same x fd s : same_process s (reset_fd x fd s).
Proof. unfold reset_fd, destroy_fd. by destruct (0 <=? _). Qed.

Lemma make_sockets_spec base s :
  owns base s → (∀ x, sy_vars s x < 0) →
  wp make_sockets (λ r s', owns base s' ∧ same_process s s' ∧
    match r with
    | Throw e => e = system_error
    | Ret _ => sy_vars s' v_socket < 0 ∧ holds s' v_daemon (sy_next_file s) ∧ holds s' v_verifier (sy_next_file s + 1)
    end) s.
Proof.
  intros Ho Hv. apply wp_bind, wp_bind, wp_next_code. intros rc l.
  destruct (negb (rc =? 0)); [repeat wp_basic; split; [by apply (owns_same _ s)|done]|].
  apply wp_bind, wp_get, wp_bind, wp_modify, wp_bind, wp_install. intros a Ha Hfa.
  apply wp_bind, wp_install. intros b Hb Hfb. repeat wp_basic. simpl in *.
  pose proof (owns_new base s v_daemon a (sy_next_file s) Ho (Hv _) Ha Hfa) as Ho1.
  assert (a ≠ b) as Hne by (intros ->; by rewrite lookup_insert_eq in Hfb).
  split_and!; [|done|apply Hv| |]; cycle 1.
  { split; simpl; [exact Ha|]. rewrite fn_lookup_insert_ne, fn_lookup_insert by done.
    by rewrite lookup_insert_ne, lookup_insert_eq. }
  { split; simpl; [exact Hb|]. rewrite fn_lookup_insert. apply lookup_insert_eq. }
  eapply owns_same; [| |apply (owns_new base _ v_verifier b (sy_next_file s + 1) Ho1 (Hv v_verifier) Hb Hfb)]; done.
Qed.

Lemma move_above_spec base s x file :
  owns base s → holds s x file →
  wp (move_above x) (λ r s', owns base s' ∧ same_process s s' ∧
    (∀ y, y ≠ x → sy_vars s' y = sy_vars s y) ∧
    (∀ y f, y ≠ x → holds s y f → holds s' y f) ∧
    (∃ duplicate, move_above_auth_descriptors (sy_vars s x) duplicate =
       match r with Ret _ => Ret (sy_vars s' x) | Throw e => Throw e end) ∧
    match r with
    | Throw e => e = system_error
    | Ret _ => holds s' x file ∧ sy_vars s' x ≠ 3 ∧ sy_vars s' x ≠ 4
    end) s.
Proof.
  intros Ho [H0 Hx]. unfold move_above_auth_descriptors, VERIFIER_SOCKET_FD. apply wp_bind, wp_get.
  unfold VERIFIER_SOCKET_FD. destruct ((_ =? 3) || (_ =? 3 + 1)) eqn:E34; cycle 1.
  { apply wp_ret. reflect_bools. split_and!; try done; by exists 0. }
  assert (owns base s → ∀ l, owns base (set_codes l s)) as Hcodes by (intros; by apply (owns_same _ s)).
  apply wp_bind, wp_bind, wp_next_code. intros rc l. destruct (negb (rc =? 0)).
  { repeat wp_basic. simpl. split_and!; [by apply Hcodes|done|done|done|by exists (-1)|done]. }
  apply wp_bind, wp_get. simpl. rewrite Hx. apply wp_install. intros fd Hfd Hf. simpl in *.
  rewrite (proj2 (Z.ltb_ge _ _)) by lia. apply wp_modify. unfold reset_fd, destroy_fd. simpl.
  rewrite (proj2 (Z.leb_le _ _)) by lia. simpl.
  assert (fd ≠ sy_vars s x) as Hne by congruence.
  split_and!; try done.
  - pose proof (owns_destroy base s x Ho) as Hd. unfold destroy_fd in Hd. rewrite (proj2 (Z.leb_le _ _) H0) in Hd.
    eapply owns_same; [| |apply (owns_new base _ x fd file Hd)]; simpl; rewrite ?fn_lookup_insert; try lia.
    + by rewrite delete_insert_ne.
    + intros y. destruct (decide (y = x)) as [->|]; by rewrite ?fn_lookup_insert, ?fn_lookup_insert_ne.
    + by rewrite lookup_delete_ne.
  - intros y Hy. by rewrite fn_lookup_insert_ne.
  - intros y f Hy [Hy0 Hyf]. unfold holds. simpl. rewrite fn_lookup_insert_ne by done. split; [done|].
    rewrite lookup_delete_ne, lookup_insert_ne; [done|congruence|]. intros Hxy. by apply Hy, (owns_once _ _ Ho).
  - exists fd. rewrite fn_lookup_insert. by rewrite (proj2 (Z.ltb_ge _ _)) by lia.
  - unfold holds. simpl. rewrite fn_lookup_insert. split; [lia|]. by rewrite lookup_delete_ne, lookup_insert_eq.
  - rewrite fn_lookup_insert. lia.
  - rewrite fn_lookup_insert. lia.
Qed.

Lemma owns_close base s x :
  owns base s → 0 ≤ sy_vars s x → owns base (sys_close (sy_vars s x) (set_var x (-1) s)).
Proof.
  intros Ho H0. pose proof (owns_destroy base s x Ho) as Hd. unfold destroy_fd in Hd.
  rewrite (proj2 (Z.leb_le _ _) H0) in Hd. by eapply owns_same; [| |exact Hd].
Qed.

(** [release] and adoption: the descriptor passes from one variable to another. *)
Lemma owns_pass base s x y :
  owns base s → 0 ≤ sy_vars s x → sy_vars s y < 0 → owns base (set_var y (sy_vars s x) (set_var x (-1) s)).
Proof.
  intros Ho H0 Hy. destruct (owns_entry _ _ Ho x H0) as (_ & file & Hf).
  assert (y ≠ x) as Hne by (intros ->; lia).
  eapply owns_same; [| |apply (owns_new base _ y (sy_vars s x) file (owns_close base s x Ho H0))]; simpl.
  - by rewrite insert_delete_id.
  - done.
  - by rewrite fn_lookup_insert_ne.
  - done.
  - apply lookup_delete_eq.
Qed.

Lemma adopt_spec base s d file :
  owns base s → sy_vars s v_socket < 0 → holds s v_daemon file →
  wp (let! fd := release_fd v_daemon in open_socket fd d) (λ r s', owns base s' ∧ same_process s s' ∧
    sy_vars s' v_verifier = sy_vars s v_verifier ∧ (∀ f, holds s v_verifier f → holds s' v_verifier f) ∧
    VerifierSocket_new (sy_vars s v_daemon) d =
      match r with Ret _ => Ret (sy_vars s' v_socket) | Throw e => Throw e end) s.
Proof.
  intros Ho Hs [H0 Hf]. apply wp_bind. unfold release_fd, open_socket, wp. simpl.
  destruct (VerifierSocket_new _ d) as [fd|e] eqn:E; simpl.
  - assert (fd = sy_vars s v_daemon) as ->.
    { unfold VerifierSocket_new in E. apply throw_if_ret in E as [_ E]. by destruct (validate_socket d); simplify_eq/=. }
    split_and!; try done. by apply owns_pass.
  - rewrite (proj2 (Z.leb_le _ _) H0). split_and!; try done; [by apply owns_close|].
    intros f [Hv Hvf]. split; [done|]. simpl. rewrite fn_lookup_insert_ne by done.
    rewrite lookup_delete_ne; [done|]. intros Ex. by apply (owns_once _ _ Ho) in Ex.
Qed.

(** ** Spawning *)

Lemma wp_with_object {A} construct destroy (body : ST Sys A) Q s :
  wp construct (λ r s', match r with
    | Throw e => Q (Throw e) s'
    | Ret _ => wp body (λ r s'', Q r (destroy s'')) s'
    end) s →
  wp (with_object construct destroy body) Q s.
Proof.
  unfold wp, with_object. destruct (construct s) as [[u|e] s']; [|done]. simpl. by destruct (body s').
Qed.

Lemma wp_checked_or_destroy g destroy Q s :
  (∀ l, Q (Throw system_error) (destroy (set_codes l s))) → (∀ l, Q (Ret ()) (g (set_codes l s))) →
  wp (checked_or_destroy g destroy) Q s.
Proof.
  intros H1 H2. assert (wp (checked g) (λ r s', match r with Throw _ => Q r (destroy s') | Ret _ => Q r s' end) s) as H
    by by apply wp_checked.
  revert H. unfold wp, checked_or_destroy. by destruct (checked g s) as [[[]|e] s'].
Qed.

Lemma new_file_actions_spec verifier_fd Q s :
  (∀ l, Q (Throw system_error) (set_codes l s)) →
  (∀ l, Q (Ret ()) (set_actions (spawn_file_actions verifier_fd :: sy_actions s) (set_codes l s))) →
  wp (new_file_actions verifier_fd) Q s.
Proof.
  intros H1 H2. destruct s. apply wp_bind, wp_checked; [done|]. intros l. apply wp_bind.
  unfold spawn_file_actions in H2. destruct (0 <=? verifier_fd).
  - apply wp_checked_or_destroy; [exact H1|]. intros l'.
    apply wp_checked_or_destroy; [exact H1|exact H2].
  - apply wp_ret, wp_checked_or_destroy; [exact H1|exact H2].
Qed.

(** The program with the descriptors that [fds] leaves it, leading its own process group, with
    no signal blocked and the default action of the signals that end it. *)
Definition spawned (s : Sys) (path : list Z) (arguments : list (list Z)) (fds : gmap Z OpenFd) : Image :=
  mkImage (sy_next_pid s) (c_string path) (c_string <$> path :: arguments) (after_exec fds) (sy_next_pid s) []
    (filter (λ signal, signal ∉ [SIGINT; SIGTERM]) (sy_ignored s)).

Definition spawn_outcome (path : list Z) (arguments : list (list Z)) (actions : list file_action)
    (s : Sys) (r : res Z) (s' : Sys) : Prop :=
  match r with
  | Throw e => e = system_error ∧ s' = set_codes (sy_codes s') s
  | Ret pid => pid = sy_next_pid s ∧ ∃ fds, child_actions actions (sy_fds s) = Some fds ∧
      s' = set_codes (sy_codes s') (add_child (spawned s path arguments fds) s)
  end.

Lemma spawn_body_spec path arguments actions rest a other s :
  sy_actions s = actions :: rest → sy_attributes s = a :: other →
  wp (spawn_body path arguments) (λ r s', spawn_outcome path arguments actions
    (pop_attributes (pop_actions s)) r (pop_attributes (pop_actions s'))) s.
Proof.
  intros E1 E2. destruct s; simpl in *; subst. unfold spawn_body.
  repeat (apply wp_bind, wp_checked; [done|]; intros; simpl).
  apply wp_bind, wp_next_code. intros rc l7. destruct (negb (rc =? 0)); [by apply wp_throw|].
  apply wp_bind, wp_get. simpl. destruct (child_actions _ _) as [fds|] eqn:E; [|by apply wp_throw].
  apply wp_bind, wp_modify, wp_ret. split; [done|]. by exists fds.
Qed.

Lemma spawn_spec path arguments verifier_fd s :
  wp (spawn path arguments verifier_fd)
    (spawn_outcome path arguments (spawn_file_actions verifier_fd) s) s.
Proof.
  apply wp_with_object, wp_checked; [by destruct s|]. intros l.
  apply wp_with_object, new_file_actions_spec; [by destruct s|]. intros l'.
  eapply wp_mono; [|by apply (spawn_body_spec _ _ (spawn_file_actions verifier_fd) (sy_actions s)
    (mkAttributes 0 [] [] 0) (sy_attributes s)); destruct s].
  by destruct s.
Qed.

(** ** What the child is started with *)

(** The descriptor survives in a program that is executed. *)
Definition inherited (fds : gmap Z OpenFd) (n : Z) : option Z :=
  f ← fds !! n; if of_cloexec f then None else Some (of_file f).

(** The child of [path] with the socket [file]: the standard streams of its parent, the socket
    as descriptor 3 and no other; the leader of its own process group, so that the signals for
    the group reach it and what it starts only; none of them blocked, and none of those that
    ask it to end ignored. *)
Definition confined (s : Sys) (path : list Z) (arguments : list (list Z)) (file : Z) (c : Image) : Prop :=
  im_path c = c_string path ∧ im_argv c = c_string <$> path :: arguments ∧
  (∀ n, im_fds c !! n =
     if n =? VERIFIER_SOCKET_FD then Some file
     else if n <=? STDERR_FILENO then inherited (sy_fds s) n else None) ∧
  im_pid c = sy_next_pid s ∧ im_group c = im_pid c ∧ im_mask c = [] ∧
  SIGINT ∉ im_ignored c ∧ SIGTERM ∉ im_ignored c.

Lemma owned_not_inherited base s n : owns base s → inherited (sy_fds s) n = inherited base n.
Proof.
  intros Ho. unfold inherited.
  destruct (decide (Exists (λ x, sy_vars s x = n ∧ 0 ≤ n) [v_daemon; v_verifier; v_socket])) as [Hx|Hn].
  - apply Exists_exists in Hx as (x & _ & <- & H0). by destruct (owns_entry _ _ Ho x H0) as (-> & file & ->).
  - rewrite (owns_frame _ _ Ho); [done|]. intros (x & Hx). apply Hn, Exists_exists. exists x. split; [|done].
    destruct x; set_solver.
Qed.

Lemma child_table base s fds file :
  owns base s → holds s v_verifier file → sy_vars s v_verifier ≠ 3 →
  child_actions (spawn_file_actions (sy_vars s v_verifier)) (sy_fds s) = Some fds →
  ∀ n, after_exec fds !! n =
    if n =? VERIFIER_SOCKET_FD then Some file
    else if n <=? STDERR_FILENO then inherited base n else None.
Proof.
  intros Ho [H0 Hf] H3 E n. rewrite <- (owned_not_inherited base s) by done.
  unfold spawn_file_actions in E. rewrite (proj2 (Z.leb_le _ _) H0) in E. simpl in E. rewrite Hf in E. injection E as <-.
  unfold after_exec, inherited, VERIFIER_SOCKET_FD, STDERR_FILENO. rewrite lookup_omap, map_lookup_filter. simpl.
  destruct (Z.eqb_spec n 3) as [->|Hne]; [by rewrite lookup_insert_eq|]. rewrite lookup_insert_ne by done.
  destruct (sy_fds s !! n) as [f|]; simpl; [|by destruct (n <=? 2)].
  destruct (Z.leb_spec n 2); [rewrite option_guard_True by lia|rewrite option_guard_False by lia]; done.
Qed.

Lemma spawned_confined base s0 s path arguments fds file :
  owns base s → sy_fds s0 = base → sy_next_pid s = sy_next_pid s0 → holds s v_verifier file → sy_vars s v_verifier ≠ 3 →
  child_actions (spawn_file_actions (sy_vars s v_verifier)) (sy_fds s) = Some fds →
  confined s0 path arguments file (spawned s path arguments fds).
Proof.
  intros Ho <- Hp Hv H3 E. unfold confined, spawned. simpl. split_and!; try done.
  - by apply (child_table (sy_fds s0) s).
  - rewrite list_elem_of_filter. set_solver.
  - rewrite list_elem_of_filter. set_solver.
Qed.

(** ** From the sockets to the child *)

(** The same steps by the results of their calls, as in VerifierService.v. *)
Definition start_calls (sockets : option (Z * Z)) (duplicates : Z * Z) (d : Descriptor)
    (path : list Z) (arguments : list (list Z)) (sp : Spawn) : res (Z * Child) :=
  sockets ← make_verifier_socket_pair sockets;
  daemon_fd ← move_above_auth_descriptors sockets.1 duplicates.1;
  verifier_fd ← move_above_auth_descriptors sockets.2 duplicates.2;
  fd ← VerifierSocket_new daemon_fd d;
  child ← spawn_program path arguments sp;
  Ret (fd, child).

Definition acquired (path : list Z) (arguments : list (list Z)) (d : Descriptor)
    (s : Sys) (r : res (Z * Z)) (s' : Sys) : Prop :=
  owns (sy_fds s) s' ∧ sy_attributes s' = sy_attributes s ∧ sy_actions s' = sy_actions s ∧
  match r with
  | Throw _ => sy_children s' = sy_children s
  | Ret (_, pid) => ∃ c, sy_children s' = sy_children s ++ [c] ∧
      confined s path arguments (sy_next_file s + 1) c ∧ pid = im_pid c
  end ∧
  ∃ sockets duplicates sp, start_calls sockets duplicates d path arguments sp =
    match r with Throw e => Throw e | Ret (fd, pid) => Ret (fd, mkChild pid [] (path :: arguments)) end.

(** The last steps, with both ends in place. *)
Lemma acquire_child path arguments d s0 s :
  owns (sy_fds s0) s → same_process s0 s → sy_vars s v_socket < 0 →
  (∃ file, holds s v_daemon file) → holds s v_verifier (sy_next_file s0 + 1) → sy_vars s v_verifier ≠ 3 →
  (∃ sockets duplicates daemon_fd,
     make_verifier_socket_pair sockets = Ret daemon_fd ∧
     move_above_auth_descriptors daemon_fd.1 duplicates.1 = Ret (sy_vars s v_daemon) ∧
     move_above_auth_descriptors daemon_fd.2 duplicates.2 = Ret (sy_vars s v_verifier)) →
  wp (let! fd := release_fd v_daemon in
      let! _ := open_socket fd d in
      let! s := st_get in
      let! pid := spawn path arguments (sy_vars s v_verifier) in
      let! _ := st_modify (reset_fd v_verifier (-1)) in
      let! s := st_get in
      st_ret (sy_vars s v_socket, pid)) (acquired path arguments d s0) s.
Proof.
  intros Ho Hsame Hs [file Hd] Hv H3 (sockets & duplicates & pair & Hp & Hm1 & Hm2).
  pose proof (adopt_spec _ _ d _ Ho Hs Hd) as Ha. unfold wp, st_bind, release_fd in Ha |- *.
  assert (∀ sp r, VerifierSocket_new (sy_vars s v_daemon) d = r → start_calls sockets duplicates d path arguments sp =
    (fd ← r; child ← spawn_program path arguments sp; Ret (fd, child))) as Hcalls.
  { intros sp r Hr. unfold start_calls. rewrite Hp. simpl. rewrite Hm1. simpl. rewrite Hm2. simpl. by rewrite Hr. }
  destruct (open_socket _ d _) as [[[]|e] s1] eqn:E1; simpl in Ha |- *;
    destruct Ha as (Ho1 & Hs1 & Hv1 & Hk1 & Hn); pose proof (transitivity Hsame Hs1) as [].
  - pose proof (spawn_spec path arguments (sy_vars s1 v_verifier) s1) as Hsp.
    unfold wp in Hsp. destruct (spawn _ _ _ s1) as [[pid|e] s2] eqn:E2; simpl in Hsp |- *.
    + destruct Hsp as (-> & fds & Hc & ->). set (s' := set_codes _ _).
      destruct (reset_same v_verifier (-1) s') as []. split_and!; [| | | |].
      * apply owns_destroy. by apply (owns_same _ s1).
      * by etransitivity.
      * by etransitivity.
      * exists (spawned s1 path arguments fds). split; [etransitivity; [done|]; simpl; congruence|].
        split; [|done]. apply (spawned_confined (sy_fds s0) s0 s1); auto; congruence.
      * exists sockets, duplicates, (mkSpawn [] (sy_next_pid s1)). rewrite (Hcalls _ _ Hn). simpl.
        unfold s', destroy_fd. simpl. by destruct (0 <=? _).
    + destruct Hsp as (-> & ->). split_and!; try done; [by apply (owns_same _ s1)|].
      exists sockets, duplicates, (mkSpawn [1] 0). by rewrite (Hcalls _ _ Hn).
  - split_and!; try done. exists sockets, duplicates, (mkSpawn [] 0). by rewrite (Hcalls _ _ Hn).
Qed.

Lemma acquire_spec path arguments d s :
  (∀ x, sy_vars s x < 0) → wp (acquire path arguments d) (acquired path arguments d s) s.
Proof.
  intros Hv. assert (owns (sy_fds s) s) as Ho.
  { split; [intros x Hx; specialize (Hv x); lia|intros x y Hx; specialize (Hv x); lia|done]. }
  apply wp_bind. eapply wp_mono; [|by apply (make_sockets_spec _ _ Ho)].
  intros [[]|e] s1 (Ho1 & Hs1 & Hr1); cycle 1.
  { destruct Hs1. split_and!; try done. subst. by exists None, (0, 0), (mkSpawn [] 0). }
  destruct Hr1 as (Hsock & Hd1 & Hv1). apply wp_bind. eapply wp_mono; [|by apply (move_above_spec _ _ _ _ Ho1 Hd1)].
  intros r s2 (Ho2 & Hs2 & Hvar2 & Hk2 & [dup1 Hm1] & Hr2). pose proof (transitivity Hs1 Hs2) as Hs02.
  destruct r as [[]|e]; cycle 1.
  { destruct Hs02. split_and!; try done. exists (Some (sy_vars s1 v_daemon, 0)), (dup1, 0), (mkSpawn [] 0).
    unfold start_calls. simpl. by rewrite Hm1. }
  destruct Hr2 as (Hd2 & Hd3 & Hd4). apply wp_bind.
  eapply wp_mono; [|by apply (move_above_spec _ _ v_verifier (sy_next_file s + 1) Ho2), (Hk2 v_verifier)].
  intros r s3 (Ho3 & Hs3 & Hvar3 & Hk3 & [dup2 Hm2] & Hr3). pose proof (transitivity Hs02 Hs3) as Hs03.
  rewrite (Hvar2 v_verifier) in Hm2 by done.
  destruct r as [[]|e]; cycle 1.
  { destruct Hs03. split_and!; try done.
    exists (Some (sy_vars s1 v_daemon, sy_vars s1 v_verifier)), (dup1, dup2), (mkSpawn [] 0).
    unfold start_calls. simpl. rewrite Hm1. simpl. by rewrite Hm2. }
  destruct Hr3 as (Hv3 & Hv4 & Hv5). apply acquire_child; auto.
  - rewrite (Hvar3 v_socket), (Hvar2 v_socket); done.
  - exists (sy_next_file s). by apply (Hk3 v_daemon).
  - exists (Some (sy_vars s1 v_daemon, sy_vars s1 v_verifier)), (dup1, dup2). eexists. split; [done|].
    simpl. split; [|done]. by rewrite (Hvar3 v_daemon).
Qed.

(** ** Leaving *)

Lemma destroy_vars x s : sy_vars (destroy_fd x s) = sy_vars s.
Proof. unfold destroy_fd. by destruct (0 <=? _). Qed.

Lemma destroy_fds x s s' :
  sy_fds s = sy_fds s' → sy_vars s x = sy_vars s' x → sy_fds (destroy_fd x s) = sy_fds (destroy_fd x s').
Proof. intros E1 E2. unfold destroy_fd. rewrite E2. destruct (0 <=? _); simpl; by rewrite E1, ?E2. Qed.

Lemma owns_nothing base s : owns base s → (∀ x, sy_vars s x < 0) → sy_fds s = base.
Proof.
  intros Ho Hv. apply map_eq. intros fd. apply (owns_frame _ _ Ho). intros (x & Hx & H0). specialize (Hv x). lia.
Qed.

Lemma leave_spec base s : owns base s → sy_fds (leave s) = base ∧ same_process s (leave s).
Proof.
  intros Ho. split; cycle 1.
  { unfold leave. do 2 (etransitivity; [|apply destroy_same]). apply destroy_same. }
  pose proof (owns_destroy _ _ v_daemon (owns_destroy _ _ v_verifier (owns_destroy _ _ v_socket Ho))) as Ho'.
  rewrite <- (owns_nothing _ _ Ho'); [unfold leave; simpl|].
  - apply destroy_fds; [apply destroy_fds; [done|]|]; simpl; repeat (rewrite ?destroy_vars; simpl); reflexivity.
  - intros []; simpl; repeat (rewrite ?destroy_vars; simpl); reflexivity.
Qed.

(** ** The whole run *)

Lemma empty_vars s x : sy_vars (set_var v_daemon (-1) (set_var v_verifier (-1) (set_var v_socket (-1) s))) x < 0.
Proof. by destruct x. Qed.

Lemma no_child_pid : ch_pid no_child ≤ 0.
Proof. done. Qed.

Section run_proofs.
Context {S E : Type} (cb : Callbacks S E).

(** The start of VerifierService.v, with the results of the calls. *)
Definition as_start (i : SysStart E) (sockets : option (Z * Z)) (duplicates : Z * Z) (sp : Spawn) : ProgramStart E :=
  mkProgramStart (ss_path i) (ss_arguments i) (ss_stop i) (ss_cancel i) (ss_now i) sockets duplicates
    (ss_descriptor i) sp (ss_send i).

(** What the run has of the process, once it holds what it started. *)
Definition holding (i : SysStart E) (s : Sys) (ran : bool) (s' : Sys) : Prop :=
  owns (sy_fds s) s' ∧ sy_attributes s' = sy_attributes s ∧ sy_actions s' = sy_actions s ∧
  if ran then ∃ c, sy_children s' = sy_children s ++ [c] ∧
    confined s (ss_path i) (ss_arguments i) (sy_next_file s + 1) c
  else sy_children s' = sy_children s.

Lemma start_program_calls timeout i sockets duplicates sp p :
  start_program cb timeout (as_start i sockets duplicates sp) p =
  (if ss_stop i then st_throw OperationCancelled else
   let! cancelled := on_owner (cancellation_requested cb (ss_cancel i)) in
   if (cancelled : bool) then st_throw UserInteractionCancelled else
   if len (ss_path i) =? 0 then st_throw invalid_argument else
   if timeout <=? 0 then st_throw invalid_argument else
   let! started := st_lift (start_calls sockets duplicates (ss_descriptor i) (ss_path i) (ss_arguments i) sp) in
   st_modify (λ p, mkProgram (endpoint_new started.1) started.2 None (pg_world p))) p.
Proof.
  unfold start_program, as_start, start_calls. simpl. destruct (ss_stop i); [done|].
  unfold st_bind, st_lift. destruct (on_owner _ p) as [[[]|e] p1]; try done.
  destruct (len _ =? 0); [done|]. destruct (timeout <=? 0); [done|].
  destruct (make_verifier_socket_pair _) as [pair|e]; [|done]. simpl.
  destruct (move_above_auth_descriptors pair.1 _); [|done]. simpl.
  destruct (move_above_auth_descriptors pair.2 _); [|done]. simpl.
  destruct (VerifierSocket_new _ _); [|done]. simpl. by destruct (spawn_program _ _ _).
Qed.

Lemma sys_start_spec timeout i s p :
  (∀ x, sy_vars s x < 0) → ch_pid (pg_child p) ≤ 0 →
  wp (sys_start cb timeout i) (λ r st, holding i s (is_ret r) (rn_sys st) ∧
    (∃ sockets duplicates sp, start_program cb timeout (as_start i sockets duplicates sp) p = (r, rn_program st)) ∧
    (is_ret r = false → ch_pid (pg_child (rn_program st)) ≤ 0))
    (mkRunning s p).
Proof.
  intros Hv Hch. assert (holding i s false s) as Hi.
  { split_and!; try done. split; [intros x Hx; specialize (Hv x); lia|intros x y Hx; specialize (Hv x); lia|done]. }
  unfold wp, sys_start. setoid_rewrite start_program_calls. destruct (ss_stop i).
  { split_and!; [done|by exists None, (0, 0), (mkSpawn [] 0)|done]. }
  unfold st_bind, on_program, on_owner. simpl. destruct (cancellation_requested _ _ _) as [[[]|e] w1]; simpl.
  1, 3: split_and!; [done|by exists None, (0, 0), (mkSpawn [] 0)|done].
  destruct (len _ =? 0); [split_and!; [done|by exists None, (0, 0), (mkSpawn [] 0)|done]|].
  destruct (timeout <=? 0); [split_and!; [done|by exists None, (0, 0), (mkSpawn [] 0)|done]|].
  pose proof (acquire_spec (ss_path i) (ss_arguments i) (ss_descriptor i) s Hv) as Ha. unfold wp in Ha.
  unfold on_sys, st_lift. simpl. destruct (acquire _ _ _ s) as [[[fd pid]|e] s1]; simpl in *;
    destruct Ha as (Ho & Ha1 & Ha2 & Hc & sockets & duplicates & sp & Hcalls).
  - split_and!; [split_and!; try done; destruct Hc as (c & ? & ? & _); by exists c| |done].
    exists sockets, duplicates, sp. by rewrite Hcalls.
  - split_and!; [done| |done]. exists sockets, duplicates, sp. by rewrite Hcalls.
Qed.

(** C8: The PAM child is confined.  When a call runs a child at all -- and it runs none only
    if it throws -- that child is the one program, with the given arguments, that has the
    standard streams which its parent does not keep to itself, its end of the socket pair as
    descriptor 3 and no other descriptor of the parent, whatever was open there and whichever
    numbers the sockets got; it leads its own process group, so that the signals of the
    supervisor reach the child and what it started, and it starts with no signal blocked and
    the two signals that ask it to end not ignored. *)
Theorem verifier_child_confined uid session timeout (i : SysStart E) env graces s w :
  let '(o, r) := sys_run cb uid session timeout i env graces s w in
  (sy_children (rn_sys r) = sy_children s ∧ ∃ e, o = Some (Throw e)) ∨
  ∃ c, sy_children (rn_sys r) = sy_children s ++ [c] ∧
    confined s (ss_path i) (ss_arguments i) (sy_next_file s + 1) c.
Proof.
  unfold sys_run. set (s1 := set_var v_daemon _ _).
  set (p := mkProgram (endpoint_new (-1)) no_child None w).
  pose proof (sys_start_spec timeout i s1 p (empty_vars s) no_child_pid) as H. unfold wp in H.
  destruct (sys_start cb timeout i _) as [[[]|e] r]; destruct H as [(Ho & _ & _ & Hc) _]; simpl in *.
  - destruct Hc as (c & Hc & Hconf).
    destruct (match on_endpoint _ _ with (Ret _, p) => _ | (Throw e, p) => _ end) as [[o|] p']; simpl;
      right; exists c; [|done]. split; [|done]. destruct (leave_spec _ _ Ho) as [_ []]. congruence.
  - left. split; [|by eexists]. destruct (leave_spec _ _ Ho) as [_ []]. congruence.
Qed.

(** C9: The run at the level of system calls implements the one that the PAM verifier is
    verified with, and gives back what it took.  Whatever the calls answer, it has the outcome
    and the conversation that [run_cancellable_verifier_program] has for some results of its
    steps.  When it has ended, by returning or by throwing anywhere, the descriptor table of
    the parent and its spawn objects are those from before and the child is reaped; while it
    runs, the table has its own descriptors in addition and no others. *)
Theorem verifier_calls_refine uid session timeout (i : SysStart E) env graces s w :
  let '(o, r) := sys_run cb uid session timeout i env graces s w in
  (∃ sockets duplicates sp,
     run_cancellable_verifier_program cb uid session timeout (as_start i sockets duplicates sp) env graces w =
     (o, rn_program r)) ∧
  sy_attributes (rn_sys r) = sy_attributes s ∧ sy_actions (rn_sys r) = sy_actions s ∧
  match o with
  | None => owns (sy_fds s) (rn_sys r)
  | Some _ => sy_fds (rn_sys r) = sy_fds s ∧ ch_pid (pg_child (rn_program r)) ≤ 0
  end.
Proof.
  unfold sys_run, run_cancellable_verifier_program. set (s1 := set_var v_daemon _ _).
  set (p := mkProgram (endpoint_new (-1)) no_child None w).
  pose proof (sys_start_spec timeout i s1 p (empty_vars s) no_child_pid) as H. unfold wp in H.
  destruct (sys_start cb timeout i _) as [[[]|e] r]; destruct H as ((Ho & Ha & Hb & _) & (sockets & duplicates & sp & E1) & Hp);
    simpl in *; destruct (leave_spec _ _ Ho) as [Hl []].
  - destruct (match on_endpoint _ _ with (Ret _, p) => _ | (Throw e, p) => _ end) as [[o|] p'] eqn:E2; simpl;
      (split; [exists sockets, duplicates, sp; rewrite E1; simpl; by rewrite E2|]).
    + split_and!; [congruence|congruence|done|]. apply terminate_and_reap_done.
    + done.
  - split; [exists sockets, duplicates, sp; by rewrite E1|]. split_and!; [congruence|congruence|done|by apply Hp].
Qed.

(** A call that ends before it starts a child. *)
Ltac not_started := split; [by exists (mkSpawn [] 0)|]; split_and!; by auto.

(** The same of [run_cancellable_program], whose child has the standard streams only. *)
Lemma program_calls_refine timeout (i : SysStart E) env graces s w :
  let '(o, r) := sys_run_program cb timeout i env graces s w in
  (∃ sp, run_cancellable_program cb timeout (as_start i None (0, 0) sp) env graces w = (o, rn_program r)) ∧
  sy_fds (rn_sys r) = sy_fds s ∧ sy_attributes (rn_sys r) = sy_attributes s ∧ sy_actions (rn_sys r) = sy_actions s ∧
  (sy_children (rn_sys r) = sy_children s ∨
   ∃ c, sy_children (rn_sys r) = sy_children s ++ [c] ∧ im_group c = im_pid c ∧
     ∀ n, im_fds c !! n = if n <=? STDERR_FILENO then inherited (sy_fds s) n else None).
Proof.
  unfold sys_run_program, run_cancellable_program. simpl. destruct (ss_stop i); [not_started|].
  destruct (on_owner _ _) as [[[]|e] p]; [not_started| |not_started].
  destruct (len _ =? 0); [not_started|]. destruct (timeout <=? 0); [not_started|].
  pose proof (spawn_spec (ss_path i) (ss_arguments i) (-1) s) as Hsp. unfold wp in Hsp.
  destruct (spawn _ _ _ s) as [[pid|e] s'] eqn:Es; simpl in Hsp.
  - destruct Hsp as (-> & fds & Hc & ->). injection Hc as <-.
    assert (∀ n, im_fds (spawned s (ss_path i) (ss_arguments i) (filter (λ entry, entry.1 < STDERR_FILENO + 1) (sy_fds s))) !! n =
      if n <=? STDERR_FILENO then inherited (sy_fds s) n else None) as Hn.
    { intros n. unfold spawned, after_exec, inherited, STDERR_FILENO. simpl. rewrite lookup_omap, map_lookup_filter. simpl.
      destruct (sy_fds s !! n) as [f|]; simpl; [|by destruct (n <=? 2)].
      destruct (Z.leb_spec n 2); [rewrite option_guard_True by lia|rewrite option_guard_False by lia]; done. }
    destruct (plain_loop _ _ _ _) as [[o|] p'] eqn:El; simpl;
      (split; [exists (mkSpawn [] (sy_next_pid s)); simpl; by rewrite El|]); split_and!; try done; right; by eexists.
  - destruct Hsp as (-> & ->). simpl. split; [by exists (mkSpawn [1] 0)|]. split_and!; try done. by left.
Qed.
End run_proofs.

(** ** Examples *)

(** A parent with the standard streams, the second one kept to itself, and a file without the
    flag as descriptor 5; the sockets get 3 and 4 and are moved to 6 and 7. *)
Definition example_sys (codes : list Z) : Sys :=
  mkSys (list_to_map [(0, mkOpenFd 10 false); (1, mkOpenFd 11 true); (2, mkOpenFd 12 false); (5, mkOpenFd 13 false)])
    (λ _, -1) [] [] codes 100 500 1 [SIGTERM] [SIGINT; 13] [].

Definition example_descriptor : Descriptor := mkDesc (Some 1) true (Some SOCK_SEQPACKET) (Some (2, AF_UNIX)) (peer_address 2 AF_UNIX).

Definition example_path : list Z := lit "/usr/lib/vauth".

Example example_acquire :
  let '(r, s) := acquire example_path [lit "x"] example_descriptor (example_sys []) in
  r = Ret (6, 500) ∧
  bool_decide (sy_fds s = <[6 := mkOpenFd 100 true]> (sy_fds (example_sys []))) = true ∧
  (λ c, (map_to_list (im_fds c), im_group c, im_mask c, im_ignored c)) <$> sy_children s =
    [([(3, 101); (2, 12); (0, 10)], 500, [], [13])].
Proof. vm_compute. split_and!; done. Qed.

(** The eleventh call is [sigaddset]: it fails, and only the sockets are left to close. *)
Example example_spawn_fails :
  let '(r, s) := acquire example_path [] example_descriptor (example_sys [0; 0; 0; 0; 0; 0; 0; 0; 0; 0; 22]) in
  r = Throw system_error ∧ sy_attributes s = [] ∧ sy_actions s = [] ∧ sy_children s = [] ∧
  bool_decide (sy_fds (leave s) = sy_fds (example_sys [])) = true.
Proof. vm_compute. split_and!; done. Qed.
