(* ===== verification/Logging.v ===== *)
(** * Logging (src/src/log.cpp, and the messages of src/src/event.cpp and
      src/src/dbus/agent_service.cpp)

    Errors go to the standard error stream, the messages of a debug build to the log stream.
    A line is collected by [std::osyncstream] and handed over as a whole, so that lines of
    different threads do not mix; whatever goes wrong stays inside.  The lemmas say that
    logging changes nothing but the streams, that a message of the daemon is one line, and that
    it tells nothing of a packet or of a secret beyond the names of the commands. *)
From Stdlib Require Import ZArith Lia.
From stdpp Require Import base list sets strings.
From S2P Require Import Prelude Packet FrameProcessor InteractionRegistry EventLoop Listing.

(** ** The streams *)

(** What a line meets: it is written, the stream takes only a part of it and turns bad, or an
    exception is raised on the way (no memory for the buffer). *)
Inductive line_answer := line_written | line_cut (taken : Z) | line_raised (e : exn).

Inductive stream := s_cerr | s_clog.

(** A line after the last answer is written. *)
Record Streams := mkStreams {
  lg_cerr : list Z;
  lg_clog : list Z;
  lg_answers : list line_answer;
}.

Definition append_to (s : stream) (text : list Z) (l : Streams) : Streams :=
  match s with
  | s_cerr => mkStreams (lg_cerr l ++ text) (lg_clog l) (lg_answers l)
  | s_clog => mkStreams (lg_cerr l) (lg_clog l ++ text) (lg_answers l)
  end.

Definition next_line : ST Streams line_answer := λ l,
  match lg_answers l with
  | [] => (Ret line_written, l)
  | a :: answers => (Ret a, mkStreams (lg_cerr l) (lg_clog l) answers)
  end.

(** An [std::osyncstream] that is filled and destroyed: its contents are handed over at
    once. *)
Definition sync_line (s : stream) (text : list Z) : ST Streams () :=
  let! a := next_line in
  match a with
  | line_written => st_modify (append_to s text)
  | line_cut taken => st_modify (append_to s (take (Z.to_nat taken) text))
  | line_raised e => st_throw e
  end.

Definition newline : list Z := [10].

Definition error_line (source message : list Z) : list Z :=
  color_code red ++ source ++ lit ": " ++ message ++ ANSI_RESET ++ newline.
Definition debug_line (color : Color) (message : list Z) : list Z := colorize color message ++ newline.

(** [noexcept]: every exception is swallowed. *)
Definition log_error (source message : list Z) : ST Streams () :=
  st_catch (sync_line s_cerr (error_line source message)) (λ _, st_ret ()).
Definition log_debug (color : Color) (message : list Z) : ST Streams () :=
  st_catch (sync_line s_clog (debug_line color message)) (λ _, st_ret ()).

(** ** The messages of the event loop *)

Definition ctaphid_command (command : Z) : Z := Z.land command (u8 (Z.lnot MASK)).

Definition ctaphid_command_name (command : Z) : list Z :=
  let c := ctaphid_command command in
  if c =? CTAPHID_PING then lit "CTAPHID_PING" else
  if c =? CTAPHID_MSG then lit "CTAPHID_MSG" else
  if c =? CTAPHID_LOCK then lit "CTAPHID_LOCK" else
  if c =? CTAPHID_INIT then lit "CTAPHID_INIT" else
  if c =? CTAPHID_WINK then lit "CTAPHID_WINK" else
  if c =? CTAPHID_CBOR then lit "CTAPHID_CBOR" else
  if c =? CTAPHID_CANCEL then lit "CTAPHID_CANCEL" else
  if c =? CTAPHID_KEEPALIVE then lit "CTAPHID_KEEPALIVE" else
  if c =? CTAPHID_ERROR then lit "CTAPHID_ERROR" else lit "CTAPHID_UNKNOWN".

Definition ctap_command_name (command : Z) : list Z :=
  if command =? 1 then lit "authenticatorMakeCredential" else
  if command =? 2 then lit "authenticatorGetAssertion" else
  if command =? 4 then lit "authenticatorGetInfo" else
  if command =? 8 then lit "authenticatorGetNextAssertion" else lit "unsupported CTAP command".

Definition received_message (packet : UHIDReport) : list Z :=
  let message := lit "Received " ++ ctaphid_command_name (rep_cmd packet) in
  if (ctaphid_command (rep_cmd packet) =? CTAPHID_CBOR) && negb (len (rep_payload packet) =? 0) then
    message ++ lit " (" ++ ctap_command_name (byte_at (rep_payload packet) 0) ++ lit ")"
  else message.

Definition log_received_packet (packet : UHIDReport) : ST Streams () :=
  if ctaphid_command (rep_cmd packet) =? CTAPHID_KEEPALIVE then st_ret () else
  log_debug green (received_message packet).

Definition sent_message (packet : CTAPPacket) : list Z := lit "Sent " ++ ctaphid_command_name (pkt_cmd packet).

Definition log_sent_packet (packet : CTAPPacket) : ST Streams () :=
  if ctaphid_command (pkt_cmd packet) =? CTAPHID_KEEPALIVE then st_ret () else
  log_debug blue (sent_message packet).

(** [send_packet] of a debug build. *)
Definition debug_send_packet (inp : Input) (p : CTAPPacket) : ST (Loop * Streams) () := λ '(l, streams),
  match send_packet inp p l with
  | (Throw e, l) => (Throw e, (l, streams))
  | (Ret _, l) => let '(r, streams) := log_sent_packet p streams in (r, (l, streams))
  end.

(** ** The messages of the agent service *)

Inductive dbus_activity :=
  | discarded_agent | received_presence | received_secret | received_cancel
  | registered_agent (uid : Z) | unregistered_agent | disconnected_agent
  | sent_state (state : UserInteractionState) | loop_stopped.

Definition dbus_message (a : dbus_activity) : list Z :=
  match a with
  | discarded_agent => lit "D-Bus: discarded inactive user-interaction agent"
  | received_presence => lit "D-Bus: received RespondToPresence"
  | received_secret => lit "D-Bus: received SubmitSecret"
  | received_cancel => lit "D-Bus: received CancelInteraction"
  | registered_agent uid => lit "D-Bus: registered user-interaction agent for UID " ++ to_string uid
  | unregistered_agent => lit "D-Bus: unregistered user-interaction agent"
  | disconnected_agent => lit "D-Bus: user-interaction agent disconnected"
  | sent_state state => lit "D-Bus: sent StateChanged (" ++ user_interaction_state_name state ++ lit ")"
  | loop_stopped => lit "D-Bus: service event loop stopped"
  end.

Definition log_dbus (a : dbus_activity) : ST Streams () := log_debug magenta (dbus_message a).

(** ** Logging does not interfere *)

(** A call returns, and has added to its stream the line, a beginning of it or nothing. *)
Definition logged (s : stream) (line : list Z) (l l' : Streams) : Prop :=
  ∃ text answers, text `prefix_of` line ∧ (lg_answers l = [] → text = line) ∧
    l' = append_to s text (mkStreams (lg_cerr l) (lg_clog l) answers).

Lemma sync_line_logged s line l :
  wp (st_catch (sync_line s line) (λ _, st_ret ())) (λ r l', r = Ret () ∧ logged s line l l') l.
Proof.
  unfold wp, logged, sync_line, st_catch, st_bind, next_line. destruct l as [cerr clog [|a answers]]; simpl.
  { split; [done|]. by exists line, []. }
  destruct a as [|taken|e]; simpl; (split; [done|]).
  - by exists line, answers.
  - exists (take (Z.to_nat taken) line), answers. split; [apply prefix_take|done].
  - exists [], answers. split; [apply prefix_nil|]. split; [done|]. destruct s; simpl; by rewrite app_nil_r.
Qed.

Lemma log_error_logged source message l :
  wp (log_error source message) (λ r l', r = Ret () ∧ logged s_cerr (error_line source message) l l') l.
Proof. apply sync_line_logged. Qed.

(** A debug build of the loop sends the same packets: its state and the exceptions are those
    of [send_packet], whatever the log stream does. *)
Lemma debug_send_packet_same inp p l streams :
  let '(r, (l', _)) := debug_send_packet inp p (l, streams) in (r, l') = send_packet inp p l.
Proof.
  unfold debug_send_packet. destruct (send_packet inp p l) as [[[]|e] l1]; [|done].
  unfold log_sent_packet. destruct (_ =? CTAPHID_KEEPALIVE); [done|].
  pose proof (sync_line_logged s_clog (debug_line blue (sent_message p)) streams) as H. unfold wp in H.
  unfold log_debug. destruct (st_catch _ _ streams) as [r s']. simpl in H. by destruct H as [-> _].
Qed.

(** ** What the messages tell *)

(** Neither a message about a packet depends on more than the command, nor is any payload in
    it; the texts have no line feed, so that a message is one line of the log. *)
Lemma received_message_of p q :
  rep_cmd p = rep_cmd q → take 1 (rep_payload p) = take 1 (rep_payload q) → received_message p = received_message q.
Proof.
  intros E1 E2. unfold received_message, byte_at. rewrite E1.
  destruct (rep_payload p) as [|a l], (rep_payload q) as [|b l']; by simplify_eq/=.
Qed.

Lemma no_line_feed_app (l k : list Z) : 10 ∉ l → 10 ∉ k → 10 ∉ l ++ k.
Proof. set_solver. Qed.

Lemma no_line_feed_digits fuel n : 0 ≤ n → 10 ∉ decimal fuel n.
Proof.
  revert n. induction fuel as [|fuel IH]; intros n Hn; simpl; [set_solver|].
  destruct (n <? 10); [rewrite list_elem_of_singleton; lia|].
  apply no_line_feed_app; [apply IH, Z.div_pos; lia|]. rewrite list_elem_of_singleton. pose proof (Z.mod_pos_bound n 10). lia.
Qed.

Ltac no_line_feed := by apply (bool_decide_unpack _); vm_compute.

Lemma ctaphid_name_line c : 10 ∉ ctaphid_command_name c.
Proof. unfold ctaphid_command_name. repeat case_match; no_line_feed. Qed.

Lemma ctap_name_line c : 10 ∉ ctap_command_name c.
Proof. unfold ctap_command_name. repeat case_match; no_line_feed. Qed.

Lemma packet_messages_one_line p q : 10 ∉ received_message p ∧ 10 ∉ sent_message q.
Proof.
  split; [|by apply no_line_feed_app; [no_line_feed|apply ctaphid_name_line]].
  unfold received_message. case_match; repeat apply no_line_feed_app;
    solve [apply ctaphid_name_line|apply ctap_name_line|no_line_feed].
Qed.

Lemma dbus_messages_one_line a : match a with registered_agent uid => 0 ≤ uid | _ => True end → 10 ∉ dbus_message a.
Proof.
  destruct a as [| | | |uid| | |state|]; intros H; unfold dbus_message; repeat apply no_line_feed_app;
    lazymatch goal with
    | |- _ ∉ to_string _ => by apply no_line_feed_digits
    | |- _ ∉ user_interaction_state_name _ => by destruct state; no_line_feed
    | |- _ => no_line_feed
    end.
Qed.

(** A makeCredential request in the log of a debug build. *)
Example example_log :
  let '(_, l) := (let! _ := log_received_packet (mkUHIDReport 7 CTAPHID_CBOR 3 [1; 162; 0] 0) in
                  log_error (lit "vauth") (lit "failed")) (mkStreams [] [] []) in
  lg_clog l = ansi "[32m" ++ lit "Received CTAPHID_CBOR (authenticatorMakeCredential)" ++ ansi "[0m" ++ [10] ∧
  lg_cerr l = ansi "[31m" ++ lit "vauth: failed" ++ ansi "[0m" ++ [10].
Proof. vm_compute. done. Qed.
