(* ===== verification/SecretMemory.v ===== *)
(** * The memory that secrets pass through (src/src/uv/src/sensitive_bytes.hpp, [read_secret_pipe]
      of src/src/dbus/secret_pipe.cpp and the replies to PAM of src/src/uv/src/auth_handler.cpp)

    Elsewhere a secret is a list of bytes.  Here it is the contents of blocks of a heap, which
    remembers what a block held when it was given back.  The theorems: whatever is done with
    objects of the class SensitiveBytes, a block goes back with zeros only; and the replies to
    PAM, which are plain C strings, are zero when they are given up, because the protocol
    refuses secrets with a NUL. *)
From Stdlib Require Import ZArith Lia.
From stdpp Require Import base list gmap.
From S2P Require Import Prelude AgentService VerifierProtocol VerifierConversation VerifierSocket.
From S2P Require Import VerifierClient VerifierService AuthHandler.

(** ** The heap *)

(** [hp_freed]: the contents of the blocks that were freed, at that time. *)
Record Heap := mkHeap {
  hp_blocks : gmap Z (list Z);
  hp_next : Z;
  hp_freed : list (list Z);
}.

(** [calloc], and a vector's storage with its initialised elements. *)
Definition heap_alloc (n : nat) (h : Heap) : Z * Heap :=
  (hp_next h, mkHeap (<[hp_next h := replicate n 0]> (hp_blocks h)) (hp_next h + 1) (hp_freed h)).

Definition overwrite (offset : nat) (data cells : list Z) : list Z :=
  take offset cells ++ data ++ drop (offset + length data) cells.

(** [memcpy], [read]: bytes into a block, from an offset on. *)
Definition heap_write (a : Z) (offset : nat) (data : list Z) (h : Heap) : Heap :=
  mkHeap (alter (overwrite offset data) a (hp_blocks h)) (hp_next h) (hp_freed h).

Definition explicit_bzero (a : Z) (offset n : nat) : Heap → Heap := heap_write a offset (replicate n 0).

Definition heap_free (a : Z) (h : Heap) : Heap :=
  match hp_blocks h !! a with
  | None => h
  | Some cells => mkHeap (delete a (hp_blocks h)) (hp_next h) (hp_freed h ++ [cells])
  end.

(** ** SensitiveBytes *)

(** The member [bytes_], a vector: its storage, if it has any, and its size; shrinking it
    keeps the storage. *)
Record SensitiveBytes := mkBytes { sb_data : option Z; sb_size : nat }.

Definition sb_empty : SensitiveBytes := mkBytes None 0.

(** The objects that are alive, by name. *)
Record Mem := mkMem { mm_heap : Heap; mm_objects : gmap Z SensitiveBytes }.

Definition on_heap (g : Heap → Heap) (m : Mem) : Mem := mkMem (g (mm_heap m)) (mm_objects m).
Definition bind_object (x : Z) (b : SensitiveBytes) (m : Mem) : Mem :=
  mkMem (mm_heap m) (<[x := b]> (mm_objects m)).
Definition unbind_object (x : Z) (m : Mem) : Mem := mkMem (mm_heap m) (delete x (mm_objects m)).

(** [SensitiveBytes(size)]; a vector of size zero has no storage. *)
Definition sb_new (x : Z) (n : nat) (m : Mem) : Mem :=
  match n with
  | O => bind_object x sb_empty m
  | _ => let '(a, h) := heap_alloc n (mm_heap m) in bind_object x (mkBytes (Some a) n) (mkMem h (mm_objects m))
  end.

Definition sb_clear (b : SensitiveBytes) (h : Heap) : Heap :=
  match sb_data b with
  | Some a => if (sb_size b =? 0)%nat then h else explicit_bzero a 0 (sb_size b) h
  | None => h
  end.

(** The vector gives its storage back. *)
Definition vector_free (b : SensitiveBytes) (h : Heap) : Heap :=
  match sb_data b with Some a => heap_free a h | None => h end.

(** [~SensitiveBytes()] *)
Definition sb_destroy (x : Z) (b : SensitiveBytes) (m : Mem) : Mem :=
  unbind_object x (on_heap (λ h, vector_free b (sb_clear b h)) m).

(** The move constructor: [x] takes over the storage of [y], which is left empty. *)
Definition sb_move (x y : Z) (b : SensitiveBytes) (m : Mem) : Mem :=
  bind_object x b (bind_object y sb_empty m).

(** [x = std::move(y)] *)
Definition sb_assign (x y : Z) (old b : SensitiveBytes) (m : Mem) : Mem :=
  if bool_decide (x = y) then m
  else sb_move x y b (on_heap (λ h, vector_free old (sb_clear old h)) m).

Definition sb_resize (x : Z) (b : SensitiveBytes) (size : nat) : ST Mem () := λ m,
  if (sb_size b <? size)%nat then (Throw invalid_argument, m) else
  if (size <? sb_size b)%nat then
    match sb_data b with
    | Some a => (Ret (), bind_object x (mkBytes (Some a) size) (on_heap (explicit_bzero a size (sb_size b - size)) m))
    | None => (Ret (), m)
    end
  else (Ret (), m).

(** What code can do with the objects.  [op_write] is a write through [writable_bytes]. *)
Inductive sb_op :=
  | op_default (x : Z)
  | op_new (x : Z) (n : nat)
  | op_move (x y : Z)
  | op_assign (x y : Z)
  | op_write (x : Z) (offset : nat) (data : list Z)
  | op_resize (x : Z) (size : nat)
  | op_destroy (x : Z).

(** [None]: the object does not exist, or does already, or the write is out of its bounds. *)
Definition apply_op (op : sb_op) (m : Mem) : option (res () * Mem) :=
  match op with
  | op_default x =>
      match mm_objects m !! x with Some _ => None | None => Some (Ret (), bind_object x sb_empty m) end
  | op_new x n =>
      match mm_objects m !! x with Some _ => None | None => Some (Ret (), sb_new x n m) end
  | op_move x y =>
      match mm_objects m !! x, mm_objects m !! y with
      | None, Some b => Some (Ret (), sb_move x y b m)
      | _, _ => None
      end
  | op_assign x y =>
      match mm_objects m !! x, mm_objects m !! y with
      | Some old, Some b => Some (Ret (), sb_assign x y old b m)
      | _, _ => None
      end
  | op_write x offset data =>
      match mm_objects m !! x with
      | Some (mkBytes (Some a) size) =>
          if (offset + length data <=? size)%nat then Some (Ret (), on_heap (heap_write a offset data) m) else None
      | _ => None
      end
  | op_resize x size =>
      match mm_objects m !! x with Some b => Some (sb_resize x b size m) | None => None end
  | op_destroy x =>
      match mm_objects m !! x with Some b => Some (Ret (), sb_destroy x b m) | None => None end
  end.

Definition mem_empty : Mem := mkMem (mkHeap ∅ 1 []) ∅.

(** Any use of the class, in any order. *)
Inductive uses : Mem → Mem → Prop :=
  | uses_refl m : uses m m
  | uses_step m1 m2 m3 op r : uses m1 m2 → apply_op op m2 = Some (r, m3) → uses m1 m3.

(** The contents that [bytes] shows. *)
Definition sb_bytes (b : SensitiveBytes) (h : Heap) : list Z :=
  match sb_data b with
  | Some a => take (sb_size b) (default [] (hp_blocks h !! a))
  | None => []
  end.

(** ** [read_secret_pipe] on memory *)

Definition do_op (op : sb_op) : ST Mem () := λ m,
  match apply_op op m with Some r => r | None => (Throw logic_error, m) end.

(** The loop: [read] delivers at most the room left behind the [used] bytes. *)
Fixpoint mem_read_loop (x : Z) (used : nat) (reads : list read_result) : ST Mem nat :=
  match reads with
  | [] => st_ret used
  | ReadBytes data :: reads =>
      let data := take (Z.to_nat (MAX_SECRET_SIZE + 1) - used) data in
      let count := length data in
      if (0 <? count)%nat then
        let! _ := do_op (op_write x used data) in
        let used := (used + count)%nat in
        if MAX_SECRET_SIZE <? Z.of_nat used then st_throw invalid_argument else mem_read_loop x used reads
      else st_ret used
  | ReadEintr :: reads => mem_read_loop x used reads
  | ReadEagain :: _ => st_throw invalid_argument
  | ReadError :: _ => st_throw system_error
  end.

Definition object_bytes (x : Z) (m : Mem) : list Z :=
  match mm_objects m !! x with Some b => sb_bytes b (mm_heap m) | None => [] end.

(** The part of the function in which [secret] lives: an exception destroys it, and a return
    hands it to the caller. *)
Definition mem_read_body (x : Z) (pipe : SecretPipe) : ST Mem () :=
  let! used := mem_read_loop x 0 (sp_reads pipe) in
  let! _ := do_op (op_resize x used) in
  let! m := st_get in
  if contains_nul (object_bytes x m) then st_throw invalid_argument else st_ret ().

Definition mem_read_secret_pipe (x : Z) (pipe : SecretPipe) : ST Mem () :=
  if sp_fd pipe <? 0 then st_throw invalid_argument else
  if negb (sp_stat_ok pipe) then st_throw system_error else
  if negb (sp_is_fifo pipe) then st_throw invalid_argument else
  if negb (sp_fcntl_ok pipe) then st_throw system_error else
  let! _ := do_op (op_new x (Z.to_nat (MAX_SECRET_SIZE + 1))) in
  st_catch (mem_read_body x pipe) (λ e, let! _ := do_op (op_destroy x) in st_throw e).

(** ** The replies to PAM *)

Record Replying := mkReplying { rp_endpoint : Endpoint; rp_heap : Heap }.

Definition at_endpoint {A} (m : ST Endpoint A) : ST Replying A := λ s,
  let '(r, e) := m (rp_endpoint s) in (r, mkReplying e (rp_heap s)).
Definition at_heap (g : Heap → Heap) : ST Replying () :=
  st_modify (λ s, mkReplying (rp_endpoint s) (g (rp_heap s))).

Definition calloc (n : nat) : ST Replying Z := λ s,
  let '(a, h) := heap_alloc n (rp_heap s) in (Ret a, mkReplying (rp_endpoint s) h).

(** The pointers of the replies; [None] is a null pointer.  The array that holds them is a list
    here; the received message is an object of the class above. *)
Abbreviation replies := (list (option Z)).

Definition strlen (a : Z) (h : Heap) : nat := length (c_string (default [] (hp_blocks h !! a))).

Definition free_response (response : option Z) (h : Heap) : Heap :=
  match response with
  | Some a => heap_free a (explicit_bzero a 0 (strlen a h) h)
  | None => h
  end.

Definition free_responses (responses : replies) (h : Heap) : Heap :=
  foldl (λ h response, free_response response h) h responses.

Definition mem_read_secret_response (e : PamEvents) (prompt : list Z) : ST Replying (Z * option Z) :=
  let! _ := at_endpoint (send_verifier_message (SecretRequired prompt) (pe_send e)) in
  let! message := at_endpoint (receive_message daemon (pe_recv e)) in
  match message with
  | SecretResponse secret =>
      if pe_calloc e then
        let! copy := calloc (length secret + 1) in
        let! _ := at_heap (heap_write copy 0 secret) in
        st_ret (PAM_SUCCESS, Some copy)
      else st_ret (PAM_BUF_ERR, None)
  | _ => st_ret (PAM_CONV_ERR, None)
  end.

Definition mem_handle_message (e : PamEvents) (m : pam_message) : ST Replying (Z * option Z) :=
  if pm_style m =? PAM_PROMPT_ECHO_OFF then mem_read_secret_response e (text_of m) else
  if pm_style m =? PAM_PROMPT_ECHO_ON then st_ret (PAM_CONV_ERR, None) else
  if pm_style m =? PAM_TEXT_INFO then
    let! _ := at_endpoint (send_verifier_message (VerificationStatus status_information (text_of m)) (pe_send e)) in
    st_ret (PAM_SUCCESS, None)
  else if pm_style m =? PAM_ERROR_MSG then
    let! _ := at_endpoint (send_verifier_message (VerificationStatus status_error (text_of m)) (pe_send e)) in
    st_ret (PAM_SUCCESS, None)
  else st_ret (PAM_CONV_ERR, None).

(** The loop with its early returns and the [catch] clause, all of which free the replies that
    were filled in so far. *)
Fixpoint mem_conversation_loop (messages : list (option pam_message)) (events : list PamEvents)
    (filled : replies) (s : Replying) : (Z * option replies) * Replying :=
  let free_and_return (rc : Z) (s : Replying) :=
    ((rc, None), mkReplying (rp_endpoint s) (free_responses filled (rp_heap s))) in
  match messages with
  | [] => ((PAM_SUCCESS, Some filled), s)
  | None :: _ => free_and_return PAM_CONV_ERR s
  | Some m :: messages =>
      match mem_handle_message (default no_events (head events)) m s with
      | (Throw _, s) => free_and_return PAM_CONV_ERR s
      | (Ret (rc, response), s) =>
          if rc =? PAM_SUCCESS then mem_conversation_loop messages (tail events) (filled ++ [response]) s
          else free_and_return rc s
      end
  end.

Definition mem_conversation (messages : option (list (option pam_message))) (calloc_ok : bool)
    (events : list PamEvents) (s : Replying) : (Z * option replies) * Replying :=
  match messages with
  | None => ((PAM_CONV_ERR, None), s)
  | Some messages =>
      if (len messages <=? 0) || (PAM_MAX_NUM_MSG <? len messages) then ((PAM_CONV_ERR, None), s) else
      if negb calloc_ok then ((PAM_BUF_ERR, None), s) else
      mem_conversation_loop messages events [] s
  end.

(** ** Blocks *)

Definition zero (l : list Z) : Prop := Forall (λ b, b = 0) l.

Lemma zero_replicate n : zero (replicate n 0).
Proof. by apply Forall_replicate. Qed.

Lemma length_overwrite offset data cells :
  (offset + length data ≤ length cells)%nat → length (overwrite offset data cells) = length cells.
Proof. intros. unfold overwrite. rewrite !length_app, length_take, length_drop. lia. Qed.

Lemma drop_overwrite n offset data cells :
  (offset + length data ≤ n)%nat → (offset ≤ length cells)%nat → drop n (overwrite offset data cells) = drop n cells.
Proof.
  intros Hn Ho. unfold overwrite. rewrite drop_app_ge by (rewrite length_take; lia).
  rewrite drop_app_ge by (rewrite length_take; lia). rewrite drop_drop, length_take. f_equal. lia.
Qed.

(** Writing zeros up to the cells that are zero already. *)
Lemma zero_overwrite offset n cells :
  (offset + n ≤ length cells)%nat → zero (drop (offset + n) cells) →
  zero (drop offset (overwrite offset (replicate n 0) cells)).
Proof.
  intros Hn Hz. unfold overwrite. rewrite drop_app_ge by (rewrite length_take; lia).
  rewrite length_take, Nat.min_l, Nat.sub_diag by lia. rewrite drop_0, length_replicate.
  apply Forall_app. split; [apply zero_replicate|done].
Qed.

(** ** The invariant of the class

    The cells of a block beyond the size of its vector are zero, so that clearing the vector
    clears the block. *)

Record mem_ok (m : Mem) : Prop := {
  ok_object : ∀ x b, mm_objects m !! x = Some b →
    match sb_data b with
    | None => sb_size b = 0%nat
    | Some a => ∃ cells, hp_blocks (mm_heap m) !! a = Some cells ∧
        (sb_size b ≤ length cells)%nat ∧ zero (drop (sb_size b) cells)
    end;
  ok_unique : ∀ x y b b' a, mm_objects m !! x = Some b → mm_objects m !! y = Some b' →
    sb_data b = Some a → sb_data b' = Some a → x = y;
  ok_freed : Forall zero (hp_freed (mm_heap m));
  ok_owned : ∀ a, is_Some (hp_blocks (mm_heap m) !! a) → ∃ x b, mm_objects m !! x = Some b ∧ sb_data b = Some a;
  ok_next : ∀ a, is_Some (hp_blocks (mm_heap m) !! a) → a < hp_next (mm_heap m);
}.

Lemma bind_empty_ok x m : mem_ok m → mm_objects m !! x = None → mem_ok (bind_object x sb_empty m).
Proof.
  intros Hm Hx. split; simpl; [| |apply Hm| |apply Hm].
  - intros y b. rewrite lookup_insert_Some. intros [[<- <-]|[_ Hy]]; [done|by apply (ok_object _ Hm y)].
  - intros y z b b' a. rewrite !lookup_insert_Some.
    intros [[<- <-]|[_ Hy]] [[<- <-]|[_ Hz]]; try done. by apply (ok_unique _ Hm).
  - intros a Ha. destruct (ok_owned _ Hm a Ha) as (y & b & Hy & Hb). exists y, b.
    rewrite lookup_insert_ne; [done|]. congruence.
Qed.

Lemma new_ok x n m : mem_ok m → mm_objects m !! x = None → mem_ok (sb_new x n m).
Proof.
  intros Hm Hx. unfold sb_new. destruct n as [|n]; [by apply bind_empty_ok|]. cbn [heap_alloc].
  set (a := hp_next (mm_heap m)).
  assert (∀ y b a', mm_objects m !! y = Some b → sb_data b = Some a' → a' < a) as Hlt.
  { intros y b a' Hy Hb. apply (ok_next _ Hm). pose proof (ok_object _ Hm y b Hy) as H. rewrite Hb in H.
    destruct H as (cells & -> & _). by eexists. }
  split; simpl; [| |apply Hm| |].
  - intros y b. rewrite lookup_insert_Some. intros [[<- <-]|[_ Hy]]; simpl.
    { exists (replicate (S n) 0). rewrite lookup_insert_eq, length_replicate, drop_replicate, Nat.sub_diag.
      split; [done|]. split; [lia|apply zero_replicate]. }
    pose proof (ok_object _ Hm y b Hy) as H. destruct (sb_data b) as [a'|] eqn:Eb; [|done].
    destruct H as (cells & Hc & Hl & Hz). exists cells. rewrite lookup_insert_ne; [done|].
    specialize (Hlt y b a' Hy Eb). lia.
  - intros y z b b' a'. rewrite !lookup_insert_Some.
    intros [[<- <-]|[_ Hy]] [[<- <-]|[_ Hz]] Hb Hb'; [done| | |by eapply (ok_unique _ Hm)].
    + injection Hb as <-. specialize (Hlt z b' a Hz Hb'). lia.
    + injection Hb' as <-. specialize (Hlt y b a Hy Hb). lia.
  - intros a' Ha'. destruct (decide (a' = a)) as [->|Hne].
    { exists x, (mkBytes (Some a) (S n)). by rewrite lookup_insert_eq. }
    rewrite lookup_insert_ne in Ha' by done. destruct (ok_owned _ Hm a' Ha') as (y & b & Hy & Hb). exists y, b.
    rewrite lookup_insert_ne; [done|]. congruence.
  - intros a' Ha'. destruct (decide (a' = a)) as [->|Hne]; [lia|]. rewrite lookup_insert_ne in Ha' by done.
    pose proof (ok_next _ Hm a' Ha'). unfold a. lia.
Qed.

(** A vector that is cleared and gives its storage back. *)
Lemma wipe_block b a cells h :
  sb_data b = Some a → hp_blocks h !! a = Some cells → (sb_size b ≤ length cells)%nat → zero (drop (sb_size b) cells) →
  ∃ wiped, zero wiped ∧
    vector_free b (sb_clear b h) = mkHeap (delete a (hp_blocks h)) (hp_next h) (hp_freed h ++ [wiped]).
Proof.
  intros Ed Hc Hl Hz. unfold vector_free, sb_clear, heap_free. rewrite Ed.
  destruct (Nat.eqb_spec (sb_size b) 0) as [E|E].
  - rewrite E in Hz. exists cells. by rewrite Hc.
  - exists (overwrite 0 (replicate (sb_size b) 0) cells). split; [by apply (zero_overwrite 0)|]. simpl.
    rewrite lookup_alter_eq, Hc. simpl. f_equal. apply map_eq. intros a'.
    destruct (decide (a' = a)) as [->|]; [by rewrite !lookup_delete_eq|].
    by rewrite !lookup_delete_ne, lookup_alter_ne.
Qed.

(** The storage of an object goes back, with zeros. *)
Lemma give_back_ok x b m :
  mem_ok m → mm_objects m !! x = Some b →
  mem_ok (bind_object x sb_empty (on_heap (λ h, vector_free b (sb_clear b h)) m)).
Proof.
  intros Hm Hx. pose proof (ok_object _ Hm x b Hx) as Hb. destruct (sb_data b) as [a|] eqn:Ed; cycle 1.
  { assert (bind_object x sb_empty (on_heap (λ h, vector_free b (sb_clear b h)) m) = m) as ->; [|done].
    destruct m, b; simpl in *; subst. unfold bind_object, on_heap. simpl. f_equal. by apply insert_id. }
  destruct Hb as (cells & Hc & Hl & Hz). unfold on_heap. destruct (wipe_block b a cells _ Ed Hc Hl Hz) as (wiped & Hw & ->).
  assert (∀ a', is_Some (delete a (hp_blocks (mm_heap m)) !! a') → a' ≠ a ∧ is_Some (hp_blocks (mm_heap m) !! a')) as Hdel.
  { intros a' [c Ha']. apply lookup_delete_Some in Ha' as [Hne Ha']. split; [done|by exists c]. }
  split; simpl.
  - intros y b'. rewrite lookup_insert_Some. intros [[<- <-]|[Hne Hy]]; [done|].
    pose proof (ok_object _ Hm y b' Hy) as Hb'. destruct (sb_data b') as [a'|] eqn:Ed'; [|done].
    rewrite lookup_delete_ne; [done|]. intros <-. by apply Hne, (ok_unique _ Hm x y b b' a).
  - intros y z b1 b2 a'. rewrite !lookup_insert_Some.
    intros [[<- <-]|[_ Hy]] [[<- <-]|[_ Hz0]]; try done. by apply (ok_unique _ Hm).
  - apply Forall_app. split; [apply Hm|by apply Forall_singleton].
  - intros a' [Hne Ha']%Hdel. destruct (ok_owned _ Hm a' Ha') as (y & b' & Hy & Hb').
    exists y, b'. rewrite lookup_insert_ne; [done|]. congruence.
  - intros a' [Hne Ha']%Hdel. by apply (ok_next _ Hm).
Qed.

Lemma unbind_empty_ok x m : mem_ok m → mm_objects m !! x = Some sb_empty → mem_ok (unbind_object x m).
Proof.
  intros Hm Hx. split; simpl; [| |apply Hm| |apply Hm].
  - intros y b. rewrite lookup_delete_Some. intros [_ Hy]. by apply (ok_object _ Hm y).
  - intros y z b b' a. rewrite !lookup_delete_Some. intros [_ Hy] [_ Hz]. by apply (ok_unique _ Hm).
  - intros a Ha. destruct (ok_owned _ Hm a Ha) as (y & b & Hy & Hb). exists y, b.
    rewrite lookup_delete_ne; [done|]. intros <-. by simplify_eq.
Qed.

Lemma destroy_ok x b m : mem_ok m → mm_objects m !! x = Some b → mem_ok (sb_destroy x b m).
Proof.
  intros Hm Hx. pose proof (give_back_ok x b m Hm Hx) as H. apply (unbind_empty_ok x) in H.
  - unfold unbind_object in H. simpl in H. by rewrite delete_insert_eq in H.
  - simpl. by rewrite lookup_insert_eq.
Qed.

Lemma move_ok x y b m :
  mem_ok m → x ≠ y → mm_objects m !! y = Some b → (∀ c, mm_objects m !! x = Some c → c = sb_empty) →
  mem_ok (sb_move x y b m).
Proof.
  intros Hm Hne Hy Hx. split; simpl; [| |apply Hm| |apply Hm].
  - intros z c. rewrite !lookup_insert_Some. intros [[<- <-]|[_ [[<- <-]|[_ Hz]]]]; [by apply (ok_object _ Hm y)|done|].
    by apply (ok_object _ Hm z).
  - intros z w c d a. rewrite !lookup_insert_Some.
    intros [[<- <-]|[_ [[<- <-]|[? Hz]]]] [[<- <-]|[_ [[<- <-]|[? Hw]]]] Hc Hd; try done.
    + destruct (ok_unique _ Hm y w b d a); done.
    + destruct (ok_unique _ Hm z y c b a); done.
    + by eapply (ok_unique _ Hm).
  - intros a Ha. destruct (ok_owned _ Hm a Ha) as (z & c & Hz & Hc). destruct (decide (z = y)) as [->|Hzy].
    + exists x, b. rewrite lookup_insert_eq. split; [done|congruence].
    + exists z, c. rewrite !lookup_insert_ne; [done|done|]. intros <-. by rewrite (Hx c Hz) in Hc.
Qed.

(** A change of one block that keeps the cells beyond the size. *)
Lemma block_ok x b b' a g m :
  mem_ok m → mm_objects m !! x = Some b → sb_data b = Some a → sb_data b' = Some a →
  (∀ cells, (sb_size b ≤ length cells)%nat → zero (drop (sb_size b) cells) →
    (sb_size b' ≤ length (g cells))%nat ∧ zero (drop (sb_size b') (g cells))) →
  mem_ok (bind_object x b' (on_heap (λ h, mkHeap (alter g a (hp_blocks h)) (hp_next h) (hp_freed h)) m)).
Proof.
  intros Hm Hx Hb Hb' Hg.
  assert (∀ a', is_Some (alter g a (hp_blocks (mm_heap m)) !! a') → is_Some (hp_blocks (mm_heap m) !! a')) as Hsome.
  { intros a'. by rewrite lookup_alter_is_Some. }
  split; simpl; [| |apply Hm| |].
  - intros y c. rewrite lookup_insert_Some. intros [[<- <-]|[Hne Hy]].
    + rewrite Hb'. pose proof (ok_object _ Hm x b Hx) as H. rewrite Hb in H. destruct H as (cells & Hc & Hl & Hz).
      exists (g cells). rewrite lookup_alter_eq, Hc. split; [done|]. by apply Hg.
    + pose proof (ok_object _ Hm y c Hy) as H. destruct (sb_data c) as [a'|] eqn:Ec; [|done].
      rewrite lookup_alter_ne; [done|]. intros <-. by apply Hne, (ok_unique _ Hm x y b c a).
  - intros y z c d a'. rewrite !lookup_insert_Some.
    intros [[<- <-]|[_ Hy]] [[<- <-]|[_ Hz]] Hc Hd; [done| | |by eapply (ok_unique _ Hm)].
    + apply (ok_unique _ Hm x z b d a); [done|done|done|congruence].
    + apply (ok_unique _ Hm y x c b a); [done|done|congruence|done].
  - intros a' Ha'%Hsome. destruct (ok_owned _ Hm a' Ha') as (y & c & Hy & Hc).
    destruct (decide (y = x)) as [->|Hne]; [exists x, b'; rewrite lookup_insert_eq; split; [done|congruence]|].
    exists y, c. by rewrite lookup_insert_ne.
  - intros a' Ha'%Hsome. by apply (ok_next _ Hm).
Qed.

Lemma bind_same x b m : mm_objects m !! x = Some b → bind_object x b m = m.
Proof. intros Hx. destruct m. unfold bind_object. simpl in *. by rewrite insert_id. Qed.

Lemma write_ok x a size offset data m :
  mem_ok m → mm_objects m !! x = Some (mkBytes (Some a) size) → (offset + length data ≤ size)%nat →
  mem_ok (on_heap (heap_write a offset data) m).
Proof.
  intros Hm Hx Hl. rewrite <- (bind_same x (mkBytes (Some a) size) (on_heap _ m)) by done.
  apply (block_ok x (mkBytes (Some a) size) _ a (overwrite offset data)); try done.
  simpl. intros cells Hs Hz. rewrite length_overwrite, drop_overwrite by lia. done.
Qed.

Lemma resize_ok x b size m r m' :
  mem_ok m → mm_objects m !! x = Some b → sb_resize x b size m = (r, m') → mem_ok m'.
Proof.
  intros Hm Hx. unfold sb_resize. destruct (Nat.ltb_spec (sb_size b) size) as [|Hle]; [by intros [= <- <-]|].
  destruct (Nat.ltb_spec size (sb_size b)) as [Hlt|]; [|by intros [= <- <-]].
  destruct (sb_data b) as [a|] eqn:Ed; [|by intros [= <- <-]]. intros [= <- <-].
  apply (block_ok x b (mkBytes (Some a) size) a (overwrite size (replicate (sb_size b - size) 0))); try done.
  simpl. intros cells Hs Hz. rewrite length_overwrite by (rewrite length_replicate; lia). split; [lia|].
  apply zero_overwrite; [lia|]. by replace (size + (sb_size b - size))%nat with (sb_size b) by lia.
Qed.

Lemma op_ok op m r m' : mem_ok m → apply_op op m = Some (r, m') → mem_ok m'.
Proof.
  intros Hm. destruct op as [x|x n|x y|x y|x offset data|x size|x]; simpl;
    destruct (mm_objects m !! x) as [b|] eqn:Hx; try done.
  - intros [= <- <-]. by apply bind_empty_ok.
  - intros [= <- <-]. by apply new_ok.
  - destruct (mm_objects m !! y) as [b|] eqn:Hy; [|done]. intros [= <- <-].
    apply move_ok; [done|congruence|done|congruence].
  - destruct (mm_objects m !! y) as [b'|] eqn:Hy; [|done]. intros [= <- <-]. unfold sb_assign.
    case_bool_decide as Hne; [done|]. pose proof (give_back_ok x b m Hm Hx) as H.
    apply (move_ok x y b') in H; [|done|simpl; by rewrite lookup_insert_ne|simpl; rewrite lookup_insert_eq; congruence].
    unfold sb_move, bind_object in H |- *. simpl in *.
    by rewrite insert_insert_ne, insert_insert_eq, insert_insert_ne in H by done.
  - destruct b as [[a|] size]; [|done]. destruct (Nat.leb_spec (offset + length data) size); [|done].
    intros [= <- <-]. by apply (write_ok x a size).
  - intros [= E]. by apply (resize_ok x b size m r m').
  - intros [= <- <-]. by apply destroy_ok.
Qed.

Lemma empty_ok : mem_ok mem_empty.
Proof. split; try done; simpl; intros a [? Ha]; by rewrite lookup_empty in Ha. Qed.

Lemma uses_ok m m' : uses m m' → mem_ok m → mem_ok m'.
Proof. induction 1 as [|m1 m2 m3 op r _ IH E]; [done|]. intros Hm. by apply (op_ok op m2 r), E; apply IH. Qed.

(** C10: Secrets are wiped.  Whatever is done with objects of the class SensitiveBytes --
    constructed, moved, assigned to, written to, shortened and destroyed in any order -- every
    block that went back to the heap held zeros only, each block in use belongs to one object,
    and none is in use when all objects are destroyed. *)
Theorem secrets_wiped m :
  uses mem_empty m →
  Forall zero (hp_freed (mm_heap m)) ∧
  (∀ a, is_Some (hp_blocks (mm_heap m) !! a) →
     exists! x, ∃ b, mm_objects m !! x = Some b ∧ sb_data b = Some a) ∧
  (mm_objects m = ∅ → hp_blocks (mm_heap m) = ∅).
Proof.
  intros Hu. pose proof (uses_ok _ _ Hu empty_ok) as Hm. split_and!; [apply Hm| |].
  - intros a Ha. destruct (ok_owned _ Hm a Ha) as (x & b & Hx & Hb). exists x. split; [by exists b|].
    intros y (c & Hy & Hc). by apply (ok_unique _ Hm x y b c a).
  - intros He. apply map_eq. intros a. rewrite lookup_empty. apply eq_None_not_Some. intros Ha.
    destruct (ok_owned _ Hm a Ha) as (x & b & Hx & _). by rewrite He, lookup_empty in Hx.
Qed.

(** ** Reading a secret *)

(** The buffer of the loop: the bytes read so far at the beginning of its block. *)
Definition reading (x : Z) (m0 : Mem) (read : list Z) (m : Mem) : Prop :=
  mem_ok m ∧ ∃ a cells, mm_objects m = <[x := mkBytes (Some a) (Z.to_nat (MAX_SECRET_SIZE + 1))]> (mm_objects m0) ∧
    hp_blocks (mm_heap m) !! a = Some cells ∧ take (length read) cells = read ∧
    length cells = Z.to_nat (MAX_SECRET_SIZE + 1).

Lemma take_overwrite offset data cells :
  (offset + length data ≤ length cells)%nat →
  take (offset + length data) (overwrite offset data cells) = take offset cells ++ data.
Proof.
  intros H. unfold overwrite. rewrite app_assoc. apply take_app_length'. rewrite length_app, length_take. lia.
Qed.

Lemma mem_read_loop_spec x m0 reads read m :
  reading x m0 read m → len read ≤ MAX_SECRET_SIZE →
  wp (mem_read_loop x (length read) reads) (λ r m', match r with
    | Ret used => ∃ all, read_pipe_loop read reads = Ret all ∧ used = length all ∧ reading x m0 all m' ∧
        len all ≤ MAX_SECRET_SIZE
    | Throw e => read_pipe_loop read reads = Throw e ∧ ∃ read', reading x m0 read' m'
    end) m.
Proof.
  revert read m. induction reads as [|[data| | |] reads IH]; intros read m Hr Hl; simpl.
  - apply wp_ret. by exists read.
  - replace (Z.to_nat (MAX_SECRET_SIZE + 1 - len read)) with (Z.to_nat (MAX_SECRET_SIZE + 1) - length read)%nat by lia.
    set (room := (Z.to_nat (MAX_SECRET_SIZE + 1) - length read)%nat). set (got := take room data).
    replace (0 <? len got) with (0 <? length got)%nat by (destruct got; done).
    destruct (0 <? length got)%nat; [|apply wp_ret; by exists read].
    assert (length got ≤ room)%nat as Hroom by (unfold got; rewrite length_take; lia).
    destruct Hr as (Hm & a & cells & Ho & Hc & Ht & Hlen).
    assert (reading x m0 (read ++ got) (on_heap (heap_write a (length read) got) m)) as Hr'.
    { split; [apply (write_ok x a (Z.to_nat (MAX_SECRET_SIZE + 1))); [done|by rewrite Ho, lookup_insert_eq|unfold room in *; lia]|].
      exists a, (overwrite (length read) got cells). simpl. rewrite lookup_alter_eq, Hc, length_app, Ho.
      rewrite length_overwrite, take_overwrite, Ht by (unfold room in *; lia). done. }
    apply wp_bind. unfold do_op, wp at 1. simpl. rewrite Ho, lookup_insert_eq.
    rewrite (proj2 (Nat.leb_le _ _)) by (unfold room in *; lia). simpl.
    replace (length read + length got)%nat with (length (read ++ got)) by by rewrite length_app.
    destruct (Z.ltb_spec MAX_SECRET_SIZE (len (read ++ got))).
    + apply wp_throw. split; [done|]. by eexists.
    + by apply IH.
  - by apply IH.
  - apply wp_throw. split; [done|]. by exists read.
  - apply wp_throw. split; [done|]. by exists read.
Qed.

Lemma resize_reading x m0 all m :
  reading x m0 all m → len all ≤ MAX_SECRET_SIZE →
  ∃ m', do_op (op_resize x (length all)) m = (Ret (), m') ∧ mem_ok m' ∧ object_bytes x m' = all ∧
    ∃ b, mm_objects m' = <[x := b]> (mm_objects m0).
Proof.
  intros (Hm & a & cells & Ho & Hc & Ht & Hlen) Hl. set (n := Z.to_nat (MAX_SECRET_SIZE + 1)) in *.
  assert (length all < n)%nat as Hn by (unfold n; lia).
  assert (mm_objects m !! x = Some (mkBytes (Some a) n)) as Hx by by rewrite Ho, lookup_insert_eq.
  set (m' := bind_object x (mkBytes (Some a) (length all)) (on_heap (explicit_bzero a (length all) (n - length all)) m)).
  assert (sb_resize x (mkBytes (Some a) n) (length all) m = (Ret (), m')) as Er.
  { unfold sb_resize. simpl. rewrite (proj2 (Nat.ltb_ge n (length all))) by lia.
    by rewrite (proj2 (Nat.ltb_lt (length all) n)) by lia. }
  exists m'. unfold do_op. cbn [apply_op]. rewrite Hx, Er. split_and!; [done|by apply (resize_ok _ _ _ _ _ _ Hm Hx Er)| |].
  - unfold object_bytes, sb_bytes. simpl. rewrite lookup_insert_eq. simpl. rewrite lookup_alter_eq, Hc. simpl.
    unfold overwrite. rewrite take_app_le by (rewrite length_take; lia). by rewrite take_take, Nat.min_id.
  - eexists. simpl. by rewrite Ho, insert_insert_eq.
Qed.

(** On memory the function does what it does on lists; whatever it throws, nothing of the
    secret stays behind. *)
Lemma mem_read_secret_pipe_spec x pipe m :
  mem_ok m → mm_objects m !! x = None →
  wp (mem_read_secret_pipe x pipe) (λ r m', mem_ok m' ∧ match r with
    | Ret _ => read_secret_pipe pipe = Ret (object_bytes x m') ∧ ∃ b, mm_objects m' = <[x := b]> (mm_objects m)
    | Throw e => read_secret_pipe pipe = Throw e ∧ mm_objects m' = mm_objects m
    end) m.
Proof.
  intros Hm Hx. unfold mem_read_secret_pipe, read_secret_pipe.
  destruct (sp_fd pipe <? 0); [by apply wp_throw|]. destruct (negb (sp_stat_ok pipe)); [by apply wp_throw|].
  destruct (negb (sp_is_fifo pipe)); [by apply wp_throw|]. destruct (negb (sp_fcntl_ok pipe)); [by apply wp_throw|].
  apply wp_bind. unfold do_op, wp at 1. cbn [apply_op]. rewrite Hx. cbn [fst snd].
  set (m1 := sb_new x _ m).
  assert (reading x m [] m1) as Hr.
  { split; [by apply new_ok|]. exists (hp_next (mm_heap m)), (replicate (Z.to_nat (MAX_SECRET_SIZE + 1)) 0).
    unfold m1. split; [done|]. split; [apply lookup_insert_eq|done]. }
  apply wp_catch, wp_bind. eapply wp_mono; [|by apply (mem_read_loop_spec x m (sp_reads pipe) [] m1)].
  assert (∀ e m2, mem_ok m2 → (∃ b, mm_objects m2 = <[x := b]> (mm_objects m)) →
    wp (let! _ := do_op (op_destroy x) in st_throw e : ST Mem ()) (λ r m', mem_ok m' ∧ r = Throw e ∧ mm_objects m' = mm_objects m) m2)
    as Hdestroy.
  { intros e m2 Hm2 [b Hb]. apply wp_bind. unfold do_op, wp at 1. cbn [apply_op]. rewrite Hb, lookup_insert_eq. cbn [fst snd].
    apply wp_throw. split; [apply destroy_ok; [done|by rewrite Hb, lookup_insert_eq]|]. split; [done|]. simpl.
    rewrite Hb. by apply delete_insert_id. }
  intros [used|e] m2; simpl.
  - intros (all & E & -> & Hr2 & Hl). rewrite E. destruct (resize_reading x m all m2 Hr2 Hl) as (m3 & E3 & Hm3 & Hbytes & Hb).
    apply wp_bind. unfold wp at 1. rewrite E3. cbn [fst snd]. apply wp_bind, wp_get. rewrite Hbytes. simpl.
    destruct (contains_nul all); [|apply wp_ret; by rewrite Hbytes].
    apply wp_throw. eapply wp_mono; [|by apply Hdestroy]. by intros r m4 (? & -> & ?).
  - intros (E & read & Hm2 & a & cells & Ho & _). rewrite E. eapply wp_mono; [|apply Hdestroy; [done|by eexists]].
    by intros r m4 (? & -> & ?).
Qed.

(** ** Giving up the replies *)

Definition contains (h : Heap) (response : option Z) (text : option (list Z)) : Prop :=
  match response, text with
  | None, None => True
  | Some a, Some t => hp_blocks h !! a = Some (t ++ [0]) ∧ contains_nul t = false
  | _, _ => False
  end.

Lemma c_string_nul t : contains_nul t = false → c_string (t ++ [0]) = t.
Proof.
  induction t as [|c t IH]; [done|]. unfold contains_nul. simpl. rewrite orb_false_iff. intros [Hc Ht].
  rewrite Hc. by rewrite IH.
Qed.

Lemma free_response_spec a t h :
  contains h (Some a) (Some t) → ∃ wiped, zero wiped ∧
    free_response (Some a) h = mkHeap (delete a (hp_blocks h)) (hp_next h) (hp_freed h ++ [wiped]).
Proof.
  intros [Hb Ht]. exists (overwrite 0 (replicate (length t) 0) (t ++ [0])). split.
  - apply (zero_overwrite 0); [rewrite length_app; simpl; lia|]. rewrite Nat.add_0_l, drop_app_length. by apply Forall_singleton.
  - unfold free_response, strlen, heap_free. rewrite Hb. simpl. rewrite c_string_nul, lookup_alter_eq, Hb by done. simpl.
    f_equal. apply map_eq. intros a'. destruct (decide (a' = a)) as [->|]; [by rewrite !lookup_delete_eq|].
    by rewrite !lookup_delete_ne, lookup_alter_ne.
Qed.

Lemma free_responses_spec filled texts h :
  Forall2 (contains h) filled texts → NoDup (omap id filled) →
  ∃ wiped, Forall zero wiped ∧ hp_freed (free_responses filled h) = hp_freed h ++ wiped ∧
    ∀ a, hp_blocks (free_responses filled h) !! a = if decide (a ∈ omap id filled) then None else hp_blocks h !! a.
Proof.
  revert texts h. induction filled as [|[b|] filled IH]; intros texts h Hf Hn.
  - exists []. rewrite app_nil_r. split_and!; [done|done|]. intros a. by rewrite decide_False by by apply not_elem_of_nil.
  - apply Forall2_cons_inv_l in Hf as ([t|] & texts' & Hb & Hf & ->); [|done].
    apply NoDup_cons in Hn as [Hnb Hn]. destruct (free_response_spec b t h Hb) as (wiped & Hw & E).
    change (free_responses (Some b :: filled) h) with (free_responses filled (free_response (Some b) h)). rewrite E.
    destruct (IH texts' (mkHeap (delete b (hp_blocks h)) (hp_next h) (hp_freed h ++ [wiped]))) as (l & Hl & Efreed & Eblocks).
    { apply Forall2_same_length_lookup. split; [by eapply Forall2_length|].
      intros i r o Hi Ho. pose proof (Forall2_lookup_lr _ _ _ _ _ _ Hf Hi Ho) as Hc.
      destruct r as [a|], o as [t'|]; try done. destruct Hc as [Hc Ht']. split; [|done]. simpl.
      rewrite lookup_delete_ne; [done|]. intros <-. apply Hnb. apply list_elem_of_omap. exists (Some b).
      split; [by eapply list_elem_of_lookup_2|done]. }
    { done. }
    exists (wiped :: l). split; [by constructor|]. rewrite Efreed. simpl. rewrite <- app_assoc. split; [done|].
    intros a. rewrite Eblocks. simpl. destruct (decide (a = b)) as [->|Hne].
    + rewrite lookup_delete_eq. rewrite (decide_True (P := b ∈ b :: _)) by by left. by destruct (decide _).
    + rewrite lookup_delete_ne by done. repeat case_decide; done || set_solver.
  - apply Forall2_cons_inv_l in Hf as ([t|] & texts' & Hb & Hf & ->); [done|]. by apply (IH texts').
Qed.

(** ** The conversation on memory *)

(** Secrets that arrive over the socket have no NUL. *)
Lemma received_secret who r d secret d' :
  receive_message who r d = (Ret (SecretResponse secret), d') → contains_nul secret = false.
Proof.
  unfold receive_message, st_bind, st_get, st_lift, st_modify. cbn [fst snd].
  destruct (socket_receive (ep_fd d) r) as [m|] eqn:E; [|done]. intros H.
  assert (m = SecretResponse secret) as ->.
  { destruct (advance who m (wire who m d)) as [[]]; [|done]. unfold st_ret in H. congruence. }
  unfold socket_receive in E. destruct (require_open _) as [[]|]; [|done]. simpl in E. destruct r as [|packet ctrunc]; [done|].
  rewrite !throw_if_ret in E. destruct E as (_ & _ & _ & _ & E). unfold decode_verifier_message in E.
  rewrite !throw_if_ret in E. destruct E as (_ & _ & _ & E).
  unfold decode_start, decode_status, decode_complete, mbind, res_bind in E. repeat (case_match; simplify_eq/=).
  match goal with H : validate_secret _ = Ret ?u |- _ => destruct u; by apply validate_secret_ok in H as [_ H] end.
Qed.

Definition heap_ok (h : Heap) : Prop := ∀ a, is_Some (hp_blocks h !! a) → a < hp_next h.

(** What a message adds to the heap. *)
Definition with_text (text : option (list Z)) (h : Heap) : option Z * Heap :=
  match text with
  | None => (None, h)
  | Some t => (Some (hp_next h), mkHeap (<[hp_next h := t ++ [0]]> (hp_blocks h)) (hp_next h + 1) (hp_freed h))
  end.

Lemma overwrite_copy t : overwrite 0 t (replicate (length t + 1) 0) = t ++ [0].
Proof.
  unfold overwrite. rewrite take_0, Nat.add_0_l, drop_replicate. simpl. f_equal.
  by replace (length t + 1 - length t)%nat with 1%nat by lia.
Qed.

Lemma at_endpoint_eq {A} (m : ST Endpoint A) d h r d' :
  m d = (r, d') → at_endpoint m (mkReplying d h) = (r, mkReplying d' h).
Proof. intros E. unfold at_endpoint. simpl. by rewrite E. Qed.

Lemma mem_handle_message_spec e m d h :
  match handle_message e m d with
  | (Throw ex, d') => mem_handle_message e m (mkReplying d h) = (Throw ex, mkReplying d' h)
  | (Ret (rc, text), d') =>
      let '(response, h') := with_text text h in
      mem_handle_message e m (mkReplying d h) = (Ret (rc, response), mkReplying d' h') ∧
      (rc ≠ PAM_SUCCESS → text = None) ∧ (∀ t, text = Some t → contains_nul t = false)
  end.
Proof.
  unfold handle_message, mem_handle_message. destruct (pm_style m =? PAM_PROMPT_ECHO_OFF).
  - unfold read_secret_response, mem_read_secret_response, st_bind.
    destruct (send_verifier_message _ _ d) as [[[]|ex] d1] eqn:E1; rewrite (at_endpoint_eq _ _ h _ _ E1); [|done].
    destruct (receive_message daemon (pe_recv e) d1) as [[msg|ex] d2] eqn:E2; rewrite (at_endpoint_eq _ _ h _ _ E2); [|done].
    destruct msg as [|secret| | | |]; try done. destruct (pe_calloc e); [|done].
    simpl. split; [|split; [done|]].
    + unfold st_ret. f_equal. f_equal. unfold heap_write. simpl. f_equal. apply map_eq. intros a.
      destruct (decide (a = hp_next h)) as [->|]; [|by rewrite lookup_alter_ne, !lookup_insert_ne].
      rewrite lookup_alter_eq, !lookup_insert_eq. simpl. by rewrite overwrite_copy.
    + intros t [= <-]. by apply received_secret in E2.
  - destruct (pm_style m =? PAM_PROMPT_ECHO_ON); [done|].
    destruct (pm_style m =? PAM_TEXT_INFO); [|destruct (pm_style m =? PAM_ERROR_MSG); [|done]].
    all: unfold st_bind; destruct (send_verifier_message _ _ d) as [[[]|ex] d1] eqn:E1;
      by rewrite (at_endpoint_eq _ _ h _ _ E1).
Qed.

(** The heap in the middle of a conversation: the replies filled in so far, each in a block of
    its own, and the blocks from before. *)
Record reply_blocks (h0 h : Heap) (filled : replies) (texts : pam_replies) : Prop := {
  rp_contents : Forall2 (contains h) filled texts;
  rp_distinct : NoDup (omap id filled);
  rp_fresh : ∀ a, a ∈ omap id filled → hp_blocks h0 !! a = None;
  rp_frame : ∀ a, a ∉ omap id filled → hp_blocks h !! a = hp_blocks h0 !! a;
  rp_freed : hp_freed h = hp_freed h0;
  rp_next : heap_ok h;
}.

Lemma omap_snoc (filled : replies) response :
  omap id (filled ++ [response]) = omap id filled ++ option_list response.
Proof. rewrite omap_app. by destruct response. Qed.

Lemma replying_step h0 h filled texts text response h' :
  reply_blocks h0 h filled texts → (∀ t, text = Some t → contains_nul t = false) →
  with_text text h = (response, h') → reply_blocks h0 h' (filled ++ [response]) (texts ++ [text]).
Proof.
  intros Hr Ht E. destruct text as [t|]; injection E as <- <-; cycle 1.
  { destruct Hr. split; rewrite ?omap_snoc; simpl; rewrite ?app_nil_r; try done. by apply Forall2_app; [|repeat constructor]. }
  assert (hp_blocks h !! hp_next h = None) as Hn.
  { apply eq_None_not_Some. intros Hs. apply (rp_next _ _ _ _ Hr) in Hs. lia. }
  assert (∀ a, a ∈ omap id filled → a < hp_next h) as Hlt.
  { intros a Ha. apply list_elem_of_omap in Ha as (r & Hin & Hid). destruct r as [a'|]; [|done]. injection Hid as ->.
    apply list_elem_of_lookup in Hin as [i Hi]. destruct (Forall2_lookup_l _ _ _ _ _ (rp_contents _ _ _ _ Hr) Hi) as ([t'|] & _ & Hc); [|done].
    apply (rp_next _ _ _ _ Hr). destruct Hc as [-> _]. by eexists. }
  assert (hp_next h ∉ omap id filled) as Hnin by (intros Hin; specialize (Hlt _ Hin); lia).
  split; rewrite ?omap_snoc; simpl.
  - apply Forall2_app; [|constructor; [|constructor]].
    + eapply Forall2_impl; [apply Hr|]. intros [a|] [t'|]; try done. intros [Hc Hn']. split; [|done]. simpl.
      rewrite lookup_insert_ne; [done|]. congruence.
    + split; [apply lookup_insert_eq|by apply Ht].
  - apply NoDup_app. split_and!; [apply Hr| |apply NoDup_singleton].
    intros a Ha. rewrite list_elem_of_singleton. intros ->. done.
  - intros a. rewrite elem_of_app, list_elem_of_singleton. intros [Ha| ->]; [by apply (rp_fresh _ _ _ _ Hr)|].
    by rewrite <- (rp_frame _ _ _ _ Hr).
  - intros a. rewrite elem_of_app, list_elem_of_singleton. intros Ha. rewrite lookup_insert_ne by naive_solver.
    apply (rp_frame _ _ _ _ Hr). naive_solver.
  - apply (rp_freed _ _ _ _ Hr).
  - intros a [c Ha]. simpl in *. apply lookup_insert_Some in Ha as [[<- _]|[_ Ha]]; [lia|].
    pose proof (rp_next _ _ _ _ Hr a (ex_intro _ c Ha)). lia.
Qed.

(** The replies are freed, and each of them is zero. *)
Definition given_up (h0 h : Heap) : Prop :=
  hp_blocks h = hp_blocks h0 ∧ ∃ wiped, hp_freed h = hp_freed h0 ++ wiped ∧ Forall zero wiped.

Lemma replying_given_up h0 h filled texts :
  reply_blocks h0 h filled texts → given_up h0 (free_responses filled h).
Proof.
  intros Hr. destruct (free_responses_spec filled texts h) as (wiped & Hw & Hfreed & Hb); [apply Hr|apply Hr|].
  split; [|exists wiped; split; [by rewrite Hfreed, (rp_freed _ _ _ _ Hr)|done]].
  apply map_eq. intros a. rewrite Hb. case_decide as Ha; [by rewrite (rp_fresh _ _ _ _ Hr)|by apply (rp_frame _ _ _ _ Hr)].
Qed.

(** What is left when the conversation function returns. *)
Definition replied (h0 : Heap) (out : option replies) (texts : option pam_replies) (h : Heap) : Prop :=
  match out, texts with
  | Some filled, Some texts => reply_blocks h0 h filled texts
  | None, None => given_up h0 h
  | _, _ => False
  end.

Lemma mem_conversation_loop_spec messages events filled texts d h0 h :
  reply_blocks h0 h filled texts →
  let '((rc, out), s) := mem_conversation_loop messages events filled (mkReplying d h) in
  ∃ out', st_catch (conversation_loop messages events texts) (λ _, st_ret (PAM_CONV_ERR, None)) d =
      (Ret (rc, out'), rp_endpoint s) ∧ replied h0 out out' (rp_heap s).
Proof.
  revert events filled texts d h. induction messages as [|[m|] messages IH]; intros events filled texts d h Hr; simpl.
  - by exists (Some texts).
  - pose proof (mem_handle_message_spec (default no_events (head events)) m d h) as Hm.
    unfold st_catch, st_bind. destruct (handle_message _ m d) as [[[rc text]|ex] d1].
    + destruct (with_text text h) as [response h1] eqn:Et. destruct Hm as (-> & Hrc & Hnul).
      destruct (Z.eqb_spec rc PAM_SUCCESS) as [E|E].
      * apply (IH (tail events) (filled ++ [response]) (texts ++ [text])). by apply (replying_step h0 h _ _ text).
      * rewrite (Hrc E) in Et. injection Et as <- <-. exists None. split; [done|]. by apply replying_given_up in Hr.
    + rewrite Hm. exists None. split; [done|]. by apply replying_given_up in Hr.
  - exists None. split; [done|]. by apply replying_given_up in Hr.
Qed.

(** C11: The replies to PAM on the heap.  The conversation function answers PAM the way the
    handler is verified with: on success each reply is a block with the secret and the
    terminator it is read up to, and nothing was freed.  On every failure -- a refused prompt,
    no memory, a broken socket or protocol, a cancellation -- the heap has the blocks from
    before, and what was freed was zero throughout, although only the bytes up to the first
    NUL are overwritten. *)
Theorem replies_wiped messages calloc_ok events d h :
  heap_ok h →
  let '((rc, out), s) := mem_conversation messages calloc_ok events (mkReplying d h) in
  ∃ texts, AuthHandler.conversation messages calloc_ok events d = (Ret (rc, texts), rp_endpoint s) ∧
    replied h out texts (rp_heap s).
Proof.
  intros Hh. assert (given_up h h) as Hg by (split; [done|]; exists []; by rewrite app_nil_r).
  unfold mem_conversation, AuthHandler.conversation. destruct messages as [messages|]; [|by exists None].
  destruct (_ || _); [by exists None|]. destruct (negb calloc_ok); [by exists None|].
  apply mem_conversation_loop_spec. split; try done; [apply NoDup_nil_2|]. intros a Ha. by apply not_elem_of_nil in Ha.
Qed.

(** ** Examples *)

Fixpoint run_ops (ops : list sb_op) (m : Mem) : option Mem :=
  match ops with
  | [] => Some m
  | op :: ops => match apply_op op m with Some (_, m) => run_ops ops m | None => None end
  end.

Lemma uses_run_ops ops m0 m m' : uses m0 m → run_ops ops m = Some m' → uses m0 m'.
Proof.
  revert m. induction ops as [|op ops IH]; intros m Hu; simpl; [by intros [= <-]|].
  destruct (apply_op op m) as [[r m1]|] eqn:E; [|done]. apply IH. by apply (uses_step _ m _ op r).
Qed.

(** A secret of three bytes that is shortened, passed on twice and destroyed. *)
Definition example_ops : list sb_op :=
  [op_new 1 3; op_write 1 0 [7; 8; 9]; op_resize 1 2; op_move 2 1; op_new 3 1; op_write 3 0 [5]; op_assign 3 2;
   op_destroy 1; op_destroy 2; op_destroy 3].

Lemma secrets_wiped_witness :
  ∃ m, run_ops example_ops mem_empty = Some m ∧ hp_freed (mm_heap m) = [[0]; [0; 0; 0]] ∧ hp_blocks (mm_heap m) = ∅.
Proof.
  destruct (run_ops example_ops mem_empty) as [m|] eqn:E; [|vm_compute in E; discriminate E].
  exists m. pose proof (uses_run_ops example_ops mem_empty mem_empty m (uses_refl _) E) as Hu.
  vm_compute in E. injection E as <-. split; [reflexivity|]. split; [reflexivity|].
  apply (secrets_wiped _ Hu). reflexivity.
Defined.

(** Two prompts: a secret of two bytes, and one that the handler refuses; the reply to the
    first is freed. *)
Definition example_messages : list (option pam_message) :=
  [Some (mkPamMessage PAM_PROMPT_ECHO_OFF (Some [80])); Some (mkPamMessage PAM_PROMPT_ECHO_ON None)].

Definition example_events : list PamEvents := [mkPamEvents (send_count 3) (recv_datagram [1; 2; 115; 51] false) true].

Definition example_heap : Heap := mkHeap {[ 5 := [1] ]} 6 [].

Lemma replies_wiped_witness :
  heap_ok example_heap ∧
  ∃ texts, AuthHandler.conversation (Some example_messages) true example_events (mkEndpoint 3 VerifierVerifying []) =
      (Ret (PAM_CONV_ERR, texts), snd (AuthHandler.conversation (Some example_messages) true example_events
        (mkEndpoint 3 VerifierVerifying []))) ∧
    replied example_heap None texts (mkHeap {[ 5 := [1] ]} 7 [[0; 0; 0]]).
Proof.
  assert (heap_ok example_heap) as Hh.
  { intros a [c Ha]. simpl in Ha. apply lookup_singleton_Some in Ha as [<- _]. done. }
  split; [exact Hh|].
  exact (replies_wiped (Some example_messages) true example_events (mkEndpoint 3 VerifierVerifying []) example_heap Hh).
Defined.
