(* ===== verification/ProcessResources.v ===== *)
(** * Resources of the daemon, the agent and the PAM handler (src/src/uv/src/verifier_client.cpp,
      src/src/vauth.cpp, src/client/agent_client.cpp and src/src/uv/src/auth_handler.cpp)

    What the programs own of their process, at the level of the calls, on the process of
    VerifierProcess.v: the daemon's connection to the PAM verifier, its shutdown signal, the
    pipe in which the agent hands over a secret, and the PAM session of the handler.  Each is shown to do what the file that uses it takes for
    granted, and to give back what it owns on every path. *)
From Stdlib Require Import ZArith Lia.
From stdpp Require Import base list gmap functions.
From S2P Require Import Prelude AgentClient VerifierProtocol VerifierConversation VerifierSocket.
From S2P Require Import VerifierClient VerifierService AuthHandler Daemon VerifierProcess.

(** ** Connecting to the verifier *)

Definition EINTR : Z := 4.

(** [socket] with SOCK_CLOEXEC; -1 when it fails. *)
Definition sys_socket : ST Sys Z :=
  let! rc := next_code in
  if negb (rc =? 0) then st_ret (-1) else
  let! s := st_get in
  let! _ := st_modify (set_next_file (sy_next_file s + 1)) in
  install 0 (mkOpenFd (sy_next_file s) true).

(** [do { result = connect(...); } while(result != 0 && errno == EINTR);] *)
Fixpoint skip_eintr (codes : list Z) : list Z :=
  match codes with rc :: l => if rc =? EINTR then skip_eintr l else codes | [] => [] end.

Definition connect_code : ST Sys Z :=
  let! _ := st_modify (λ s, set_codes (skip_eintr (sy_codes s)) s) in next_code.

(** [connect_to_verifier]: the local [descriptor] is closed unless it was released to the
    socket. *)
Definition sys_connect (native_path : list Z) (d : Descriptor) : ST Sys () :=
  if len native_path =? 0 then st_throw invalid_argument else
  if SUN_PATH_SIZE <=? len native_path then st_throw invalid_argument else
  let! descriptor := sys_socket in
  if descriptor <? 0 then st_throw system_error else
  let! result := connect_code in
  if negb (result =? 0) then
    let! _ := st_modify (sys_close descriptor) in st_throw system_error
  else open_socket descriptor d.

Section client.
Context {S E : Type} (cb : Callbacks S E).

Record SysClient := mkSysClient { sc_sys : Sys; sc_client : Client S }.

Definition in_sys {A} (m : ST Sys A) : ST SysClient A := λ c,
  let '(r, s) := m (sc_sys c) in (r, mkSysClient s (sc_client c)).
Definition in_client {A} (m : ST (Client S) A) : ST SysClient A := λ c,
  let '(r, k) := m (sc_client c) in (r, mkSysClient (sc_sys c) k).

(** The opening of [run_verifier_service], with the calls of [connect_to_verifier]. *)
Definition sys_open (uid : Z) (session : list Z) (timeout : Z) (path : list Z) (d : Descriptor)
    (i : ClientStart E) : ST SysClient () :=
  if cs_stop i then st_throw OperationCancelled else
  let! cancelled := in_client (on_world (cancellation_requested cb (cs_cancel i))) in
  if (cancelled : bool) then st_throw UserInteractionCancelled else
  if timeout <=? 0 then st_throw invalid_argument else
  let! _ := in_sys (sys_connect path d) in
  let! c := st_get in
  in_client (let! _ := on_socket (λ _, (Ret (), endpoint_new (sy_vars (sc_sys c) v_socket))) in
             on_socket (send_message daemon (StartVerification uid session) (cs_send i))).

(** The whole call: the destructor of [socket] runs when it ends. *)
Definition sys_run_client (uid : Z) (session : list Z) (timeout : Z) (path : list Z) (d : Descriptor)
    (i : ClientStart E) (env : list (ClientTurn S E)) (s : Sys) (w : S)
    : option (res VerificationResult) * SysClient :=
  let s := set_var v_daemon (-1) (set_var v_verifier (-1) (set_var v_socket (-1) s)) in
  match sys_open uid session timeout path d i (mkSysClient s (unconnected w)) with
  | (Throw e, c) => (Some (Throw e), mkSysClient (destroy_fd v_socket (sc_sys c)) (sc_client c))
  | (Ret _, c) =>
      match client_loop cb (cs_now i + timeout) env (sc_client c) with
      | (None, k) => (None, mkSysClient (sc_sys c) k)
      | (Some r, k) => (Some r, mkSysClient (destroy_fd v_socket (sc_sys c)) k)
      end
  end.
End client.

(** ** The pipe of a secret ([submit_secret] of src/client/agent_client.cpp) *)

(** [pipe2] with O_CLOEXEC: like [socketpair], two descriptors of two new files. *)
Definition pipe2 : ST Sys (option (Z * Z)) := socketpair.

(** [make_pipe], [write_all], [write_end.reset()] and the call, which is given the read end;
    the ends that are left are closed in reverse order, whichever way it ends. *)
Definition sys_submit {A} (secret : list Z) (writes : list write_answer) (call : Z → list Z → ST Sys A)
    : ST Sys A :=
  let! descriptors := pipe2 in
  match descriptors with
  | None => st_throw system_error
  | Some (read_end, write_end) => λ s,
      match AgentClient.write_all [] secret writes with
      | Throw e => (Throw e, sys_close read_end (sys_close write_end s))
      | Ret pipe =>
          let '(r, s) := call read_end pipe (sys_close write_end s) in
          (r, sys_close read_end s)
      end
  end.

(** ** The shutdown signal (class ShutdownSignal) *)

Definition set_mask (mask : list Z) (s : Sys) : Sys :=
  mkSys (sy_fds s) (sy_vars s) (sy_attributes s) (sy_actions s) (sy_codes s) (sy_next_file s)
    (sy_next_pid s) (sy_group s) mask (sy_ignored s) (sy_children s).

(** The members: [previousMask_], if it was installed, and [fd_]. *)
Record ShutdownSignal := mkShutdown { sh_previous : list Z; sh_fd : Z }.

(** The constructor blocks the two signals and receives them through a descriptor; when that
    cannot be made, the mask goes back (whether or not the call that does it succeeds is not
    looked at, and it succeeds here: its arguments are valid). *)
Definition shutdown_new : ST Sys ShutdownSignal :=
  let! _ := checked id in
  let! _ := checked id in
  let! _ := checked id in
  let! s := st_get in
  let previous := sy_mask s in
  let! _ := checked (set_mask (previous ++ [SIGINT; SIGTERM])) in
  let! rc := next_code in
  if negb (rc =? 0) then
    let! _ := st_modify (set_mask previous) in st_throw system_error
  else
    let! s := st_get in
    let! _ := st_modify (set_next_file (sy_next_file s + 1)) in
    let! fd := install 0 (mkOpenFd (sy_next_file s) true) in
    st_ret (mkShutdown previous fd).

Definition shutdown_destroy (sh : ShutdownSignal) (s : Sys) : Sys :=
  set_mask (sh_previous sh) (if 0 <=? sh_fd sh then sys_close (sh_fd sh) s else s).

(** ** The PAM session (class PamSession) *)

(** [pn_ended]: the statuses [pam_end] was called with. *)
Record PamRun := mkPamRun { pn_endpoint : Endpoint; pn_handle : bool; pn_status : Z; pn_ended : list Z }.

Section session.
Context (p : PamStack).

Definition in_pam {A} (m : ST Endpoint A) : ST PamRun A := λ s,
  let '(r, d) := m (pn_endpoint s) in (r, mkPamRun d (pn_handle s) (pn_status s) (pn_ended s)).

Definition session_start : ST PamRun Z := λ s,
  (Ret (pam_start p), mkPamRun (pn_endpoint s) (pam_handle p) (pam_start p) (pn_ended s)).
Definition session_set_status (status : Z) : ST PamRun () :=
  st_modify (λ s, mkPamRun (pn_endpoint s) (pn_handle s) status (pn_ended s)).
Definition session_close (status : Z) : ST PamRun Z := λ s,
  if negb (pn_handle s) then (Ret PAM_SUCCESS, s)
  else (Ret (pam_end p status), mkPamRun (pn_endpoint s) false (pn_status s) (pn_ended s ++ [status])).

Definition session_body : ST PamRun Z :=
  let! rc := session_start in
  let! rc := (if rc =? PAM_SUCCESS then in_pam (run_pam (pam_authenticate p)) else st_ret rc) in
  let! rc := (if rc =? PAM_SUCCESS then in_pam (run_pam (pam_acct_mgmt p)) else st_ret rc) in
  let! _ := session_set_status rc in
  let! end_rc := session_close rc in
  if (rc =? PAM_SUCCESS) && negb (end_rc =? PAM_SUCCESS) then st_ret end_rc else st_ret rc.

(** [authenticate] with the destructor of the session at its end. *)
Definition session_authenticate (d : Endpoint) : res Z * PamRun :=
  let '(r, s) := session_body (mkPamRun d false PAM_SYSTEM_ERR []) in
  (r, (session_close (pn_status s) s).2).
End session.
Arguments SysClient : clear implicits.

(** ** The connection is closed again *)

Lemma wp_connect_code Q s : (∀ rc l, Q (Ret rc) (set_codes l s)) → wp connect_code Q s.
Proof. intros HQ. apply wp_bind, wp_modify, wp_next_code. intros rc l. apply (HQ rc l). Qed.

(** A connection that fails leaves the table as it was; one that is made is the socket's. *)
Lemma sys_connect_spec path d s :
  (∀ x, sy_vars s x < 0) →
  wp (sys_connect path d) (λ r s', owns (sy_fds s) s' ∧ (∀ x, x ≠ v_socket → sy_vars s' x < 0) ∧
    ∃ socket_fd connected, connect_to_verifier path socket_fd connected d =
      match r with Ret _ => Ret (sy_vars s' v_socket) | Throw e => Throw e end) s.
Proof.
  intros Hv. assert (owns (sy_fds s) s) as Ho.
  { split; [intros x Hx; specialize (Hv x); lia|intros x y Hx; specialize (Hv x); lia|done]. }
  assert (∀ s', sy_fds s' = sy_fds s → sy_vars s' = sy_vars s → owns (sy_fds s) s' ∧ ∀ x, x ≠ v_socket → sy_vars s' x < 0) as Hkeep.
  { intros s' E1 E2. split; [apply (owns_same _ s); [done|by rewrite E2|done]|]. intros x _. rewrite E2. apply Hv. }
  unfold sys_connect, connect_to_verifier.
  destruct (len path =? 0); [apply wp_throw; split_and!; [done|auto|by exists None, true]|].
  destruct (SUN_PATH_SIZE <=? len path); [apply wp_throw; split_and!; [done|auto|by exists None, true]|].
  apply wp_bind, wp_bind, wp_next_code. intros rc l. destruct (negb (rc =? 0)).
  { repeat wp_basic. destruct (Hkeep (set_codes l s)); try done. split_and!; try done. by exists None, true. }
  apply wp_bind, wp_get, wp_bind, wp_modify, wp_install. intros fd Hfd Hf. simpl in Hf.
  rewrite (proj2 (Z.ltb_ge _ _)) by lia. apply wp_bind, wp_connect_code. intros rc' l'. destruct (negb (rc' =? 0)).
  { repeat wp_basic. match goal with |- owns _ ?s' ∧ _ => destruct (Hkeep s') as [H1 H2]; [simpl; by apply delete_insert_id|done|] end.
    split_and!; [done|done|]. by exists (Some fd), false. }
  unfold open_socket, wp. destruct (VerifierSocket_new fd d) as [fd'|e] eqn:E; cbn [fst snd].
  - assert (fd' = fd) as ->.
    { unfold VerifierSocket_new in E. apply throw_if_ret in E as [_ E]. by destruct (validate_socket d); simplify_eq/=. }
    split_and!.
    + eapply owns_same; [| |apply (owns_new (sy_fds s) s v_socket fd (sy_next_file s) Ho (Hv _) Hfd Hf)]; done.
    + intros x Hx. simpl. rewrite fn_lookup_insert_ne by done. apply Hv.
    + exists (Some fd), true. by rewrite E.
  - rewrite (proj2 (Z.leb_le _ _) Hfd).
    match goal with |- owns _ ?s' ∧ _ => destruct (Hkeep s') as [H1 H2]; [simpl; by apply delete_insert_id|done|] end.
    split_and!; [done|done|]. exists (Some fd), true. by rewrite E.
Qed.

(** The destructor of the socket. *)
Lemma destroy_socket base s :
  owns base s → (∀ x, x ≠ v_socket → sy_vars s x < 0) → sy_fds (destroy_fd v_socket s) = base.
Proof.
  intros Ho Hv. change (sy_fds (set_var v_socket (-1) (destroy_fd v_socket s)) = base).
  apply owns_nothing; [by apply owns_destroy|]. intros x. simpl. destruct (decide (x = v_socket)) as [->|Hne].
  - by rewrite fn_lookup_insert.
  - rewrite fn_lookup_insert_ne, destroy_vars by done. by apply Hv.
Qed.

Section client_proofs.
Context {S E : Type} (cb : Callbacks S E).

Definition with_connect (r : res Z) (i : ClientStart E) : ClientStart E :=
  mkClientStart (cs_stop i) (cs_cancel i) (cs_now i) r (cs_send i).

Lemma sys_open_spec uid session timeout path d i s c :
  (∀ x, sy_vars s x < 0) →
  wp (sys_open cb uid session timeout path d i) (λ r c',
    owns (sy_fds s) (sc_sys c') ∧ (∀ x, x ≠ v_socket → sy_vars (sc_sys c') x < 0) ∧
    ∃ socket_fd connected, open_conversation cb uid session timeout
      (with_connect (connect_to_verifier path socket_fd connected d) i) c = (r, sc_client c')) (mkSysClient s c).
Proof.
  intros Hv. assert (owns (sy_fds s) s) as Ho.
  { split; [intros x Hx; specialize (Hv x); lia|intros x y Hx; specialize (Hv x); lia|done]. }
  assert (∀ x, x ≠ v_socket → sy_vars s x < 0) as Hv' by auto.
  unfold wp, sys_open, open_conversation, with_connect. simpl. destruct (cs_stop i); [by split_and!; [done|done|exists None, true]|].
  unfold st_bind, in_client, in_sys, st_get, st_lift. simpl. destruct (on_world _ c) as [[[]|e] c1]; simpl; [by split_and!; [done|done|exists None, true]| |by split_and!; [done|done|exists None, true]].
  destruct (timeout <=? 0); [by split_and!; [done|done|exists None, true]|].
  pose proof (sys_connect_spec path d s Hv) as Hc. unfold wp in Hc. simpl.
  destruct (sys_connect path d s) as [[[]|e] s1]; destruct Hc as (Ho1 & Hv1 & fd & connected & E1); simpl in *.
  - destruct (on_socket (send_message _ _ _) _) as [r c2] eqn:E2. simpl in *. split_and!; [done|done|].
    exists fd, connected. by rewrite E1.
  - split_and!; [done|done|]. exists fd, connected. by rewrite E1.
Qed.

(** A verification leaves no descriptor behind in the daemon: the run with its calls has the
    outcome of [run_verifier_service], and the table is the one from before when it ends. *)
Lemma client_calls_refine uid session timeout path d i env s w :
  let '(o, c) := sys_run_client cb uid session timeout path d i env s w in
  (∃ socket_fd connected, run_verifier_service cb uid session timeout
     (with_connect (connect_to_verifier path socket_fd connected d) i) env w = (o, sc_client c)) ∧
  (o ≠ None → sy_fds (sc_sys c) = sy_fds s).
Proof.
  unfold sys_run_client, run_verifier_service. set (s1 := set_var v_daemon _ _).
  pose proof (sys_open_spec uid session timeout path d i s1 (unconnected w) (empty_vars s)) as H. unfold wp in H.
  destruct (sys_open _ _ _ _ _ _ _ _) as [[[]|e] c]; destruct H as (Ho & Hv & fd & connected & E1); simpl in *.
  - destruct (client_loop cb _ env (sc_client c)) as [[r|] k] eqn:E2; simpl;
      (split; [exists fd, connected; by rewrite E1|]); [intros _; by apply (destroy_socket _ _ Ho)|done].
  - split; [exists fd, connected; by rewrite E1|]. intros _. by apply (destroy_socket _ _ Ho).
Qed.
End client_proofs.

(** ** The pipe is at its end when the daemon reads it *)

(** No descriptor of a file. *)
Definition unused (file : Z) (fds : gmap Z OpenFd) : Prop := ∀ fd f, fds !! fd = Some f → of_file f ≠ file.

(** The call is made with the whole secret in the pipe and with no descriptor of its write end
    left, so that the daemon, which refuses a pipe that could still be written to, finds the
    end of the file; a call that keeps the table leaves the one from before. *)
Lemma sys_submit_spec {A} secret writes (call : Z → list Z → ST Sys A) (Q : res A → Sys → Prop) s :
  (∀ file, sy_next_file s ≤ file → unused file (sy_fds s)) →
  (∀ l n, Q (Throw system_error) (set_next_file n (set_codes l s))) →
  (∀ e s', AgentClient.write_all [] secret writes = Throw e → sy_fds s' = sy_fds s → Q (Throw e) s') →
  (∀ read_end pipe s', AgentClient.write_all [] secret writes = Ret pipe → sy_fds s !! read_end = None →
    sy_fds s' = <[read_end := mkOpenFd (sy_next_file s) true]> (sy_fds s) → unused (sy_next_file s + 1) (sy_fds s') →
    wp (call read_end pipe) (λ r s'', sy_fds s'' = sy_fds s' ∧
      ∀ s3, sy_fds s3 = sy_fds s → Q r s3) s') →
  wp (sys_submit secret writes call) Q s.
Proof.
  intros Hfresh H1 H2 H3. apply wp_bind, wp_bind, wp_next_code. intros rc l. destruct (negb (rc =? 0)).
  { repeat wp_basic. specialize (H1 l (sy_next_file s)). by destruct s. }
  apply wp_bind, wp_get, wp_bind, wp_modify, wp_bind, wp_install. intros a Ha Hfa.
  apply wp_bind, wp_install. intros b Hb Hfb. apply wp_ret. simpl in *.
  assert (a ≠ b) as Hne by (intros ->; by rewrite lookup_insert_eq in Hfb).
  rewrite lookup_insert_ne in Hfb by done. set (s1 := map_fds _ _).
  assert (sy_fds (sys_close b s1) = <[a := mkOpenFd (sy_next_file s) true]> (sy_fds s)) as E1.
  { unfold s1. simpl. apply delete_insert_id. by rewrite lookup_insert_ne. }
  unfold wp. destruct (AgentClient.write_all [] secret writes) as [pipe|e] eqn:Ew.
  - assert (unused (sy_next_file s + 1) (sy_fds (sys_close b s1))) as Hu.
    { rewrite E1. intros fd f. rewrite lookup_insert_Some. intros [[_ <-]|[_ Hf]]; [simpl; lia|].
      apply (Hfresh (sy_next_file s + 1) ltac:(lia) fd f Hf). }
    specialize (H3 a pipe (sys_close b s1) eq_refl Hfa E1 Hu). unfold wp in H3.
    destruct (call a pipe (sys_close b s1)) as [r s2]. destruct H3 as [Hs2 HQ]. apply HQ. simpl in *.
    rewrite Hs2, E1. by apply delete_insert_id.
  - apply (H2 e _ eq_refl). simpl in *. rewrite E1. by apply delete_insert_id.
Qed.

(** ** The shutdown signal is taken back *)

(** Once it is constructed, both signals are blocked and only its descriptor is new; its
    destruction restores the mask and the table.  A constructor that throws has restored them
    itself.  Its outcome is that of [ShutdownSignal_new] for some answers. *)
Lemma shutdown_new_spec s :
  wp shutdown_new (λ r s',
    match r with
    | Ret sh => SIGINT ∈ sy_mask s' ∧ SIGTERM ∈ sy_mask s' ∧
        (∀ signal, signal ∈ sy_mask s → signal ∈ sy_mask s') ∧ sy_fds s !! sh_fd sh = None ∧
        sy_fds (shutdown_destroy sh s') = sy_fds s ∧ sy_mask (shutdown_destroy sh s') = sy_mask s
    | Throw _ => sy_fds s' = sy_fds s ∧ sy_mask s' = sy_mask s
    end ∧
    ∃ prepared blocked descriptor, ShutdownSignal_new prepared blocked descriptor =
      match r with Ret sh => Ret (sh_fd sh) | Throw e => Throw e end) s.
Proof.
  unfold shutdown_new. do 3 (apply wp_bind, wp_checked; [intros; split; [done|]; by exists false, true, 0|intros]).
  apply wp_bind, wp_get, wp_bind, wp_checked; [intros; split; [done|]; by exists true, false, 0|intros].
  apply wp_bind, wp_next_code. intros rc l'. destruct (negb (rc =? 0)).
  { repeat wp_basic. split; [done|]. by exists true, true, (-1). }
  apply wp_bind, wp_get, wp_bind, wp_modify, wp_bind, wp_install. intros fd Hfd Hf. apply wp_ret. simpl in *. split.
  - unfold shutdown_destroy. simpl. rewrite (proj2 (Z.leb_le _ _) Hfd). simpl.
    split_and!; [set_solver|set_solver|set_solver|done|by apply delete_insert_id|done].
  - exists true, true, fd. unfold ShutdownSignal_new. simpl. by rewrite (proj2 (Z.ltb_ge _ _)) by lia.
Qed.

(** ** The PAM session is ended once *)

(** PAM and its modules report failures by their status. *)
Lemma run_pam_returns program d : ∃ rc d', run_pam program d = (Ret rc, d').
Proof.
  revert d. induction program as [rc|messages calloc_ok events k IH]; intros d; simpl; [by eexists _, _|].
  unfold st_bind, AuthHandler.conversation. destruct messages as [messages|]; [|apply IH].
  destruct (_ || _); [apply IH|]. destruct (negb calloc_ok); [apply IH|]. unfold st_catch.
  destruct (conversation_loop _ _ _ _) as [[[rc out]|e] d1]; apply IH.
Qed.

Lemma in_pam_eq {A} (m : ST Endpoint A) d d' r handle status ended :
  m d = (r, d') → in_pam m (mkPamRun d handle status ended) = (r, mkPamRun d' handle status ended).
Proof. intros E. unfold in_pam. simpl. by rewrite E. Qed.

(** A call of PAM that is made when the one before succeeded. *)
Lemma session_call (go : bool) program rc d handle status :
  ∃ rc' d', (if go then run_pam program else st_ret rc) d = (Ret rc', d') ∧
    (if go then in_pam (run_pam program) else st_ret rc) (mkPamRun d handle status []) =
      (Ret rc', mkPamRun d' handle status []).
Proof.
  destruct go; [|by eexists _, _]. destruct (run_pam_returns program d) as (rc' & d' & E).
  exists rc', d'. split; [done|]. by apply in_pam_eq.
Qed.

(** The session with its object is the [authenticate] of AuthHandler.v; [pam_end] is called
    exactly once for a handle that was delivered, with the status of the last call, and never
    without a handle; the destructor finds nothing left to end. *)
Lemma session_authenticate_spec p d :
  let '(r, s) := session_authenticate p d in
  AuthHandler.authenticate p d = (r, pn_endpoint s) ∧ pn_handle s = false ∧
  ∃ rc, pn_ended s = (if pam_handle p then [rc] else []) ∧
    (r = Ret rc ∨ rc = PAM_SUCCESS ∧ r = Ret (close_session p rc)).
Proof.
  unfold session_authenticate, session_body, AuthHandler.authenticate, session_start, st_bind. simpl.
  destruct (session_call (pam_start p =? PAM_SUCCESS) (pam_authenticate p) (pam_start p) d (pam_handle p) (pam_start p))
    as (rc1 & d1 & -> & ->).
  destruct (session_call (rc1 =? PAM_SUCCESS) (pam_acct_mgmt p) rc1 d1 (pam_handle p) (pam_start p))
    as (rc & d2 & -> & ->).
  unfold session_set_status, session_close, close_session, st_modify. simpl.
  destruct (pam_handle p) eqn:Ep; simpl; destruct (Z.eqb_spec rc PAM_SUCCESS) as [->|]; simpl;
    try (destruct (negb _); simpl); split_and!; try done; exists rc || exists PAM_SUCCESS; eauto.
Qed.
