(* ===== verification/Animation.v ===== *)
(** * The agent's animations (src/client/main.cpp)

    While a verification is on display a timer draws a frame of the status animation every
    16 ms: which animation and which frame follows from what the window of AgentUi.v asks for
    and from the time since it was asked for.  The library that renders (rlottie) is a
    parameter. *)
From Stdlib Require Import ZArith Lia.
From stdpp Require Import base list strings.
From S2P Require Import Prelude ClientTracker AgentUi.

(** ** The library *)

Inductive status_animation := pending_animation | success_animation | fail_animation.

(** [elapsed_frames a d]: the frames of [a] in a duration of [d] nanoseconds, truncated to an
    integer; a surface holds ARGB pixels of 32 bits. *)
Class Rlottie := {
  totalFrame : status_animation → Z;
  elapsed_frames : status_animation → Z → Z;
  renderSync : status_animation → Z → Z → Z → list Z;
  totalFrame_size a : 0 ≤ totalFrame a;
  elapsed_frames_mono a d d' : 0 ≤ d → d ≤ d' → 0 ≤ elapsed_frames a d ≤ elapsed_frames a d';
  renderSync_size a frame width height :
    1 ≤ width → 1 ≤ height → len (renderSync a frame width height) = width * height;
  renderSync_pixels a frame width height : Forall (λ p, is_u32 p) (renderSync a frame width height);
}.

(** [StatusAnimations::for_kind] *)
Definition for_kind (kind : list Z) : status_animation :=
  if bool_decide (kind = lit "success") then success_animation else
  if bool_decide (kind = lit "failure") then fail_animation else pending_animation.

Record Rgba8Pixel := mkRgba { px_red : Z; px_green : Z; px_blue : Z; px_alpha : Z }.

Definition rgba_of (pixel : Z) : Rgba8Pixel :=
  mkRgba (u8 (Z.land (Z.shiftr pixel 16) 255)) (u8 (Z.land (Z.shiftr pixel 8) 255))
    (u8 (Z.land pixel 255)) (u8 (Z.land (Z.shiftr pixel 24) 255)).

Record Picture := mkPicture { pic_width : Z; pic_height : Z; pic_pixels : list Rgba8Pixel }.

(** The members of the lambda [renderTick]. *)
Record RenderState := mkRender { rd_kind : list Z; rd_revision : Z; rd_started : Z }.

Definition render_initial (now : Z) : RenderState := mkRender [] (-1) now.

Section render.
Context `{Rlottie}.

(** The loop writes pixel for pixel into a buffer of the same size. *)
Definition render_frame (a : status_animation) (frame width height : Z) : Picture :=
  mkPicture width height (rgba_of <$> renderSync a frame width height).

Definition select_frame (kind : list Z) (elapsed total : Z) : Z :=
  if bool_decide (kind = lit "waiting") then elapsed mod total else Z.min elapsed (total - 1).

(** [restart_now] and [now] are the two readings of the clock, [scaled_width] and
    [scaled_height] the logical size times the window's scale, truncated. *)
Definition renderTick (ui : AppWindow) (restart_now now scaled_width scaled_height : Z) (s : RenderState)
    : option Picture * RenderState :=
  let s := if negb (bool_decide (aw_animation_kind ui = rd_kind s)) || negb (aw_animation_revision ui =? rd_revision s)
           then mkRender (aw_animation_kind ui) (aw_animation_revision ui) restart_now else s in
  let animation := for_kind (rd_kind s) in
  let total_frames := totalFrame animation in
  if total_frames =? 0 then (None, s) else
  let frame := select_frame (rd_kind s) (elapsed_frames animation (now - rd_started s)) total_frames in
  (Some (render_frame animation frame (Z.max 1 scaled_width) (Z.max 1 scaled_height)), s).

(** ** What is drawn *)

Lemma select_frame_range kind elapsed total : 0 ≤ elapsed → 0 < total → 0 ≤ select_frame kind elapsed total < total.
Proof. intros. unfold select_frame. case_bool_decide; [by apply Z.mod_pos_bound|lia]. Qed.

(** The waiting animation repeats; any other runs once and rests on its last frame. *)
Lemma select_frame_waiting elapsed total :
  0 < total → select_frame (lit "waiting") (elapsed + total) total = select_frame (lit "waiting") elapsed total.
Proof. intros. unfold select_frame. simpl. rewrite <- (Z.mul_1_l total) at 1. by rewrite Z.mod_add by lia. Qed.

Lemma select_frame_once kind elapsed elapsed' total :
  kind ≠ lit "waiting" → elapsed ≤ elapsed' → 0 < total →
  select_frame kind elapsed total ≤ select_frame kind elapsed' total ∧
  (total - 1 ≤ elapsed → select_frame kind elapsed' total = total - 1).
Proof. intros. unfold select_frame. case_bool_decide; [done|]. lia. Qed.

(** A presentation with an animation of its own starts that animation from the beginning, in
    whatever state the renderer was that last drew this window. *)
Lemma presented_animation_starts p ui s restart_now now width height :
  up_animation p ≠ anim_none → rd_revision s = aw_animation_revision ui →
  let s' := (renderTick (present p ui) restart_now now width height s).2 in
  rd_kind s' = animation_name (up_animation p) ∧ rd_started s' = restart_now.
Proof.
  intros Ha Hr. unfold renderTick, present. simpl.
  assert (negb (match up_animation p with anim_none => true | _ => false end) = true) as -> by by destruct (up_animation p).
  rewrite Hr, (proj2 (Z.eqb_neq (aw_animation_revision ui + 1) (aw_animation_revision ui))), orb_true_r by lia. by destruct (_ =? 0).
Qed.

(** A picture: a frame of the animation, of at least one pixel and of its announced size. *)
Lemma renderTick_picture ui restart_now now width height s picture s' :
  rd_started s ≤ now → restart_now ≤ now →
  renderTick ui restart_now now width height s = (Some picture, s') →
  rd_kind s' = aw_animation_kind ui ∧
  (∃ frame, 0 ≤ frame < totalFrame (for_kind (rd_kind s')) ∧
     picture = render_frame (for_kind (rd_kind s')) frame (pic_width picture) (pic_height picture)) ∧
  1 ≤ pic_width picture ∧ 1 ≤ pic_height picture ∧
  len (pic_pixels picture) = pic_width picture * pic_height picture.
Proof.
  intros Hs Hn. unfold renderTick. set (s1 := if negb _ || negb _ then _ else _).
  assert (rd_kind s1 = aw_animation_kind ui ∧ rd_started s1 ≤ now) as [Hk Hst].
  { unfold s1. case_bool_decide as E; simpl; [|done]. destruct (negb (_ =? rd_revision s)); simpl; (split; [congruence|lia]). }
  destruct (Z.eqb_spec (totalFrame (for_kind (rd_kind s1))) 0) as [|Ht]; [done|]. intros [= <- <-]. simpl.
  split_and!; [done| |lia|lia|rewrite length_fmap, renderSync_size; lia].
  pose proof (totalFrame_size (for_kind (rd_kind s1))).
  eexists. split; [|done]. apply select_frame_range; [|lia].
  apply (elapsed_frames_mono _ _ (now - rd_started s1)); lia.
Qed.
End render.

(** The conversion of a pixel keeps its four channels. *)
Lemma rgba_of_channels pixel :
  is_u32 pixel →
  join32 (px_alpha (rgba_of pixel)) (px_red (rgba_of pixel)) (px_green (rgba_of pixel)) (px_blue (rgba_of pixel)) = pixel.
Proof.
  intros Hp. rewrite <- (join32_split pixel Hp) at 5. unfold rgba_of. simpl. rewrite !u8_shiftr_land by lia.
  change 255 with (Z.ones 8). rewrite Z.land_ones by lia. unfold u8. rewrite Z.mod_mod by lia. done.
Qed.

(** ** An example: two seconds of 30 frames each *)

#[local, program] Instance example_rlottie : Rlottie := {|
  totalFrame _ := 60;
  elapsed_frames _ d := d * 30 / 1000000000;
  renderSync _ frame width height := replicate (Z.to_nat (width * height)) (u32 frame);
|}.
Next Obligation. done. Qed.
Next Obligation. intros a d d' ??. simpl. split; [apply Z.div_pos; lia|apply Z.div_le_mono; lia]. Qed.
Next Obligation. intros a frame width height ??. simpl. rewrite length_replicate. lia. Qed.
Next Obligation. intros a frame width height. apply Forall_replicate. unfold u32. apply Z.mod_pos_bound. lia. Qed.

(** The animation of a failure is drawn to its end, the waiting one goes round. *)
Definition example_window (animation : AnimationKind) : AppWindow :=
  mkWindow (lit "verification") [] [] [] [] true (animation_name animation) 1 false true.

Definition frame_at (animation : AnimationKind) (milliseconds_later : Z) : option Z :=
  p ← (renderTick (example_window animation) 0 (milliseconds milliseconds_later) 1 0 (render_initial 0)).1;
  px_blue <$> head (pic_pixels p).

Example example_frames :
  (frame_at anim_failure <$> [0; 500; 1999; 5000]) = [Some 0; Some 15; Some 59; Some 59] ∧
  (frame_at anim_waiting <$> [0; 500; 2000; 2500]) = [Some 0; Some 15; Some 0; Some 15].
Proof. vm_compute. done. Qed.
